(* ===== verification/_CoqProject ===== *)
-Q . S2P
Prelude.v
RustStr.v
Bytes.v
Records.v
JsonValue.v
RingBuffer.v
OutputProcessor.v
BoundaryDetector.v
RecordStore.v
ByteChannel.v
SessionPool.v
SessionRuntime.v
Attach.v
AttachServer.v
Gate.v
PerfData.v
PerfWorker.v
RiskLex.v
RiskGuard.v
RiskGuardSpec.v
PathGuard.v
FileTree.v
RunCommand.v
RunCommandSpec.v
Sandbox.v
StrOrder.v
FileTools.v
FileToolsSpec.v
Chat.v
Sse.v
SseSpec.v
ChatSpec.v
Redaction.v
RedactionSpec.v
Dispatcher.v
DispatcherSpec.v
LogClassify.v
ChatSession.v
ChatSessionSpec.v
Hosts.v
Remote.v
RemoteSpec.v
Fanout.v
HostsSpec.v
BatchAudit.v
QueryDigest.v
QueryDigestSpec.v
Workload.v
WorkloadWire.v
WorkloadSpec.v
WorkloadWireSpec.v
Spool.v
SpoolSpec.v
Checkpoint.v
Float64.v
Backoff.v
LogGate.v
Journald.v
JournaldSpec.v
Registry.v
Ipc.v
Health.v
LogExport.v
LogExportSpec.v
Control.v
ControlSpec.v
ControlLife.v
Uds.v
AuditLog.v
AuditSpec.v
AuditQuery.v
AuditKeys.v
FileTail.v
FileTailSpec.v
FileTailRotate.v
Container.v
ProcessInventory.v
DaemonLock.v
DaemonLockSpec.v
DaemonLockAll.v
