(* ===== verification/Prelude.v ===== *)
(** * A verification development for aic

    aic is a terminal assistant. A shell runs under [aic-session], which reads its
    pseudo-terminal, shows the output, cuts it into command records and keeps the recent
    ones; the per-user daemon [aicd] receives the same bytes over a socket, cuts them again
    and keeps records per session, and exports telemetry. The client [aic] analyses failures,
    and runs or refuses commands on the local host and on remote ones.

    ** Parts, files and sources

    Shared:
    - [Prelude]: results with panics ([outcome]), tactics, hint databases, list lemmas.
    - [RustStr]: what the code uses of [str] and of number formatting: prefixes, search,
      UTF-8, white space, splitting, parsing and printing integers.
    - [Bytes]: slices with [usize] positions as integers, big- and little-endian integers.
    - [StrOrder]: the order of strings and paths, sorting, zero-padded decimals.
    - [JsonValue]: values of [serde_json].
    - [FileTree]: a file system with links as a map from paths to nodes; canonical paths.

    Capture path (aic-server, aic-common):
    - [Records]: [CommandRecord] and identifiers (aic-common/src/lib.rs, session.rs).
    - [RingBuffer]: ring_buffer.rs; state [RingBuffer], [push], [evict], [recent_lines].
    - [OutputProcessor]: output_processor.rs; OSC 133 marker extraction, alternate screen.
    - [BoundaryDetector]: boundary_detector.rs; the state machine from lines to records.
    - [RecordStore]: command_record_store.rs; rings per session, pending starts, the tap.
    - [ByteChannel]: bounded_byte_channel.rs and [AttachClient::try_send]; the operations
      both as functions and as interleaved atomic steps ([exec]).
    - [SessionPool]: session_processor_pool.rs; processors as references into a heap.
    - [SessionRuntime]: the per-chunk fan-out and record dispatch of session_runtime.rs.
    - [Attach], [AttachServer]: attach.rs, the frame codec of ipc.rs, the writer of
      attach_client.rs and the connection handler of attach_server.rs.
    - [Gate]: boundary_ownership_gate.rs; ownership and reconnection with backoff.

    Daemon (aic-server, aic-common):
    - [Registry]: session_registry.rs and its snapshot file; state changes of a session,
      the sweep of silent sessions, pruning, atomic save and load ([SnapshotJson]).
    - [Ipc]: the requests and answers of ipc.rs and the size-limited frame reader ([IpcJson]).
    - [Control], [ControlSpec], [ControlLife]: control_server.rs; every request as a function
      of the registry, the saved file and the sent signals ([ControlContext]); restart; runs
      of requests and sweeps over time.
    - [Uds]: uds_server.rs; the query server of a session.
    - [DaemonLock], [DaemonLockSpec], [DaemonLockAll]: lock.rs; lock files with their owner's
      identity, against a system of processes and files ([Sys]) in which pids are reused.

    Observation (aic-common, aic-server/src/otlp_exporter):
    - [PerfData], [PerfWorker]: jvm_perfdata.rs; the parser of a JVM's counters and the
      wire format of the worker process.
    - [Spool], [SpoolSpec]: spool.rs; batches on disk, quotas, drain, age limit, restart.
    - [Checkpoint]: logs/checkpoint.rs; ordered acknowledgement and the cursor store.
    - [FileTail], [FileTailSpec], [FileTailRotate]: logs/file.rs; complete lines, the open
      handle and the one being drained, rotation by renaming and by truncation.
    - [Container]: logs/container.rs, docker.rs of aic-common; the logs of
      containers, found by scans, a [FileTail] for each.
    - [Float64]: the [f64] of the program as binary64 ([SpecFloat]), exact on integers and halves.
    - [Backoff], [LogGate]: backoff.rs, logs/filter.rs, logs/limiter.rs; retry intervals,
      least severities, token buckets per service.
    - [Health]: health.rs, the drop counters of logs/mod.rs and the pushes of mod.rs.
    - [LogExport], [LogExportSpec]: logs/exporter.rs; gate, buffer, splitting, push or spool.
    - [ProcessInventory]: process_inventory.rs, process_inventory_store.rs and their tick in
      mod.rs, changes.rs; differences of process tables, in batches, in a ring and as events.
    - [Journald], [JournaldSpec]: logs/journald.rs; parsing, cursor, restarts of the child.
    - [QueryDigest], [QueryDigestSpec]: otlp_exporter/query_digest.rs; differences of
      the counters of database statements between polls.
    - [Workload], [WorkloadSpec], [WorkloadWire], [WorkloadWireSpec]: workload.rs; the parsers
      of what services report, and the exchanges with Redis, Memcached, HTTP and SQL servers.

    Command safety (aic-client):
    - [RiskLex], [RiskGuard]: risk_guard.rs; scanning of shell text and classification.
      [RiskGuardSpec]: command lines printed from calls, against which it is judged.
    - [PathGuard]: remote/path_guard.rs and whitelist.rs; the gate of remote commands.
    - [RunCommand], [RunCommandSpec]: agent/tools/run_command.rs and the part of
      agent/sandbox.rs it calls; text checks, operands per program, the confirmation rule and
      the bounded output.
    - [AuditLog], [AuditSpec], [AuditQuery], [AuditKeys]: audit.rs; the hash chain, its
      verification, tail and search, and where the key comes from.
    - [Sandbox], [FileTools], [FileToolsSpec]: agent/sandbox.rs, agent/tools/mod.rs; ignore
      rules, the tools that read, list, search, write and edit files.

    Remote hosts (aic-client):
    - [Hosts], [HostsSpec]: agent/hosts.rs; ssh_config, hosts.toml, groups, ad hoc hosts.
    - [Remote], [RemoteSpec]: agent/remote/mod.rs, ssh_process.rs, secret_filter.rs, tofu.rs;
      the command line of [ssh], quoting, output, status, keys; [hosts ping] of main.rs.
    - [Fanout]: agent/remote/fanout.rs, diagnose.rs; a group's run as a step
      relation, results and incomplete hosts, the report of a diagnosis.
    - [BatchAudit]: agent/audit_batch.rs; a chain of hashes for each day,
      its verification, what a fan-out records.

    Chat agent (aic-client, aic-common):
    - [Chat], [ChatSpec]: agent/types.rs; messages, both wire forms, answers, saved sessions.
    - [Sse], [SseSpec]: streaming.rs; events cut from chunks, answers put together.
    - [Redaction], [RedactionSpec]: redaction.rs; patterns, prefilter, masking.
    - [Dispatcher], [DispatcherSpec]: llm_dispatcher.rs, error.rs; circuit breaker, requests,
      retries, streams, command-line backends.
    - [LogClassify]: the log tool of agent/session.rs, agent/tool_record.rs.
    - [ChatSession], [ChatSessionSpec]: agent/session.rs, agent/mcp.rs; turns as a step
      relation and as the loops of the code, tool calls and their guards, cancellation, and the
      probes of the slash commands that look at the machine.

    The capture components compose as in the code: [SessionPool] and [SessionRuntime] run an
    [OutputProcessor] and a [BoundaryDetector] on every chunk; [AttachServer] decodes
    [Attach] frames, feeds the pool and pushes to the [RecordStore]; [SessionRuntime] writes
    to a [RingBuffer], to the [ByteChannel] and to the [RecordStore]. [LineSource]
    ([RecordStore]) is the interface under which ring buffer and store serve the same
    queries; [AttachJson] ([Attach]), [IpcJson] ([Ipc]), [SnapshotJson] ([Registry]) and
    [AuditJson] with its laws ([AuditLog]) are the interfaces of the JSON library for each kind of
    data. [Remote] runs what [PathGuard] lets pass on hosts of [Hosts], alone or by [Fanout].
    [RunCommand] asks [RiskGuard] for the class of a command, and the
    control server and the session's query server share the frames of [Ipc]. [ChatSession]
    runs commands through [RunCommand], files through [FileTools] on a [FileTree], and logs
    through [LogClassify]; its history is what [Chat] turns into requests, which [Dispatcher]
    masks with [Redaction] and reads back with [Sse].

    ** What the theorems show

    - Storage: pushing to the ring buffer evicts as little as the capacity allows and keeps
      the line count exact ([push_correct]); reads are the tail of the flattened output
      ([recent_lines_correct]); a session's ring in the daemon is the tail of what the tap
      saw ([ring_is_tail_of_tap]), replays are stored once, starts and finishes match.
    - Capture: the marker extraction is exact on framed streams ([extract_stream]); a framed
      command is recorded with its text, code and output ([framed_command_recorded]); no
      line is lost, duplicated or reordered ([feed_lines_conserve], [feed_chunks_conserve]);
      sessions of the pool do not interfere ([pool_noninterference], a simulation by a map of
      independent processors); the session's and the daemon's copies agree
      ([local_matches_central], [dual_write_agree]); passthrough is byte exact.
    - Transport: for any interleaving of producers and consumer the channel's byte count is
      exact and its memory bounded ([channel_accounting], [channel_memory_bound]); frames and
      worker messages round trip and decoders reject everything else; a whole attach
      connection stores what the session would ([attach_end_to_end]) and cleans up
      ([connection_cleans_up]); the reconnection schedule is exact ([reconnect_schedule]).
    - Parsing: the PerfData parser never panics and returns only values the input holds
      ([parse_no_panic], [parse_sound]).
    - Durability: after any sequence of operations and restarts the spool counts exactly the
      bytes on disk, within the quotas ([spool_invariant]); eviction is minimal and within one
      kind ([append_drops_least]); drains keep the order ([drain_in_order]); the tracker
      commits exactly the finished prefix ([committed_exact]); from an agreeing checkpoint, and with
      sends and saves that succeed, the tailer sends each complete
      line of a growing file once and in order, whatever the channel's room and across
      restarts, and catches up ([tail_exactly_once], [tail_catches_up]); it reads a rotated file to
      its end before the new one ([rotation_in_order]), and the same holds for each container
      among the others ([containers_independent]); entries of the journal are handed over
      once ([journal_resumed]).
    - Log export: every line is in one send, in the buffer or in a counter
      ([export_conserves]); batches split into parts that fit ([split_complete]); a collector
      that is down costs few attempts ([down_collector]); memory is bounded
      ([buffer_bounded], [limiter_memory_bound]); bursts are exact ([burst_exact]).
    - Daemon: the saved snapshot restores what the daemon holds, but for sessions older than a
      day, and none attached ([restart_restores_registry]); a silent session is detached
      within the sweep interval and a reporting one stays active ([silent_session_detached],
      [reporting_session_stays_active]); only pids of registered sessions are signalled
      ([signals_only_sessions]); a lock has one live owner as long as every
      acquirer reads its own path without the deletion mark and acquisitions do not overlap
      ([single_owner]; [replaced_owner_is_stale] and [lock_race] show what happens else); several locks are taken all or none
      ([lock_set_all_or_nothing]).
    - Audit: what the program appends verifies ([appended_log_verifies]); as long as no MAC
      is forged, a log that verifies is a prefix of what was appended
      ([verified_log_is_prefix]); the key survives restarts ([key_survives_restart]).
    - Safety: a line of calls runs unconfirmed exactly when the tables list every call as safe,
      whatever its quoted words hold ([line_runs_iff_listed]), a line never with [sudo] or [doas]
      in front ([privileged_never_auto_run]), and joining two lines is never better than the worse
      ([semicolon_takes_worst]); the path normal form decides path equivalence
      ([canonicalize_decides_equivalence]) and an accepted remote command names no protected
      file by an absolute path ([accepted_command_harmless]); a command of the agent's tool
      that passes runs only listed programs, and its operands, told apart without the code's own
      rule, are inside the working directory ([run_command_confined]; options that take a path are not
      looked at, [secrets_read_silently]); the file tools read and write only what resolves to a place
      below the root that is neither secret nor ignored, and reading shows exactly that file up to
      the limits ([read_confined], [write_confined]).
    - Remote hosts: the shell of a host gets the words that the gate looked at
      ([remote_runs_what_passed], [symptom_stays_text]), on the hosts that the files name
      ([ssh_config_read], [inventory_names]); a run has at most [max_parallel] hosts under way, tries
      each once and ends
      ([fan_invariant], [fan_terminates]) and accounts for every host ([fanout_accounts],
      [diagnosis_accounts]); output is bounded ([bounded_output]) and accepted keys are known
      ([trusted_keys_read_back]). The audit of a run accounts for it ([audit_accounts]);
      a day's segment verifies ([appended_batches_verify]) and is determined by its last
      hash ([last_hash_determines]).
    - Processes: the numbered batches are enough to follow the table
      ([consumer_in_sync]), also when some are lost ([consumer_never_wrong]); transitions are
      those of each process in whatever order ([transitions_exact]).
    - Services: digests of statements report each execution once ([digest_calls_exact]);
      numbers of metric pages are read exactly ([exposition_exact], [pages_exact],
      [haproxy_sums]); exchanges succeed exactly when the service answers as its protocol says
      ([redis_exchange_exact], [memcached_exchange_exact], [http_body_exact]) and a password
      reaches it unchanged ([auth_roundtrip]).
    - Chat: whatever the model asks for, a command, a write or a server's tool happens only
      with what allows it ([commands_guarded]); where commands are disabled, only
      the fixed probes of [/health] and of background snapshots run, and they do
      ([read_only_session_runs]); the history answers every call in order
      ([history_well_formed]), so, unless a repair was cancelled or a saved session restored, every request is one
      the provider takes ([requests_valid], [anthropic_request_valid]); a turn ends ([turn_ends]); saved texts come back
      ([saved_texts]). How a stream is cut does not matter ([chunks_irrelevant]) and streamed
      calls are put together exactly ([streamed_calls_exact]). No address or bearer token
      survives masking ([nothing_personal_survives]), so none goes out ([requests_masked]).
      The circuit opens at the fifth failure of a minute and only then
      ([opens_at_fifth_failure], [opens_only_after_failures]); a prompt is sent at most five
      times and counts as one failure at most ([send_bounded]). What a log classifier sees is bounded and comes from an allowed
      file or an earlier result ([excerpt_bounded], [log_file_confined],
      [excerpt_from_record]).
    - Theorems of kind error prove behaviours that differ from what the code or its
      documentation intends; each says which input shows it.

    ** Conventions, bounds and fuel

    Strings and byte buffers are lists of bytes ([str]). Integers are [Z] or [nat] with the
    wrap-around, saturation or checked failure of the source written out where it can occur;
    byte counts of files and of memory that cannot reach 2^64 are unbounded. A panic is a
    value of [outcome]. Locks make the operations of the store and of the pool
    atomic, so shared use is a sequence of operations; the channel and the spool, which act
    outside a lock, are given as smaller steps. Clocks, random draws, and answers of the
    operating system, of the daemon and of the collector are arguments. Loops that are not
    structural take fuel that is shown or evidently enough: the marker loop and the stream
    loop take the length of the input plus one and every turn consumes a byte; prefix
    stripping takes the length of the text; the tracker's loop takes the size of its set
    plus one. The reconnection loop takes a budget of iterations;
    its theorem shows that one more than the number of failed attempts is enough. The tailer's
    theorem of progress bounds the number of polls by the lines left to send. Splitting a batch
    takes less than two turns a line ([split_complete]). A turn of a chat takes the limit of
    eight requests as its fuel ([turn_ends]); events are cut from a buffer with its length as
    fuel, and each takes a byte at least.

    Parameters stand for code outside the repository, with no assumption unless named:
    [strip_ansi_escapes::strip], Unicode [to_lowercase], JSON ([AttachJson], whose laws are
    those of the derived serialisation; [SnapshotJson], [IpcJson], [AuditJson] likewise), the
    keyed hash, the parser of a log line, path canonicalisation and other file-system answers
    ([FsEnv], [FsView]), TOML, the regular-expression engine ([EngineLaws]), the HTTP client,
    the model, the user, the shell and the services of a chat ([Env]).

    ** Not modelled

    Terminal and web interfaces, argument parsing, installation and self-update; prompts and
    the texts of reports; opening connections, TLS and the documents of MongoDB; host and
    container sampling, whose differences are in floating point, and the OTLP encoding of a
    third-party library; process, socket and pseudo-terminal set-up; the query
    tools for observability backends and the handshake with MCP servers, which
    are HTTP; the evaluation harness. *)

From Stdlib Require Export Strings.Byte Strings.String ZArith Lia ZifyBool ZifyNat.
From stdpp Require Export base numbers list gmap sorting relations.
From coqutil Require Export Byte Word.LittleEndianList.

#[global] Open Scope Z_scope.
#[global] Unset Printing Records.

(** ** Bytes and byte strings *)

(** A Rust [str] or [&[u8]] is its sequence of bytes. *)
Abbreviation str := (list byte).

(** [lit "abc"] is the byte string of a source literal. *)
Notation "'lit' s" := (String.list_byte_of_string s%string)
  (at level 9, s at level 0, only parsing).

#[export] Instance byte_eq_dec : EqDecision byte.
Proof. exact Byte.byte_eq_dec. Defined.

#[export] Program Instance byte_countable : Countable byte :=
  inj_countable Byte.to_N Byte.of_N _.
Next Obligation. exact Byte.of_to_N. Qed.

(** Value of a byte as an unsigned 8-bit integer. *)
Abbreviation b2z := byte.unsigned.

Lemma b2z_range (b : byte) : 0 <= b2z b < 256.
Proof. exact (byte.unsigned_range b). Qed.

(** ** 64-bit arithmetic *)

(** [fetch_add] and [fetch_sub], and [+] of a release build. *)
Definition wrap64 (z : Z) : Z := z mod 2 ^ 64.

(** [saturating_sub] *)
Definition sat_sub (a b : Z) : Z := Z.max 0 (a - b).

(** [saturating_add] *)
Definition sat_add64 (a b : Z) : Z := Z.min (2 ^ 64 - 1) (a + b).

Lemma wrap64_add a d : wrap64 (wrap64 a + d) = wrap64 (a + d).
Proof. unfold wrap64. apply Z.add_mod_idemp_l. lia. Qed.

Lemma wrap64_small a : 0 <= a < 2 ^ 64 -> wrap64 a = a.
Proof. apply Z.mod_small. Qed.

(** ** Results and panics *)

(** Outcome of a fallible Rust function: a value, the function's own error, or a
    panic (an out-of-range slice, an arithmetic overflow caught in debug builds). *)
Inductive outcome (A E : Type) : Type :=
| Ok (a : A)
| Err (e : E)
| Panic.
Arguments Ok {A E} a.
Arguments Err {A E} e.
Arguments Panic {A E}.

Definition obind {A B E} (m : outcome A E) (f : A -> outcome B E) : outcome B E :=
  match m with
  | Ok a => f a
  | Err e => Err e
  | Panic => Panic
  end.

(** [opt.ok_or(e)] *)
Definition ok_or {A E} (o : option A) (e : E) : outcome A E :=
  match o with
  | Some a => Ok a
  | None => Err e
  end.

(** An index or slice expression that panics out of range. *)
Definition unwrap_or_panic {A E} (o : option A) : outcome A E :=
  match o with
  | Some a => Ok a
  | None => Panic
  end.

Declare Scope outcome_scope.
Delimit Scope outcome_scope with outcome.
Notation "'let?' x ':=' m 'in' k" := (obind m (fun x => k))
  (at level 10, x pattern, m at level 100, k at level 200) : outcome_scope.
Notation "'guard' b 'else' e 'in' k" := (if b then k else Err e)
  (at level 10, b at level 100, e at level 100, k at level 200) : outcome_scope.

Definition no_panic {A E} (m : outcome A E) : Prop := m <> Panic.

Lemma obind_Ok_inv {A B E} (m : outcome A E) (f : A -> outcome B E) b :
  obind m f = Ok b -> exists a, m = Ok a /\ f a = Ok b.
Proof. destruct m; simpl; intros; try discriminate; eauto. Qed.

Lemma obind_Ok_iff {A B E} (m : outcome A E) (f : A -> outcome B E) b :
  obind m f = Ok b <-> exists a, m = Ok a /\ f a = Ok b.
Proof. split; [apply obind_Ok_inv|]. by intros (a & -> & ?). Qed.

Lemma ok_or_Ok {A E} (o : option A) (e : E) a : ok_or o e = Ok a <-> o = Some a.
Proof. destruct o; simpl; naive_solver. Qed.

Lemma no_panic_bind {A B E} (m : outcome A E) (f : A -> outcome B E) :
  no_panic m -> (forall a, m = Ok a -> no_panic (f a)) -> no_panic (obind m f).
Proof. unfold no_panic; destruct m; simpl; intros; eauto; congruence. Qed.

Lemma no_panic_ok_or {A E} (o : option A) (e : E) : no_panic (ok_or o e).
Proof. by destruct o. Qed.

Lemma no_panic_Ok {A E} (a : A) : no_panic (E:=E) (Ok a).
Proof. done. Qed.

Lemma no_panic_Err {A E} (e : E) : no_panic (A:=A) (Err e).
Proof. done. Qed.

Lemma no_panic_guard {A E} (b : bool) (e : E) (k : outcome A E) :
  (b = true -> no_panic k) -> no_panic (if b then k else Err e).
Proof. destruct b; intros H; [by apply H|done]. Qed.

(** [ensures m P]: [m] does not panic, and its value satisfies [P]. *)
Definition ensures {A E} (m : outcome A E) (P : A -> Prop) : Prop :=
  no_panic m /\ forall a, m = Ok a -> P a.

Lemma ensures_Ok {A E} (a : A) (P : A -> Prop) : P a -> ensures (E:=E) (Ok a) P.
Proof. intros H. split; [done|]. by intros ? [= <-]. Qed.

Lemma ensures_bind {A B E} (m : outcome A E) (f : A -> outcome B E) P :
  no_panic m -> (forall a, m = Ok a -> ensures (f a) P) -> ensures (obind m f) P.
Proof.
  intros Hm Hf. destruct m as [a|e|]; simpl; [by apply Hf|split; done|done].
Qed.

Lemma ensures_guard {A E} (b : bool) (e : E) (k : outcome A E) P :
  (b = true -> ensures k P) -> ensures (if b then k else Err e) P.
Proof. destruct b; intros H; [by apply H|split; done]. Qed.

Create HintDb panicfree.
#[export] Hint Resolve no_panic_ok_or no_panic_Ok no_panic_Err : panicfree.

(** Walk through binds and guards; what remains are the steps that need an argument. *)
Ltac panic_step :=
  match goal with
  | |- no_panic (obind _ _) => apply no_panic_bind; [by auto with panicfree nocore|intros]
  | |- no_panic (if _ then _ else Err _) => apply no_panic_guard; intros
  | |- no_panic (let '(_, _) := ?x in _) => destruct x
  | |- no_panic (if ?b then _ else _) => destruct b
  end.
Ltac panic_free := repeat panic_step; try by auto with panicfree nocore.

Ltac ensures_step :=
  match goal with
  | |- ensures (obind _ _) _ => apply ensures_bind; [by auto with panicfree nocore|intros]
  | |- ensures (if _ then _ else Err _) _ => apply ensures_guard; intros
  end.

(** ** Tactics *)

Ltac invc H := inversion H; subst; clear H.

(** Split on the scrutinee of a [match]/[if] in the goal, keeping the equation. *)
Ltac case_goal :=
  match goal with
  | |- context [match ?x with _ => _ end] =>
      lazymatch x with
      | context [match _ with _ => _ end] => fail
      | _ => let H := fresh "Hc" in destruct x eqn:H
      end
  end.

(** The same in a hypothesis. *)
Ltac case_hyp H :=
  match type of H with
  | context [match ?x with _ => _ end] =>
      lazymatch x with
      | context [match _ with _ => _ end] => fail
      | _ => let Hc := fresh "Hc" in destruct x eqn:Hc
      end
  end.

(** Close a decidable closed goal by evaluating its decision procedure. *)
Ltac by_decide := apply (bool_decide_unpack _); vm_compute; exact I.

(** Boolean comparisons to propositions. *)
Ltac bool_prop :=
  repeat match goal with
  | H : (_ && _)%bool = true |- _ => apply andb_true_iff in H; destruct H
  | H : (_ || _)%bool = false |- _ => apply orb_false_iff in H; destruct H
  | H : negb _ = true |- _ => apply negb_true_iff in H
  | H : negb _ = false |- _ => apply negb_false_iff in H
  | H : (_ <? _)%Z = true |- _ => apply Z.ltb_lt in H
  | H : (_ <? _)%Z = false |- _ => apply Z.ltb_ge in H
  | H : (_ <=? _)%Z = true |- _ => apply Z.leb_le in H
  | H : (_ <=? _)%Z = false |- _ => apply Z.leb_gt in H
  | H : (_ =? _)%Z = true |- _ => apply Z.eqb_eq in H
  | H : (_ =? _)%Z = false |- _ => apply Z.eqb_neq in H
  | H : (_ <? _)%nat = true |- _ => apply Nat.ltb_lt in H
  | H : (_ <? _)%nat = false |- _ => apply Nat.ltb_ge in H
  | H : (_ <=? _)%nat = true |- _ => apply Nat.leb_le in H
  | H : (_ <=? _)%nat = false |- _ => apply Nat.leb_gt in H
  | H : (_ =? _)%nat = true |- _ => apply Nat.eqb_eq in H
  | H : (_ =? _)%nat = false |- _ => apply Nat.eqb_neq in H
  | H : bool_decide _ = true |- _ => apply bool_decide_eq_true_1 in H
  | H : bool_decide _ = false |- _ => apply bool_decide_eq_false_1 in H
  end.

(** Lengths: push [length] through the list operations and call [lia]. *)
#[global] Create Rewrite HintDb lens.
#[export] Hint Rewrite @length_app @length_take @length_drop @length_rev
  @length_fmap @length_replicate @length_insert : lens.
Ltac len := autorewrite with lens in *; simpl in *; lia.

(** ** Lists *)

(** The last [n] elements of a list, oldest first. *)
Definition lastn {A} (n : nat) (l : list A) : list A := drop (length l - n) l.

Lemma lastn_all {A} n (l : list A) : (length l <= n)%nat -> lastn n l = l.
Proof. intros H. unfold lastn. by replace (length l - n)%nat with 0%nat by lia. Qed.

Lemma lastn_0 {A} (l : list A) : lastn 0 l = [].
Proof. unfold lastn. rewrite Nat.sub_0_r. apply drop_all. Qed.

Lemma length_lastn {A} n (l : list A) : length (lastn n l) = (n `min` length l)%nat.
Proof. unfold lastn. rewrite length_drop. lia. Qed.

Lemma lastn_le {A} n (l : list A) : (length (lastn n l) <= n)%nat.
Proof. rewrite length_lastn. lia. Qed.

Lemma lastn_app_ge {A} n (l1 l2 : list A) :
  (length l2 <= n)%nat -> lastn n (l1 ++ l2) = lastn (n - length l2) l1 ++ l2.
Proof.
  intros H. unfold lastn. rewrite length_app, drop_app.
  replace (length l1 + length l2 - n - length l1)%nat with 0%nat by lia.
  by replace (length l1 + length l2 - n)%nat with (length l1 - (n - length l2))%nat by lia.
Qed.

Lemma lastn_app_lt {A} n (l1 l2 : list A) :
  (n <= length l2)%nat -> lastn n (l1 ++ l2) = lastn n l2.
Proof.
  intros H. unfold lastn. rewrite length_app, drop_app.
  rewrite drop_ge by lia.
  by replace (length l1 + length l2 - n - length l1)%nat with (length l2 - n)%nat by lia.
Qed.

Lemma lastn_rev_take {A} n (l : list A) : lastn n l = reverse (take n (reverse l)).
Proof.
  unfold lastn. rewrite take_reverse, reverse_involutive. done.
Qed.

Lemma lastn_suffix {A} n (l : list A) : lastn n l `suffix_of` l.
Proof. exists (take (length l - n) l). unfold lastn. by rewrite take_drop. Qed.

#[export] Hint Rewrite @length_lastn : lens.

(** Sum of a measure over a list. *)
Definition sum_by {A} (f : A -> nat) (l : list A) : nat := sum_list_with f l.

Lemma sum_by_app {A} (f : A -> nat) l1 l2 :
  sum_by f (l1 ++ l2) = (sum_by f l1 + sum_by f l2)%nat.
Proof. apply sum_list_with_app. Qed.

(** ** Stable sorting *)

(** [slice::sort_by] and [sort_by_key]: equal elements keep their order. *)
Section SortBy.
Context {A : Type} (leb : A -> A -> bool).

Fixpoint insert_by (x : A) (l : list A) : list A :=
  match l with
  | [] => [x]
  | y :: t => if leb x y then x :: l else y :: insert_by x t
  end.

Definition sort_by (l : list A) : list A := foldr insert_by [] l.

Lemma insert_by_Permutation x l : insert_by x l ≡ₚ x :: l.
Proof.
  induction l as [|y t IH]; simpl; [done|]. destruct (leb x y); [done|].
  etrans; [by apply perm_skip|]. apply perm_swap.
Qed.

Lemma sort_by_Permutation l : sort_by l ≡ₚ l.
Proof. induction l as [|x l IH]; simpl; [done|].
  etrans; [apply insert_by_Permutation|]. by apply perm_skip. Qed.

(** Elements that the order does not tell apart keep their order. *)
Lemma insert_by_stable (p : A -> bool) x l :
  (forall y, p x = true -> p y = true -> leb x y = true) ->
  List.filter p (insert_by x l) = List.filter p (x :: l).
Proof.
  intros Hp. induction l as [|y t IH]; simpl; [done|]. destruct (leb x y) eqn:E; [done|].
  simpl. rewrite IH. simpl. destruct (p y) eqn:Ey, (p x) eqn:Ex; try done.
  by rewrite Hp in E.
Qed.

Lemma sort_by_stable (p : A -> bool) l :
  (forall x y, p x = true -> p y = true -> leb x y = true) ->
  List.filter p (sort_by l) = List.filter p l.
Proof.
  intros Hp. induction l as [|x l IH]; simpl; [done|].
  rewrite insert_by_stable by auto. simpl. by rewrite IH.
Qed.

Hypothesis leb_total : forall x y, leb x y = true \/ leb y x = true.
Hypothesis leb_trans : forall x y z, leb x y = true -> leb y z = true -> leb x z = true.
Let le (x y : A) : Prop := leb x y = true.

Lemma insert_by_sorted x l : StronglySorted le l -> StronglySorted le (insert_by x l).
Proof.
  induction 1 as [|y t Ht IH Hy]; simpl; [repeat constructor|].
  destruct (leb x y) eqn:E.
  - constructor; [by constructor|]. constructor; [done|].
    eapply Forall_impl; [exact Hy|]. intros z Hz. by eapply leb_trans.
  - constructor; [done|].
    eapply Permutation_Forall; [symmetry; apply insert_by_Permutation|]. constructor; [|done].
    destruct (leb_total x y) as [H|H]; [congruence|done].
Qed.

Lemma sort_by_sorted l : StronglySorted le (sort_by l).
Proof. induction l as [|x l IH]; simpl; [constructor|]. by apply insert_by_sorted. Qed.
End SortBy.

(** [sort_by_key] with an integer key. *)
Definition sort_by_key {A} (key : A -> Z) : list A -> list A := sort_by (fun x y => key x <=? key y).

Lemma sort_by_key_sorted {A} (key : A -> Z) l :
  StronglySorted (fun x y => key x <= key y) (sort_by_key key l).
Proof.
  assert (H : StronglySorted (fun x y => (key x <=? key y) = true) (sort_by_key key l))
    by (apply (sort_by_sorted (fun x y => key x <=? key y)); intros; lia).
  revert H. generalize (sort_by_key key l). induction 1 as [|x t Ht IH Hx]; constructor; [done|].
  eapply Forall_impl; [exact Hx|]. simpl. lia.
Qed.
