(* ===== verification/RustStr.v ===== *)
(** * Rust strings

    The parts of Rust's [str], [slice] and integer formatting/parsing API that the
    modelled code uses, on byte strings ([str] is the UTF-8 bytes of the text):
    prefix and substring search, UTF-8 validation and lossy decoding, Unicode
    [White_Space] trimming, [split], [lines], [from_str_radix] and [Display] of
    integers. *)

From S2P Require Import Prelude.

(** ** Prefixes and substrings *)

(** [s.starts_with(p)] *)
Fixpoint starts_with (p s : str) : bool :=
  match p, s with
  | [], _ => true
  | _ :: _, [] => false
  | x :: p', y :: s' => bool_decide (x = y) && starts_with p' s'
  end.

(** [s.find(needle)]: byte offset of the leftmost occurrence. *)
Fixpoint find_sub (needle s : str) : option nat :=
  if starts_with needle s then Some 0%nat
  else match s with
       | [] => None
       | _ :: s' => S <$> find_sub needle s'
       end.

(** [s.contains(needle)] *)
Definition contains (needle s : str) : bool := bool_decide (is_Some (find_sub needle s)).

(** [s.find(c)] and [iter().position(|b| b == c)] for an ASCII [c]. *)
Fixpoint find_byte (c : byte) (s : str) : option nat :=
  match s with
  | [] => None
  | x :: s' => if bool_decide (x = c) then Some 0%nat else S <$> find_byte c s'
  end.

(** ** UTF-8 *)

Definition byte_in (lo hi : Z) (b : byte) : bool := (lo <=? b2z b) && (b2z b <=? hi).

(** A UTF-8 continuation byte, 0x80..=0xBF. *)
Definition is_cont (b : byte) : bool := byte_in 128 191 b.

(** Whether the second byte is admissible after the lead byte of a three- or four-byte
    sequence (no overlong forms, no surrogates, nothing above U+10FFFF). *)
Definition second_ok (b0 b1 : byte) : bool :=
  let z := b2z b0 in
  if z =? 224 then byte_in 160 191 b1
  else if z =? 237 then byte_in 128 159 b1
  else if z =? 240 then byte_in 144 191 b1
  else if z =? 244 then byte_in 128 143 b1
  else is_cont b1.

(** Width announced by a lead byte; 0 for a byte that cannot start a sequence. *)
Definition utf8_width (b : byte) : nat :=
  let z := b2z b in
  if z <? 128 then 1%nat
  else if (194 <=? z) && (z <=? 223) then 2%nat
  else if (224 <=? z) && (z <=? 239) then 3%nat
  else if (240 <=? z) && (z <=? 244) then 4%nat
  else 0%nat.

(** First sequence of a non-empty input: [(n, true)] when the first [n] bytes are one
    well-formed character, [(n, false)] when they are a maximal ill-formed part. *)
Definition utf8_next (s : str) : nat * bool :=
  match s with
  | [] => (0%nat, true)
  | b0 :: r =>
      match utf8_width b0, r with
      | 1%nat, _ => (1%nat, true)
      | 2%nat, b1 :: _ => if is_cont b1 then (2%nat, true) else (1%nat, false)
      | 3%nat, b1 :: r1 =>
          if second_ok b0 b1 then
            match r1 with
            | b2 :: _ => if is_cont b2 then (3%nat, true) else (2%nat, false)
            | [] => (2%nat, false)
            end
          else (1%nat, false)
      | 4%nat, b1 :: r1 =>
          if second_ok b0 b1 then
            match r1 with
            | b2 :: r2 =>
                if is_cont b2 then
                  match r2 with
                  | b3 :: _ => if is_cont b3 then (4%nat, true) else (3%nat, false)
                  | [] => (3%nat, false)
                  end
                else (2%nat, false)
            | [] => (2%nat, false)
            end
          else (1%nat, false)
      | _, _ => (1%nat, false)
      end
  end.

(** [str::from_utf8(s).is_ok()]; the fuel [length s] is enough because every step
    consumes at least one byte. *)
Fixpoint utf8_valid_fuel (fuel : nat) (s : str) : bool :=
  match s, fuel with
  | [], _ => true
  | _ :: _, O => false
  | _ :: _, S fuel' =>
      let '(n, ok) := utf8_next s in ok && utf8_valid_fuel fuel' (drop n s)
  end.

Definition utf8_valid (s : str) : bool := utf8_valid_fuel (length s) s.

(** [String::from_utf8_lossy]: ill-formed parts become U+FFFD. *)
Fixpoint utf8_lossy_fuel (fuel : nat) (s : str) : str :=
  match s, fuel with
  | [], _ => []
  | _ :: _, O => []
  | _ :: _, S fuel' =>
      let '(n, ok) := utf8_next s in
      (if ok then take n s else [xef; xbf; xbd]) ++ utf8_lossy_fuel fuel' (drop n s)
  end.

Definition from_utf8_lossy (s : str) : str := utf8_lossy_fuel (length s) s.

(** The characters of a valid string; the fuel is its length in bytes. *)
Fixpoint chars_fuel (fuel : nat) (s : str) : list str :=
  match fuel, s with
  | S fuel, _ :: _ => let n := (utf8_next s).1 in take n s :: chars_fuel fuel (drop n s)
  | _, _ => []
  end.
Definition chars (s : str) : list str := chars_fuel (length s) s.

(** [s.is_char_boundary(i)] *)
Definition is_char_boundary (s : str) (i : nat) : bool :=
  match s !! i with
  | Some b => negb (is_cont b)
  | None => (i =? length s)%nat
  end.

(** [&s[..i]]: panics off a character boundary. *)
Definition str_prefix (s : str) (i : nat) : option str :=
  if is_char_boundary s i then Some (take i s) else None.

(** ** White space *)

(** [u8::is_ascii_whitespace] (no vertical tab). *)
Definition is_ascii_whitespace (b : byte) : bool :=
  bool_decide (b ∈ [x20; x09; x0a; x0c; x0d]).

(** One-, two- and three-byte characters of Unicode's White_Space property
    ([char::is_whitespace]). *)
Definition is_ws1 (a : byte) : bool := byte_in 9 13 a || (b2z a =? 32).
Definition is_ws2 (a b : byte) : bool :=
  (b2z a =? 194) && ((b2z b =? 133) || (b2z b =? 160)).
Definition is_ws3 (a b c : byte) : bool :=
  let x := b2z a in let y := b2z b in let z := b2z c in
  ((x =? 225) && (y =? 154) && (z =? 128))
  || ((x =? 226) && (y =? 128)
      && (byte_in 128 138 c || (z =? 168) || (z =? 169) || (z =? 175)))
  || ((x =? 226) && (y =? 129) && (z =? 159))
  || ((x =? 227) && (y =? 128) && (z =? 128)).

(** [s.trim_start()] *)
Fixpoint trim_start (s : str) : str :=
  match s with
  | a :: s1 =>
      if is_ws1 a then trim_start s1
      else match s1 with
           | b :: s2 =>
               if is_ws2 a b then trim_start s2
               else match s2 with
                    | c :: s3 => if is_ws3 a b c then trim_start s3 else s
                    | [] => s
                    end
           | [] => s
           end
  | [] => []
  end.

(** [trim_start] of the reversed text, for the end of the string. *)
Fixpoint trim_rev (s : str) : str :=
  match s with
  | a :: s1 =>
      if is_ws1 a then trim_rev s1
      else match s1 with
           | b :: s2 =>
               if is_ws2 b a then trim_rev s2
               else match s2 with
                    | c :: s3 => if is_ws3 c b a then trim_rev s3 else s
                    | [] => s
                    end
           | [] => s
           end
  | [] => []
  end.

(** [s.trim_end()] and [s.trim()] *)
Definition trim_end (s : str) : str := reverse (trim_rev (reverse s)).
Definition trim (s : str) : str := trim_end (trim_start s).

(** The text before the first white-space character. *)
Fixpoint until_ws (s : str) : str :=
  match s with
  | a :: s1 =>
      if is_ws1 a then []
      else match s1 with
           | b :: s2 =>
               if is_ws2 a b then []
               else match s2 with
                    | c :: _ => if is_ws3 a b c then [] else a :: until_ws s1
                    | [] => a :: until_ws s1
                    end
           | [] => [a]
           end
  | [] => []
  end.

(** [s.split_whitespace()]; every word has a byte. *)
Fixpoint split_whitespace_fuel (fuel : nat) (s : str) : list str :=
  match fuel with
  | O => []
  | S fuel =>
      let s := trim_start s in
      let w := until_ws s in
      if bool_decide (w = []) then [] else w :: split_whitespace_fuel fuel (drop (length w) s)
  end.
Definition split_whitespace (s : str) : list str := split_whitespace_fuel (length s) s.

(** [s.trim_end_matches(c)] for an ASCII character. *)
Definition trim_end_byte (c : byte) (s : str) : str :=
  reverse ((fix go (s : str) := match s with
                                | b :: s' => if bool_decide (b = c) then go s' else s
                                | [] => []
                                end) (reverse s)).

(** [s.split_once(c)] for an ASCII character. *)
Definition split_once (c : byte) (s : str) : option (str * str) :=
  i ← find_byte c s; Some (take i s, drop (S i) s).

(** First item of [s.split_whitespace()], the empty string if there is none. *)
Definition first_word (s : str) : str := until_ws (trim_start s).

(** A single or a double quote. *)
Definition is_quote (b : byte) : bool := bool_decide (b = x27) || bool_decide (b = x22).

Fixpoint drop_while (p : byte -> bool) (s : str) : str :=
  match s with
  | b :: s' => if p b then drop_while p s' else s
  | [] => []
  end.

(** [s.ends_with(t)] *)
Definition ends_with (t s : str) : bool := starts_with (reverse t) (reverse s).

(** [s.strip_suffix(t)] *)
Definition strip_suffix (t s : str) : option str :=
  if starts_with (reverse t) (reverse s) then Some (take (length s - length t) s) else None.

(** [s.trim_matches(p)] *)
Definition trim_matches (p : byte -> bool) (s : str) : str :=
  reverse (drop_while p (reverse (drop_while p s))).

(** ** Splitting *)

(** [s.split(c)] for an ASCII separator: always at least one piece. *)
Fixpoint split_byte (c : byte) (s : str) : list str :=
  match s with
  | [] => [[]]
  | x :: s' =>
      if bool_decide (x = c) then [] :: split_byte c s'
      else match split_byte c s' with
           | p :: ps => (x :: p) :: ps
           | [] => [[x]]
           end
  end.

(** [parts.join(sep)] *)
Fixpoint join (sep : str) (parts : list str) : str :=
  match parts with
  | [] => []
  | [p] => p
  | p :: ps => p ++ sep ++ join sep ps
  end.

(** Remove one trailing carriage return. *)
Definition strip_cr (l : str) : str :=
  match reverse l with
  | x :: r => if bool_decide (x = x0d) then reverse r else l
  | [] => []
  end.

(** [s.lines()]: pieces ended by a line feed lose it and one carriage return before it;
    a last piece without a line feed is kept as it is, an empty one is dropped. *)
Fixpoint lines_of (pieces : list str) : list str :=
  match pieces with
  | [] => []
  | [last] => if bool_decide (last = []) then [] else [last]
  | p :: ps => strip_cr p :: lines_of ps
  end.

Definition lines (s : str) : list str := lines_of (split_byte x0a s).

(** ** Digits and numbers *)

Definition is_ascii_digit (b : byte) : bool := byte_in 48 57 b.
Definition is_ascii_alphanumeric (b : byte) : bool :=
  byte_in 48 57 b || byte_in 65 90 b || byte_in 97 122 b.

(** [u8::to_ascii_lowercase] *)
Definition ascii_lower (b : byte) : byte :=
  if byte_in 65 90 b then byte.of_Z (b2z b + 32) else b.

(** [char::to_digit(radix)] *)
Definition to_digit (radix : Z) (b : byte) : option Z :=
  let z := b2z b in
  let d := if byte_in 48 57 b then Some (z - 48)
           else if byte_in 97 122 b then Some (z - 87)
           else if byte_in 65 90 b then Some (z - 55)
           else None in
  match d with
  | Some d => if d <? radix then Some d else None
  | None => None
  end.

Definition digits_value (radix : Z) (s : str) : option Z :=
  foldl (fun acc b => a ← acc; d ← to_digit radix b; Some (a * radix + d)) (Some 0) s.

(** [uN::from_str_radix(s, radix)] with [max = uN::MAX]: an optional [+], at least one
    digit, no overflow. *)
Definition parse_unsigned (radix max : Z) (s : str) : option Z :=
  let body := match s with
              | b :: s' => if bool_decide (b = x2b) then s' else s
              | [] => []
              end in
  if bool_decide (body = []) then None
  else v ← digits_value radix body; if v <=? max then Some v else None.

(** [iN::from_str_radix(s, radix)] *)
Definition parse_signed (radix min max : Z) (s : str) : option Z :=
  match s with
  | x2d :: s' =>
      if bool_decide (s' = []) then None
      else v ← digits_value radix s'; if min <=? - v then Some (- v) else None
  | _ => parse_unsigned radix max s
  end.

Definition u8_max : Z := 255.
Definition u32_max : Z := 4294967295.
Definition u64_max : Z := 18446744073709551615.
Definition i32_min : Z := -2147483648.
Definition i32_max : Z := 2147483647.

Definition parse_i32 : str -> option Z := parse_signed 10 i32_min i32_max.
Definition parse_u32 : str -> option Z := parse_unsigned 10 u32_max.
Definition parse_u16 : str -> option Z := parse_unsigned 10 65535.
Definition parse_u64 : str -> option Z := parse_unsigned 10 u64_max.

Definition digit_char (d : Z) : byte := byte.of_Z (if d <? 10 then d + 48 else d + 87).

(** Digits of [n] in [radix], most significant first; [fuel] digits at most. *)
Fixpoint to_radix (radix : Z) (fuel : nat) (n : Z) : str :=
  match fuel with
  | O => []
  | S f => (if n <? radix then [] else to_radix radix f (n / radix)) ++ [digit_char (n mod radix)]
  end.

(** [Display] of a 64-bit unsigned and of a 32-bit signed integer. *)
Definition show_unsigned (n : Z) : str := to_radix 10 20 n.
Definition show_i32 (n : Z) : str :=
  if n <? 0 then x2d :: show_unsigned (- n) else show_unsigned n.

(** Zero-padded lower-case hexadecimal and decimal ([:016x], [:020]). *)
Definition zero_pad (width : nat) (s : str) : str := replicate (width - length s) x30 ++ s.
Definition show_hex (width : nat) (n : Z) : str := zero_pad width (to_radix 16 16 n).
Definition show_dec_padded (width : nat) (n : Z) : str := zero_pad width (show_unsigned n).

(** ** Lemmas: prefixes and substrings *)

Lemma starts_with_spec p s : starts_with p s = true <-> p `prefix_of` s.
Proof.
  revert s; induction p as [|x p IH]; intros s; simpl.
  - split; [intros _; apply prefix_nil | done].
  - destruct s as [|y s].
    + split; [done|]. by intros ?%prefix_nil_not.
    + rewrite andb_true_iff, bool_decide_eq_true, IH. split.
      * intros [-> H]. by apply prefix_cons.
      * intros H. split; [by eapply prefix_cons_inv_1 | by eapply prefix_cons_inv_2].
Qed.

Lemma starts_with_app p s : starts_with p (p ++ s) = true.
Proof. apply starts_with_spec. by exists s. Qed.

Lemma starts_with_false_app p s t :
  starts_with p s = false -> (length p <= length s)%nat -> starts_with p (s ++ t) = false.
Proof.
  revert s; induction p as [|x p IH]; intros [|y s]; simpl; try done; try lia.
  intros [H|H]%andb_false_iff Hl; apply andb_false_iff; [by left | right].
  apply IH; [done | lia].
Qed.

Lemma find_sub_Some needle s i :
  find_sub needle s = Some i ->
  exists pre post, s = pre ++ needle ++ post /\ length pre = i.
Proof.
  revert i; induction s as [|x s IH]; intros i; simpl.
  - destruct (starts_with needle []) eqn:E; [|done].
    intros [= <-]. apply starts_with_spec in E as [k ->]. by exists [], k.
  - destruct (starts_with needle (x :: s)) eqn:E.
    + intros [= <-]. apply starts_with_spec in E as [k ->]. by exists [], k.
    + destruct (find_sub needle s) as [j|]; simpl; [|done]. intros [= <-].
      destruct (IH j eq_refl) as (pre & post & -> & <-). by exists (x :: pre), post.
Qed.

Lemma find_sub_None needle s :
  find_sub needle s = None <-> forall pre post, s <> pre ++ needle ++ post.
Proof.
  split.
  - revert needle; induction s as [|x s IH]; intros needle; simpl.
    + destruct (starts_with needle []) eqn:E; [done|].
      intros _ pre post H. symmetry in H. apply app_nil in H as [-> H]. apply app_nil in H as [-> ->].
      simpl in E. done.
    + destruct (starts_with needle (x :: s)) eqn:E; [done|].
      intros Hn [|y pre] post H; simpl in H.
      * assert (starts_with needle (x :: s) = true); [|congruence].
        rewrite H. apply starts_with_app.
      * injection H as <- ->. destruct (find_sub needle _) eqn:F; [done|]. by eapply IH.
  - intros H. destruct (find_sub needle s) eqn:E; [|done].
    apply find_sub_Some in E as (pre & post & -> & _). by destruct (H pre post).
Qed.

Lemma contains_spec needle s :
  contains needle s = true <-> exists pre post, s = pre ++ needle ++ post.
Proof.
  unfold contains. rewrite bool_decide_eq_true. split.
  - intros [i Hi]. apply find_sub_Some in Hi as (pre & post & -> & _). eauto.
  - intros (pre & post & ->). destruct (find_sub needle _) eqn:E; [eauto|].
    eapply find_sub_None in E. by destruct E.
Qed.

Lemma find_sub_prefix needle s : find_sub needle (needle ++ s) = Some 0%nat.
Proof. destruct (needle ++ s) eqn:E; simpl; rewrite <- E, starts_with_app; done. Qed.

Lemma contains_false needle s : contains needle s = false -> find_sub needle s = None.
Proof.
  unfold contains. rewrite bool_decide_eq_false, <- eq_None_not_Some. done.
Qed.

(** A needle that starts with [c] does not occur in text without [c]. *)
Lemma find_sub_absent c needle s : c ∉ s -> find_sub (c :: needle) s = None.
Proof.
  intros Hc. apply find_sub_None. intros pre post ->. apply Hc. set_solver.
Qed.

(** Text without the needle's first byte is skipped by the search. *)
Lemma find_sub_skip c needle pre s :
  c ∉ pre -> find_sub (c :: needle) (pre ++ s) = (fun i => length pre + i)%nat <$> find_sub (c :: needle) s.
Proof.
  induction pre as [|x pre IH]; intros Hc.
  - cbn [app length]. destruct (find_sub (c :: needle) s); done.
  - apply not_elem_of_cons in Hc as [Hx Hc]. simpl app.
    change (find_sub (c :: needle) (x :: pre ++ s)) with
      (if starts_with (c :: needle) (x :: pre ++ s) then Some 0%nat
       else S <$> find_sub (c :: needle) (pre ++ s)).
    simpl starts_with. rewrite bool_decide_eq_false_2 by done. simpl.
    rewrite (IH Hc). by destruct (find_sub _ s).
Qed.

Lemma find_byte_app c pre s : c ∉ pre -> find_byte c (pre ++ c :: s) = Some (length pre).
Proof.
  induction pre as [|x pre IH]; intros Hc; simpl.
  - by rewrite bool_decide_eq_true_2.
  - apply not_elem_of_cons in Hc as [Hx Hc].
    rewrite bool_decide_eq_false_2 by done. by rewrite IH.
Qed.

Lemma find_byte_Some c s i :
  find_byte c s = Some i ->
  exists pre post, s = pre ++ c :: post /\ length pre = i /\ c ∉ pre.
Proof.
  revert i; induction s as [|x s IH]; intros i; simpl; [done|].
  case_bool_decide as E.
  - intros [= <-]. subst x. exists [], s. set_solver.
  - destruct (find_byte c s) as [j|]; simpl; [|done]. intros [= <-].
    destruct (IH j eq_refl) as (pre & post & -> & <- & Hn). exists (x :: pre), post. set_solver.
Qed.

Lemma find_byte_None c s : find_byte c s = None <-> c ∉ s.
Proof.
  induction s as [|x s IH]; simpl; [set_solver|].
  case_bool_decide as E; [set_solver|].
  destruct (find_byte c s); simpl; set_solver.
Qed.

Lemma utf8_valid_ascii s : Forall (fun b => b2z b < 128) s -> utf8_valid s = true.
Proof.
  intros H. unfold utf8_valid. induction H as [|b s Hb Hs IH]; [done|].
  cbn [length utf8_valid_fuel utf8_next]. unfold utf8_width.
  replace (b2z b <? 128) with true by lia. exact IH.
Qed.

(** ** Lemmas: numbers *)

Lemma b2z_digit_char d :
  0 <= d < 16 -> b2z (digit_char d) = if d <? 10 then d + 48 else d + 87.
Proof.
  intros Hd. unfold digit_char. rewrite byte.unsigned_of_Z. unfold byte.wrap.
  destruct (d <? 10); apply Z.mod_small; lia.
Qed.

Lemma digit_char_to_digit radix d :
  0 <= d < radix -> radix <= 16 -> to_digit radix (digit_char d) = Some d.
Proof.
  intros Hd Hr. unfold to_digit, byte_in. rewrite b2z_digit_char by lia.
  destruct (d <? 10) eqn:E; bool_prop.
  - replace (48 <=? d + 48) with true by lia. replace (d + 48 <=? 57) with true by lia.
    simpl. replace (d + 48 - 48) with d by lia. by replace (d <? radix) with true by lia.
  - replace (d + 87 <=? 57) with false by lia. rewrite andb_false_r.
    replace (97 <=? d + 87) with true by lia. replace (d + 87 <=? 122) with true by lia.
    simpl. replace (d + 87 - 87) with d by lia. by replace (d <? radix) with true by lia.
Qed.

Lemma digits_value_snoc radix s b v d :
  digits_value radix s = Some v -> to_digit radix b = Some d ->
  digits_value radix (s ++ [b]) = Some (v * radix + d).
Proof. unfold digits_value. intros Hs Hb. rewrite foldl_app, Hs. simpl. by rewrite Hb. Qed.

Lemma digits_value_to_radix radix fuel n :
  2 <= radix <= 16 -> 0 <= n < radix ^ Z.of_nat (S fuel) ->
  digits_value radix (to_radix radix (S fuel) n) = Some n.
Proof.
  intros Hr. revert n; induction fuel as [|f IH]; intros n Hn.
  - change (Z.of_nat 1) with 1 in Hn. rewrite Z.pow_1_r in Hn. cbn [to_radix].
    replace (n <? radix) with true by lia. simpl app. rewrite Z.mod_small by lia.
    apply (digits_value_snoc radix [] _ 0); [done|]. by apply digit_char_to_digit; lia.
  - remember (S f) as g. cbn [to_radix]. subst g.
    destruct (n <? radix) eqn:E; bool_prop.
    + rewrite Z.mod_small by lia. apply (digits_value_snoc radix [] _ 0); [done|].
      apply digit_char_to_digit; lia.
    + rewrite (digits_value_snoc radix _ _ (n / radix) (n mod radix)).
      * f_equal. pose proof (Z.div_mod n radix). lia.
      * apply IH. rewrite (Nat2Z.inj_succ (S f)), Z.pow_succ_r in Hn by lia. split.
        -- apply Z.div_pos; lia.
        -- apply Z.div_lt_upper_bound; lia.
      * apply digit_char_to_digit; [apply Z.mod_pos_bound|]; lia.
Qed.

(** Every rendered digit is one of [0-9a-f]. *)
Definition is_lower_hex (b : byte) : bool := byte_in 48 57 b || byte_in 97 102 b.

Lemma digit_char_lower_hex d : 0 <= d < 16 -> is_lower_hex (digit_char d) = true.
Proof.
  intros Hd. unfold is_lower_hex, byte_in. rewrite b2z_digit_char by lia.
  destruct (d <? 10) eqn:E; bool_prop; rewrite orb_true_iff, !andb_true_iff, !Z.leb_le; lia.
Qed.

Lemma digit_char_digit d : 0 <= d < 10 -> is_ascii_digit (digit_char d) = true.
Proof.
  intros Hd. unfold is_ascii_digit, byte_in. rewrite b2z_digit_char by lia.
  replace (d <? 10) with true by lia. rewrite andb_true_iff, !Z.leb_le; lia.
Qed.

Lemma to_radix_Forall (P : byte -> Prop) radix fuel n :
  0 < radix -> (forall d, 0 <= d < radix -> P (digit_char d)) -> Forall P (to_radix radix fuel n).
Proof.
  intros Hr HP. revert n; induction fuel as [|f IH]; intros n; simpl; [constructor|].
  apply Forall_app. split; [destruct (n <? radix); [constructor | apply IH]|].
  constructor; [apply HP, Z.mod_pos_bound; lia | constructor].
Qed.

Lemma to_radix_nonempty radix fuel n : to_radix radix (S fuel) n <> [].
Proof. cbn [to_radix]. by intros [_ ?]%app_nil. Qed.

Lemma length_to_radix radix fuel n : (length (to_radix radix fuel n) <= fuel)%nat.
Proof.
  revert n; induction fuel as [|f IH]; intros n; simpl; [lia|].
  specialize (IH (n / radix)). destruct (n <? radix); rewrite length_app; simpl; lia.
Qed.

Lemma show_hex_length n : length (show_hex 16 n) = 16%nat.
Proof.
  unfold show_hex, zero_pad. rewrite length_app, length_replicate.
  pose proof (length_to_radix 16 16 n). lia.
Qed.

Lemma show_hex_lower n : Forall (fun b => is_lower_hex b = true) (show_hex 16 n).
Proof.
  unfold show_hex, zero_pad. apply Forall_app. split; [by apply Forall_replicate|].
  apply to_radix_Forall; [lia|]. apply digit_char_lower_hex.
Qed.

(** The first byte of a rendered number is a digit, hence neither a sign nor anything a
    parser would treat specially. *)
Lemma show_unsigned_digits n : Forall (fun b => is_ascii_digit b = true) (show_unsigned n).
Proof. apply to_radix_Forall; [lia|]. apply digit_char_digit. Qed.

Lemma digit_not b c : is_ascii_digit b = true -> is_ascii_digit c = false -> b <> c.
Proof. congruence. Qed.

Lemma parse_show_unsigned max n :
  0 <= n <= max -> max < 10 ^ 20 -> parse_unsigned 10 max (show_unsigned n) = Some n.
Proof.
  intros Hn Hmax. unfold parse_unsigned.
  assert (Hv : digits_value 10 (show_unsigned n) = Some n)
    by (apply digits_value_to_radix; simpl; lia).
  assert (Hne := to_radix_nonempty 10 19 n). fold (show_unsigned n) in Hne.
  pose proof (show_unsigned_digits n) as Hd.
  destruct (show_unsigned n) as [|b s]; [done|]. invc Hd.
  rewrite (bool_decide_eq_false_2 (b = x2b)) by (by eapply digit_not).
  rewrite bool_decide_eq_false_2 by done. rewrite Hv. simpl.
  by replace (n <=? max) with true by lia.
Qed.

Lemma parse_unsigned_no_minus max s b :
  is_ascii_digit b = true -> parse_signed 10 i32_min max (b :: s) = parse_unsigned 10 max (b :: s).
Proof. intros Hb. destruct b; try done; discriminate Hb. Qed.

(** [Display] then [parse::<i32>] is the identity on 32-bit integers. *)
Lemma parse_show_i32 n : i32_min <= n <= i32_max -> parse_i32 (show_i32 n) = Some n.
Proof.
  unfold i32_min, i32_max. intros Hn. unfold parse_i32, show_i32.
  destruct (n <? 0) eqn:E; bool_prop.
  - cbn [parse_signed].
    assert (Hv : digits_value 10 (show_unsigned (- n)) = Some (- n))
      by (apply digits_value_to_radix; simpl; lia).
    rewrite bool_decide_eq_false_2 by apply (to_radix_nonempty 10 19).
    rewrite Hv. simpl. replace (i32_min <=? - - n) with true by (unfold i32_min; lia).
    f_equal. lia.
  - assert (Hne := to_radix_nonempty 10 19 n). fold (show_unsigned n) in Hne.
    pose proof (show_unsigned_digits n) as Hd.
    destruct (show_unsigned n) as [|b s] eqn:Es; [done|]. invc Hd.
    rewrite parse_unsigned_no_minus by done. rewrite <- Es.
    apply parse_show_unsigned; unfold i32_max; lia.
Qed.

Lemma to_digit_dec b d : to_digit 10 b = Some d -> is_ascii_digit b = true /\ 0 <= d.
Proof. unfold to_digit, is_ascii_digit, byte_in. intros H. repeat case_match; simplify_eq; bool_prop; try done; lia. Qed.

Lemma digits_value_digits s v : digits_value 10 s = Some v -> Forall (fun b => is_ascii_digit b = true) s /\ 0 <= v.
Proof.
  revert v. induction s as [|b s IH] using rev_ind; intros v; [intros [= <-]; split; [constructor|lia]|].
  unfold digits_value. rewrite foldl_app. fold (digits_value 10 s). simpl. destruct (digits_value 10 s) as [w|]; [|done].
  simpl. destruct (to_digit 10 b) as [d|] eqn:Ed; [|done]. simpl. intros [= <-].
  destruct (IH w eq_refl) as [Hs Hw]. apply to_digit_dec in Ed as [Hb Hd]. split; [|lia]. apply Forall_app. by repeat constructor.
Qed.

(** What parses as an unsigned decimal number has digits, perhaps after a plus. *)
Lemma parse_unsigned_inv max s v :
  parse_unsigned 10 max s = Some v -> 0 <= v <= max /\ Forall (fun b => is_ascii_digit b = true \/ b = x2b) s.
Proof.
  unfold parse_unsigned. intros H. set (body := match s with b :: s' => if bool_decide (b = x2b) then s' else s | [] => [] end) in H.
  destruct (bool_decide (body = [])); [done|]. destruct (digits_value 10 body) as [w|] eqn:Ew; [|done].
  cbn in H. destruct (Z.leb_spec w max); [|done]. injection H as <-. apply digits_value_digits in Ew as [Hd Hw]. split; [lia|].
  assert (Forall (fun b => is_ascii_digit b = true \/ b = x2b) body) as Hb by (eapply Forall_impl; [exact Hd|auto]).
  unfold body in Hb. destruct s as [|b s]; [done|]. case_bool_decide; [constructor; auto|done].
Qed.

(** ** Lemmas: trimming *)

(** A byte that is neither white space nor part of a multi-byte character. *)
Definition is_plain (b : byte) : bool := (b2z b <? 128) && negb (is_ws1 b).

Lemma is_plain_not_ws2 a b : is_plain a = true \/ is_plain b = true -> is_ws2 a b = false.
Proof. unfold is_plain, is_ws2. lia. Qed.

Lemma is_plain_not_ws3 a b c : is_plain a = true \/ is_plain c = true -> is_ws3 a b c = false.
Proof. unfold is_plain, is_ws3, byte_in. lia. Qed.

Lemma is_plain_not_ws3_mid a b c : is_plain b = true -> is_ws3 a b c = false.
Proof. unfold is_plain, is_ws3, byte_in. lia. Qed.

Lemma trim_start_plain a s : is_plain a = true -> trim_start (a :: s) = a :: s.
Proof.
  intros Ha. pose proof Ha as Hp. unfold is_plain in Hp. bool_prop. cbn [trim_start]. rewrite H0.
  destruct s as [|b [|c s]]; [done| |]; rewrite is_plain_not_ws2 by auto; [done|].
  by rewrite is_plain_not_ws3 by auto.
Qed.

Lemma trim_rev_plain a s : is_plain a = true -> trim_rev (a :: s) = a :: s.
Proof.
  intros Ha. pose proof Ha as Hp. unfold is_plain in Hp. bool_prop. cbn [trim_rev]. rewrite H0.
  destruct s as [|b [|c s]]; [done| |]; rewrite is_plain_not_ws2 by auto; [done|].
  by rewrite is_plain_not_ws3 by auto.
Qed.

(** Text that starts and ends with a plain byte is its own trimming. *)
Lemma trim_plain_ends s :
  (forall b, head s = Some b -> is_plain b = true) ->
  (forall b, last s = Some b -> is_plain b = true) -> trim s = s.
Proof.
  intros Hh Hl. unfold trim, trim_end.
  assert (trim_start s = s) as ->.
  { destruct s as [|a s]; [done|]. apply trim_start_plain. by apply Hh. }
  assert (trim_rev (reverse s) = reverse s) as ->; [|apply reverse_involutive].
  rewrite <- head_reverse in Hl. destruct (reverse s) as [|a r]; [done|].
  apply trim_rev_plain. by apply Hl.
Qed.

Lemma trim_plain s : Forall (fun b => is_plain b = true) s -> trim s = s.
Proof.
  rewrite Forall_forall. intros H. apply trim_plain_ends; intros b Hb; apply H.
  - destruct s; simplify_eq/=. set_solver.
  - by apply last_Some_elem_of.
Qed.

(** Trimming the end keeps everything up to a plain byte. *)
Lemma trim_rev_keeps a c r :
  is_plain c = true -> exists a', trim_rev (a ++ c :: r) = a' ++ c :: r /\ a' `suffix_of` a.
Proof.
  intros Hc. remember (length a) as n eqn:Hn. revert a Hn.
  induction (lt_wf n) as [n _ IH]. intros a ->.
  assert (Hrec : forall a1 a2, a = a1 ++ a2 -> a1 <> [] ->
    exists a', trim_rev (a2 ++ c :: r) = a' ++ c :: r /\ a' `suffix_of` a).
  { intros a1 a2 -> Hne. destruct (IH (length a2)) with (a := a2) as (a' & H1 & H2); [|done|].
    - rewrite length_app. destruct a1; simpl; [done|lia].
    - exists a'. split; [done|]. by apply suffix_app_r. }
  destruct a as [|x a]; [exists []; split; [by apply trim_rev_plain|done]|].
  cbn [app trim_rev]. destruct (is_ws1 x); [by apply (Hrec [x])|].
  destruct a as [|y a]; cbn [app].
  { rewrite is_plain_not_ws2 by auto. destruct r as [|z r]; [by exists [x]|].
    rewrite is_plain_not_ws3_mid by done. by exists [x]. }
  destruct (is_ws2 y x); [by apply (Hrec [x; y])|].
  destruct a as [|z a]; cbn [app]; [rewrite is_plain_not_ws3 by auto; by exists [x; y]|].
  destruct (is_ws3 z y x); [by apply (Hrec [x; y; z])|]. by exists (x :: y :: z :: a).
Qed.

Lemma trim_end_keeps p c u :
  is_plain c = true -> exists u', trim_end (p ++ c :: u) = p ++ c :: u' /\ u' `prefix_of` u.
Proof.
  intros Hc. unfold trim_end.
  destruct (trim_rev_keeps (reverse u) c (reverse p) Hc) as (a' & Ha & [k Hk]).
  exists (reverse a'). rewrite reverse_app, reverse_cons, <- app_assoc. simpl. rewrite Ha.
  rewrite reverse_app, reverse_cons, reverse_involutive, <- app_assoc. split; [done|].
  exists (reverse k). by rewrite <- reverse_app, <- Hk, reverse_involutive.
Qed.

Lemma is_plain_not_ws1 a : is_plain a = true -> is_ws1 a = false.
Proof. unfold is_plain. intros. by bool_prop. Qed.

(** The first word of a text that starts with plain bytes and a space. *)
Lemma first_word_plain w s :
  Forall (fun b => is_plain b = true) w -> w <> [] -> first_word (w ++ x20 :: s) = w.
Proof.
  intros Hw Hne. unfold first_word.
  assert (trim_start (w ++ x20 :: s) = w ++ x20 :: s) as ->.
  { destruct w; [done|]. apply trim_start_plain. by invc Hw. }
  clear Hne. induction Hw as [|a w Ha Hw IH]; [done|]. cbn [app until_ws] in *.
  rewrite is_plain_not_ws1 by done.
  destruct (w ++ x20 :: s) as [|b t] eqn:E; [by destruct w|].
  rewrite is_plain_not_ws2 by auto. destruct t as [|c t]; rewrite ?is_plain_not_ws3 by auto; by rewrite IH.
Qed.

Lemma split_byte_cons c s : exists p ps, split_byte c s = p :: ps.
Proof.
  induction s as [|x s (p & ps & IH)]; simpl; [by exists [], []|].
  case_bool_decide; [by eexists _, _|]. rewrite IH. by eexists _, _.
Qed.

Lemma split_byte_none c s : c ∉ s -> split_byte c s = [s].
Proof.
  induction s as [|x s IH]; intros Hc; simpl; [done|].
  apply not_elem_of_cons in Hc as [Hx Hc]. rewrite bool_decide_eq_false_2 by done. by rewrite IH.
Qed.

Lemma split_byte_last c pre s : c ∉ s -> last (split_byte c (pre ++ c :: s)) = Some s.
Proof.
  intros Hc. induction pre as [|x pre IH]; simpl.
  - rewrite bool_decide_eq_true_2, split_byte_none by done. done.
  - destruct (split_byte_cons c (pre ++ c :: s)) as (p & ps & E). rewrite E in *.
    case_bool_decide; [done|]. destruct ps; [|done].
    exfalso. clear -E. revert p E. induction pre as [|y pre IH]; intros p; simpl.
    + rewrite bool_decide_eq_true_2 by done. destruct (split_byte_cons c s) as (? & ? & ->). done.
    + case_bool_decide; [destruct (split_byte_cons c (pre ++ c :: s)) as (? & ? & ->); done|].
      destruct (split_byte_cons c (pre ++ c :: s)) as (q & qs & E). rewrite E.
      intros [= _ ->]. by eapply IH.
Qed.

Lemma lower_hex_plain b : is_lower_hex b = true -> is_plain b = true.
Proof. unfold is_lower_hex, is_plain, is_ws1, byte_in. lia. Qed.

(** ** Hexadecimal text *)

(** Two lower-case digits per byte. *)
Definition hex_encode (s : str) : str :=
  mjoin ((fun b => [digit_char (b2z b / 16); digit_char (b2z b mod 16)]) <$> s).

Lemma hex_encode_cons b s :
  hex_encode (b :: s) = digit_char (b2z b / 16) :: digit_char (b2z b mod 16) :: hex_encode s.
Proof. done. Qed.

Lemma length_hex_encode s : length (hex_encode s) = (2 * length s)%nat.
Proof. induction s; [done|]. rewrite hex_encode_cons. simpl. lia. Qed.

Lemma hex_encode_lower s : Forall (fun b => is_lower_hex b = true) (hex_encode s).
Proof.
  induction s as [|b s IH]; [constructor|]. rewrite hex_encode_cons.
  pose proof (b2z_range b). constructor; [|constructor; [|done]].
  - apply digit_char_lower_hex. split; [apply Z.div_pos; lia|]. apply Z.div_lt_upper_bound; lia.
  - apply digit_char_lower_hex. apply Z.mod_pos_bound. lia.
Qed.

Lemma show_i32_bytes n :
  Forall (fun b => b = x2d \/ is_ascii_digit b = true) (show_i32 n).
Proof.
  assert (H : forall m, Forall (fun b => b = x2d \/ is_ascii_digit b = true) (show_unsigned m)).
  { intros m. eapply Forall_impl; [apply show_unsigned_digits | auto]. }
  unfold show_i32. destruct (n <? 0); [constructor; auto|]; apply H.
Qed.

Lemma not_elem_of_Forall (P : byte -> Prop) c s : Forall P s -> ~ P c -> c ∉ s.
Proof. rewrite Forall_forall. intros H Hc Hin. by apply Hc, H. Qed.

(** ** Lemmas: lines *)

Lemma split_byte_app c l rest : c ∉ l -> split_byte c (l ++ c :: rest) = l :: split_byte c rest.
Proof.
  induction l as [|x l IH]; intros Hc; simpl.
  - by rewrite bool_decide_eq_true_2.
  - apply not_elem_of_cons in Hc as [Hx Hc]. rewrite bool_decide_eq_false_2 by done. by rewrite IH.
Qed.

Lemma split_byte_join c a b : split_byte c (a ++ c :: b) = split_byte c a ++ split_byte c b.
Proof.
  induction a as [|x a IH]; simpl.
  - by rewrite bool_decide_eq_true_2.
  - rewrite IH. destruct (split_byte_cons c a) as (p & ps & ->). by case_bool_decide.
Qed.

Lemma lines_line l rest : x0a ∉ l -> lines (l ++ x0a :: rest) = strip_cr l :: lines rest.
Proof.
  intros Hl. unfold lines. rewrite split_byte_app by done. cbn [lines_of].
  by destruct (split_byte_cons x0a rest) as (p & ps & ->).
Qed.

Lemma strip_cr_other l b : last l = Some b -> b <> x0d -> strip_cr l = l.
Proof.
  intros Hl Hb. unfold strip_cr. rewrite <- head_reverse in Hl.
  destruct (reverse l) as [|x r]; [done|]. injection Hl as ->. by rewrite bool_decide_eq_false_2.
Qed.

Lemma split_byte_incl c s p b : p ∈ split_byte c s -> b ∈ p -> b ∈ s /\ b <> c.
Proof.
  revert p. induction s as [|x s IH]; intros p; cbn [split_byte].
  - intros ->%list_elem_of_singleton Hb. by apply elem_of_nil in Hb.
  - destruct (split_byte_cons c s) as (q & qs & E). rewrite E in IH |- *. case_bool_decide as Hx.
    + intros [->|Hp]%elem_of_cons Hb; [by apply elem_of_nil in Hb|]. destruct (IH p Hp Hb). split; [by right|done].
    + intros [->|Hp]%elem_of_cons Hb.
      * apply elem_of_cons in Hb as [->|Hb]; [split; [by left|done]|]. destruct (IH q (list_elem_of_here _ _) Hb). split; [by right|done].
      * destruct (IH p (list_elem_of_further _ _ _ Hp) Hb). split; [by right|done].
Qed.

Lemma strip_cr_incl p b : b ∈ strip_cr p -> b ∈ p.
Proof.
  unfold strip_cr. destruct (reverse p) as [|x r] eqn:E; [by intros ?%elem_of_nil|]. case_bool_decide; [|done].
  intros Hin. rewrite <- (reverse_involutive p), E. rewrite elem_of_reverse in Hin |- *. by right.
Qed.

Lemma lines_of_elem ps l : l ∈ lines_of ps -> exists p, p ∈ ps /\ (l = p \/ l = strip_cr p).
Proof.
  induction ps as [|p ps IH]; [by intros ?%elem_of_nil|]. cbn [lines_of]. destruct ps as [|p' ps].
  - case_bool_decide; [by intros ?%elem_of_nil|]. intros ->%list_elem_of_singleton. exists p. split; [by left|by left].
  - intros [->|Hl]%elem_of_cons; [exists p; split; [by left|by right]|]. destruct (IH Hl) as (q & Hq & Eq). exists q. split; [by right|done].
Qed.

Lemma lines_incl s l b : l ∈ lines s -> b ∈ l -> b ∈ s /\ b <> x0a.
Proof. intros (p & Hp & [->| ->])%lines_of_elem Hb; [|apply strip_cr_incl in Hb]; by eapply split_byte_incl. Qed.

Lemma lines_free s : Forall (fun l => x0a ∉ l) (lines s).
Proof. apply Forall_forall. intros l Hl Hb. by destruct (lines_incl _ _ _ Hl Hb). Qed.

(** ** Lemmas: UTF-8 concatenation *)

Lemma utf8_width_cases b : utf8_width b = 0%nat \/ utf8_width b = 1%nat \/ utf8_width b = 2%nat \/
  utf8_width b = 3%nat \/ utf8_width b = 4%nat.
Proof. unfold utf8_width. repeat case_match; auto. Qed.

(** A well-formed character does not depend on what follows it. *)
Lemma utf8_next_app s t : s <> [] -> (utf8_next s).2 = true -> utf8_next (s ++ t) = utf8_next s.
Proof.
  intros Hs. destruct s as [|b0 s]; [done|]. cbn [app utf8_next].
  destruct (utf8_width_cases b0) as [->|[->|[->|[->| ->]]]]; try done;
    destruct s as [|b1 [|b2 [|b3 s]]]; cbn; repeat case_match; done.
Qed.

Lemma utf8_next_bounds s : s <> [] -> (utf8_next s).2 = true -> (1 <= (utf8_next s).1 <= length s)%nat.
Proof.
  intros Hs. destruct s as [|b0 s]; [done|]. cbn [utf8_next].
  destruct (utf8_width_cases b0) as [->|[->|[->|[->| ->]]]]; [done|cbn; lia|..];
    destruct s as [|b1 [|b2 [|b3 s]]]; cbn; repeat case_match; cbn; try done; lia.
Qed.

Lemma utf8_valid_fuel_enough m : forall m' s,
  (length s <= m)%nat -> (length s <= m')%nat -> utf8_valid_fuel m s = utf8_valid_fuel m' s.
Proof.
  induction m as [|m IH]; intros m' [|b s] H1 H2; try (simpl in H1; lia); [by destruct m'..|].
  destruct m' as [|m']; [simpl in H2; lia|]. cbn [utf8_valid_fuel].
  pose proof (utf8_next_bounds (b :: s) ltac:(done)) as Hb. destruct (utf8_next (b :: s)) as [n ok].
  destruct ok; [|done]. specialize (Hb eq_refl). cbn [fst andb] in *.
  apply IH; rewrite length_drop; simpl in *; lia.
Qed.

Lemma utf8_valid_step s : s <> [] ->
  utf8_valid s = (utf8_next s).2 && utf8_valid (drop (utf8_next s).1 s).
Proof.
  intros Hs. unfold utf8_valid. destruct s as [|b s]; [done|].
  pose proof (utf8_next_bounds (b :: s) Hs) as Hb. cbn [length utf8_valid_fuel].
  destruct (utf8_next (b :: s)) as [n ok]. destruct ok; [|done]. cbn [fst snd andb] in *. specialize (Hb eq_refl).
  apply utf8_valid_fuel_enough; rewrite ?length_drop; simpl in *; lia.
Qed.

Lemma utf8_valid_app s t : utf8_valid s = true -> utf8_valid t = true -> utf8_valid (s ++ t) = true.
Proof.
  remember (length s) as n eqn:Hn. revert s Hn. induction n as [n IH] using lt_wf_ind. intros s -> Hs Ht.
  destruct (decide (s = [])) as [->|Hne]; [done|]. rewrite utf8_valid_step in Hs by done.
  apply andb_true_iff in Hs as [Hok Hs]. pose proof (utf8_next_bounds s Hne Hok) as Hb.
  rewrite utf8_valid_step by (by destruct s). rewrite utf8_next_app by done. rewrite Hok. cbn [andb].
  rewrite drop_app_le by lia. eapply IH; [|done|done|done]. rewrite length_drop. lia.
Qed.

(** ** Lemmas: characters *)

(** One whole character. *)
Definition one_char (c : str) : Prop := c <> [] /\ utf8_next c = (length c, true).

Lemma utf8_next_take s : s <> [] -> (utf8_next s).2 = true -> one_char (take (utf8_next s).1 s).
Proof.
  intros Hs Hok. destruct s as [|b0 s]; [done|]. cbn [utf8_next] in *.
  destruct (utf8_width_cases b0) as [E|[E|[E|[E|E]]]]; rewrite E in *;
    destruct s as [|b1 [|b2 [|b3 s]]]; cbn in *; repeat (case_match; cbn in *; try done);
    (split; [done|]; cbn; rewrite E; cbn; repeat (case_match; try congruence); done).
Qed.

Lemma chars_fuel_enough m : forall m' s,
  utf8_valid s = true -> (length s <= m)%nat -> (length s <= m')%nat -> chars_fuel m s = chars_fuel m' s.
Proof.
  induction m as [|m IH]; intros m' [|b s] Hv H1 H2; try (simpl in H1; lia); [by destruct m'..|].
  destruct m' as [|m']; [simpl in H2; lia|]. cbn [chars_fuel]. rewrite utf8_valid_step in Hv by done.
  apply andb_true_iff in Hv as [Hok Hv]. pose proof (utf8_next_bounds (b :: s) ltac:(done) Hok) as Hb.
  f_equal. apply IH; [done|rewrite length_drop; simpl in *; lia..].
Qed.

Lemma chars_step s : s <> [] -> utf8_valid s = true -> chars s = take (utf8_next s).1 s :: chars (drop (utf8_next s).1 s).
Proof.
  intros Hs Hv. unfold chars at 1. destruct s as [|b s]; [done|]. cbn [length chars_fuel].
  pose proof Hv as Hv'. rewrite utf8_valid_step in Hv' by done. apply andb_true_iff in Hv' as [Hok Hd].
  pose proof (utf8_next_bounds (b :: s) Hs Hok) as Hb. f_equal. unfold chars. apply chars_fuel_enough; [done|..]; rewrite ?length_drop; simpl in *; lia.
Qed.

Lemma one_char_valid c s : one_char c -> utf8_valid (c ++ s) = utf8_valid s /\ (utf8_valid s = true -> chars (c ++ s) = c :: chars s).
Proof.
  intros [Hne Hc]. assert (utf8_next (c ++ s) = (length c, true)) as Hn by (rewrite utf8_next_app; rewrite ?Hc; done).
  assert (c ++ s <> []) as Hne' by (by destruct c). split.
  - rewrite utf8_valid_step, Hn by done. cbn [fst snd andb]. by rewrite drop_app_length.
  - intros Hs. rewrite chars_step; rewrite ?utf8_valid_step by done; rewrite ?Hn by done; cbn [fst snd andb]; rewrite ?drop_app_length, ?take_app_length; done.
Qed.

Lemma chars_exact s : utf8_valid s = true -> Forall one_char (chars s) /\ mjoin (chars s) = s.
Proof.
  remember (length s) as n eqn:Hn. revert s Hn. induction n as [n IH] using lt_wf_ind. intros s -> Hs.
  destruct (decide (s = [])) as [->|Hne]; [done|]. rewrite chars_step by done. pose proof Hs as Hs'.
  rewrite utf8_valid_step in Hs' by done. apply andb_true_iff in Hs' as [Hok Hd]. pose proof (utf8_next_bounds s Hne Hok) as Hb.
  destruct (IH (length (drop (utf8_next s).1 s))) with (s := drop (utf8_next s).1 s) as [H1 H2]; [rewrite length_drop; lia|done|done|].
  split; [constructor; [by apply utf8_next_take|done]|]. change (mjoin (?c :: ?l)) with (c ++ mjoin l). by rewrite H2, take_drop.
Qed.

Lemma chars_of_chars cs : Forall one_char cs -> utf8_valid (mjoin cs) = true /\ chars (mjoin cs) = cs.
Proof.
  induction 1 as [|c cs Hc _ [IH1 IH2]]; [done|]. change (mjoin (c :: cs)) with (c ++ mjoin cs).
  destruct (one_char_valid c (mjoin cs) Hc) as [E1 E2]. split; [by rewrite E1|]. by rewrite E2, IH2.
Qed.
