(* ===== verification/Bytes.v ===== *)
(** * Slices and fixed-width integers in byte strings

    [slice::get], [try_into] arrays, [to_be_bytes]/[from_be_bytes] and the little-endian
    versions, two's complement, on byte strings with 64-bit positions. *)

From S2P Require Import Prelude RustStr.

Definition zlen (s : str) : Z := Z.of_nat (length s).

Lemma zlen_app s1 s2 : zlen (s1 ++ s2) = zlen s1 + zlen s2.
Proof. unfold zlen. rewrite length_app. lia. Qed.

Lemma zlen_cons b s : zlen (b :: s) = 1 + zlen s.
Proof. unfold zlen. simpl length. lia. Qed.

Lemma zlen_nonneg s : 0 <= zlen s.
Proof. unfold zlen. lia. Qed.

Lemma take_zlen s rest : take (Z.to_nat (zlen s)) (s ++ rest) = s.
Proof. unfold zlen. rewrite Nat2Z.id. apply take_app_length. Qed.

(** ** Slices *)

(** [s.get(a..b)] *)
Definition slice (a b : Z) (s : str) : option str :=
  if (0 <=? a) && (a <=? b) && (b <=? zlen s)
  then Some (take (Z.to_nat (b - a)) (drop (Z.to_nat a) s)) else None.

(** [s.get(i)] *)
Definition byte_at (i : Z) (s : str) : option byte :=
  if 0 <=? i then s !! Z.to_nat i else None.

Lemma slice_Some a b s x :
  slice a b s = Some x ->
  0 <= a <= b /\ b <= zlen s /\ zlen x = b - a /\
  s = take (Z.to_nat a) s ++ x ++ drop (Z.to_nat b) s.
Proof.
  unfold slice, zlen. destruct (_ && _) eqn:E; [|done]. intros [= <-]. bool_prop.
  rewrite length_take, length_drop. repeat split; try lia.
  replace (Z.to_nat b) with (Z.to_nat a + Z.to_nat (b - a))%nat by lia.
  rewrite <- drop_drop, take_drop, take_drop. done.
Qed.

Lemma slice_is_Some a b s : 0 <= a <= b -> b <= zlen s -> is_Some (slice a b s).
Proof.
  intros. unfold slice. replace ((0 <=? a) && (a <=? b) && (b <=? zlen s)) with true by lia. eauto.
Qed.

(** A slice that is a piece of a known concatenation. *)
Lemma slice_app pre x post a b :
  a = zlen pre -> b = a + zlen x -> slice a b (pre ++ x ++ post) = Some x.
Proof.
  intros -> ->. unfold slice. rewrite !zlen_app.
  pose proof (zlen_nonneg pre). pose proof (zlen_nonneg x). pose proof (zlen_nonneg post).
  replace (_ && _) with true by lia. replace (Z.to_nat (zlen pre)) with (length pre) by (unfold zlen; lia).
  rewrite drop_app_length.
  replace (zlen pre + zlen x - zlen pre) with (zlen x) by lia. by rewrite take_zlen.
Qed.

Lemma slice_prefix a b s x y :
  slice a b s = Some (x ++ y) -> slice a (a + zlen x) s = Some x.
Proof.
  intros (Ha & Hb & Hl & Hs)%slice_Some. rewrite Hs, <- app_assoc. apply slice_app; [|done].
  unfold zlen in *. rewrite length_take. lia.
Qed.

Lemma byte_at_is_Some i s : 0 <= i < zlen s -> is_Some (byte_at i s).
Proof.
  intros H. unfold byte_at, zlen in *. replace (0 <=? i) with true by lia.
  apply lookup_lt_is_Some. lia.
Qed.

(** Indexing expressions [&s[a..b]] and [s[i]], which panic out of range. *)
Definition index_slice {E} (a b : Z) (s : str) : outcome str E := unwrap_or_panic (slice a b s).
Definition index_byte {E} (i : Z) (s : str) : outcome byte E := unwrap_or_panic (byte_at i s).

Lemma no_panic_index_slice {E} a b s :
  0 <= a <= b -> b <= zlen s -> no_panic (E:=E) (index_slice a b s).
Proof. intros H1 H2. unfold index_slice. by destruct (slice_is_Some a b s H1 H2) as [? ->]. Qed.

Lemma no_panic_index_byte {E} i s : 0 <= i < zlen s -> no_panic (E:=E) (index_byte i s).
Proof. intros H. unfold index_byte. by destruct (byte_at_is_Some i s H) as [? ->]. Qed.

#[export] Hint Extern 2 (no_panic (index_slice _ _ _)) => apply no_panic_index_slice; lia : panicfree.
#[export] Hint Extern 2 (no_panic (index_byte _ _)) => apply no_panic_index_byte; lia : panicfree.

Lemma index_slice_Ok {E} a b s x : index_slice (E:=E) a b s = Ok x -> slice a b s = Some x.
Proof. unfold index_slice. destruct (slice a b s); simpl; [by intros [= ->]|done]. Qed.

Lemma index_byte_Ok {E} i s b : index_byte (E:=E) i s = Ok b -> slice i (i + 1) s = Some [b].
Proof.
  unfold index_byte, byte_at. destruct (0 <=? i) eqn:E0; [|done]. bool_prop.
  destruct (s !! Z.to_nat i) as [c|] eqn:E1; simpl; [intros [= <-]|done].
  apply take_drop_middle in E1. rewrite <- E1.
  change (c :: drop (S (Z.to_nat i)) s) with ([c] ++ drop (S (Z.to_nat i)) s).
  assert (Z.to_nat i < length s)%nat.
  { destruct (decide (Z.to_nat i < length s)%nat); [done|]. rewrite take_ge, drop_ge in E1 by lia.
    apply (f_equal length) in E1. rewrite length_app in E1. simpl in E1. lia. }
  apply slice_app; [|done]. unfold zlen. rewrite length_take. lia.
Qed.

Lemma slice_byte_at i s b : slice i (i + 1) s = Some [b] -> byte_at i s = Some b.
Proof.
  intros (Hi & _ & _ & Hs)%slice_Some. unfold byte_at. replace (0 <=? i) with true by lia.
  rewrite Hs, lookup_app_r; rewrite length_take; [|lia].
  assert (Z.to_nat i <= length s)%nat.
  { apply (f_equal length) in Hs. rewrite !length_app, length_take, length_drop in Hs. simpl in Hs. lia. }
  by replace (Z.to_nat i - Z.to_nat i `min` length s)%nat with 0%nat by lia.
Qed.

(** Consecutive slices join. *)
Lemma slice_cat a b c s x y :
  slice a b s = Some x -> slice b c s = Some y -> slice a c s = Some (x ++ y).
Proof.
  intros (Ha & Hb & Hl & Hs)%slice_Some (Hb' & Hc & Hl' & Hs')%slice_Some.
  pose proof (f_equal (drop (Z.to_nat b)) Hs') as Hd.
  rewrite drop_app_length' in Hd by (rewrite length_take; unfold zlen in *; lia).
  rewrite Hd in Hs. rewrite Hs, (app_assoc x).
  apply slice_app; [unfold zlen in *; rewrite length_take; lia|]. rewrite zlen_app. lia.
Qed.

Lemma slice_full s x : slice 0 (zlen s) s = Some x -> x = s.
Proof.
  rewrite <- (app_nil_r s) at 2. change (s ++ []) with ([] ++ s ++ []).
  rewrite slice_app by done. by intros [= ->].
Qed.

(** Slices of concatenations. *)
Lemma slice_skip x a b s :
  zlen x <= a -> slice a b (x ++ s) = slice (a - zlen x) (b - zlen x) s.
Proof.
  intros Ha. pose proof (zlen_nonneg x). unfold slice. rewrite zlen_app.
  replace ((0 <=? a) && (a <=? b) && (b <=? zlen x + zlen s)) with
    ((0 <=? a - zlen x) && (a - zlen x <=? b - zlen x) && (b - zlen x <=? zlen s)) by lia.
  destruct (_ && _); [|done]. do 2 f_equal; [lia|].
  replace (Z.to_nat a) with (length x + Z.to_nat (a - zlen x))%nat by (unfold zlen in *; lia).
  by rewrite <- drop_drop, drop_app_length.
Qed.

Lemma slice_here x a b s : a = 0 -> b = zlen x -> slice a b (x ++ s) = Some x.
Proof. intros -> ->. change (x ++ s) with ([] ++ x ++ s). by apply slice_app. Qed.

Lemma slice_whole x a b : a = 0 -> b = zlen x -> slice a b x = Some x.
Proof. intros Ha Hb. rewrite <- (app_nil_r x) at 1. by apply slice_here. Qed.

(** ** Integers *)

Definition be_split (n : nat) (z : Z) : str := reverse (le_split n z).
Arguments be_split : simpl never.
Definition of_be (s : str) : Z := le_combine (reverse s).
Definition of_le (s : str) : Z := le_combine s.

(** Two's complement reading of an unsigned [w]-bit value. *)
Definition signed (w z : Z) : Z := if z <? 2 ^ (w - 1) then z else z - 2 ^ w.

Lemma length_be_split n z : length (be_split n z) = n.
Proof. unfold be_split. rewrite length_reverse. apply length_le_split. Qed.

Lemma zlen_be_split n z : zlen (be_split n z) = Z.of_nat n.
Proof. unfold zlen. by rewrite length_be_split. Qed.

Lemma of_be_split n z : 0 <= z < 2 ^ (8 * Z.of_nat n) -> of_be (be_split n z) = z.
Proof.
  intros Hz. unfold of_be, be_split. rewrite reverse_involutive, le_combine_split.
  apply Z.mod_small. by rewrite Z.mul_comm in Hz.
Qed.

Lemma of_be_range s : 0 <= of_be s < 2 ^ (8 * zlen s).
Proof.
  unfold of_be, zlen. pose proof (le_combine_bound (reverse s)) as H. by rewrite length_reverse in H.
Qed.

Lemma be_split_of_be s : be_split (length s) (of_be s) = s.
Proof.
  unfold be_split, of_be. rewrite <- (length_reverse s), split_le_combine. apply reverse_involutive.
Qed.

(** Evaluate a slice of a concatenation of pieces of known length. *)
Ltac zl := rewrite ?zlen_app, ?zlen_cons, ?zlen_be_split; change (zlen []) with 0.
Ltac piece := repeat (rewrite slice_skip by (zl; lia)); (apply slice_here || apply slice_whole); zl; lia.

#[export] Hint Rewrite length_be_split zlen_be_split zlen_app : lens.
