(* ===== verification/Records.v ===== *)
(** * Command records

    The record type every capture path produces and every store keeps
    (aic-common/src/lib.rs) and its identifiers (aic-common/src/session.rs); the record of
    a collected log line. *)

From S2P Require Import Prelude RustStr.

(** How a record was captured. *)
Inductive CaptureMode := Pty | Hook | ExplicitCapture.

(** How much of the output a record carries. *)
Inductive CaptureQuality :=
| FullOutput
| MetadataOnly
| RedactedOutput
| BinaryOmitted
| TruncatedOutput
| QualityUnknown.

#[export] Instance CaptureMode_eq_dec : EqDecision CaptureMode.
Proof. solve_decision. Defined.

Record OutputMetadata := {
  original_bytes : option Z;
  stored_bytes : Z;
  stored_lines : nat;
  truncated : bool;
  binary : bool;
  sha256 : option str;
  original_exit_code : option Z;
}.

(** One executed command. [timestamp] counts nanoseconds since the Unix epoch. *)
Record CommandRecord := {
  id : str;
  command : option str;
  exit_code : Z;
  output_lines : list str;
  timestamp : Z;
  capture_mode : CaptureMode;
  capture_quality : CaptureQuality;
  output_metadata : option OutputMetadata;
  cwd : option str;
  duration_ms : option Z;
}.

(** One line of a collected log. [ll_ts] is when the line was written. *)
Record LogLine := {
  ll_source : str;
  ll_service : str;
  ll_severity : str;
  ll_message : str;
  ll_attrs : gmap str str;
  ll_ts : Z;
  ll_record_id : str;
}.

(** [CommandRecord::default()] *)
Definition default_record : CommandRecord := {|
  id := [];
  command := None;
  exit_code := 0;
  output_lines := [];
  timestamp := 0;
  capture_mode := Pty;
  capture_quality := QualityUnknown;
  output_metadata := None;
  cwd := None;
  duration_ms := None;
|}.

(** [record.id = i] and [record.capture_mode = m] *)
Definition with_id (r : CommandRecord) (i : str) : CommandRecord := {|
  id := i;
  command := r.(command);
  exit_code := r.(exit_code);
  output_lines := r.(output_lines);
  timestamp := r.(timestamp);
  capture_mode := r.(capture_mode);
  capture_quality := r.(capture_quality);
  output_metadata := r.(output_metadata);
  cwd := r.(cwd);
  duration_ms := r.(duration_ms);
|}.

Definition with_mode (r : CommandRecord) (m : CaptureMode) : CommandRecord := {|
  id := r.(id);
  command := r.(command);
  exit_code := r.(exit_code);
  output_lines := r.(output_lines);
  timestamp := r.(timestamp);
  capture_mode := m;
  capture_quality := r.(capture_quality);
  output_metadata := r.(output_metadata);
  cwd := r.(cwd);
  duration_ms := r.(duration_ms);
|}.

(** [generate_record_id]: [value] is the [u64] drawn from the thread's generator. *)
Definition generate_record_id (value : Z) : str := show_hex 16 value.

(** The byte test shared by the two validators: [is_ascii_hexdigit] and not upper case. *)
Definition is_id_byte (b : byte) : bool :=
  (byte_in 48 57 b || byte_in 65 70 b || byte_in 97 102 b) && negb (byte_in 65 90 b).

Definition is_valid_record_id (i : str) : bool :=
  (1 <=? length i)%nat && (length i <=? 16)%nat && forallb is_id_byte i.

Definition is_valid_session_id (i : str) : bool :=
  (1 <=? length i)%nat && (length i <=? 8)%nat && forallb is_id_byte i.

Lemma lower_hex_is_id_byte b : is_lower_hex b = true -> is_id_byte b = true.
Proof.
  unfold is_lower_hex, is_id_byte, byte_in.
  rewrite !andb_true_iff, !orb_true_iff, negb_true_iff, !andb_false_iff, !andb_true_iff,
    !Z.leb_le, !Z.leb_gt. lia.
Qed.

Lemma generate_record_id_length v : length (generate_record_id v) = 16%nat.
Proof. apply show_hex_length. Qed.

Lemma generate_record_id_nonempty v : generate_record_id v <> [].
Proof. intros H. pose proof (generate_record_id_length v) as L. by rewrite H in L. Qed.

(** An identifier drawn for a record passes the validator of the lookup commands. *)
Lemma generate_record_id_valid v : is_valid_record_id (generate_record_id v) = true.
Proof.
  unfold is_valid_record_id. rewrite generate_record_id_length. simpl.
  apply forallb_forall. intros b Hb%list_elem_of_In. apply lower_hex_is_id_byte.
  pose proof (show_hex_lower v) as H. rewrite Forall_forall in H. by apply H.
Qed.

(** Assign an identifier to a record that has none. *)
Definition ensure_id (rng : Z) (r : CommandRecord) : CommandRecord :=
  if bool_decide (r.(id) = []) then with_id r (generate_record_id rng) else r.

Lemma ensure_id_nonempty rng r : id (ensure_id rng r) <> [].
Proof.
  unfold ensure_id. case_bool_decide; [apply generate_record_id_nonempty | done].
Qed.

Lemma ensure_id_lines rng r : output_lines (ensure_id rng r) = output_lines r.
Proof. unfold ensure_id. by case_bool_decide. Qed.

Lemma ensure_id_keeps rng r : id r <> [] -> ensure_id rng r = r.
Proof. intros H. unfold ensure_id. by rewrite bool_decide_eq_false_2. Qed.
