(* ===== verification/JsonValue.v ===== *)
(** * JSON values

    [serde_json::Value] as the code that inspects parsed text sees it. *)

From S2P Require Import Prelude.

(** [serde_json::Value]; of a number the code asks [as_u64]. Keys of an object are unique. *)
Inductive Value :=
| VNull
| VBool (b : bool)
| VNumber (as_u64 : option Z)
| VString (s : str)
| VArray (l : list Value)
| VObject (fields : list (str * Value)).

Definition as_object (v : Value) : option (list (str * Value)) :=
  match v with VObject fields => Some fields | _ => None end.
Definition as_str (v : Value) : option str := match v with VString s => Some s | _ => None end.
Definition as_array (v : Value) : option (list Value) := match v with VArray l => Some l | _ => None end.
Definition as_u64 (v : Value) : option Z := match v with VNumber n => n | _ => None end.

Fixpoint get (key : str) (fields : list (str * Value)) : option Value :=
  match fields with
  | [] => None
  | (k, v) :: fields => if bool_decide (k = key) then Some v else get key fields
  end.

(** [value.get(key)] *)
Definition value_get (v : Value) (key : str) : option Value := as_object v ≫= get key.

(** [value.get(key).and_then(as_str)] *)
Definition get_str (v : Value) (key : str) : option str := value_get v key ≫= as_str.
