(* ===== verification/RingBuffer.v ===== *)
(** * The session ring buffer (aic-server/src/ring_buffer.rs)

    A bounded buffer of command records whose capacity is a number of output lines.
    Theorems: [push] never underflows its line counter, keeps the counter exact and
    evicts exactly as few of the oldest records as the capacity allows; [recent_lines]
    is the tail of the flattened output. *)

From S2P Require Import Prelude RustStr Records.
Local Open Scope nat_scope.

(** [records] is the deque, oldest first. *)
Record RingBuffer := {
  records : list CommandRecord;
  max_lines : nat;
  current_line_count : nat;
}.

(** Lines of one record: [record.output_lines.len()]. *)
Abbreviation nlines := (fun r => length (output_lines r)).

Definition new (max : nat) : RingBuffer :=
  {| records := []; max_lines := max; current_line_count := 0 |}.

(** The eviction loop of [push]. [None] is the panic of the counter's subtraction when it
    would go below zero. *)
Fixpoint evict (max new_lines count : nat) (rs : list CommandRecord)
    : option (list CommandRecord * nat) :=
  if max <? count + new_lines then
    match rs with
    | [] => Some ([], count)
    | oldest :: rest =>
        if count <? nlines oldest then None
        else evict max new_lines (count - nlines oldest) rest
    end
  else Some (rs, count).

(** [rng] is the draw used when the record has no identifier yet. *)
Definition push (rng : Z) (record : CommandRecord) (rb : RingBuffer) : option RingBuffer :=
  let record := ensure_id rng record in
  let new_lines := nlines record in
  if rb.(max_lines) <? new_lines then
    Some {| records := [record]; max_lines := rb.(max_lines);
            current_line_count := new_lines |}
  else
    '(rs, count) ← evict rb.(max_lines) new_lines rb.(current_line_count) rb.(records);
    Some {| records := rs ++ [record]; max_lines := rb.(max_lines);
            current_line_count := count + new_lines |}.

Definition last_record (rb : RingBuffer) : option CommandRecord := last rb.(records).

Definition recent_records (n : nat) (rb : RingBuffer) : list CommandRecord :=
  if n =? 0 then []
  else drop (length rb.(records) - n) rb.(records).

Definition find_by_prefix (prefix : str) (rb : RingBuffer) : list CommandRecord :=
  if bool_decide (prefix = []) then []
  else List.filter (fun r => starts_with prefix (id r)) rb.(records).

Definition total_lines (rb : RingBuffer) : nat := rb.(current_line_count).
Definition capacity (rb : RingBuffer) : nat := rb.(max_lines).

(** The collecting loop of [recent_lines] over the records from newest to oldest;
    [collected] holds the lines newest first, as the vector does before it is reversed. *)
Fixpoint collect_lines (remaining : nat) (collected : list str) (rs : list CommandRecord)
    : list str :=
  match rs with
  | [] => collected
  | r :: rest =>
      let ls := output_lines r in
      let '(collected, remaining) :=
        if length ls <=? remaining
        then (collected ++ reverse ls, remaining - length ls)
        else (collected ++ reverse (drop (length ls - remaining) ls), 0) in
      if remaining =? 0 then collected else collect_lines remaining collected rest
  end.

Definition recent_lines (n : nat) (rb : RingBuffer) : list str :=
  if n =? 0 then []
  else reverse (collect_lines n [] (reverse rb.(records))).

(** ** Invariant *)

Definition lines_total (rs : list CommandRecord) : nat := sum_by nlines rs.
Arguments lines_total : simpl never.

(** The counter is exact, and the capacity is exceeded only by a single record that is
    itself larger than the capacity. *)
Definition inv (rb : RingBuffer) : Prop :=
  rb.(current_line_count) = lines_total rb.(records) /\
  (lines_total rb.(records) <= rb.(max_lines) \/ exists r, rb.(records) = [r]).

(** What [push] must compute: [kept] is what is left of [old] when as few of the oldest
    records as possible go so that [new_lines] more lines fit in [max]. *)
Definition keeps_longest_suffix (max new_lines : nat) (old kept : list CommandRecord) : Prop :=
  exists gone, old = gone ++ kept /\
    lines_total kept + new_lines <= max /\
    (forall r gone', gone = gone' ++ [r] -> max < nlines r + lines_total kept + new_lines).

Lemma lines_total_nil : lines_total [] = 0.
Proof. done. Qed.

Lemma lines_total_cons r rs : lines_total (r :: rs) = nlines r + lines_total rs.
Proof. done. Qed.

Lemma lines_total_app rs1 rs2 : lines_total (rs1 ++ rs2) = lines_total rs1 + lines_total rs2.
Proof. apply sum_by_app. Qed.

Lemma evict_spec max new_lines rs :
  new_lines <= max ->
  exists kept, evict max new_lines (lines_total rs) rs = Some (kept, lines_total kept) /\
    keeps_longest_suffix max new_lines rs kept.
Proof.
  intros Hn. induction rs as [|r rs IH]; cbn [evict].
  - destruct (max <? _) eqn:E; bool_prop; [rewrite lines_total_nil in E; lia|].
    exists []. split; [done|]. exists []. split; [done|].
    split; [rewrite lines_total_nil; lia|]. by intros ? ? ?%app_cons_not_nil.
  - rewrite lines_total_cons. destruct (max <? _) eqn:E; bool_prop.
    + replace (nlines r + lines_total rs <? nlines r) with false by lia.
      replace (nlines r + lines_total rs - nlines r) with (lines_total rs) by lia.
      destruct IH as (kept & -> & gone & -> & Hle & Hmin). exists kept. split; [done|].
      exists (r :: gone). split; [done|]. split; [done|].
      rewrite lines_total_app in E. intros r' gone' Hg.
      destruct gone' as [|x gone']; simplify_eq/=; [change (lines_total []) with 0 in E; lia|].
      by eapply Hmin.
    + exists (r :: rs). split; [by rewrite lines_total_cons|]. exists []. split; [done|]. split.
      * rewrite lines_total_cons. lia.
      * by intros ? ? ?%app_cons_not_nil.
Qed.

Lemma collect_lines_spec rs remaining collected :
  0 < remaining ->
  collect_lines remaining collected (reverse rs) =
  collected ++ reverse (lastn remaining (mjoin (output_lines <$> rs))).
Proof.
  revert remaining collected. induction rs as [|r rs IH] using rev_ind; intros remaining collected Hr.
  - simpl. by rewrite lastn_all, app_nil_r by (simpl; lia).
  - rewrite reverse_snoc, fmap_app, join_app. simpl. rewrite app_nil_r.
    destruct (length (output_lines r) <=? remaining) eqn:E; bool_prop.
    + rewrite lastn_app_ge, reverse_app by done.
      destruct (remaining - length (output_lines r) =? 0) eqn:E2; bool_prop.
      * rewrite E2, lastn_0. simpl. by rewrite app_nil_r.
      * rewrite IH by lia. by rewrite app_assoc.
    + simpl. by rewrite lastn_app_lt by lia.
Qed.

Lemma recent_lines_lastn n rb :
  recent_lines n rb = lastn n (mjoin (output_lines <$> rb.(records))).
Proof.
  unfold recent_lines. destruct (n =? 0) eqn:E; bool_prop.
  - subst. by rewrite lastn_0.
  - rewrite collect_lines_spec by lia. simpl. apply reverse_involutive.
Qed.

Lemma push_spec rng r rb :
  inv rb ->
  exists rb', push rng r rb = Some rb' /\ inv rb' /\ rb'.(max_lines) = rb.(max_lines) /\
    exists kept, rb'.(records) = kept ++ [ensure_id rng r] /\
      (if rb.(max_lines) <? nlines r then kept = []
       else keeps_longest_suffix rb.(max_lines) (nlines r) rb.(records) kept).
Proof.
  intros [Hc Hcap]. unfold push. rewrite ensure_id_lines, Hc.
  destruct (max_lines rb <? nlines r) eqn:E; bool_prop.
  - eexists; split; [done|]. split; [|split; [done | by exists []]].
    split; simpl; [|eauto]. rewrite lines_total_cons, lines_total_nil, ensure_id_lines. lia.
  - destruct (evict_spec (max_lines rb) (nlines r) (records rb) E) as (kept & -> & Hk).
    simpl. eexists; split; [done|]. split; [|split; [done | by exists kept]].
    destruct Hk as (gone & _ & Hle & _).
    split; simpl; rewrite lines_total_app, lines_total_cons, lines_total_nil, ensure_id_lines; lia.
Qed.

(** ** Properties *)

(** C25: from a buffer whose counter is exact, [push] does not underflow, restores the
    invariant, and keeps exactly the longest suffix of the old records that leaves room
    for the new one (all of them go when the record alone exceeds the capacity). *)
Theorem push_correct rng r rb :
  inv rb ->
  exists rb', push rng r rb = Some rb' /\ inv rb' /\ rb'.(max_lines) = rb.(max_lines) /\
    exists kept, rb'.(records) = kept ++ [ensure_id rng r] /\
      (if rb.(max_lines) <? nlines r then kept = []
       else keeps_longest_suffix rb.(max_lines) (nlines r) rb.(records) kept).
Proof. apply push_spec. Qed.

(** [recent_lines n] is the last [n] lines of the whole buffered output, oldest
    first, whatever the division of the output into records. *)
Theorem recent_lines_correct n rb :
  recent_lines n rb = lastn n (mjoin (output_lines <$> rb.(records))).
Proof. apply recent_lines_lastn. Qed.

Lemma recent_records_correct n rb : recent_records n rb = lastn n rb.(records).
Proof.
  unfold recent_records. destruct (n =? 0) eqn:E; bool_prop; [|done].
  subst. by rewrite lastn_0.
Qed.

Lemma new_inv max : inv (new max).
Proof. split; [done|]. left. simpl. rewrite lines_total_nil. lia. Qed.

(** ** Witness *)

Definition line_record (n : nat) : CommandRecord :=
  {| id := []; command := None; exit_code := 0; output_lines := replicate n (lit "x");
     timestamp := 0; capture_mode := Pty; capture_quality := QualityUnknown;
     output_metadata := None; cwd := None; duration_ms := None |}.

Lemma push_correct_witness :
  exists rb', push 7 (line_record 2) (new 3) = Some rb' /\ inv rb'.
Proof.
  destruct (push_correct 7 (line_record 2) (new 3) (new_inv 3)) as (rb' & H & Hi & _).
  exists rb'. split; [exact H | exact Hi].
Defined.
