(* ===== verification/OutputProcessor.v ===== *)
(** * PTY output processing (aic-server/src/output_processor.rs)

    Extraction of the OSC 133 markers from a raw PTY chunk and tracking of the
    alternate screen. [strip_ansi] stands for the [strip_ansi_escapes] crate.
    Theorems: the extraction loop terminates within its fuel, returns exactly the
    well-framed markers of a stream in order, and nothing that is not one. *)

From S2P Require Import Prelude RustStr.
Local Open Scope nat_scope.

Definition ESC : byte := x1b.
Definition BEL : byte := x07.

(** The introducer of an OSC 133 sequence, [ESC ] 1 3 3 ;]. *)
Definition osc_start : str := ESC :: lit "]133;".

Definition ALT_SCREEN_ENTER : list str :=
  [ESC :: lit "[?1049h"; ESC :: lit "[?47h"; ESC :: lit "[?1047h"].
Definition ALT_SCREEN_EXIT : list str :=
  [ESC :: lit "[?1049l"; ESC :: lit "[?47l"; ESC :: lit "[?1047l"].

(** [haystack.windows(needle.len()).any(|w| w == needle)] *)
Definition contains_sequence (haystack needle : str) : bool := contains needle haystack.

(** The scanning loop; [rest] is [raw[i..]]. *)
Fixpoint extract_loop (fuel : nat) (rest : str) : list str :=
  match fuel with
  | O => []
  | S fuel' =>
      match find_sub osc_start rest with
      | None => []
      | Some pos =>
          let at_start := drop pos rest in
          match find_byte BEL at_start with
          | Some end_offset =>
              let marker := take (end_offset + 1) at_start in
              (if utf8_valid marker then [marker] else [])
                ++ extract_loop fuel' (drop (end_offset + 1) at_start)
          | None => extract_loop fuel' (drop 1 at_start)
          end
      end
  end.

Definition extract_osc133_markers (raw : str) : list str := extract_loop (S (length raw)) raw.

Record ProcessedOutput := {
  clean_text : option str;
  passthrough : str;
  osc133_markers : list str;
}.

Record OutputProcessor := { in_alternate_screen : bool }.

Definition new : OutputProcessor := {| in_alternate_screen := false |}.

(** One pass over a table of sequences: the flag becomes [v] if any of them occurs. *)
Definition scan_sequences (v : bool) (seqs : list str) (raw : str) (flag : bool) : bool :=
  foldl (fun f seq => if contains_sequence raw seq then v else f) flag seqs.

Section Process.
(** [strip_ansi_escapes::strip] *)
Variable strip_ansi : str -> str.

Definition process (raw : str) (p : OutputProcessor) : ProcessedOutput * OutputProcessor :=
  let markers := extract_osc133_markers raw in
  let flag := scan_sequences true ALT_SCREEN_ENTER raw p.(in_alternate_screen) in
  let flag := scan_sequences false ALT_SCREEN_EXIT raw flag in
  let text := if flag then None else Some (from_utf8_lossy (strip_ansi raw)) in
  ({| clean_text := text; passthrough := raw; osc133_markers := markers |},
   {| in_alternate_screen := flag |}).
End Process.

Definition is_alternate_screen (p : OutputProcessor) : bool := p.(in_alternate_screen).

(** ** Lemmas *)

(** A sequence that the extractor is meant to recognise. *)
Definition is_marker (m : str) : Prop :=
  utf8_valid m = true /\ exists body, m = osc_start ++ body ++ [BEL] /\ BEL ∉ body.

Lemma drop_find_sub needle s i :
  find_sub needle s = Some i -> exists post, drop i s = needle ++ post.
Proof.
  intros (pre & post & -> & <-)%find_sub_Some. exists post. by rewrite drop_app_length.
Qed.

Lemma find_sub_app_Some needle s t i :
  find_sub needle s = Some i -> find_sub needle (s ++ t) = Some i.
Proof.
  revert i; induction s as [|x s IH]; intros i.
  - simpl. destruct (starts_with needle []) eqn:E; [|done]. intros [= <-].
    apply starts_with_spec, prefix_nil_inv in E. subst. by destruct t.
  - cbn [find_sub app]. destruct (starts_with needle (x :: s)) eqn:E.
    + intros [= <-]. apply starts_with_spec in E as [k E].
      assert (starts_with needle (x :: s ++ t) = true) as ->; [|done].
      apply starts_with_spec. exists (k ++ t). rewrite app_comm_cons, E. by rewrite app_assoc.
    + destruct (find_sub needle s) as [j|] eqn:F; [|done]. simpl. intros [= <-].
      rewrite (IH j eq_refl). simpl. destruct (starts_with needle (x :: s ++ t)) eqn:E2; [|done].
      apply find_sub_Some in F as (pre & post & -> & <-).
      pose proof (starts_with_false_app needle (x :: (pre ++ needle ++ post)) t E) as H.
      rewrite length_cons, !length_app in H. simpl app in H. rewrite E2 in H. lia.
Qed.

(** The marker cut out at an introducer is framed as documented. *)
Lemma cut_is_framed post e :
  find_byte BEL (osc_start ++ post) = Some e ->
  exists body post', take (e + 1) (osc_start ++ post) = osc_start ++ body ++ [BEL] /\
    post = body ++ BEL :: post' /\ BEL ∉ body /\ drop (e + 1) (osc_start ++ post) = post'.
Proof.
  intros (pre & post' & Hs & <- & Hn)%find_byte_Some.
  assert (Hp : exists body, pre = osc_start ++ body).
  { destruct pre as [|p0 [|p1 [|p2 [|p3 [|p4 [|p5 pre]]]]]]; simplify_eq/=; by eexists. }
  destruct Hp as [body ->]. exists body, post'.
  rewrite <- app_assoc in Hs. apply app_inv_head in Hs. subst post.
  split; [|split; [done|split; [set_solver|]]].
  - replace (osc_start ++ body ++ BEL :: post') with ((osc_start ++ body ++ [BEL]) ++ post')
      by (by rewrite <- !app_assoc).
    apply take_app_length'. rewrite !length_app. simpl. lia.
  - replace (osc_start ++ body ++ BEL :: post') with ((osc_start ++ body ++ [BEL]) ++ post')
      by (by rewrite <- !app_assoc).
    apply drop_app_length'. rewrite !length_app. simpl. lia.
Qed.

(** Any fuel above the length of the input gives the same result: the loop ends by itself. *)
Lemma extract_loop_fuel f g rest :
  length rest < f -> length rest < g -> extract_loop f rest = extract_loop g rest.
Proof.
  revert g rest; induction f as [|f IH]; intros [|g] rest Hf Hg; try lia.
  cbn [extract_loop]. destruct (find_sub osc_start rest) as [pos|] eqn:E; [|done].
  assert (Hl : 1 <= length (drop pos rest)).
  { apply drop_find_sub in E as [post ->]. rewrite length_app. simpl. lia. }
  rewrite length_drop in Hl.
  destruct (find_byte BEL (drop pos rest)); [f_equal|];
    apply IH; rewrite !length_drop; lia.
Qed.

Lemma extract_loop_sound fuel rest m :
  m ∈ extract_loop fuel rest -> is_marker m /\ exists pre post, rest = pre ++ m ++ post.
Proof.
  revert rest; induction fuel as [|f IH]; intros rest; cbn [extract_loop]; [set_solver|].
  destruct (find_sub osc_start rest) as [pos|] eqn:E; [|set_solver].
  apply find_sub_Some in E as (pre & post & -> & <-). rewrite drop_app_length.
  destruct (find_byte BEL (osc_start ++ post)) as [e|] eqn:F.
  - apply cut_is_framed in F as (body & post' & -> & -> & Hb & ->).
    rewrite elem_of_app. intros [Hm|Hm].
    + destruct (utf8_valid _) eqn:U; [|set_solver]. apply list_elem_of_singleton in Hm as ->.
      split; [split; [done|eauto]|]. exists pre, post'. by rewrite <- !app_assoc.
    + apply IH in Hm as [Hm (p & q & ->)]. split; [done|].
      exists (pre ++ osc_start ++ body ++ BEL :: p), q. by rewrite <- !app_assoc.
  - intros Hm. apply IH in Hm as [Hm (p & q & Hd)]. split; [done|].
    exists (pre ++ ESC :: p), q. rewrite <- app_assoc. simpl. rewrite <- Hd. by destruct post.
Qed.

(** A stream as a terminal sends it: pieces of text, each followed by a marker. The text
    may contain escape sequences but does not complete an introducer before its marker. *)
Definition framed_piece (piece : str * str) : Prop :=
  find_sub osc_start (piece.1 ++ osc_start) = Some (length piece.1) /\ is_marker piece.2.

Definition stream (pieces : list (str * str)) (tail : str) : str :=
  mjoin ((fun p => p.1 ++ p.2) <$> pieces) ++ tail.

Lemma stream_cons text m pieces tail :
  stream ((text, m) :: pieces) tail = text ++ m ++ stream pieces tail.
Proof. unfold stream. rewrite fmap_cons. simpl. by rewrite <- !app_assoc. Qed.

Lemma BEL_not_in_osc_start : BEL ∉ osc_start.
Proof. by_decide. Qed.

Lemma extract_loop_piece fuel text m rest :
  framed_piece (text, m) ->
  extract_loop (S fuel) (text ++ m ++ rest) = m :: extract_loop fuel rest.
Proof.
  intros [Hf Hm]. simpl in Hf, Hm. destruct Hm as (Hu & body & -> & Hb). cbn [extract_loop].
  rewrite <- !app_assoc, (app_assoc text).
  rewrite (find_sub_app_Some _ _ _ _ Hf). rewrite <- (app_assoc text), drop_app_length.
  replace (osc_start ++ body ++ [BEL] ++ rest) with ((osc_start ++ body) ++ BEL :: rest)
    by (by rewrite <- app_assoc).
  rewrite find_byte_app by (rewrite not_elem_of_app; split; [apply BEL_not_in_osc_start | done]).
  replace ((osc_start ++ body) ++ BEL :: rest) with ((osc_start ++ body ++ [BEL]) ++ rest)
    by (by rewrite <- !app_assoc).
  replace (length (osc_start ++ body) + 1) with (length (osc_start ++ body ++ [BEL]))
    by (rewrite !length_app; simpl; lia).
  rewrite take_app_length, drop_app_length, Hu. done.
Qed.

Lemma extract_loop_stream pieces tail fuel :
  Forall framed_piece pieces -> find_sub osc_start tail = None ->
  length pieces < fuel -> extract_loop fuel (stream pieces tail) = pieces.*2.
Proof.
  intros Hp Ht. revert fuel. induction Hp as [|[text m] pieces Hm Hp IH]; intros fuel Hf.
  - destruct fuel; [simpl in Hf; lia|]. unfold stream. simpl. by rewrite Ht.
  - destruct fuel as [|fuel]; [simpl in Hf; lia|].
    rewrite stream_cons, extract_loop_piece by done. cbn [fmap list_fmap snd]. f_equal. apply IH. simpl in Hf. lia.
Qed.

Lemma stream_length pieces tail :
  Forall framed_piece pieces -> length pieces <= length (stream pieces tail).
Proof.
  induction 1 as [|[text m] pieces Hm Hp IH]; [simpl; lia|].
  rewrite stream_cons, !length_app. destruct Hm as [_ Hm]. simpl in Hm.
  destruct Hm as (_ & body & -> & _). rewrite !length_app. simpl. lia.
Qed.

(** ** Properties *)

(** on a stream of text pieces and well-formed OSC 133 markers, the extractor
    returns exactly the markers, in order; escape sequences of other kinds in the text are
    allowed, only an unfinished OSC 133 introducer is not. *)
Theorem extract_stream pieces tail :
  Forall framed_piece pieces -> find_sub osc_start tail = None ->
  extract_osc133_markers (stream pieces tail) = pieces.*2.
Proof.
  intros Hp Ht. unfold extract_osc133_markers. apply extract_loop_stream; [done|done|].
  pose proof (stream_length pieces tail Hp). lia.
Qed.

(** C2: on any input whatever, each extracted marker is a contiguous part of the input,
    valid UTF-8, starts with the OSC 133 introducer, and ends at its first BEL. *)
Theorem extract_sound raw m :
  m ∈ extract_osc133_markers raw ->
  is_marker m /\ exists pre post, raw = pre ++ m ++ post.
Proof. apply extract_loop_sound. Qed.

Lemma scan_sequences_spec v seqs raw flag :
  scan_sequences v seqs raw flag =
  if existsb (contains_sequence raw) seqs then v else flag.
Proof.
  unfold scan_sequences. revert flag. induction seqs as [|s seqs IH]; intros flag; [done|].
  simpl. rewrite IH. destruct (contains_sequence raw s); simpl; [|done].
  by destruct (existsb _ _).
Qed.

(** a chunk that leaves the alternate screen and enters it again is recorded as
    normal screen, and its full-screen output is kept as clean text: the exit sequences
    are scanned after the enter sequences, whatever their order in the chunk. *)
Theorem process_reentry_seen_as_exit strip_ansi p pre mid post :
  let raw := pre ++ (ESC :: lit "[?1049l") ++ mid ++ (ESC :: lit "[?1049h") ++ post in
  in_alternate_screen (process strip_ansi raw p).2 = false /\
  clean_text (process strip_ansi raw p).1 = Some (from_utf8_lossy (strip_ansi raw)).
Proof.
  intros raw. unfold process.
  assert (Hx : scan_sequences false ALT_SCREEN_EXIT raw
    (scan_sequences true ALT_SCREEN_ENTER raw (in_alternate_screen p)) = false).
  { rewrite (scan_sequences_spec false). unfold ALT_SCREEN_EXIT. cbn [existsb].
    assert (contains_sequence raw (ESC :: lit "[?1049l") = true) as ->; [|done].
    apply contains_spec. by exists pre, (mid ++ (ESC :: lit "[?1049h") ++ post). }
  cbn zeta. rewrite Hx. done.
Qed.

(** ** Witness *)

Definition marker_c : str := osc_start ++ lit "C" ++ [BEL].
Definition marker_d : str := osc_start ++ lit "D;1" ++ [BEL].

Lemma is_marker_body body :
  utf8_valid (osc_start ++ body ++ [BEL]) = true -> BEL ∉ body -> is_marker (osc_start ++ body ++ [BEL]).
Proof. intros Hu Hb. split; [done|]. by exists body. Qed.

Lemma extract_stream_witness :
  extract_osc133_markers
    (stream [(ESC :: lit "[31mred", marker_c); (lit "boom", marker_d)] (lit "$ "))
  = [marker_c; marker_d].
Proof.
  refine (extract_stream [(ESC :: lit "[31mred", marker_c); (lit "boom", marker_d)] (lit "$ ") _ _).
  - constructor; [|constructor; [|constructor]]; (split; [vm_compute; reflexivity|]);
      apply is_marker_body; [vm_compute; reflexivity | by_decide | vm_compute; reflexivity | by_decide].
  - vm_compute; reflexivity.
Defined.

Lemma extract_sound_witness : exists pre post, lit "ls" ++ marker_d = pre ++ marker_d ++ post.
Proof.
  refine (proj2 (extract_sound (lit "ls" ++ marker_d) marker_d _)).
  by_decide.
Defined.
