(* ===== verification/BoundaryDetector.v ===== *)
(** * Command boundary detection (aic-server/src/boundary_detector.rs)

    The state machine that turns a sequence of markers and output lines into command
    records. Theorems: no output line is lost, duplicated or reordered; a command framed
    by its C and D markers comes back with its text, exit code and output; and one marker
    text makes the decoder panic. *)

From S2P Require Import Prelude RustStr Records OutputProcessor.
Local Open Scope nat_scope.
Local Open Scope outcome_scope.

Definition OSC_PROMPT_START : str := ESC :: lit "]133;A" ++ [BEL].
Definition OSC_COMMAND_START : str := ESC :: lit "]133;B" ++ [BEL].
Definition OSC_OUTPUT_START : str := ESC :: lit "]133;C" ++ [BEL].
Definition OSC_COMMAND_WITH_TEXT_PREFIX : str := ESC :: lit "]133;C;cmd=".
Definition OSC_COMPLETION_PREFIX : str := ESC :: lit "]133;D;".
Definition OSC_COMPLETION_SUFFIX : byte := BEL.
Definition MAX_COMMAND_HEX_LEN : nat := Z.to_nat 8192.

Inductive BoundaryStrategy :=
| PromptMarker (marker_sequence : str)
| TimingHeuristic (idle_threshold : Z).

Record CommandBoundaryDetector := {
  strategy : BoundaryStrategy;
  current_output : list str;
  current_command : option str;
  last_exit_code : option Z;
  last_line_time : option Z;
  has_output : bool;
}.

Definition new (s : BoundaryStrategy) : CommandBoundaryDetector := {|
  strategy := s;
  current_output := [];
  current_command := None;
  last_exit_code := None;
  last_line_time := None;
  has_output := false;
|}.

(** ** Marker parsing *)

Definition parse_completion_marker (line : str) : option Z :=
  start ← find_sub OSC_COMPLETION_PREFIX line;
  let rest := drop (start + length OSC_COMPLETION_PREFIX) line in
  end_ ← find_byte OSC_COMPLETION_SUFFIX rest;
  parse_i32 (take end_ rest).

(** One two-byte chunk: [str::from_utf8(pair)] then [u8::from_str_radix(_, 16)]. *)
Definition decode_pair (a b : byte) : option byte :=
  if utf8_valid [a; b] then byte.of_Z <$> parse_unsigned 16 u8_max [a; b] else None.

Fixpoint decode_pairs (s : str) : option str :=
  match s with
  | a :: b :: rest => v ← decode_pair a b; (v ::.) <$> decode_pairs rest
  | _ => Some []
  end.

(** [Panic] is the slice [&hex[..n]] off a character boundary. *)
Definition decode_hex_command (hex : str) : outcome (option str) Empty_set :=
  let hex := trim hex in
  if bool_decide (hex = []) || Nat.odd (length hex) then Ok None
  else
    let? hex := unwrap_or_panic (str_prefix hex (length hex `min` MAX_COMMAND_HEX_LEN)) in
    Ok (bytes ← decode_pairs hex;
        if utf8_valid bytes then
          let command := trim bytes in
          if bool_decide (command = []) then None else Some command
        else None).

(** [None]: not a command marker; [Some None]: a marker without usable text. *)
Definition parse_command_marker (line : str) : outcome (option (option str)) Empty_set :=
  match find_sub OSC_COMMAND_WITH_TEXT_PREFIX line with
  | Some start =>
      let rest := drop (start + length OSC_COMMAND_WITH_TEXT_PREFIX) line in
      match find_byte OSC_COMPLETION_SUFFIX rest with
      | None => Ok None
      | Some end_ => let? c := decode_hex_command (take end_ rest) in Ok (Some c)
      end
  | None => if contains OSC_OUTPUT_START line then Ok (Some None) else Ok None
  end.

(** ** The state machine *)

Definition reset_state (d : CommandBoundaryDetector) : CommandBoundaryDetector := {|
  strategy := d.(strategy);
  current_output := [];
  current_command := None;
  last_exit_code := None;
  last_line_time := d.(last_line_time);
  has_output := false;
|}.

(** [utc] is the wall clock read for the record's timestamp. *)
Definition finalize_record (utc code : Z) (d : CommandBoundaryDetector)
    : CommandBoundaryDetector * option CommandRecord :=
  if bool_decide (d.(current_output) = [])
     && (bool_decide (d.(current_command) = None) || bool_decide (code = 0%Z))
  then (reset_state d, None)
  else
    (reset_state d,
     Some {| id := []; command := d.(current_command); exit_code := code;
             output_lines := d.(current_output); timestamp := utc;
             capture_mode := default_record.(capture_mode);
             capture_quality := default_record.(capture_quality);
             output_metadata := None; cwd := None; duration_ms := None |}).

Definition push_line (line : str) (time : option Z) (d : CommandBoundaryDetector)
    : CommandBoundaryDetector := {|
  strategy := d.(strategy);
  current_output := d.(current_output) ++ [line];
  current_command := d.(current_command);
  last_exit_code := d.(last_exit_code);
  last_line_time := time;
  has_output := true;
|}.

Definition set_command (c : str) (d : CommandBoundaryDetector) : CommandBoundaryDetector := {|
  strategy := d.(strategy);
  current_output := d.(current_output);
  current_command := Some c;
  last_exit_code := d.(last_exit_code);
  last_line_time := d.(last_line_time);
  has_output := d.(has_output);
|}.

Definition set_exit_code (code : Z) (d : CommandBoundaryDetector) : CommandBoundaryDetector := {|
  strategy := d.(strategy);
  current_output := d.(current_output);
  current_command := d.(current_command);
  last_exit_code := Some code;
  last_line_time := d.(last_line_time);
  has_output := d.(has_output);
|}.

Abbreviation step_result := (outcome (CommandBoundaryDetector * option CommandRecord) Empty_set).

Definition feed_line_prompt_marker (utc : Z) (line : str) (d : CommandBoundaryDetector)
    : step_result :=
  match parse_completion_marker line with
  | Some code => Ok (finalize_record utc code d)
  | None =>
      if contains OSC_PROMPT_START line then
        if d.(has_output)
        then Ok (finalize_record utc (default 0%Z d.(last_exit_code)) d)
        else Ok (d, None)
      else
        let? m := parse_command_marker line in
        match m with
        | Some (Some c) => Ok (set_command c d, None)
        | Some None => Ok (d, None)
        | None =>
            if contains OSC_COMMAND_START line then Ok (d, None)
            else Ok (push_line line d.(last_line_time) d, None)
        end
  end.

(** [now] is the monotonic clock; [duration_since] saturates at zero. *)
Definition feed_line_timing (now utc : Z) (line : str) (idle_threshold : Z)
    (d : CommandBoundaryDetector) : step_result :=
  let '(d, result) :=
    match d.(last_line_time) with
    | Some last_time =>
        if (idle_threshold <=? Z.max 0 (now - last_time))%Z && d.(has_output)
        then finalize_record utc (default 0%Z d.(last_exit_code)) d
        else (d, None)
    | None => (d, None)
    end in
  Ok (push_line line (Some now) d, result).

Definition feed_line (now utc : Z) (line : str) (d : CommandBoundaryDetector) : step_result :=
  match d.(strategy) with
  | PromptMarker _ => feed_line_prompt_marker utc line d
  | TimingHeuristic idle_threshold => feed_line_timing now utc line idle_threshold d
  end.

(** A caller's loop over lines; every line carries the clock readings of its call. *)
Fixpoint feed_lines (inputs : list (Z * Z * str)) (d : CommandBoundaryDetector)
    : outcome (CommandBoundaryDetector * list CommandRecord) Empty_set :=
  match inputs with
  | [] => Ok (d, [])
  | (now, utc, line) :: rest =>
      let? (d1, r) := feed_line now utc line d in
      let? (d2, rs) := feed_lines rest d1 in
      Ok (d2, option_list r ++ rs)
  end.

(** ** Conservation of output lines *)

(** A line that the prompt-marker strategy stores as output. *)
Definition is_output_line (line : str) : bool :=
  match parse_completion_marker line with
  | Some _ => false
  | None =>
      if contains OSC_PROMPT_START line then false
      else match parse_command_marker line with
           | Ok None => negb (contains OSC_COMMAND_START line)
           | _ => false
           end
  end.

(** The lines a detector is expected to attribute to some command. *)
Definition output_of (s : BoundaryStrategy) (line : str) : list str :=
  match s with
  | PromptMarker _ => if is_output_line line then [line] else []
  | TimingHeuristic _ => [line]
  end.

Definition emitted (r : option CommandRecord) : list str :=
  match r with
  | Some r => output_lines r
  | None => []
  end.

Lemma finalize_conserves utc code d d' r :
  finalize_record utc code d = (d', r) ->
  strategy d' = strategy d /\ emitted r ++ current_output d' = current_output d.
Proof.
  unfold finalize_record. case_goal; intros [= <- <-]; simpl; bool_prop.
  - split; [done|]. by rewrite H.
  - split; [done|]. by rewrite app_nil_r.
Qed.

Lemma feed_line_conserves now utc line d d' r :
  feed_line now utc line d = Ok (d', r) ->
  strategy d' = strategy d /\
  emitted r ++ current_output d' = current_output d ++ output_of (strategy d) line.
Proof.
  unfold feed_line, output_of. destruct (strategy d) eqn:S.
  - unfold feed_line_prompt_marker, is_output_line.
    destruct (parse_completion_marker line) as [code|].
    { intros [= H]. apply finalize_conserves in H as [? ->]. rewrite app_nil_r. split; congruence. }
    destruct (contains OSC_PROMPT_START line).
    { destruct (has_output d); intros [= H].
      - apply finalize_conserves in H as [? ->]. rewrite app_nil_r. split; congruence.
      - subst. by rewrite app_nil_r. }
    destruct (parse_command_marker line) as [[[c|]|]| |]; simpl; try done;
      [| |destruct (contains OSC_COMMAND_START line)]; intros [= <- <-]; simpl;
      by rewrite ?app_nil_r.
  - unfold feed_line_timing.
    destruct (last_line_time d) as [t|]; [destruct (_ && _)|]; try (intros [= <- <-]; done).
    destruct (finalize_record _ _ d) as [d1 r1] eqn:F. intros [= <- <-].
    apply finalize_conserves in F as [F1 F2]. simpl. rewrite app_assoc, F2. split; congruence.
Qed.

Lemma feed_lines_split inputs d d' rs :
  feed_lines inputs d = Ok (d', rs) ->
  strategy d' = strategy d /\
  mjoin (output_lines <$> rs) ++ current_output d' =
  current_output d ++ mjoin (output_of (strategy d) <$> inputs.*2).
Proof.
  revert d d' rs; induction inputs as [|[[now utc] line] inputs IH]; intros d d' rs; simpl.
  - intros [= <- <-]. by rewrite app_nil_r.
  - intros ([d1 r] & H1 & H2)%obind_Ok_inv. apply obind_Ok_inv in H2 as ([d2 rs2] & H2 & [= <- <-]).
    apply feed_line_conserves in H1 as [Hs H1]. apply IH in H2 as [Hs2 H2]. rewrite Hs in H2.
    split; [congruence|].
    rewrite fmap_app, join_app, <- app_assoc, H2, app_assoc, app_assoc, <- H1. f_equal. f_equal.
    by destruct r; simpl; rewrite ?app_nil_r.
Qed.

(** whatever markers and lines are fed, in either strategy, the output of the
    emitted records followed by the pending output is the pending output at the start
    followed by the output lines fed: nothing is lost, duplicated or reordered. *)
Theorem feed_lines_conserve inputs d d' rs :
  feed_lines inputs d = Ok (d', rs) ->
  mjoin (output_lines <$> rs) ++ current_output d' =
  current_output d ++ mjoin (output_of (strategy d) <$> inputs.*2).
Proof. intros H. by apply feed_lines_split in H as [_ H]. Qed.

Lemma feed_lines_conserve_witness :
  exists d' rs, feed_lines [(0, 5, lit "out"); (0, 6, marker_d)]%Z (new (PromptMarker [])) = Ok (d', rs) /\
    mjoin (output_lines <$> rs) ++ current_output d' = [lit "out"].
Proof.
  eexists _, _. split; [vm_compute; reflexivity|].
  exact (feed_lines_conserve [(0, 5, lit "out"); (0, 6, marker_d)]%Z (new (PromptMarker [])) _ _
    ltac:(vm_compute; reflexivity)).
Defined.

(** ** Round trip of a framed command *)

(** The markers the shell hooks print around a command's output. *)
Definition command_marker (cmd : str) : str :=
  OSC_COMMAND_WITH_TEXT_PREFIX ++ hex_encode cmd ++ [BEL].
Definition completion_marker (code : Z) : str :=
  OSC_COMPLETION_PREFIX ++ show_i32 code ++ [BEL].

Lemma decode_pair_hex b :
  decode_pair (digit_char (b2z b / 16)) (digit_char (b2z b mod 16)) = Some b.
Proof. destruct b; vm_compute; reflexivity. Qed.

Lemma decode_pairs_hex_encode s : decode_pairs (hex_encode s) = Some s.
Proof.
  induction s as [|b s IH]; [done|]. rewrite hex_encode_cons. cbn [decode_pairs].
  rewrite decode_pair_hex. simpl. by rewrite IH.
Qed.

Lemma decode_hex_command_encode cmd :
  utf8_valid cmd = true -> trim cmd = cmd -> cmd <> [] ->
  2 * length cmd <= MAX_COMMAND_HEX_LEN ->
  decode_hex_command (hex_encode cmd) = Ok (Some cmd).
Proof.
  intros Hu Ht Hne Hl. unfold decode_hex_command.
  rewrite trim_plain by (eapply Forall_impl; [apply hex_encode_lower | apply lower_hex_plain]).
  assert (hex_encode cmd <> []) as Hh by (destruct cmd; [done | by rewrite hex_encode_cons]).
  rewrite bool_decide_eq_false_2 by done. rewrite length_hex_encode, Nat.odd_mul. cbn [orb andb Nat.odd negb Nat.even].
  rewrite Nat.min_l by done. unfold str_prefix, is_char_boundary.
  rewrite lookup_ge_None_2 by (rewrite length_hex_encode; lia).
  rewrite length_hex_encode, Nat.eqb_refl. simpl unwrap_or_panic. cbn [obind].
  rewrite take_ge by (rewrite length_hex_encode; lia).
  rewrite decode_pairs_hex_encode. simpl. rewrite Hu, Ht. by rewrite bool_decide_eq_false_2.
Qed.

Lemma hex_encode_no b cmd : is_lower_hex b = false -> b ∉ hex_encode cmd.
Proof.
  intros Hb. eapply not_elem_of_Forall; [apply hex_encode_lower|]. simpl. congruence.
Qed.

(** A needle that begins with ESC and differs from the prefix [p] of the line is not
    found when ESC occurs only at the line's start. *)
Lemma find_sub_other_marker needle p s :
  starts_with (ESC :: needle) (ESC :: p ++ s) = false -> ESC ∉ p ++ s ->
  find_sub (ESC :: needle) (ESC :: p ++ s) = None.
Proof. intros H1 H2. cbn [find_sub]. rewrite H1. by rewrite find_sub_absent. Qed.

Lemma command_marker_tail cmd : ESC ∉ lit "]133;C;cmd=" ++ hex_encode cmd ++ [BEL].
Proof.
  rewrite !not_elem_of_app. split; [by_decide|]. split; [by apply hex_encode_no | by_decide].
Qed.

Lemma parse_completion_command_marker cmd : parse_completion_marker (command_marker cmd) = None.
Proof.
  unfold parse_completion_marker.
  replace (find_sub OSC_COMPLETION_PREFIX (command_marker cmd)) with (None : option nat); [done|].
  symmetry. apply (find_sub_other_marker (lit "]133;D;")); [done | apply command_marker_tail].
Qed.

Lemma prompt_start_command_marker cmd : contains OSC_PROMPT_START (command_marker cmd) = false.
Proof.
  unfold contains. apply bool_decide_eq_false_2. apply eq_None_not_Some.
  apply (find_sub_other_marker (lit "]133;A" ++ [BEL])); [done | apply command_marker_tail].
Qed.

Lemma parse_command_marker_encode cmd :
  utf8_valid cmd = true -> trim cmd = cmd -> cmd <> [] ->
  2 * length cmd <= MAX_COMMAND_HEX_LEN ->
  parse_command_marker (command_marker cmd) = Ok (Some (Some cmd)).
Proof.
  intros. unfold parse_command_marker, command_marker. rewrite find_sub_prefix.
  rewrite Nat.add_0_l, drop_app_length, find_byte_app by (by apply hex_encode_no).
  rewrite take_app_length, decode_hex_command_encode; done.
Qed.

Lemma parse_completion_marker_show code :
  (i32_min <= code <= i32_max)%Z -> parse_completion_marker (completion_marker code) = Some code.
Proof.
  intros Hc. unfold parse_completion_marker, completion_marker. rewrite find_sub_prefix. simpl mbind.
  change (drop 0 (show_i32 code ++ [BEL])) with (show_i32 code ++ [BEL]).
  rewrite find_byte_app by (eapply not_elem_of_Forall; [apply show_i32_bytes | by intros [?|?]]).
  simpl mbind. rewrite take_app_length. by apply parse_show_i32.
Qed.

Lemma feed_output_lines inputs d seq :
  strategy d = PromptMarker seq -> Forall (fun i => is_output_line i.2 = true) inputs ->
  feed_lines inputs d =
  Ok ({| strategy := PromptMarker seq; current_output := current_output d ++ inputs.*2;
         current_command := current_command d; last_exit_code := last_exit_code d;
         last_line_time := last_line_time d;
         has_output := match inputs with [] => has_output d | _ => true end |}, []).
Proof.
  revert d. induction inputs as [|[[n u] l] inputs IH]; intros d Hs Hls.
  - simpl. rewrite app_nil_r, <- Hs. by destruct d.
  - invc Hls. simpl in H1. cbn [feed_lines]. unfold feed_line. rewrite Hs.
    unfold feed_line_prompt_marker. unfold is_output_line in H1.
    destruct (parse_completion_marker l); [done|].
    destruct (contains OSC_PROMPT_START l); [done|].
    destruct (parse_command_marker l) as [[|]| |]; try done. cbn [obind].
    destruct (contains OSC_COMMAND_START l); [done|]. cbn [obind].
    rewrite IH by done. cbn. rewrite <- app_assoc. by destruct inputs.
Qed.

Lemma feed_lines_app i1 i2 d :
  feed_lines (i1 ++ i2) d =
  (let? (d1, r1) := feed_lines i1 d in let? (d2, r2) := feed_lines i2 d1 in Ok (d2, r1 ++ r2)).
Proof.
  revert d; induction i1 as [|[[n u] l] i1 IH]; intros d.
  - simpl. by destruct (feed_lines i2 d) as [[]| |].
  - simpl. destruct (feed_line n u l d) as [[d1 r]| |]; [|done|done]. simpl. rewrite IH.
    destruct (feed_lines i1 d1) as [[d2 r2]| |]; [|done|done]. simpl.
    destruct (feed_lines i2 d2) as [[d3 r3]| |]; simpl; by rewrite ?app_assoc.
Qed.

(** C35: a fresh detector that sees the C marker of a command, the command's output
    lines and its D marker emits one record with exactly that command text, exit code and
    output, and is fresh again, where the command is trimmed UTF-8 of at most 4096 bytes, its
    output lines hold no marker, and it left output or an exit code other than 0 (a command
    with neither leaves no record). *)
Theorem framed_command_recorded n u seq cmd ls code :
  utf8_valid cmd = true -> trim cmd = cmd -> cmd <> [] ->
  2 * length cmd <= MAX_COMMAND_HEX_LEN ->
  Forall (fun l => is_output_line l = true) ls -> (i32_min <= code <= i32_max)%Z ->
  ls <> [] \/ code <> 0%Z ->
  feed_lines ((fun l => (n, u, l)) <$> (command_marker cmd :: ls ++ [completion_marker code]))
    (new (PromptMarker seq)) =
  Ok (new (PromptMarker seq),
      [{| id := []; command := Some cmd; exit_code := code; output_lines := ls; timestamp := u;
          capture_mode := Pty; capture_quality := QualityUnknown;
          output_metadata := None; cwd := None; duration_ms := None |}]).
Proof.
  intros Hu Ht Hne Hl Hls Hc Hrec.
  rewrite fmap_cons, fmap_app. cbn [feed_lines]. unfold feed_line. cbn [strategy new].
  unfold feed_line_prompt_marker.
  rewrite parse_completion_command_marker, prompt_start_command_marker.
  rewrite parse_command_marker_encode by done. cbn [obind].
  assert (Hls2 : ((fun l => (n, u, l)) <$> ls).*2 = ls)
    by (rewrite <- list_fmap_compose; apply list_fmap_id).
  rewrite feed_lines_app, (feed_output_lines _ _ seq), Hls2 by (done || by apply Forall_fmap). cbn [obind fmap list_fmap feed_lines].
  unfold feed_line. cbn [strategy]. unfold feed_line_prompt_marker.
  rewrite parse_completion_marker_show by done. unfold finalize_record. cbn.
  destruct (bool_decide (ls = []) && bool_decide (code = 0%Z)) eqn:E; [|done].
  bool_prop. by destruct Hrec.
Qed.

Lemma framed_command_recorded_witness :
  feed_lines ((fun l => (0, 9, l))%Z <$> (command_marker (lit "make all") :: [lit "error: x"] ++ [completion_marker 2]))
    (new (PromptMarker (lit "osc133"))) =
  Ok (new (PromptMarker (lit "osc133")),
      [{| id := []; command := Some (lit "make all"); exit_code := 2; output_lines := [lit "error: x"];
          timestamp := 9; capture_mode := Pty; capture_quality := QualityUnknown;
          output_metadata := None; cwd := None; duration_ms := None |}]).
Proof.
  apply (framed_command_recorded 0 9 (lit "osc133") (lit "make all") [lit "error: x"] 2);
    [vm_compute; reflexivity | vm_compute; reflexivity | done | vm_compute; lia
    | constructor; [vm_compute; reflexivity | constructor] | by_decide | by left].
Defined.

(** A marker text of 8194 bytes whose 8192nd byte is inside a two-byte character. *)
Definition long_hex : str := replicate (Z.to_nat 8191) x61 ++ [xc3; xa9; x61].
Definition panicking_marker : str := OSC_COMMAND_WITH_TEXT_PREFIX ++ long_hex ++ [BEL].

(** a well-formed OSC 133 marker printed by any program can make the detector
    panic: the command text is cut at 8192 bytes without regard to character
    boundaries. The marker reaches the detector, since the extractor returns it. *)
Theorem long_command_marker_panics n u seq :
  extract_osc133_markers panicking_marker = [panicking_marker] /\
  feed_line n u panicking_marker (new (PromptMarker seq)) = Panic.
Proof. split; vm_compute; reflexivity. Qed.
