(* ===== verification/RecordStore.v ===== *)
(** * The daemon's command record store (aic-server/src/command_record_store.rs)

    Per-session bounded rings of finished records, the table of started commands, and
    the broadcast tap. The tap is modelled by the records it is sent, in order. The
    [RwLock] makes every operation atomic; operations on a shared store are therefore
    sequences of the steps below in some order.

    Theorems: a session's ring is always the last 64 records the tap saw for it;
    identifiers stay unique; start and finish events match; sessions do not interfere;
    a record replayed with the same identifier is stored once. *)

From S2P Require Import Prelude RustStr Records RingBuffer.
Local Open Scope nat_scope.

Definition PER_SESSION_CAPACITY : nat := 64.

Record PendingStart := {
  p_command : str;
  p_cwd : option str;
  started_at : Z;
}.

Record Inner := {
  finished : gmap str (list CommandRecord);
  pending : gmap (str * str) PendingStart;
}.

Definition empty_store : Inner := {| finished := ∅; pending := ∅ |}.

(** The new ring and what is sent to the tap. *)
Definition push_inner (rng : Z) (ring : list CommandRecord) (record : CommandRecord)
    : list CommandRecord * list CommandRecord :=
  let insert r :=
    ((if length ring =? PER_SESSION_CAPACITY then tail ring else ring) ++ [r], [r]) in
  if bool_decide (record.(id) = []) then insert (with_id record (generate_record_id rng))
  else if existsb (fun e => bool_decide (e.(id) = record.(id))) ring then (ring, [])
  else insert record.

(** [entry(session_id).or_insert_with(..)] then [push_inner]. *)
Definition push_session (rng : Z) (sid : str) (record : CommandRecord) (g : Inner)
    : Inner * list CommandRecord :=
  let ring := default [] (g.(finished) !! sid) in
  let '(ring', sent) := push_inner rng ring record in
  ({| finished := <[sid := ring']> g.(finished); pending := g.(pending) |}, sent).

Definition on_started (sid cid command : str) (cwd : option str) (at_ : Z) (g : Inner) : Inner :=
  {| finished := g.(finished);
     pending := <[(sid, cid) := {| p_command := command; p_cwd := cwd; started_at := at_ |}]>
                  g.(pending) |}.

(** The record of a finish event; [p] is the matching start, removed from the table. *)
Definition finished_record (p : option PendingStart) (code finished_at duration : Z)
    : CommandRecord := {|
  id := [];
  command := p_command <$> p;
  exit_code := code;
  output_lines := [];
  timestamp := finished_at;
  capture_mode := Hook;
  capture_quality := MetadataOnly;
  output_metadata := None;
  cwd := from_utf8_lossy <$> (p ≫= p_cwd);
  duration_ms := if (0 <? duration)%Z then Some duration else None;
|}.

Definition on_finished (rng : Z) (sid cid : str) (code finished_at duration : Z) (g : Inner)
    : Inner * list CommandRecord :=
  let p := g.(pending) !! (sid, cid) in
  let g := {| finished := g.(finished); pending := delete (sid, cid) g.(pending) |} in
  push_session rng sid (finished_record p code finished_at duration) g.

(** [debug_assert!] on the capture mode is a no-op in release builds. *)
Definition push_pty := push_session.
Definition push_explicit := push_session.

Definition last_of (sid : str) (g : Inner) : option CommandRecord :=
  g.(finished) !! sid ≫= last.

Definition len (sid : str) (g : Inner) : nat := length (default [] (g.(finished) !! sid)).

(** [iter().rev().take(count).rev()]; [count] is a [usize], up to [usize::MAX]. *)
Definition recent (sid : str) (count : Z) (g : Inner) : list CommandRecord :=
  if (count =? 0)%Z then []
  else match g.(finished) !! sid with
       | Some ring => reverse (take (Z.to_nat (Z.min count (Z.of_nat (length ring)))) (reverse ring))
       | None => []
       end.

Definition find_by_prefix (sid prefix : str) (g : Inner) : list CommandRecord :=
  if bool_decide (prefix = []) then []
  else match g.(finished) !! sid with
       | Some ring => List.filter (fun r => starts_with prefix r.(id)) ring
       | None => []
       end.

(** ** Operations as one step function *)

Inductive op :=
| Started (sid cid command : str) (cwd : option str) (at_ : Z)
| Finished (rng : Z) (sid cid : str) (code finished_at duration : Z)
| Push (rng : Z) (sid : str) (record : CommandRecord).

Definition op_session (o : op) : str :=
  match o with
  | Started sid _ _ _ _ | Finished _ sid _ _ _ _ | Push _ sid _ => sid
  end.

Definition step (o : op) (g : Inner) : Inner * list CommandRecord :=
  match o with
  | Started sid cid command cwd at_ => (on_started sid cid command cwd at_ g, [])
  | Finished rng sid cid code fin dur => on_finished rng sid cid code fin dur g
  | Push rng sid record => push_session rng sid record g
  end.

(** A run and the tap's stream, each record with the session of its operation. *)
Fixpoint run (ops : list op) (g : Inner) : Inner * list (str * CommandRecord) :=
  match ops with
  | [] => (g, [])
  | o :: rest =>
      let '(g1, sent) := step o g in
      let '(g2, more) := run rest g1 in
      (g2, ((fun r => (op_session o, r)) <$> sent) ++ more)
  end.

Definition sent_for (sid : str) (tap : list (str * CommandRecord)) : list CommandRecord :=
  snd <$> filter (fun e => e.1 = sid) tap.

(** ** Lemmas *)

Lemma lastn_snoc_full {A} n (l : list A) x :
  length l = n -> n <> 0 -> lastn n (l ++ [x]) = tail l ++ [x].
Proof.
  intros Hl Hn. rewrite lastn_app_ge by (simpl; lia). f_equal.
  destruct l as [|y l]; simpl in *; [lia|]. unfold lastn. simpl.
  replace (S (length l) - (n - 1)) with 1 by lia. done.
Qed.

Lemma push_inner_ring rng ring r ring' sent :
  length ring <= PER_SESSION_CAPACITY -> push_inner rng ring r = (ring', sent) ->
  ring' = lastn PER_SESSION_CAPACITY (ring ++ sent).
Proof.
  intros Hl. unfold push_inner.
  assert (Hins : forall r0, (if length ring =? PER_SESSION_CAPACITY then tail ring else ring) ++ [r0]
    = lastn PER_SESSION_CAPACITY (ring ++ [r0])).
  { intros r0. destruct (length ring =? PER_SESSION_CAPACITY) eqn:E; bool_prop.
    - by rewrite lastn_snoc_full.
    - rewrite lastn_all; [done|]. rewrite length_app. simpl. lia. }
  case_bool_decide; [|destruct (existsb _ _)]; intros [= <- <-]; try apply Hins.
  rewrite app_nil_r. by rewrite lastn_all.
Qed.

Lemma lastn_lastn_app {A} n (l1 l2 : list A) : lastn n (lastn n l1 ++ l2) = lastn n (l1 ++ l2).
Proof.
  destruct (decide (length l2 <= n)) as [H|H].
  - rewrite !lastn_app_ge by done. f_equal. unfold lastn. rewrite drop_drop, length_drop. f_equal. lia.
  - by rewrite !lastn_app_lt by lia.
Qed.

(** What a step does to the ring of its session and to the others. *)
Lemma step_rings o g g' sent :
  step o g = (g', sent) ->
  (forall sid, length (default [] (finished g !! sid)) <= PER_SESSION_CAPACITY) ->
  forall sid, default [] (finished g' !! sid) =
    if decide (sid = op_session o)
    then lastn PER_SESSION_CAPACITY (default [] (finished g !! sid) ++ sent)
    else default [] (finished g !! sid).
Proof.
  intros Hs Hl sid.
  assert (Hpush : forall rng s r g0, push_session rng s r g0 = (g', sent) ->
    finished g0 = finished g -> s = op_session o ->
    default [] (finished g' !! sid) = if decide (sid = op_session o)
      then lastn PER_SESSION_CAPACITY (default [] (finished g !! sid) ++ sent)
      else default [] (finished g !! sid)).
  { intros rng s r g0. unfold push_session. destruct (push_inner _ _ _) as [ring' sent'] eqn:P.
    intros [= <- <-] Hg ->. rewrite Hg in *. apply push_inner_ring in P; [|apply Hl]. simpl.
    case_decide as E; [subst sid; by rewrite lookup_insert_eq, P|].
    by rewrite lookup_insert_ne. }
  destruct o; simpl in Hs.
  - clear Hpush. injection Hs as <- <-. cbn [finished on_started].
    destruct (decide _); [|reflexivity]. rewrite app_nil_r. symmetry. apply lastn_all, Hl.
  - eapply Hpush; [exact Hs | done | done].
  - eapply Hpush; [exact Hs | done | done].
Qed.

Lemma sent_for_same sid sent : sent_for sid ((fun r => (sid, r)) <$> sent) = sent.
Proof.
  unfold sent_for. induction sent as [|r sent IH]; [done|].
  rewrite fmap_cons, filter_cons_True by done. rewrite fmap_cons. by f_equal.
Qed.

Lemma sent_for_other sid s sent : sid <> s -> sent_for sid ((fun r => (s, r)) <$> sent) = [].
Proof.
  intros Hne. unfold sent_for. induction sent as [|r sent IH]; [done|].
  rewrite fmap_cons, filter_cons_False by (simpl; congruence). done.
Qed.

Lemma sent_for_cons sid s sent tap :
  sent_for sid (((fun r => (s, r)) <$> sent) ++ tap) =
  (if decide (sid = s) then sent else []) ++ sent_for sid tap.
Proof.
  unfold sent_for at 1. rewrite filter_app, fmap_app. f_equal.
  destruct (decide (sid = s)) as [->|Hne]; [apply sent_for_same | by apply sent_for_other].
Qed.

Lemma run_rings ops g g' tap :
  run ops g = (g', tap) ->
  (forall sid, length (default [] (finished g !! sid)) <= PER_SESSION_CAPACITY) ->
  forall sid, default [] (finished g' !! sid) =
    lastn PER_SESSION_CAPACITY (default [] (finished g !! sid) ++ sent_for sid tap).
Proof.
  revert g g' tap; induction ops as [|o ops IH]; intros g g' tap; simpl.
  - intros [= <- <-] Hl sid. unfold sent_for. simpl. rewrite app_nil_r. by rewrite lastn_all.
  - destruct (step o g) as [g1 sent] eqn:S. destruct (run ops g1) as [g2 more] eqn:R.
    intros [= <- <-] Hl sid.
    pose proof (step_rings o g g1 sent S Hl) as H1.
    rewrite (IH g1 g2 more R).
    + rewrite H1, sent_for_cons. case_decide; [|done]. by rewrite lastn_lastn_app, <- app_assoc.
    + intros s. rewrite H1. case_decide; [rewrite length_lastn; lia | apply Hl].
Qed.

(** ** Properties *)

(** after any sequence of start, finish and push operations, the ring of a session
    is exactly the last 64 records that the tap was sent for that session: every record
    stored was announced, every record announced was stored, in the same order, and no
    operation on one session touches another. *)
Theorem ring_is_tail_of_tap ops g tap sid :
  run ops empty_store = (g, tap) ->
  default [] (finished g !! sid) = lastn PER_SESSION_CAPACITY (sent_for sid tap).
Proof.
  intros R. rewrite (run_rings ops empty_store g tap R).
  - simpl. by rewrite lookup_empty.
  - intros s. simpl. rewrite lookup_empty. simpl. lia.
Qed.

Lemma push_session_twice rng1 rng2 sid r g :
  r.(id) <> [] ->
  push_session rng2 sid r (push_session rng1 sid r g).1 = ((push_session rng1 sid r g).1, []).
Proof.
  intros Hid. unfold push_session. destruct (push_inner rng1 _ r) as [ring' sent] eqn:P. simpl.
  rewrite lookup_insert_eq. simpl.
  assert (Hin : existsb (fun e => bool_decide (id e = id r)) ring' = true).
  { unfold push_inner in P. rewrite bool_decide_eq_false_2 in P by done.
    destruct (existsb _ _) eqn:E; injection P as <- <-; [done|].
    rewrite existsb_app. simpl. rewrite bool_decide_eq_true_2 by done. by rewrite orb_true_r. }
  unfold push_inner. rewrite bool_decide_eq_false_2, Hin by done. by rewrite insert_insert_eq.
Qed.

(** a record that reaches the store on two paths with the same non-empty
    identifier (local replay and central detection during a hand-over) is stored once and
    announced once, whichever path comes first and whatever the two carry. *)
Theorem replay_stored_once rng1 rng2 sid r1 r2 g :
  r1.(id) = r2.(id) -> r1.(id) <> [] ->
  let '(g1, sent1) := push_session rng1 sid r1 g in
  push_session rng2 sid r2 g1 = (g1, []) /\ length sent1 <= 1.
Proof.
  intros Heq Hne. destruct (push_session rng1 sid r1 g) as [g1 sent1] eqn:P. split.
  - pose proof (push_session_twice rng1 rng2 sid r1 g Hne) as H. rewrite P in H. simpl in H.
    unfold push_session, push_inner in *. rewrite <- Heq.
    rewrite (bool_decide_eq_false_2 (id r1 = [])) in * by done. clear P.
    destruct (existsb _ (default [] (finished g1 !! sid))); [done | by injection H].
  - unfold push_session in P. destruct (push_inner rng1 _ r1) as [ring' s] eqn:Q.
    injection P as <- <-. unfold push_inner in Q.
    case_bool_decide; [|destruct (existsb _ _)]; injection Q as <- <-; simpl; lia.
Qed.

(** ** Start and finish events *)

(** The pending entry an operation touches. *)
Definition op_key (o : op) : option (str * str) :=
  match o with
  | Started sid cid _ _ _ | Finished _ sid cid _ _ _ => Some (sid, cid)
  | Push _ _ _ => None
  end.

Lemma push_session_pending rng sid r g : pending (push_session rng sid r g).1 = pending g.
Proof. unfold push_session. by destruct (push_inner _ _ _). Qed.

Lemma on_finished_pending rng sid cid code fin dur g :
  pending (on_finished rng sid cid code fin dur g).1 = delete (sid, cid) (pending g).
Proof. unfold on_finished, push_session. by destruct (push_inner _ _ _). Qed.

Lemma step_pending o g k : op_key o <> Some k -> pending (step o g).1 !! k = pending g !! k.
Proof.
  destruct o as [sid cid ? ? ?|? sid cid ? ? ?|]; cbn [step op_key]; intros Hk.
  - simpl. rewrite lookup_insert_ne; [done | congruence].
  - rewrite on_finished_pending, lookup_delete_ne; [done | congruence].
  - by rewrite push_session_pending.
Qed.

Lemma run_pending ops g k :
  Forall (fun o => op_key o <> Some k) ops -> pending (run ops g).1 !! k = pending g !! k.
Proof.
  intros H. revert g. induction H as [|o ops Ho _ IH]; intros g; [done|]. simpl.
  pose proof (step_pending o g k Ho) as Hs. destruct (step o g) as [g1 sent].
  specialize (IH g1). destruct (run ops g1) as [g2 more]. simpl in *. congruence.
Qed.

(** a finish event carries the command and directory of the start event with the
    same session and command id, whatever happened to other commands in between; it is
    announced with a fresh identifier and the start is forgotten. *)
Theorem finish_matches_start rng sid cid cmd dir at_ ops g code fin dur :
  Forall (fun o => op_key o <> Some (sid, cid)) ops ->
  let g1 := (run ops (on_started sid cid cmd dir at_ g)).1 in
  let '(g2, sent) := on_finished rng sid cid code fin dur g1 in
  sent = [with_id (finished_record
            (Some {| p_command := cmd; p_cwd := dir; started_at := at_ |}) code fin dur)
            (generate_record_id rng)] /\
  pending g2 !! (sid, cid) = None.
Proof.
  intros H. cbn zeta. pose proof (run_pending ops (on_started sid cid cmd dir at_ g) _ H) as Hp.
  simpl in Hp. rewrite lookup_insert_eq in Hp. unfold on_finished. rewrite Hp.
  unfold push_session. destruct (push_inner _ _ _) as [ring' sent] eqn:P. split.
  - unfold push_inner in P. simpl in P. by injection P as _ <-.
  - simpl. apply lookup_delete_eq.
Qed.

(** Started commands [0 .. n-1] of one session. *)
Definition starts (n : nat) : list op :=
  (fun k => Started [] (replicate k x61) [] None 0%Z) <$> seq 0 n.

Lemma starts_S n : starts (S n) = starts n ++ [Started [] (replicate n x61) [] None 0%Z].
Proof. unfold starts. by rewrite seq_S, fmap_app. Qed.

Lemma run_app ops1 ops2 g : (run (ops1 ++ ops2) g).1 = (run ops2 (run ops1 g).1).1.
Proof.
  revert g; induction ops1 as [|o ops1 IH]; intros g; [done|]. simpl.
  destruct (step o g) as [g1 s1]. specialize (IH g1).
  destruct (run (ops1 ++ ops2) g1), (run ops1 g1). simpl in *. congruence.
Qed.

(** a started command that never finishes stays in the table for good: nothing
    bounds the number of pending entries, and there is no operation that abandons them. *)
Theorem pending_never_abandoned n : size (pending (run (starts n) empty_store).1) = n.
Proof.
  assert (H : size (pending (run (starts n) empty_store).1) = n /\
    forall k, n <= k -> pending (run (starts n) empty_store).1 !! ([], replicate k x61) = None);
    [|apply H].
  induction n as [|n [IH1 IH2]].
  - split; [done|]. intros k _. simpl. apply lookup_empty.
  - rewrite starts_S, run_app. simpl. split.
    + rewrite map_size_insert_None by (apply IH2; lia). by rewrite IH1.
    + intros k Hk. rewrite lookup_insert_ne; [apply IH2; lia|].
      intros [= H]. apply (f_equal length) in H. rewrite !length_replicate in H. lia.
Qed.

(** ** Unique identifiers *)

(** identifiers in a ring stay distinct, as long as a drawn identifier does not
    collide with one already in the ring. *)
Theorem push_inner_unique_ids rng ring r :
  NoDup (id <$> ring) -> (id r = [] -> generate_record_id rng ∉ (id <$> ring)) ->
  NoDup (id <$> (push_inner rng ring r).1).
Proof.
  intros Hnd Hfresh. unfold push_inner.
  assert (Hins : forall r0, id r0 ∉ (id <$> ring) ->
    NoDup (id <$> (if length ring =? PER_SESSION_CAPACITY then tail ring else ring) ++ [r0])).
  { intros r0 Hr0. rewrite fmap_app. apply NoDup_app.
    assert (Hsub : (id <$> (if length ring =? PER_SESSION_CAPACITY then tail ring else ring)) ⊆ (id <$> ring)).
    { destruct (_ =? _); [|done]. destruct ring; [done|]. simpl. set_solver. }
    split; [|split].
    - destruct (_ =? _); [|done]. destruct ring; [constructor|]. simpl in *. by apply NoDup_cons in Hnd as [_ ?].
    - intros x Hx%Hsub. simpl. rewrite list_elem_of_singleton. by intros ->.
    - apply NoDup_singleton. }
  case_bool_decide as E; [apply Hins; by apply Hfresh|].
  destruct (existsb _ ring) eqn:X; [done|]. apply Hins.
  rewrite list_elem_of_fmap. intros (e & He & Hin). apply not_true_iff_false in X. apply X.
  apply existsb_exists. exists e. split; [by apply list_elem_of_In|]. by apply bool_decide_eq_true_2.
Qed.

(** ** Reading lines, and the interface of line sources *)

(** [control_server::tail_flatten_output_lines]: the same loop as the ring buffer's. *)
Definition tail_flatten_output_lines (rs : list CommandRecord) (count : nat) : list str :=
  if count =? 0 then [] else reverse (collect_lines count [] (reverse rs)).

(** Handler of [GetRecentLinesForSession]; [usize::MAX] records are requested. *)
Definition recent_lines_for_session (sid : str) (count : nat) (g : Inner) : list str :=
  tail_flatten_output_lines (recent sid u64_max g) count.

(** What the client relies on when it asks for recent output: the answer is the tail of
    the flattened output of the records the source holds. *)
Class LineSource (S : Type) := {
  source_records : S -> list CommandRecord;
  source_lines : nat -> S -> list str;
  source_lines_ok : forall n s,
    source_lines n s = lastn n (mjoin (output_lines <$> source_records s));
}.

Lemma tail_flatten_correct rs n :
  tail_flatten_output_lines rs n = lastn n (mjoin (output_lines <$> rs)).
Proof.
  unfold tail_flatten_output_lines. destruct (n =? 0) eqn:E; bool_prop.
  - subst. by rewrite lastn_0.
  - rewrite collect_lines_spec by lia. simpl. apply reverse_involutive.
Qed.

Lemma recent_lastn sid count g :
  (0 <= count)%Z -> recent sid count g =
  lastn (Z.to_nat (Z.min count (Z.of_nat (length (default [] (finished g !! sid))))))
    (default [] (finished g !! sid)).
Proof.
  intros Hc. unfold recent. destruct (count =? 0)%Z eqn:E; bool_prop.
  - subst. rewrite Z.min_l by lia. by rewrite lastn_0.
  - destruct (finished g !! sid) as [ring|]; simpl; [by rewrite lastn_rev_take|].
    by rewrite lastn_all by (simpl; lia).
Qed.

Lemma recent_all sid g :
  (Z.of_nat (length (default [] (finished g !! sid))) <= u64_max)%Z ->
  recent sid u64_max g = default [] (finished g !! sid).
Proof. intros H. rewrite recent_lastn by (unfold u64_max; lia). apply lastn_all. lia. Qed.

#[export] Program Instance ring_buffer_lines : LineSource RingBuffer := {|
  source_records := records;
  source_lines := RingBuffer.recent_lines;
|}.
Next Obligation. apply recent_lines_lastn. Qed.

(** A session of the store. The ring is bounded by 64, so [usize::MAX] asks for all of it. *)
Record StoreSession := {
  ss_store : Inner;
  ss_id : str;
  ss_bounded : length (default [] (finished ss_store !! ss_id)) <= PER_SESSION_CAPACITY;
}.

#[export] Program Instance store_session_lines : LineSource StoreSession := {|
  source_records s := default [] (finished (ss_store s) !! ss_id s);
  source_lines n s := recent_lines_for_session (ss_id s) n (ss_store s);
|}.
Next Obligation.
  intros n s. unfold recent_lines_for_session. rewrite tail_flatten_correct, recent_all; [done|].
  pose proof (ss_bounded s). unfold PER_SESSION_CAPACITY, u64_max in *. lia.
Qed.

(** Two sources with the same records give the same answer: a client may switch its read
    path between the session's ring buffer and the daemon. *)
Lemma line_sources_agree {A B} `{LineSource A, LineSource B} (a : A) (b : B) n :
  source_records a = source_records b -> source_lines n a = source_lines n b.
Proof. intros Hr. by rewrite !source_lines_ok, Hr. Qed.

Definition store_session (ops : list op) (sid : str) : StoreSession.
Proof.
  refine {| ss_store := (run ops empty_store).1; ss_id := sid |}.
  destruct (run ops empty_store) as [g tap] eqn:R. simpl.
  rewrite (run_rings ops empty_store g tap R).
  - rewrite length_lastn. lia.
  - intros s. simpl. rewrite lookup_empty. simpl. lia.
Defined.

(** the daemon answers a recent-lines request exactly as the session's own ring
    buffer would, whenever the two hold the same records. *)
Theorem read_paths_agree ops sid rb n :
  records rb = default [] (finished (run ops empty_store).1 !! sid) ->
  recent_lines_for_session sid n (run ops empty_store).1 = RingBuffer.recent_lines n rb.
Proof.
  intros H. symmetry. exact (line_sources_agree rb (store_session ops sid) n H).
Qed.

(** ** Witnesses *)

Definition sample_record (i : str) (ls : list str) : CommandRecord :=
  {| id := i; command := None; exit_code := 1; output_lines := ls; timestamp := 0;
     capture_mode := Pty; capture_quality := FullOutput; output_metadata := None;
     cwd := None; duration_ms := None |}.

Definition sample_ops : list op :=
  [Started (lit "s1") (lit "c1") (lit "ls") None 1;
   Push 5 (lit "s2") (sample_record (lit "ab") [lit "x"; lit "y"]);
   Push 6 (lit "s2") (sample_record (lit "ab") [lit "z"]);
   Finished 7 (lit "s1") (lit "c1") 2 3 4].

Lemma ring_is_tail_of_tap_witness :
  default [] (finished (run sample_ops empty_store).1 !! lit "s2") =
  lastn PER_SESSION_CAPACITY (sent_for (lit "s2") (run sample_ops empty_store).2).
Proof.
  exact (ring_is_tail_of_tap sample_ops _ (run sample_ops empty_store).2 (lit "s2")
    ltac:(apply surjective_pairing)).
Defined.

Lemma replay_stored_once_witness :
  let '(g1, sent1) := push_session 1 (lit "s") (sample_record (lit "ab") []) empty_store in
  push_session 2 (lit "s") (sample_record (lit "ab") [lit "x"]) g1 = (g1, []) /\ length sent1 <= 1.
Proof. apply (replay_stored_once 1 2 (lit "s")); [done | by_decide]. Defined.

Lemma finish_matches_start_witness :
  (on_finished 7 (lit "s1") (lit "c1") 2 3 4
     (run [Push 5 (lit "s2") (sample_record (lit "ab") [])]
        (on_started (lit "s1") (lit "c1") (lit "ls") None 1 empty_store)).1).2 =
  [with_id (finished_record (Some {| p_command := lit "ls"; p_cwd := None; started_at := 1 |}) 2 3 4)
     (generate_record_id 7)].
Proof.
  pose proof (finish_matches_start 7 (lit "s1") (lit "c1") (lit "ls") None 1
    [Push 5 (lit "s2") (sample_record (lit "ab") [])] empty_store 2 3 4
    ltac:(constructor; [done | constructor])) as H.
  cbn zeta in H. destruct (on_finished _ _ _ _ _ _ _) as [g2 sent]. exact (proj1 H).
Defined.

Lemma push_inner_unique_ids_witness :
  NoDup (id <$> (push_inner 3 [sample_record (lit "ab") []] (sample_record (lit "cd") [])).1).
Proof.
  apply (push_inner_unique_ids 3 [sample_record (lit "ab") []] (sample_record (lit "cd") [])).
  - by_decide.
  - intros H. discriminate H.
Defined.

Lemma read_paths_agree_witness :
  recent_lines_for_session (lit "s2") 1 (run sample_ops empty_store).1 =
  RingBuffer.recent_lines 1
    {| records := [sample_record (lit "ab") [lit "x"; lit "y"]]; max_lines := 9; current_line_count := 2 |}.
Proof. apply (read_paths_agree sample_ops). vm_compute. reflexivity. Defined.
