(* ===== verification/ByteChannel.v ===== *)
(** * The byte-quota channel between the PTY reader and the attach writer

    [aic-common/src/bounded_byte_channel.rs] and [AttachClient::try_send] of
    [aic-server/src/attach_client.rs]. The operations are given twice: as functions
    executed without interference, and as a system in which every atomic access of
    several producers and of the consumer is one step, so that interleavings are
    explicit. [usize] and [u64] counters wrap at 64 bits ([fetch_add], [fetch_sub]). *)

From S2P Require Import Prelude RustStr.

Inductive SendOutcome := Sent | Dropped.

#[export] Instance SendOutcome_eq_dec : EqDecision SendOutcome.
Proof. solve_decision. Defined.

(** What producers and consumer share: the two atomics and the unbounded transport,
    which is open as long as the receiver lives. *)
Record Channel := {
  cap_bytes : Z;
  queued_bytes : Z;
  dropped : Z;
  queue : list str;
  rx_open : bool;
}.

Definition usize_max : Z := u64_max.

Definition new_with_dropped_counter (cap dropped0 : Z) : Channel :=
  {| cap_bytes := cap; queued_bytes := 0; dropped := dropped0; queue := []; rx_open := true |}.
Definition new (cap : Z) : Channel := new_with_dropped_counter cap 0.

Definition blen (b : str) : Z := Z.of_nat (length b).

(** ** Atomic accesses *)

Definition add_queued (d : Z) (c : Channel) : Channel :=
  {| cap_bytes := cap_bytes c; queued_bytes := wrap64 (queued_bytes c + d); dropped := dropped c;
     queue := queue c; rx_open := rx_open c |}.
Definition add_dropped (d : Z) (c : Channel) : Channel :=
  {| cap_bytes := cap_bytes c; queued_bytes := queued_bytes c; dropped := wrap64 (dropped c + d);
     queue := queue c; rx_open := rx_open c |}.
Definition set_queue (q : list str) (c : Channel) : Channel :=
  {| cap_bytes := cap_bytes c; queued_bytes := queued_bytes c; dropped := dropped c;
     queue := q; rx_open := rx_open c |}.

(** ** Operations without interference *)

(** [try_send]; the unchecked sum of the cap test panics when it overflows. *)
Definition try_send (b : str) (c : Channel) : outcome (SendOutcome * Channel) Empty_set :=
  if usize_max <? queued_bytes c + blen b then Panic
  else if cap_bytes c <? queued_bytes c + blen b then Ok (Dropped, add_dropped (blen b) c)
  else
    let c1 := add_queued (blen b) c in
    if rx_open c1 then Ok (Sent, set_queue (queue c1 ++ [b]) c1)
    else Ok (Dropped, add_dropped (blen b) (add_queued (- blen b) c1)).

(** [try_recv] ([recv] is the same once a chunk is there); [None] is an empty queue. *)
Definition try_recv (c : Channel) : option (str * Channel) :=
  match queue c with
  | [] => None
  | b :: q => Some (b, add_queued (- blen b) (set_queue q c))
  end.

Definition on_consumed (len : Z) (c : Channel) : Channel := add_queued (- len) c.
Definition is_closed (c : Channel) : bool := negb (rx_open c).

(** Dropping the receiver discards what is queued and does not touch the counters. *)
Definition close_rx (c : Channel) : Channel :=
  {| cap_bytes := cap_bytes c; queued_bytes := queued_bytes c; dropped := dropped c;
     queue := []; rx_open := false |}.

(** ** Interleaved execution *)

(** Where a producer is inside [try_send]: before it, about to reserve, about to push,
    about to undo the reservation, about to count the drop; or stopped by the overflow
    check of the cap test. *)
Inductive pc :=
| Idle
| Reserving (b : str)
| Sending (b : str)
| RollingBack (b : str)
| CountingDrop (b : str)
| Crashed.

(** The channel, the producers (one per clone), the chunk the consumer has taken and not
    yet subtracted, and the histories: chunks pushed, received, dropped by [try_send],
    and discarded with the receiver. *)
Record sys := {
  chan : Channel;
  prods : list pc;
  taken : list str;
  pushed : list str;
  received : list str;
  lost : list str;
  stranded : list str;
}.

Inductive label :=
| LCall (i : nat) (b : str)
| LProd (i : nat)
| LTake
| LSub
| LClose.

Definition set_pc (s : sys) (c : Channel) (i : nat) (p : pc) : sys :=
  {| chan := c; prods := <[i := p]> (prods s); taken := taken s; pushed := pushed s;
     received := received s; lost := lost s; stranded := stranded s |}.

Definition exec (l : label) (s : sys) : option sys :=
  let c := chan s in
  match l with
  | LCall i b =>
      match prods s !! i with
      | Some Idle =>
          Some (set_pc s c i
            (if usize_max <? queued_bytes c + blen b then Crashed
             else if cap_bytes c <? queued_bytes c + blen b then CountingDrop b
             else Reserving b))
      | _ => None
      end
  | LProd i =>
      match prods s !! i with
      | Some (Reserving b) => Some (set_pc s (add_queued (blen b) c) i (Sending b))
      | Some (Sending b) =>
          if rx_open c then
            Some {| chan := set_queue (queue c ++ [b]) c; prods := <[i := Idle]> (prods s);
                    taken := taken s; pushed := pushed s ++ [b]; received := received s;
                    lost := lost s; stranded := stranded s |}
          else Some (set_pc s c i (RollingBack b))
      | Some (RollingBack b) => Some (set_pc s (add_queued (- blen b) c) i (CountingDrop b))
      | Some (CountingDrop b) =>
          Some {| chan := add_dropped (blen b) c; prods := <[i := Idle]> (prods s);
                  taken := taken s; pushed := pushed s; received := received s;
                  lost := lost s ++ [b]; stranded := stranded s |}
      | _ => None
      end
  | LTake =>
      match taken s, queue c with
      | [], b :: q =>
          Some {| chan := set_queue q c; prods := prods s; taken := [b]; pushed := pushed s;
                  received := received s; lost := lost s; stranded := stranded s |}
      | _, _ => None
      end
  | LSub =>
      match taken s with
      | b :: t =>
          Some {| chan := add_queued (- blen b) c; prods := prods s; taken := t; pushed := pushed s;
                  received := received s ++ [b]; lost := lost s; stranded := stranded s |}
      | [] => None
      end
  | LClose =>
      match taken s, rx_open c with
      | [], true =>
          Some {| chan := close_rx c; prods := prods s; taken := []; pushed := pushed s;
                  received := received s; lost := lost s; stranded := stranded s ++ queue c |}
      | _, _ => None
      end
  end.

Definition start (n : nat) (cap : Z) : sys :=
  {| chan := new cap; prods := replicate n Idle; taken := []; pushed := []; received := [];
     lost := []; stranded := [] |}.

(** A Rust allocation has at most [isize::MAX] bytes. *)
Definition isize_max : Z := 2 ^ 63 - 1.
Definition label_ok (l : label) : bool :=
  match l with
  | LCall _ b => blen b <=? isize_max
  | _ => true
  end.

Definition chan_step (s s' : sys) : Prop := exists l, label_ok l = true /\ exec l s = Some s'.
Definition reachable (n : nat) (cap : Z) (s : sys) : Prop := rtc chan_step (start n cap) s.

Fixpoint run (ls : list label) (s : sys) : option sys :=
  match ls with
  | [] => Some s
  | l :: ls' => if label_ok l then s' ← exec l s; run ls' s' else None
  end.

Lemma run_steps ls s s' : run ls s = Some s' -> rtc chan_step s s'.
Proof.
  revert s; induction ls as [|l ls IH]; intros s; simpl; [by intros [= ->]|].
  destruct (label_ok l) eqn:L; [|done]. destruct (exec l s) as [s1|] eqn:E; [|done]. intros H. eapply rtc_l; [by exists l | by apply IH].
Qed.

(** ** The accounting invariant *)

Definition bytes (l : list str) : nat := sum_by length l.

(** Bytes a producer has added to the counter and not yet pushed or given back. *)
Definition inflight (p : pc) : nat :=
  match p with
  | Sending b | RollingBack b => length b
  | _ => 0%nat
  end.

(** Bytes a producer has been admitted with and not yet added. *)
Definition reserve (p : pc) : nat :=
  match p with
  | Reserving b => length b
  | _ => 0%nat
  end.

(** What the counter stands for. *)
Definition load (s : sys) : nat :=
  bytes (queue (chan s)) + sum_by inflight (prods s) + bytes (taken s) + bytes (stranded s).

Record accounted (s : sys) : Prop := {
  acc_queued : queued_bytes (chan s) = wrap64 (Z.of_nat (load s));
  acc_dropped : dropped (chan s) = wrap64 (Z.of_nat (bytes (lost s)));
  acc_order : received s ++ taken s ++ stranded s ++ queue (chan s) = pushed s;
  acc_open : rx_open (chan s) = true -> stranded s = [];
  acc_closed : rx_open (chan s) = false -> queue (chan s) = [];
}.

Lemma bytes_app l1 l2 : bytes (l1 ++ l2) = (bytes l1 + bytes l2)%nat.
Proof. apply sum_by_app. Qed.

Lemma bytes_cons b l : bytes (b :: l) = (length b + bytes l)%nat.
Proof. done. Qed.

#[export] Hint Rewrite bytes_app bytes_cons : lens.

(** Replace one producer in a sum over the producers. *)
Lemma sum_by_insert {A} (f : A -> nat) l i x y :
  l !! i = Some x -> (sum_by f (<[i := y]> l) + f x = sum_by f l + f y)%nat.
Proof.
  intros H. rewrite insert_take_drop by (by eapply lookup_lt_Some).
  rewrite <- (take_drop_middle l i x H) at 3.
  rewrite !sum_by_app. unfold sum_by. simpl. lia.
Qed.

(** Unfold the counters of both states and let [lia] compare the loads. *)
Ltac counters :=
  repeat match goal with
  | H : prods ?s !! ?i = Some ?x |- context [<[?i := ?y]> (prods ?s)] =>
      lazymatch goal with
      | _ : (sum_by inflight (<[i := y]> (prods s)) + _ = _)%nat |- _ => fail
      | _ => pose proof (sum_by_insert inflight (prods s) i x y H);
             pose proof (sum_by_insert reserve (prods s) i x y H)
      end
  end;
  unfold load, blen in *; simpl in *;
  repeat match goal with
  | H : taken ?s = _ |- context [taken ?s] => rewrite H
  | H : queue (chan ?s) = _ |- context [queue (chan ?s)] => rewrite H
  | H : taken ?s = _, H' : context [taken ?s] |- _ => rewrite H in H'
  | H : queue (chan ?s) = _, H' : context [queue (chan ?s)] |- _ => rewrite H in H'
  end;
  autorewrite with lens in *; simpl in *.

Lemma exec_queued l s s' :
  exec l s = Some s' -> queued_bytes (chan s) = wrap64 (Z.of_nat (load s)) ->
  queued_bytes (chan s') = wrap64 (Z.of_nat (load s')).
Proof.
  intros E Hq. unfold exec in E.
  repeat case_hyp E; simplify_eq/=; counters;
    rewrite ?Hq, ?wrap64_add; f_equal; counters; lia.
Qed.

Lemma exec_accounted l s s' : exec l s = Some s' -> accounted s -> accounted s'.
Proof.
  intros E [Hq Hd Ho Hop Hcl]. split; [by eapply exec_queued | | | |];
    unfold exec in E; repeat case_hyp E; simplify_eq/=; try done.
  - rewrite Hd, wrap64_add. f_equal. counters. lia.
  - by rewrite <- Ho, !app_assoc.
  - destruct (rx_open (chan s)); [|by specialize (Hcl eq_refl)].
    rewrite (Hop eq_refl) in *. by rewrite <- Ho.
  - by rewrite <- Ho, <- app_assoc.
  - by rewrite <- Ho, app_nil_r.
  - auto.
  - congruence.
  - congruence.
  - auto.
  - intros H. discriminate (Hcl H).
Qed.

Lemma sum_by_idle f n : f Idle = 0%nat -> sum_by f (replicate n Idle) = 0%nat.
Proof. intros H. induction n; [done|]. unfold sum_by in *. simpl. lia. Qed.

Lemma reachable_accounted n cap s : reachable n cap s -> accounted s.
Proof.
  unfold reachable. revert s. apply rtc_ind_r; [|intros s s' _ (l & _ & Hl) IH].
  - split; try done. unfold load. simpl. by rewrite sum_by_idle.
  - by eapply exec_accounted.
Qed.

(** ** The memory bound *)

(** Producers that have passed the cap test are still to be added: each of them was
    admitted alone against the cap. *)
Record bounded (n : nat) (cap : Z) (s : sys) : Prop := {
  bnd_cap : cap_bytes (chan s) = cap;
  bnd_prods : length (prods s) = n;
  bnd_each : Forall (fun p => Z.of_nat (reserve p) <= cap) (prods s);
  bnd_load : Z.of_nat (load s + sum_by reserve (prods s)) <= Z.of_nat n * cap;
}.

Lemma reserve_bound cap l i :
  Forall (fun p => Z.of_nat (reserve p) <= cap) l -> l !! i = Some Idle ->
  Z.of_nat (sum_by reserve l) <= (Z.of_nat (length l) - 1) * cap.
Proof.
  intros Hf. revert i. induction Hf as [|p l Hp Hf IH]; intros i Hi; [done|].
  assert (Hall : Z.of_nat (sum_by reserve l) <= Z.of_nat (length l) * cap).
  { clear -Hf. induction Hf; simpl; [lia|]. unfold sum_by in *. simpl. lia. }
  destruct i; simplify_eq/=; unfold sum_by in *; simpl; [nia|]. specialize (IH i Hi). nia.
Qed.

Lemma exec_bounded n cap l s s' :
  0 <= cap -> Z.of_nat n * cap < 2 ^ 64 -> exec l s = Some s' -> accounted s -> bounded n cap s ->
  bounded n cap s'.
Proof.
  intros H0 Hcap E [Hq _ _ _ _] [Hc Hn He Hl].
  rewrite wrap64_small in Hq by lia. split.
  - unfold exec in E. repeat case_hyp E; by simplify_eq/=.
  - unfold exec in E. repeat case_hyp E; simplify_eq/=; rewrite ?length_insert; done.
  - unfold exec in E. repeat case_hyp E; simplify_eq/=; try done;
      apply Forall_insert; try done; simpl; unfold blen in *; lia.
  - unfold exec in E. repeat case_hyp E; simplify_eq/=; try (counters; lia).
    pose proof (reserve_bound _ _ _ He Hc1). counters. lia.
Qed.

Lemma exec_not_crashed n cap l s s' :
  Z.of_nat n * cap <= isize_max -> label_ok l = true -> exec l s = Some s' ->
  accounted s -> bounded n cap s -> Crashed ∉ prods s -> Crashed ∉ prods s'.
Proof.
  intros Hcap Hl E [Hq _ _ _ _] [Hc Hn He Hb] Hs.
  rewrite wrap64_small in Hq by (unfold isize_max in *; lia).
  assert (Hins : forall i p, p <> Crashed -> Crashed ∉ <[i := p]> (prods s)).
  { intros i p Hp [j Hj]%list_elem_of_lookup. apply list_lookup_insert_Some in Hj as [(-> & ? & _)|[_ Hj]];
      [done|]. by apply Hs, (list_elem_of_lookup_2 _ _ _ Hj). }
  unfold exec in E. repeat case_hyp E; simplify_eq/=; try done; try (by apply Hins).
  exfalso. unfold blen, usize_max, u64_max, isize_max in *. bool_prop. lia.
Qed.

Lemma reachable_bounded n cap s :
  0 <= cap -> Z.of_nat n * cap <= isize_max -> reachable n cap s ->
  bounded n cap s /\ Crashed ∉ prods s.
Proof.
  intros H0 Hcap R. unfold reachable in R.
  assert (Hgoal : accounted s /\ bounded n cap s /\ Crashed ∉ prods s); [|tauto].
  revert s R. apply rtc_ind_r.
  - split; [apply (reachable_accounted n cap), rtc_refl|]. split; [split|]; simpl.
    + done.
    + apply length_replicate.
    + apply Forall_replicate. simpl. lia.
    + unfold load. simpl. rewrite !sum_by_idle by done. simpl. nia.
    + intros [? ?]%elem_of_replicate. done.
  - intros s s' _ (l & Hok & Hl) (Ha & Hb & Hcr). split; [by eapply exec_accounted|]. split.
    + eapply exec_bounded; try done. unfold isize_max in *. lia.
    + by eapply exec_not_crashed.
Qed.

(** ** Properties *)

(** however the atomic accesses of any number of producers, the consumer and the
    drop of the receiver interleave, the consumer receives a prefix of the pushed chunks
    in order, the dropped counter is the number of dropped bytes, and the queued counter
    is what is queued, on its way in, taken or discarded with the receiver (modulo 64
    bits). *)
Theorem channel_accounting n cap s :
  reachable n cap s ->
  received s ++ taken s ++ stranded s ++ queue (chan s) = pushed s /\
  dropped (chan s) = wrap64 (Z.of_nat (bytes (lost s))) /\
  queued_bytes (chan s) =
    wrap64 (Z.of_nat (bytes (queue (chan s)) + sum_by inflight (prods s)
                      + bytes (taken s) + bytes (stranded s))).
Proof. by intros [Hq Hd Ho _ _]%reachable_accounted. Qed.

(** with [n] producers the channel holds at most [n * cap] bytes at any moment,
    the counter never wraps and the cap test never overflows; with the single producer
    the program has, the bound is the cap itself. *)
Theorem channel_memory_bound n cap s :
  0 <= cap -> Z.of_nat n * cap <= isize_max -> reachable n cap s ->
  Z.of_nat (bytes (queue (chan s))) <= queued_bytes (chan s) <= Z.of_nat n * cap /\
  Crashed ∉ prods s.
Proof.
  intros H0 Hcap R. pose proof (reachable_bounded n cap s H0 Hcap R) as [[_ _ _ Hb] Hs].
  destruct (reachable_accounted n cap s R) as [Hq _ _ _ _].
  rewrite wrap64_small in Hq by (unfold isize_max in *; lia). split; [|done].
  unfold load in *. lia.
Qed.

(** The bound is reached: two producers that pass the test together fill the channel
    twice. *)
Definition double_fill : list label :=
  [LCall 0 (lit "abcd"); LCall 1 (lit "efgh"); LProd 0; LProd 1; LProd 0; LProd 1].

Lemma double_fill_reachable :
  exists s, reachable 2 4 s /\ bytes (queue (chan s)) = 8%nat.
Proof.
  destruct (run double_fill (start 2 4)) as [s|] eqn:E; [|discriminate E].
  exists s. split; [by eapply run_steps|]. vm_compute in E. by injection E as <-.
Qed.

Lemma run_step l ls s s' :
  label_ok l = true -> exec l s = Some s' -> run (l :: ls) s = run ls s'.
Proof. intros H1 H2. cbn [run]. by rewrite H1, H2. Qed.

(** The steps of producer [i] when nothing interferes. *)
Definition solo (i : nat) (b : str) (c : Channel) : list label :=
  LCall i b ::
  (if cap_bytes c <? queued_bytes c + blen b then [LProd i]
   else if rx_open c then [LProd i; LProd i] else [LProd i; LProd i; LProd i; LProd i]).

(** the sequential [try_send] is the interleaved one run without interference: the
    same channel results, a sent chunk is appended to the transport, a dropped one is
    counted, and the producer is ready again. *)
Theorem try_send_refines s i b o c' :
  prods s !! i = Some Idle -> label_ok (LCall i b) = true ->
  try_send b (chan s) = Ok (o, c') ->
  exists s', run (solo i b (chan s)) s = Some s' /\ chan s' = c' /\ prods s' = prods s /\
    pushed s' = pushed s ++ (if decide (o = Sent) then [b] else []) /\
    lost s' = lost s ++ (if decide (o = Dropped) then [b] else []).
Proof.
  intros Hi Hok. unfold try_send, solo.
  pose proof (lookup_lt_Some _ _ _ Hi) as Hlen.
  destruct (usize_max <? _) eqn:E1; [done|].
  destruct (cap_bytes (chan s) <? _) eqn:E2; [|destruct (rx_open (chan s)) eqn:E3; cbn [rx_open add_queued]; rewrite E3];
    intros [= <- <-]; eexists;
    (split; [repeat (erewrite run_step;
        [|done | unfold exec; simpl; rewrite ?list_insert_insert_eq, ?Hi, ?list_lookup_insert_eq by done;
                 rewrite ?E1, ?E2, ?E3; reflexivity]); reflexivity|]);
    simpl; rewrite ?list_insert_insert_eq, list_insert_id by done; by rewrite ?app_nil_r.
Qed.

(** [cap_bytes = 0] does not drop every chunk: an empty chunk is sent. *)
Theorem zero_cap_sends_empty : exists c, try_send [] (new 0) = Ok (Sent, c) /\ queue c = [[]].
Proof. eexists. by split. Qed.

(** ** The attach client's producer side *)

(** The fields [AttachClient::try_send] uses; [warnings] counts the log lines. *)
Record AttachClient := {
  tx : Channel;
  warn_latch : bool;
  warnings : nat;
}.

Definition connected_client (cap dropped0 : Z) : AttachClient :=
  {| tx := new_with_dropped_counter cap dropped0; warn_latch := false; warnings := 0 |}.

Definition client_try_send (b : str) (a : AttachClient)
    : outcome (SendOutcome * AttachClient) Empty_set :=
  (let? (o, c) := try_send b (tx a) in
   match o with
   | Dropped =>
       Ok (o, {| tx := c; warn_latch := true;
                 warnings := if warn_latch a then warnings a else S (warnings a) |})
   | Sent => Ok (o, {| tx := c; warn_latch := warn_latch a; warnings := warnings a |})
   end)%outcome.

Fixpoint client_send_all (bs : list str) (a : AttachClient)
    : outcome (list SendOutcome * AttachClient) Empty_set :=
  match bs with
  | [] => Ok ([], a)
  | b :: bs' =>
      (let? (o, a1) := client_try_send b a in
       let? (os, a2) := client_send_all bs' a1 in
       Ok (o :: os, a2))%outcome
  end.

Lemma client_send_all_latched bs a os a' :
  warn_latch a = true -> client_send_all bs a = Ok (os, a') -> warnings a' = warnings a.
Proof.
  revert a os; induction bs as [|b bs IH]; intros a os Hw; cbn [client_send_all].
  - by intros [= _ <-].
  - intros ([o a1] & H1 & ([os2 a2] & H2 & [= _ <-])%obind_Ok_inv)%obind_Ok_inv.
    unfold client_try_send in H1. apply obind_Ok_inv in H1 as ([o' c] & _ & H1).
    destruct o'; injection H1 as _ <-; apply IH in H2; simpl in *; rewrite ?Hw in *; done.
Qed.

(** over a client's lifetime the backpressure warning is logged once if any chunk
    was dropped and never otherwise. *)
Theorem warns_at_most_once bs a os a' :
  warn_latch a = false -> client_send_all bs a = Ok (os, a') ->
  (warnings a' = warnings a + if decide (Dropped ∈ os) then 1 else 0)%nat.
Proof.
  revert a os; induction bs as [|b bs IH]; intros a os Hw; cbn [client_send_all].
  - intros [= <- <-]. rewrite decide_False by set_solver. lia.
  - intros ([o a1] & H1 & ([os2 a2] & H2 & [= <- <-])%obind_Ok_inv)%obind_Ok_inv.
    unfold client_try_send in H1. apply obind_Ok_inv in H1 as ([o' c] & _ & H1).
    destruct o'; injection H1 as <- <-.
    + apply IH in H2; [|done]. simpl in H2. rewrite H2. f_equal.
      destruct (decide (Dropped ∈ os2)); [rewrite decide_True|rewrite decide_False]; set_solver.
    + apply client_send_all_latched in H2; [|done]. simpl in H2. rewrite H2, Hw.
      rewrite decide_True by set_solver. lia.
Qed.

(** ** Witnesses *)

Lemma channel_accounting_witness :
  exists s, reachable 2 4 s /\ received s ++ taken s ++ stranded s ++ queue (chan s) = pushed s.
Proof.
  destruct (run double_fill (start 2 4)) as [s|] eqn:E; [|discriminate E].
  pose proof (run_steps _ _ _ E) as R. exists s. split; [exact R|].
  exact (proj1 (channel_accounting 2 4 s R)).
Defined.

Lemma channel_memory_bound_witness :
  exists s, reachable 2 4 s /\ queued_bytes (chan s) <= 8.
Proof.
  destruct (run double_fill (start 2 4)) as [s|] eqn:E; [|discriminate E].
  pose proof (run_steps _ _ _ E) as R. exists s. split; [exact R|].
  exact (proj2 (proj1 (channel_memory_bound 2 4 s ltac:(lia) ltac:(unfold isize_max; lia) R))).
Defined.

Lemma try_send_refines_witness :
  exists s', run (solo 0 (lit "abc") (new 4)) (start 1 4) = Some s' /\ pushed s' = [lit "abc"].
Proof.
  destruct (try_send_refines (start 1 4) 0 (lit "abc") Sent _ eq_refl eq_refl eq_refl)
    as (s' & H1 & _ & _ & H2 & _).
  exists s'. split; [exact H1 | exact H2].
Defined.

Lemma warns_at_most_once_witness :
  exists os a', client_send_all [lit "abc"; lit "de"; lit "fg"] (connected_client 4 0) = Ok (os, a') /\
    warnings a' = 1%nat.
Proof.
  eexists _, _. split; [vm_compute; reflexivity|].
  exact (warns_at_most_once [lit "abc"; lit "de"; lit "fg"] (connected_client 4 0)
    [Sent; Dropped; Dropped] _ eq_refl ltac:(vm_compute; reflexivity)).
Defined.
