(* ===== verification/SessionPool.v ===== *)
(** * Per-session processors of the daemon

    [aic-server/src/session_processor_pool.rs]: the pool maps a session id to a shared
    processor (output processor and boundary detector). The map holds references, so the
    model has a heap: [active] gives the location of a session's processor and [heap] its
    contents. *)

From S2P Require Import Prelude RustStr Records OutputProcessor BoundaryDetector.

Local Open Scope nat_scope.
Local Open Scope outcome_scope.

Record SessionProcessor := {
  processor : OutputProcessor.OutputProcessor;
  detector : CommandBoundaryDetector;
}.

(** [SessionProcessor::new] *)
Definition new_processor : SessionProcessor := {|
  processor := OutputProcessor.new;
  detector := BoundaryDetector.new (PromptMarker (lit "osc133"));
|}.

Inductive AttachOpenError := AlreadyOpen (sid : str).

Record SessionProcessorPool := {
  active : gmap str nat;
  heap : gmap nat SessionProcessor;
  next_loc : nat;
}.

Definition empty_pool : SessionProcessorPool := {| active := ∅; heap := ∅; next_loc := 0 |}.

Definition open (sid : str) (p : SessionProcessorPool)
    : outcome SessionProcessorPool AttachOpenError :=
  match active p !! sid with
  | Some _ => Err (AlreadyOpen sid)
  | None =>
      Ok {| active := <[sid := next_loc p]> (active p);
            heap := <[next_loc p := new_processor]> (heap p);
            next_loc := S (next_loc p) |}
  end.

Definition close (sid : str) (p : SessionProcessorPool) : SessionProcessorPool :=
  {| active := delete sid (active p); heap := heap p; next_loc := next_loc p |}.

Definition active_len (p : SessionProcessorPool) : nat := size (active p).

(** The processor a session sees through its reference. *)
Definition view (sid : str) (p : SessionProcessorPool) : option SessionProcessor :=
  loc ← active p !! sid; heap p !! loc.

(** References are allocated, and no two sessions share a processor. *)
Record pool_wf (p : SessionProcessorPool) : Prop := {
  wf_alloc : forall sid loc, active p !! sid = Some loc -> is_Some (heap p !! loc);
  wf_fresh : forall loc, is_Some (heap p !! loc) -> loc < next_loc p;
  wf_inj : forall s1 s2 loc, active p !! s1 = Some loc -> active p !! s2 = Some loc -> s1 = s2;
}.

Lemma empty_pool_wf : pool_wf empty_pool.
Proof.
  split; intros *; simpl; rewrite ?lookup_empty; try done.
Qed.

Lemma open_spec sid p p' :
  pool_wf p -> open sid p = Ok p' ->
  pool_wf p' /\ view sid p = None /\
  forall s, view s p' = if decide (s = sid) then Some new_processor else view s p.
Proof.
  intros [Ha Hf Hi]. unfold open. destruct (active p !! sid) eqn:E; [done|]. intros [= <-].
  assert (Hlt : forall s loc, active p !! s = Some loc -> loc <> next_loc p).
  { intros s loc Hs ->. specialize (Hf _ (Ha _ _ Hs)). lia. }
  split; [split|split]; simpl.
  - intros s loc. rewrite lookup_insert_Some. intros [[-> <-]|[Hne Hs]].
    + rewrite lookup_insert_eq. eauto.
    + rewrite lookup_insert_ne by (intros <-; by eapply Hlt). by eapply Ha.
  - intros loc. destruct (decide (loc = next_loc p)) as [->|Hne]; [lia|].
    rewrite lookup_insert_ne by done. intros ?%Hf. lia.
  - intros s1 s2 loc. rewrite !lookup_insert_Some.
    intros [[<- H1]|[? H1]] [[<- H2]|[? H2]]; [done| | |by eapply Hi].
    + by apply Hlt in H2.
    + by apply Hlt in H1.
  - unfold view. by rewrite E.
  - intros s. unfold view. simpl. case_decide as D; subst.
    + rewrite lookup_insert_eq. simpl. by rewrite lookup_insert_eq.
    + rewrite lookup_insert_ne by done. destruct (active p !! s) as [loc|] eqn:L; [|done]. simpl.
      rewrite lookup_insert_ne; [done|]. intros <-. by eapply Hlt.
Qed.

Lemma close_spec sid p :
  pool_wf p -> pool_wf (close sid p) /\
  forall s, view s (close sid p) = if decide (s = sid) then None else view s p.
Proof.
  intros [Ha Hf Hi]. split; [split|]; simpl.
  - intros s loc [? ?]%lookup_delete_Some. by eapply Ha.
  - done.
  - intros s1 s2 loc [? ?]%lookup_delete_Some [? ?]%lookup_delete_Some. by eapply Hi.
  - intros s. unfold view. simpl. case_decide as D; subst; [by rewrite lookup_delete_eq|].
    by rewrite lookup_delete_ne.
Qed.

Section Feed.
(** [strip_ansi_escapes::strip] *)
Variable strip_ansi : str -> str.

(** The lines a chunk feeds to the detector: first every marker, then every line of the
    stripped text. *)
Definition chunk_inputs (out : ProcessedOutput) : list str :=
  osc133_markers out ++ from_option lines [] (clean_text out).

(** [clock] gives the clock readings of the successive lines. *)
Definition timed (clock : nat -> Z * Z) (ls : list str) : list (Z * Z * str) :=
  imap (fun i l => (clock i, l)) ls.

(** Body of [feed] under the lock of one processor. *)
Definition process_chunk (clock : nat -> Z * Z) (bytes : str) (sp : SessionProcessor)
    : outcome (SessionProcessor * list CommandRecord) Empty_set :=
  let '(out, proc) := process strip_ansi bytes (processor sp) in
  let? (det, rs) := feed_lines (timed clock (chunk_inputs out)) (detector sp) in
  Ok ({| processor := proc; detector := det |}, (fun r => with_mode r Pty) <$> rs).

Definition feed (clock : nat -> Z * Z) (sid bytes : str) (p : SessionProcessorPool)
    : outcome (SessionProcessorPool * list CommandRecord) Empty_set :=
  match (loc ← active p !! sid; sp ← heap p !! loc; Some (loc, sp)) with
  | None => Ok (p, [])
  | Some (loc, sp) =>
      let? (sp', rs) := process_chunk clock bytes sp in
      Ok ({| active := active p; heap := <[loc := sp']> (heap p); next_loc := next_loc p |}, rs)
  end.

(** ** Sequences of requests *)

Inductive pool_op :=
| POpen (sid : str)
| PFeed (clock : nat -> Z * Z) (sid bytes : str)
| PClose (sid : str).

Definition pool_sid (o : pool_op) : str :=
  match o with
  | POpen sid | PFeed _ sid _ | PClose sid => sid
  end.

(** Answer to a request: whether the open succeeded, or the records of the chunk. *)
Inductive answer :=
| Opened (ok : bool)
| Fed (rs : list CommandRecord)
| Closed.

Definition pool_step (o : pool_op) (p : SessionProcessorPool)
    : outcome (SessionProcessorPool * answer) Empty_set :=
  match o with
  | POpen sid =>
      match open sid p with
      | Ok p' => Ok (p', Opened true)
      | _ => Ok (p, Opened false)
      end
  | PFeed clock sid bytes => let? (p', rs) := feed clock sid bytes p in Ok (p', Fed rs)
  | PClose sid => Ok (close sid p, Closed)
  end.

Fixpoint pool_run (ops : list pool_op) (p : SessionProcessorPool)
    : outcome (SessionProcessorPool * list (str * answer)) Empty_set :=
  match ops with
  | [] => Ok (p, [])
  | o :: ops' =>
      let? (p1, a) := pool_step o p in
      let? (p2, more) := pool_run ops' p1 in
      Ok (p2, (pool_sid o, a) :: more)
  end.

(** ** One session on its own: the specification *)

Definition session_step (o : pool_op) (st : option SessionProcessor)
    : outcome (option SessionProcessor * answer) Empty_set :=
  match o, st with
  | POpen _, None => Ok (Some new_processor, Opened true)
  | POpen _, Some _ => Ok (st, Opened false)
  | PFeed clock _ bytes, Some sp => let? (sp', rs) := process_chunk clock bytes sp in Ok (Some sp', Fed rs)
  | PFeed _ _ _, None => Ok (None, Fed [])
  | PClose _, _ => Ok (None, Closed)
  end.

Fixpoint session_run (ops : list pool_op) (st : option SessionProcessor)
    : outcome (option SessionProcessor * list answer) Empty_set :=
  match ops with
  | [] => Ok (st, [])
  | o :: ops' =>
      let? (st1, a) := session_step o st in
      let? (st2, more) := session_run ops' st1 in
      Ok (st2, a :: more)
  end.

Lemma feed_spec clock sid bytes p p' rs :
  pool_wf p -> feed clock sid bytes p = Ok (p', rs) ->
  pool_wf p' /\
  session_step (PFeed clock sid bytes) (view sid p) = Ok (view sid p', Fed rs) /\
  forall s, s <> sid -> view s p' = view s p.
Proof.
  intros Hwf. unfold feed. pose proof Hwf as [Ha Hf Hi].
  destruct (active p !! sid) as [loc|] eqn:L; simpl.
  2: { intros [= <- <-]. unfold view. rewrite L. done. }
  destruct (Ha _ _ L) as [sp Hsp]. rewrite Hsp. simpl.
  intros ([sp' rs'] & Hp & [= <- <-])%obind_Ok_inv.
  split; [split|split]; simpl.
  - intros s l Hs. destruct (decide (l = loc)) as [->|]; [rewrite lookup_insert_eq; eauto|].
    rewrite lookup_insert_ne by done. by eapply Ha.
  - intros l. destruct (decide (l = loc)) as [->|]; [intros _; by apply Hf|].
    rewrite lookup_insert_ne by done. apply Hf.
  - apply Hi.
  - unfold view. simpl. rewrite L. simpl. rewrite Hsp, lookup_insert_eq, Hp. done.
  - intros s Hs. unfold view. simpl. destruct (active p !! s) as [l|] eqn:Ls; [|done]. simpl.
    rewrite lookup_insert_ne; [done|]. intros <-. by apply Hs, (Hi s sid loc).
Qed.

Lemma pool_step_sim o p p' a :
  pool_wf p -> pool_step o p = Ok (p', a) ->
  pool_wf p' /\
  session_step o (view (pool_sid o) p) = Ok (view (pool_sid o) p', a) /\
  forall s, s <> pool_sid o -> view s p' = view s p.
Proof.
  intros Hwf. destruct o as [sid|clock sid bytes|sid]; cbn [pool_step pool_sid].
  - destruct (open sid p) as [p1| |] eqn:E; intros [= <- <-].
    + apply open_spec in E as (H1 & H2 & H3); [|done]. split; [done|]. split.
      * by rewrite H2, H3, decide_True.
      * intros s Hs. by rewrite H3, decide_False.
    + unfold open in E. destruct (active p !! sid) as [loc|] eqn:L; [|done].
      destruct (wf_alloc p Hwf _ _ L) as [sp Hsp]. split; [done|]. split; [|done].
      unfold view. rewrite L. simpl. by rewrite Hsp.
    + unfold open in E. by destruct (active p !! sid).
  - intros ([p1 rs] & H & [= <- <-])%obind_Ok_inv. by apply feed_spec in H.
  - intros [= <- <-]. destruct (close_spec sid p Hwf) as [H1 H2]. split; [done|]. split.
    + rewrite H2, decide_True by done. by destruct (view sid p).
    + intros s Hs. by rewrite H2, decide_False.
Qed.

Lemma pool_run_sim ops p p' outs sid :
  pool_wf p -> pool_run ops p = Ok (p', outs) ->
  session_run (filter (fun o => pool_sid o = sid) ops) (view sid p) =
  Ok (view sid p', (filter (fun x => x.1 = sid) outs).*2).
Proof.
  revert p p' outs; induction ops as [|o ops IH]; intros p p' outs Hwf; cbn [pool_run].
  - by intros [= <- <-].
  - intros ([p1 a] & H1 & ([p2 more] & H2 & [= <- <-])%obind_Ok_inv)%obind_Ok_inv.
    apply pool_step_sim in H1 as (Hwf1 & Hs & Ho); [|done].
    specialize (IH p1 p2 more Hwf1 H2). rewrite !filter_cons. simpl.
    destruct (decide (pool_sid o = sid)) as [<-|Hne]; cbn [session_run].
    + rewrite Hs. simpl. by rewrite IH.
    + by rewrite <- Ho.
Qed.

(** ** Properties of the pool *)

(** sessions do not interfere. Whatever requests of other sessions are interleaved,
    a session's answers (its records included) are those of a processor of its own that
    sees only that session's requests: the shared pool refines independent sessions. *)
Theorem pool_noninterference ops p outs sid :
  pool_run ops empty_pool = Ok (p, outs) ->
  session_run (filter (fun o => pool_sid o = sid) ops) None =
  Ok (view sid p, (filter (fun x => x.1 = sid) outs).*2).
Proof. apply (pool_run_sim ops empty_pool p outs sid empty_pool_wf). Qed.

(** ** Conservation over chunks *)

(** A connection's chunks in order, each with its clock. *)
Fixpoint feed_chunks (chunks : list ((nat -> Z * Z) * str)) (sp : SessionProcessor)
    : outcome (SessionProcessor * list CommandRecord) Empty_set :=
  match chunks with
  | [] => Ok (sp, [])
  | (clock, bytes) :: rest =>
      let? (sp1, rs) := process_chunk clock bytes sp in
      let? (sp2, more) := feed_chunks rest sp1 in
      Ok (sp2, rs ++ more)
  end.

(** The lines that reach the detector over the chunks. *)
Fixpoint inputs_of (chunks : list str) (proc : OutputProcessor.OutputProcessor) : list str :=
  match chunks with
  | [] => []
  | bytes :: rest =>
      let '(out, proc') := process strip_ansi bytes proc in
      chunk_inputs out ++ inputs_of rest proc'
  end.

Lemma timed_lines clock ls : (timed clock ls).*2 = ls.
Proof.
  apply list_eq. intros i. unfold timed. rewrite list_lookup_fmap, list_lookup_imap.
  by destruct (ls !! i).
Qed.

Lemma timed_Forall (P : str -> Prop) clock ls :
  Forall P ls -> Forall (fun i : Z * Z * str => P i.2) (timed clock ls).
Proof. rewrite <- (timed_lines clock ls) at 1. apply Forall_fmap. Qed.

Lemma output_lines_with_mode m rs :
  mjoin (output_lines <$> ((fun r => with_mode r m) <$> rs)) = mjoin (output_lines <$> rs).
Proof. induction rs; [done|]. simpl. by f_equal. Qed.

Lemma process_chunk_conserves clock bytes sp sp' rs :
  process_chunk clock bytes sp = Ok (sp', rs) ->
  strategy (detector sp') = strategy (detector sp) /\
  processor sp' = (process strip_ansi bytes (processor sp)).2 /\
  mjoin (output_lines <$> rs) ++ current_output (detector sp') =
  current_output (detector sp) ++
    mjoin (output_of (strategy (detector sp)) <$>
             chunk_inputs (process strip_ansi bytes (processor sp)).1).
Proof.
  unfold process_chunk. destruct (process _ _ _) as [out proc].
  intros ([det rs0] & H & [= <- <-])%obind_Ok_inv. apply feed_lines_split in H as [Hs H].
  rewrite timed_lines in H. rewrite output_lines_with_mode. done.
Qed.

(** over a session's chunks every line the detector keeps appears in exactly one
    record or is still pending, in order, whatever the chunking. *)
Theorem feed_chunks_conserve chunks sp sp' rs :
  feed_chunks chunks sp = Ok (sp', rs) ->
  mjoin (output_lines <$> rs) ++ current_output (detector sp') =
  current_output (detector sp) ++
    mjoin (output_of (strategy (detector sp)) <$> inputs_of chunks.*2 (processor sp)).
Proof.
  revert sp sp' rs; induction chunks as [|[clock bytes] chunks IH]; intros sp sp' rs;
    cbn [feed_chunks fmap list_fmap inputs_of].
  - intros [= <- <-]. by rewrite app_nil_r.
  - intros ([sp1 r1] & H1 & ([sp2 r2] & H2 & [= <- <-])%obind_Ok_inv)%obind_Ok_inv.
    apply process_chunk_conserves in H1 as (Hs & Hp & H1). apply IH in H2.
    rewrite Hs, Hp in H2. cbn [snd]. destruct (process strip_ansi bytes (processor sp)) as [out proc].
    simpl in *. rewrite !fmap_app, !join_app, <- app_assoc, H2, !app_assoc. by f_equal.
Qed.

(** output that arrives in the same read as its completion marker is not in its
    command's record. All markers of a chunk are processed before its text, so the record
    is emitted without output and the lines are left for the next command. *)
Theorem same_chunk_output_misattributed clock bytes cmd code text :
  utf8_valid cmd = true -> trim cmd = cmd -> cmd <> [] ->
  2 * length cmd <= MAX_COMMAND_HEX_LEN -> (i32_min <= code <= i32_max)%Z -> code <> 0%Z ->
  (process strip_ansi bytes OutputProcessor.new).1 =
    {| clean_text := Some text; passthrough := bytes;
       osc133_markers := [command_marker cmd; completion_marker code] |} ->
  Forall (fun l => is_output_line l = true) (lines text) ->
  exists sp' r, process_chunk clock bytes new_processor = Ok (sp', [r]) /\
    command r = Some cmd /\ exit_code r = code /\ output_lines r = [] /\
    current_output (detector sp') = lines text.
Proof.
  intros Hu Ht Hne Hl Hc Hc0 Hp Hlines. unfold process_chunk.
  change (processor new_processor) with OutputProcessor.new.
  destruct (process strip_ansi bytes OutputProcessor.new) as [out proc]. simpl in Hp. subst out.
  unfold chunk_inputs. cbn [osc133_markers clean_text from_option].
  unfold timed. cbn [app]. rewrite !imap_cons. destruct (clock 0) as [n0 u0]. cbn [compose].
  destruct (clock 1) as [n1 u1]. cbn [feed_lines]. unfold feed_line at 1.
  cbn [strategy detector new_processor BoundaryDetector.new]. unfold feed_line_prompt_marker.
  rewrite parse_completion_command_marker, prompt_start_command_marker.
  rewrite parse_command_marker_encode by done. cbn [obind]. unfold feed_line at 1.
  cbn [strategy set_command]. unfold feed_line_prompt_marker.
  rewrite parse_completion_marker_show by done. unfold finalize_record.
  rewrite (bool_decide_eq_false_2 (code = 0%Z)) by done. cbn.
  change (imap _ (lines text)) with (timed (fun i => clock (S (S i))) (lines text)).
  rewrite (feed_output_lines _ _ (lit "osc133")), timed_lines by (done || by apply (timed_Forall (fun l => is_output_line l = true))).
  cbn. eexists _, _. split; [reflexivity|]. done.
Qed.
End Feed.

(** ** Witnesses *)

(** A stripper that is enough for the sample: it removes OSC sequences. *)
Fixpoint strip_osc (inside : bool) (s : str) : str :=
  match s with
  | [] => []
  | b :: s' =>
      if inside then strip_osc (negb (bool_decide (b = BEL))) s'
      else if bool_decide (b = ESC) then strip_osc true s' else b :: strip_osc false s'
  end.

Definition sample_chunk : str :=
  command_marker (lit "make") ++ lit "error: x" ++ [x0a] ++ completion_marker 2.

Definition still (_ : nat) : Z * Z := (0, 7)%Z.

Definition sample_requests : list pool_op :=
  [POpen (lit "a"); POpen (lit "b"); PFeed still (lit "a") (command_marker (lit "ls"));
   PFeed still (lit "b") sample_chunk; POpen (lit "a"); PFeed still (lit "a") (lit "oops");
   PClose (lit "b"); PFeed still (lit "a") (completion_marker 1)].

Lemma pool_noninterference_witness :
  exists p outs, pool_run (strip_osc false) sample_requests empty_pool = Ok (p, outs) /\
    session_run (strip_osc false) (filter (fun o => pool_sid o = lit "a") sample_requests) None =
    Ok (view (lit "a") p, (filter (fun x => x.1 = lit "a") outs).*2).
Proof.
  destruct (pool_run (strip_osc false) sample_requests empty_pool) as [[p outs]| |] eqn:E;
    [|vm_compute in E; discriminate E|vm_compute in E; discriminate E].
  exists p, outs. split; [reflexivity|].
  exact (pool_noninterference (strip_osc false) sample_requests p outs (lit "a") E).
Defined.

Lemma feed_chunks_conserve_witness :
  exists sp' rs, feed_chunks (strip_osc false) [(still, sample_chunk)] new_processor = Ok (sp', rs) /\
    mjoin (output_lines <$> rs) ++ current_output (detector sp') = [lit "error: x"].
Proof.
  destruct (feed_chunks (strip_osc false) [(still, sample_chunk)] new_processor) as [[sp' rs]| |] eqn:E;
    [|vm_compute in E; discriminate E|vm_compute in E; discriminate E].
  exists sp', rs. split; [reflexivity|].
  rewrite (feed_chunks_conserve (strip_osc false) _ _ _ _ E). vm_compute. reflexivity.
Defined.

Lemma same_chunk_output_misattributed_witness :
  exists sp' r, process_chunk (strip_osc false) still sample_chunk new_processor = Ok (sp', [r]) /\
    command r = Some (lit "make") /\ exit_code r = 2%Z /\ output_lines r = [] /\
    current_output (detector sp') = [lit "error: x"].
Proof.
  apply (same_chunk_output_misattributed (strip_osc false) still sample_chunk (lit "make") 2
    (lit "error: x" ++ [x0a]));
    [vm_compute; reflexivity | vm_compute; reflexivity | done | vm_compute; lia | by_decide | done
    | vm_compute; reflexivity | constructor; [vm_compute; reflexivity | constructor]].
Defined.
