(* ===== verification/SessionRuntime.v ===== *)
(** * The session's fan-out of PTY output

    [aic-server/src/session_runtime.rs]: every chunk read from the PTY goes to standard
    output, then to the attach channel, then through the local output processor and
    boundary detector, whose records are stored in the session's ring buffer and, when the
    central-store flag is set, sent to the daemon's record store. *)

From S2P Require Import Prelude RustStr Records RingBuffer OutputProcessor BoundaryDetector RecordStore ByteChannel SessionPool.

Local Open Scope nat_scope.
Local Open Scope outcome_scope.

(** Last component of the command's first word. *)
Definition cmd_base (command : str) : str :=
  default [] (last (split_byte x2f (first_word command))).

Definition should_store_record (r : CommandRecord) : bool :=
  match command r with
  | None => true
  | Some c => negb (bool_decide (cmd_base c ∈ [lit "aic"; lit "ac"; lit "aic-session"]))
  end.

Definition should_create_local_data_plane (central_store_flag attach_connected : bool) : bool :=
  negb (central_store_flag && attach_connected).

(** The session's ring, the daemon's store, and how many records were dispatched. *)
Record Plane := {
  ring : RingBuffer;
  store : Inner;
  dispatched : nat;
}.

Section Runtime.
(** The identifier drawn and whether the daemon answers in
    time at the k-th dispatch; the store's own draw when an identifier is missing. *)
Variable draws : nat -> Z.
Variable up : nat -> bool.
Variable store_draws : nat -> Z.
Variable sid : str.
Variable central_store_flag : bool.

(** [dispatch_record]; the daemon stores a registered record with [push_pty]. *)
Definition dispatch_record (record : CommandRecord) (p : Plane) : outcome Plane Empty_set :=
  if should_store_record record then
    let record := ensure_id (draws (dispatched p)) record in
    let? rb := unwrap_or_panic (RingBuffer.push 0 record (ring p)) in
    let g :=
      if central_store_flag && up (dispatched p)
      then (push_pty (store_draws (dispatched p)) sid record (store p)).1 else store p in
    Ok {| ring := rb; store := g; dispatched := S (dispatched p) |}
  else Ok p.

Fixpoint dispatch_all (rs : list CommandRecord) (p : Plane) : outcome Plane Empty_set :=
  match rs with
  | [] => Ok p
  | r :: rs' => let? p1 := dispatch_record r p in dispatch_all rs' p1
  end.

(** The two loops of the local block: each line is fed, and a completed record is
    dispatched before the next line. *)
Fixpoint local_loop (inputs : list (Z * Z * str)) (d : CommandBoundaryDetector) (p : Plane)
    : outcome (CommandBoundaryDetector * Plane) Empty_set :=
  match inputs with
  | [] => Ok (d, p)
  | (now, utc, line) :: rest =>
      let? (d1, r) := feed_line now utc line d in
      let? p1 := match r with Some r => dispatch_record r p | None => Ok p end in
      local_loop rest d1 p1
  end.

Lemma local_loop_split inputs d d' rs p :
  feed_lines inputs d = Ok (d', rs) ->
  local_loop inputs d p = (let? p' := dispatch_all rs p in Ok (d', p')).
Proof.
  revert d d' rs p; induction inputs as [|[[now utc] line] inputs IH]; intros d d' rs p;
    cbn [local_loop feed_lines]; [by intros [= <- <-]|].
  intros ([d1 r] & -> & ([d2 rs2] & H2 & [= <- <-])%obind_Ok_inv)%obind_Ok_inv. cbn [obind].
  destruct r as [r|]; [change (option_list (Some r) ++ rs2) with (r :: rs2) | by apply IH].
  cbn [dispatch_all].
  destruct (dispatch_record r p) as [p1| |]; [|done|done]. by apply IH.
Qed.

(** ** Dual write *)

(** The records of [rs] that are stored, with the identifiers they are given. *)
Fixpoint stored_as (rs : list CommandRecord) (n : nat) : list CommandRecord :=
  match rs with
  | [] => []
  | r :: rs' =>
      if should_store_record r then ensure_id (draws n) r :: stored_as rs' (S n)
      else stored_as rs' n
  end.

(** Ring and store after the records [D] were stored. *)
Record agrees (D : list CommandRecord) (p : Plane) : Prop := {
  agr_inv : inv (ring p);
  agr_ring : records (ring p) `suffix_of` D;
  agr_store : default [] (finished (store p) !! sid) = lastn PER_SESSION_CAPACITY D;
}.

Lemma ring_push_suffix r rb D :
  inv rb -> records rb `suffix_of` D -> id r <> [] ->
  exists rb', RingBuffer.push 0 r rb = Some rb' /\ inv rb' /\ records rb' `suffix_of` (D ++ [r]).
Proof.
  intros Hi Hs Hid. destruct (push_spec 0 r rb Hi) as (rb' & Hp & Hi' & _ & kept & Hr & Hk).
  exists rb'. split; [done|]. split; [done|]. rewrite Hr, ensure_id_keeps by done.
  assert (kept `suffix_of` D) as [pre ->]; [|exists pre; by rewrite app_assoc].
  destruct (max_lines rb <? nlines r).
  - subst. apply suffix_nil.
  - destruct Hk as (gone & Ho & _). transitivity (records rb); [|done]. by exists gone.
Qed.

Lemma store_push_lastn rng r g D :
  default [] (finished g !! sid) = lastn PER_SESSION_CAPACITY D ->
  id r <> [] -> id r ∉ (id <$> D) ->
  default [] (finished (push_pty rng sid r g).1 !! sid) = lastn PER_SESSION_CAPACITY (D ++ [r]).
Proof.
  intros Hg Hid Hnew. unfold push_pty, push_session. rewrite Hg.
  assert (Hr : existsb (fun e => bool_decide (id e = id r)) (lastn PER_SESSION_CAPACITY D) = false).
  { apply not_true_iff_false. rewrite existsb_exists. intros (e & He & Heq). bool_prop.
    apply Hnew. rewrite <- Heq. apply list_elem_of_fmap_2.
    apply list_elem_of_In in He. destruct (lastn_suffix PER_SESSION_CAPACITY D) as [pre ->]. set_solver. }
  destruct (push_inner rng _ r) as [ring' sent] eqn:P. simpl. rewrite lookup_insert_eq. simpl.
  rewrite (push_inner_ring _ _ _ _ _ (lastn_le _ _) P), lastn_lastn_app.
  unfold push_inner in P. rewrite bool_decide_eq_false_2, Hr in P by done. by injection P as _ <-.
Qed.

Lemma dispatch_all_agrees rs p D :
  central_store_flag = true -> (forall k, up k = true) -> agrees D p ->
  NoDup (id <$> D ++ stored_as rs (dispatched p)) ->
  exists p', dispatch_all rs p = Ok p' /\ agrees (D ++ stored_as rs (dispatched p)) p'.
Proof.
  intros Hf Hu. revert p D; induction rs as [|r rs IH]; intros p D [Hi Hr Hs] Hnd; cbn [dispatch_all stored_as].
  - exists p. by rewrite app_nil_r.
  - cbn [stored_as] in Hnd. unfold dispatch_record at 1. destruct (should_store_record r); [|by apply IH].
    set (r' := ensure_id (draws (dispatched p)) r) in *.
    assert (Hid : id r' <> []) by apply ensure_id_nonempty.
    destruct (ring_push_suffix r' (ring p) D Hi Hr Hid) as (rb & Hp & Hi' & Hr').
    rewrite Hp, Hf, Hu. cbn [unwrap_or_panic obind andb].
    rewrite cons_middle, app_assoc in Hnd |- *.
    apply (IH {| ring := rb; store := _; dispatched := S (dispatched p) |}); [|done].
    split; simpl; [done|done|]. apply store_push_lastn; [done|done|].
    rewrite !fmap_app in Hnd. apply NoDup_app in Hnd as [Hnd _]. apply NoDup_app in Hnd as (_ & Hd & _).
    intros Hin. apply (Hd _ Hin). set_solver.
Qed.

(** with the central store on and reachable, and identifiers drawn distinct, a
    session and the daemon hold the same records: both are tails of the one sequence of
    stored records (the daemon's the last 64 of them), each with the same identifier on
    both sides, and dispatching never panics. *)
Theorem dual_write_agree rs max :
  central_store_flag = true -> (forall k, up k = true) -> NoDup (id <$> stored_as rs 0) ->
  exists p, dispatch_all rs {| ring := RingBuffer.new max; store := empty_store; dispatched := 0 |} = Ok p /\
    records (ring p) `suffix_of` stored_as rs 0 /\
    default [] (finished (store p) !! sid) = lastn PER_SESSION_CAPACITY (stored_as rs 0).
Proof.
  intros Hf Hu Hnd.
  destruct (dispatch_all_agrees rs {| ring := RingBuffer.new max; store := empty_store; dispatched := 0 |} [] Hf Hu)
    as (p & Hp & [_ Hr Hs]); [|done|by exists p].
  split; simpl; [|done|by rewrite lookup_empty].
  split; [done|]. left. simpl. rewrite lines_total_nil. lia.
Qed.

(** the assistant's own commands never reach either store, with any path in front
    and any arguments after. *)
Theorem own_commands_not_stored r dir name args p :
  Forall (fun b => is_plain b = true) dir ->
  name ∈ [lit "aic"; lit "ac"; lit "aic-session"] ->
  command r = Some (dir ++ x2f :: name ++ x20 :: args) ->
  dispatch_record r p = Ok p.
Proof.
  intros Hd Hn Hc. unfold dispatch_record, should_store_record. rewrite Hc.
  assert (Hp : Forall (fun b => is_plain b = true) (x2f :: name) /\ x2f ∉ name).
  { rewrite !elem_of_cons, elem_of_nil in Hn. destruct Hn as [->|[->|[->|[]]]]; split; by_decide. }
  destruct Hp as [Hp Hs]. unfold cmd_base.
  change (x2f :: name ++ x20 :: args) with ((x2f :: name) ++ x20 :: args).
  rewrite app_assoc, first_word_plain; [|by apply Forall_app|by destruct dir].
  rewrite split_byte_last by done. cbn [default]. by rewrite bool_decide_eq_true_2.
Qed.
(** ** Fan-out of a chunk *)

(** [strip_ansi_escapes::strip] *)
Variable strip_ansi : str -> str.

(** What a session holds besides standard output. *)
Record Session := {
  attach_client : option AttachClient;
  local : option SessionProcessor;
  plane : Plane;
}.

(** Attach tee and local block of [fan_out_chunk]. *)
Definition tee_and_process (clock : nat -> Z * Z) (chunk : str) (s : Session)
    : outcome Session Empty_set :=
  let? client :=
    match attach_client s with
    | Some c => let? (_, c') := client_try_send chunk c in Ok (Some c')
    | None => Ok None
    end in
  match local s with
  | None => Ok {| attach_client := client; local := None; plane := plane s |}
  | Some sp =>
      let '(out, proc) := process strip_ansi chunk (processor sp) in
      let? (det, p) := local_loop (timed clock (chunk_inputs out)) (detector sp) (plane s) in
      Ok {| attach_client := client; local := Some {| processor := proc; detector := det |};
            plane := p |}
  end.

(** [fan_out_chunk]: standard output first; [written] is the number of bytes the writer
    took before an error, which is ignored. *)
Definition fan_out_chunk (written : option nat) (clock : nat -> Z * Z) (chunk stdout : str)
    (s : Session) : str * outcome Session Empty_set :=
  (stdout ++ from_option (fun k => take k chunk) chunk written, tee_and_process clock chunk s).

(** The reader loop over chunks: a panic ends it. *)
Fixpoint fan_out_all (chunks : list ((nat -> Z * Z) * str)) (stdout : str) (s : Session)
    : str * outcome Session Empty_set :=
  match chunks with
  | [] => (stdout, Ok s)
  | (clock, chunk) :: rest =>
      match fan_out_chunk None clock chunk stdout s with
      | (stdout', Ok s') => fan_out_all rest stdout' s'
      | (stdout', r) => (stdout', r)
      end
  end.

Lemma with_mode_pty r : capture_mode r = Pty -> with_mode r Pty = r.
Proof. destruct r. simpl. by intros ->. Qed.

Lemma finalize_mode utc code d d' r :
  finalize_record utc code d = (d', Some r) -> capture_mode r = Pty.
Proof. unfold finalize_record. case_goal; intros ?; by simplify_eq. Qed.

Lemma feed_line_mode now utc line d d' r :
  feed_line now utc line d = Ok (d', Some r) -> capture_mode r = Pty.
Proof.
  unfold feed_line. destruct (strategy d).
  - unfold feed_line_prompt_marker. repeat case_goal; intros H; simplify_eq/=; try by eapply finalize_mode.
    all: destruct (parse_command_marker line) as [[[|]|]| |]; simplify_eq/=; repeat case_hyp H; simplify_eq/=.
  - unfold feed_line_timing. repeat case_goal; intros H; simplify_eq/=; by eapply finalize_mode.
Qed.

Lemma feed_lines_mode inputs d d' rs :
  feed_lines inputs d = Ok (d', rs) -> (fun r => with_mode r Pty) <$> rs = rs.
Proof.
  revert d d' rs; induction inputs as [|[[now utc] line] inputs IH]; intros d d' rs;
    cbn [feed_lines]; [by intros [= <- <-]|].
  intros ([d1 r] & H1 & ([d2 rs2] & H2 & [= <- <-])%obind_Ok_inv)%obind_Ok_inv.
  apply IH in H2. rewrite fmap_app, H2. destruct r as [r|]; [|done]. simpl.
  by rewrite with_mode_pty by (by eapply feed_line_mode).
Qed.

(** ** Properties *)

(** the session's own pipeline and the daemon's pool agree: on the same chunk and
    the same processor state the session ends with the pool's processor, and dispatches
    exactly the records the pool would return, in order. *)
Theorem local_matches_central clock chunk sp sp' rs p :
  process_chunk strip_ansi clock chunk sp = Ok (sp', rs) ->
  tee_and_process clock chunk {| attach_client := None; local := Some sp; plane := p |} =
  (let? p' := dispatch_all rs p in
   Ok {| attach_client := None; local := Some sp'; plane := p' |}).
Proof.
  unfold process_chunk, tee_and_process. simpl.
  destruct (process strip_ansi chunk (processor sp)) as [out proc].
  intros ([det rs0] & H & [= <- <-])%obind_Ok_inv. rewrite (feed_lines_mode _ _ _ _ H).
  rewrite (local_loop_split _ _ _ _ _ H). by destruct (dispatch_all rs0 p).
Qed.

Lemma fan_out_chunk_Ok clock chunk stdout s s' out :
  fan_out_chunk None clock chunk stdout s = (out, Ok s') ->
  out = stdout ++ chunk /\ tee_and_process clock chunk s = Ok s'.
Proof. by intros [= <- ->]. Qed.

(** standard output is a transparent copy of the PTY's output: whatever the attach
    channel, the processors and the stores do, everything read is written, up to and
    including the chunk on which the pipeline panics if it does. *)
Theorem passthrough_exact chunks stdout s :
  exists k, (fan_out_all chunks stdout s).1 = stdout ++ mjoin (take k chunks.*2) /\
    ((fan_out_all chunks stdout s).2 = Panic -> 0 < k <= length chunks) /\
    ((fan_out_all chunks stdout s).2 <> Panic -> k = length chunks).
Proof.
  revert stdout s; induction chunks as [|[clock chunk] chunks IH]; intros stdout s.
  - exists 0. by rewrite app_nil_r.
  - cbn [fan_out_all]. unfold fan_out_chunk. simpl from_option.
    destruct (tee_and_process clock chunk s) as [s'|[]|].
    + destruct (IH (stdout ++ chunk) s') as (k & -> & H1 & H2). exists (S k).
      simpl. rewrite <- app_assoc. split; [done|]. split; [intros H|intros H].
      * specialize (H1 H). lia.
      * by rewrite (H2 H).
    + exists 1. simpl. rewrite app_nil_r. split; [done|]. split; [lia|done].
Qed.
End Runtime.

(** ** Autostart *)

(** [attach_with_autostart_retry_inner]: [connect k] is the k-th connection attempt. The
    counter of reconnections is incremented only before a second attempt. *)
Definition attach_with_autostart_retry {A E} (connect : nat -> A + E) (starter : bool)
    (attach_reconnect_total : Z) : (A + E) * Z :=
  match connect 0 with
  | inl client => (inl client, attach_reconnect_total)
  | inr first_err =>
      if starter then (connect 1, (attach_reconnect_total + 1)%Z)
      else (inr first_err, attach_reconnect_total)
  end.

(** ** Witnesses *)

Definition failed (cmd : str) : CommandRecord :=
  {| id := []; command := Some cmd; exit_code := 1; output_lines := [lit "no"]; timestamp := 0;
     capture_mode := Pty; capture_quality := QualityUnknown; output_metadata := None;
     cwd := None; duration_ms := None |}.

Definition start_plane : Plane :=
  {| ring := RingBuffer.new 3; store := empty_store; dispatched := 0 |}.

Lemma local_matches_central_witness :
  exists sp' rs, process_chunk (strip_osc false) still sample_chunk new_processor = Ok (sp', rs) /\
  tee_and_process Z.of_nat (fun _ => true) Z.of_nat (lit "s") true (strip_osc false) still sample_chunk
    {| attach_client := None; local := Some new_processor; plane := start_plane |} =
  (let? p' := dispatch_all Z.of_nat (fun _ => true) Z.of_nat (lit "s") true rs start_plane in
   Ok {| attach_client := None; local := Some sp'; plane := p' |}).
Proof.
  destruct (process_chunk (strip_osc false) still sample_chunk new_processor) as [[sp' rs]| |] eqn:E;
    [|vm_compute in E; discriminate E|vm_compute in E; discriminate E].
  exists sp', rs. split; [reflexivity|].
  exact (local_matches_central Z.of_nat (fun _ => true) Z.of_nat (lit "s") true (strip_osc false)
    still sample_chunk new_processor sp' rs start_plane E).
Defined.

Lemma dual_write_agree_witness :
  exists p, dispatch_all Z.of_nat (fun _ => true) Z.of_nat (lit "s") true
      [failed (lit "make"); failed (lit "aic ask"); failed (lit "ls")] start_plane = Ok p /\
    records (ring p) `suffix_of`
      stored_as Z.of_nat [failed (lit "make"); failed (lit "aic ask"); failed (lit "ls")] 0.
Proof.
  destruct (dual_write_agree Z.of_nat (fun _ => true) Z.of_nat (lit "s") true
    [failed (lit "make"); failed (lit "aic ask"); failed (lit "ls")] 3 eq_refl (fun _ => eq_refl))
    as (p & H1 & H2 & _); [by_decide|].
  exists p. split; [exact H1 | exact H2].
Defined.

Lemma own_commands_not_stored_witness :
  dispatch_record Z.of_nat (fun _ => true) Z.of_nat (lit "s") true
    (failed (lit "/usr/bin/aic ask why")) start_plane = Ok start_plane.
Proof.
  apply (own_commands_not_stored Z.of_nat (fun _ => true) Z.of_nat (lit "s") true
    (failed (lit "/usr/bin/aic ask why")) (lit "/usr/bin") (lit "aic") (lit "ask why") start_plane);
    [by_decide | by_decide | reflexivity].
Defined.
