(* ===== verification/Attach.v ===== *)
(** * The attach protocol

    [aic-common/src/attach.rs] (frames and wire codec), [encode_frame]/[decode_frame] of
    [aic-common/src/ipc.rs], the writer side of [aic-server/src/attach_client.rs] and the
    connection handler of [aic-server/src/attach_server.rs]. A byte stream is the list of
    bytes not yet read. [serde_json] is a parameter of the development. *)

From S2P Require Import Prelude RustStr Bytes Records BoundaryDetector RecordStore SessionPool.

Local Open Scope outcome_scope.

(** ** Frames *)

Definition ATTACH_PROTOCOL_VERSION : Z := 1.
Definition PTY_BYTES_DISCRIMINANT : byte := x01.
Definition JSON_FRAME_DISCRIMINANT : byte := x02.
Definition MAX_PTY_BYTES_FRAME : Z := 16 * 1024 * 1024.

Inductive AttachClientFrame :=
| AttachOpen (session_id : str) (protocol_version : Z)
| PtyBytes (bytes : str)
| AttachClose (reason : str).

Inductive AttachServerFrame :=
| AttachAck (protocol_version : Z)
| AttachError (message : str).

Inductive AttachFrameKind :=
| Client (f : AttachClientFrame)
| Server (f : AttachServerFrame).

#[export] Instance AttachClientFrame_eq_dec : EqDecision AttachClientFrame.
Proof. solve_decision. Defined.
#[export] Instance AttachServerFrame_eq_dec : EqDecision AttachServerFrame.
Proof. solve_decision. Defined.

Inductive AttachIoError :=
| WriteJson
| PayloadTooLargeForLengthPrefix (len : Z).

(** [UnexpectedEof] is the only input error a finite stream gives. *)
Inductive AttachDecodeError :=
| UnexpectedEof
| ReadJson
| UnknownDiscriminant (d : byte)
| PtyBytesTooLarge (len : Z)
| JsonContainsPtyBytes.

(** ** Primitive reads and writes *)

(** [write_u32] *)
Definition be32 (n : Z) : str := be_split 4 n.

(** [read_exact] of [n] bytes; also [read_u8] and [read_u32]. *)
Definition read_exact (n : Z) (s : str) : outcome (str * str) AttachDecodeError :=
  if n <=? zlen s then Ok (take (Z.to_nat n) s, drop (Z.to_nat n) s) else Err UnexpectedEof.

Definition read_u32 (s : str) : outcome (Z * str) AttachDecodeError :=
  let? (b, rest) := read_exact 4 s in Ok (of_be b, rest).

Lemma of_be_be32 n : 0 <= n <= u32_max -> of_be (be32 n) = n.
Proof. intros Hn. apply of_be_split. unfold u32_max in Hn. lia. Qed.

Lemma read_exact_app s rest n : n = zlen s -> read_exact n (s ++ rest) = Ok (s, rest).
Proof.
  intros ->. unfold read_exact, zlen. rewrite length_app, Nat2Z.id.
  replace (_ <=? _) with true by lia. by rewrite take_app_length, drop_app_length.
Qed.

Lemma read_u32_app n rest : 0 <= n <= u32_max -> read_u32 (be32 n ++ rest) = Ok (n, rest).
Proof.
  intros Hn. unfold read_u32. rewrite read_exact_app by (unfold be32; by rewrite zlen_be_split).
  simpl. by rewrite of_be_be32.
Qed.

Lemma read_exact_Ok n s x rest :
  0 <= n -> read_exact n s = Ok (x, rest) -> s = x ++ rest /\ zlen x = n.
Proof.
  intros Hn. unfold read_exact, zlen. destruct (_ <=? _) eqn:E; [|done]. intros [= <- <-].
  bool_prop. rewrite take_drop, length_take. split; [done|lia].
Qed.

(** ** The control protocol's frames ([ipc.rs]) *)

(** The length is cast with [as u32]. *)
Definition encode_frame (data : str) : str := be32 (zlen data mod 2 ^ 32) ++ data.

Inductive FrameError := ShortHeader | ShortPayload.

(** [Ok (size, payload)]: whole frame size and payload slice. *)
Definition decode_frame (data : str) : outcome (Z * str) FrameError :=
  if zlen data <? 4 then Err ShortHeader
  else
    let payload_len := of_be (take 4 data) in
    let total_frame_size := 4 + payload_len in
    if zlen data <? total_frame_size then Err ShortPayload
    else Ok (total_frame_size, take (Z.to_nat payload_len) (drop 4 data)).

Lemma decode_encode_frame data rest :
  zlen data <= u32_max ->
  decode_frame (encode_frame data ++ rest) = Ok (zlen (encode_frame data), data).
Proof.
  intros Hd. pose proof (zlen_nonneg data). pose proof (zlen_nonneg rest).
  unfold decode_frame, encode_frame. unfold u32_max in Hd. rewrite Z.mod_small by lia.
  rewrite <- app_assoc, !zlen_app, (zlen_be_split 4). replace (_ <? 4) with false by lia.
  rewrite take_app_length' by (symmetry; apply length_be_split).
  rewrite drop_app_length' by (symmetry; apply length_be_split).
  rewrite of_be_be32 by (unfold u32_max; lia). replace (_ <? _) with false by lia.
  by rewrite take_zlen.
Qed.

(** a control frame is decoded to its payload and its exact size, whatever follows
    in the buffer, when the payload is shorter than 4 GiB. *)
Theorem ipc_frame_roundtrip data rest :
  zlen data <= u32_max ->
  decode_frame (encode_frame data ++ rest) = Ok (zlen (encode_frame data), data).
Proof. apply decode_encode_frame. Qed.

(** ** The attach codec *)

(** [serde_json] on the two enums (internally tagged by [kind]), and what the protocol
    relies on: the derived codecs invert each other, the tag tells client from server
    frames, and [serde(skip)] removes [PtyBytes] from JSON. *)
Class AttachJson := {
  client_to_json : AttachClientFrame -> option str;
  client_of_json : str -> option AttachClientFrame;
  server_to_json : AttachServerFrame -> option str;
  server_of_json : str -> option AttachServerFrame;
  client_json : forall f j, client_to_json f = Some j -> client_of_json j = Some f;
  server_json : forall f j, server_to_json f = Some j -> server_of_json j = Some f;
  kinds_disjoint : forall f j, server_to_json f = Some j -> client_of_json j = None;
  pty_skipped : forall j b, client_of_json j <> Some (PtyBytes b);
}.

Section Codec.
Context {J : AttachJson}.

Definition write_payload (disc : byte) (payload : str) : outcome str AttachIoError :=
  guard zlen payload <=? u32_max else PayloadTooLargeForLengthPrefix (zlen payload) in
  Ok (disc :: be32 (zlen payload) ++ payload).

Definition write_attach_frame (f : AttachClientFrame) : outcome str AttachIoError :=
  match f with
  | PtyBytes bytes => write_payload PTY_BYTES_DISCRIMINANT bytes
  | other =>
      let? json := ok_or (client_to_json other) WriteJson in
      write_payload JSON_FRAME_DISCRIMINANT json
  end.

Definition write_attach_server_frame (f : AttachServerFrame) : outcome str AttachIoError :=
  let? json := ok_or (server_to_json f) WriteJson in
  write_payload JSON_FRAME_DISCRIMINANT json.

(** Length prefix, limit check and payload, common to both paths. *)
Definition read_payload (s : str) : outcome (str * str) AttachDecodeError :=
  let? (len, rest) := read_u32 s in
  guard negb (MAX_PTY_BYTES_FRAME <? len) else PtyBytesTooLarge len in
  read_exact len rest.

Definition read_attach_frame (s : str) : outcome (AttachFrameKind * str) AttachDecodeError :=
  match s with
  | [] => Err UnexpectedEof
  | disc :: s1 =>
      if bool_decide (disc = PTY_BYTES_DISCRIMINANT) then
        let? (buf, rest) := read_payload s1 in Ok (Client (PtyBytes buf), rest)
      else if bool_decide (disc = JSON_FRAME_DISCRIMINANT) then
        let? (buf, rest) := read_payload s1 in
        match client_of_json buf with
        | Some (PtyBytes _) => Err JsonContainsPtyBytes
        | Some client => Ok (Client client, rest)
        | None => let? server := ok_or (server_of_json buf) ReadJson in Ok (Server server, rest)
        end
      else Err (UnknownDiscriminant disc)
  end.

Lemma read_payload_app payload rest :
  zlen payload <= MAX_PTY_BYTES_FRAME ->
  read_payload (be32 (zlen payload) ++ payload ++ rest) = Ok (payload, rest).
Proof.
  intros H. pose proof (zlen_nonneg payload). unfold MAX_PTY_BYTES_FRAME in *. unfold read_payload.
  rewrite read_u32_app by (unfold u32_max; lia). simpl. unfold MAX_PTY_BYTES_FRAME.
  replace (_ <? _) with false by lia. simpl. by rewrite read_exact_app.
Qed.

Lemma read_payload_large payload rest :
  MAX_PTY_BYTES_FRAME < zlen payload <= u32_max ->
  read_payload (be32 (zlen payload) ++ payload ++ rest) = Err (PtyBytesTooLarge (zlen payload)).
Proof.
  intros H. pose proof (zlen_nonneg payload). unfold read_payload.
  rewrite read_u32_app by (unfold u32_max in *; lia). simpl.
  by replace (MAX_PTY_BYTES_FRAME <? _) with true by lia.
Qed.

Lemma write_payload_Ok disc payload bs :
  write_payload disc payload = Ok bs ->
  zlen payload <= u32_max /\ bs = disc :: be32 (zlen payload) ++ payload.
Proof. unfold write_payload. destruct (_ <=? _) eqn:E; [|done]. intros [= <-]. bool_prop. done. Qed.

(** The decoder accepts at most 16 MiB per frame, whatever the peer announces. *)
Lemma read_payload_bound s buf rest :
  read_payload s = Ok (buf, rest) ->
  zlen buf <= MAX_PTY_BYTES_FRAME /\ exists len, length len = 4%nat /\ s = len ++ buf ++ rest.
Proof.
  unfold read_payload, read_u32.
  intros ([len rest0] & ([b r0] & H0 & [= <- <-])%obind_Ok_inv & H)%obind_Ok_inv.
  destruct (negb _) eqn:E; [|done]. bool_prop.
  apply read_exact_Ok in H0 as [-> Hb]; [|lia].
  assert (0 <= of_be b) by apply of_be_range.
  apply read_exact_Ok in H as [-> Hz]; [|done].
  split; [lia|]. exists b. split; [unfold zlen in Hb; lia | done].
Qed.

(** The payload a frame is sent with. *)
Definition payload_of (f : AttachClientFrame) : option str :=
  match f with
  | PtyBytes bytes => Some bytes
  | other => client_to_json other
  end.

Lemma read_written_frame f p bs rest :
  write_attach_frame f = Ok bs -> payload_of f = Some p -> zlen p <= MAX_PTY_BYTES_FRAME ->
  read_attach_frame (bs ++ rest) = Ok (Client f, rest).
Proof.
  intros Hw Hp Hl.
  assert (Hjson : forall g, f = g -> write_attach_frame g =
      (let? json := ok_or (client_to_json g) WriteJson in write_payload JSON_FRAME_DISCRIMINANT json) ->
    client_to_json g = Some p -> read_attach_frame (bs ++ rest) = Ok (Client g, rest)).
  { intros g -> Hg Hgp. rewrite Hg, Hgp in Hw. simpl in Hw. apply write_payload_Ok in Hw as [_ ->].
    cbn [app read_attach_frame]. rewrite bool_decide_eq_false_2, bool_decide_eq_true_2 by done.
    rewrite <- app_assoc, read_payload_app by done. simpl. rewrite (client_json _ _ Hgp).
    pose proof (pty_skipped p) as Hs. rewrite (client_json _ _ Hgp) in Hs.
    destruct g; [done| |done]. by destruct (Hs bytes). }
  destruct f as [sid v|bytes|reason]; [by apply Hjson| |by apply Hjson].
  simpl in Hp. injection Hp as <-. cbn [write_attach_frame] in Hw.
  apply write_payload_Ok in Hw as [_ ->]. cbn [app read_attach_frame].
  rewrite bool_decide_eq_true_2, <- app_assoc by done. by rewrite read_payload_app.
Qed.

(** a frame whose payload is at most 16 MiB is read back as it was written, and
    the reader is left exactly at the next frame. *)
Theorem attach_frame_roundtrip f p bs rest :
  write_attach_frame f = Ok bs -> payload_of f = Some p -> zlen p <= MAX_PTY_BYTES_FRAME ->
  read_attach_frame (bs ++ rest) = Ok (Client f, rest).
Proof. apply read_written_frame. Qed.

Lemma server_frame_roundtrip f p bs rest :
  write_attach_server_frame f = Ok bs -> server_to_json f = Some p -> zlen p <= MAX_PTY_BYTES_FRAME ->
  read_attach_frame (bs ++ rest) = Ok (Server f, rest).
Proof.
  unfold write_attach_server_frame. intros (j & Hj & [_ ->]%write_payload_Ok)%obind_Ok_inv Hp Hl.
  rewrite Hp in Hj. injection Hj as <-. cbn [app read_attach_frame].
  rewrite bool_decide_eq_false_2, bool_decide_eq_true_2 by done. rewrite <- app_assoc, read_payload_app by done.
  simpl. rewrite (kinds_disjoint _ _ Hp), (server_json _ _ Hp). done.
Qed.

(** the decoder never reports [JsonContainsPtyBytes]: the variant is not
    deserialisable, so such a frame fails as malformed JSON instead. *)
Theorem json_pty_error_unreachable s : read_attach_frame s <> Err JsonContainsPtyBytes.
Proof.
  destruct s as [|disc s]; cbn [read_attach_frame]; [done|].
  assert (Hrp : forall e, read_payload s = Err e -> e <> JsonContainsPtyBytes).
  { intros e H ->. unfold read_payload, read_u32, read_exact in H.
    destruct (4 <=? zlen s); [|done]. cbn [obind] in H. destruct (negb _); [|done].
    by destruct (_ <=? _). }
  case_bool_decide; [|case_bool_decide]; [| |done].
  - destruct (read_payload s) as [[buf rest]|e|] eqn:E; simpl; [done| |done]. intros [= ->]. by eapply Hrp.
  - destruct (read_payload s) as [[buf rest]|e|] eqn:E; simpl; [|intros [= ->]; by eapply Hrp|done].
    pose proof (pty_skipped buf) as Hs.
    destruct (client_of_json buf) as [[| |]|]; try done; [by specialize (Hs bytes)|].
    by destruct (server_of_json buf).
Qed.

(** the two ends disagree on the limit: a chunk between 16 MiB and 4 GiB is written
    and rejected by the reader. *)
Theorem oversized_frame_rejected bytes rest :
  MAX_PTY_BYTES_FRAME < zlen bytes <= u32_max ->
  exists bs, write_attach_frame (PtyBytes bytes) = Ok bs /\
    read_attach_frame (bs ++ rest) = Err (PtyBytesTooLarge (zlen bytes)).
Proof.
  intros H. eexists. split.
  - cbn [write_attach_frame]. unfold write_payload. by replace (_ <=? u32_max) with true by lia.
  - cbn [app read_attach_frame]. rewrite bool_decide_eq_true_2, <- app_assoc by done.
    by rewrite read_payload_large.
Qed.
End Codec.

(** ** A codec that satisfies the laws *)

(** Any value as bits, one per byte, behind a tag. *)
Fixpoint bits_of (p : positive) : str :=
  match p with
  | xH => []
  | xO p => x00 :: bits_of p
  | xI p => x01 :: bits_of p
  end.

Fixpoint of_bits (s : str) : option positive :=
  match s with
  | [] => Some xH
  | x00 :: s => xO <$> of_bits s
  | x01 :: s => xI <$> of_bits s
  | _ => None
  end.

Lemma of_bits_of p : of_bits (bits_of p) = Some p.
Proof. induction p; simpl; rewrite ?IHp; done. Qed.

Lemma of_bits_encode {A} `{Countable A} (x : A) : (p ← of_bits (bits_of (encode x)); decode p) = Some x.
Proof. rewrite of_bits_of. simpl. apply decode_encode. Qed.

Lemma utf8_bits p : utf8_valid (bits_of p) = true.
Proof. apply utf8_valid_ascii. induction p; simpl; repeat constructor; done. Qed.

Lemma bits_ascii p : Forall (fun b => b = x00 \/ b = x01) (bits_of p).
Proof. induction p; simpl; [constructor; auto..|constructor]. Qed.

Lemma bits_without b p : b <> x00 -> b <> x01 -> b ∉ bits_of p.
Proof. intros H0 H1. eapply not_elem_of_Forall; [apply bits_ascii|]. naive_solver. Qed.

Definition open_or_close := (str * Z + str)%type.
Definition ack_or_error := (Z + str)%type.

#[export, refine] Instance bits_json : AttachJson := {|
  client_to_json f :=
    match f with
    | AttachOpen sid v => Some (x43 :: bits_of (encode (inl (sid, v) : open_or_close)))
    | AttachClose r => Some (x43 :: bits_of (encode (inr r : open_or_close)))
    | PtyBytes _ => None
    end;
  client_of_json j :=
    match j with
    | x43 :: s =>
        match p ← of_bits s; decode p : option open_or_close with
        | Some (inl (sid, v)) => Some (AttachOpen sid v)
        | Some (inr r) => Some (AttachClose r)
        | None => None
        end
    | _ => None
    end;
  server_to_json f :=
    match f with
    | AttachAck v => Some (x53 :: bits_of (encode (inl v : ack_or_error)))
    | AttachError m => Some (x53 :: bits_of (encode (inr m : ack_or_error)))
    end;
  server_of_json j :=
    match j with
    | x53 :: s =>
        match p ← of_bits s; decode p : option ack_or_error with
        | Some (inl v) => Some (AttachAck v)
        | Some (inr m) => Some (AttachError m)
        | None => None
        end
    | _ => None
    end;
|}.
Proof.
  - intros [sid v|b|r] j Hj; [| done |]; apply (inj Some) in Hj; subst j; by rewrite of_bits_encode.
  - intros [v|m] j Hj; apply (inj Some) in Hj; subst j; by rewrite of_bits_encode.
  - by intros [v|m] j [= <-].
  - intros j b. destruct j as [|t s]; [done|]. destruct t; try done.
    by destruct (p ← of_bits s; decode p) as [[[]|]|].
Defined.

(** ** Witnesses *)

Lemma ipc_frame_roundtrip_witness :
  decode_frame (encode_frame (lit "{}") ++ lit "rest") = Ok (zlen (encode_frame (lit "{}")), lit "{}").
Proof. apply (ipc_frame_roundtrip (lit "{}") (lit "rest")). vm_compute. discriminate. Defined.

Lemma attach_frame_roundtrip_witness :
  exists bs, write_attach_frame (AttachOpen (lit "s1") 1) = Ok bs /\
    read_attach_frame (bs ++ lit "next") = Ok (Client (AttachOpen (lit "s1") 1), lit "next").
Proof.
  destruct (write_attach_frame (AttachOpen (lit "s1") 1)) as [bs| |] eqn:E;
    [|vm_compute in E; discriminate E|vm_compute in E; discriminate E].
  exists bs. split; [reflexivity|].
  apply (attach_frame_roundtrip (AttachOpen (lit "s1") 1)
    (default [] (client_to_json (AttachOpen (lit "s1") 1))) bs (lit "next") E);
    [vm_compute; reflexivity | vm_compute; discriminate].
Defined.

(** A 16 MiB chunk plus one byte, by length only. *)
Definition large_chunk : str := replicate (Z.to_nat (MAX_PTY_BYTES_FRAME + 1)) x61.

Lemma oversized_frame_rejected_witness :
  exists bs, write_attach_frame (PtyBytes large_chunk) = Ok bs /\
    read_attach_frame (bs ++ []) = Err (PtyBytesTooLarge (zlen large_chunk)).
Proof.
  apply (oversized_frame_rejected large_chunk []). unfold large_chunk, zlen.
  rewrite length_replicate, Z2Nat.id; unfold MAX_PTY_BYTES_FRAME, u32_max; lia.
Defined.
