(* ===== verification/AttachServer.v ===== *)
(** * The daemon's attach connections, end to end

    [handle_attach_client] of [aic-server/src/attach_server.rs] reads frames, feeds the
    session's processor in the pool and stores the records; [writer_loop] of
    [aic-server/src/attach_client.rs] is the other end. A connection is the byte stream
    the peer sends; the handler's effect is on the pool, the record store and the
    metrics. *)

From S2P Require Import Prelude RustStr Bytes Records OutputProcessor BoundaryDetector RecordStore SessionPool Attach.

Local Open Scope outcome_scope.

(** Why a connection is refused or ended with an error frame. *)
Inductive reject_reason :=
| FirstFrameNotOpen
| UnsupportedVersion (v : Z)
| SessionAlreadyOpen (sid : str)
| SecondOpen
| DecodeFailed (e : AttachDecodeError).

Record Daemon := {
  pool : SessionProcessorPool;
  records_store : Inner;
  attach_opens : Z;
  attach_connections : Z;
  central_store_pushes : Z;
}.

(** The task ends normally with its replies, or it panics: then no cleanup runs, and what
    is left is the table of open sessions and the connection gauge. *)
Inductive handled :=
| Finished (d : Daemon) (replies : list AttachServerFrame)
| TaskPanicked (open_sessions : gmap str nat) (connections : Z)
| OutOfFuel.

Section Handler.
Context {J : AttachJson}.
(** [strip_ansi_escapes::strip]; the clock of the k-th chunk; the identifier drawn at the
    n-th store push; the texts of the error replies. *)
Variable strip_ansi : str -> str.
Variable clocks : nat -> nat -> Z * Z.
Variable draw : Z -> Z.
Variable message : reject_reason -> str.

Definition push_record (sid : str) (d : Daemon) (r : CommandRecord) : Daemon := {|
  pool := pool d;
  records_store := (push_pty (draw (central_store_pushes d)) sid r (records_store d)).1;
  attach_opens := attach_opens d;
  attach_connections := attach_connections d;
  central_store_pushes := central_store_pushes d + 1;
|}.

Definition with_pool (p : SessionProcessorPool) (d : Daemon) : Daemon := {|
  pool := p; records_store := records_store d; attach_opens := attach_opens d;
  attach_connections := attach_connections d; central_store_pushes := central_store_pushes d |}.

(** [pool.close] and [dec_attach_connection] (the gauge saturates at zero). *)
Definition cleanup (sid : str) (d : Daemon) : Daemon := {|
  pool := close sid (pool d); records_store := records_store d; attach_opens := attach_opens d;
  attach_connections := Z.max 0 (attach_connections d - 1);
  central_store_pushes := central_store_pushes d |}.

(** The stream loop; the k-th chunk is read with the k-th clock. Every frame takes at
    least one byte, so fuel [S (length s)] is enough. *)
Fixpoint stream_loop (fuel k : nat) (sid s : str) (d : Daemon) : handled :=
  match fuel with
  | O => OutOfFuel
  | S fuel' =>
      match read_attach_frame s with
      | Ok (Client (PtyBytes bytes), rest) =>
          match feed strip_ansi (clocks k) sid bytes (pool d) with
          | Ok (p, rs) =>
              stream_loop fuel' (S k) sid rest (foldl (push_record sid) (with_pool p d) rs)
          | _ => TaskPanicked (active (pool d)) (attach_connections d)
          end
      | Ok (Client (AttachClose _), _) => Finished (cleanup sid d) []
      | Ok (Client (AttachOpen _ _), _) =>
          Finished (cleanup sid d) [AttachError (message SecondOpen)]
      | Ok (Server _, _) => Finished (cleanup sid d) []
      | Err UnexpectedEof => Finished (cleanup sid d) []
      | Err e => Finished (cleanup sid d) [AttachError (message (DecodeFailed e))]
      | Panic => TaskPanicked (active (pool d)) (attach_connections d)
      end
  end.

Definition opened (p : SessionProcessorPool) (d : Daemon) : Daemon := {|
  pool := p; records_store := records_store d; attach_opens := attach_opens d + 1;
  attach_connections := attach_connections d + 1;
  central_store_pushes := central_store_pushes d |}.

Definition add_reply (f : AttachServerFrame) (h : handled) : handled :=
  match h with
  | Finished d fs => Finished d (f :: fs)
  | h => h
  end.

(** [handle_attach_client]: [same_uid] is the peer credential check, [ack_sent] whether
    the acknowledgement could be written. *)
Definition handle_attach_client (same_uid ack_sent : bool) (s : str) (d : Daemon) : handled :=
  if negb same_uid then Finished d []
  else
    match read_attach_frame s with
    | Ok (Client (AttachOpen sid v), rest) =>
        if negb (v =? ATTACH_PROTOCOL_VERSION)
        then Finished d [AttachError (message (UnsupportedVersion v))]
        else
          match open sid (pool d) with
          | Ok p =>
              if ack_sent
              then add_reply (AttachAck ATTACH_PROTOCOL_VERSION)
                     (stream_loop (S (length rest)) 0 sid rest (opened p d))
              else Finished (with_pool (close sid p) d) []
          | _ => Finished d [AttachError (message (SessionAlreadyOpen sid))]
          end
    | Ok (Client (AttachClose _), _) => Finished d []
    | Ok _ => Finished d [AttachError (message FirstFrameNotOpen)]
    | _ => Finished d []
    end.

(** ** The stream loop consumes its input *)

Lemma read_payload_shorter s buf rest :
  read_payload s = Ok (buf, rest) -> (length rest <= length s)%nat.
Proof. intros (_ & len & _ & ->)%read_payload_bound. rewrite !length_app. lia. Qed.

Lemma read_attach_frame_shorter s f rest :
  read_attach_frame s = Ok (f, rest) -> (length rest < length s)%nat.
Proof.
  destruct s as [|disc s]; cbn [read_attach_frame]; [done|]. simpl length.
  case_bool_decide; [|case_bool_decide]; [| |done].
  - intros ([buf r] & Hr%read_payload_shorter & [= _ <-])%obind_Ok_inv. lia.
  - intros ([buf r] & Hr%read_payload_shorter & H2)%obind_Ok_inv.
    assert (r = rest); [|subst; lia].
    destruct (client_of_json buf) as [[| |]|]; simplify_eq/=; try done.
    destruct (server_of_json buf); by simplify_eq/=.
Qed.

Lemma read_attach_frame_no_panic s : read_attach_frame s <> Panic.
Proof.
  destruct s as [|disc s]; cbn [read_attach_frame]; [done|].
  assert (Hp : read_payload s <> Panic).
  { unfold read_payload, read_u32, read_exact. destruct (4 <=? _); [|done]. cbn [obind].
    destruct (negb _); [|done]. by destruct (_ <=? _). }
  case_bool_decide; [|case_bool_decide]; [| |done];
    destruct (read_payload s) as [[buf rest]| |]; try done; simpl.
  destruct (client_of_json buf) as [[| |]|]; try done. by destruct (server_of_json buf).
Qed.

(** What the loop does to the table of sessions and the gauge, however it ends. *)
Lemma foldl_push_pool sid rs d :
  pool (foldl (push_record sid) d rs) = pool d /\
  attach_connections (foldl (push_record sid) d rs) = attach_connections d /\
  attach_opens (foldl (push_record sid) d rs) = attach_opens d.
Proof. revert d; induction rs as [|r rs IH]; intros d; [done|]. apply (IH (push_record sid d r)). Qed.

Lemma feed_active clock sid bytes p p' rs :
  feed strip_ansi clock sid bytes p = Ok (p', rs) -> active p' = active p.
Proof.
  unfold feed. case_goal; [destruct p0|]; [|by intros [= <- _]].
  by intros ([sp' rs'] & _ & [= <- _])%obind_Ok_inv.
Qed.

Definition loop_post (sid : str) (d : Daemon) (h : handled) : Prop :=
  match h with
  | Finished d' _ =>
      active (pool d') = delete sid (active (pool d)) /\
      attach_connections d' = Z.max 0 (attach_connections d - 1) /\
      attach_opens d' = attach_opens d
  | TaskPanicked os c => os = active (pool d) /\ c = attach_connections d
  | OutOfFuel => False
  end.

Lemma stream_loop_post fuel k sid s d :
  (length s < fuel)%nat -> loop_post sid d (stream_loop fuel k sid s d).
Proof.
  revert k s d; induction fuel as [|fuel IH]; intros k s d Hf; [lia|]. cbn [stream_loop].
  destruct (read_attach_frame s) as [[[[| |]|] rest]|e|] eqn:R; try done;
    [|by destruct e].
  destruct (feed _ _ _ _ _) as [[p rs]| |] eqn:F; try done.
  apply read_attach_frame_shorter in R. apply feed_active in F.
  destruct (foldl_push_pool sid rs (with_pool p d)) as (H1 & H2 & H3).
  specialize (IH (S k) rest (foldl (push_record sid) (with_pool p d) rs) ltac:(lia)).
  unfold loop_post in *. rewrite H1, H2, H3 in IH. simpl in IH. by rewrite F in IH.
Qed.

(** ** Properties *)

(** every connection ends (the handler never runs out of input budget), and when it
    ends without a panic, on whatever bytes the peer sent, the table of open sessions and
    the connection gauge are as before it. *)
Theorem connection_cleans_up same_uid ack_sent s d :
  0 <= attach_connections d ->
  match handle_attach_client same_uid ack_sent s d with
  | Finished d' _ =>
      active (pool d') = active (pool d) /\ attach_connections d' = attach_connections d
  | TaskPanicked _ _ => True
  | OutOfFuel => False
  end.
Proof.
  intros H0. unfold handle_attach_client. destruct same_uid; [|done]. simpl negb. cbv iota.
  destruct (read_attach_frame s) as [[[[sid v| |]|] rest]|e|] eqn:R; try done.
  destruct (negb _); [done|]. destruct (open sid (pool d)) as [p| |] eqn:O; try done.
  unfold open in O. destruct (active (pool d) !! sid) eqn:L; [done|]. injection O as <-.
  destruct ack_sent; [|split; [simpl; by rewrite delete_insert_id | done]].
  pose proof (stream_loop_post (S (length rest)) 0 sid rest
    (opened {| active := <[sid := next_loc (pool d)]> (active (pool d));
               heap := <[next_loc (pool d) := new_processor]> (heap (pool d));
               next_loc := S (next_loc (pool d)) |} d) ltac:(lia)) as Hp.
  destruct (stream_loop _ _ _ _ _); simpl in *; [|done|done].
  destruct Hp as (-> & -> & _). split; [by rewrite delete_insert_id | lia].
Qed.

(** when the handler panics there is no cleanup: the session stays in the table
    (so that every later open of it is refused) and the gauge keeps counting it. *)
Theorem panic_leaks_session same_uid ack_sent s d os c :
  handle_attach_client same_uid ack_sent s d = TaskPanicked os c ->
  exists sid, active (pool d) !! sid = None /\ is_Some (os !! sid) /\
    c = attach_connections d + 1.
Proof.
  unfold handle_attach_client. destruct same_uid; [|done]. simpl negb. cbv iota.
  destruct (read_attach_frame s) as [[[[sid v| |]|] rest]|e|] eqn:R; try done.
  destruct (negb _); [done|]. destruct (open sid (pool d)) as [p| |] eqn:O; try done.
  unfold open in O. destruct (active (pool d) !! sid) eqn:L; [done|]. injection O as <-.
  destruct ack_sent; [|done]. intros H. exists sid. split; [done|].
  pose proof (stream_loop_post (S (length rest)) 0 sid rest
    (opened {| active := <[sid := next_loc (pool d)]> (active (pool d));
               heap := <[next_loc (pool d) := new_processor]> (heap (pool d));
               next_loc := S (next_loc (pool d)) |} d) ltac:(lia)) as Hp.
  destruct (stream_loop _ _ _ _ _); simpl in *; [done| |done]. injection H as <- <-.
  destruct Hp as [-> ->]. split; [|done]. simpl. rewrite lookup_insert_eq. eauto.
Qed.

(** ** The client's end *)

(** [writer_loop]: the chunks received from the channel, then the close frame; a failed
    write ends the loop and signals a reconnection. *)
Fixpoint writer_loop (chunks : list str) : str * bool :=
  match chunks with
  | [] =>
      match write_attach_frame (AttachClose (lit "aic-session shutdown")) with
      | Ok bs => (bs, false)
      | _ => ([], false)
      end
  | b :: rest =>
      match write_attach_frame (PtyBytes b) with
      | Ok bs => let '(out, signal) := writer_loop rest in (bs ++ out, signal)
      | _ => ([], true)
      end
  end.

(** The chunks with the clocks they are processed with. *)
Definition clocked (k : nat) (chunks : list str) : list ((nat -> Z * Z) * str) :=
  imap (fun i c => (clocks (k + i), c)) chunks.

Lemma clocked_cons k c chunks : clocked k (c :: chunks) = (clocks k, c) :: clocked (S k) chunks.
Proof.
  unfold clocked. rewrite imap_cons, Nat.add_0_r. f_equal. apply imap_ext. intros i x _. simpl.
  by rewrite Nat.add_succ_r.
Qed.

Lemma push_with_pool sid p rs d :
  foldl (push_record sid) (with_pool p d) rs = with_pool p (foldl (push_record sid) d rs).
Proof. revert d; induction rs as [|r rs IH]; intros d; [done|]. apply (IH (push_record sid d r)). Qed.

(** The close frame can be sent. *)
Definition close_sendable : Prop :=
  exists j, client_to_json (AttachClose (lit "aic-session shutdown")) = Some j /\
    zlen j <= MAX_PTY_BYTES_FRAME.

Lemma write_sendable f p :
  payload_of f = Some p -> zlen p <= MAX_PTY_BYTES_FRAME ->
  exists bs, write_attach_frame f = Ok bs /\
    forall rest, read_attach_frame (bs ++ rest) = Ok (Client f, rest).
Proof.
  intros Hp Hl.
  assert (Hw : exists bs, write_attach_frame f = Ok bs).
  { assert (Hle : zlen p <=? u32_max = true) by (unfold MAX_PTY_BYTES_FRAME, u32_max in *; lia).
    destruct f; simpl in *; rewrite ?Hp; simplify_eq/=; unfold write_payload; rewrite Hle; eauto. }
  destruct Hw as [bs Hw]. exists bs. split; [done|]. intros rest. by eapply read_written_frame.
Qed.

Lemma stream_loop_chunks chunks sp sp' rs fuel k sid d :
  close_sendable -> Forall (fun b => zlen b <= MAX_PTY_BYTES_FRAME) chunks ->
  pool_wf (pool d) -> view sid (pool d) = Some sp ->
  feed_chunks strip_ansi (clocked k chunks) sp = Ok (sp', rs) ->
  (length (writer_loop chunks).1 < fuel)%nat ->
  exists d', stream_loop fuel k sid (writer_loop chunks).1 d = Finished d' [] /\
    records_store d' = records_store (foldl (push_record sid) d rs) /\
    forall s, view s (pool d') = if decide (s = sid) then None else view s (pool d).
Proof.
  intros (j & Hj & Hjl) Hc. revert sp rs fuel k d.
  induction Hc as [|b chunks Hb Hc IH]; intros sp rs fuel k d Hwf Hv Hf Hfuel;
    (destruct fuel as [|fuel]; [lia|]).
  - injection Hf as <- <-. cbn [writer_loop stream_loop].
    destruct (write_sendable (AttachClose (lit "aic-session shutdown")) j) as (bs & -> & Hr); [done|done|].
    specialize (Hr []). rewrite app_nil_r in Hr. simpl. rewrite Hr.
    eexists. split; [done|]. split; [done|]. apply close_spec. done.
  - rewrite clocked_cons in Hf. cbn [feed_chunks] in Hf.
    apply obind_Ok_inv in Hf as ([sp1 r1] & H1 & ([sp2 r2] & H2 & [= <- <-])%obind_Ok_inv).
    destruct (write_sendable (PtyBytes b) b eq_refl Hb) as (bs & Hw & Hr).
    cbn [writer_loop] in *. rewrite Hw in *. destruct (writer_loop chunks) as [out signal]. simpl in *.
    rewrite Hr.
    assert (Hfd : exists p1, feed strip_ansi (clocks k) sid b (pool d) = Ok (p1, r1)).
    { unfold view in Hv. unfold feed. destruct (active (pool d) !! sid); [|done]. simpl in *.
      rewrite Hv. simpl. rewrite H1. simpl. eauto. }
    destruct Hfd as [p1 Hfd]. rewrite Hfd, push_with_pool.
    apply feed_spec in Hfd as (Hwf1 & Hs & Ho); [|done]. rewrite Hv in Hs. simpl in Hs. rewrite H1 in Hs.
    injection Hs as Hs.
    edestruct (IH sp1 r2 fuel (S k) (with_pool p1 (foldl (push_record sid) d r1))) as (d' & E & Es & Ev); try done.
    { assert (bs <> []) by (intros ->; cbn [write_attach_frame] in Hw; by apply write_payload_Ok in Hw as [_ ?]).
      rewrite length_app in Hfuel. destruct bs; simpl in *; [done|lia]. }
    exists d'. split; [done|]. split.
    + rewrite Es, push_with_pool, foldl_app. done.
    + intros s. rewrite Ev. case_decide; [done|]. simpl. by apply Ho.
Qed.

(** C28: end to end, from the client's channel to the daemon's store: the handler
    acknowledges the session, every chunk the client wrote reaches the session's processor
    in order, exactly the records of those chunks are pushed to the store of that session,
    and the other sessions of the pool are untouched. *)
Theorem attach_end_to_end sid chunks open_bytes d sp' rs jo :
  close_sendable -> Forall (fun b => zlen b <= MAX_PTY_BYTES_FRAME) chunks ->
  client_to_json (AttachOpen sid ATTACH_PROTOCOL_VERSION) = Some jo ->
  zlen jo <= MAX_PTY_BYTES_FRAME ->
  write_attach_frame (AttachOpen sid ATTACH_PROTOCOL_VERSION) = Ok open_bytes ->
  pool_wf (pool d) -> active (pool d) !! sid = None ->
  feed_chunks strip_ansi (clocked 0 chunks) new_processor = Ok (sp', rs) ->
  exists d', handle_attach_client true true (open_bytes ++ (writer_loop chunks).1) d =
      Finished d' [AttachAck ATTACH_PROTOCOL_VERSION] /\
    records_store d' = records_store (foldl (push_record sid) d rs) /\
    forall s, view s (pool d') = view s (pool d).
Proof.
  intros Hcl Hch Hjo Hjl Hw Hwf Hopen Hfeed. unfold handle_attach_client. simpl negb. cbv iota.
  rewrite (read_written_frame _ jo _ _ Hw Hjo Hjl). rewrite Z.eqb_refl. simpl negb. cbv iota.
  destruct (open sid (pool d)) as [p| |] eqn:O;
    [|unfold open in O; by rewrite Hopen in O|unfold open in O; by rewrite Hopen in O].
  destruct (open_spec _ _ _ Hwf O) as (Hwf1 & Hnone & Hview).
  edestruct (stream_loop_chunks chunks new_processor sp' rs (S (length (writer_loop chunks).1)) 0 sid (opened p d))
    as (d' & E & Es & Ev); try done; [simpl; by rewrite Hview, decide_True | lia |].
  rewrite E. exists d'. split; [done|]. split.
  - rewrite Es. clear. revert d. induction rs as [|r rs IH]; intros d; [done|].
    simpl. apply (IH (push_record sid d r)).
  - intros s. rewrite Ev. simpl. rewrite Hview. case_decide; [by subst|done].
Qed.
End Handler.

(** ** Witnesses *)

Definition idle_daemon : Daemon :=
  {| pool := empty_pool; records_store := empty_store; attach_opens := 0; attach_connections := 0;
     central_store_pushes := 0 |}.

Definition same_clock (_ _ : nat) : Z * Z := (0, 7).
Definition no_text (_ : reject_reason) : str := [].

Definition sample_chunks : list str :=
  [command_marker (lit "make"); lit "error: x"; completion_marker 2].

Definition open_frame : str :=
  match write_attach_frame (AttachOpen (lit "s1") 1) with Ok bs => bs | _ => [] end.
Definition open_json : str := default [] (client_to_json (AttachOpen (lit "s1") 1)).

Lemma attach_end_to_end_witness :
  exists d', handle_attach_client (strip_osc false) same_clock Z.abs no_text true true
      (open_frame ++ (writer_loop sample_chunks).1) idle_daemon = Finished d' [AttachAck 1] /\
    length (default [] (finished (records_store d') !! lit "s1")) = 1%nat.
Proof.
  edestruct (attach_end_to_end (strip_osc false) same_clock Z.abs no_text (lit "s1") sample_chunks
    open_frame idle_daemon) as (d' & H1 & H2 & _).
  - eexists. split; [vm_compute; reflexivity | vm_compute; discriminate].
  - repeat constructor; vm_compute; discriminate.
  - instantiate (1 := open_json). vm_compute. reflexivity.
  - vm_compute. discriminate.
  - vm_compute. reflexivity.
  - exact empty_pool_wf.
  - reflexivity.
  - vm_compute. reflexivity.
  - exists d'. split; [exact H1|]. rewrite H2. vm_compute. reflexivity.
Defined.

Lemma connection_cleans_up_witness :
  match handle_attach_client (strip_osc false) same_clock Z.abs no_text true true
    (open_frame ++ lit "junk") idle_daemon with
  | Finished d' _ =>
      active (pool d') = active (pool idle_daemon) /\ attach_connections d' = attach_connections idle_daemon
  | TaskPanicked _ _ => True
  | OutOfFuel => False
  end.
Proof.
  apply (connection_cleans_up (strip_osc false) same_clock Z.abs no_text true true
    (open_frame ++ lit "junk") idle_daemon). simpl. lia.
Defined.

(** A marker that makes the detector panic, sent as a chunk. *)
Definition panicking_stream : str := open_frame ++ (writer_loop [panicking_marker]).1.

Lemma panic_leaks_session_witness :
  exists sid, active (pool idle_daemon) !! sid = None /\
    exists os c, handle_attach_client (strip_osc false) same_clock Z.abs no_text true true
      panicking_stream idle_daemon = TaskPanicked os c /\ is_Some (os !! sid) /\ c = 1.
Proof.
  destruct (handle_attach_client (strip_osc false) same_clock Z.abs no_text true true
      panicking_stream idle_daemon) as [d rs|os c|] eqn:E;
    [exfalso; vm_compute in E; discriminate E | | exfalso; vm_compute in E; discriminate E].
  destruct (panic_leaks_session (strip_osc false) same_clock Z.abs no_text true true panicking_stream
    idle_daemon os c E) as (sid & H1 & H2 & H3).
  exists sid. split; [exact H1|]. exists os, c. split; [reflexivity|]. split; [exact H2 | exact H3].
Defined.
