(* ===== verification/Gate.v ===== *)
(** * Boundary ownership and reconnection

    [aic-server/src/boundary_ownership_gate.rs]: which path (session or daemon) may emit
    records, and the reconnection loop with exponential backoff. Durations are
    nanoseconds; the loop's callbacks are oracles indexed by the number of the call. *)

From S2P Require Import Prelude RustStr.

(** ** The gate *)

Inductive BoundaryOwner := Local | Central | Transferring.

#[export] Instance BoundaryOwner_eq_dec : EqDecision BoundaryOwner.
Proof. solve_decision. Defined.

(** [owner as u8] and [from_u8] *)
Definition to_u8 (o : BoundaryOwner) : Z :=
  match o with Local => 0 | Central => 1 | Transferring => 2 end.
Definition from_u8 (v : Z) : BoundaryOwner :=
  if v =? 1 then Central else if v =? 2 then Transferring else Local.

Record BoundaryOwnershipGate := { owner_cell : Z }.

Definition new_gate (initial : BoundaryOwner) : BoundaryOwnershipGate := {| owner_cell := to_u8 initial |}.
Definition new_local := new_gate Local.
Definition new_central := new_gate Central.
Definition owner (g : BoundaryOwnershipGate) : BoundaryOwner := from_u8 (owner_cell g).
Definition local_should_emit (g : BoundaryOwnershipGate) : bool :=
  match owner g with Local | Transferring => true | Central => false end.
Definition central_should_emit (g : BoundaryOwnershipGate) : bool :=
  match owner g with Central | Transferring => true | Local => false end.
Definition mark_transferring (g : BoundaryOwnershipGate) : BoundaryOwnershipGate :=
  {| owner_cell := to_u8 Transferring |}.
Definition transfer_to_central (g : BoundaryOwnershipGate) : BoundaryOwnershipGate :=
  {| owner_cell := to_u8 Central |}.
Definition transfer_to_local (g : BoundaryOwnershipGate) : BoundaryOwnershipGate :=
  {| owner_cell := to_u8 Local |}.

(** ** Backoff *)

Definition secs (n : Z) : Z := n * 1000000000.
Definition INITIAL_BACKOFF : Z := secs 1.
Definition MAX_BACKOFF : Z := secs 30.
(** [Duration::MAX] *)
Definition DURATION_MAX : Z := secs u64_max + 999999999.

Definition next_backoff (prev : Z) : Z :=
  if prev <? INITIAL_BACKOFF then INITIAL_BACKOFF
  else
    let doubled := Z.min (prev * 2) DURATION_MAX in
    if MAX_BACKOFF <? doubled then MAX_BACKOFF else doubled.

Inductive ReconnectOutcome :=
| Connected (attempts : Z)
| Cancelled.

(** What the loop leaves: the gate, the reconnection counter, the delays slept. *)
Record loop_state := {
  gate : BoundaryOwnershipGate;
  attach_reconnect_total : Z;
  slept : list Z;
}.

Section Reconnect.
(** [connect n] is the result of the attempt numbered [n], [cancel k] that of the k-th
    poll of the shutdown flag. *)
Variable connect : Z -> bool.
Variable cancel : nat -> bool.

(** The loop; [None] when the budget of iterations is used up. *)
Fixpoint reconnect_loop (fuel polls : nat) (backoff attempts : Z) (st : loop_state)
    : option (ReconnectOutcome * loop_state) :=
  match fuel with
  | O => None
  | S fuel' =>
      if cancel polls then Some (Cancelled, st)
      else
        let attempts := Z.min (attempts + 1) u32_max in
        if connect attempts then
          Some (Connected attempts,
                {| gate := transfer_to_central (gate st);
                   attach_reconnect_total := attach_reconnect_total st; slept := slept st |})
        else
          reconnect_loop fuel' (S polls) (next_backoff backoff) attempts
            {| gate := gate st; attach_reconnect_total := attach_reconnect_total st + 1;
               slept := slept st ++ [backoff] |}
  end.

Definition reconnect_with_backoff (fuel : nat) (st : loop_state) :=
  reconnect_loop fuel 0 INITIAL_BACKOFF 0 st.

(** ** The schedule *)

(** The documented schedule: powers of two up to thirty seconds. *)
Definition schedule (k : nat) : Z := secs (Z.min (2 ^ Z.of_nat k) 30).

Lemma next_backoff_schedule k : next_backoff (schedule k) = schedule (S k).
Proof.
  unfold next_backoff, schedule, INITIAL_BACKOFF, MAX_BACKOFF, DURATION_MAX, secs, u64_max.
  rewrite Nat2Z.inj_succ, Z.pow_succ_r by lia.
  assert (1 <= 2 ^ Z.of_nat k) by (pose proof (Z.pow_pos_nonneg 2 (Z.of_nat k)); lia).
  destruct (_ <? 1 * _) eqn:E1; [lia|]. destruct (30 * _ <? _) eqn:E2; lia.
Qed.

Definition delays (k n : nat) : list Z := schedule <$> seq k n.

Lemma delays_S k n : delays k (S n) = schedule k :: delays (S k) n.
Proof. done. Qed.

Definition after (k n : nat) (st : loop_state) : loop_state :=
  {| gate := gate st; attach_reconnect_total := attach_reconnect_total st + Z.of_nat n;
     slept := slept st ++ delays k n |}.

(** [n] failed attempts from the k-th on. *)
Lemma reconnect_failures n k fuel st :
  (forall i, (k <= i < k + n)%nat -> cancel i = false /\ connect (Z.of_nat i + 1) = false) ->
  Z.of_nat (k + n) < u32_max -> (n <= fuel)%nat ->
  reconnect_loop fuel k (schedule k) (Z.of_nat k) st =
  reconnect_loop (fuel - n) (k + n) (schedule (k + n)) (Z.of_nat (k + n)) (after k n st).
Proof.
  revert k fuel st; induction n as [|n IH]; intros k fuel st Hf Hm Hfu.
  - rewrite Nat.sub_0_r, Nat.add_0_r. f_equal. unfold after. simpl.
    rewrite app_nil_r, Z.add_0_r. by destruct st.
  - destruct fuel as [|fuel]; [lia|]. cbn [reconnect_loop].
    destruct (Hf k ltac:(lia)) as [-> Hc]. rewrite Z.min_l by lia. rewrite Hc, next_backoff_schedule.
    replace (Z.of_nat k + 1) with (Z.of_nat (S k)) by lia.
    rewrite IH; [|intros i Hi; apply Hf; lia|lia|lia].
    replace (S k + n)%nat with (k + S n)%nat by lia. f_equal. unfold after. simpl.
    rewrite <- app_assoc. f_equal. lia.
Qed.

(** ** Properties *)

(** if the first [n] attempts fail and nothing cancels the loop, it sleeps exactly
    1, 2, 4, 8, 16, 30, 30, ... seconds, counts [n] reconnections, and connects at attempt
    [n + 1], which hands the boundary to the daemon; the loop terminates within [n + 1]
    iterations. *)
Theorem reconnect_schedule n fuel st :
  (forall i, (i < n)%nat -> cancel i = false /\ connect (Z.of_nat i + 1) = false) ->
  cancel n = false -> connect (Z.of_nat n + 1) = true ->
  Z.of_nat n < u32_max -> (n < fuel)%nat ->
  exists st', reconnect_with_backoff fuel st = Some (Connected (Z.of_nat n + 1), st') /\
    slept st' = slept st ++ (schedule <$> seq 0 n) /\
    attach_reconnect_total st' = attach_reconnect_total st + Z.of_nat n /\
    local_should_emit (gate st') = false /\ central_should_emit (gate st') = true.
Proof.
  intros Hf Hc Hk Hm Hfu. unfold reconnect_with_backoff.
  change INITIAL_BACKOFF with (schedule 0). change 0 with (Z.of_nat 0) at 1.
  rewrite (reconnect_failures n 0 fuel st); [|intros i Hi; apply Hf; lia|lia|lia].
  destruct (fuel - n)%nat as [|f] eqn:E; [lia|]. simpl Nat.add. cbn [reconnect_loop].
  rewrite Hc, Z.min_l, Hk by lia. eexists. split; [done|]. done.
Qed.

(** C2: cancelling before the k-th attempt stops the loop with the gate untouched. *)
Theorem reconnect_cancelled n fuel st :
  (forall i, (i < n)%nat -> cancel i = false /\ connect (Z.of_nat i + 1) = false) ->
  cancel n = true -> Z.of_nat n < u32_max -> (n < fuel)%nat ->
  exists st', reconnect_with_backoff fuel st = Some (Cancelled, st') /\
    gate st' = gate st /\ slept st' = slept st ++ (schedule <$> seq 0 n).
Proof.
  intros Hf Hc Hm Hfu. unfold reconnect_with_backoff.
  change INITIAL_BACKOFF with (schedule 0). change 0 with (Z.of_nat 0) at 1.
  rewrite (reconnect_failures n 0 fuel st); [|intros i Hi; apply Hf; lia|lia|lia].
  destruct (fuel - n)%nat as [|f] eqn:E; [lia|]. simpl Nat.add. cbn [reconnect_loop].
  rewrite Hc. eexists. done.
Qed.
End Reconnect.

(** Only during a transfer may both paths emit, and some path always may. *)
Lemma emitters_exclusive g :
  (local_should_emit g && central_should_emit g = bool_decide (owner g = Transferring)) /\
  (local_should_emit g || central_should_emit g = true).
Proof. unfold local_should_emit, central_should_emit. by destruct (owner g). Qed.

(** ** Witnesses *)

Definition initial_state : loop_state :=
  {| gate := new_local; attach_reconnect_total := 0; slept := [] |}.

Lemma reconnect_schedule_witness :
  exists st', reconnect_with_backoff (fun a => a =? 8) (fun _ => false) 9 initial_state
      = Some (Connected 8, st') /\
    slept st' = [secs 1; secs 2; secs 4; secs 8; secs 16; secs 30; secs 30].
Proof.
  destruct (reconnect_schedule (fun a => a =? 8) (fun _ => false) 7 9 initial_state)
    as (st' & H1 & H2 & _); [|reflexivity|reflexivity|unfold u32_max; lia|lia|].
  - intros i Hi. split; [reflexivity|lia].
  - exists st'. split; [exact H1 | rewrite H2; vm_compute; reflexivity].
Defined.

Lemma reconnect_cancelled_witness :
  exists st', reconnect_with_backoff (fun _ => false) (fun k => (2 <=? k)%nat) 5 initial_state
      = Some (Cancelled, st') /\ slept st' = [secs 1; secs 2].
Proof.
  destruct (reconnect_cancelled (fun _ => false) (fun k => (2 <=? k)%nat) 2 5 initial_state)
    as (st' & H1 & _ & H2); [|reflexivity|unfold u32_max; lia|lia|].
  - intros i Hi. split; [apply Nat.leb_gt; lia|reflexivity].
  - exists st'. split; [exact H1 | rewrite H2; vm_compute; reflexivity].
Defined.
