(* ===== verification/PerfData.v ===== *)
(** * HotSpot PerfData parsing

    [aic-common/src/jvm_perfdata.rs], the bounded parser of a JVM's performance counters.
    Positions are [usize] values as integers; [checked_add] on them fails above 64 bits,
    and direct indexing panics out of range. *)

From S2P Require Import Prelude RustStr Bytes.

Local Open Scope outcome_scope.

Definition MAX_PERFDATA_BYTES : Z := 1024 * 1024.
Definition MAX_ENTRIES : Z := 4096.
Definition MAX_NAME_BYTES : Z := 256.
Definition MAX_STRING_BYTES : Z := 4096.
Definition PROLOGUE_LEN : Z := 32.
Definition ENTRY_HEADER_LEN : Z := 20.
Definition MAGIC : str := [xca; xfe; xc0; xc0].

Definition METRIC_NAMES : list str :=
  [lit "java.threads.started"; lit "java.threads.live"; lit "java.threads.livePeak";
   lit "java.threads.daemon"; lit "java.cls.loadedClasses"; lit "java.cls.sharedLoadedClasses";
   lit "java.cls.unloadedClasses"; lit "java.cls.sharedUnloadedClasses"].

Inductive ParseError :=
| InputTooLarge | InvalidMagic | UnsupportedFormat | Inaccessible | Overflow | Malformed
| LimitExceeded | MissingMetric | DuplicateMetric | InvalidMetric | InvariantViolation.

#[export] Instance ParseError_eq_dec : EqDecision ParseError.
Proof. solve_decision. Defined.

Record JvmPerfDataMetrics := {
  threads_started_total : Z;
  threads_live : Z;
  threads_peak : Z;
  threads_daemon : Z;
  classes_loaded : Z;
  classes_unloaded_total : Z;
}.

Inductive ByteOrder := Big | Little.

Record PerfDataPrologue := {
  byte_order : byte;
  accessible : byte;
  used : Z;
  overflow : Z;
  modification_timestamp : Z;
  entry_offset : Z;
  entry_count : Z;
}.

Abbreviation result A := (outcome A ParseError).

(** ** Primitives *)

Definition usize_max : Z := u64_max.

Definition checked_add (a b : Z) : result Z :=
  guard a + b <=? usize_max else Malformed in Ok (a + b).
Definition checked_mul (a b : Z) : result Z :=
  guard a * b <=? usize_max else Malformed in Ok (a * b).

Definition order_value (o : ByteOrder) (s : str) : Z :=
  match o with Big => of_be s | Little => of_le s end.

(** [ByteOrder::i32] and [i64]: the slice must have the array's length. *)
Definition order_i32 (o : ByteOrder) (s : str) : result Z :=
  guard zlen s =? 4 else Malformed in Ok (signed 32 (order_value o s)).
Definition order_i64 (o : ByteOrder) (s : str) : result Z :=
  guard zlen s =? 8 else Malformed in Ok (signed 64 (order_value o s)).

Definition nonnegative_usize (v : Z) : result Z := guard 0 <=? v else Malformed in Ok v.

Definition primitive_size (data_type : byte) : option Z :=
  match data_type with
  | x5a | x42 => Some 1
  | x43 | x53 => Some 2
  | x49 | x46 => Some 4
  | x4a | x44 => Some 8
  | _ => None
  end.

Definition ranges_overlap (left_start left_end right_start right_end : Z) : bool :=
  (left_start <? right_end) && (right_start <? left_end).

(** [s.get(a..b).ok_or(Malformed)] *)
Definition get_slice (a b : Z) (s : str) : result str := ok_or (slice a b s) Malformed.

(** An [i32] field of a fixed-size header. *)
Definition field_i32 (o : ByteOrder) (a : Z) (s : str) : result Z :=
  let? b := index_slice a (a + 4) s in order_i32 o b.
Definition field_usize (o : ByteOrder) (a : Z) (s : str) : result Z :=
  let? v := field_i32 o a s in nonnegative_usize v.

Definition order_of (b : byte) : option ByteOrder :=
  match b with x00 => Some Big | x01 => Some Little | _ => None end.

(** ** Prologue *)

Definition decode_prologue (input : str) : result PerfDataPrologue :=
  let? prologue := get_slice 0 PROLOGUE_LEN input in
  let? magic := index_slice 0 4 prologue in
  guard bool_decide (magic = MAGIC) else InvalidMagic in
  let? b4 := index_byte 4 prologue in
  let? order := ok_or (order_of b4) UnsupportedFormat in
  let? b5 := index_byte 5 prologue in
  let? b6 := index_byte 6 prologue in
  guard bool_decide (b5 = x02) && bool_decide (b6 = x00) else UnsupportedFormat in
  let? b7 := index_byte 7 prologue in
  guard bool_decide (b7 = x01) else Inaccessible in
  let? used := field_usize order 8 prologue in
  let? overflow := field_i32 order 12 prologue in
  let? ts := index_slice 16 24 prologue in
  let? ts := order_i64 order ts in
  let? entry_offset := field_usize order 24 prologue in
  let? entry_count := field_usize order 28 prologue in
  Ok {| byte_order := b4; accessible := b7; used := used; overflow := overflow;
        modification_timestamp := ts; entry_offset := entry_offset; entry_count := entry_count |}.

(** ** Required metrics *)

(** [RequiredValues]: one slot per name. *)
Abbreviation RequiredValues := (list (option Z)).

Fixpoint index_of (names : list str) (name : str) : option nat :=
  match names with
  | [] => None
  | n :: ns => if bool_decide (name = n) then Some 0%nat else S <$> index_of ns name
  end.

Definition required_index (name : str) : option nat := index_of METRIC_NAMES name.

Definition required_insert (index : nat) (value : Z) (vs : RequiredValues) : result RequiredValues :=
  match vs !! index with
  | None => Panic
  | Some (Some _) => Err DuplicateMetric
  | Some None => Ok (<[index := Some value]> vs)
  end.

Definition u64_checked_add (a b : Z) : result Z :=
  guard a + b <=? u64_max else InvalidMetric in Ok (a + b).
Definition u64_checked_sub (a b : Z) : result Z :=
  guard b <=? a else InvalidMetric in Ok (a - b).

Definition required_finish (vs : RequiredValues) : result JvmPerfDataMetrics :=
  match vs with
  | [started; live; peak; daemon; loaded; shared_loaded; unloaded; shared_unloaded] =>
      let? started := ok_or started MissingMetric in
      let? live := ok_or live MissingMetric in
      let? peak := ok_or peak MissingMetric in
      let? daemon := ok_or daemon MissingMetric in
      let? loaded := ok_or loaded MissingMetric in
      let? shared_loaded := ok_or shared_loaded MissingMetric in
      let? loaded_total := u64_checked_add loaded shared_loaded in
      let? unloaded := ok_or unloaded MissingMetric in
      let? shared_unloaded := ok_or shared_unloaded MissingMetric in
      let? unloaded_total := u64_checked_add unloaded shared_unloaded in
      let? classes_loaded := u64_checked_sub loaded_total unloaded_total in
      guard negb ((live <? daemon) || (peak <? live)) else InvariantViolation in
      Ok {| threads_started_total := started; threads_live := live; threads_peak := peak;
            threads_daemon := daemon; classes_loaded := classes_loaded;
            classes_unloaded_total := unloaded_total |}
  | _ => Panic
  end.

(** ** Entries *)

(** The name of an entry and where it ends. *)
Definition parse_name (input : str) (cursor entry_end name_offset : Z) : result (str * Z * Z) :=
  let? name_start := checked_add cursor name_offset in
  let? limit := checked_add name_start MAX_NAME_BYTES in
  let name_limit := Z.min limit entry_end in
  let? name_bytes := get_slice name_start name_limit input in
  let? nul := ok_or (find_byte x00 name_bytes) LimitExceeded in
  let? name_end := checked_add name_start (Z.of_nat nul + 1) in
  let? name := index_slice 0 (Z.of_nat nul) name_bytes in
  guard utf8_valid name else Malformed in
  Ok (name, name_start, name_end).

(** The data range of an entry with a known element size. *)
Definition parse_data_range (input : str) (cursor entry_end name_start name_end : Z)
    (size vector_length data_offset : Z) (units : byte) : result (Z * Z) :=
  guard negb (vector_length <? 0) else Malformed in
  let elements := if vector_length =? 0 then 1 else vector_length in
  let? data_len := checked_mul size elements in
  guard negb (data_offset <? ENTRY_HEADER_LEN) else Malformed in
  let? data_start := checked_add cursor data_offset in
  let? data_end := checked_add data_start data_len in
  guard negb ((entry_end <? data_end) || negb (data_start mod size =? 0)) else Malformed in
  guard negb (ranges_overlap name_start name_end data_start data_end) else Malformed in
  let? gap := get_slice name_end data_start input in
  guard forallb (fun b => bool_decide (b = x00)) gap else Malformed in
  if bool_decide (units = x05) then
    guard negb (MAX_STRING_BYTES <? data_len) else LimitExceeded in
    let? string := get_slice data_start data_end input in
    guard bool_decide (x00 ∈ string) else Malformed in
    Ok (data_start, data_end)
  else Ok (data_start, data_end).

(** Threads live, peak and daemon are gauges; the other metrics are counters. *)
Definition expected_units (index : nat) : byte :=
  if bool_decide (index = 1%nat \/ index = 2%nat \/ index = 3%nat) then x01 else x04.
Definition expected_variability (index : nat) : byte :=
  if bool_decide (index = 1%nat \/ index = 2%nat \/ index = 3%nat) then x03 else x02.

(** Store a required metric's value. *)
Definition take_metric (order : ByteOrder) (input name : str) (data_type flags units variability : byte)
    (vector_length : Z) (range : Z * Z) (required : RequiredValues) : result RequiredValues :=
  match required_index name with
  | None => Ok required
  | Some index =>
      guard bool_decide (data_type = x4a) && (vector_length =? 0) && bool_decide (flags = x01)
        && bool_decide (units = expected_units index)
        && bool_decide (variability = expected_variability index) else InvalidMetric in
      let? bytes := index_slice range.1 range.2 input in
      let? value := order_i64 order bytes in
      guard 0 <=? value else InvalidMetric in
      required_insert index value required
  end.

(** One iteration of the loop: the next cursor and the metrics. *)
Definition parse_entry (order : ByteOrder) (input : str) (used cursor : Z) (required : RequiredValues)
    : result (Z * RequiredValues) :=
  guard cursor mod 8 =? 0 else Malformed in
  let? header_end := checked_add cursor ENTRY_HEADER_LEN in
  let? header := get_slice cursor header_end input in
  let? entry_len := field_usize order 0 header in
  let? name_offset := field_usize order 4 header in
  let? vector_length := field_i32 order 8 header in
  let? data_type := index_byte 12 header in
  let? flags := index_byte 13 header in
  let? units := index_byte 14 header in
  let? variability := index_byte 15 header in
  let? data_offset := field_usize order 16 header in
  guard negb ((entry_len <? ENTRY_HEADER_LEN) || negb (entry_len mod 8 =? 0)) else Malformed in
  let? entry_end := checked_add cursor entry_len in
  guard negb ((used <? entry_end) || (name_offset <? ENTRY_HEADER_LEN) || (entry_len <=? name_offset))
    else Malformed in
  let? (name, name_start, name_end) := parse_name input cursor entry_end name_offset in
  guard (b2z flags <=? 1) && (1 <=? b2z units) && (b2z units <=? 6)
    && (1 <=? b2z variability) && (b2z variability <=? 3) else Malformed in
  let? size := ok_or (primitive_size data_type) Malformed in
  let? range := parse_data_range input cursor entry_end name_start name_end size vector_length
                  data_offset units in
  let? required := take_metric order input name data_type flags units variability vector_length
                     range required in
  Ok (entry_end, required).

Fixpoint parse_entries (n : nat) (order : ByteOrder) (input : str) (used cursor : Z)
    (required : RequiredValues) : result (Z * RequiredValues) :=
  match n with
  | O => Ok (cursor, required)
  | S n' =>
      let? (cursor, required) := parse_entry order input used cursor required in
      parse_entries n' order input used cursor required
  end.

Definition parse (input : str) : result JvmPerfDataMetrics :=
  guard zlen input <=? MAX_PERFDATA_BYTES else InputTooLarge in
  let? decoded := decode_prologue input in
  let? order := unwrap_or_panic (order_of (byte_order decoded)) in
  guard overflow decoded =? 0 else Overflow in
  guard negb ((used decoded <? PROLOGUE_LEN) || (zlen input <? used decoded)
              || (MAX_ENTRIES <? entry_count decoded))
    else (if MAX_ENTRIES <? entry_count decoded then LimitExceeded else Malformed) in
  guard negb ((entry_offset decoded <? PROLOGUE_LEN) || (used decoded <? entry_offset decoded)
              || negb (entry_offset decoded mod 8 =? 0)) else Malformed in
  let? (cursor, required) :=
    parse_entries (Z.to_nat (entry_count decoded)) order input (used decoded) (entry_offset decoded)
      (replicate 8 None) in
  guard cursor =? used decoded else Malformed in
  required_finish required.

(** ** No panic *)

Lemma no_panic_checked_add a b : no_panic (checked_add a b).
Proof. unfold checked_add. by case_goal. Qed.
Lemma no_panic_checked_mul a b : no_panic (checked_mul a b).
Proof. unfold checked_mul. by case_goal. Qed.
Lemma no_panic_u64_add a b : no_panic (u64_checked_add a b).
Proof. unfold u64_checked_add. by case_goal. Qed.
Lemma no_panic_u64_sub a b : no_panic (u64_checked_sub a b).
Proof. unfold u64_checked_sub. by case_goal. Qed.
Lemma no_panic_get_slice a b s : no_panic (get_slice a b s).
Proof. apply no_panic_ok_or. Qed.
Lemma no_panic_i32 o s : no_panic (order_i32 o s).
Proof. unfold order_i32. by case_goal. Qed.
Lemma no_panic_i64 o s : no_panic (order_i64 o s).
Proof. unfold order_i64. by case_goal. Qed.
Lemma no_panic_nonneg v : no_panic (nonnegative_usize v).
Proof. unfold nonnegative_usize. by case_goal. Qed.

Lemma no_panic_field_i32 o a s : 0 <= a -> a + 4 <= zlen s -> no_panic (field_i32 o a s).
Proof.
  intros. unfold field_i32. apply no_panic_bind; [apply no_panic_index_slice; lia|].
  intros. apply no_panic_i32.
Qed.

Lemma no_panic_field_usize o a s : 0 <= a -> a + 4 <= zlen s -> no_panic (field_usize o a s).
Proof.
  intros. unfold field_usize. apply no_panic_bind; [by apply no_panic_field_i32|].
  intros. apply no_panic_nonneg.
Qed.

#[export] Hint Resolve no_panic_checked_add no_panic_checked_mul no_panic_u64_add no_panic_u64_sub
  no_panic_get_slice no_panic_i32 no_panic_i64 no_panic_nonneg : panicfree.
#[export] Hint Extern 2 (no_panic (field_i32 _ _ _)) => apply no_panic_field_i32; lia : panicfree.
#[export] Hint Extern 2 (no_panic (field_usize _ _ _)) => apply no_panic_field_usize; lia : panicfree.

Lemma get_slice_Ok a b s x :
  get_slice a b s = Ok x -> 0 <= a <= b /\ b <= zlen s /\ zlen x = b - a.
Proof.
  unfold get_slice, ok_or. destruct (slice a b s) eqn:E; [|done]. intros [= <-].
  apply slice_Some in E. tauto.
Qed.

Lemma checked_add_Ok a b c : checked_add a b = Ok c -> c = a + b.
Proof. unfold checked_add. case_goal; [by intros [= <-]|done]. Qed.

Lemma nonnegative_Ok v w : nonnegative_usize v = Ok w -> 0 <= w.
Proof. unfold nonnegative_usize. case_goal; [|done]. intros [= <-]. by bool_prop. Qed.

Lemma field_usize_Ok o a s v : field_usize o a s = Ok v -> 0 <= v.
Proof. by intros (x & _ & H%nonnegative_Ok)%obind_Ok_inv. Qed.

(** Facts that successful steps leave behind. *)
Ltac step_facts :=
  repeat match goal with
  | H : get_slice _ _ _ = Ok _ |- _ => apply get_slice_Ok in H
  | H : checked_add _ _ = Ok _ |- _ => apply checked_add_Ok in H
  | H : field_usize _ _ _ = Ok _ |- _ => apply field_usize_Ok in H
  end; bool_prop.

Lemma parse_name_no_panic input cursor entry_end name_offset :
  no_panic (parse_name input cursor entry_end name_offset).
Proof.
  unfold parse_name. panic_free.
  apply no_panic_bind; [|intros; panic_free].
  destruct (find_byte x00 a1) as [nul|] eqn:E; [|done]. simplify_eq/=.
  apply find_byte_Some in E as (pre & post & -> & <- & _).
  apply no_panic_index_slice; [lia|]. rewrite zlen_app. unfold zlen. simpl. lia.
Qed.

Lemma parse_name_Ok input cursor entry_end name_offset name ns ne :
  parse_name input cursor entry_end name_offset = Ok (name, ns, ne) ->
  ns = cursor + name_offset /\ ns < ne <= entry_end /\ slice ns ne input = Some (name ++ [x00]).
Proof.
  unfold parse_name.
  intros (ns0 & H1%checked_add_Ok & (limit & _ & (nb & H3 & (nul & H4 & (ne0 & H5%checked_add_Ok &
    (nm & H6 & H7)%obind_Ok_inv)%obind_Ok_inv)%obind_Ok_inv)%obind_Ok_inv)%obind_Ok_inv)%obind_Ok_inv.
  case_hyp H7; [|done]. injection H7 as <- <- <-. split; [done|].
  destruct (find_byte x00 nb) as [k|] eqn:E; [|done]. injection H4 as <-.
  apply find_byte_Some in E as (pre & post & -> & <- & _).
  assert (nm = pre) as ->.
  { unfold index_slice in H6. change (pre ++ x00 :: post) with ([] ++ pre ++ x00 :: post) in H6.
    rewrite (slice_app [] pre) in H6 by done. by injection H6. }
  pose proof (get_slice_Ok _ _ _ _ H3) as Hb. rewrite zlen_app in Hb. unfold zlen in Hb. simpl in Hb.
  split; [lia|]. unfold get_slice, ok_or in H3. destruct (slice ns0 _ input) as [x|] eqn:E; [|done].
  injection H3 as ->. change (pre ++ x00 :: post) with (pre ++ [x00] ++ post) in E.
  rewrite app_assoc in E. apply slice_prefix in E. rewrite <- E. f_equal.
  rewrite zlen_app. unfold zlen. simpl. lia.
Qed.

Lemma parse_data_range_no_panic input cursor entry_end ns ne size vl off units :
  no_panic (parse_data_range input cursor entry_end ns ne size vl off units).
Proof. unfold parse_data_range. panic_free. Qed.

Lemma parse_data_range_Ok input cursor entry_end ns ne size vl off units ds de :
  parse_data_range input cursor entry_end ns ne size vl off units = Ok (ds, de) ->
  0 <= cursor -> 0 < size ->
  cursor <= ds < de /\ de <= entry_end /\ (de <= ns \/ ne <= ds) /\
  de - ds = size * (if vl =? 0 then 1 else vl).
Proof.
  unfold parse_data_range. intros H Hc Hs.
  destruct (negb (vl <? 0)) eqn:E1; [|done].
  apply obind_Ok_inv in H as (dl & Hd & H). unfold checked_mul in Hd.
  destruct (_ <=? usize_max); [|done]. injection Hd as <-.
  destruct (negb (off <? ENTRY_HEADER_LEN)) eqn:E2; [|done].
  apply obind_Ok_inv in H as (ds0 & H1%checked_add_Ok & (de0 & H2%checked_add_Ok & H)%obind_Ok_inv).
  destruct (negb (_ || _)) eqn:E3; [|done]. destruct (negb (ranges_overlap _ _ _ _)) eqn:E4; [|done].
  apply obind_Ok_inv in H as (gap & _ & H).
  assert (ds0 = ds /\ de0 = de) as [-> ->].
  { destruct (forallb _ _); [|done]. case_bool_decide; [|by injection H as -> ->].
    destruct (negb (MAX_STRING_BYTES <? _)); [|done]. apply obind_Ok_inv in H as (string & _ & H).
    case_bool_decide; [by injection H as -> ->|done]. }
  unfold ranges_overlap, ENTRY_HEADER_LEN in *. bool_prop.
  apply andb_false_iff in E4. rewrite !Z.ltb_ge in E4.
  assert (0 < size * (if vl =? 0 then 1 else vl)) by (destruct (vl =? 0) eqn:E5; bool_prop; nia). lia.
Qed.

Lemma index_of_lt names name i : index_of names name = Some i -> (i < length names)%nat.
Proof.
  revert i; induction names as [|n names IH]; intros i; simpl; [done|].
  case_bool_decide; [intros [= <-]; lia|]. destruct (index_of names name); [|done].
  intros [= <-]. specialize (IH n0 eq_refl). lia.
Qed.

Lemma take_metric_no_panic o input name dt fl un va vl range req :
  0 <= range.1 <= range.2 -> range.2 <= zlen input -> length req = 8%nat ->
  no_panic (take_metric o input name dt fl un va vl range req).
Proof.
  intros H1 H2 H3. unfold take_metric. destruct (required_index name) as [i|] eqn:E; [|done].
  panic_free. unfold required_insert. apply index_of_lt in E. simpl in E.
  destruct (lookup_lt_is_Some_2 req i) as [v ->]; [lia|]. by destruct v.
Qed.

Lemma take_metric_length o input name dt fl un va vl range req req' :
  take_metric o input name dt fl un va vl range req = Ok req' -> length req' = length req.
Proof.
  unfold take_metric. destruct (required_index name); [|by intros [= <-]].
  case_goal; [|done]. intros (b & _ & (v & _ & H)%obind_Ok_inv)%obind_Ok_inv.
  case_hyp H; [|done]. unfold required_insert in H. case_hyp H; [|done].
  case_hyp H; [done|]. injection H as <-. apply length_insert.
Qed.

Lemma primitive_size_pos dt size : primitive_size dt = Some size -> 0 < size.
Proof. destruct dt; simpl; try done; intros [= <-]; lia. Qed.

(** Where a metric's value comes from: an entry between [c] and [c'] that carries the
    metric's name, terminated, and the value as an aligned 64-bit integer inside it. *)
Definition metric_entry (order : ByteOrder) (input : str) (i : nat) (v c c' : Z) : Prop :=
  exists name ns ds bytes,
    METRIC_NAMES !! i = Some name /\
    slice ns (ns + zlen name + 1) input = Some (name ++ [x00]) /\ c < ns /\ ns + zlen name < c' /\
    slice ds (ds + 8) input = Some bytes /\ c <= ds /\ ds + 8 <= c' /\
    v = signed 64 (order_value order bytes) /\ 0 <= v.

Lemma index_of_lookup names name i : index_of names name = Some i -> names !! i = Some name.
Proof.
  revert i; induction names as [|n names IH]; intros i; simpl; [done|].
  case_bool_decide; [intros [= <-]; by subst|]. destruct (index_of names name); [|done].
  intros [= <-]. by apply IH.
Qed.

#[export] Hint Resolve parse_name_no_panic parse_data_range_no_panic : panicfree.

Lemma take_metric_Ok o input name dt fl un va vl range req req' i v :
  take_metric o input name dt fl un va vl range req = Ok req' -> req' !! i = Some (Some v) ->
  req !! i = Some (Some v) \/
  (METRIC_NAMES !! i = Some name /\ dt = x4a /\ vl = 0 /\ exists bytes,
    slice range.1 range.2 input = Some bytes /\ v = signed 64 (order_value o bytes) /\ 0 <= v).
Proof.
  unfold take_metric. destruct (required_index name) as [j|] eqn:E; [|intros [= <-]; by left].
  case_goal; [|done]. bool_prop. intros (b & Hb & (w & Hw & Hi)%obind_Ok_inv)%obind_Ok_inv Hv.
  destruct (0 <=? w) eqn:Hw0; [|done]. unfold required_insert in Hi.
  destruct (req !! j) as [[|]|]; try done. injection Hi as <-.
  apply list_lookup_insert_Some in Hv as [(<- & [= <-] & _)|[_ Hv]]; [|by left]. right.
  split; [by apply index_of_lookup|]. split; [done|]. split; [done|].
  unfold index_slice in Hb. destruct (slice range.1 range.2 input) eqn:Es; [|done]. injection Hb as ->.
  exists b. split; [done|]. unfold order_i64 in Hw. case_hyp Hw; [|done]. injection Hw as <-.
  by bool_prop.
Qed.

(** What one iteration guarantees: it does not panic, and a successful one ends at the
    next aligned cursor within [used] with every new value taken from this entry. *)
Definition entry_post (order : ByteOrder) (input : str) (used cursor : Z) (req : RequiredValues)
    (r : Z * RequiredValues) : Prop :=
  cursor < r.1 <= used /\ r.1 mod 8 = 0 /\ length r.2 = 8%nat /\
  forall i v, r.2 !! i = Some (Some v) ->
    req !! i = Some (Some v) \/ metric_entry order input i v cursor r.1.

Lemma parse_entry_spec order input used cursor req :
  0 <= cursor -> used <= zlen input -> length req = 8%nat ->
  ensures (parse_entry order input used cursor req) (entry_post order input used cursor req).
Proof.
  intros Hc Hu Hr. unfold parse_entry, ENTRY_HEADER_LEN.
  do 2 ensures_step. apply ensures_bind; [auto with panicfree|]. intros header Hh.
  step_facts. repeat ensures_step. destruct a9 as [[name ns] ne]. repeat ensures_step.
  destruct a10 as [ds de] eqn:Hrange. step_facts.
  match goal with H : ok_or _ _ = Ok ?n |- _ => rename n into size; rename H into Hsize end.
  destruct (primitive_size a3) as [sz|] eqn:Hsz; [|done]. injection Hsize as ->.
  pose proof (primitive_size_pos _ _ Hsz) as Hpos.
  match goal with H : parse_name _ _ _ _ = Ok _ |- _ => apply parse_name_Ok in H as (Hns & Hne & Hname) end.
  match goal with H : parse_data_range _ _ _ _ _ _ _ _ _ = Ok _ |- _ =>
    apply parse_data_range_Ok in H as (Hd1 & Hd2 & _ & Hd4); [|done|done] end.
  assert (Hmod : a8 mod 8 = 0) by (subst; rewrite Z.add_mod, H, H22 by lia; done).
  apply ensures_bind; [apply take_metric_no_panic; simpl; lia|]. intros req' Ht. apply ensures_Ok.
  split; [simpl; lia|]. split; [done|]. split; [simpl; by rewrite (take_metric_length _ _ _ _ _ _ _ _ _ _ _ Ht)|].
  intros i v Hv. destruct (take_metric_Ok _ _ _ _ _ _ _ _ _ _ _ _ _ Ht Hv) as [?|(Hi & -> & -> & bytes & Hb & Hval)];
    [by left|right]. simpl in Hsz, Hd4, Hb. injection Hsz as <-.
  pose proof (slice_Some _ _ _ _ Hname) as (_ & _ & Hl & _). rewrite zlen_app in Hl. change (zlen [x00]) with 1 in Hl.
  exists name, ns, ds, bytes. replace (ns + zlen name + 1) with ne by lia. replace (ds + 8) with de by lia.
  simpl fst. repeat split; try done; try lia; apply Hval.
Qed.

Lemma metric_entry_mono order input i v c1 c1' c2 c2' :
  metric_entry order input i v c1 c1' -> c2 <= c1 -> c1' <= c2' -> metric_entry order input i v c2 c2'.
Proof.
  intros (name & ns & ds & bytes & H1 & H2 & H3 & H4 & H5 & H6 & H7 & H8) ? ?.
  exists name, ns, ds, bytes. repeat split; try done; try lia; apply H8.
Qed.

Lemma parse_entries_spec n order input used cursor req :
  0 <= cursor -> cursor <= used -> used <= zlen input -> length req = 8%nat ->
  ensures (parse_entries n order input used cursor req) (fun r =>
    cursor <= r.1 <= used /\ length r.2 = 8%nat /\
    forall i v, r.2 !! i = Some (Some v) ->
      req !! i = Some (Some v) \/ metric_entry order input i v cursor r.1).
Proof.
  revert cursor req; induction n as [|n IH]; intros cursor req Hc Hcu Hu Hr; cbn [parse_entries].
  - apply ensures_Ok. simpl. split; [lia|]. split; [done|]. by left.
  - pose proof (parse_entry_spec order input used cursor req Hc Hu Hr) as [Hnp He].
    apply ensures_bind; [done|]. intros [c1 req1] H1. destruct (He _ H1) as (Hb & _ & Hl & Hm). simpl in *.
    destruct (IH c1 req1 ltac:(lia) ltac:(lia) Hu Hl) as [Hnp2 Hok]. split; [done|].
    intros [c2 req2] H2. destruct (Hok _ H2) as (Hb2 & Hl2 & Hm2). simpl in *.
    split; [lia|]. split; [done|]. intros i v Hv.
    destruct (Hm2 i v Hv) as [Hv1|Hv1].
    + destruct (Hm i v Hv1) as [?|Hv2]; [by left|right]. eapply metric_entry_mono; [done|lia|lia].
    + right. eapply metric_entry_mono; [done|lia|lia].
Qed.

Lemma required_finish_no_panic vs : length vs = 8%nat -> no_panic (required_finish vs).
Proof.
  intros H. do 8 (destruct vs as [|? vs]; [done|]). destruct vs; [|done].
  unfold required_finish. panic_free.
Qed.

Lemma decode_prologue_spec input :
  ensures (decode_prologue input) (fun p =>
    0 <= used p /\ 0 <= entry_offset p /\ is_Some (order_of (byte_order p))).
Proof.
  unfold decode_prologue. apply ensures_bind; [auto with panicfree|].
  intros prologue H%get_slice_Ok. unfold PROLOGUE_LEN in H. repeat ensures_step.
  apply ensures_Ok. simpl. step_facts. repeat split; try lia. by destruct (order_of a0); [eauto|].
Qed.

(** ** Properties *)

(** The eight values that make up a sample. *)
Definition metrics_of (vs : list Z) (m : JvmPerfDataMetrics) : Prop :=
  match vs with
  | [started; live; peak; daemon; loaded; shared; unloaded; shared_unloaded] =>
      m = {| threads_started_total := started; threads_live := live; threads_peak := peak;
             threads_daemon := daemon;
             classes_loaded := (loaded + shared) - (unloaded + shared_unloaded);
             classes_unloaded_total := unloaded + shared_unloaded |} /\
      daemon <= live <= peak /\ loaded + shared <= u64_max /\
      unloaded + shared_unloaded <= loaded + shared
  | _ => False
  end.

Lemma required_finish_Ok req m :
  required_finish req = Ok m -> exists vs, req = Some <$> vs /\ metrics_of vs m.
Proof.
  unfold required_finish. do 8 (destruct req as [|? req]; [done|]). destruct req; [|done].
  intros (v1 & ->%ok_or_Ok & H)%obind_Ok_inv. apply obind_Ok_inv in H as (v2 & ->%ok_or_Ok & H).
  apply obind_Ok_inv in H as (v3 & ->%ok_or_Ok & H). apply obind_Ok_inv in H as (v4 & ->%ok_or_Ok & H).
  apply obind_Ok_inv in H as (v5 & ->%ok_or_Ok & H). apply obind_Ok_inv in H as (v6 & ->%ok_or_Ok & H).
  apply obind_Ok_inv in H as (t1 & H1 & H). apply obind_Ok_inv in H as (v7 & ->%ok_or_Ok & H).
  apply obind_Ok_inv in H as (v8 & ->%ok_or_Ok & H). apply obind_Ok_inv in H as (t2 & H2 & H).
  apply obind_Ok_inv in H as (t3 & H3 & H). unfold u64_checked_add, u64_checked_sub in *.
  repeat case_hyp H1; repeat case_hyp H2; repeat case_hyp H3; repeat case_hyp H; simplify_eq. bool_prop.
  exists [v1; v2; v3; v4; v5; v6; v7; v8]. split; [done|]. simpl. repeat split; lia.
Qed.

(** The tiling and provenance of a successful parse. *)
Definition parsed_from (input : str) (m : JvmPerfDataMetrics) : Prop :=
  exists order vs lo hi, metrics_of vs m /\ PROLOGUE_LEN <= lo <= hi /\ hi <= zlen input /\
    zlen input <= MAX_PERFDATA_BYTES /\
    forall i v, vs !! i = Some v -> metric_entry order input i v lo hi.

Lemma parse_ensures input : ensures (parse input) (parsed_from input).
Proof.
  unfold parse. apply ensures_guard. intros Hlen.
  destruct (decode_prologue_spec input) as [Hnp Hok]. apply ensures_bind; [done|].
  intros d Hd. destruct (Hok d Hd) as (Hu & Ho & [order Hord]). rewrite Hord. cbn [unwrap_or_panic obind].
  do 3 ensures_step. bool_prop.
  destruct (parse_entries_spec (Z.to_nat (entry_count d)) order input (used d) (entry_offset d)
    (replicate 8 None)) as [Hnp2 Hok2]; [done|done|done|done|].
  apply ensures_bind; [done|]. intros [cursor req] Hreq. destruct (Hok2 _ Hreq) as (Hc & Hl & Hm).
  cbn [fst snd] in Hc, Hl, Hm. apply ensures_guard. intros Hcu. bool_prop.
  split; [by apply required_finish_no_panic|]. intros m Hmm.
  apply required_finish_Ok in Hmm as (vs & -> & Hvs).
  exists order, vs, (entry_offset d), cursor. split; [done|]. split; [lia|]. split; [lia|]. split; [done|].
  intros i v Hv. destruct (Hm i v) as [Hn|Hn]; [by rewrite list_lookup_fmap, Hv| |done].
  apply lookup_replicate in Hn as [Hn _]. done.
Qed.

(** the parser never panics, whatever bytes it is given: every index, slice and
    addition it performs is in range. *)
Theorem parse_no_panic input : no_panic (parse input).
Proof. apply parse_ensures. Qed.

(** every value of an accepted sample is read from the snapshot: for each of the
    eight required counters there is an entry inside the entry area that carries its exact
    name and, inside that entry, the 64-bit value; and the totals computed from them do
    not overflow, with daemon <= live <= peak threads. *)
Theorem parse_sound input m :
  parse input = Ok m ->
  exists order vs lo hi, metrics_of vs m /\ PROLOGUE_LEN <= lo <= hi /\ hi <= zlen input /\
    zlen input <= MAX_PERFDATA_BYTES /\
    forall i v, vs !! i = Some v -> metric_entry order input i v lo hi.
Proof. apply parse_ensures. Qed.

(** ** Witness: a snapshot with the eight counters *)

Definition round8 (n : Z) : Z := (n + 7) / 8 * 8.

Definition sample_entry (i : nat) (value : Z) : str :=
  let name := default [] (METRIC_NAMES !! i) in
  let data_offset := round8 (20 + zlen name + 1) in
  be_split 4 (data_offset + 8) ++ be_split 4 20 ++ be_split 4 0
  ++ [x4a; x01; expected_units i; expected_variability i] ++ be_split 4 data_offset
  ++ name ++ replicate (Z.to_nat (data_offset - 20 - zlen name)) x00 ++ be_split 8 value.

Definition sample_area : str := mjoin (imap sample_entry [12; 5; 9; 3; 100; 20; 7; 1]).

Definition sample_input : str :=
  MAGIC ++ [x00; x02; x00; x01] ++ be_split 4 (32 + zlen sample_area) ++ be_split 4 0
  ++ be_split 8 77 ++ be_split 4 32 ++ be_split 4 8 ++ sample_area.

Definition sample_metrics : JvmPerfDataMetrics :=
  {| threads_started_total := 12; threads_live := 5; threads_peak := 9; threads_daemon := 3;
     classes_loaded := 112; classes_unloaded_total := 8 |}.

Lemma parse_sound_witness :
  parse sample_input = Ok sample_metrics /\
  exists order vs, metrics_of vs sample_metrics /\
    forall i v, vs !! i = Some v -> exists lo hi, metric_entry order sample_input i v lo hi.
Proof.
  split; [vm_compute; reflexivity|].
  destruct (parse_sound sample_input sample_metrics) as (order & vs & lo & hi & H1 & _ & _ & _ & H2);
    [vm_compute; reflexivity|].
  exists order, vs. split; [exact H1|]. intros i v Hv. exists lo, hi. exact (H2 i v Hv).
Defined.
