(* ===== verification/PerfWorker.v ===== *)
(** * The wire format of the JVM worker

    Second half of [aic-common/src/jvm_perfdata.rs]: requests and responses of the
    isolated worker process, length-prefixed and fixed-size. *)

From S2P Require Import Prelude RustStr Bytes PerfData.

Local Open Scope outcome_scope.

Definition PROTOCOL_VERSION : byte := x01.
Definition REQUEST_BODY_LEN : Z := 62.
Definition METRICS_RESPONSE_BODY_LEN : Z := 50.
Definition FAILURE_RESPONSE_BODY_LEN : Z := 3.
Definition MAX_WORKER_FRAME_BODY : Z := 64 * 1024.

Record WorkerRequest := {
  pid : Z;
  start_ticks : Z;
  selector_digest_version : byte;
  selector_digest : str;
  opaque_workload_id : str;
}.

Inductive WorkerFailure := Unreachable | Rejected | MalformedData.

Inductive WorkerResponse :=
| Metrics (m : JvmPerfDataMetrics)
| Failure (f : WorkerFailure).

Inductive CodecError := FrameTooLarge | Truncated | TrailingData | UnsupportedVersion | InvalidFrame.

Abbreviation decoded A := (outcome A CodecError).

(** The types' ranges: [u32], [u64], [[u8; 32]], [[u8; 16]]. *)
Definition is_u64 (z : Z) : Prop := 0 <= z <= u64_max.

Record valid_request (r : WorkerRequest) : Prop := {
  vr_pid : 0 <= pid r <= u32_max;
  vr_ticks : is_u64 (start_ticks r);
  vr_digest : zlen (selector_digest r) = 32;
  vr_id : zlen (opaque_workload_id r) = 16;
}.

Definition metric_values (m : JvmPerfDataMetrics) : list Z :=
  [threads_started_total m; threads_live m; threads_peak m; threads_daemon m;
   classes_loaded m; classes_unloaded_total m].

Definition valid_response (r : WorkerResponse) : Prop :=
  match r with
  | Metrics m => Forall is_u64 (metric_values m)
  | Failure _ => True
  end.

(** ** Codec *)

Definition frame (body : str) : str := be_split 4 (zlen body mod 2 ^ 32) ++ body.

Definition encode_request (r : WorkerRequest) : str :=
  frame ([PROTOCOL_VERSION] ++ be_split 4 (pid r) ++ be_split 8 (start_ticks r)
         ++ [selector_digest_version r] ++ selector_digest r ++ opaque_workload_id r).

Definition decode_variable_frame_body (f : str) : decoded str :=
  let? prefix := ok_or (slice 0 4 f) Truncated in
  let declared := of_be prefix in
  guard declared <=? MAX_WORKER_FRAME_BODY else FrameTooLarge in
  let total := 4 + declared in
  guard total <=? zlen f else Truncated in
  guard zlen f <=? total else TrailingData in
  index_slice 4 total f.

Definition decode_frame_body (f : str) (expected : Z) : decoded str :=
  let? body := decode_variable_frame_body f in
  guard zlen body =? expected else (if zlen body <? expected then Truncated else InvalidFrame) in
  Ok body.

Definition decode_request (f : str) : decoded WorkerRequest :=
  let? body := decode_frame_body f REQUEST_BODY_LEN in
  let? version := index_byte 0 body in
  guard bool_decide (version = PROTOCOL_VERSION) else UnsupportedVersion in
  let? p := index_slice 1 5 body in
  let? t := index_slice 5 13 body in
  let? v := index_byte 13 body in
  let? d := index_slice 14 46 body in
  let? w := index_slice 46 62 body in
  Ok {| pid := of_be p; start_ticks := of_be t; selector_digest_version := v;
        selector_digest := d; opaque_workload_id := w |}.

Definition failure_code (f : WorkerFailure) : byte :=
  match f with Unreachable => x00 | Rejected => x01 | MalformedData => x02 end.

Definition encode_response (r : WorkerResponse) : str :=
  match r with
  | Metrics m => frame ([PROTOCOL_VERSION; x00] ++ mjoin (be_split 8 <$> metric_values m))
  | Failure f => frame [PROTOCOL_VERSION; x01; failure_code f]
  end.

(** The [k]-th 64-bit value of a metrics body. *)
Definition body_u64 (k : Z) (body : str) : decoded Z :=
  let? s := index_slice (2 + k * 8) (2 + k * 8 + 8) body in Ok (of_be s).

Definition decode_response (f : str) : decoded WorkerResponse :=
  let? body := decode_variable_frame_body f in
  let? version := ok_or (byte_at 0 body) Truncated in
  guard bool_decide (version = PROTOCOL_VERSION) else UnsupportedVersion in
  match byte_at 1 body with
  | None => Err Truncated
  | Some tag =>
      if bool_decide (tag = x00) && (zlen body =? METRICS_RESPONSE_BODY_LEN) then
        let? v0 := body_u64 0 body in
        let? v1 := body_u64 1 body in
        let? v2 := body_u64 2 body in
        let? v3 := body_u64 3 body in
        let? v4 := body_u64 4 body in
        let? v5 := body_u64 5 body in
        Ok (Metrics {| threads_started_total := v0; threads_live := v1; threads_peak := v2;
                       threads_daemon := v3; classes_loaded := v4; classes_unloaded_total := v5 |})
      else if bool_decide (tag = x01) && (zlen body =? FAILURE_RESPONSE_BODY_LEN) then
        let? code := index_byte 2 body in
        match code with
        | x00 => Ok (Failure Unreachable)
        | x01 => Ok (Failure Rejected)
        | x02 => Ok (Failure MalformedData)
        | _ => Err InvalidFrame
        end
      else Err InvalidFrame
  end.

(** ** Framing lemmas *)

Lemma decode_frame_frame body :
  zlen body <= MAX_WORKER_FRAME_BODY -> decode_variable_frame_body (frame body) = Ok body.
Proof.
  unfold MAX_WORKER_FRAME_BODY. intros Hb. pose proof (zlen_nonneg body).
  unfold decode_variable_frame_body, frame, MAX_WORKER_FRAME_BODY. rewrite Z.mod_small by lia.
  rewrite slice_here by (done || by rewrite zlen_be_split). cbn [ok_or obind]. rewrite of_be_split by lia.
  rewrite zlen_app, zlen_be_split. replace (zlen body <=? _) with true by lia.
  replace (_ <=? _) with true by lia. replace (_ <=? _) with true by lia.
  unfold index_slice. rewrite slice_skip by (by rewrite zlen_be_split). rewrite zlen_be_split.
  by rewrite slice_whole by lia.
Qed.

Lemma decode_frame_Ok f body :
  decode_variable_frame_body f = Ok body -> f = frame body /\ zlen body <= MAX_WORKER_FRAME_BODY.
Proof.
  unfold decode_variable_frame_body. intros (prefix & Hp & H)%obind_Ok_inv.
  destruct (slice 0 4 f) as [x|] eqn:Hs; [|done]. injection Hp as ->.
  destruct (of_be prefix <=? _) eqn:E1; [|done]. destruct (_ <=? zlen f) eqn:E2; [|done].
  destruct (zlen f <=? _) eqn:E3; [|done]. apply index_slice_Ok in H. bool_prop.
  pose proof (slice_Some _ _ _ _ Hs) as (_ & _ & Hl & _).
  pose proof (slice_Some _ _ _ _ H) as (_ & _ & Hl2 & _).
  assert (Hz : zlen body = of_be prefix) by lia. split; [|lia].
  pose proof (slice_cat _ _ _ _ _ _ Hs H) as Hall.
  replace (4 + of_be prefix) with (zlen f) in Hall by lia. apply slice_full in Hall. subst f.
  unfold frame. rewrite Hz, Z.mod_small by (unfold MAX_WORKER_FRAME_BODY in *; pose proof (of_be_range prefix); lia).
  rewrite <- (be_split_of_be prefix) at 1. f_equal. f_equal. unfold zlen in Hl. lia.
Qed.

Lemma decode_variable_no_panic f : no_panic (decode_variable_frame_body f).
Proof.
  unfold decode_variable_frame_body. apply no_panic_bind; [auto with panicfree|].
  intros p _. do 3 (apply no_panic_guard; intros). bool_prop. pose proof (of_be_range p).
  apply no_panic_index_slice; lia.
Qed.
#[export] Hint Resolve decode_variable_no_panic : panicfree.

Lemma index_slice_eq a b s x : slice a b s = Some x -> index_slice (E:=CodecError) a b s = Ok x.
Proof. intros H. unfold index_slice. by rewrite H. Qed.

Lemma index_byte_eq i s b : slice i (i + 1) s = Some [b] -> index_byte (E:=CodecError) i s = Ok b.
Proof. intros H. unfold index_byte. by rewrite (slice_byte_at i s b H). Qed.

Lemma decode_request_encode r : valid_request r -> decode_request (encode_request r) = Ok r.
Proof.
  intros [Hp Ht Hd Hi]. unfold decode_request, decode_frame_body, encode_request.
  set (body := [PROTOCOL_VERSION] ++ _).
  assert (Hl : zlen body = 62) by (unfold body; zl; lia).
  rewrite decode_frame_frame by (unfold MAX_WORKER_FRAME_BODY; lia). cbn [obind]. rewrite Hl.
  change (62 =? REQUEST_BODY_LEN) with true. cbn [obind].
  rewrite (index_byte_eq 0 body PROTOCOL_VERSION) by piece.
  rewrite (index_slice_eq 1 5 body (be_split 4 (pid r))) by (unfold body; piece).
  rewrite (index_slice_eq 5 13 body (be_split 8 (start_ticks r))) by (unfold body; piece).
  rewrite (index_byte_eq 13 body (selector_digest_version r)) by (unfold body; piece).
  rewrite (index_slice_eq 14 46 body (selector_digest r)) by (unfold body; piece).
  rewrite (index_slice_eq 46 62 body (opaque_workload_id r)) by (unfold body; piece).
  cbn [obind]. rewrite !of_be_split by (unfold is_u64, u32_max, u64_max in *; lia). by destruct r.
Qed.

Lemma decode_request_Ok f r :
  decode_request f = Ok r -> valid_request r /\ f = encode_request r.
Proof.
  unfold decode_request, decode_frame_body.
  intros (body & (body' & [-> Hmax]%decode_frame_Ok & Hlen)%obind_Ok_inv & H)%obind_Ok_inv.
  destruct (zlen body' =? REQUEST_BODY_LEN) eqn:El; [|done]. injection Hlen as ->. bool_prop.
  apply obind_Ok_inv in H as (v0 & H0%index_byte_Ok & H). destruct (bool_decide (v0 = _)) eqn:Ev; [|done].
  apply obind_Ok_inv in H as (p & H1%index_slice_Ok & H). apply obind_Ok_inv in H as (t & H2%index_slice_Ok & H).
  apply obind_Ok_inv in H as (v & H3%index_byte_Ok & H). apply obind_Ok_inv in H as (d & H4%index_slice_Ok & H).
  apply obind_Ok_inv in H as (w & H5%index_slice_Ok & [= <-]). bool_prop. subst v0.
  pose proof (slice_Some _ _ _ _ H1) as (_ & _ & L1 & _). pose proof (slice_Some _ _ _ _ H2) as (_ & _ & L2 & _).
  pose proof (slice_Some _ _ _ _ H4) as (_ & _ & L4 & _). pose proof (slice_Some _ _ _ _ H5) as (_ & _ & L5 & _).
  pose proof (of_be_range p) as Rp. pose proof (of_be_range t) as Rt. rewrite L1 in Rp. rewrite L2 in Rt.
  split; [split; simpl; unfold is_u64, u32_max, u64_max; lia|].
  unfold encode_request. simpl pid. simpl start_ticks. f_equal.
  pose proof (slice_cat _ _ _ _ _ _ H0 (slice_cat _ _ _ _ _ _ H1 (slice_cat _ _ _ _ _ _ H2
    (slice_cat _ _ _ _ _ _ H3 (slice_cat _ _ _ _ _ _ H4 H5))))) as Hall.
  change 62 with REQUEST_BODY_LEN in Hall. rewrite <- El in Hall. apply slice_full in Hall. rewrite <- Hall.
  rewrite <- (be_split_of_be p) at 1. rewrite <- (be_split_of_be t) at 1.
  unfold zlen in L1, L2. by replace (length p) with 4%nat by lia; replace (length t) with 8%nat by lia.
Qed.

(** the request decoder accepts exactly the encodings of well-formed requests, and
    returns the request that was encoded: the wire format is unambiguous and canonical. *)
Theorem request_codec_exact f r :
  decode_request f = Ok r <-> valid_request r /\ f = encode_request r.
Proof.
  split; [apply decode_request_Ok|]. intros [Hv ->]. by apply decode_request_encode.
Qed.

(** ** Responses *)

Lemma decode_failure_encode k : decode_response (encode_response (Failure k)) = Ok (Failure k).
Proof. by destruct k; vm_compute. Qed.

Lemma decode_metrics_encode m :
  valid_response (Metrics m) -> decode_response (encode_response (Metrics m)) = Ok (Metrics m).
Proof.
  intros Hv. unfold decode_response, encode_response.
  set (body := [PROTOCOL_VERSION; x00] ++ _).
  assert (Hl : zlen body = 50) by (unfold body, metric_values; simpl mjoin; zl; lia).
  rewrite decode_frame_frame by (unfold MAX_WORKER_FRAME_BODY; lia). cbn [obind].
  change (byte_at 0 body) with (Some PROTOCOL_VERSION). change (byte_at 1 body) with (Some x00).
  cbn [ok_or obind]. rewrite Hl. change (50 =? METRICS_RESPONSE_BODY_LEN) with true. simpl andb. cbv iota.
  rewrite bool_decide_eq_true_2 by done. simpl in Hv. unfold metric_values in Hv.
  repeat match goal with H : Forall _ (_ :: _) |- _ => apply Forall_cons in H as [? H] end.
  assert (Hk : forall k z, slice (2 + k * 8) (2 + k * 8 + 8) body = Some (be_split 8 z) -> is_u64 z ->
    body_u64 k body = Ok z).
  { intros k z Hs Hz. unfold body_u64. rewrite (index_slice_eq _ _ _ _ Hs). cbn [obind].
    rewrite of_be_split; [done|]. unfold is_u64, u64_max in Hz. lia. }
  assert (Hb : body = [PROTOCOL_VERSION; x00] ++ be_split 8 (threads_started_total m)
    ++ be_split 8 (threads_live m) ++ be_split 8 (threads_peak m) ++ be_split 8 (threads_daemon m)
    ++ be_split 8 (classes_loaded m) ++ be_split 8 (classes_unloaded_total m))
    by (unfold body, metric_values; simpl; rewrite ?app_nil_r; reflexivity).
  clearbody body.
  rewrite (Hk 0 (threads_started_total m)), (Hk 1 (threads_live m)), (Hk 2 (threads_peak m)),
    (Hk 3 (threads_daemon m)), (Hk 4 (classes_loaded m)), (Hk 5 (classes_unloaded_total m))
    by (done || (rewrite Hb; piece)).
  cbn [obind]. by destruct m.
Qed.

Lemma body_u64_Ok k body v :
  body_u64 k body = Ok v ->
  slice (2 + k * 8) (2 + k * 8 + 8) body = Some (be_split 8 v) /\ is_u64 v.
Proof.
  unfold body_u64. intros (s & H%index_slice_Ok & [= <-])%obind_Ok_inv.
  pose proof (slice_Some _ _ _ _ H) as (_ & _ & Hl & _). replace (_ - _) with 8 in Hl by lia.
  pose proof (of_be_range s) as Hr. rewrite Hl in Hr. split; [|unfold is_u64, u64_max; lia].
  rewrite H. f_equal. rewrite <- (be_split_of_be s) at 1. f_equal. unfold zlen in Hl. lia.
Qed.

Lemma byte_at_slice i s b : byte_at i s = Some b -> slice i (i + 1) s = Some [b].
Proof. intros H. apply (index_byte_Ok (E:=CodecError)). unfold index_byte. by rewrite H. Qed.

Lemma decode_response_Ok f r :
  decode_response f = Ok r -> valid_response r /\ f = encode_response r.
Proof.
  unfold decode_response. intros (body & [-> Hmax]%decode_frame_Ok & H)%obind_Ok_inv.
  apply obind_Ok_inv in H as (v0 & Hv0 & H). destruct (byte_at 0 body) as [b0|] eqn:B0; [|done].
  injection Hv0 as ->. destruct (bool_decide (v0 = _)) eqn:Ev; [|done]. bool_prop. subst v0.
  destruct (byte_at 1 body) as [tag|] eqn:B1; [|done]. apply byte_at_slice in B0, B1.
  destruct (_ && (zlen body =? METRICS_RESPONSE_BODY_LEN)) eqn:E0.
  - bool_prop. subst tag.
    apply obind_Ok_inv in H as (x0 & [S0 R0]%body_u64_Ok & H). apply obind_Ok_inv in H as (x1 & [S1 R1]%body_u64_Ok & H).
    apply obind_Ok_inv in H as (x2 & [S2 R2]%body_u64_Ok & H). apply obind_Ok_inv in H as (x3 & [S3 R3]%body_u64_Ok & H).
    apply obind_Ok_inv in H as (x4 & [S4 R4]%body_u64_Ok & H). apply obind_Ok_inv in H as (x5 & [S5 R5]%body_u64_Ok & [= <-]).
    split; [simpl; repeat constructor; apply R0 || apply R1 || apply R2 || apply R3 || apply R4 || apply R5|].
    unfold encode_response. f_equal.
    pose proof (slice_cat _ _ _ _ _ _ B0 (slice_cat _ _ _ _ _ _ B1 (slice_cat _ _ _ _ _ _ S0
      (slice_cat _ _ _ _ _ _ S1 (slice_cat _ _ _ _ _ _ S2 (slice_cat _ _ _ _ _ _ S3
      (slice_cat _ _ _ _ _ _ S4 S5))))))) as Hall.
    change (2 + 5 * 8 + 8) with METRICS_RESPONSE_BODY_LEN in Hall.
    match goal with El : zlen body = _ |- _ => rewrite <- El in Hall end. apply slice_full in Hall.
    rewrite <- Hall. unfold metric_values. simpl. by rewrite ?app_nil_r.
  - destruct (_ && (zlen body =? FAILURE_RESPONSE_BODY_LEN)) eqn:E1; [|done]. bool_prop. subst tag.
    apply obind_Ok_inv in H as (code & Hc%index_byte_Ok & H).
    pose proof (slice_cat _ _ _ _ _ _ B0 (slice_cat _ _ _ _ _ _ B1 Hc)) as Hall.
    change (2 + 1) with FAILURE_RESPONSE_BODY_LEN in Hall.
    match goal with El : zlen body = _ |- _ => rewrite <- El in Hall end. apply slice_full in Hall.
    destruct code; try discriminate H; injection H as <-; (split; [done|]); by rewrite <- Hall.
Qed.

(** the same for responses: exactly the encodings of samples and failures are
    accepted. *)
Theorem response_codec_exact f r :
  decode_response f = Ok r <-> valid_response r /\ f = encode_response r.
Proof.
  split; [apply decode_response_Ok|]. intros [Hv ->].
  destruct r; [by apply decode_metrics_encode | apply decode_failure_encode].
Qed.

(** neither decoder panics on any input. *)
Theorem worker_decoders_no_panic f : no_panic (decode_request f) /\ no_panic (decode_response f).
Proof.
  split.
  - unfold decode_request, decode_frame_body. apply no_panic_bind; [panic_free|].
    intros body (b' & _ & H)%obind_Ok_inv. case_hyp H; [|done]. injection H as ->. bool_prop.
    unfold REQUEST_BODY_LEN in *. panic_free.
  - unfold decode_response, body_u64. apply no_panic_bind; [auto with panicfree|]. intros body _.
    panic_step. panic_step. destruct (byte_at 1 body); [|done].
    destruct (_ && _) eqn:E.
    + bool_prop. unfold METRICS_RESPONSE_BODY_LEN in *.
      repeat (apply no_panic_bind; [apply no_panic_bind; [apply no_panic_index_slice; lia|done]|intros]). done.
    + apply no_panic_guard. intros E1. bool_prop. unfold FAILURE_RESPONSE_BODY_LEN in *.
      apply no_panic_bind; [apply no_panic_index_byte; lia|]. intros code _. by destruct code.
Qed.
