(* ===== verification/RiskLex.v ===== *)
(** * Shell-text scanning of the risk classifier

    The lexical functions of [aic-client/src/risk_guard.rs]: quote-aware scanning,
    splitting into segments, tokenising, stripping of prefixes. The source scans with a
    byte index; here the scanners recurse on the text that is left. Slices are taken at
    ASCII bytes, which are character boundaries. *)

From S2P Require Import Prelude RustStr.

Local Open Scope nat_scope.

Definition SQ : byte := x27.
Definition DQ : byte := x22.
Definition BSLASH : byte := x5c.

(** [q == double quote && b == backslash]: the escape inside double quotes. *)
Definition dq_escape (q b : byte) : bool := bool_decide (q = DQ) && bool_decide (b = BSLASH).
Definition is_bslash (b : byte) : bool := bool_decide (b = BSLASH).

(** The quote state after byte [b] inside quotes [q]. *)
Definition close_quote (q b : byte) : option byte := if bool_decide (b = q) then None else Some q.

(** ** Substitutions *)

Fixpoint has_dollar_paren (s : str) : bool :=
  match s with
  | a :: (b :: _) as tl => (bool_decide (a = x24) && bool_decide (b = x28)) || has_dollar_paren tl
  | _ => false
  end.

Definition contains_unbounded_substitution (cmd : str) : bool :=
  bool_decide (x60 ∈ cmd) || has_dollar_paren cmd.

(** ** Segments *)

(** A separator: semicolon, pipe or ampersand. *)
Definition is_sep (b : byte) : bool :=
  bool_decide (b = x3b) || bool_decide (b = x7c) || bool_decide (b = x26).

(** [cur] is the text since [start]; the second separator byte of [||] and [&&] is
    consumed with the first. *)
Fixpoint split_loop (quote : option byte) (cur s : str) : list str :=
  match s with
  | [] => if bool_decide (cur = []) then [] else [cur]
  | b :: tl =>
      match quote with
      | Some q =>
          match tl with
          | n :: rest =>
              if dq_escape q b then split_loop quote (cur ++ [b; n]) rest
              else split_loop (close_quote q b) (cur ++ [b]) tl
          | [] => split_loop (close_quote q b) (cur ++ [b]) tl
          end
      | None =>
          if is_quote b then split_loop (Some b) (cur ++ [b]) tl
          else
            match tl with
            | n :: rest =>
                if is_bslash b then split_loop None (cur ++ [b; n]) rest
                else if is_sep b then
                  if bool_decide (b = n) && negb (bool_decide (b = x3b))
                  then cur :: split_loop None [] rest
                  else cur :: split_loop None [] tl
                else split_loop None (cur ++ [b]) tl
            | [] =>
                if is_sep b then cur :: split_loop None [] tl
                else split_loop None (cur ++ [b]) tl
            end
      end
  end.

Definition is_blank (s : str) : bool := bool_decide (trim s = []).

Definition split_top_level (cmd : str) : list str :=
  filter (fun s => is_blank s = false) (split_loop None [] cmd).

(** ** Prefixes *)

(** [token.rsplit('/').next()] *)
Definition base_name (token : str) : str := default token (last (split_byte x2f token)).

(** [rest.split_whitespace().next().unwrap_or("")], then what follows it, trimmed. *)
Definition after_word (rest : str) : str :=
  trim_start (drop (length (first_word rest)) rest).

Definition is_env_name (name : str) : bool :=
  negb (bool_decide (name = []))
  && forallb (fun c => is_ascii_alphanumeric c || bool_decide (c = x5f)) name.

(** [head] is an assignment [NAME=value]. *)
Definition is_assignment (head : str) : bool :=
  match find_byte x3d head with
  | Some eq => is_env_name (take eq head)
  | None => false
  end.

(** Every round drops a non-empty word, so the length of the text is enough fuel. *)
Fixpoint strip_env_loop (fuel : nat) (rest : str) : str :=
  match fuel with
  | O => rest
  | S fuel' =>
      let head := first_word rest in
      if bool_decide (head = []) then rest
      else if is_assignment head then strip_env_loop fuel' (after_word rest)
      else rest
  end.

Definition strip_env_prefix (segment : str) : str :=
  strip_env_loop (S (length segment)) (trim_start segment).

(** The options after [sudo]: [--long], short ones of at most two letters, and the
    argument of [-u], [-g], [-U]. *)
Fixpoint skip_options (fuel : nat) (rest : str) : str :=
  match fuel with
  | O => rest
  | S fuel' =>
      let next := first_word rest in
      if starts_with (lit "--") next && negb (bool_decide (x3d ∈ next))
      then skip_options fuel' (after_word rest)
      else if starts_with (lit "-") next && (length next <=? 3) then
        let rest := after_word rest in
        if bool_decide (next ∈ [lit "-u"; lit "-g"; lit "-U"]) then
          let arg := first_word rest in
          if bool_decide (arg = []) then skip_options fuel' rest
          else skip_options fuel' (after_word rest)
        else skip_options fuel' rest
      else rest
  end.

Fixpoint strip_privilege_loop (fuel : nat) (rest : str) (used : bool) : str * bool :=
  match fuel with
  | O => (rest, used)
  | S fuel' =>
      let head_base := base_name (first_word rest) in
      if bool_decide (head_base ∈ [lit "sudo"; lit "doas"]) then
        let rest := after_word rest in
        strip_privilege_loop fuel' (skip_options (S (length rest)) rest) true
      else if bool_decide (head_base = lit "env") then (after_word rest, used)
      else (rest, used)
  end.

Definition strip_privilege_prefix (segment : str) : str * bool :=
  strip_privilege_loop (S (length segment)) (trim_start segment) false.

(** ** Redirections and pipes *)

Definition is_harmless_device_sink (s : str) : bool :=
  bool_decide (s ∈ [lit "/dev/null"; lit "/dev/stdout"; lit "/dev/stderr"; lit "/dev/tty"]).

Definition is_system_path (s : str) : bool :=
  let s := trim_matches is_quote s in
  starts_with (lit "/etc/") s || bool_decide (s = lit "/etc") || starts_with (lit "/dev/") s
  || bool_decide (s = lit "/dev/sda") || starts_with (lit "/boot/") s
  || starts_with (lit "/sys/") s || starts_with (lit "/proc/") s.

(** The target of the redirection whose operator is followed by [tl], if it is a
    system path and not a harmless sink. *)
Definition redirect_is_dangerous (tl : str) : bool :=
  let target := trim_start (drop_while (fun c => bool_decide (c = x3e)) tl) in
  let target_first := first_word target in
  negb (is_harmless_device_sink (trim_matches is_quote target_first)) && is_system_path target_first.

(** The scan of [classify_redirect], which knows no escape outside quotes. *)
Fixpoint redirect_loop (quote : option byte) (s : str) : bool :=
  match s with
  | [] => false
  | b :: tl =>
      match quote with
      | Some q =>
          match tl with
          | _ :: rest =>
              if dq_escape q b then redirect_loop quote rest
              else redirect_loop (close_quote q b) tl
          | [] => false
          end
      | None =>
          if is_quote b then redirect_loop (Some b) tl
          else if bool_decide (b = x3e) && redirect_is_dangerous tl then true
          else redirect_loop None tl
      end
  end.

Definition SHELLS : list str :=
  [lit "sh"; lit "bash"; lit "zsh"; lit "dash"; lit "ksh"; lit "fish"].

(** The command after a pipe is a shell. *)
Definition rhs_is_shell (tl : str) : bool :=
  let rhs := strip_env_prefix (trim_start tl) in
  let rhs := (strip_privilege_prefix rhs).1 in
  bool_decide (base_name (first_word rhs) ∈ SHELLS).

Fixpoint pipe_loop (quote : option byte) (s : str) : bool :=
  match s with
  | [] => false
  | b :: tl =>
      match quote with
      | Some q =>
          match tl with
          | _ :: rest =>
              if dq_escape q b then pipe_loop quote rest else pipe_loop (close_quote q b) tl
          | [] => false
          end
      | None =>
          if is_quote b then pipe_loop (Some b) tl
          else
            match tl with
            | n :: rest =>
                if is_bslash b then pipe_loop None rest
                else if bool_decide (b = x7c) then
                  if bool_decide (n = x7c) then pipe_loop None rest
                  else if rhs_is_shell tl then true else pipe_loop None tl
                else pipe_loop None tl
            | [] => bool_decide (b = x7c) && rhs_is_shell tl
            end
      end
  end.

(** A target that [>] would create or overwrite. *)
Definition overwrites (tl : str) : bool :=
  let target := trim_start tl in
  if starts_with (lit "&") target then false
  else
    let cleaned := trim_matches is_quote (first_word target) in
    negb (bool_decide (cleaned = [])) && negb (is_harmless_device_sink cleaned).

Fixpoint overwrite_loop (quote : option byte) (s : str) : bool :=
  match s with
  | [] => false
  | b :: tl =>
      match quote with
      | Some q =>
          match tl with
          | _ :: rest =>
              if dq_escape q b then overwrite_loop quote rest
              else overwrite_loop (close_quote q b) tl
          | [] => false
          end
      | None =>
          if is_quote b then overwrite_loop (Some b) tl
          else
            match tl with
            | n :: rest =>
                if is_bslash b then overwrite_loop None rest
                else if bool_decide (b = x3e) then
                  if bool_decide (n = x3e) then overwrite_loop None rest
                  else if overwrites tl then true else overwrite_loop None tl
                else overwrite_loop None tl
            | [] => false
            end
      end
  end.

Definition has_overwrite_redirect (command : str) : bool := overwrite_loop None command.

(** ** Tokens *)

(** [b as char] pushed to a [String]: a byte is read as Latin-1. *)
Definition latin1 (b : byte) : str :=
  if (b2z b <? 128)%Z then [b]
  else [byte.of_Z (192 + Z.shiftr (b2z b) 6); byte.of_Z (128 + Z.land (b2z b) 63)].

Fixpoint tokenize_loop (quote : option byte) (in_token : bool) (cur s : str) : option (list str) :=
  match s with
  | [] =>
      match quote with
      | Some _ => None
      | None => Some (if in_token then [cur] else [])
      end
  | b :: tl =>
      match quote with
      | Some q =>
          match tl with
          | n :: rest =>
              if dq_escape q b then tokenize_loop quote in_token (cur ++ latin1 n) rest
              else if bool_decide (b = q) then tokenize_loop None in_token cur tl
              else tokenize_loop quote in_token (cur ++ latin1 b) tl
          | [] =>
              if bool_decide (b = q) then tokenize_loop None in_token cur tl
              else tokenize_loop quote in_token (cur ++ latin1 b) tl
          end
      | None =>
          if is_ascii_whitespace b then
            if in_token then cons cur <$> tokenize_loop None false [] tl
            else tokenize_loop None false cur tl
          else if is_quote b then tokenize_loop (Some b) true cur tl
          else
            match tl with
            | n :: rest =>
                if is_bslash b then tokenize_loop None true (cur ++ latin1 n) rest
                else tokenize_loop None true (cur ++ latin1 b) tl
            | [] => tokenize_loop None true (cur ++ latin1 b) tl
            end
      end
  end.

Definition tokenize (segment : str) : option (list str) := tokenize_loop None false [] segment.

(** ** Composition of command lines *)

(** Scanning [s] ends outside quotes, and not just after an escaping backslash. *)
Fixpoint closed (quote : option byte) (s : str) : bool :=
  match s with
  | [] => bool_decide (quote = None)
  | b :: tl =>
      match quote with
      | Some q =>
          match tl with
          | _ :: rest => if dq_escape q b then closed quote rest else closed (close_quote q b) tl
          | [] => closed (close_quote q b) tl
          end
      | None =>
          if is_quote b then closed (Some b) tl
          else
            match tl with
            | _ :: rest => if is_bslash b then closed None rest else closed None tl
            | [] => negb (is_bslash b)
            end
      end
  end.

Abbreviation nonblank := (fun s => is_blank s = false).

Lemma filter_nonblank_nil cur ss :
  filter nonblank ((if bool_decide (cur = []) then [] else [cur]) ++ ss) = filter nonblank (cur :: ss).
Proof.
  case_bool_decide; [|done]. subst. rewrite filter_cons_False; [done|]. by vm_compute.
Qed.

(** The scanner is at most two bytes ahead: induction over lists in steps of two. *)
Lemma list_ind2 (P : str -> Prop) :
  P [] -> (forall b, P [b]) -> (forall b n s, P s -> P (n :: s) -> P (b :: n :: s)) -> forall s, P s.
Proof.
  intros H0 H1 H2 s. assert (P s /\ forall b, P (b :: s)) as [H _]; [|done].
  induction s as [|x s [IHs IHb]]; [done|]. split; [apply IHb|]. intros b. by apply H2.
Qed.

Lemma split_at_semicolon cur b : split_loop None cur (x3b :: b) = cur :: split_loop None [] b.
Proof. destruct b as [|n b]; [done|]. simpl. by rewrite andb_false_r. Qed.

Lemma is_sep_plain x : is_sep x = true -> is_quote x = false /\ is_bslash x = false.
Proof. destruct x; by vm_compute. Qed.

Lemma closed_after_sep n a : is_sep n = true -> closed None (n :: a) = true -> closed None a = true.
Proof.
  intros [Hq Hb]%is_sep_plain. cbn [closed]. rewrite Hq, Hb. by destruct a.
Qed.

Lemma split_end quote cur : closed quote [] = true -> forall b,
  filter nonblank (split_loop quote cur (x3b :: b)) =
  filter nonblank (split_loop quote cur []) ++ filter nonblank (split_loop None [] b).
Proof.
  intros H b. simpl in H. bool_prop. subst. by rewrite split_at_semicolon, <- filter_nonblank_nil, filter_app.
Qed.

Lemma split_plain cur x tl :
  is_quote x = false -> is_bslash x = false -> is_sep x = false ->
  split_loop None cur (x :: tl) = split_loop None (cur ++ [x]) tl.
Proof. intros H1 H2 H3. cbn [split_loop]. rewrite H1, H2, H3. by destruct tl. Qed.

(** A separator that the next byte does not double. *)
Lemma split_sep cur x tl :
  is_sep x = true -> (forall n, head tl = Some n -> x = n -> x = x3b) ->
  split_loop None cur (x :: tl) = cur :: split_loop None [] tl.
Proof.
  intros Hs Hn. pose proof (is_sep_plain x Hs) as [H1 H2]. cbn [split_loop]. rewrite H1, H2, Hs.
  destruct tl as [|n tl]; [done|]. case_bool_decide as E; [|done].
  by rewrite bool_decide_eq_true_2 by (by apply (Hn n)).
Qed.

Lemma dq_escape_self q x : x = q -> dq_escape q x = false.
Proof. intros ->. by destruct q; vm_compute. Qed.

(** One step on a text of at least two bytes. *)
Lemma split_cons2 quote cur x n tl :
  split_loop quote cur (x :: n :: tl) =
  match quote with
  | Some q =>
      if dq_escape q x then split_loop quote (cur ++ [x; n]) tl
      else split_loop (close_quote q x) (cur ++ [x]) (n :: tl)
  | None =>
      if is_quote x then split_loop (Some x) (cur ++ [x]) (n :: tl)
      else if is_bslash x then split_loop None (cur ++ [x; n]) tl
      else if is_sep x then
        if bool_decide (x = n) && negb (bool_decide (x = x3b))
        then cur :: split_loop None [] tl else cur :: split_loop None [] (n :: tl)
      else split_loop None (cur ++ [x]) (n :: tl)
  end.
Proof. by destruct quote. Qed.

Lemma closed_cons2 quote x n tl :
  closed quote (x :: n :: tl) =
  match quote with
  | Some q => if dq_escape q x then closed quote tl else closed (close_quote q x) (n :: tl)
  | None =>
      if is_quote x then closed (Some x) (n :: tl)
      else if is_bslash x then closed None tl else closed None (n :: tl)
  end.
Proof. by destruct quote. Qed.

(** A semicolon composes command lines: when [a] is lexically complete, the
    segments of [a ; b] are the segments of [a] followed by the segments of [b]. *)
Lemma split_loop_semicolon a : forall quote cur b,
  closed quote a = true ->
  filter nonblank (split_loop quote cur (a ++ x3b :: b)) =
  filter nonblank (split_loop quote cur a) ++ filter nonblank (split_loop None [] b).
Proof.
  induction a as [|x|x n a IH1 IH2] using list_ind2; intros quote cur b Hc.
  - by apply split_end.
  - destruct quote as [q|]; cbn [closed app] in Hc |- *.
    + assert (x = q) by (bool_prop; unfold close_quote in Hc; by case_bool_decide).
      cbn [split_loop]. rewrite dq_escape_self by done. by apply split_end.
    + destruct (is_quote x) eqn:Q; [by bool_prop|]. apply negb_true_iff in Hc.
      destruct (is_sep x) eqn:S.
      * rewrite (split_sep cur x (x3b :: b)), (split_sep cur x []) by (done || (intros ? [= <-]; done)).
        rewrite !filter_cons, split_end by done. by case_decide.
      * rewrite (split_plain cur x (x3b :: b)), (split_plain cur x []) by done. by apply split_end.
  - change ((x :: n :: a) ++ x3b :: b) with (x :: n :: a ++ x3b :: b).
    rewrite closed_cons2 in Hc. rewrite !split_cons2. destruct quote as [q|].
    + destruct (dq_escape q x); [by apply IH1 | by apply IH2].
    + destruct (is_quote x); [by apply IH2|]. destruct (is_bslash x); [by apply IH1|].
      destruct (is_sep x) eqn:S; [|by apply IH2].
      destruct (bool_decide (x = n) && negb (bool_decide (x = x3b))) eqn:D.
      * bool_prop. subst n. apply closed_after_sep in Hc; [|done].
        rewrite !filter_cons, IH1 by done. by case_decide.
      * pose proof (IH2 None [] b Hc) as IH. cbn [app] in IH. rewrite !filter_cons, IH. by destruct (decide (is_blank cur = false)).
Qed.

Lemma has_dollar_paren_semicolon a b :
  has_dollar_paren (a ++ x3b :: b) = has_dollar_paren a || has_dollar_paren b.
Proof.
  induction a as [|x [|y a] IH]; cbn [app has_dollar_paren] in *.
  - by destruct b.
  - rewrite (bool_decide_eq_false_2 (x3b = x28)), andb_false_r by done. apply IH.
  - by rewrite IH, orb_assoc.
Qed.

Lemma substitution_semicolon a b :
  contains_unbounded_substitution a = false -> contains_unbounded_substitution b = false ->
  contains_unbounded_substitution (a ++ x3b :: b) = false.
Proof.
  unfold contains_unbounded_substitution. rewrite !orb_false_iff, has_dollar_paren_semicolon.
  intros [Ha ->] [Hb ->]. split; [|done]. apply bool_decide_eq_false in Ha, Hb. apply bool_decide_eq_false_2.
  rewrite elem_of_app, elem_of_cons. intros [?|[?|?]]; done.
Qed.

Lemma pipe_cons2 quote x n tl :
  pipe_loop quote (x :: n :: tl) =
  match quote with
  | Some q => if dq_escape q x then pipe_loop quote tl else pipe_loop (close_quote q x) (n :: tl)
  | None =>
      if is_quote x then pipe_loop (Some x) (n :: tl)
      else if is_bslash x then pipe_loop None tl
      else if bool_decide (x = x7c) then
        if bool_decide (n = x7c) then pipe_loop None tl
        else if rhs_is_shell (n :: tl) then true else pipe_loop None (n :: tl)
      else pipe_loop None (n :: tl)
  end.
Proof. by destruct quote. Qed.

(** A pipe into a shell is still seen behind a lexically complete text. *)
Lemma pipe_loop_semicolon a : forall quote b,
  closed quote a = true -> pipe_loop None b = true -> pipe_loop quote (a ++ x3b :: b) = true.
Proof.
  assert (Hsep : forall b, pipe_loop None b = true -> pipe_loop None (x3b :: b) = true) by (intros [|? ?]; done).
  induction a as [|x|x n a IH1 IH2] using list_ind2; intros quote b Hc Hb.
  - cbn [closed] in Hc. bool_prop. subst. by apply Hsep.
  - destruct quote as [q|]; cbn [closed app pipe_loop] in Hc |- *.
    + assert (x = q) by (bool_prop; unfold close_quote in Hc; by case_bool_decide). subst.
      rewrite dq_escape_self by done. unfold close_quote. rewrite bool_decide_eq_true_2 by done. by apply Hsep.
    + destruct (is_quote x); [by bool_prop|]. destruct (is_bslash x); [done|].
      rewrite (bool_decide_eq_false_2 (x3b = x7c)) by done. destruct (bool_decide (x = x7c)); [|by apply Hsep].
      destruct (rhs_is_shell _); [done|]. by apply Hsep.
  - change ((x :: n :: a) ++ x3b :: b) with (x :: n :: a ++ x3b :: b).
    rewrite closed_cons2 in Hc. rewrite pipe_cons2. destruct quote as [q|].
    + destruct (dq_escape q x); [by apply IH1 | by apply IH2].
    + destruct (is_quote x); [by apply IH2|]. destruct (is_bslash x); [by apply IH1|].
      destruct (bool_decide (x = x7c)); [|by apply IH2]. case_bool_decide as En.
      * subst n. apply closed_after_sep in Hc; [|done]. by apply IH1.
      * destruct (rhs_is_shell _); [done|]. by apply IH2.
Qed.

(** ** Privileged prefixes *)

Definition PRIVILEGED : list str := [lit "sudo"; lit "doas"].

Lemma strip_privilege_used fuel rest : (strip_privilege_loop fuel rest true).2 = true.
Proof.
  revert rest; induction fuel as [|fuel IH]; intros rest; cbn [strip_privilege_loop]; [done|].
  case_bool_decide; [apply IH|]. by case_bool_decide.
Qed.

(** Text that is one of the names, alone or followed by a space. *)
Definition privileged_text (s : str) : Prop :=
  exists name, name ∈ PRIVILEGED /\ (s = name \/ exists u, s = name ++ x20 :: u).

Lemma privileged_name name :
  name ∈ PRIVILEGED ->
  Forall (fun b => is_plain b = true) name /\ name <> [] /\ is_assignment name = false /\
  base_name name = name /\ first_word name = name /\
  exists p c, name = p ++ [c] /\ is_plain c = true.
Proof.
  unfold PRIVILEGED. rewrite !elem_of_cons, elem_of_nil. intros [->|[->|[]]];
    (split; [by_decide|]; do 4 (split; [by vm_compute|])).
  - by exists (lit "sud"), x6f.
  - by exists (lit "doa"), x73.
Qed.

Lemma privileged_first_word s name :
  name ∈ PRIVILEGED -> (s = name \/ exists u, s = name ++ x20 :: u) ->
  first_word s = name /\ trim_start s = s.
Proof.
  intros Hn Hs. destruct (privileged_name name Hn) as (Hp & Hne & _ & _ & Hf & _).
  assert (Ht : trim_start s = s).
  { destruct name as [|a name]; [done|]. invc Hp. destruct Hs as [->|[u ->]]; by apply trim_start_plain. }
  destruct Hs as [->|[u ->]]; [done|]. split; [by apply first_word_plain|done].
Qed.

Lemma privileged_detected s :
  privileged_text s -> (strip_privilege_prefix (strip_env_prefix s)).2 = true.
Proof.
  intros (name & Hn & Hs). destruct (privileged_first_word s name Hn Hs) as [Hw Ht].
  destruct (privileged_name name Hn) as (_ & Hne & Ha & Hb & _ & _).
  assert (Henv : strip_env_prefix s = s).
  { unfold strip_env_prefix. cbn [strip_env_loop]. rewrite Ht, Hw, bool_decide_eq_false_2, Ha by done. done. }
  rewrite Henv. unfold strip_privilege_prefix. cbn [strip_privilege_loop]. rewrite Ht, Hw, Hb.
  rewrite bool_decide_eq_true_2 by done. apply strip_privilege_used.
Qed.

(** Trimming such a text gives such a text. *)
Lemma privileged_trim s : privileged_text s -> privileged_text (trim s).
Proof.
  intros (name & Hn & Hs). destruct (privileged_first_word s name Hn Hs) as [_ Ht]. unfold trim. rewrite Ht.
  destruct (privileged_name name Hn) as (_ & _ & _ & _ & _ & p & c & Hname & Hc).
  exists name. split; [done|]. destruct Hs as [->|[u ->]]; rewrite Hname.
  - left. destruct (trim_end_keeps p c [] Hc) as (u' & Hu & Hp). rewrite Hu.
    by apply prefix_nil_inv in Hp as ->.
  - rewrite <- app_assoc. simpl. destruct (trim_end_keeps p c (x20 :: u) Hc) as (u' & -> & [k Hk]).
    destruct u' as [|y u']; [by left|]. right. injection Hk as <- _. exists u'. by rewrite <- app_assoc.
Qed.

(** The first segment of a scan that has already read [cur]. *)
Lemma split_loop_first s : forall quote cur, cur <> [] ->
  exists v rest, split_loop quote cur s = (cur ++ v) :: rest /\ v `prefix_of` s.
Proof.
  induction s as [|x|x n s IH1 IH2] using list_ind2; intros quote cur Hne.
  - exists [], []. cbn [split_loop]. rewrite bool_decide_eq_false_2, app_nil_r by done. done.
  - assert (Hx : cur ++ [x] <> []) by (by destruct cur).
    assert (Hend : forall q, exists v rest, split_loop q (cur ++ [x]) [] = (cur ++ v) :: rest /\ v `prefix_of` [x]).
    { intros q. exists [x], []. cbn [split_loop]. by rewrite bool_decide_eq_false_2. }
    destruct quote as [q|]; cbn [split_loop]; rewrite ?(bool_decide_eq_false_2 (cur ++ [x] = [])) by done;
      [by exists [x], []|].
    destruct (is_quote x); [by exists [x], []|]. destruct (is_sep x); [|by exists [x], []].
    exists [], []. split; [by rewrite app_nil_r|apply prefix_nil].
  - rewrite split_cons2.
    assert (H1 : forall q, exists v rest, split_loop q (cur ++ [x]) (n :: s) = (cur ++ v) :: rest /\ v `prefix_of` x :: n :: s).
    { intros q. destruct (IH2 q (cur ++ [x])) as (v & rest & -> & Hv); [by destruct cur|].
      exists (x :: v), rest. rewrite <- app_assoc. split; [done|]. by apply prefix_cons. }
    assert (H2 : forall q, exists v rest, split_loop q (cur ++ [x; n]) s = (cur ++ v) :: rest /\ v `prefix_of` x :: n :: s).
    { intros q. destruct (IH1 q (cur ++ [x; n])) as (v & rest & -> & Hv); [by destruct cur|].
      exists (x :: n :: v), rest. rewrite <- app_assoc. split; [done|]. by do 2 apply prefix_cons. }
    assert (H0 : forall r, exists v rest, cur :: r = (cur ++ v) :: rest /\ v `prefix_of` x :: n :: s).
    { intros r. exists [], r. rewrite app_nil_r. split; [done|]. apply prefix_nil. }
    destruct quote as [q|].
    + destruct (dq_escape q x); auto.
    + destruct (is_quote x); [auto|]. destruct (is_bslash x); [auto|]. destruct (is_sep x); [|auto].
      destruct (_ && _); auto.
Qed.

(** A text that begins with a plain byte other than a separator has a segment. *)
Lemma segment_exists x s : is_plain x = true -> is_sep x = false -> split_top_level (x :: s) <> [].
Proof.
  intros Hp Hs. assert (H : exists v rest, split_loop None [] (x :: s) = (x :: v) :: rest).
  { destruct s as [|n s]; [cbn [split_loop]; rewrite Hs; exists [], []; by destruct (is_quote x)|].
    assert (H1 : forall q, exists v rest, split_loop q [x] (n :: s) = (x :: v) :: rest).
    { intros q. destruct (split_loop_first (n :: s) q [x]) as (v & rest & -> & _); [done|]. by eexists _, _. }
    rewrite split_cons2, Hs. destruct (is_quote x); [apply H1|]. destruct (is_bslash x); [|apply H1].
    destruct (split_loop_first s None [x; n]) as (v & rest & Hf & _); [done|]. cbn [app]. rewrite Hf. by eexists _, _. }
  destruct H as (v & rest & Hf). unfold split_top_level. rewrite Hf, filter_cons_True; [done|].
  unfold is_blank, trim. rewrite trim_start_plain by done. apply bool_decide_eq_false_2.
  destruct (trim_end_keeps [] x v Hp) as (u & Hu & _). cbn [app] in Hu. by rewrite Hu.
Qed.

Lemma privileged_segment s :
  privileged_text s -> exists seg, seg ∈ split_top_level s /\ privileged_text (trim seg).
Proof.
  intros (name & Hn & Hs).
  assert (Hsp : exists u, s = name ++ u /\ (u = [] \/ exists w, u = x20 :: w)).
  { destruct Hs as [->|[u ->]]; [exists []; rewrite app_nil_r; auto | eauto]. }
  destruct Hsp as (u & -> & Hu).
  assert (Hloop : split_loop None [] (name ++ u) = split_loop None name u).
  { unfold PRIVILEGED in Hn. rewrite !elem_of_cons, elem_of_nil in Hn.
    destruct Hn as [->|[->|[]]];
      [change (lit "sudo" ++ u) with (x73 :: x75 :: x64 :: x6f :: u)
      |change (lit "doas" ++ u) with (x64 :: x6f :: x61 :: x73 :: u)];
      by rewrite !split_plain by done. }
  destruct (privileged_name name Hn) as (_ & Hne & _).
  destruct (split_loop_first u None name Hne) as (v & rest & Hfirst & [k Hk]).
  assert (Hpriv : privileged_text (name ++ v)).
  { exists name. split; [done|]. destruct v as [|y v]; [left; apply app_nil_r|]. right. exists v.
    destruct Hu as [->|[w ->]]; [done|]. by injection Hk as -> _. }
  exists (name ++ v). split; [|by apply privileged_trim].
  unfold split_top_level. rewrite Hloop, Hfirst. apply list_elem_of_filter. split; [|left].
  unfold is_blank. apply bool_decide_eq_false_2. intros E.
  apply privileged_trim in Hpriv as (nm & Hnm & Hts). rewrite E in Hts.
  destruct (privileged_name nm Hnm) as (_ & Hnn & _). destruct Hts as [<-|[w Hw]]; [done|]. by destruct nm.
Qed.
