(* ===== verification/RiskGuardSpec.v ===== *)
(** * What runs without confirmation

    Command lines put together from calls whose words are bare or in single quotes, joined by any
    of the shell's separators, and what [RiskGuard.classify] makes of them: the splitting, the quotes, the
    prefixes, the redirections and the pipes are told from the outside, by the text a line is printed as. *)

From S2P Require Import Prelude RustStr RiskLex RiskGuard.

Local Open Scope nat_scope.

(** ** Command lines *)

(** A byte of a bare word, of a program's name, and of a quoted word. *)
Definition bare_byte (b : byte) : bool := is_ascii_alphanumeric b || bool_decide (b ∈ lit "-_./+=:,@%").
Definition prog_byte (b : byte) : bool := bare_byte b && negb (bool_decide (b = x3d)).
Definition quoted_byte (b : byte) : bool := (b2z b <? 128)%Z && negb (bool_decide (b ∈ [x27; x60; x24])).

Inductive cword := Bare (s : str) | Quoted (s : str).

Definition value (w : cword) : str := match w with Bare s | Quoted s => s end.
Definition word_text (w : cword) : str := match w with Bare s => s | Quoted s => x27 :: s ++ [x27] end.
Definition word_ok (w : cword) : Prop :=
  match w with
  | Bare s => s <> [] /\ Forall (fun b => bare_byte b = true) s
  | Quoted s => Forall (fun b => quoted_byte b = true) s
  end.

Record call := { prog : str; words : list cword }.

Definition args (c : call) : list str := value <$> words c.
Definition words_text (ws : list cword) : str := mjoin ((fun w => x20 :: word_text w) <$> ws).
Definition call_text (c : call) : str := prog c ++ words_text (words c).
Definition call_ok (c : call) : Prop :=
  prog c <> [] /\ Forall (fun b => prog_byte b = true) (prog c) /\ base_name (prog c) <> lit "env" /\ Forall word_ok (words c).

Inductive separator := Semi | Pipe | Background | AndThen | OrElse.

Definition sep_text (k : separator) : str :=
  match k with
  | Semi => lit " ; " | Pipe => lit " | " | Background => lit " & " | AndThen => lit " && " | OrElse => lit " || "
  end.

Definition more_text (cs : list (separator * call)) : str := mjoin ((fun kc => sep_text kc.1 ++ call_text kc.2) <$> cs).
Definition line (c : call) (cs : list (separator * call)) : str := call_text c ++ more_text cs.

(** The table of safe calls lists the call, the table of dangerous ones does not. *)
Definition listed (c : call) : Prop :=
  match_dangerous (base_name (prog c)) (args c) = None /\ is_Some (match_safe (base_name (prog c)) (args c)).

(** Programs that change or send something, or run what they are given. *)
Definition NEVER : list str :=
  [lit "rm"; lit "mv"; lit "cp"; lit "dd"; lit "tee"; lit "chmod"; lit "chown"; lit "kill"; lit "pkill"; lit "killall";
   lit "ssh"; lit "scp"; lit "sftp"; lit "rsync"; lit "nc"; lit "socat"; lit "telnet"; lit "curl"; lit "wget";
   lit "sh"; lit "bash"; lit "zsh"; lit "dash"; lit "ksh"; lit "fish"; lit "eval"; lit "exec"; lit "xargs";
   lit "python"; lit "perl"; lit "node"; lit "sudo"; lit "doas"; lit "su"; lit "mkfs"; lit "shutdown"; lit "reboot";
   lit "halt"; lit "poweroff"; lit "make"; lit "service"; lit "terraform"; lit "apt-get"; lit "mount"].

(** Programs that only read. *)
Definition ALWAYS : list str :=
  [lit "ls"; lit "cat"; lit "head"; lit "tail"; lit "grep"; lit "wc"; lit "cut"; lit "tr"; lit "echo"; lit "pwd";
   lit "id"; lit "whoami"; lit "uname"; lit "uptime"; lit "stat"; lit "file"; lit "df"; lit "du"; lit "free"; lit "ps"].

(** ** Text the scanners pass over *)

Inductive quiet : str -> Prop :=
| quiet_nil : quiet []
| quiet_byte b s : is_quote b = false -> is_bslash b = false -> is_sep b = false -> b <> x3e -> quiet s -> quiet (b :: s)
| quiet_quoted w s : x27 ∉ w -> quiet s -> quiet (x27 :: w ++ x27 :: s).

Lemma quiet_app s t : quiet s -> quiet t -> quiet (s ++ t).
Proof.
  induction 1; intros Ht; cbn [app]; [done|constructor; auto|]. rewrite <- app_assoc. cbn [app]. apply quiet_quoted; auto.
Qed.

Lemma split_in_quote w : forall cur t, x27 ∉ w ->
  split_loop (Some x27) cur (w ++ x27 :: t) = split_loop None (cur ++ w ++ [x27]) t.
Proof.
  induction w as [|b w IH]; intros cur t Hw.
  - destruct t; reflexivity.
  - apply not_elem_of_cons in Hw as [Hb Hw]. replace (cur ++ (b :: w) ++ [x27]) with ((cur ++ [b]) ++ w ++ [x27]) by (by rewrite <- app_assoc).
    rewrite <- IH by done. cbn [app split_loop]. unfold close_quote. rewrite (bool_decide_eq_false_2 (b = x27)) by done.
    by destruct (w ++ x27 :: t).
Qed.

Lemma split_quiet s : quiet s -> forall cur t, split_loop None cur (s ++ t) = split_loop None (cur ++ s) t.
Proof.
  induction 1 as [|b s Hq Hb Hs _ _ IH|w s Hw _ IH]; intros cur t.
  - by rewrite app_nil_r.
  - cbn [app]. rewrite split_plain, IH by done. by rewrite <- app_assoc.
  - cbn [app]. rewrite <- app_assoc. cbn [app].
    transitivity (split_loop (Some x27) (cur ++ [x27]) (w ++ x27 :: s ++ t)); [by destruct w|].
    rewrite split_in_quote, IH by done. f_equal. by rewrite <- !app_assoc.
Qed.

Lemma redirect_quiet s t : quiet s -> redirect_loop None (s ++ t) = redirect_loop None t.
Proof.
  assert (Hin : forall w u, x27 ∉ w -> redirect_loop (Some x27) (w ++ x27 :: u) = redirect_loop None u).
  { induction w as [|b w IH]; intros u Hw; [by destruct u|]. apply not_elem_of_cons in Hw as [Hb Hw].
    rewrite <- (IH u Hw). cbn [app redirect_loop]. unfold close_quote. rewrite (bool_decide_eq_false_2 (b = x27)) by done.
    by destruct w. }
  induction 1 as [|b s Hq Hb Hs Hg _ IH|w s Hw _ IH]; [done| |].
  - cbn [app redirect_loop]. by rewrite Hq, bool_decide_eq_false_2.
  - cbn [app]. rewrite <- app_assoc. cbn [app]. rewrite <- IH. by apply Hin.
Qed.

Lemma pipe_plain b t : is_quote b = false -> is_bslash b = false -> b <> x7c -> pipe_loop None (b :: t) = pipe_loop None t.
Proof. intros Hq Hb Hp. cbn [pipe_loop]. rewrite Hq, Hb, bool_decide_eq_false_2 by done. by destruct t. Qed.

Lemma pipe_quiet s t : quiet s -> pipe_loop None (s ++ t) = pipe_loop None t.
Proof.
  assert (Hin : forall w u, x27 ∉ w -> pipe_loop (Some x27) (w ++ x27 :: u) = pipe_loop None u).
  { induction w as [|b w IH]; intros u Hw; [by destruct u|]. apply not_elem_of_cons in Hw as [Hb Hw].
    rewrite <- (IH u Hw). cbn [app pipe_loop]. unfold close_quote. rewrite (bool_decide_eq_false_2 (b = x27)) by done.
    by destruct w. }
  induction 1 as [|b s Hq Hb Hs Hg _ IH|w s Hw _ IH]; [done| |].
  - cbn [app]. rewrite pipe_plain; [done..|]. intros ->. by vm_compute in Hs.
  - cbn [app]. rewrite <- app_assoc. cbn [app]. rewrite <- IH. by apply Hin.
Qed.

(** ** The text of a call *)

(** Bytes that no scanner gives a meaning to outside quotes. *)
Definition dull (b : byte) : Prop :=
  is_quote b = false /\ is_bslash b = false /\ is_sep b = false /\ b <> x3e /\ is_plain b = true /\
  is_ascii_whitespace b = false /\ latin1 b = [b] /\ b <> x24 /\ b <> x60.

Lemma bare_dull b : bare_byte b = true -> dull b.
Proof. unfold dull. destruct b; vm_compute; intros [=]; repeat split; discriminate. Qed.

Lemma prog_dull b : prog_byte b = true -> dull b /\ b <> x3d.
Proof. unfold prog_byte. intros [H1 H2]%andb_true_iff. split; [by apply bare_dull|]. by bool_prop. Qed.

Lemma quoted_facts b : quoted_byte b = true -> b <> x27 /\ b <> x24 /\ b <> x60 /\ latin1 b = [b].
Proof.
  unfold quoted_byte, latin1. intros [H1 H2]%andb_true_iff. rewrite H1. apply negb_true_iff, bool_decide_eq_false in H2.
  rewrite !elem_of_cons in H2. repeat split; intros ->; tauto.
Qed.

Lemma quoted_no_quote s : Forall (fun b => quoted_byte b = true) s -> x27 ∉ s.
Proof. intros H Hin. rewrite Forall_forall in H. apply H, quoted_facts in Hin as [? _]. done. Qed.

Lemma dull_quiet s : Forall dull s -> quiet s.
Proof. induction 1 as [|b s (H1 & H2 & H3 & H4 & _) _ IH]; by constructor. Qed.

Lemma bare_word_dull s : Forall (fun b => bare_byte b = true) s -> Forall dull s.
Proof. intros H. eapply Forall_impl; [exact H|]. exact bare_dull. Qed.

Lemma prog_text_dull s : Forall (fun b => prog_byte b = true) s -> Forall dull s.
Proof. intros H. eapply Forall_impl; [exact H|]. intros b Hb. by apply prog_dull. Qed.

Lemma word_quiet w : word_ok w -> quiet (word_text w).
Proof.
  destruct w as [s|s]; cbn [word_ok word_text].
  - intros [_ H]. by apply dull_quiet, bare_word_dull.
  - intros H. apply quiet_quoted; [by apply quoted_no_quote|constructor].
Qed.

Lemma words_quiet ws : Forall word_ok ws -> quiet (words_text ws).
Proof.
  unfold words_text. induction 1 as [|w ws Hw _ IH]; [constructor|].
  cbn [fmap list_fmap mjoin list_join]. cbn [app]. apply quiet_byte; [done..|]. apply quiet_app; [by apply word_quiet|done].
Qed.

Lemma call_quiet c : call_ok c -> quiet (call_text c).
Proof. intros (_ & Hp & _ & Hw). apply quiet_app; [by apply dull_quiet, prog_text_dull|by apply words_quiet]. Qed.

(** A line has no substitution, and ends in a plain byte. *)
Definition bland (s : str) : Prop := Forall (fun b => b <> x24 /\ b <> x60) s.

Lemma dull_bland s : Forall dull s -> bland s.
Proof. intros H. eapply Forall_impl; [exact H|]. unfold dull. naive_solver. Qed.

Lemma words_bland ws : Forall word_ok ws -> bland (words_text ws).
Proof.
  unfold words_text. induction 1 as [|w ws Hw _ IH]; [constructor|]. cbn [fmap list_fmap mjoin list_join app].
  apply Forall_cons; split; [by split|]. apply Forall_app. split; [|done]. destruct w as [s|s]; cbn [word_ok word_text] in *.
  - destruct Hw. by apply dull_bland, bare_word_dull.
  - apply Forall_cons; split; [by split|]. apply Forall_app. split; [|by repeat constructor]. eapply Forall_impl; [exact Hw|].
    intros b Hb%quoted_facts. naive_solver.
Qed.

Lemma call_bland c : call_ok c -> bland (call_text c).
Proof. intros (_ & Hp & _ & Hw). apply Forall_app. split; [by apply dull_bland, prog_text_dull|by apply words_bland]. Qed.

Lemma bland_no_substitution s : bland s -> contains_unbounded_substitution s = false.
Proof.
  intros H. unfold contains_unbounded_substitution. rewrite bool_decide_eq_false_2.
  - cbn [orb]. induction H as [|a s [Ha _] _ IH]; [done|]. cbn [has_dollar_paren]. destruct s as [|b s]; [done|].
    by rewrite (bool_decide_eq_false_2 (a = x24)).
  - intros Hin. unfold bland in H. rewrite Forall_forall in H. by apply H in Hin as [_ ?].
Qed.

Lemma word_text_last w : word_ok w -> exists s y, word_text w = s ++ [y] /\ is_plain y = true.
Proof.
  destruct w as [s|s]; cbn [word_ok word_text].
  - intros [Hne H]. destruct s as [|y s _] using rev_ind; [done|]. apply Forall_app in H as [_ H]. invc H.
    exists s, y. split; [done|]. by apply bare_dull.
  - intros _. exists (x27 :: s), x27. by split.
Qed.

Lemma words_text_snoc ws w : words_text (ws ++ [w]) = words_text ws ++ x20 :: word_text w.
Proof. unfold words_text. rewrite fmap_app, join_app. cbn. by rewrite app_nil_r. Qed.

Lemma call_text_ends c : call_ok c ->
  (exists x s, call_text c = x :: s /\ is_plain x = true) /\ exists s y, call_text c = s ++ [y] /\ is_plain y = true.
Proof.
  intros (Hne & Hp & _ & Hw). unfold call_text. split.
  - destruct (prog c) as [|x p]; [done|]. invc Hp. exists x, (p ++ words_text (words c)). split; [done|].
    by apply prog_dull.
  - destruct (words c) as [|w ws _] using rev_ind.
    + destruct (prog c) as [|y p _] using rev_ind; [done|]. apply Forall_app in Hp as [_ H]. invc H.
      exists p, y. split; [by rewrite app_nil_r|]. by apply prog_dull.
    + apply Forall_app in Hw as [_ Hw]. invc Hw. destruct (word_text_last w) as (s & y & E & Hy); [done|].
      exists (prog c ++ words_text ws ++ x20 :: s), y. rewrite words_text_snoc, E, <- !app_assoc. by split.
Qed.

Lemma trim_end_blank s : trim_end (s ++ [x20]) = trim_end s.
Proof. unfold trim_end. by rewrite reverse_app. Qed.

Lemma trim_call c p q : call_ok c -> p ∈ [[]; lit " "] -> q ∈ [[]; lit " "] -> trim (p ++ call_text c ++ q) = call_text c.
Proof.
  intros Hc Hp Hq. destruct (call_text_ends c Hc) as [(x & s & Ex & Px) (s' & y & Ey & Py)].
  assert (Ht : trim (call_text c) = call_text c).
  { apply trim_plain_ends; intros b; [rewrite Ex|rewrite Ey, last_snoc]; by intros [= <-]. }
  rewrite <- Ht at 2. unfold trim. assert (Hs : trim_start (p ++ call_text c ++ q) = call_text c ++ q).
  { rewrite Ex. cbn [app]. rewrite !elem_of_cons, elem_of_nil in Hp.
    destruct Hp as [->|[->|[]]]; [by apply trim_start_plain|]. transitivity (trim_start (x :: s ++ q)); [done|].
    by apply trim_start_plain. }
  assert (trim_start (call_text c) = call_text c) as -> by (rewrite Ex; by apply trim_start_plain).
  rewrite Hs. rewrite !elem_of_cons, elem_of_nil in Hq. destruct Hq as [->|[->|[]]]; [by rewrite app_nil_r|].
  apply trim_end_blank.
Qed.

(** ** The words of a call *)

Lemma tokenize_dull s : Forall dull s -> forall cur inw t,
  tokenize_loop None inw cur (s ++ t) = tokenize_loop None (inw || negb (bool_decide (s = []))) (cur ++ s) t.
Proof.
  induction 1 as [|b s (Hq & Hb & _ & _ & _ & Hw & Hl & _) _ IH]; intros cur inw t.
  - by rewrite orb_false_r, app_nil_r.
  - cbn [app tokenize_loop]. rewrite Hw, Hq, Hb, Hl. rewrite (bool_decide_eq_false_2 (b :: s = [])) by done. rewrite orb_true_r.
    transitivity (tokenize_loop None true (cur ++ [b]) (s ++ t)); [by destruct (s ++ t)|].
    rewrite IH, <- app_assoc. done.
Qed.

Lemma tokenize_in_quote s : Forall (fun b => quoted_byte b = true) s -> forall cur t,
  tokenize_loop (Some x27) true cur (s ++ x27 :: t) = tokenize_loop None true (cur ++ s) t.
Proof.
  induction 1 as [|b s Hb _ IH]; intros cur t; [rewrite app_nil_r; by destruct t|].
  apply quoted_facts in Hb as (Hne & _ & _ & Hl). replace (cur ++ b :: s) with ((cur ++ [b]) ++ s) by (by rewrite <- app_assoc).
  rewrite <- IH. cbn [app tokenize_loop]. rewrite (bool_decide_eq_false_2 (b = x27)), Hl by done. by destruct (s ++ x27 :: t).
Qed.

Lemma tokenize_word w t : word_ok w ->
  tokenize_loop None false [] (word_text w ++ t) = tokenize_loop None true (value w) t.
Proof.
  destruct w as [s|s]; cbn [word_ok word_text value].
  - intros [Hne H]. rewrite tokenize_dull by (by apply bare_word_dull). by rewrite bool_decide_eq_false_2.
  - intros H. cbn [app]. rewrite <- app_assoc. cbn [app]. 
    transitivity (tokenize_loop (Some x27) true [] (s ++ x27 :: t)); [by destruct s|by rewrite tokenize_in_quote].
Qed.

Lemma tokenize_words ws : Forall word_ok ws -> forall cur,
  tokenize_loop None true cur (words_text ws) = Some (cur :: (value <$> ws)).
Proof.
  unfold words_text. induction 1 as [|w ws Hw _ IH]; intros cur; [done|]. cbn [fmap list_fmap mjoin list_join app].
  transitivity (cons cur <$> tokenize_loop None false [] (word_text w ++ mjoin ((fun w => x20 :: word_text w) <$> ws))); [done|].
  by rewrite tokenize_word, IH.
Qed.

Lemma tokenize_call c : call_ok c -> tokenize (call_text c) = Some (prog c :: args c).
Proof.
  intros (Hne & Hp & _ & Hw). unfold tokenize, call_text. rewrite tokenize_dull by (by apply prog_text_dull).
  rewrite bool_decide_eq_false_2 by done. by apply tokenize_words.
Qed.

(** ** Prefixes *)

(** What follows a program's name is nothing or begins with a blank. *)
Definition blank_start (u : str) : Prop := u = [] \/ exists v, u = x20 :: v.

Lemma prog_first_word c u : call_ok c -> blank_start u ->
  first_word (prog c ++ u) = prog c /\ trim_start (prog c ++ u) = prog c ++ u.
Proof.
  intros (Hne & Hp & _ & _) Hu. assert (Hpl : Forall (fun b => is_plain b = true) (prog c)).
  { eapply Forall_impl; [exact Hp|]. intros b Hb%prog_dull. apply Hb. }
  assert (Ht : forall v, trim_start (prog c ++ v) = prog c ++ v).
  { intros v. destruct (prog c); [done|]. invc Hpl. by apply trim_start_plain. }
  split; [|apply Ht]. destruct Hu as [->|[v ->]]; [|by apply first_word_plain].
  rewrite app_nil_r. unfold first_word. rewrite <- (app_nil_r (prog c)) at 1. rewrite Ht, app_nil_r.
  clear Ht Hne Hp. induction Hpl as [|a w Ha Hw IH]; [done|]. cbn [until_ws]. rewrite is_plain_not_ws1 by done.
  destruct w as [|b w]; [done|]. rewrite is_plain_not_ws2 by auto.
  destruct w as [|d w]; rewrite ?is_plain_not_ws3 by auto; by rewrite IH.
Qed.

Lemma prog_strip_env c u : call_ok c -> blank_start u -> strip_env_prefix (prog c ++ u) = prog c ++ u.
Proof.
  intros Hc Hu. destruct (prog_first_word c u Hc Hu) as [Hw Ht]. destruct Hc as (Hne & Hp & _).
  unfold strip_env_prefix. cbn [strip_env_loop]. rewrite Ht, Hw, bool_decide_eq_false_2 by done.
  unfold is_assignment. assert (find_byte x3d (prog c) = None) as ->; [|done]. apply find_byte_None. intros Hin.
  rewrite Forall_forall in Hp. apply Hp, prog_dull in Hin as [_ ?]. done.
Qed.

Lemma prog_strip_privilege c u : call_ok c -> blank_start u ->
  if bool_decide (base_name (prog c) ∈ PRIVILEGED) then (strip_privilege_prefix (prog c ++ u)).2 = true
  else strip_privilege_prefix (prog c ++ u) = (prog c ++ u, false).
Proof.
  intros Hc Hu. destruct (prog_first_word c u Hc Hu) as [Hw Ht]. destruct Hc as (_ & _ & He & _).
  unfold strip_privilege_prefix. cbn [strip_privilege_loop]. rewrite Ht, Hw. unfold PRIVILEGED.
  case_bool_decide; [apply strip_privilege_used|]. by rewrite bool_decide_eq_false_2.
Qed.

Lemma never_unsafe name args : name ∈ NEVER -> match_safe name args = None.
Proof. revert name. apply Forall_forall. repeat (apply Forall_cons_2; [reflexivity|]). apply Forall_nil_2. Qed.

Lemma always_safe name args : name ∈ ALWAYS -> match_dangerous name args = None /\ match_safe name args = Some (safe (lit "safe.readonly")).
Proof. revert name. apply Forall_forall. repeat (apply Forall_cons_2; [by split|]). apply Forall_nil_2. Qed.

Lemma listed_not_never c : listed c -> base_name (prog c) ∉ NEVER.
Proof. intros [_ [a Ha]] Hn. by rewrite never_unsafe in Ha. Qed.

Lemma privileged_never name : name ∈ PRIVILEGED -> name ∈ NEVER.
Proof. revert name. apply Forall_forall. by_decide. Qed.

Lemma shells_never name : name ∈ SHELLS -> name ∈ NEVER.
Proof. revert name. apply Forall_forall. by_decide. Qed.

Lemma words_blank ws u : blank_start u -> blank_start (words_text ws ++ u).
Proof. destruct ws as [|w ws]; [done|]. right. by eexists. Qed.

Section Lines.
Variable lower : str -> str.

(** A call as a segment. *)
Lemma safelisted_call c : call_ok c -> safelisted lower (call_text c) [] <-> listed c.
Proof.
  intros Hc. pose proof (words_blank (words c) [] (or_introl eq_refl)) as Hb. rewrite app_nil_r in Hb.
  unfold safelisted, call_text. rewrite (prog_strip_env c) by done. pose proof (prog_strip_privilege c _ Hc Hb) as Hs.
  fold (call_text c) in *. split.
  - intros (_ & t0 & rest & a & Hu & Ht & _ & Hd & Hm). case_bool_decide; [by rewrite Hu in Hs|]. rewrite Hs in Ht.
    cbn [fst] in Ht. rewrite tokenize_call in Ht by done. injection Ht as <- <-. split; [done|]. by exists a.
  - intros Hl. pose proof (listed_not_never c Hl) as Hn. rewrite bool_decide_eq_false_2 in Hs by (by intros ?%privileged_never).
    rewrite Hs. destruct Hl as [Hd [a Ha]]. split.
    { rewrite <- (app_nil_r (call_text c)). by rewrite redirect_quiet by (by apply call_quiet). }
    exists (prog c), (args c), a. cbn [fst]. by rewrite tokenize_call.
Qed.

(** ** The text of a line *)

Lemma more_blank cs : blank_start (more_text cs).
Proof. destruct cs as [|[[] c] cs]; [by left|right; by eexists..]. Qed.

Lemma more_cons k c cs : more_text ((k, c) :: cs) = sep_text k ++ call_text c ++ more_text cs.
Proof. unfold more_text. cbn. by rewrite <- app_assoc. Qed.

Lemma split_more cs : forall c p, call_ok c -> Forall call_ok cs.*2 -> p ∈ [[]; lit " "] ->
  trim <$> filter nonblank (split_loop None (p ++ call_text c) (more_text cs)) = call_text <$> (c :: cs.*2).
Proof.
  assert (Hone : forall c p q segs, call_ok c -> p ∈ [[]; lit " "] -> q ∈ [[]; lit " "] ->
    trim <$> filter nonblank ((p ++ call_text c ++ q) :: segs) = call_text c :: (trim <$> filter nonblank segs)).
  { intros c p q segs Hc Hp Hq. rewrite filter_cons_True; [cbn; by rewrite trim_call|].
    unfold is_blank. rewrite trim_call by done. apply bool_decide_eq_false_2.
    destruct (call_text_ends c Hc) as [(x & s & -> & _) _]. done. }
  induction cs as [|[k d] cs IH]; intros c p Hc Hcs Hp.
  - cbn [more_text fmap list_fmap mjoin list_join split_loop]. rewrite bool_decide_eq_false_2.
    + rewrite <- (app_nil_r (call_text c)) at 1. by rewrite (Hone c p [] []) by (done || by left).
    + destruct (call_text_ends c Hc) as [(x & s & -> & _) _]. by destruct p.
  - apply Forall_cons in Hcs as [Hd Hcs]. specialize (IH d (lit " ") Hd Hcs ltac:(right; left)).
    assert (Hk : forall cur, split_loop None cur (more_text ((k, d) :: cs)) =
                 (cur ++ lit " ") :: split_loop None (lit " " ++ call_text d) (more_text cs)).
    { intros cur. rewrite more_cons.
      rewrite <- (split_quiet (call_text d)) by (by apply call_quiet). destruct k; cbn [sep_text];
        change (lit " ") with [x20]; destruct (call_text_ends d Hd) as [(x & s & -> & _) _]; reflexivity. }
    rewrite Hk, <- app_assoc, (Hone c p (lit " ")) by (done || (right; left)). cbn [fmap list_fmap snd] in *. by rewrite IH.
Qed.

(** A listed call is no shell behind a pipe. *)
Lemma rhs_listed c u : call_ok c -> listed c -> blank_start u -> rhs_is_shell (x20 :: prog c ++ u) = false.
Proof.
  intros Hc Hl Hu. pose proof (listed_not_never c Hl) as Hn. unfold rhs_is_shell.
  assert (trim_start (x20 :: prog c ++ u) = prog c ++ u) as ->.
  { transitivity (trim_start (prog c ++ u)); [done|]. by apply prog_first_word. }
  rewrite prog_strip_env by done. pose proof (prog_strip_privilege c u Hc Hu) as Hs.
  rewrite bool_decide_eq_false_2 in Hs by (by intros ?%privileged_never). rewrite Hs. cbn [fst].
  destruct (prog_first_word c u Hc Hu) as [-> _]. apply bool_decide_eq_false_2. by intros ?%shells_never.
Qed.

(** No pipe goes into a shell. *)
Lemma pipe_more cs : Forall call_ok cs.*2 -> Forall listed cs.*2 -> pipe_loop None (more_text cs) = false.
Proof.
  induction cs as [|[k c] cs IH]; [done|]. intros [Hc Hcs]%Forall_cons [Hl Hls]%Forall_cons. cbn [snd] in *.
  specialize (IH Hcs Hls). rewrite more_cons.
  assert (Hrest : pipe_loop None (x20 :: call_text c ++ more_text cs) = false).
  { by rewrite pipe_plain, pipe_quiet by (done || by apply call_quiet). }
  assert (Hrhs : rhs_is_shell (x20 :: call_text c ++ more_text cs) = false).
  { unfold call_text. rewrite <- app_assoc. apply rhs_listed; [done..|]. apply words_blank, more_blank. }
  remember (call_text c ++ more_text cs) as t eqn:Et. clear Et.
  destruct k; cbn [sep_text].
  - change (pipe_loop None (x20 :: x3b :: x20 :: t) = false). by rewrite !pipe_plain in * by done.
  - change (pipe_loop None (x20 :: x7c :: x20 :: t) = false). rewrite pipe_plain, pipe_cons2 by done. cbn. by rewrite Hrhs.
  - change (pipe_loop None (x20 :: x26 :: x20 :: t) = false). by rewrite !pipe_plain in * by done.
  - change (pipe_loop None (x20 :: x26 :: x26 :: x20 :: t) = false). by rewrite !pipe_plain in * by done.
  - change (pipe_loop None (x20 :: x7c :: x7c :: x20 :: t) = false). by rewrite pipe_plain, pipe_cons2 by done.
Qed.

Lemma more_bland cs : Forall call_ok cs.*2 -> bland (more_text cs).
Proof.
  induction cs as [|[k c] cs IH]; [constructor|]. intros [Hc Hcs]%Forall_cons. rewrite more_cons. apply Forall_app. split; [destruct k; by_decide|].
  apply Forall_app. split; [by apply call_bland|by apply IH].
Qed.

Lemma more_last cs c : Forall call_ok (c :: cs.*2) -> exists s y, line c cs = s ++ [y] /\ is_plain y = true.
Proof.
  intros [Hc Hcs]%Forall_cons. unfold line. destruct cs as [|[k d] cs _] using rev_ind.
  - destruct (call_text_ends c Hc) as [_ (s & y & -> & Hy)]. exists s, y. by rewrite app_nil_r.
  - rewrite fmap_app in Hcs. apply Forall_app in Hcs as [_ [Hd _]%Forall_cons]. cbn [snd] in Hd.
    destruct (call_text_ends d Hd) as [_ (s & y & E & Hy)]. exists (call_text c ++ more_text cs ++ sep_text k ++ s), y.
    split; [|done]. unfold more_text. rewrite fmap_app, join_app. cbn. rewrite E, app_nil_r, <- !app_assoc. done.
Qed.

Lemma call_line_trim c cs : Forall call_ok (c :: cs.*2) -> trim (line c cs) = line c cs.
Proof.
  intros H. apply trim_plain_ends; intros b.
  - apply Forall_cons in H as [Hc _]. unfold line. destruct (call_text_ends c Hc) as [(x & s & -> & Hx) _]. by intros [= <-].
  - destruct (more_last cs c H) as (s & y & -> & Hy). rewrite last_snoc. by intros [= <-].
Qed.

(** C8: a command line of calls, their words bare or in single quotes and joined by any of the
    shell's separators, runs without confirmation exactly if every one of its calls, with the words it
    really has, is listed as safe and not as dangerous: no call hides behind another, and nothing
    in quotes counts as a separator, a redirection or a pipe. In particular it never does if one of
    the calls, whichever, is of a program that changes or sends something or runs what it is
    given; and it always does if all of them are of programs that only read. *)
Theorem line_runs_iff_listed c cs :
  Forall call_ok (c :: cs.*2) ->
  let runs := allows_auto_confirm (level (classify lower (line c cs))) = true in
  (runs <-> Forall listed (c :: cs.*2)) /\
  (Exists (fun d => base_name (prog d) ∈ NEVER) (c :: cs.*2) -> ~ runs) /\
  (Forall (fun d => base_name (prog d) ∈ ALWAYS) (c :: cs.*2) -> runs).
Proof.
  intros Hok. cbv zeta.
  assert (Hiff : allows_auto_confirm (level (classify lower (line c cs))) = true <-> Forall listed (c :: cs.*2)).
  { unfold classify. rewrite auto_run_spec, call_line_trim by done. pose proof Hok as [Hc Hcs]%Forall_cons.
    assert (Hseg : trim <$> split_top_level (line c cs) = call_text <$> (c :: cs.*2)).
    { unfold split_top_level, line. rewrite split_quiet by (by apply call_quiet). apply (split_more cs c []); [done..|]. left. }
    assert (Hsafe : Forall (fun seg => safelisted lower (trim seg) []) (split_top_level (line c cs)) <-> Forall listed (c :: cs.*2)).
    { transitivity (Forall (fun seg => safelisted lower seg []) (trim <$> split_top_level (line c cs))); [by rewrite Forall_fmap|].
      rewrite Hseg, Forall_fmap.
      clear -Hok. induction Hok as [|d ds Hd _ IH]; [by split|]. rewrite !Forall_cons, IH. cbn. by rewrite safelisted_call. }
    rewrite Hsafe. split; [by intros (_ & _ & _ & ?)|]. intros Hl. split.
    { apply bland_no_substitution, Forall_app. split; [by apply call_bland|by apply more_bland]. }
    split. { unfold line. rewrite pipe_quiet by (by apply call_quiet). apply pipe_more; [done|]. by invc Hl. }
    split; [|done]. intros E. by rewrite E in Hseg. }
  rewrite Hiff. split; [done|]. split.
  - rewrite Exists_exists. intros (d & Hd & Hn) Hl. rewrite Forall_forall in Hl. by apply (listed_not_never d (Hl d Hd)).
  - intros Ha. eapply Forall_impl; [exact Ha|]. intros d [H1 H2]%(always_safe _ (args d)). split; [done|by eexists].
Qed.
End Lines.

(** [grep '> /etc/passwd | sh; rm -rf /' app.log | head -n 5 && /bin/ls '/a b'] *)
Definition demo_call : call :=
  {| prog := lit "grep"; words := [Quoted (lit "> /etc/passwd | sh; rm -rf /"); Bare (lit "app.log")] |}.
Definition demo_more : list (separator * call) :=
  [(Pipe, {| prog := lit "head"; words := [Bare (lit "-n"); Bare (lit "5")] |});
   (AndThen, {| prog := lit "/bin/ls"; words := [Quoted (lit "/a b")] |})].

Lemma line_runs_iff_listed_witness :
  let runs := allows_auto_confirm (level (classify (fun s => s) (line demo_call demo_more))) = true in
  (runs <-> Forall listed (demo_call :: demo_more.*2)) /\
  (Exists (fun d => base_name (prog d) ∈ NEVER) (demo_call :: demo_more.*2) -> ~ runs) /\
  (Forall (fun d => base_name (prog d) ∈ ALWAYS) (demo_call :: demo_more.*2) -> runs).
Proof.
  apply (line_runs_iff_listed (fun s => s) demo_call demo_more).
  apply Forall_forall. intros d Hd. cbn in Hd. rewrite !elem_of_cons, elem_of_nil in Hd.
  destruct Hd as [->|[->|[->|[]]]]; (split; [done|split; [by_decide|split; [vm_compute; discriminate|]]]);
    repeat apply Forall_cons_2; try apply Forall_nil_2; try split; try done; by_decide.
Defined.
