(* ===== verification/PathGuard.v ===== *)
(** * The gate of remote commands

    [aic-client/src/agent/remote/path_guard.rs] and [aic-client/src/agent/whitelist.rs]: the
    lexical normal form of a path, the path check made on it, and the four-stage check of a
    remote command. The normal form is shown to decide an equivalence of paths given by
    rewriting steps on their segments. *)

From S2P Require Import Prelude RustStr.

(** ** Lexical normal form *)

Definition SLASH : byte := x2f.
Definition is_absolute (path : str) : bool := starts_with [SLASH] path.
Definition segments (path : str) : list str := split_byte SLASH path.

(** The loop body of [lexical_canonicalize]. *)
Definition push_segment (parts : list str) (seg : str) : list str :=
  if bool_decide (seg = [] \/ seg = lit ".") then parts
  else if bool_decide (seg = lit "..") then removelast parts
  else parts ++ [seg].

Definition resolve (segs : list str) : list str := foldl push_segment [] segs.

Definition lexical_canonicalize (path : str) : str :=
  if bool_decide (path = []) then []
  else (if is_absolute path then [SLASH] else []) ++ join [SLASH] (resolve (segments path)).

(** ** The path check *)

(** The reason texts name the rule and the normal form; they are kept as data. *)
Inductive BlockReason :=
| ProcfsNotAllowed (canon : str)
| ForbiddenPrefix (prefix canon : str)
| SecretPattern (pat canon : str).

Inductive PathCheck := Allowed | Blocked (reason : BlockReason).

#[export] Instance BlockReason_eq_dec : EqDecision BlockReason.
Proof. solve_decision. Defined.

Definition PROCFS_ALLOWLIST : list str :=
  [lit "/proc/loadavg"; lit "/proc/cpuinfo"; lit "/proc/meminfo"; lit "/proc/vmstat";
   lit "/proc/diskstats"; lit "/proc/net/dev"; lit "/proc/uptime"; lit "/proc/stat"].

Definition FORBIDDEN_PREFIXES : list str :=
  [lit "/dev/"; lit "/sys/firmware/"; lit "/run/secrets/"].

Definition FORBIDDEN_PATTERNS : list str :=
  [lit "id_rsa"; lit "id_ed25519"; lit "id_ecdsa"; lit "id_dsa"; lit ".pem"; lit ".key";
   lit ".env"; lit "credentials"; lit "shadow"; lit "sudoers"; lit ".aws/"; lit ".kube/";
   lit "kubeconfig"].

Section Guard.
(** [str::to_lowercase]: full Unicode lower case. Nothing below depends on its tables. *)
Variable to_lowercase : str -> str.

Definition check_path (path : str) : PathCheck :=
  let canon := lexical_canonicalize path in
  if starts_with (lit "/proc/") canon || bool_decide (canon = lit "/proc") then
    if bool_decide (canon ∈ PROCFS_ALLOWLIST) then Allowed
    else Blocked (ProcfsNotAllowed canon)
  else
    match List.find (fun prefix => starts_with prefix canon) FORBIDDEN_PREFIXES with
    | Some prefix => Blocked (ForbiddenPrefix prefix canon)
    | None =>
        let lower := to_lowercase canon in
        match List.find (fun pat => contains pat lower) FORBIDDEN_PATTERNS with
        | Some pat => Blocked (SecretPattern pat canon)
        | None => Allowed
        end
    end.

(** ** The command check *)

Definition BUILTIN_PROGRAMS : list str :=
  [lit "ps"; lit "df"; lit "free"; lit "uptime"; lit "cat"; lit "journalctl"; lit "ls"; lit "find"].

(** [; & | $ < > ` \ LF CR] *)
Definition SHELL_METACHARS : list byte :=
  [x3b; x26; x7c; x24; x3c; x3e; x60; x5c; x0a; x0d].

Record UserProgram := { name : str; allowed_args : option (list (list str)) }.

Record Whitelist := {
  programs : gmap str (option (list (list str)));
  has_user_file : bool;
}.

Inductive CheckReason :=
| MetacharInArgument (c : byte) (a : str)
| MetacharInProgram (c : byte) (program : str)
| NotInWhitelist (program : str)
| PathArgument (r : BlockReason)
| ArgsNotAllowed (args : list str) (program : str).

Inductive CheckResult := CheckAllowed | CheckBlocked (reason : CheckReason).

(** [load_from]: [doc] is the user's file, [None] when there is none; reading and parsing
    it is the operating system's and the TOML library's. *)
Definition load_from {E} (doc : option (outcome (list UserProgram) E)) : outcome Whitelist E :=
  let builtin := foldl (fun m p => <[p := None]> m) ∅ BUILTIN_PROGRAMS in
  match doc with
  | None => Ok {| programs := builtin; has_user_file := false |}
  | Some (Ok ups) =>
      Ok {| programs := foldl (fun m up => <[name up := allowed_args up]> m) builtin ups;
            has_user_file := true |}
  | Some (Err e) => Err e
  | Some Panic => Panic
  end.

Definition find_metachar (s : str) : option byte :=
  List.find (fun c => bool_decide (c ∈ SHELL_METACHARS)) s.

Fixpoint first_some {A B} (f : A -> option B) (l : list A) : option B :=
  match l with
  | [] => None
  | x :: l => match f x with Some b => Some b | None => first_some f l end
  end.

Definition args_match (rule args : list str) : bool :=
  if negb (length rule =? length args)%nat then false
  else forallb (fun '(r, a) => bool_decide (r = a)) (zip rule args).

(** The path check of one argument. *)
Definition check_argument (a : str) : option BlockReason :=
  if is_absolute a then
    match check_path a with Blocked reason => Some reason | Allowed => None end
  else None.

Definition check (wl : Whitelist) (program : str) (args : list str) : CheckResult :=
  match first_some (fun a => (fun c => MetacharInArgument c a) <$> find_metachar a) args with
  | Some r => CheckBlocked r
  | None =>
      match find_metachar program with
      | Some c => CheckBlocked (MetacharInProgram c program)
      | None =>
          match programs wl !! program with
          | None => CheckBlocked (NotInWhitelist program)
          | Some allowed =>
              match first_some check_argument args with
              | Some reason => CheckBlocked (PathArgument reason)
              | None =>
                  match allowed with
                  | Some rules =>
                      if existsb (fun rule => args_match rule args) rules then CheckAllowed
                      else CheckBlocked (ArgsNotAllowed args program)
                  | None => CheckAllowed
                  end
              end
          end
      end
  end.

End Guard.

(** ** Equivalence of paths *)

(** A segment that names an entry of a directory. *)
Definition ordinary (seg : str) : Prop := seg ∉ [[]; lit "."; lit ".."] /\ SLASH ∉ seg.

(** What may be rewritten in an absolute path without changing what it names: an empty
    segment, the current directory, an entry followed by its parent, the root's parent. *)
Inductive seg_step : list str -> list str -> Prop :=
| step_empty pre post : seg_step (pre ++ [] :: post) (pre ++ post)
| step_dot pre post : seg_step (pre ++ lit "." :: post) (pre ++ post)
| step_parent pre seg post : ordinary seg -> seg_step (pre ++ seg :: lit ".." :: post) (pre ++ post)
| step_root_parent post : seg_step (lit ".." :: post) post.

Definition path_equiv (p q : str) : Prop := rtsc seg_step (segments p) (segments q).

Lemma push_ordinary parts seg : ordinary seg -> push_segment parts seg = parts ++ [seg].
Proof.
  intros [Hs _]. unfold push_segment.
  rewrite !bool_decide_eq_false_2; [done| |]; intros E; apply Hs; set_solver.
Qed.

Lemma seg_step_resolve l l' : seg_step l l' -> resolve l = resolve l'.
Proof.
  unfold resolve. destruct 1 as [| |pre seg post Hs|]; rewrite ?foldl_app; simpl; [done..| |done].
  rewrite (push_ordinary _ seg Hs).
  change (push_segment ?p _) with (removelast p). by rewrite removelast_last.
Qed.

Lemma rtsc_resolve l l' : rtsc seg_step l l' -> resolve l = resolve l'.
Proof.
  induction 1 as [|l1 l2 l3 [H|H] _ IH]; [done| |]; rewrite <- IH;
    [|symmetry]; by apply seg_step_resolve.
Qed.

Lemma seg_cases seg : SLASH ∉ seg ->
  ordinary seg \/ seg = [] \/ seg = lit "." \/ seg = lit "..".
Proof.
  intros Hs. destruct (decide (seg ∈ [[]; lit "."; lit ".."])) as [Hin|Hin]; [|by left].
  right. rewrite !elem_of_cons, elem_of_nil in Hin. tauto.
Qed.

Lemma resolve_steps parts segs :
  Forall ordinary parts -> Forall (fun s => SLASH ∉ s) segs ->
  rtc seg_step (parts ++ segs) (foldl push_segment parts segs) /\
  Forall ordinary (foldl push_segment parts segs).
Proof.
  intros Hp Hs. revert parts Hp. induction Hs as [|seg segs Hseg _ IH]; intros parts Hp; simpl.
  { rewrite app_nil_r. by split. }
  destruct (seg_cases seg Hseg) as [Ho|[->|[->| ->]]].
  - rewrite push_ordinary by done. destruct (IH (parts ++ [seg])) as [H1 H2].
    { apply Forall_app. by split; [|constructor]. }
    split; [|done]. by rewrite <- app_assoc in H1.
  - destruct (IH parts Hp) as [H1 H2]. split; [|done]. eapply rtc_l; [apply step_empty|done].
  - destruct (IH parts Hp) as [H1 H2]. split; [|done]. eapply rtc_l; [apply step_dot|done].
  - change (push_segment parts (lit "..")) with (removelast parts).
    destruct parts as [|x parts _] using rev_ind.
    + destruct (IH [] Hp) as [H1 H2]. split; [|done]. eapply rtc_l; [apply step_root_parent|done].
    + rewrite removelast_last. apply Forall_app in Hp as [Hp Hx]. inversion_clear Hx.
      destruct (IH parts Hp) as [H1 H2]. split; [|done].
      eapply rtc_l; [|exact H1]. rewrite <- app_assoc. by apply step_parent.
Qed.

Lemma split_byte_no_sep c s : Forall (fun p => c ∉ p) (split_byte c s).
Proof.
  induction s as [|x s IH]; simpl; [repeat constructor; set_solver|].
  case_bool_decide as E; [constructor; [set_solver|done]|].
  destruct (split_byte c s) as [|p ps]; inversion IH; subst; constructor; set_solver.
Qed.

Lemma split_join c parts :
  parts <> [] -> Forall (fun p => c ∉ p) parts -> split_byte c (join [c] parts) = parts.
Proof.
  intros Hne H. induction H as [|p parts Hp H IH]; [done|].
  destruct parts as [|q parts]; [by apply split_byte_none|].
  change (join [c] (p :: q :: parts)) with (p ++ c :: join [c] (q :: parts)).
  rewrite split_byte_app by done. f_equal. by apply IH.
Qed.

Lemma resolve_ordinary path : Forall ordinary (resolve (segments path)).
Proof. apply (resolve_steps []); [done|]. apply split_byte_no_sep. Qed.

(** The normal form determines the resolved segments. *)
Lemma join_inj p q :
  Forall ordinary p -> Forall ordinary q -> join [SLASH] p = join [SLASH] q -> p = q.
Proof.
  assert (Hne : forall x l, ordinary x -> join [SLASH] (x :: l) <> []).
  { intros x [|y l] [Hx _]; destruct x; simpl; try done; set_solver. }
  assert (Hsl : forall l, Forall ordinary l -> Forall (fun s => SLASH ∉ s) l).
  { intros l H. eapply Forall_impl; [exact H|]. by intros ? []. }
  intros Hp Hq E.
  destruct p as [|x p], q as [|y q]; [done| | |].
  - symmetry in E. inversion Hq; subst. by apply Hne in E.
  - inversion Hp; subst. by apply Hne in E.
  - rewrite <- (split_join SLASH (x :: p)), <- (split_join SLASH (y :: q)) by auto. by rewrite E.
Qed.

Lemma canonicalize_absolute path :
  is_absolute path = true ->
  lexical_canonicalize path = SLASH :: join [SLASH] (resolve (segments path)).
Proof. unfold lexical_canonicalize. intros H. destruct path; [done|]. simpl. by rewrite H. Qed.

Lemma canonical_equiv p q :
  is_absolute p = true -> is_absolute q = true ->
  lexical_canonicalize p = lexical_canonicalize q <-> path_equiv p q.
Proof.
  intros Hp Hq. rewrite !canonicalize_absolute by done. split.
  - intros [= E]. apply join_inj in E; [|apply resolve_ordinary..].
    destruct (resolve_steps [] (segments p)) as [H1 _]; [done|apply split_byte_no_sep|].
    destruct (resolve_steps [] (segments q)) as [H2 _]; [done|apply split_byte_no_sep|].
    unfold path_equiv. trans (resolve (segments p)); [by apply rtc_rtsc_rl|].
    rewrite E. by apply rtc_rtsc_lr.
  - intros H%rtsc_resolve. by rewrite H.
Qed.

(** ** What an accepted command can name *)

Lemma first_some_None {A B} (f : A -> option B) l : first_some f l = None <-> Forall (fun x => f x = None) l.
Proof.
  induction l as [|x l IH]; simpl; [by split|]. rewrite Forall_cons. destruct (f x) eqn:E.
  - split; [done|]. by intros [? _].
  - rewrite IH. tauto.
Qed.

Lemma find_None {A} (f : A -> bool) l : List.find f l = None -> Forall (fun x => f x = false) l.
Proof. intros H. apply Forall_forall. intros x Hx%list_elem_of_In. by eapply List.find_none. Qed.

(** The normal form of an absolute path starts with a directory prefix when the resolved
    segments do. *)
Lemma canonical_under path pre :
  is_absolute path = true -> pre <> [] -> pre `prefix_of` resolve (segments path) ->
  starts_with (SLASH :: join [SLASH] pre ++ [SLASH]) (lexical_canonicalize path) = true
  \/ pre = resolve (segments path).
Proof.
  intros Ha Hne [post E]. rewrite canonicalize_absolute, E by done.
  destruct post as [|x post]; [right; by rewrite app_nil_r|left].
  apply starts_with_spec.
  exists (join [SLASH] (x :: post)). simpl. f_equal. clear E.
  induction pre as [|y pre IH]; [done|]. destruct pre as [|z pre]; [by rewrite <- app_assoc|].
  change (join [SLASH] (y :: z :: pre)) with (y ++ [SLASH] ++ join [SLASH] (z :: pre)).
  change (join [SLASH] ((y :: z :: pre) ++ x :: post))
    with (y ++ [SLASH] ++ join [SLASH] ((z :: pre) ++ x :: post)).
  rewrite IH by done. by rewrite <- !app_assoc.
Qed.

Definition PROTECTED_DIRS : list (list str) :=
  [[lit "dev"]; [lit "sys"; lit "firmware"]; [lit "run"; lit "secrets"]].

Section Accepted.
Variable to_lowercase : str -> str.

(** The entry an absolute path names, as resolved segments, is either on the list of
    permitted kernel files, or outside the kernel's file system and strictly below none of
    the protected directories, with no secret pattern in its lower-case normal form. *)
Definition harmless (target : list str) : Prop :=
  SLASH :: join [SLASH] target ∈ PROCFS_ALLOWLIST \/
  (head target <> Some (lit "proc") /\
   Forall (fun dir => ~ (dir `prefix_of` target /\ dir <> target)) PROTECTED_DIRS /\
   Forall (fun pat => contains pat (to_lowercase (SLASH :: join [SLASH] target)) = false)
     FORBIDDEN_PATTERNS).

Lemma check_path_allowed path :
  is_absolute path = true -> check_path to_lowercase path = Allowed ->
  harmless (resolve (segments path)).
Proof.
  intros Ha. pose proof (canonicalize_absolute path Ha) as Hc. unfold check_path, harmless.
  rewrite <- Hc.
  destruct (starts_with (lit "/proc/") _ || _) eqn:Hc0.
  { clear Hc0. case_bool_decide; [by left|done]. }
  destruct (List.find (fun prefix => _) FORBIDDEN_PREFIXES) eqn:Hf; [done|].
  destruct (List.find (fun pat => _) FORBIDDEN_PATTERNS) eqn:Hp; [done|]. intros _. right.
  apply find_None in Hf, Hp. apply orb_false_iff in Hc0 as [Hc1 Hc2]. split; [|split; [|done]].
  - intros Hh. destruct (canonical_under path [lit "proc"]) as [H|H]; [done..| | |].
    + destruct (resolve (segments path)) as [|x t]; [done|]. injection Hh as ->. by exists t.
    + change (starts_with (lit "/proc/") (lexical_canonicalize path) = true) in H. congruence.
    + rewrite Hc, <- H in Hc2. done.
  - change FORBIDDEN_PREFIXES
      with ((fun dir => SLASH :: join [SLASH] dir ++ [SLASH]) <$> PROTECTED_DIRS) in Hf.
    rewrite Forall_fmap, Forall_forall in Hf. apply Forall_forall. intros dir Hin [Hpre Hneq].
    destruct (canonical_under path dir) as [H|H]; [done| |done| |done].
    + intros ->. by repeat (apply elem_of_cons in Hin as [?|Hin]; [done|]); apply elem_of_nil in Hin.
    + specialize (Hf _ Hin). cbv beta in Hf. congruence.
Qed.

Lemma check_allowed wl program args :
  check to_lowercase wl program args = CheckAllowed ->
  Forall (fun a => find_metachar a = None) (program :: args) /\
  is_Some (programs wl !! program) /\
  Forall (fun a => is_absolute a = true -> check_path to_lowercase a = Allowed) args.
Proof.
  unfold check. intros H. destruct (first_some (fun a => _) args) eqn:E1; [done|].
  destruct (find_metachar program) eqn:E2; [done|].
  destruct (programs wl !! program) eqn:E3; [|done].
  destruct (first_some (check_argument _) args) eqn:E4; [done|].
  apply first_some_None in E1, E4. split; [constructor; [done|]|split; [by eexists|]].
  - eapply Forall_impl; [exact E1|]. intros a. cbv beta. by destruct (find_metachar a).
  - eapply Forall_impl; [exact E4|]. unfold check_argument. intros a Ea Habs. rewrite Habs in Ea.
    revert Ea. by destruct (check_path _ a).
Qed.
End Accepted.

(** ** Theorems *)

(** C22: on absolute paths the normal form decides equivalence: two spellings get the same
    normal form exactly when they are connected by removing or adding empty segments, [.],
    and an entry followed by its parent. *)
Theorem canonicalize_decides_equivalence p q :
  is_absolute p = true -> is_absolute q = true ->
  lexical_canonicalize p = lexical_canonicalize q <-> path_equiv p q.
Proof. apply canonical_equiv. Qed.

(** C17: an accepted remote command passes no shell metacharacter and names, through any
    absolute argument in any equivalent spelling, no protected file. *)
Theorem accepted_command_harmless to_lowercase wl program args :
  check to_lowercase wl program args = CheckAllowed ->
  Forall (fun a => Forall (fun c => c ∉ SHELL_METACHARS) a) (program :: args) /\
  forall a q, a ∈ args -> is_absolute a = true -> is_absolute q = true -> path_equiv a q ->
    harmless to_lowercase (resolve (segments q)).
Proof.
  intros (Hm & _ & Hp)%check_allowed. split.
  - eapply Forall_impl; [exact Hm|]. intros a Ha%find_None. eapply Forall_impl; [exact Ha|].
    intros c Hc. by apply bool_decide_eq_false_1 in Hc.
  - intros a q Hin Ha Hq He. rewrite <- (rtsc_resolve _ _ He).
    rewrite Forall_forall in Hp. apply check_path_allowed; auto.
Qed.

(** The whitelist without a user file. *)
Definition builtin_whitelist : Whitelist :=
  {| programs := foldl (fun m p => <[p := None]> m) ∅ BUILTIN_PROGRAMS; has_user_file := false |}.

(** the check covers neither relative paths nor the actions of [find], nor paths inside
    options: with the built-in list alone, commands that delete files or read protected ones
    are accepted. *)
Theorem gate_gaps to_lowercase :
  load_from (E:=unit) None = Ok builtin_whitelist /\
  Forall (fun '(program, args) => check to_lowercase builtin_whitelist program args = CheckAllowed)
    [(lit "find", [lit "."; lit "-delete"]);
     (lit "find", [lit "."; lit "-exec"; lit "rm"; lit "-rf"; lit "{}"; lit "+"]);
     (lit "cat", [lit "../../etc/shadow"]);
     (lit "journalctl", [lit "--file=/proc/1/environ"])].
Proof. split; [done|]. repeat constructor. Qed.

(** ** Witnesses *)

Lemma canonicalize_decides_equivalence_witness :
  path_equiv (lit "/etc/./x/..//shadow") (lit "/etc/shadow").
Proof. by apply (canonicalize_decides_equivalence (lit "/etc/./x/..//shadow") (lit "/etc/shadow")). Defined.

Lemma accepted_command_harmless_witness :
  harmless (fun s => s) (resolve (segments (lit "/var/./log/syslog"))).
Proof.
  refine (proj2 (accepted_command_harmless (fun s => s) builtin_whitelist (lit "cat")
    [lit "/var/log/syslog"] _) (lit "/var/log/syslog") _ _ _ _ _).
  - vm_compute. reflexivity.
  - by left.
  - reflexivity.
  - reflexivity.
  - apply canonical_equiv; reflexivity.
Defined.
