(* ===== verification/FileTree.v ===== *)
(** * A file system with symbolic links

    What the client's file tools observe of the operating system through [std::fs]: a tree of
    files, directories and symbolic links, the resolution of paths, and the operations that
    read and change it. Entries are keyed by their location, the components from the root
    with no link in between. Permissions, hard links and concurrent changes are left out. *)

From S2P Require Import Prelude RustStr.

(** Components of a location: no separator, not empty, neither [.] nor [..]. *)
Abbreviation Loc := (list str).

Inductive node := NFile (content : str) | NDir | NLink (target : str).

(** The root is a directory and has no entry of its own. *)
Abbreviation Tree := (gmap (list str) node).

Definition lookup_node (fs : Tree) (p : Loc) : option node :=
  match p with [] => Some NDir | _ => fs !! p end.

(** Every entry lies in a directory, and no name is the parent's. *)
Definition wf_tree (fs : Tree) : Prop :=
  fs !! [] = None /\
  (forall p x n, fs !! (p ++ [x]) = Some n -> lookup_node fs p = Some NDir) /\
  (forall p n, fs !! p = Some n -> lit ".." ∉ p).

(** ** Paths *)

Definition is_absolute (path : str) : bool := match path with x2f :: _ => true | _ => false end.

(** The normal and parent components of a path text. *)
Definition comps (path : str) : list str :=
  filter (fun c => c <> [] /\ c <> lit ".") (split_byte x2f path).

(** A path text that asks for a directory: it ends in a separator or in [.]. *)
Definition dir_form (path : str) : bool :=
  match last (split_byte x2f path) with Some c => bool_decide (c = [] \/ c = lit ".") | None => false end.

Definition DOTDOT : str := lit "..".

(** The last component of a path, when it is a name. *)
Definition file_name (path : str) : option str :=
  match last (comps path) with Some c => if bool_decide (c = DOTDOT) then None else Some c | None => None end.

(** ** Resolution *)

(** The links followed in one resolution before it fails (Linux's limit). *)
Definition MAX_LINKS : nat := 40.

(** [create] tells whether the last component may be missing. *)
Fixpoint walk (create : bool) (links : nat) (fs : Tree) : Loc -> list str -> option Loc :=
  fix go (at_ : Loc) (todo : list str) : option Loc :=
    match todo with
    | [] => Some at_
    | c :: rest =>
        if bool_decide (c = DOTDOT) then go (removelast at_) rest
        else
          let here := at_ ++ [c] in
          match fs !! here with
          | Some NDir => go here rest
          | Some (NFile _) => match rest with [] => Some here | _ => None end
          | Some (NLink target) =>
              match links with
              | O => None
              | S links => walk create links fs (if is_absolute target then [] else at_) (comps target ++ rest)
              end
          | None => if create then match rest with [] => Some here | _ => None end else None
          end
    end.

(** [Path::canonicalize] of an absolute path given by its components. *)
Definition canonicalize (fs : Tree) (p : list str) : option Loc := walk false MAX_LINKS fs [] p.

(** The same of a path text that asks for a directory when [dir] holds. *)
Definition canonicalize_text (fs : Tree) (dir : bool) (p : list str) : option Loc :=
  loc ← canonicalize fs p;
  if dir then match lookup_node fs loc with Some NDir => Some loc | _ => None end else Some loc.

(** Where opening a path for writing leads, following links also at its end. *)
Definition locate (fs : Tree) (p : list str) : option Loc := walk true MAX_LINKS fs [] p.

(** ** Operations *)

Definition exists_at (fs : Tree) (p : list str) : bool := bool_decide (is_Some (canonicalize fs p)).

(** The node a path denotes. *)
Definition stat (fs : Tree) (p : list str) : option node := canonicalize fs p ≫= lookup_node fs.

(** [fs::read] *)
Definition read (fs : Tree) (p : list str) : option str :=
  match stat fs p with Some (NFile content) => Some content | _ => None end.

(** [fs::write] *)
Definition write (fs : Tree) (p : list str) (content : str) : option Tree :=
  match locate fs p with
  | Some loc =>
      match lookup_node fs loc with
      | Some NDir | Some (NLink _) => None
      | Some (NFile _) | None => Some (<[loc := NFile content]> fs)
      end
  | None => None
  end.

(** [fs::create_dir_all] of a path whose existing part has no links. *)
Fixpoint mkdirs (fs : Tree) (at_ : Loc) (todo : list str) : option Tree :=
  match todo with
  | [] => Some fs
  | c :: rest =>
      match fs !! (at_ ++ [c]) with
      | Some NDir => mkdirs fs (at_ ++ [c]) rest
      | None => mkdirs (<[at_ ++ [c] := NDir]> fs) (at_ ++ [c]) rest
      | Some _ => None
      end
  end.

(** The names in a directory. *)
Definition children (fs : Tree) (p : Loc) : list str :=
  omap (fun e => match rev e.1 with
                 | x :: r => if bool_decide (rev r = p) then Some x else None
                 | [] => None
                 end) (map_to_list fs).

(** ** Lemmas *)

Definition wf_tree_b (fs : Tree) : bool :=
  forallb (fun e => match rev e.1 with
                    | [] => false
                    | _ :: r => (match lookup_node fs (rev r) with Some NDir => true | _ => false end) && negb (bool_decide (lit ".." ∈ e.1))
                    end) (map_to_list fs).

Lemma wf_tree_b_spec fs : wf_tree_b fs = true -> wf_tree fs.
Proof.
  unfold wf_tree_b. rewrite forallb_forall. intros H.
  assert (Hk : forall p n, fs !! p = Some n -> match rev p with
             | [] => false | _ :: r => (match lookup_node fs (rev r) with Some NDir => true | _ => false end) && negb (bool_decide (lit ".." ∈ p)) end = true).
  { intros p n Hp. apply (H (p, n)), list_elem_of_In. by apply elem_of_map_to_list. }
  split_and!.
  - destruct (fs !! []) eqn:E; [|done]. by apply Hk in E.
  - intros p x n Hp. apply Hk in Hp. rewrite rev_app_distr in Hp. cbn in Hp. bool_prop. rewrite rev_involutive in *.
    by destruct (lookup_node fs p) as [[]|].
  - intros p n Hp. apply Hk in Hp. destruct (rev p); [done|]. by bool_prop.
Qed.

Lemma lookup_node_ne fs p : p <> [] -> lookup_node fs p = fs !! p.
Proof. by destruct p. Qed.

(** A location that a directory or file stands at, with directories above. *)
Definition physical (fs : Tree) (p : Loc) : Prop :=
  forall q r, p = q ++ r -> r <> [] -> lookup_node fs q = Some NDir.

Lemma physical_nil fs : physical fs [].
Proof. intros q r E Hr. symmetry in E. apply app_nil in E as [-> ->]. done. Qed.

Lemma physical_snoc fs p x : physical fs p -> lookup_node fs p = Some NDir -> physical fs (p ++ [x]).
Proof.
  intros Hp Hn q r E Hr. destruct (exists_last Hr) as (r' & y & ->). rewrite app_assoc in E.
  apply app_inj_tail in E as [E _]. destruct r' as [|z r']; [by rewrite app_nil_r in E; subst|].
  by apply (Hp q (z :: r')).
Qed.

Lemma physical_app fs p q : physical fs (p ++ q) -> physical fs p.
Proof. intros H a r -> Hr. apply (H a (r ++ q)); [by rewrite app_assoc|]. by destruct r. Qed.

Lemma removelast_physical fs p : physical fs p -> lookup_node fs p = Some NDir ->
  physical fs (removelast p) /\ lookup_node fs (removelast p) = Some NDir.
Proof.
  intros Hp Hn. destruct p as [|x p]; [done|]. destruct (exists_last (l := x :: p)) as (q & y & E); [done|].
  rewrite E, removelast_last. rewrite E in Hp. split; [by eapply physical_app|]. by apply (Hp q [y]).
Qed.

(** Resolution ends at a location reached through directories; what is there is no link. *)
Lemma walk_spec create links fs : forall at_ todo loc,
  physical fs at_ -> lookup_node fs at_ = Some NDir -> walk create links fs at_ todo = Some loc ->
  physical fs loc /\ match lookup_node fs loc with
                     | Some (NLink _) => False
                     | Some _ => True
                     | None => create = true
                     end.
Proof.
  induction links as [|links IHl]; intros at_ todo; revert at_;
    induction todo as [|c rest IHt]; intros at_ loc Hp Hd Hw; cbn [walk] in Hw;
    try (injection Hw as <-; by rewrite Hd);
    (case_bool_decide; [destruct (removelast_physical fs at_ Hp Hd); by eapply IHt|]);
    assert (Hs : physical fs (at_ ++ [c])) by (by apply physical_snoc);
    assert (Hn : lookup_node fs (at_ ++ [c]) = fs !! (at_ ++ [c])) by (apply lookup_node_ne; by destruct at_);
    destruct (fs !! (at_ ++ [c])) as [[content| |target]|] eqn:E.
  all: try (destruct rest; [injection Hw as <-; by rewrite Hn|done]).
  all: try (by eapply IHt; [exact Hs|exact Hn|exact Hw]).
  all: try (destruct create; [|done]; destruct rest; [injection Hw as <-; by rewrite Hn|done]).
  - done.
  - destruct (is_absolute target); eapply IHl; [apply physical_nil|done|exact Hw|exact Hp|exact Hd|exact Hw].
Qed.

Lemma canonicalize_spec fs p loc : canonicalize fs p = Some loc ->
  physical fs loc /\ exists n, lookup_node fs loc = Some n /\ forall t, n <> NLink t.
Proof.
  intros H. destruct (walk_spec false MAX_LINKS fs [] p loc (physical_nil fs) eq_refl H) as [H1 H2].
  split; [done|]. destruct (lookup_node fs loc) as [[| |]|]; [by eexists|by eexists|done..].
Qed.

(** A location reached through directories is its own canonical path. *)
Lemma walk_physical create links fs : forall todo at_ n,
  Forall (fun c => c <> DOTDOT) todo -> physical fs (at_ ++ todo) -> lookup_node fs (at_ ++ todo) = Some n ->
  (forall t, n <> NLink t) -> walk create links fs at_ todo = Some (at_ ++ todo).
Proof.
  induction todo as [|c rest IH]; intros at_ n Hc Hp Hn Hl; [destruct links; cbn; by rewrite app_nil_r|].
  apply Forall_cons in Hc as [Hc Hrest]. assert (Hne : lookup_node fs (at_ ++ [c]) = fs !! (at_ ++ [c])).
  { apply lookup_node_ne. by destruct at_. }
  assert (E : at_ ++ c :: rest = (at_ ++ [c]) ++ rest) by (by rewrite <- app_assoc).
  rewrite E in *. destruct rest as [|c' rest].
  - rewrite app_nil_r in *. rewrite Hne in Hn. destruct links; cbn [walk]; rewrite bool_decide_eq_false_2, Hn by done;
      destruct n as [| |t]; try done; by destruct (Hl t).
  - assert (Hd : lookup_node fs (at_ ++ [c]) = Some NDir) by (by apply (Hp (at_ ++ [c]) (c' :: rest))).
    rewrite Hne in Hd. pose proof (IH (at_ ++ [c]) n Hrest Hp Hn Hl) as Hw.
    destruct links; cbn [walk] in *; by rewrite bool_decide_eq_false_2, Hd by done.
Qed.

(** Directories on the way are passed. *)
Lemma walk_dirs create links fs q : forall at_ todo,
  DOTDOT ∉ q -> (forall a b, q = a ++ b -> a <> [] -> fs !! (at_ ++ a) = Some NDir) ->
  walk create links fs at_ (q ++ todo) = walk create links fs (at_ ++ q) todo.
Proof.
  induction q as [|c q IH]; intros at_ todo Hd Hq; [by rewrite app_nil_r|].
  apply not_elem_of_cons in Hd as [Hc Hd]. pose proof (Hq [c] q eq_refl ltac:(done)) as Hdir.
  cbn [app]. assert (E : walk create links fs at_ (c :: q ++ todo) = walk create links fs (at_ ++ [c]) (q ++ todo)).
  { destruct links; cbn [walk]; by rewrite bool_decide_eq_false_2, Hdir by done. }
  rewrite E, IH, <- app_assoc; [done|done|]. intros a b -> Ha. rewrite <- app_assoc. by apply (Hq (c :: a) b).
Qed.

Lemma walk_absent links fs at_ c rest : c <> DOTDOT -> fs !! (at_ ++ [c]) = None ->
  walk false links fs at_ (c :: rest) = None.
Proof. intros Hc Hn. destruct links; cbn [walk]; by rewrite bool_decide_eq_false_2, Hn by done. Qed.

Lemma walk_create links fs at_ c : c <> DOTDOT -> fs !! (at_ ++ [c]) = None ->
  walk true links fs at_ [c] = Some (at_ ++ [c]).
Proof. intros Hc Hn. destruct links; cbn [walk]; by rewrite bool_decide_eq_false_2, Hn by done. Qed.

Lemma walk_file create links fs at_ c content : c <> DOTDOT -> fs !! (at_ ++ [c]) = Some (NFile content) ->
  walk create links fs at_ [c] = Some (at_ ++ [c]).
Proof. intros Hc Hn. destruct links; cbn [walk]; by rewrite bool_decide_eq_false_2, Hn by done. Qed.

(** What resolves can be extended by a name that is there. *)
Lemma walk_extend links fs x n : wf_tree fs -> x <> DOTDOT -> (forall t, n <> NLink t) ->
  forall at_ todo loc, walk false links fs at_ todo = Some loc -> fs !! (loc ++ [x]) = Some n ->
  walk false links fs at_ (todo ++ [x]) = Some (loc ++ [x]).
Proof.
  intros (_ & Hpar & _) Hx Hn. induction links as [|links IHl]; intros at_ todo; revert at_;
    induction todo as [|c rest IHt]; intros at_ loc Hw Hl; cbn [walk app] in *.
  1, 3: injection Hw as <-; rewrite bool_decide_eq_false_2, Hl by done; destruct n; try done; by destruct (Hn target).
  all: case_bool_decide; [by apply IHt|].
  all: destruct (fs !! (at_ ++ [c])) as [[content| |target]|] eqn:E; try done; try (by apply IHt).
  1, 2: destruct rest; [|done]; injection Hw as <-; apply Hpar in Hl; rewrite lookup_node_ne in Hl by (by destruct at_); congruence.
  rewrite app_assoc. by apply IHl.
Qed.

(** Writing to a location that is a file or free in a directory. *)
Lemma write_at fs dir x content : wf_tree fs -> physical fs (dir ++ [x]) -> DOTDOT ∉ dir ++ [x] ->
  (fs !! (dir ++ [x]) = None \/ exists c, fs !! (dir ++ [x]) = Some (NFile c)) ->
  write fs (dir ++ [x]) content = Some (<[dir ++ [x] := NFile content]> fs).
Proof.
  intros Hw Hp Hd Hn. unfold write, locate. rewrite walk_dirs, app_nil_l.
  - apply not_elem_of_app in Hd as [_ Hx]. assert (Hx' : x <> DOTDOT) by set_solver.
    assert (E : walk true MAX_LINKS fs dir [x] = Some (dir ++ [x])).
    { destruct Hn as [Hn|[c Hn]]; [by apply walk_create|by eapply walk_file]. }
    rewrite E, lookup_node_ne by (by destruct dir). by destruct Hn as [->|[c ->]].
  - set_solver.
  - intros a b E Ha. rewrite app_nil_l, <- lookup_node_ne by done. apply (Hp a (b ++ [x])); [by rewrite E, app_assoc|by destruct b].
Qed.

(** ** Paths without links *)

Definition link_free (fs : Tree) (p : Loc) : Prop := forall q r t, p = q ++ r -> fs !! q <> Some (NLink t).

(** Without links and [..] a path leads where its text says, through directories. *)
Lemma walk_plain create links fs : forall todo at_ loc,
  DOTDOT ∉ todo -> (forall a r t, todo = a ++ r -> a <> [] -> fs !! (at_ ++ a) <> Some (NLink t)) ->
  walk create links fs at_ todo = Some loc ->
  loc = at_ ++ todo /\ forall a r, todo = a ++ r -> a <> [] -> r <> [] -> fs !! (at_ ++ a) = Some NDir.
Proof.
  induction todo as [|c rest IH]; intros at_ loc Hd Hl Hw.
  { destruct links; cbn in Hw; injection Hw as <-; rewrite app_nil_r; (split; [done|]); intros a r E Ha; by destruct a. }
  apply not_elem_of_cons in Hd as [Hc Hd].
  assert (Hc0 : forall t, fs !! (at_ ++ [c]) <> Some (NLink t)) by (intros t; by apply (Hl [c] rest)).
  assert (Hstep : (rest = [] /\ loc = at_ ++ [c]) \/
                  (fs !! (at_ ++ [c]) = Some NDir /\ walk create links fs (at_ ++ [c]) rest = Some loc)).
  { destruct links; cbn [walk] in Hw; rewrite bool_decide_eq_false_2 in Hw by done;
      destruct (fs !! (at_ ++ [c])) as [[| |t]|] eqn:E; try (by right); try (by destruct (Hc0 t));
      try (destruct create; [|done]); left; destruct rest; split; congruence. }
  destruct Hstep as [[-> ->]|[Hdir Hw']].
  - split; [done|]. intros a r E Ha Hr. destruct a; [done|]. destruct a, r; done.
  - destruct (IH (at_ ++ [c]) loc) as [-> Hds]; [done| |done|].
    { intros a r t E Ha. rewrite <- app_assoc. by apply (Hl (c :: a) r); [rewrite E|]. }
    rewrite <- app_assoc. split; [done|]. intros a r E Ha Hr. destruct a as [|c' a]; [done|].
    injection E as <- E. destruct a as [|c2 a]; [done|].
    replace (at_ ++ c :: c2 :: a) with ((at_ ++ [c]) ++ c2 :: a) by (by rewrite <- app_assoc). by apply (Hds _ r).
Qed.

Lemma walk_no_dotdot create links fs : forall at_ todo loc,
  DOTDOT ∉ at_ -> walk create links fs at_ todo = Some loc -> DOTDOT ∉ loc.
Proof.
  induction links as [|links IHl]; intros at_ todo; revert at_;
    induction todo as [|c rest IHt]; intros at_ loc Hd Hw; cbn [walk] in Hw;
    try (by injection Hw as <-);
    (case_bool_decide; [eapply IHt; [|exact Hw]; intros Hin; apply Hd;
       destruct at_ as [|x at_] using rev_ind; [done|]; rewrite removelast_last in Hin; set_solver|]);
    (assert (Hs : DOTDOT ∉ at_ ++ [c]) by set_solver);
    destruct (fs !! (at_ ++ [c])) as [[content| |target]|] eqn:E;
    try (by destruct rest; [injection Hw as <-|]); try (by eapply IHt);
    try (by destruct create; [destruct rest; [injection Hw as <-|]|]).
  eapply IHl; [|exact Hw]. destruct (is_absolute target); [set_solver|done].
Qed.

(** What is written is what is read, at the place of the file. *)
Lemma read_written fs p content :
  p <> [] -> DOTDOT ∉ p -> (forall a r, p = a ++ r -> a <> [] -> r <> [] -> fs !! a = Some NDir) ->
  read (<[p := NFile content]> fs) p = Some content.
Proof.
  intros Hp Hd Hdirs. unfold read, stat, canonicalize.
  erewrite (walk_physical _ _ _ p [] (NFile content)); cbn [app].
  - cbn. by rewrite lookup_node_ne, lookup_insert_eq by done.
  - apply list.Forall_forall. intros x Hx ->. done.
  - intros q r E Hr. destruct q as [|x q]; [done|]. rewrite lookup_node_ne, lookup_insert_ne; [|intros ->|done].
    + by apply (Hdirs _ r).
    + rewrite <- (app_nil_r (x :: q)) in E at 1. apply app_inv_head in E. by subst.
  - by rewrite lookup_node_ne, lookup_insert_eq.
  - done.
Qed.

(** Creating directories adds directories on the way and nothing else. *)
Lemma mkdirs_spec : forall todo fs at_ fs', mkdirs fs at_ todo = Some fs' ->
  forall p, fs' !! p = fs !! p \/
            (fs !! p = None /\ fs' !! p = Some NDir /\ exists a r, todo = a ++ r /\ a <> [] /\ p = at_ ++ a).
Proof.
  induction todo as [|c rest IH]; intros fs at_ fs' H p; cbn [mkdirs] in H; [injection H as <-; by left|].
  assert (Happ : forall a, (at_ ++ [c]) ++ a = at_ ++ c :: a) by (intros; by rewrite <- app_assoc).
  destruct (fs !! (at_ ++ [c])) as [[| |]|] eqn:E; try done.
  - destruct (IH _ _ _ H p) as [Hp|(H1 & H2 & a & r & -> & Ha & ->)]; [by left|].
    right. split_and!; [done|done|]. exists (c :: a), r. by rewrite Happ.
  - destruct (decide (p = at_ ++ [c])) as [->|Hne].
    + right. split_and!; [done| |by exists [c], rest].
      destruct (IH _ _ _ H (at_ ++ [c])) as [Hp|(H1 & H2 & _)]; [by rewrite Hp, lookup_insert_eq|done].
    + destruct (IH _ _ _ H p) as [Hp|(H1 & H2 & a & r & -> & Ha & ->)].
      * left. by rewrite Hp, lookup_insert_ne.
      * right. rewrite lookup_insert_ne in H1 by done. split_and!; [done|done|]. exists (c :: a), r. by rewrite Happ.
Qed.
