(* ===== verification/RunCommand.v ===== *)
(** * The agent's command tool (aic-client/src/agent/run_command.rs)

    From a requested command to a decision: classification ([RiskGuard]), confirmation,
    validation of the text and of its path arguments, working directory and time limit; and
    the bounded reading of the output. The file system's resolution of paths and Unicode
    lower case are parameters; texts of answers are reasons. *)

From S2P Require Import Prelude RustStr RiskLex RiskGuard.

Definition DEFAULT_TIMEOUT_SECS : Z := 15.
Definition MAX_TIMEOUT_SECS : Z := 30.
Definition MAX_STREAM_BYTES : nat := 64 * 1024.
Definition MAX_DRAIN_BYTES : nat := 8 * 1024 * 1024.

(** ** Path arguments *)

Inductive PathArgPolicy := NoPaths | AllPaths | PatternThenPaths | LeadingPaths.

Definition path_policy (head : str) : PathArgPolicy :=
  let name := base_name head in
  if oneof [lit "cat"; lit "head"; lit "tail"; lit "ls"; lit "ll"; lit "la"; lit "du"; lit "stat"; lit "file";
            lit "wc"; lit "less"; lit "more"; lit "tree"; lit "cmp"; lit "diff"; lit "locate"; lit "readlink";
            lit "realpath"; lit "nl"; lit "od"; lit "hexdump"; lit "xxd"] name then AllPaths
  else if oneof [lit "grep"; lit "egrep"; lit "fgrep"; lit "rg"; lit "ag"] name then PatternThenPaths
  else if oneof [lit "find"; lit "fd"] name then LeadingPaths
  else NoPaths.

Definition FIND_DANGEROUS_OPTS : list str :=
  [lit "-exec"; lit "-execdir"; lit "-ok"; lit "-okdir"; lit "-delete"; lit "-quit"; lit "-fprintf"; lit "-fprint";
   lit "-fprint0"; lit "-fls"; lit "-prune"].

Definition consumes_next_value (cmd opt : str) : bool :=
  if bool_decide (x3d ∈ opt) || negb (starts_with (lit "-") opt) then false
  else if oneof [lit "head"; lit "tail"; lit "nl"] cmd then
    oneof [lit "-n"; lit "-c"; lit "--lines"; lit "--bytes"] opt
  else if oneof [lit "grep"; lit "egrep"; lit "fgrep"; lit "rg"; lit "ag"] cmd then
    oneof [lit "-A"; lit "-B"; lit "-C"; lit "-m"; lit "-e"; lit "--regexp"; lit "--max-count"; lit "--context";
           lit "--after-context"; lit "--before-context"] opt
  else if oneof [lit "find"; lit "fd"] cmd then
    oneof [lit "-name"; lit "-iname"; lit "-path"; lit "-ipath"; lit "-maxdepth"; lit "-mindepth"; lit "-type";
           lit "-size"; lit "-newer"; lit "-mtime"; lit "-ctime"; lit "-atime"; lit "-perm"; lit "-regex"] opt
  else false.

Definition is_leading (p : PathArgPolicy) : bool := match p with LeadingPaths => true | _ => false end.
Definition is_pattern_first (p : PathArgPolicy) : bool := match p with PatternThenPaths => true | _ => false end.

(** Why a command is not run. *)
Inductive Deny :=
| DenyNewline | DenyBackground | DenySemicolon | DenyBacktick | DenyDollar | DenyGlob | DenyQuote | DenyRedirect
| DenyOr | DenyHome | DenyEmptySegment | DenyEmptyCommand
| DenyFindOption (tok : str)
| DenySensitive (tok : str)
| DenySensitiveTarget (tok : str)
| DenyAbsolute (tok : str)
| DenyTraversal (tok : str)
| DenySandbox (tok : str).

(** The loop of [for_each_path_arg]; [skip] is set for the value of an option. *)
Fixpoint path_arg_loop (cmd : str) (policy : PathArgPolicy) (seen_pattern skip : bool) (args : list str)
    (on_path : str -> option Deny) : option Deny :=
  match args with
  | [] => None
  | tok :: rest =>
      if skip then path_arg_loop cmd policy seen_pattern false rest on_path
      else if is_option tok then
        if is_leading policy then None
        else path_arg_loop cmd policy seen_pattern (consumes_next_value cmd tok) rest on_path
      else if is_pattern_first policy && negb seen_pattern then path_arg_loop cmd policy true false rest on_path
      else match on_path tok with
           | Some d => Some d
           | None => path_arg_loop cmd policy seen_pattern false rest on_path
           end
  end.

Definition for_each_path_arg (cmd : str) (policy : PathArgPolicy) (args : list str) (on_path : str -> option Deny)
    : option Deny :=
  match policy with
  | NoPaths => None
  | _ => path_arg_loop cmd policy false false args on_path
  end.

Definition check_no_escape (tok : str) : option Deny :=
  if starts_with (lit "/") tok then Some (DenyAbsolute tok)
  else if existsb (fun c => bool_decide (c = lit "..")) (split_byte x2f tok) then Some (DenyTraversal tok)
  else None.

Section Tool.
(** [str::to_lowercase] *)
Variable to_lowercase : str -> str.

Definition is_secret_file (name : str) : bool :=
  let lower := to_lowercase name in
  bool_decide (lower = lit ".env") || starts_with (lit ".env.") lower
  || oneof [lit "credentials"; lit ".netrc"; lit ".npmrc"; lit ".pgpass"; lit ".htpasswd"] lower
  || starts_with (lit "id_rsa") lower || starts_with (lit "id_ed25519") lower
  || starts_with (lit "id_dsa") lower || starts_with (lit "id_ecdsa") lower
  || existsb (fun e => ends_with e lower)
       [lit ".pem"; lit ".key"; lit ".p12"; lit ".pfx"; lit ".keystore"; lit ".jks"].

Definition SENSITIVE_DIR_COMPONENTS : list str :=
  [lit ".ssh"; lit ".aws"; lit ".gnupg"; lit ".gpg"; lit ".kube"; lit ".docker"; lit "gcloud";
   lit ".password-store"; lit ".gem"].

Definition is_sensitive_path_str (path : str) : bool :=
  let lower := to_lowercase path in
  let comps := filter (fun c => c <> []) (split_byte x2f lower) in
  existsb (fun c => oneof SENSITIVE_DIR_COMPONENTS c) comps
  || existsb (fun p => bool_decide (lower = p) || starts_with (p ++ lit "/") lower)
       [lit "/etc/shadow"; lit "/etc/gshadow"; lit "/etc/sudoers"; lit "/etc/ssl/private"]
  || (bool_decide (head comps = Some (lit "proc")) && bool_decide (last comps = Some (lit "environ")))
  || match last (split_byte x2f lower) with Some name => is_secret_file name | None => false end.

(** ** The file system *)

(** Components of a canonical path. *)
Abbreviation CanonPath := (list str).

(** What a path text denotes from a directory, as a canonical path; whether that is a
    directory; the directory of the process. *)
Record FsView := {
  canonicalize : CanonPath -> str -> option CanonPath;
  is_dir : CanonPath -> bool;
  process_cwd : CanonPath;
}.

Definition render (p : CanonPath) : str :=
  match p with [] => lit "/" | _ => mjoin ((fun c => x2f :: c) <$> p) end.

Record Sandbox := { root : CanonPath }.

Definition under (root p : CanonPath) : bool := bool_decide (take (length root) p = root).

Definition resolve (fs : FsView) (sb : Sandbox) (input : str) : option CanonPath :=
  if bool_decide (x00 ∈ input) then None
  else p ← canonicalize fs sb.(root) input; if under sb.(root) p then Some p else None.

Variable fs : FsView.

Definition check_sensitive_path (tok : str) : option Deny :=
  if is_sensitive_path_str tok then Some (DenySensitive tok)
  else match canonicalize fs (process_cwd fs) tok with
       | Some canon => if is_sensitive_path_str (render canon) then Some (DenySensitiveTarget tok) else None
       | None => None
       end.

Definition resolve_in_sandbox (sb : Sandbox) (tok : str) : option Deny :=
  match resolve fs sb tok with Some _ => None | None => Some (DenySandbox tok) end.

(** ** Validation *)

(** The first error of a loop over tokens. *)
Fixpoint first_deny (check : str -> option Deny) (toks : list str) : option Deny :=
  match toks with
  | [] => None
  | t :: rest => match check t with Some d => Some d | None => first_deny check rest end
  end.

Definition check_find_option (tok : str) : option Deny :=
  if oneof FIND_DANGEROUS_OPTS tok then Some (DenyFindOption tok) else None.

Definition check_argument (tok : str) : option Deny := if is_option tok then None else check_no_escape tok.

Definition read_only_policy (head : str) : PathArgPolicy :=
  match path_policy head with NoPaths => AllPaths | p => p end.

Definition validate_segment (sb : Sandbox) (read_only : bool) (segment : str) : option Deny :=
  match split_whitespace segment with
  | [] => Some DenyEmptyCommand
  | head :: args =>
      let name := base_name head in
      match (if oneof [lit "find"; lit "fd"] name then first_deny check_find_option args else None) with
      | Some d => Some d
      | None =>
          if read_only then for_each_path_arg name (read_only_policy head) args check_sensitive_path
          else match first_deny check_argument args with
               | Some d => Some d
               | None => for_each_path_arg name (path_policy head) args (resolve_in_sandbox sb)
               end
      end
  end.

Definition has (c : byte) (s : str) : bool := bool_decide (c ∈ s).

Definition GLOB_CHARS : list byte := [x2a; x3f; x5b; x5d; x7b; x7d].

(** The checks of the text, in order. *)
Definition check_text (command : str) : option Deny :=
  if has x0a command || has x0d command then Some DenyNewline
  else if has x26 command then Some DenyBackground
  else if has x3b command then Some DenySemicolon
  else if has x60 command then Some DenyBacktick
  else if has x24 command then Some DenyDollar
  else if existsb (fun c => has c command) GLOB_CHARS then Some DenyGlob
  else if has x22 command || has x27 command || has x5c command then Some DenyQuote
  else if has x3e command || has x3c command then Some DenyRedirect
  else if contains (lit "||") command then Some DenyOr
  else if has x7e command then Some DenyHome
  else None.

Definition check_segment (sb : Sandbox) (read_only : bool) (segment : str) : option Deny :=
  let seg := trim segment in
  if bool_decide (seg = []) then Some DenyEmptySegment else validate_segment sb read_only seg.

Definition validate_command (sb : Sandbox) (command : str) : option Deny :=
  match check_text command with
  | Some d => Some d
  | None =>
      let read_only := bool_decide (level (classify to_lowercase command) = Safe) in
      first_deny (check_segment sb read_only) (split_byte x7c command)
  end.

(** ** The tool *)

Definition normalize_sre_command (linux : bool) (command : str) : option str :=
  let key := to_lowercase (trim command) in
  if oneof [lit "ps"; lit "process"; lit "processes"; lit "cpu"; lit "ps aux"; lit "ps -ef"] key
  then Some (lit "ps aux | head -n 20")
  else if oneof [lit "disk"; lit "df"] key then Some (lit "df -h")
  else if oneof [lit "mem"; lit "memory"] key
  then Some (if linux then lit "free -h" else lit "ps aux | head -n 20")
  else if oneof [lit "net"; lit "network"] key
  then Some (if linux then lit "ss -tunl | head -n 50" else lit "netstat -an | head -n 50")
  else None.

(** The arguments of the tool call that are present with the right type. *)
Record ToolArgs := { a_command : option str; a_cwd : option str; a_timeout : option Z }.

Definition resolve_timeout (a : ToolArgs) : Z :=
  Z.max 1 (Z.min MAX_TIMEOUT_SECS (default DEFAULT_TIMEOUT_SECS a.(a_timeout))).

Definition resolve_cwd (sb : Sandbox) (a : ToolArgs) : option CanonPath :=
  match a.(a_cwd) with
  | Some c =>
      if bool_decide (trim c = []) then Some sb.(root)
      else p ← resolve fs sb c; if is_dir fs p then Some p else None
  | None => Some sb.(root)
  end.

Inductive ToolResult :=
| MissingCommand
| BadCwd
| BlockedRisk (level : RiskLevel)
| DeniedByUser
| BlockedValidation (reason : Deny)
| Run (command : str) (cwd : CanonPath) (timeout : Z).

Definition run_and_format (sb : Sandbox) (command : str) (cwd : CanonPath) (timeout : Z) : ToolResult :=
  match validate_command sb command with
  | Some d => BlockedValidation d
  | None => Run command cwd timeout
  end.

Definition execute (linux : bool) (sb : Sandbox) (confirm : str -> bool) (a : ToolArgs) : ToolResult :=
  match a.(a_command) with
  | None => MissingCommand
  | Some c =>
      let raw := trim c in
      if bool_decide (raw = []) then MissingCommand
      else
        let command := default raw (normalize_sre_command linux raw) in
        let timeout := resolve_timeout a in
        match resolve_cwd sb a with
        | None => BadCwd
        | Some cwd =>
            match level (classify to_lowercase command) with
            | Dangerous => BlockedRisk Dangerous
            | Unknown => BlockedRisk Unknown
            | NeedsConfirm => if confirm command then run_and_format sb command cwd timeout else DeniedByUser
            | Safe => run_and_format sb command cwd timeout
            end
        end
  end.
End Tool.

(** ** Output *)

(** What a read returns; data is not empty and at most 8192 bytes. *)
Inductive read_event := ReadData (chunk : str) | ReadInterrupted | ReadEof | ReadError.

(** [bounded_read_into]: buffer, truncation flag, bytes read. *)
Fixpoint bounded_read (evs : list read_event) (buf : str) (truncated : bool) (total : nat) : str * bool * nat :=
  match evs with
  | [] | ReadEof :: _ | ReadError :: _ => (buf, truncated, total)
  | ReadInterrupted :: rest => bounded_read rest buf truncated total
  | ReadData chunk :: rest =>
      let n := length chunk in
      let total := (total + n)%nat in
      let '(buf, truncated) :=
        if (length buf <? MAX_STREAM_BYTES)%nat then
          let room := (MAX_STREAM_BYTES - length buf)%nat in
          (buf ++ take (n `min` room) chunk, truncated || (n `min` room <? n)%nat)
        else (buf, true) in
      if (MAX_DRAIN_BYTES <=? total)%nat then (buf, true, total) else bounded_read rest buf truncated total
  end.
