(* ===== verification/RunCommandSpec.v ===== *)
(** * Theorems about the agent's command tool

    The operands of a command are told apart by the tables below, which are written from what the
    programs open and not from the code's loop. [run_command_confined]: a command that passes names
    listed programs, and its operands resolve inside the root. [secrets_read_silently]: options
    that take a path are not looked at. *)

From S2P Require Import Prelude RustStr RiskLex RiskGuard RunCommand.

(** ** Operands *)

Definition SEARCHERS : list str := [lit "grep"; lit "egrep"; lit "fgrep"; lit "rg"; lit "ag"].
Definition FINDERS : list str := [lit "find"; lit "fd"].
(** Other commands whose operands are files. *)
Definition READERS : list str :=
  [lit "cat"; lit "head"; lit "tail"; lit "ls"; lit "ll"; lit "la"; lit "du"; lit "stat"; lit "file"; lit "wc"; lit "less"; lit "more";
   lit "tree"; lit "cmp"; lit "diff"; lit "locate"; lit "readlink"; lit "realpath"; lit "nl"; lit "od"; lit "hexdump"; lit "xxd"].

(** Options after which the next argument may be their value. *)
Definition value_options (name : str) : list str :=
  if bool_decide (name ∈ [lit "head"; lit "tail"; lit "nl"]) then [lit "-n"; lit "-c"; lit "--lines"; lit "--bytes"]
  else if bool_decide (name ∈ SEARCHERS) then
    [lit "-A"; lit "-B"; lit "-C"; lit "-m"; lit "-e"; lit "--regexp"; lit "--max-count"; lit "--context"; lit "--after-context"; lit "--before-context"]
  else [].

Definition dashed (t : str) : Prop := lit "-" `prefix_of` t.

(** Argument [i] is [t], which does not begin with a dash and does not follow an option that may
    take it for its value. *)
Definition plain_arg (name : str) (args : list str) (i : nat) (t : str) : Prop :=
  args !! i = Some t /\ ~ dashed t /\ forall j o, i = S j -> args !! j = Some o -> o ∉ value_options name.

(** The operands of a command: of [find] what stands before its first option; of [grep] the plain
    arguments but the first, which is the pattern; else the plain arguments. *)
Definition operand (name : str) (args : list str) (t : str) : Prop :=
  if bool_decide (name ∈ FINDERS) then exists before after, args = before ++ t :: after /\ Forall (fun a => ~ dashed a) (before ++ [t])
  else exists i, plain_arg name args i t /\ (name ∈ SEARCHERS -> exists j u, (j < i)%nat /\ plain_arg name args j u).

(** ** Which arguments are looked at *)

Fixpoint visited (cmd : str) (policy : PathArgPolicy) (seen_pattern skip : bool) (args : list str) : list str :=
  match args with
  | [] => []
  | tok :: rest =>
      if skip then visited cmd policy seen_pattern false rest
      else if is_option tok then
        if is_leading policy then [] else visited cmd policy seen_pattern (consumes_next_value cmd tok) rest
      else if is_pattern_first policy && negb seen_pattern then visited cmd policy true false rest
      else tok :: visited cmd policy seen_pattern false rest
  end.

(** The arguments that count as paths. *)
Definition path_args (cmd : str) (policy : PathArgPolicy) (args : list str) : list str :=
  match policy with NoPaths => [] | _ => visited cmd policy false false args end.

Lemma path_arg_loop_spec cmd policy f args : forall seen skip,
  path_arg_loop cmd policy seen skip args f = None <-> Forall (fun t => f t = None) (visited cmd policy seen skip args).
Proof.
  induction args as [|tok rest IH]; intros seen skip; cbn [path_arg_loop visited]; [done|].
  destruct skip; [apply IH|]. destruct (is_option tok); [destruct (is_leading policy); [done|apply IH]|].
  destruct (is_pattern_first policy && negb seen); [apply IH|]. rewrite Forall_cons, <- IH.
  destruct (f tok); naive_solver.
Qed.

Lemma for_each_spec cmd policy f args :
  for_each_path_arg cmd policy args f = None <-> Forall (fun t => f t = None) (path_args cmd policy args).
Proof. destruct policy; [done|apply path_arg_loop_spec..]. Qed.

Lemma plain_arg_S name x args i t : plain_arg name (x :: args) (S i) t -> plain_arg name args i t.
Proof. intros (H1 & H2 & H3). split; [exact H1|]. split; [done|]. intros j o -> Ho. by apply (H3 (S j) o). Qed.

Lemma not_dashed_option t : ~ dashed t -> is_option t = false.
Proof. intros H. unfold is_option. destruct (starts_with (lit "-") t) eqn:E; [|done]. by apply starts_with_spec in E. Qed.

Lemma value_option_listed name o : name ∉ FINDERS -> consumes_next_value name o = true -> o ∈ value_options name.
Proof.
  intros Hn. unfold consumes_next_value, value_options, oneof. destruct (_ || _); [done|].
  case_bool_decide; [by intros ?%bool_decide_eq_true_1|]. fold SEARCHERS. fold FINDERS.
  case_bool_decide; [by intros ?%bool_decide_eq_true_1|]. by rewrite bool_decide_eq_false_2.
Qed.

(** A plain argument is looked at, once the pattern has been seen where there is one. *)
Lemma visited_plain name policy i t : forall args seen skip,
  name ∉ FINDERS -> is_leading policy = false -> is_pattern_first policy && negb seen = false ->
  plain_arg name args i t -> (i = O -> skip = false) -> t ∈ visited name policy seen skip args.
Proof.
  induction i as [|i IH]; intros args seen skip Hn Hl Hp Ha Hs; destruct args as [|x args]; try (by destruct Ha).
  - destruct Ha as ([= ->] & Hd & _). cbn [visited]. rewrite (Hs eq_refl), not_dashed_option, Hp by done. by left.
  - pose proof (plain_arg_S _ _ _ _ _ Ha) as Ha'. cbn [visited]. rewrite Hl, Hp. destruct skip; [by apply IH|].
    destruct (is_option x); [apply IH; try done|by right; apply IH].
    intros ->. destruct (consumes_next_value name x) eqn:E; [|done]. apply value_option_listed in E; [|done].
    destruct Ha as (_ & _ & H). by destruct (H O x eq_refl eq_refl).
Qed.

Lemma visited_after_pattern name i j t u : forall args skip,
  name ∉ FINDERS -> (j < i)%nat -> plain_arg name args i t -> plain_arg name args j u -> (j = O -> skip = false) ->
  t ∈ visited name PatternThenPaths false skip args.
Proof.
  revert i. induction j as [|j IH]; intros i args skip Hn Hji Ha Hu Hs; destruct i as [|i]; try lia; destruct args as [|x args]; try (by destruct Ha).
  - pose proof (plain_arg_S _ _ _ _ _ Ha) as Ha'. destruct Hu as ([= ->] & Hd & _). cbn [visited is_leading is_pattern_first andb negb].
    rewrite (Hs eq_refl), not_dashed_option by done. by apply (visited_plain name PatternThenPaths i t).
  - pose proof (plain_arg_S _ _ _ _ _ Ha) as Ha'. pose proof (plain_arg_S _ _ _ _ _ Hu) as Hu'.
    cbn [visited is_leading is_pattern_first andb negb]. destruct skip; [apply (IH i); try done; lia|].
    destruct (is_option x).
    + apply (IH i); try done; [lia|]. intros ->. destruct (consumes_next_value name x) eqn:E; [|done]. apply value_option_listed in E; [|done].
      destruct Hu as (_ & _ & H). by destruct (H O x eq_refl eq_refl).
    + apply (visited_plain name PatternThenPaths i t); done.
Qed.

Lemma visited_leading name before t after :
  Forall (fun a => ~ dashed a) (before ++ [t]) -> t ∈ visited name LeadingPaths false false (before ++ t :: after).
Proof.
  induction before as [|x before IH]; intros [Hx H]%Forall_cons; cbn [app visited is_leading is_pattern_first andb]; rewrite not_dashed_option by done.
  - by left.
  - right. by apply IH.
Qed.

(** What a policy must be for the operands of a command to be looked at. *)
Lemma operand_path_arg name policy args t :
  policy = (if bool_decide (name ∈ FINDERS) then LeadingPaths else if bool_decide (name ∈ SEARCHERS) then PatternThenPaths else AllPaths) ->
  operand name args t -> t ∈ path_args name policy args.
Proof.
  unfold operand. intros ->. case_bool_decide as Hf.
  - intros (before & after & -> & H). by apply visited_leading.
  - intros (i & Hi & Hp). case_bool_decide as Hs; cbn [path_args].
    + destruct (Hp Hs) as (j & u & Hji & Hj). by apply (visited_after_pattern name i j t u).
    + by apply (visited_plain name AllPaths i t).
Qed.

Lemma first_deny_spec f toks : first_deny f toks = None <-> Forall (fun t => f t = None) toks.
Proof.
  induction toks as [|t toks IH]; cbn; [done|]. rewrite Forall_cons, <- IH. destruct (f t); naive_solver.
Qed.

(** ** What validation establishes *)

(** Characters with which a shell expands, separates, redirects or quotes. *)
Definition SHELL_CHARS : list byte :=
  [x0a; x0d; x26; x3b; x60; x24; x2a; x3f; x5b; x5d; x7b; x7d; x22; x27; x5c; x3e; x3c; x7e].

Lemma check_text_spec command :
  check_text command = None -> Forall (fun c => c ∉ command) SHELL_CHARS /\ contains (lit "||") command = false.
Proof.
  unfold check_text. intros H. cbn [existsb GLOB_CHARS] in H.
  repeat match type of H with (if ?b then _ else _) = _ => let E := fresh "E" in destruct b eqn:E; [done|] end.
  bool_prop. unfold has in *. bool_prop. split; [|done].
  repeat (apply List.Forall_cons; [done|]). done.
Qed.

Section Tool.
Variable to_lowercase : str -> str.
Variable fs : FsView.
Variable sb : Sandbox.

(** Neither the text nor, where it exists, the file it leads to from the directory of the
    process is a known place of secrets. *)
Definition not_sensitive (tok : str) : Prop :=
  is_sensitive_path_str to_lowercase tok = false /\
  forall p, canonicalize fs (process_cwd fs) tok = Some p -> is_sensitive_path_str to_lowercase (render p) = false.

(** A relative path without a step upwards. *)
Definition stays_below (tok : str) : Prop :=
  ~ (lit "/" `prefix_of` tok) /\ lit ".." ∉ split_byte x2f tok.

(** A segment as the tool lets it pass. *)
Definition segment_confined (read_only : bool) (head : str) (args : list str) : Prop :=
  let name := base_name head in
  (name ∈ FINDERS -> forall t, t ∈ args -> t ∉ FIND_DANGEROUS_OPTS) /\
  if read_only then forall t, operand name args t -> not_sensitive t
  else
    (forall t, t ∈ args -> dashed t \/ stays_below t) /\
    (name ∈ READERS ++ SEARCHERS ++ FINDERS -> forall t, operand name args t ->
       exists p, canonicalize fs (root sb) t = Some p /\ root sb `prefix_of` p).

Lemma apart (names others : list str) name :
  bool_decide (Forall (fun n => n ∉ others) names) = true -> name ∈ names -> name ∈ others -> False.
Proof. intros H%bool_decide_eq_true_1 Hn. rewrite Forall_forall in H. by apply H. Qed.

(** The policy of a command that is in one of the lists. *)
Lemma listed_policy head :
  path_policy head =
  if bool_decide (base_name head ∈ FINDERS) then LeadingPaths
  else if bool_decide (base_name head ∈ SEARCHERS) then PatternThenPaths
  else if bool_decide (base_name head ∈ READERS) then AllPaths else NoPaths.
Proof.
  unfold path_policy, oneof. fold READERS SEARCHERS FINDERS. repeat case_bool_decide; try done; exfalso;
    first [by apply (apart READERS FINDERS (base_name head))|by apply (apart READERS SEARCHERS (base_name head))
          |by apply (apart SEARCHERS FINDERS (base_name head))].
Qed.

Lemma read_only_operands head args t :
  operand (base_name head) args t -> t ∈ path_args (base_name head) (read_only_policy head) args.
Proof.
  apply operand_path_arg. unfold read_only_policy. rewrite listed_policy. by repeat case_bool_decide.
Qed.

Lemma sandboxed_operands head args t :
  base_name head ∈ READERS ++ SEARCHERS ++ FINDERS ->
  operand (base_name head) args t -> t ∈ path_args (base_name head) (path_policy head) args.
Proof.
  rewrite !elem_of_app. intros Hin. apply operand_path_arg. rewrite listed_policy. repeat case_bool_decide; try done. naive_solver.
Qed.

Lemma check_sensitive_spec tok : check_sensitive_path to_lowercase fs tok = None -> not_sensitive tok.
Proof.
  unfold check_sensitive_path, not_sensitive. destruct (is_sensitive_path_str to_lowercase tok); [done|].
  destruct (canonicalize fs (process_cwd fs) tok) as [p|]; [|done].
  destruct (is_sensitive_path_str to_lowercase (render p)) eqn:E; [done|]. intros _. split; [done|]. by intros ? [= <-].
Qed.

Lemma check_no_escape_spec tok : check_no_escape tok = None -> stays_below tok.
Proof.
  unfold check_no_escape, stays_below. destruct (starts_with (lit "/") tok) eqn:E1; [done|].
  destruct (existsb _ _) eqn:E2; [done|]. intros _. split.
  - intros Hp. apply starts_with_spec in Hp. congruence.
  - intros Hin. assert (existsb (fun c => bool_decide (c = lit "..")) (split_byte x2f tok) = true); [|congruence].
    apply existsb_exists. exists (lit ".."). split; [by apply list_elem_of_In|done].
Qed.

Lemma under_spec r p : under r p = true -> r `prefix_of` p.
Proof. unfold under. intros H. bool_prop. rewrite <- H. apply prefix_take. Qed.

Lemma resolve_spec tok :
  resolve_in_sandbox fs sb tok = None -> exists p, canonicalize fs (root sb) tok = Some p /\ root sb `prefix_of` p.
Proof.
  unfold resolve_in_sandbox, resolve. case_bool_decide; [done|].
  destruct (canonicalize fs (root sb) tok) as [p|]; [|done]. cbn. destruct (under (root sb) p) eqn:E; [|done].
  intros _. exists p. split; [done|by apply under_spec].
Qed.

Lemma validate_segment_spec ro seg :
  validate_segment to_lowercase fs sb ro seg = None ->
  exists head args, split_whitespace seg = head :: args /\ segment_confined ro head args.
Proof.
  unfold validate_segment. destruct (split_whitespace seg) as [|head args]; [done|]. intros H. exists head, args.
  split; [done|]. unfold segment_confined.
  destruct (if oneof [lit "find"; lit "fd"] (base_name head) then _ else _) eqn:Ef; [done|]. split.
  - intros Hfd t Ht. unfold oneof in Ef. fold FINDERS in Ef. rewrite bool_decide_eq_true_2 in Ef by done. apply first_deny_spec in Ef.
    rewrite Forall_forall in Ef. apply Ef in Ht. unfold check_find_option in Ht. destruct (oneof FIND_DANGEROUS_OPTS t) eqn:E; [done|].
    unfold oneof in E. by bool_prop.
  - destruct ro.
    + apply for_each_spec in H. rewrite Forall_forall in H. intros t Ht. by apply check_sensitive_spec, H, read_only_operands.
    + destruct (first_deny check_argument args) eqn:Ea; [done|]. apply first_deny_spec in Ea.
      apply for_each_spec in H. rewrite !Forall_forall in *. split.
      * intros t Ht. apply Ea in Ht. unfold check_argument in Ht. destruct (is_option t) eqn:Eo; [left|right].
        -- by apply starts_with_spec in Eo.
        -- by apply check_no_escape_spec.
      * intros Hn t Ht. by apply resolve_spec, H, sandboxed_operands.
Qed.

Lemma validate_spec command :
  validate_command to_lowercase fs sb command = None ->
  Forall (fun c => c ∉ command) SHELL_CHARS /\ contains (lit "||") command = false /\
  forall seg, seg ∈ split_byte x7c command -> exists head args, split_whitespace (trim seg) = head :: args /\
    segment_confined (bool_decide (level (classify to_lowercase command) = Safe)) head args.
Proof.
  unfold validate_command. destruct (check_text command) eqn:Et; [done|]. intros H.
  apply check_text_spec in Et as [H1 H2]. split; [done|]. split; [done|]. intros seg Hseg.
  apply first_deny_spec in H. rewrite Forall_forall in H. apply H in Hseg. unfold check_segment in Hseg.
  case_bool_decide; [done|]. by apply validate_segment_spec.
Qed.

End Tool.

(** ** What passes although it should not *)

(** Lower case of the ASCII texts below. *)
Definition lower (s : str) : str := ascii_lower <$> s.

Section Passes.
Variable fs : FsView.
Variable sb : Sandbox.
(** Names in the working directory do not lead to secrets. *)
Hypothesis plain_targets : forall t p,
  canonicalize fs (process_cwd fs) t = Some p -> is_sensitive_path_str lower (render p) = false.

Lemma plain_check t : is_sensitive_path_str lower t = false -> check_sensitive_path lower fs t = None.
Proof.
  intros Ht. unfold check_sensitive_path. rewrite Ht. destruct (canonicalize _ _ t) as [p|] eqn:E; [|done].
  by rewrite (plain_targets _ _ E).
Qed.

(** A read-only segment passes when the words that count as paths are not sensitive. *)
Definition words_plain (segment : str) : bool :=
  match split_whitespace segment with
  | [] => false
  | head :: args =>
      (negb (oneof [lit "find"; lit "fd"] (base_name head))
       || forallb (fun t => negb (oneof FIND_DANGEROUS_OPTS t)) args)
      && forallb (fun t => negb (is_sensitive_path_str lower t))
           (path_args (base_name head) (read_only_policy head) args)
  end.

Lemma words_plain_passes segment : words_plain segment = true -> validate_segment lower fs sb true segment = None.
Proof.
  unfold words_plain, validate_segment. destruct (split_whitespace segment) as [|head args]; [done|].
  intros [Hf Hp]%andb_true_iff.
  assert ((if oneof [lit "find"; lit "fd"] (base_name head) then first_deny check_find_option args else None) = None) as ->.
  { destruct (oneof _ (base_name head)); [|done]. apply first_deny_spec, Forall_forall. intros t Ht.
    cbn [negb orb] in Hf. rewrite forallb_forall in Hf. apply list_elem_of_In, Hf in Ht. unfold check_find_option.
    by destruct (oneof FIND_DANGEROUS_OPTS t). }
  apply for_each_spec, Forall_forall. intros t Ht. apply plain_check.
  rewrite forallb_forall in Hp. apply list_elem_of_In, Hp in Ht. by apply negb_true_iff.
Qed.

(** A command that runs without a question, by evaluation alone. *)
Definition runs_silently (command : str) : bool :=
  bool_decide (trim command = command) && negb (bool_decide (command = []))
  && bool_decide (normalize_sre_command lower true command = None)
  && bool_decide (level (classify lower command) = Safe)
  && bool_decide (check_text command = None)
  && forallb (fun seg => negb (bool_decide (trim seg = [])) && words_plain (trim seg)) (split_byte x7c command).

Lemma runs_silently_timed command w t dir :
  runs_silently command = true ->
  let a := {| a_command := Some command; a_cwd := w; a_timeout := t |} in
  resolve_cwd fs sb a = Some dir ->
  execute lower fs true sb (fun _ => false) a = Run command dir (resolve_timeout a).
Proof.
  intros H a Hw. unfold runs_silently in H. bool_prop. unfold execute.
  change (a_command a) with (Some command). cbn iota beta.
  rewrite H, bool_decide_eq_false_2 by done. rewrite H3, Hw. cbn [default]. unfold id. rewrite H2.
  unfold run_and_format, validate_command. rewrite H1, H2, bool_decide_eq_true_2 by done.
  assert (first_deny (check_segment lower fs sb true) (split_byte x7c command) = None) as ->; [|done].
  apply first_deny_spec, Forall_forall. intros seg Hseg. rewrite forallb_forall in H0.
  apply list_elem_of_In, H0 in Hseg. apply andb_true_iff in Hseg as [Hs1 Hs2]. unfold check_segment.
  destruct (bool_decide (trim seg = [])); [done|]. by apply words_plain_passes.
Qed.

Lemma runs_silently_spec command w dir :
  runs_silently command = true ->
  let a := {| a_command := Some command; a_cwd := w; a_timeout := None |} in
  resolve_cwd fs sb a = Some dir ->
  execute lower fs true sb (fun _ => false) a = Run command dir DEFAULT_TIMEOUT_SECS.
Proof. apply runs_silently_timed. Qed.

(** Read without a question: [/etc/shadow], when the pattern is given by an option, so that
    the file is taken for the pattern; or when its name is attached to an option. *)
Theorem secrets_read_silently command :
  command ∈ [lit "grep -e root /etc/shadow"; lit "grep --regexp=root /etc/shadow"; lit "wc --files0-from=/etc/shadow"] ->
  execute lower fs true sb (fun _ => false) {| a_command := Some command; a_cwd := None; a_timeout := None |} =
    Run command (root sb) DEFAULT_TIMEOUT_SECS.
Proof.
  intros Hin. apply runs_silently_spec; [|done].
  repeat (apply elem_of_cons in Hin as [->|Hin]; [by vm_compute|]). by apply elem_of_nil in Hin.
Qed.

(** Run without a question although they change files or run another program: an assignment
    that changes the search path or preloads code, a program of the working directory named
    like a safe one, the wrapper [command], deletion of a branch, and output to a file. *)
Theorem changes_run_silently command :
  command ∈ [lit "PATH=. ls"; lit "LD_PRELOAD=./x.so ls"; lit "./ls"; lit "command rm -r src";
             lit "git branch -D main"; lit "git log --output=src"] ->
  execute lower fs true sb (fun _ => false) {| a_command := Some command; a_cwd := None; a_timeout := None |} =
    Run command (root sb) DEFAULT_TIMEOUT_SECS.
Proof.
  intros Hin. apply runs_silently_spec; [|done].
  repeat (apply elem_of_cons in Hin as [->|Hin]; [by vm_compute|]). by apply elem_of_nil in Hin.
Qed.

(** The symlink check resolves names from the directory of the process, but the command runs
    in the directory the call names: a link there that leads to a key is not noticed. *)
Theorem link_in_cwd_not_seen dir :
  canonicalize fs (root sb) (lit "sub") = Some dir -> under (root sb) dir = true -> is_dir fs dir = true ->
  canonicalize fs dir (lit "link") = Some [lit "root"; lit ".ssh"; lit "id_rsa"] ->
  execute lower fs true sb (fun _ => false)
    {| a_command := Some (lit "cat link"); a_cwd := Some (lit "sub"); a_timeout := None |} =
      Run (lit "cat link") dir DEFAULT_TIMEOUT_SECS /\
  exists target, canonicalize fs dir (lit "link") = Some target /\ is_sensitive_path_str lower (render target) = true.
Proof.
  intros H2 H3 H4 H5. split; [|eexists; split; [exact H5|by vm_compute]]. apply runs_silently_spec; [by vm_compute|].
  unfold resolve_cwd, resolve. cbn [a_cwd]. rewrite bool_decide_eq_false_2 by (by vm_compute).
  rewrite bool_decide_eq_false_2 by by_decide. rewrite H2. cbn [mbind option_bind]. rewrite H3. cbn [mbind option_bind].
  by rewrite H4.
Qed.
End Passes.

(** ** Normal forms of intents *)

(** Every intent that the tool rewrites becomes a command that runs without a question, on
    either platform. *)
Theorem normalized_runs_silently fs sb linux command canonical confirm :
  (forall t p, canonicalize fs (process_cwd fs) t = Some p -> is_sensitive_path_str lower (render p) = false) ->
  trim command <> [] -> normalize_sre_command lower linux (trim command) = Some canonical ->
  execute lower fs linux sb confirm {| a_command := Some command; a_cwd := None; a_timeout := None |} =
    Run canonical (root sb) DEFAULT_TIMEOUT_SECS.
Proof.
  intros Hfs Hne Hn. unfold execute. cbn [a_command]. rewrite bool_decide_eq_false_2 by done. rewrite Hn.
  cbn [default resolve_cwd a_cwd]. unfold id.
  assert (Hin : canonical ∈ [lit "ps aux | head -n 20"; lit "df -h"; lit "free -h"; lit "ss -tunl | head -n 50";
                             lit "netstat -an | head -n 50"]).
  { unfold normalize_sre_command in Hn. destruct linux; repeat case_match; simplify_eq; by_decide. }
  assert (Hrun : runs_silently canonical = true).
  { repeat (apply elem_of_cons in Hin as [->|Hin]; [by vm_compute|]). by apply elem_of_nil in Hin. }
  pose proof (runs_silently_spec fs sb Hfs canonical None (root sb) Hrun eq_refl) as H.
  unfold runs_silently in Hrun. bool_prop. unfold execute in H. cbn [a_command] in H.
  match goal with E : trim canonical = canonical |- _ => rewrite E in H end.
  rewrite bool_decide_eq_false_2 in H by done.
  match goal with E : normalize_sre_command lower true canonical = None |- _ => rewrite E in H end.
  cbn [default resolve_cwd a_cwd] in H. unfold id in H.
  match goal with E : level (classify lower canonical) = Safe |- _ => rewrite E in * end. exact H.
Qed.

(** ** Bounded output *)

(** What the process writes before the stream ends. *)
Fixpoint stream (evs : list read_event) : str :=
  match evs with
  | [] | ReadEof :: _ | ReadError :: _ => []
  | ReadInterrupted :: rest => stream rest
  | ReadData chunk :: rest => chunk ++ stream rest
  end.

(** Reads return at least one byte and at most a chunk. *)
Definition chunk_ok (ev : read_event) : Prop :=
  match ev with ReadData chunk => (1 <= length chunk <= 8192)%nat | _ => True end.

Lemma limits : (MAX_STREAM_BYTES < MAX_DRAIN_BYTES)%nat.
Proof. unfold MAX_STREAM_BYTES, MAX_DRAIN_BYTES. lia. Qed.

#[local] Opaque MAX_STREAM_BYTES MAX_DRAIN_BYTES.

Lemma bounded_step (before chunk : str) :
  (1 <= length chunk)%nat ->
  (if (length (take MAX_STREAM_BYTES before) <? MAX_STREAM_BYTES)%nat then
     let room := (MAX_STREAM_BYTES - length (take MAX_STREAM_BYTES before))%nat in
     (take MAX_STREAM_BYTES before ++ take (length chunk `min` room) chunk,
      (MAX_STREAM_BYTES <? length before)%nat || (length chunk `min` room <? length chunk)%nat)
   else (take MAX_STREAM_BYTES before, true)) =
  (take MAX_STREAM_BYTES (before ++ chunk), (MAX_STREAM_BYTES <? length (before ++ chunk))%nat).
Proof.
  intros Hc. rewrite length_take, length_app. destruct (MAX_STREAM_BYTES `min` length before <? MAX_STREAM_BYTES)%nat eqn:E; bool_prop.
  - rewrite (take_ge before) by lia. cbn zeta. replace (MAX_STREAM_BYTES `min` length before)%nat with (length before) by lia.
    f_equal; [|lia]. rewrite take_app, (take_ge before) by lia. f_equal.
    destruct (decide (length chunk <= MAX_STREAM_BYTES - length before)%nat); [by rewrite !take_ge by lia|f_equal; lia].
  - rewrite take_app. replace (MAX_STREAM_BYTES - length before)%nat with 0%nat by lia.
    rewrite take_0, app_nil_r. f_equal. lia.
Qed.

Lemma bounded_read_spec evs : forall before : str,
  Forall chunk_ok evs -> (length before < MAX_DRAIN_BYTES)%nat ->
  exists used, used `prefix_of` before ++ stream evs /\ (length used < MAX_DRAIN_BYTES + 8192)%nat /\
    bounded_read evs (take MAX_STREAM_BYTES before) (MAX_STREAM_BYTES <? length before)%nat (length before) =
      (take MAX_STREAM_BYTES used, (MAX_STREAM_BYTES <? length used)%nat, length used) /\
    ((length used < MAX_DRAIN_BYTES)%nat -> used = before ++ stream evs).
Proof.
  pose proof limits as HMD. induction evs as [|ev evs IH]; intros before Hev Hb.
  { exists before. cbn. rewrite app_nil_r. split; [done|]. split; [lia|done]. }
  apply Forall_cons in Hev as [He Hev]. destruct ev as [chunk| | |]; cbn [bounded_read stream].
  - cbn [chunk_ok] in He. rewrite bounded_step by lia.
    replace (length before + length chunk)%nat with (length (before ++ chunk)) by (by rewrite length_app).
    destruct (MAX_DRAIN_BYTES <=? length (before ++ chunk))%nat eqn:E; bool_prop.
    + exists (before ++ chunk). rewrite app_assoc. split; [by apply prefix_app_r|]. rewrite length_app in *.
      split; [lia|]. split; [|lia]. f_equal. f_equal. symmetry. apply Nat.ltb_lt. lia.
    + destruct (IH (before ++ chunk) Hev ltac:(lia)) as (used & H1 & H2 & H3 & H4). exists used.
      rewrite app_assoc. done.
  - by apply IH.
  - exists before. rewrite app_nil_r. split; [done|]. split; [lia|done].
  - exists before. rewrite app_nil_r. split; [done|]. split; [lia|done].
Qed.

(** The kept output is the beginning of what the process wrote, at most 64 KiB; the flag is
    exact: without it the output is complete; and reading stops within 8 MiB and a chunk. *)
Theorem output_bounded evs :
  Forall chunk_ok evs ->
  let '(buf, truncated, total) := bounded_read evs [] false 0 in
  buf `prefix_of` stream evs /\ (length buf <= MAX_STREAM_BYTES)%nat /\
  (truncated = false <-> buf = stream evs) /\ (total < MAX_DRAIN_BYTES + 8192)%nat.
Proof.
  intros Hev. pose proof limits as HMD.
  assert (H0 : (length (@nil byte) < MAX_DRAIN_BYTES)%nat) by (eapply Nat.le_lt_trans; [apply Nat.le_0_l|exact HMD]).
  destruct (bounded_read_spec evs [] Hev H0) as (used & H1 & H2 & H3 & H4).
  cbn [length app] in *. replace (take MAX_STREAM_BYTES []) with (@nil byte) in H3 by (by rewrite take_nil).
  rewrite (proj2 (Nat.ltb_ge MAX_STREAM_BYTES 0) (Nat.le_0_l _)) in H3. rewrite H3.
  split; [etrans; [apply prefix_take|exact H1]|]. split; [rewrite length_take; apply Nat.le_min_l|].
  split; [|exact H2]. clear H2 H3 H0. revert HMD H4. generalize MAX_STREAM_BYTES as M, MAX_DRAIN_BYTES as D.
  intros M D HMD H4. split.
  - intros E. bool_prop. rewrite take_ge by lia. apply H4. lia.
  - intros E. apply Nat.ltb_ge. apply prefix_length in H1. apply (f_equal length) in E. rewrite length_take in E. lia.
Qed.

(** ** Witnesses *)

Definition work : list str := [lit "home"; lit "work"].
Definition demo_fs : FsView := {|
  canonicalize := fun base t =>
    if bool_decide (t = lit "sub") then Some (work ++ [lit "sub"])
    else if bool_decide (t = lit "a") then Some (work ++ [lit "a"])
    else if bool_decide (base = work ++ [lit "sub"]) && bool_decide (t = lit "link")
    then Some [lit "root"; lit ".ssh"; lit "id_rsa"] else None;
  is_dir := fun p => bool_decide (p = work ++ [lit "sub"]);
  process_cwd := work |}.
Definition demo_sandbox : Sandbox := {| root := work |}.

Lemma demo_plain t p :
  canonicalize demo_fs (process_cwd demo_fs) t = Some p -> is_sensitive_path_str lower (render p) = false.
Proof.
  cbn [canonicalize demo_fs process_cwd]. case_bool_decide; [intros [= <-]; by vm_compute|].
  case_bool_decide; [intros [= <-]; by vm_compute|]. done.
Qed.


Lemma secrets_read_silently_witness :
  execute lower demo_fs true demo_sandbox (fun _ => false)
    {| a_command := Some (lit "grep -e root /etc/shadow"); a_cwd := None; a_timeout := None |} =
    Run (lit "grep -e root /etc/shadow") work DEFAULT_TIMEOUT_SECS.
Proof. apply (secrets_read_silently demo_fs demo_sandbox demo_plain). by apply elem_of_cons; left. Defined.

Lemma changes_run_silently_witness :
  execute lower demo_fs true demo_sandbox (fun _ => false)
    {| a_command := Some (lit "PATH=. ls"); a_cwd := None; a_timeout := None |} =
    Run (lit "PATH=. ls") work DEFAULT_TIMEOUT_SECS.
Proof. apply (changes_run_silently demo_fs demo_sandbox demo_plain). by apply elem_of_cons; left. Defined.

Lemma link_in_cwd_not_seen_witness :
  execute lower demo_fs true demo_sandbox (fun _ => false)
    {| a_command := Some (lit "cat link"); a_cwd := Some (lit "sub"); a_timeout := None |} =
    Run (lit "cat link") (work ++ [lit "sub"]) DEFAULT_TIMEOUT_SECS.
Proof.
  apply (link_in_cwd_not_seen demo_fs demo_sandbox demo_plain (work ++ [lit "sub"])); by vm_compute.
Defined.

Lemma normalized_runs_silently_witness :
  execute lower demo_fs true demo_sandbox (fun _ => false)
    {| a_command := Some (lit " CPU "); a_cwd := None; a_timeout := None |} =
    Run (lit "ps aux | head -n 20") work DEFAULT_TIMEOUT_SECS.
Proof.
  apply (normalized_runs_silently demo_fs demo_sandbox true (lit " CPU ") (lit "ps aux | head -n 20") (fun _ => false) demo_plain);
    by vm_compute.
Defined.

Lemma output_bounded_witness :
  (bounded_read [ReadData (lit "ab"); ReadInterrupted; ReadData (lit "c"); ReadEof] [] false 0).1.1 `prefix_of` lit "abc".
Proof.
  pose proof (output_bounded [ReadData (lit "ab"); ReadInterrupted; ReadData (lit "c"); ReadEof]) as H.
  destruct (bounded_read _ _ _ _) as [[buf tr] total]. apply H.
  repeat (apply List.Forall_cons; [cbn; lia|]). done.
Defined.
