(* ===== verification/Sandbox.v ===== *)
(** * The sandbox of the agent's file tools

    [aic-client/src/agent/gitignore.rs] and [agent/sandbox.rs]: ignore rules, and the paths a
    tool may read and write. The regular-expression engine is a parameter: it turns a pattern
    into a test on text, or refuses it. *)

From S2P Require Import Prelude RustStr RunCommand FileTree.

Local Open Scope outcome_scope.

(** ** Ignore rules *)

Record Rule := { regex : str -> bool; negated : bool; dir_only : bool; anchored : bool }.

Abbreviation Gitignore := (list Rule).

(** The characters that are escaped. *)
Definition REGEX_SPECIAL : list byte := lit ".+()|[]{}^$\".

(** The loop of [gitignore_to_regex] and of [glob_to_regex], which are the same. *)
Fixpoint glob_body (pattern : str) : str :=
  match pattern with
  | [] => []
  | x2a :: x2a :: x2f :: rest => lit "(?:.*/)?" ++ glob_body rest
  | x2a :: x2a :: rest => lit ".*" ++ glob_body rest
  | x2a :: rest => lit "[^/]*" ++ glob_body rest
  | x3f :: rest => lit "[^/]" ++ glob_body rest
  | c :: rest => (if bool_decide (c ∈ REGEX_SPECIAL) then [x5c; c] else [c]) ++ glob_body rest
  end.

Definition glob_to_regex (pattern : str) : str := lit "^" ++ glob_body pattern ++ lit "$".

Section Sandbox_.
Variable regex_new : str -> option (str -> bool).

Definition parse_line (raw : str) : option Rule :=
  let line := trim_end raw in
  if bool_decide (line = []) || starts_with (lit "#") line then None
  else
    let '(negated, pat) := match line with x21 :: p => (true, p) | _ => (false, line) end in
    let '(dir_only, pat) := if ends_with (lit "/") pat then (true, removelast pat) else (false, pat) in
    let '(leading_slash, pat) := match pat with x2f :: p => (true, p) | _ => (false, pat) end in
    if bool_decide (pat = []) then None
    else
      let anchored := leading_slash || bool_decide (x2f ∈ pat) in
      regex ← regex_new (glob_to_regex pat);
      Some {| regex := regex; negated := negated; dir_only := dir_only; anchored := anchored |}.

(** The rules of one file; a file that is missing or not UTF-8 has none. *)
Definition file_rules (fs : Tree) (p : Loc) : list Rule :=
  match read fs p with
  | Some content => if utf8_valid content then omap parse_line (lines content) else []
  | None => []
  end.

Definition load_gitignore (fs : Tree) (root : Loc) : Gitignore :=
  file_rules fs (root ++ [lit ".gitignore"]) ++ file_rules fs (root ++ [lit ".git"; lit "info"; lit "exclude"]).

Definition match_one (rules : Gitignore) (acc seg : str) (is_dir : bool) : option bool :=
  foldl (fun decision rule =>
    if dir_only rule && negb is_dir then decision
    else if regex rule (if anchored rule then acc else seg) then Some (negb (negated rule)) else decision)
    None rules.

(** The loop over the segments; [acc] is the path so far. *)
Fixpoint ignored_loop (rules : Gitignore) (acc : option str) (segs : list str) (is_dir ignored : bool) : bool :=
  match segs with
  | [] => ignored
  | seg :: rest =>
      let acc := match acc with Some a => a ++ lit "/" ++ seg | None => seg end in
      let seg_is_dir := match rest with [] => is_dir | _ => true end in
      ignored_loop rules (Some acc) rest is_dir (default ignored (match_one rules acc seg seg_is_dir))
  end.

Definition is_ignored_rel (rules : Gitignore) (rel : str) (is_dir : bool) : bool :=
  match rules with
  | [] => false
  | _ => ignored_loop rules None (filter (fun s => s <> []) (split_byte x2f rel)) is_dir false
  end.

(** ** The sandbox *)

Record FileSandbox := { sb_root : Loc; gitignore : Gitignore }.

Inductive ToolError :=
| MissingArg (key : str)
| NulByte | Unresolved | Outside | ParentInPath | NoFileName
| GitPath | SecretFile (name : str) | Ignored (name : str)
| NotAFile | NotADir | ReadFailed | WriteFailed | CreateDirFailed
| BadPattern | NotFound_ | Ambiguous (n : Z) | UnknownTool (name : str).

(** [Sandbox::new] of an absolute path. *)
Definition new_sandbox (fs : Tree) (dir : list str) : option FileSandbox :=
  root ← canonicalize fs dir; Some {| sb_root := root; gitignore := load_gitignore fs root |}.

Definition backslash_to_slash (s : str) : str := (fun c => if bool_decide (c = x5c) then x2f else c) <$> s.

(** The text of a location below the root; [to_string_lossy] of each component. *)
Definition relative (sb : FileSandbox) (abs : Loc) : option str :=
  if under (sb_root sb) abs
  then Some (backslash_to_slash (from_utf8_lossy (join (lit "/") (drop (length (sb_root sb)) abs))))
  else None.

Definition is_ignored (sb : FileSandbox) (abs : Loc) (is_dir : bool) : bool :=
  match relative sb abs with
  | Some rel => negb (bool_decide (rel = [])) && is_ignored_rel (gitignore sb) rel is_dir
  | None => false
  end.

Definition joined (sb : FileSandbox) (input : str) : list str :=
  if is_absolute input then comps input else sb_root sb ++ comps input.

Definition sb_resolve (fs : Tree) (sb : FileSandbox) (input : str) : outcome Loc ToolError :=
  guard negb (bool_decide (x00 ∈ input)) else NulByte in
  let? canonical := ok_or (canonicalize_text fs (dir_form input) (joined sb input)) Unresolved in
  guard under (sb_root sb) canonical else Outside in
  Ok canonical.

(** The nearest ancestor that resolves, on the components in reverse, and the rest. *)
Fixpoint probe_loop (fs : Tree) (rprobe tail : list str) : option (Loc * list str) :=
  match canonicalize fs (rev rprobe) with
  | Some c => Some (c, tail)
  | None => match rprobe with
            | [] => None
            | name :: parent => probe_loop fs parent (name :: tail)
            end
  end.

(** The loop of [resolve_for_write]; only the text as it was given may ask for a directory. *)
Definition probe_text (fs : Tree) (dir : bool) (p : list str) : option (Loc * list str) :=
  match canonicalize_text fs dir p with
  | Some c => Some (c, [])
  | None => match rev p with
            | [] => None
            | name :: parent => probe_loop fs parent [name]
            end
  end.

Definition resolve_for_write (fs : Tree) (sb : FileSandbox) (input : str) : outcome Loc ToolError :=
  guard negb (bool_decide (x00 ∈ input)) else NulByte in
  guard negb (bool_decide (DOTDOT ∈ joined sb input)) else ParentInPath in
  let? probed := ok_or (probe_text fs (dir_form input) (joined sb input)) Unresolved in
  let '(base, tail) := probed in
  guard under (sb_root sb) base else Outside in
  let target := base ++ tail in
  guard negb (bool_decide (target = [])) else NoFileName in
  Ok target.

Definition contains_path (fs : Tree) (sb : FileSandbox) (p : list str) : bool :=
  match canonicalize fs p with Some c => under (sb_root sb) c | None => false end.
End Sandbox_.
