(* ===== verification/StrOrder.v ===== *)
(** * The order of byte strings

    [Ord] of [str], [String] and of paths in one directory: byte-wise lexicographic. Sorting
    by it, and its agreement with the numeric order on zero-padded decimals. *)

From S2P Require Import Prelude RustStr.

Fixpoint str_leb (s t : str) : bool :=
  match s, t with
  | [], _ => true
  | _ :: _, [] => false
  | a :: s, b :: t => (b2z a <? b2z b) || ((b2z a =? b2z b) && str_leb s t)
  end.

Definition str_le (s t : str) : Prop := str_leb s t = true.

#[export] Instance str_le_dec : RelDecision str_le := fun s t => decide (str_leb s t = true).

(** [v.sort()] of strings or of paths. *)
Definition sort (l : list str) : list str := merge_sort str_le l.

Lemma str_le_cons a b s t :
  str_le (a :: s) (b :: t) <-> b2z a < b2z b \/ (b2z a = b2z b /\ str_le s t).
Proof. unfold str_le. simpl. rewrite orb_true_iff, andb_true_iff, Z.ltb_lt, Z.eqb_eq. done. Qed.

#[export] Instance str_le_refl : Reflexive str_le.
Proof. intros s. induction s as [|a s IH]; [done|]. rewrite str_le_cons. auto. Qed.

#[export] Instance str_le_trans : Transitive str_le.
Proof.
  intros s. induction s as [|a s IH]; intros [|b t] [|c u]; try done.
  rewrite !str_le_cons. intros [?|[? ?]] [?|[? ?]]; [left; lia..|right]. split; [lia|eauto].
Qed.

#[export] Instance str_le_antisymm : AntiSymm eq str_le.
Proof.
  intros s. induction s as [|a s IH]; intros [|b t]; try done.
  rewrite !str_le_cons. intros [?|[E ?]] [?|[? ?]]; try lia. f_equal; [|eauto].
  by apply byte.unsigned_inj.
Qed.

#[export] Instance str_le_total : Total str_le.
Proof.
  intros s. induction s as [|a s IH]; intros [|b t]; [by left..|by right|].
  rewrite !str_le_cons. destruct (IH t), (Z.lt_total (b2z a) (b2z b)) as [?|[?|?]]; auto.
Qed.

Lemma sort_Permutation l : sort l ≡ₚ l.
Proof. apply merge_sort_Permutation. Qed.

(** A sorted list is determined by its elements. *)
Lemma sort_unique l l' : l ≡ₚ l' -> StronglySorted str_le l' -> sort l = l'.
Proof.
  intros Hp Hs. apply (StronglySorted_unique str_le); [|done|].
  - apply Sorted_StronglySorted; [apply _|]. apply Sorted_merge_sort, _.
  - by rewrite sort_Permutation.
Qed.

(** ** Fixed-width decimals *)

Definition value (s : str) : Z := default 0 (digits_value 10 s).
Definition digits (s : str) : Prop := Forall (fun b => is_ascii_digit b = true) s.

Lemma to_digit_10 b : is_ascii_digit b = true -> to_digit 10 b = Some (b2z b - 48) /\ 48 <= b2z b <= 57.
Proof.
  intros H. unfold to_digit. unfold is_ascii_digit in H. rewrite H. unfold byte_in in H. bool_prop.
  split; [|lia]. by replace (_ <? 10) with true by lia.
Qed.

Lemma digits_value_acc s a :
  digits s -> exists v, 0 <= v < 10 ^ Z.of_nat (length s) /\
    foldl (fun acc b => a ← acc; d ← to_digit 10 b; Some (a * 10 + d)) (Some a) s
    = Some (a * 10 ^ Z.of_nat (length s) + v) /\ value s = v.
Proof.
  intros H. revert a. induction H as [|b s Hb _ IH]; intros a.
  { exists 0. cbn. rewrite Z.pow_0_r. split; [lia|]. split; [f_equal; lia|done]. }
  destruct (to_digit_10 b Hb) as [Hd Hr]. cbn [length]. rewrite Nat2Z.inj_succ, Z.pow_succ_r by lia.
  destruct (IH (a * 10 + (b2z b - 48))) as (v & Hv & E & Ev).
  exists ((b2z b - 48) * 10 ^ Z.of_nat (length s) + v). split; [nia|]. split.
  - simpl. rewrite Hd. simpl. rewrite E. f_equal. lia.
  - unfold value, digits_value. cbn [foldl mbind option_bind]. rewrite Hd. cbn [mbind option_bind].
    destruct (IH (0 * 10 + (b2z b - 48))) as (v' & _ & E' & Ev'). rewrite E'. simpl. subst. lia.
Qed.

Lemma value_cons b s :
  digits (b :: s) ->
  value (b :: s) = (b2z b - 48) * 10 ^ Z.of_nat (length s) + value s /\
  0 <= value s < 10 ^ Z.of_nat (length s).
Proof.
  intros H. inversion_clear H as [|? ? Hb Hs]. destruct (to_digit_10 b Hb) as [Hd Hr].
  destruct (digits_value_acc s (0 * 10 + (b2z b - 48)) Hs) as (v & Hv & E & Ev). subst v.
  split; [|done]. unfold value at 1, digits_value. cbn [foldl mbind option_bind]. rewrite Hd.
  cbn [mbind option_bind]. rewrite E. done.
Qed.

Lemma digits_order s t x y :
  digits s -> digits t -> length s = length t -> value s < value t -> str_le (s ++ x) (t ++ y).
Proof.
  intros Hs. revert t. induction Hs as [|a s Ha Hs IH]; intros [|b t] Ht Hl Hv; try done.
  destruct (value_cons a s) as [Ea Ba]; [by constructor|].
  destruct (value_cons b t) as [Eb Bb]; [done|]. inversion_clear Ht. injection Hl as Hl.
  rewrite Ea, Eb, Hl in Hv. rewrite Hl in Ba. simpl. apply str_le_cons.
  destruct (Z.lt_total (b2z a) (b2z b)) as [?|[E|?]]; [by left| |nia].
  right. split; [done|]. rewrite E in Hv. apply IH; [done..|lia].
Qed.

Lemma show_dec_padded_digits w n : digits (show_dec_padded w n).
Proof. apply Forall_app. split; [by apply Forall_replicate|]. apply show_unsigned_digits. Qed.

Lemma show_dec_padded_length n : length (show_dec_padded 20 n) = 20%nat.
Proof.
  unfold show_dec_padded, zero_pad. rewrite length_app, length_replicate.
  pose proof (length_to_radix 10 20 n). unfold show_unsigned. lia.
Qed.

Lemma digits_value_zeros k s : digits_value 10 (replicate k x30 ++ s) = digits_value 10 s.
Proof. unfold digits_value. induction k as [|k IH]; [done|]. exact IH. Qed.

Lemma show_dec_padded_value w n : 0 <= n < 10 ^ 20 -> digits_value 10 (show_dec_padded w n) = Some n.
Proof.
  intros Hn. unfold show_dec_padded, zero_pad. rewrite digits_value_zeros.
  apply digits_value_to_radix; simpl; lia.
Qed.

Lemma padded_order a b x y :
  0 <= a < b -> b < 10 ^ 20 -> str_le (show_dec_padded 20 a ++ x) (show_dec_padded 20 b ++ y).
Proof.
  intros Ha Hb. apply digits_order; try apply show_dec_padded_digits.
  - by rewrite !show_dec_padded_length.
  - unfold value. rewrite !show_dec_padded_value by lia. simpl. lia.
Qed.

Lemma parse_show_padded n : 0 <= n <= u64_max -> parse_u64 (show_dec_padded 20 n) = Some n.
Proof.
  intros Hn. unfold parse_u64, parse_unsigned.
  pose proof (show_dec_padded_value 20 n) as Hv. rewrite <- Hv by (unfold u64_max in *; lia).
  pose proof (show_dec_padded_length n) as Hl. pose proof (show_dec_padded_digits 20 n) as Hd.
  destruct (show_dec_padded 20 n) as [|b s]; [done|]. inversion_clear Hd.
  rewrite (bool_decide_eq_false_2 (b = x2b)) by (by eapply digit_not).
  rewrite bool_decide_eq_false_2 by done. rewrite Hv by (unfold u64_max in *; lia). simpl.
  by replace (n <=? u64_max) with true by lia.
Qed.
