(* ===== verification/FileTools.v ===== *)
(** * The agent's file tools

    [aic-client/src/agent/tools.rs]: [read_file], [list_dir], [grep], [glob], [write_file] and
    [edit_file] on a [Tree]. Arguments are JSON. Lower-casing and the regular-expression
    engine are parameters, and so is the order in which a directory is listed. *)

From S2P Require Import Prelude RustStr JsonValue StrOrder RunCommand FileTree Sandbox.

Local Open Scope outcome_scope.

Definition DEFAULT_READ_MAX_BYTES : Z := 64 * 1024.
Definition HARD_READ_MAX_BYTES : Z := 1024 * 1024.
Definition MAX_DIR_ENTRIES : Z := 500.
Definition MAX_GREP_MATCHES : Z := 200.
Definition MAX_GREP_LINE_LEN : Z := 500.
Definition MAX_GLOB_RESULTS : Z := 500.
Definition MAX_WALK_DEPTH : nat := 20.
Definition MAX_WALK_FILES : Z := 20000.
Definition BINARY_SCAN_BYTES : Z := 8192.

Definition zlength {A} (l : list A) : Z := Z.of_nat (length l).
Definition ztake {A} (n : Z) (l : list A) : list A := take (Z.to_nat n) l.

Definition is_hidden_or_vcs (name : str) : bool := starts_with (lit ".") name.

Definition has_git_component (p : Loc) : bool := bool_decide (lit ".git" ∈ p).

(** [path.file_name().and_then(to_str).unwrap_or("")] *)
Definition name_of (p : Loc) : str :=
  match last p with Some n => if utf8_valid n then n else [] | None => [] end.

Definition truncate_chars (s : str) (max : Z) : str :=
  if zlength (chars s) <=? max then s else concat (ztake max (chars s)).

Definition arg_str (args : Value) (key : str) : outcome str ToolError :=
  ok_or (value_get args key ≫= as_str) (MissingArg key).

(** A NUL among the first bytes. *)
Definition is_binary (bytes : str) : bool := bool_decide (x00 ∈ ztake BINARY_SCAN_BYTES bytes).

(** [s.matches(needle).count()]: occurrences that do not overlap; an empty needle occurs at
    every character boundary. *)
Fixpoint count_from (fuel : nat) (needle s : str) : Z :=
  match fuel with
  | O => 0
  | S fuel => match find_sub needle s with
              | Some i => 1 + count_from fuel needle (drop (i + length needle) s)
              | None => 0
              end
  end.
Definition count_matches (needle s : str) : Z :=
  match needle with
  | [] => zlength (chars s) + 1
  | _ => count_from (S (length s)) needle s
  end.

(** [s.replacen(old, new, 1)] *)
Definition replace_first (old new s : str) : str :=
  match find_sub old s with
  | Some i => take i s ++ new ++ drop (i + length old) s
  | None => s
  end.

Section Tools.
Variable to_lowercase : str -> str.
Variable regex_new : str -> option (str -> bool).
(** The order of [read_dir]. *)
Variable order : list str -> list str.

Notation is_secret_file := (is_secret_file to_lowercase).

Definition read_file (args : Value) (fs : Tree) (sb : FileSandbox) : outcome str ToolError :=
  let? path_arg := arg_str args (lit "path") in
  let? path := sb_resolve fs sb path_arg in
  guard negb (has_git_component path) else GitPath in
  let name := name_of path in
  guard negb (is_secret_file name) else SecretFile name in
  guard negb (is_ignored sb path false) else Ignored name in
  match lookup_node fs path with
  | Some (NFile bytes) =>
      let size := zlength bytes in
      let max_bytes := match value_get args (lit "max_bytes") ≫= as_u64 with
                       | Some v => Z.min v HARD_READ_MAX_BYTES
                       | None => DEFAULT_READ_MAX_BYTES
                       end in
      if is_binary bytes then Ok (lit "[binary file: " ++ show_unsigned size ++ lit " bytes — 내용 생략]")
      else
        let content := from_utf8_lossy (ztake max_bytes bytes) in
        Ok (if max_bytes <? size
            then content ++ x0a :: lit "…[truncated: 전체 " ++ show_unsigned size ++ lit " bytes 중 " ++
                 show_unsigned max_bytes ++ lit " bytes 표시]"
            else content)
  | _ => Err NotAFile
  end.

Definition is_dir_node (n : option node) : bool := match n with Some NDir => true | _ => false end.

(** What [list_dir] shows of one entry; [inl true]: hidden, [inl false]: ignored. *)
Definition list_entry (fs : Tree) (sb : FileSandbox) (dir : Loc) (name : str) : bool + str :=
  let shown := from_utf8_lossy name in
  if is_hidden_or_vcs shown then inl true
  else
    let n := lookup_node fs (dir ++ [name]) in
    if is_ignored sb (dir ++ [name]) (is_dir_node n) then inl false
    else inr (shown ++ match n with Some NDir => lit "/" | Some (NLink _) => lit "@" | _ => [] end).

Definition skipped (hidden : bool) (l : list (bool + str)) : Z :=
  zlength (filter (fun x => x = inl hidden) l).
Definition shown_rows (l : list (bool + str)) : list str :=
  omap (fun x => match x with inr r => Some r | inl _ => None end) l.

Definition list_dir (args : Value) (fs : Tree) (sb : FileSandbox) : outcome str ToolError :=
  let path_arg := default (lit ".") (value_get args (lit "path") ≫= as_str) in
  let? dir := sb_resolve fs sb path_arg in
  guard is_dir_node (lookup_node fs dir) else NotADir in
  let entries := list_entry fs sb dir <$> order (children fs dir) in
  let rows := sort (shown_rows entries) in
  let capped := MAX_DIR_ENTRIES <? zlength rows in
  let rows := ztake MAX_DIR_ENTRIES rows in
  Ok ((match rows with [] => lit "(표시할 엔트리 없음)" | _ => join [x0a] rows end) ++
      (if capped then x0a :: lit "…[" ++ show_unsigned MAX_DIR_ENTRIES ++ lit " 엔트리 상한 도달]" else []) ++
      (if 0 <? skipped true entries then x0a :: lit "[hidden " ++ show_unsigned (skipped true entries) ++ lit "개 제외]" else []) ++
      (if 0 <? skipped false entries then x0a :: lit "[gitignore " ++ show_unsigned (skipped false entries) ++ lit "개 제외]" else [])).

(** ** Walking *)

(** The loop over the entries of a directory, given how a directory below is walked. *)
Fixpoint walk_entries (fs : Tree) (sb : FileSandbox) (dir : Loc) (below : Loc -> list Loc -> list Loc)
    (names : list str) (out : list Loc) : list Loc :=
  match names with
  | [] => out
  | name :: names =>
      if is_hidden_or_vcs (from_utf8_lossy name) then walk_entries fs sb dir below names out
      else
        let p := dir ++ [name] in
        match lookup_node fs p with
        | None | Some (NLink _) => walk_entries fs sb dir below names out
        | Some NDir =>
            if is_ignored sb p true then walk_entries fs sb dir below names out
            else walk_entries fs sb dir below names (below p out)
        | Some (NFile _) =>
            if is_ignored sb p false then walk_entries fs sb dir below names out
            else
              let out := out ++ [p] in
              if MAX_WALK_FILES <=? zlength out then out else walk_entries fs sb dir below names out
        end
  end.

(** [collect_files]; [levels] is how many levels may still be entered. *)
Fixpoint collect_files (levels : nat) (fs : Tree) (sb : FileSandbox) (dir : Loc) (out : list Loc) : list Loc :=
  match levels with
  | O => out
  | S levels =>
      if MAX_WALK_FILES <=? zlength out then out
      else if is_dir_node (lookup_node fs dir)
           then walk_entries fs sb dir (collect_files levels fs sb) (order (children fs dir)) out
           else out
  end.

(** Depths 0 to [MAX_WALK_DEPTH] are entered. *)
Definition collect_all (fs : Tree) (sb : FileSandbox) (dir : Loc) : list Loc :=
  collect_files (S MAX_WALK_DEPTH) fs sb dir [].

(** The path of a file as it is shown. *)
Definition shown_path (sb : FileSandbox) (f : Loc) : str :=
  if under (sb_root sb) f then from_utf8_lossy (join (lit "/") (drop (length (sb_root sb)) f))
  else from_utf8_lossy (render f).

(** Matching lines of one file, numbered; [true]: the limit was reached. *)
Fixpoint grep_lines (re : str -> bool) (rel : str) (max_matches idx : Z) (ls out : list str) : list str * bool :=
  match ls with
  | [] => (out, false)
  | line :: ls =>
      if re line then
        let out := out ++ [rel ++ lit ":" ++ show_unsigned (idx + 1) ++ lit ":" ++ truncate_chars line MAX_GREP_LINE_LEN] in
        if max_matches <=? zlength out
        then (out ++ [lit "…[" ++ show_unsigned max_matches ++ lit " 매치 상한 도달]"], true)
        else grep_lines re rel max_matches (idx + 1) ls out
      else grep_lines re rel max_matches (idx + 1) ls out
  end.

Fixpoint grep_files (fs : Tree) (sb : FileSandbox) (re : str -> bool) (max_matches : Z) (files : list Loc)
    (out : list str) : list str :=
  match files with
  | [] => out
  | f :: files =>
      if is_secret_file (name_of f) then grep_files fs sb re max_matches files out
      else match read fs f with
           | None => grep_files fs sb re max_matches files out
           | Some bytes =>
               if is_binary bytes then grep_files fs sb re max_matches files out
               else match grep_lines re (shown_path sb f) max_matches 0 (lines (from_utf8_lossy bytes)) out with
                    | (out, true) => out
                    | (out, false) => grep_files fs sb re max_matches files out
                    end
           end
  end.

Definition grep (args : Value) (fs : Tree) (sb : FileSandbox) : outcome str ToolError :=
  let? pattern := arg_str args (lit "pattern") in
  let? re := ok_or (regex_new pattern) BadPattern in
  let base_arg := default (lit ".") (value_get args (lit "path") ≫= as_str) in
  let? base := sb_resolve fs sb base_arg in
  let max_matches := Z.min (default MAX_GREP_MATCHES (value_get args (lit "max_matches") ≫= as_u64)) MAX_GREP_MATCHES in
  let files := match lookup_node fs base with Some (NFile _) => [base] | _ => collect_all fs sb base end in
  match grep_files fs sb re max_matches files [] with
  | [] => Ok (lit "(매치 없음)")
  | out => Ok (join [x0a] out)
  end.

Fixpoint glob_files (sb : FileSandbox) (re : str -> bool) (files : list Loc) (out : list str) : list str * bool :=
  match files with
  | [] => (out, false)
  | f :: files =>
      match relative sb f with
      | None => glob_files sb re files out
      | Some rel =>
          if re rel then
            let out := out ++ [rel] in
            if MAX_GLOB_RESULTS <=? zlength out then (out, true) else glob_files sb re files out
          else glob_files sb re files out
      end
  end.

Definition glob (args : Value) (fs : Tree) (sb : FileSandbox) : outcome str ToolError :=
  let? pattern := arg_str args (lit "pattern") in
  let? re := ok_or (regex_new (glob_to_regex pattern)) BadPattern in
  match glob_files sb re (collect_all fs sb (sb_root sb)) [] with
  | (out, true) => Ok (join [x0a] (sort out ++ [lit "…[" ++ show_unsigned MAX_GLOB_RESULTS ++ lit " 결과 상한 도달]"]))
  | ([], false) => Ok (lit "(매치 없음)")
  | (out, false) => Ok (join [x0a] (sort out))
  end.

(** ** Writing *)

Definition reject_secret_write (p : Loc) : outcome unit ToolError :=
  guard negb (is_secret_file (name_of p)) else SecretFile (name_of p) in
  guard negb (has_git_component p) else GitPath in
  Ok tt.

Definition written (verb : str) (sb : FileSandbox) (p : Loc) : str :=
  verb ++ lit " " ++ default (from_utf8_lossy (render p)) (relative sb p).

(** The tools that write return the tree they leave. *)
Definition write_file (args : Value) (fs : Tree) (sb : FileSandbox) : outcome (str * Tree) ToolError :=
  let? path_arg := arg_str args (lit "path") in
  let? content := arg_str args (lit "content") in
  let? path := resolve_for_write fs sb path_arg in
  let? _ := reject_secret_write path in
  let? fs := (let parent := removelast path in
              if exists_at fs parent then Ok fs else ok_or (mkdirs fs [] parent) CreateDirFailed) in
  let? fs := ok_or (write fs path content) WriteFailed in
  Ok (written (lit "wrote") sb path ++ lit " (" ++ show_unsigned (zlength content) ++ lit " bytes)", fs).

Definition edit_file (args : Value) (fs : Tree) (sb : FileSandbox) : outcome (str * Tree) ToolError :=
  let? path_arg := arg_str args (lit "path") in
  let? old_string := arg_str args (lit "old_string") in
  let? new_string := arg_str args (lit "new_string") in
  let? path := resolve_for_write fs sb path_arg in
  let? _ := reject_secret_write path in
  let? current := ok_or (read fs path) ReadFailed in
  guard utf8_valid current else ReadFailed in
  let count := count_matches old_string current in
  if count =? 0 then Err NotFound_
  else if 2 <=? count then Err (Ambiguous count)
  else
    let? fs := ok_or (write fs path (replace_first old_string new_string current)) WriteFailed in
    Ok (written (lit "edited") sb path, fs).

Definition keep_tree (fs : Tree) (r : outcome str ToolError) : outcome (str * Tree) ToolError :=
  let? s := r in Ok (s, fs).

Definition execute (name : str) (args : Value) (fs : Tree) (sb : FileSandbox) : outcome (str * Tree) ToolError :=
  if bool_decide (name = lit "read_file") then keep_tree fs (read_file args fs sb)
  else if bool_decide (name = lit "list_dir") then keep_tree fs (list_dir args fs sb)
  else if bool_decide (name = lit "grep") then keep_tree fs (grep args fs sb)
  else if bool_decide (name = lit "glob") then keep_tree fs (glob args fs sb)
  else if bool_decide (name = lit "write_file") then write_file args fs sb
  else if bool_decide (name = lit "edit_file") then edit_file args fs sb
  else Err (UnknownTool name).
End Tools.
