(* ===== verification/FileToolsSpec.v ===== *)
(** * Theorems about the agent's file tools

    [read_confined]: what is shown is the named file, up to the limits, and no secret.
    [write_confined], [write_follows_link]: where a write may land. *)

From S2P Require Import Prelude RustStr JsonValue StrOrder RunCommand RunCommandSpec FileTree Sandbox FileTools.

Local Open Scope outcome_scope.

(** Take apart a computation that ended in [Ok]. *)
Ltac ok_inv H :=
  repeat match type of H with
  | obind ?m _ = Ok _ =>
      let a := fresh "v" in let E := fresh "E" in
      destruct m as [a| |] eqn:E; [cbn [obind] in H|discriminate H..]
  | (if ?b then _ else Err _) = Ok _ => let E := fresh "G" in destruct b eqn:E; [|discriminate H]
  end.

Lemma arg_str_Ok args key s : arg_str args key = Ok s -> value_get args key = Some (VString s).
Proof.
  unfold arg_str. intros H%ok_or_Ok. apply bind_Some in H as (v & -> & H). by destruct v; try done; injection H as ->.
Qed.

(** ** Resolution *)

Lemma canonicalize_text_Some fs dir p loc : canonicalize_text fs dir p = Some loc -> canonicalize fs p = Some loc.
Proof.
  unfold canonicalize_text. intros (c & -> & H)%bind_Some. destruct dir; [|done].
  destruct (lookup_node fs c) as [[]|]; congruence.
Qed.

Lemma sb_resolve_Ok fs sb input loc : sb_resolve fs sb input = Ok loc ->
  sb_root sb `prefix_of` loc /\ physical fs loc /\ is_Some (lookup_node fs loc).
Proof.
  unfold sb_resolve. intros H. ok_inv H. injection H as <-. apply ok_or_Ok, canonicalize_text_Some in E.
  apply canonicalize_spec in E as [Hp (n & Hn & _)]. split_and!; [by apply under_spec|done|by eexists].
Qed.

Lemma probe_loop_Some fs : forall rprobe tail base t, probe_loop fs rprobe tail = Some (base, t) ->
  (exists q, canonicalize fs q = Some base) /\ exists mid, t = mid ++ tail /\ mid ⊆ rprobe.
Proof.
  induction rprobe as [|name parent IH]; intros tail base t H; cbn [probe_loop] in H; destruct (canonicalize fs _) eqn:E; try done.
  1, 2: injection H as <- <-; split; [by eexists|]; exists []; set_solver.
  destruct (IH _ _ _ H) as [Hc (mid & -> & Hsub)]. split; [done|]. exists (mid ++ [name]). rewrite <- app_assoc. set_solver.
Qed.

Lemma probe_loop_hit fs rprobe tail c : canonicalize fs (rev rprobe) = Some c -> probe_loop fs rprobe tail = Some (c, tail).
Proof. intros H. destruct rprobe; cbn [probe_loop]; by rewrite H. Qed.

Lemma probe_text_Some fs dir p base t : probe_text fs dir p = Some (base, t) ->
  (exists q, canonicalize fs q = Some base) /\ t ⊆ p.
Proof.
  unfold probe_text. destruct (canonicalize_text fs dir p) eqn:E.
  - intros [= <- <-]. split; [eexists; by apply canonicalize_text_Some in E|set_solver].
  - destruct (rev p) as [|name parent] eqn:Er; [done|]. intros H. apply probe_loop_Some in H as [Hc (mid & -> & Hsub)].
    split; [done|]. assert (p = rev parent ++ [name]) as -> by (by rewrite <- (rev_involutive p), Er).
    intros x. rewrite !elem_of_app. intros [Hx|Hx]; [left|by right]. apply list_elem_of_In. rewrite <- in_rev. apply list_elem_of_In. by apply Hsub.
Qed.

(** A path that may be written: an existing part below the root, reached through
    directories, and names that are not the parent's. *)
Lemma resolve_for_write_Ok fs sb input target : resolve_for_write fs sb input = Ok target ->
  target <> [] /\ DOTDOT ∉ target /\
  exists base tail, target = base ++ tail /\ sb_root sb `prefix_of` base /\ physical fs base /\ is_Some (lookup_node fs base).
Proof.
  unfold resolve_for_write. intros H. ok_inv H. destruct v as [base tail]. ok_inv H. injection H as <-.
  apply ok_or_Ok, probe_text_Some in E as [[q Hc] Hsub]. bool_prop.
  split_and!; [done| |exists base, tail; split_and!; [done|by apply under_spec|..]].
  - intros Hin. apply elem_of_app in Hin as [Hin|Hin]; [|by apply Hsub in Hin].
    eapply walk_no_dotdot; [|exact Hc|done]. set_solver.
  - by destruct (canonicalize_spec _ _ _ Hc).
  - apply canonicalize_spec in Hc as [_ (n & Hn & _)]. by eexists.
Qed.

Section Spec.
Variable to_lowercase : str -> str.

Notation is_secret_file := (is_secret_file to_lowercase).

(** ** Reading *)

Lemma lossy_fuel_valid n s : utf8_valid_fuel n s = true -> utf8_lossy_fuel n s = s.
Proof.
  revert s. induction n as [|n IH]; intros [|b s]; try done. cbn [utf8_valid_fuel utf8_lossy_fuel].
  destruct (utf8_next (b :: s)) as [k ok] eqn:E. intros [-> H]%andb_true_iff. by rewrite IH, take_drop.
Qed.

Lemma lossy_valid s : utf8_valid s = true -> from_utf8_lossy s = s.
Proof. apply lossy_fuel_valid. Qed.

(** How many bytes a call shows at most: as many as it asks for, up to a megabyte. *)
Definition read_limit (args : Value) : Z :=
  match value_get args (lit "max_bytes") ≫= as_u64 with Some v => Z.min v 1048576 | None => 65536 end.

Lemma sb_resolve_joined fs sb input loc :
  sb_resolve fs sb input = Ok loc -> canonicalize_text fs (dir_form input) (joined sb input) = Some loc.
Proof. unfold sb_resolve. intros H. ok_inv H. injection H as <-. by apply ok_or_Ok in E. Qed.

(** C19: What [read_file] shows is of the file that the given path leads to once all links are
    resolved, which lies below the sandbox's root, outside any [.git], is not a secret by its
    name and not ignored. It is the whole text where that is within the limit of the call, at
    most a megabyte; else as many bytes as the limit, and a line that says how many of how
    many; and of a file with a NUL in the beginning only the size. *)
Theorem read_confined args fs sb s : read_file to_lowercase args fs sb = Ok s ->
  exists path loc bytes,
    value_get args (lit "path") = Some (VString path) /\ canonicalize_text fs (dir_form path) (joined sb path) = Some loc /\
    sb_root sb `prefix_of` loc /\ physical fs loc /\ lookup_node fs loc = Some (NFile bytes) /\
    lit ".git" ∉ loc /\ is_secret_file (name_of loc) = false /\ is_ignored sb loc false = false /\
    read_limit args <= 1048576 /\
    (x00 ∈ ztake 8192 bytes -> s = lit "[binary file: " ++ show_unsigned (zlength bytes) ++ lit " bytes — 내용 생략]") /\
    (x00 ∉ ztake 8192 bytes -> zlength bytes <= read_limit args ->
       s = from_utf8_lossy bytes /\ (utf8_valid bytes = true -> s = bytes)) /\
    (x00 ∉ ztake 8192 bytes -> read_limit args < zlength bytes ->
       s = from_utf8_lossy (ztake (read_limit args) bytes) ++
           x0a :: lit "…[truncated: 전체 " ++ show_unsigned (zlength bytes) ++ lit " bytes 중 " ++
           show_unsigned (read_limit args) ++ lit " bytes 표시]").
Proof.
  unfold read_file. intros H. ok_inv H. apply arg_str_Ok in E. pose proof (sb_resolve_joined _ _ _ _ E0) as Hj.
  apply sb_resolve_Ok in E0 as (H1 & H2 & _). bool_prop. unfold has_git_component in *. bool_prop.
  destruct (lookup_node fs v0) as [[bytes| |]|] eqn:En; try done.
  change (match _ ≫= as_u64 with Some _ => _ | None => _ end) with (read_limit args) in H.
  exists v, v0, bytes. split_and!; try done.
  - unfold read_limit. destruct (_ ≫= as_u64); lia.
  - intros Hb. unfold is_binary in H. change (ztake BINARY_SCAN_BYTES bytes) with (ztake 8192 bytes) in H. rewrite bool_decide_eq_true_2 in H by done. congruence.
  - intros Hb Hl. unfold is_binary in H. change (ztake BINARY_SCAN_BYTES bytes) with (ztake 8192 bytes) in H. rewrite bool_decide_eq_false_2 in H by done.
    replace (read_limit args <? zlength bytes) with false in H by lia. unfold ztake in H. rewrite take_ge in H by (unfold zlength in *; lia).
    injection H as <-. split; [done|apply lossy_valid].
  - intros Hb Hl. unfold is_binary in H. change (ztake BINARY_SCAN_BYTES bytes) with (ztake 8192 bytes) in H. rewrite bool_decide_eq_false_2 in H by done.
    replace (read_limit args <? zlength bytes) with true in H by lia. by injection H as <-.
Qed.

(** ** Writing *)

(** Without links on the way, [fs::write] changes the file of that name and nothing else. *)
Lemma write_plain fs p content fs' : p <> [] -> DOTDOT ∉ p -> link_free fs p -> write fs p content = Some fs' ->
  fs' = <[p := NFile content]> fs /\ read fs' p = Some content.
Proof.
  unfold write, locate. intros Hne Hd Hl H. destruct (walk _ _ fs [] p) as [loc|] eqn:E; [|done].
  apply walk_plain in E as [-> Hdirs]; [|done|intros a r t ? _; by apply (Hl a r)]. cbn [app] in *.
  assert (fs' = <[p := NFile content]> fs) as -> by (destruct (lookup_node fs p) as [[]|]; congruence).
  split; [done|]. by apply read_written.
Qed.

Lemma reject_secret_write_Ok p u : reject_secret_write to_lowercase p = Ok u ->
  is_secret_file (name_of p) = false /\ lit ".git" ∉ p.
Proof. unfold reject_secret_write. intros H. ok_inv H. unfold has_git_component in *. by bool_prop. Qed.

(** A location below an existing one that is created lies below the root. *)
Lemma created_below fs root base tail p :
  root `prefix_of` base -> physical fs base -> is_Some (lookup_node fs base) ->
  p <> [] -> fs !! p = None -> p `prefix_of` base ++ tail -> root `prefix_of` p.
Proof.
  intros Hr Hp [n Hn] Hne Hnone Hpre.
  destruct (prefix_weak_total p base (base ++ tail)) as [[r ->]|Hb]; [done|by apply prefix_app_r| |by etrans].
  exfalso. destruct r as [|x r].
  - rewrite app_nil_r, lookup_node_ne in Hn by done. congruence.
  - specialize (Hp p (x :: r) eq_refl). rewrite lookup_node_ne in Hp by done. by rewrite Hp in Hnone.
Qed.

(** C20: [write_file] writes below the sandbox's root, to no secret and into no [.git]. When
    no link lies on the way to the file, the file then holds the given content, and all that
    has changed besides are directories created on the way, below the root. *)
Theorem write_confined args fs sb msg fs' : write_file to_lowercase args fs sb = Ok (msg, fs') ->
  exists content target,
    value_get args (lit "content") = Some (VString content) /\ sb_root sb `prefix_of` target /\
    is_secret_file (name_of target) = false /\ lit ".git" ∉ target /\
    (link_free fs target ->
     read fs' target = Some content /\
     forall p, fs' !! p <> fs !! p -> sb_root sb `prefix_of` p /\
       (p = target \/ (p `prefix_of` target /\ fs !! p = None /\ fs' !! p = Some NDir))).
Proof.
  unfold write_file. intros H. ok_inv H. injection H as <- <-. apply arg_str_Ok in E0.
  apply resolve_for_write_Ok in E1 as (Hne & Hdot & base & tail & Htgt & Hroot & Hphys & Hbase).
  apply reject_secret_write_Ok in E2 as [Hsec Hgit]. exists v0, v1.
  assert (Hrt : sb_root sb `prefix_of` v1) by (rewrite Htgt; by apply prefix_app_r).
  split_and!; try done. intros Hfree. apply ok_or_Ok in E4.
  assert (Hdirs : forall p, v3 !! p = fs !! p \/
                            (fs !! p = None /\ v3 !! p = Some NDir /\ p <> [] /\ p `prefix_of` v1)).
  { destruct (exists_at fs (removelast v1)); [injection E3 as <-; by left|].
    apply ok_or_Ok in E3. intros p. destruct (mkdirs_spec _ _ _ _ E3 p) as [?|(H1 & H2 & a & r & Ha & Hn & ->)]; [by left|].
    right. split_and!; [done..|]. cbn. destruct (exists_last Hne) as (d & x & Ed). rewrite Ed, removelast_last in Ha.
    exists (r ++ [x]). by rewrite Ed, Ha, app_assoc. }
  assert (Hfree3 : link_free v3 v1).
  { intros q r t Eq Hq. destruct (Hdirs q) as [Hs|(_ & Hs & _)]; [|congruence]. rewrite Hs in Hq. by apply (Hfree q r t). }
  destruct (write_plain _ _ _ _ Hne Hdot Hfree3 E4) as [-> Hread]. split; [done|]. intros p Hp.
  destruct (decide (p = v1)) as [->|Hpne]; [split; [done|by left]|].
  rewrite lookup_insert_ne in * by done. destruct (Hdirs p) as [?|(H1 & H2 & H3 & H4)]; [done|].
  split; [|by right]. rewrite Htgt in H4. exact (created_below fs _ base tail p Hroot Hphys Hbase H3 H1 H4).
Qed.

(** C27: A name in the sandbox's root that is a symbolic link, and whose path does not resolve
    the way it is given, since the link dangles or since a separator after it asks for a
    directory, is written through: the file at the other end of the link is created or
    replaced, wherever it lies. *)
Theorem write_follows_link fs sb path x content loc :
  comps path = [x] -> is_absolute path = false -> x00 ∉ path ->
  physical fs (sb_root sb) -> lookup_node fs (sb_root sb) = Some NDir -> DOTDOT ∉ sb_root sb ++ [x] ->
  is_secret_file (name_of (sb_root sb ++ [x])) = false -> lit ".git" ∉ sb_root sb ++ [x] ->
  canonicalize_text fs (dir_form path) (sb_root sb ++ [x]) = None ->
  locate fs (sb_root sb ++ [x]) = Some loc -> match lookup_node fs loc with None | Some (NFile _) => True | _ => False end ->
  exists msg, write_file to_lowercase (VObject [(lit "path", VString path); (lit "content", VString content)]) fs sb
    = Ok (msg, <[loc := NFile content]> fs).
Proof.
  intros Hc Ha Hnul Hphys Hdir Hdot Hsec Hgit Hcanon Hloc Hnode.
  assert (Hroot : canonicalize fs (sb_root sb) = Some (sb_root sb)).
  { apply (walk_physical false MAX_LINKS fs (sb_root sb) [] NDir); [|done..].
    apply list.Forall_forall. intros y Hy ->. set_solver. }
  assert (Hres : resolve_for_write fs sb path = Ok (sb_root sb ++ [x])).
  { unfold resolve_for_write, joined, probe_text. rewrite Ha, Hc, (bool_decide_eq_false_2 (x00 ∈ path)) by done.
    rewrite bool_decide_eq_false_2 by done. cbn [negb]. rewrite Hcanon, rev_app_distr. cbn [rev app].
    rewrite (probe_loop_hit _ _ _ (sb_root sb)) by (by rewrite rev_involutive). cbn [ok_or obind].
    unfold under. rewrite firstn_all, bool_decide_eq_true_2 by done.
    by rewrite bool_decide_eq_false_2 by (by destruct (sb_root sb)). }
  unfold write_file, arg_str, value_get. cbn [as_object mbind option_bind get].
  rewrite bool_decide_eq_true_2 by done. cbn [as_str mbind option_bind ok_or obind].
  rewrite bool_decide_eq_false_2, bool_decide_eq_true_2 by done. cbn [as_str mbind option_bind ok_or obind].
  rewrite Hres. cbn [obind]. unfold reject_secret_write, has_git_component. rewrite Hsec, bool_decide_eq_false_2 by done.
  cbn [negb obind]. rewrite removelast_last. unfold exists_at. rewrite Hroot, bool_decide_eq_true_2 by done.
  cbn [obind]. unfold write. rewrite Hloc.
  destruct (lookup_node fs loc) as [n|] eqn:En; [|by eexists].
  destruct n; [by eexists|done..].
Qed.

(** [find_sub] finds the first occurrence. *)
Lemma find_sub_least needle : forall pre post i, find_sub needle (pre ++ needle ++ post) = Some i -> (i <= length pre)%nat.
Proof.
  induction pre as [|x pre IH]; intros post i; cbn [app]; [rewrite find_sub_prefix; intros [= <-]; lia|].
  cbn [find_sub length]. destruct (starts_with _ _); [intros [= <-]; lia|].
  destruct (find_sub needle (pre ++ needle ++ post)) as [j|] eqn:E; [|done]. cbn. intros [= <-]. apply IH in E. lia.
Qed.

Lemma count_from_nonneg f old : forall s, 0 <= count_from f old s.
Proof.
  induction f as [|f IH]; intros s; cbn [count_from]; [done|]. destruct (find_sub old s) as [n|]; [|done].
  specialize (IH (drop (n + length old) s)). lia.
Qed.

Lemma count_matches_nonneg old s : 0 <= count_matches old s.
Proof. unfold count_matches, zlength. destruct old; [lia|apply count_from_nonneg]. Qed.

(** One match means: an occurrence, and others overlap with it. *)
Lemma count_matches_one old s : count_matches old s = 1 ->
  exists pre post, s = pre ++ old ++ post /\ find_sub old s = Some (length pre) /\
    forall pre' post', s = pre' ++ old ++ post' -> pre' = pre \/ (length pre < length pre' < length pre + length old)%nat.
Proof.
  intros H. destruct (decide (old = [])) as [->|Hne].
  { cbn [count_matches] in H. assert (s = []) as ->.
    { destruct s as [|b s]; [done|]. unfold zlength, chars in H. cbn [length chars_fuel] in H. lia. }
    exists [], []. split_and!; [done..|]. intros pre' post' E. symmetry in E. apply app_nil in E as [-> _]. by left. }
  assert (H' : count_from (S (length s)) old s = 1) by (by destruct old). clear H. cbn [count_from] in H'.
  destruct (find_sub old s) as [i|] eqn:E; [|done]. pose proof E as E0. apply find_sub_Some in E as (pre & post & -> & <-).
  exists pre, post. split_and!; [done..|]. intros pre' post' Eq.
  assert (Hl : (length pre <= length pre')%nat) by (rewrite Eq in E0; by eapply find_sub_least).
  destruct (decide (pre' = pre)) as [->|Hp]; [by left|]. right.
  assert (length pre <> length pre') by (intros ?; apply Hp; symmetry; by eapply app_inj_1 in Eq as [? _]).
  split; [lia|]. destruct (Nat.lt_ge_cases (length pre') (length pre + length old)); [done|exfalso].
  rewrite app_assoc in H'. rewrite drop_app_length' in H' by (rewrite length_app; lia).
  assert (Hpost : exists mid, post = mid ++ old ++ post').
  { exists (drop (length pre + length old) pre'). apply (f_equal (drop (length pre + length old))) in Eq.
    rewrite app_assoc, drop_app_length' in Eq by (rewrite length_app; lia). rewrite Eq. apply drop_app_le. lia. }
  destruct Hpost as [mid ->]. destruct (length ((pre ++ old) ++ _)) as [|f] eqn:El; [by destruct pre, old|].
  cbn [count_from] in H'. destruct (find_sub old (mid ++ old ++ post')) eqn:Ef.
  - pose proof (count_from_nonneg f old (drop (n + length old) (mid ++ old ++ post'))). lia.
  - apply find_sub_None with (pre := mid) (post := post') in Ef. done.
Qed.

(** [edit_file] replaces the one occurrence of the text in the file: what comes before and
    after stays, the text does not occur again but for overlaps with the one replaced, and the file is below the root, no
    secret and in no [.git]; without links on the way nothing else changes. *)
Theorem edit_exact args fs sb msg fs' : edit_file to_lowercase args fs sb = Ok (msg, fs') ->
  exists old new target pre post,
    value_get args (lit "old_string") = Some (VString old) /\ value_get args (lit "new_string") = Some (VString new) /\
    sb_root sb `prefix_of` target /\ is_secret_file (name_of target) = false /\ lit ".git" ∉ target /\
    read fs target = Some (pre ++ old ++ post) /\
    (forall pre' post', pre ++ old ++ post = pre' ++ old ++ post' ->
       pre' = pre \/ (length pre < length pre' < length pre + length old)%nat) /\
    (link_free fs target -> fs' = <[target := NFile (pre ++ new ++ post)]> fs).
Proof.
  unfold edit_file. intros H. ok_inv H. case_hyp H; [done|]. case_hyp H; [done|]. ok_inv H. injection H as <- <-.
  bool_prop. apply arg_str_Ok in E0, E1. apply ok_or_Ok in E4, E5.
  apply resolve_for_write_Ok in E2 as (Hne & Hdot & base & tail & Htgt & Hroot & Hphys & Hbase).
  apply reject_secret_write_Ok in E3 as [Hsec Hgit].
  assert (H1 : count_matches v0 v4 = 1) by (pose proof (count_matches_nonneg v0 v4); lia).
  destruct (count_matches_one _ _ H1) as (pre & post & Ev & Ef & Hocc). exists v0, v1, v2, pre, post.
  split_and!; try done; [rewrite Htgt; by apply prefix_app_r|by rewrite E4, Ev|by rewrite <- Ev|].
  intros Hfree. apply write_plain in E5 as [-> _]; [|done..]. unfold replace_first. rewrite Ef, Ev, take_app_length.
  by rewrite (app_assoc pre v0), drop_app_length' by (by rewrite length_app).
Qed.

End Spec.

(** ** Walking *)

(** A file below [dir], by the names on the way: none hidden or ignored, no link. *)
Fixpoint visible (fs : Tree) (sb : FileSandbox) (dir : Loc) (rest : list str) : Prop :=
  match rest with
  | [] => False
  | name :: rest =>
      is_hidden_or_vcs (from_utf8_lossy name) = false /\
      match rest with
      | [] => is_ignored sb (dir ++ [name]) false = false /\ exists c, lookup_node fs (dir ++ [name]) = Some (NFile c)
      | _ => is_ignored sb (dir ++ [name]) true = false /\ lookup_node fs (dir ++ [name]) = Some NDir /\
             visible fs sb (dir ++ [name]) rest
      end
  end.

Lemma children_spec fs dir x : x ∈ children fs dir <-> is_Some (fs !! (dir ++ [x])).
Proof.
  unfold children. rewrite list_elem_of_omap. split.
  - intros ([k n] & Hk & Hx). apply elem_of_map_to_list in Hk. cbn in Hx.
    destruct (rev k) as [|y r] eqn:E; [done|]. case_bool_decide as Hd; [|done]. injection Hx as ->.
    assert (k = dir ++ [x]) as <- by (by rewrite <- (rev_involutive k), E, <- Hd). by eexists.
  - intros [n Hn]. exists (dir ++ [x], n). split; [by apply elem_of_map_to_list|]. cbn.
    rewrite rev_app_distr. cbn. by rewrite bool_decide_eq_true_2 by apply rev_involutive.
Qed.

(** What a walk below [dir] adds to the files found before it. *)
Definition walk_adds (fs : Tree) (sb : FileSandbox) (dir : Loc) (levels : nat) (ok : list str -> Prop) (out out' : list Loc) : Prop :=
  exists more, out' = out ++ more /\
    (forall f, f ∈ more -> exists rest, f = dir ++ rest /\ ok rest /\ visible fs sb dir rest /\ (length rest <= levels)%nat) /\
    (zlength out' < MAX_WALK_FILES -> forall rest, ok rest -> visible fs sb dir rest -> (length rest <= levels)%nat -> dir ++ rest ∈ more).

Lemma zlength_app {A} (l k : list A) : zlength (l ++ k) = zlength l + zlength k.
Proof. unfold zlength. rewrite length_app. lia. Qed.

Lemma zlength_nonneg {A} (l : list A) : 0 <= zlength l.
Proof. unfold zlength. lia. Qed.

Definition starts_in (names : list str) (rest : list str) : Prop := exists x r, rest = x :: r /\ x ∈ names.

(** An entry that adds nothing. *)
Lemma walk_adds_skip fs sb dir levels name names out out' :
  (forall r, ~ visible fs sb dir (name :: r)) ->
  walk_adds fs sb dir levels (starts_in names) out out' -> walk_adds fs sb dir levels (starts_in (name :: names)) out out'.
Proof.
  intros Hno (more & -> & Hs & Hc). exists more. split_and!; [done|..].
  - intros f Hf. destruct (Hs f Hf) as (rest & -> & (x & r & -> & Hx) & Hv & Hl).
    exists (x :: r). split_and!; [done| |done..]. exists x, r. split; [done|by right].
  - intros Hlt rest (x & r & -> & Hx) Hv Hl. apply elem_of_cons in Hx as [->|Hx]; [by destruct (Hno r)|].
    apply Hc; [done|by exists x, r|done..].
Qed.

(** An entry that adds [here], then the others. *)
Lemma walk_adds_cons fs sb dir levels name names here out out' :
  (forall f, f ∈ here -> exists r, f = dir ++ name :: r /\ visible fs sb dir (name :: r) /\ (length (name :: r) <= levels)%nat) ->
  (zlength (out ++ here) < MAX_WALK_FILES -> forall r, visible fs sb dir (name :: r) -> (length (name :: r) <= levels)%nat -> dir ++ name :: r ∈ here) ->
  walk_adds fs sb dir levels (starts_in names) (out ++ here) out' -> walk_adds fs sb dir levels (starts_in (name :: names)) out out'.
Proof.
  intros Hhs Hhc (more & -> & Hs & Hc). exists (here ++ more). rewrite app_assoc. split_and!; [done|..].
  - intros f [Hf|Hf]%elem_of_app.
    + destruct (Hhs f Hf) as (r & -> & Hv & Hl). exists (name :: r). split_and!; [done| |done..]. exists name, r. split; [done|by left].
    + destruct (Hs f Hf) as (rest & -> & (x & r & -> & Hx) & Hv & Hl).
      exists (x :: r). split_and!; [done| |done..]. exists x, r. split; [done|by right].
  - intros Hlt rest (x & r & -> & Hx) Hv Hl. apply elem_of_app. apply elem_of_cons in Hx as [->|Hx].
    + left. apply Hhc; [|done..]. rewrite zlength_app in Hlt. pose proof (zlength_nonneg more). lia.
    + right. apply Hc; [done|by exists x, r|done..].
Qed.

Lemma walk_adds_nil fs sb dir levels ok out :
  (zlength out < MAX_WALK_FILES -> forall rest, ok rest -> visible fs sb dir rest -> (length rest <= levels)%nat -> False) ->
  walk_adds fs sb dir levels ok out out.
Proof. intros H. exists []. rewrite app_nil_r. split_and!; [done|set_solver|]. intros Hl rest H1 H2 H3. by destruct (H Hl rest H1 H2 H3). Qed.

Lemma walk_entries_spec fs sb dir below levels :
  (forall p out, is_dir_node (lookup_node fs p) = true -> walk_adds fs sb p levels (fun _ => True) out (below p out)) ->
  forall names out, walk_adds fs sb dir (S levels) (starts_in names) out (walk_entries fs sb dir below names out).
Proof.
  intros Hbelow. induction names as [|name names IH]; intros out; cbn [walk_entries].
  { apply walk_adds_nil. intros _ rest (x & r & -> & Hx). set_solver. }
  destruct (is_hidden_or_vcs _) eqn:Eh; [apply walk_adds_skip; [intros r [Hv _]; congruence|apply IH]|].
  destruct (lookup_node fs (dir ++ [name])) as [[c| |t]|] eqn:En.
  - destruct (is_ignored sb _ false) eqn:Ei.
    { apply walk_adds_skip; [|apply IH]. intros [|y r] [_ Hv]; [destruct Hv; congruence|destruct Hv as (_ & Hv & _); congruence]. }
    apply (walk_adds_cons _ _ _ _ _ _ [dir ++ [name]]).
    + intros f ->%list_elem_of_singleton. exists []. cbn. split_and!; [done..|by eexists|lia].
    + intros _ [|y r] [_ Hv] _; [set_solver|destruct Hv as (_ & Hv & _); congruence].
    + destruct (_ <=? _) eqn:El; [|apply IH]. apply walk_adds_nil. intros Hlt. lia.
  - destruct (is_ignored sb _ true) eqn:Ei.
    { apply walk_adds_skip; [|apply IH]. intros [|y r] [_ Hv]; [destruct Hv as (_ & c & Hv); congruence|destruct Hv; congruence]. }
    destruct (Hbelow (dir ++ [name]) out) as (here & Eb & Hs & Hc); [by rewrite En|]. rewrite Eb in *.
    apply (walk_adds_cons _ _ _ _ _ _ here); [..|apply IH].
    + intros f Hf. destruct (Hs f Hf) as (rest & -> & _ & Hv & Hl). exists rest. rewrite <- app_assoc.
      split_and!; [done| |cbn; lia]. destruct rest; [done|]. by split.
    + intros Hlt r Hv Hl. rewrite (cons_middle name), app_assoc. destruct r as [|y r].
      { destruct Hv as (_ & _ & c & Hv). congruence. }
      destruct Hv as (_ & _ & _ & Hv). apply Hc; [done..|]. cbn [length] in *. lia.
  - apply walk_adds_skip; [|apply IH]. intros [|y r] [_ Hv]; [destruct Hv as (_ & c & Hv)|destruct Hv as (_ & Hv & _)]; congruence.
  - apply walk_adds_skip; [|apply IH]. intros [|y r] [_ Hv]; [destruct Hv as (_ & c & Hv)|destruct Hv as (_ & Hv & _)]; congruence.
Qed.

Section Order.
Variable order : list str -> list str.

Lemma collect_files_spec fs sb : forall levels dir out,
  (forall l, order l ≡ₚ l) -> wf_tree fs -> is_dir_node (lookup_node fs dir) = true ->
  walk_adds fs sb dir levels (fun _ => True) out (collect_files order levels fs sb dir out).
Proof.
  intros levels dir out Hord (Hroot & Hpar & Hdots). revert dir out.
  induction levels as [|n IH]; intros dir out Hdir; cbn [collect_files].
  { apply walk_adds_nil. intros _ [|x r] _ Hv Hl; [done|cbn in Hl; lia]. }
  destruct (_ <=? _) eqn:El; [apply walk_adds_nil; intros Hlt; lia|]. rewrite Hdir.
  destruct (walk_entries_spec fs sb dir (collect_files order n fs sb) n (fun p o H => IH p o H) (order (children fs dir)) out)
    as (more & -> & Hs & Hc).
  exists more. split_and!; [done|..].
  - intros f Hf. destruct (Hs f Hf) as (rest & -> & _ & Hv & Hl). by exists rest.
  - intros Hlt rest _ Hv Hl. apply Hc; [done| |done..]. destruct rest as [|x r]; [done|]. exists x, r. split; [done|].
    rewrite Hord, children_spec. destruct r as [|y r]; [destruct Hv as (_ & _ & c & Hv)|destruct Hv as (_ & _ & Hv & _)];
      rewrite lookup_node_ne in Hv by (by destruct dir); by eexists.
Qed.

(** The walk that [grep] and [glob] search lists files below the directory that are
    reached through directories only, with no name that begins with a dot and none that is
    ignored; if it lists fewer than its limit, these are all of them down to 21 levels, in
    whatever order directories are listed. *)
Theorem collected_exact fs sb dir : (forall l, order l ≡ₚ l) -> wf_tree fs -> is_dir_node (lookup_node fs dir) = true ->
  let files := collect_all order fs sb dir in
  (forall f, f ∈ files -> exists rest, f = dir ++ rest /\ visible fs sb dir rest) /\
  (zlength files < MAX_WALK_FILES ->
   forall rest, visible fs sb dir rest -> (length rest <= S MAX_WALK_DEPTH)%nat -> dir ++ rest ∈ files).
Proof.
  intros Hord Hwf Hdir files. destruct (collect_files_spec fs sb (S MAX_WALK_DEPTH) dir [] Hord Hwf Hdir) as (more & E & Hs & Hc).
  change (collect_files order (S MAX_WALK_DEPTH) fs sb dir []) with files in E, Hc. rewrite app_nil_l in E. clearbody files. subst more. split.
  - intros f Hf. destruct (Hs f Hf) as (rest & -> & _ & Hv & _). by exists rest.
  - intros Hlt rest Hv Hl. by apply Hc.
Qed.

End Order.

(** ** Searching *)

Section Search.
Variable to_lowercase : str -> str.
Variable order : list str -> list str.
Variable regex_new : str -> option (str -> bool).

Notation is_secret_file := (is_secret_file to_lowercase).

Lemma grep_lines_grow re rel m : forall ls idx out, exists more, (grep_lines re rel m idx ls out).1 = out ++ more.
Proof.
  induction ls as [|l ls IH]; intros idx out; cbn [grep_lines]; [exists []; by rewrite app_nil_r|].
  destruct (re l); [|apply IH]. destruct (_ <=? _); [cbn; rewrite <- app_assoc; by eexists|].
  destruct (IH (idx + 1) (out ++ [rel ++ lit ":" ++ show_unsigned (idx + 1) ++ lit ":" ++ truncate_chars l MAX_GREP_LINE_LEN])) as [more ->].
  rewrite <- app_assoc. by eexists.
Qed.

Lemma join_head sep x l : exists r, join sep (x :: l) = x ++ r.
Proof. destruct l; [exists []; by rewrite app_nil_r|by eexists]. Qed.

(** [grep] given the path of a file shows its matching lines although [read_file] refuses
    the same path, when the file lies in [.git] or is ignored. *)
Theorem grep_shows_refused fs sb path pattern re loc bytes l ls :
  sb_resolve fs sb path = Ok loc -> lookup_node fs loc = Some (NFile bytes) ->
  lit ".git" ∈ loc \/ is_ignored sb loc false = true ->
  is_secret_file (name_of loc) = false -> is_binary bytes = false ->
  regex_new pattern = Some re -> lines (from_utf8_lossy bytes) = l :: ls -> re l = true ->
  read fs loc = Some bytes ->
  (exists e, read_file to_lowercase (VObject [(lit "path", VString path)]) fs sb = Err e) /\
  exists more, grep to_lowercase regex_new order (VObject [(lit "pattern", VString pattern); (lit "path", VString path)]) fs sb
    = Ok (shown_path sb loc ++ lit ":1:" ++ truncate_chars l MAX_GREP_LINE_LEN ++ more).
Proof.
  intros Hres Hn Hno Hsec Hbin Hre Hl Hm Hread. split.
  - unfold read_file, arg_str, value_get. cbn [as_object mbind option_bind get].
    rewrite bool_decide_eq_true_2 by done. cbn [as_str mbind option_bind ok_or obind]. rewrite Hres. cbn [obind].
    unfold has_git_component. destruct Hno as [Hg| ->].
    + rewrite bool_decide_eq_true_2 by done. by eexists.
    + rewrite Hsec. destruct (bool_decide _); by eexists.
  - unfold grep, arg_str, value_get. cbn [as_object mbind option_bind get].
    rewrite bool_decide_eq_true_2 by done. cbn [as_str mbind option_bind ok_or obind]. rewrite Hre. cbn [ok_or obind].
    rewrite bool_decide_eq_false_2, bool_decide_eq_true_2 by done. cbn [as_str mbind option_bind default from_option id].
    rewrite Hres. cbn [obind]. rewrite Hn. rewrite bool_decide_eq_false_2, bool_decide_eq_false_2 by done.
    cbn [mbind option_bind grep_files default from_option id]. rewrite Hsec, Hread, Hbin, Hl. cbn [grep_lines]. rewrite Hm.
    set (row := shown_path sb loc ++ lit ":" ++ show_unsigned (0 + 1) ++ lit ":" ++ truncate_chars l MAX_GREP_LINE_LEN).
    assert (Hrow : forall r, row ++ r = shown_path sb loc ++ lit ":1:" ++ truncate_chars l MAX_GREP_LINE_LEN ++ r).
    { intros r. unfold row. rewrite <- !app_assoc. done. }
    cbn [app]. destruct (_ <=? _).
    + cbn [app]. destruct (join_head [x0a] row [lit "…[" ++ show_unsigned (Z.min MAX_GREP_MATCHES MAX_GREP_MATCHES) ++ lit " 매치 상한 도달]"]) as [r ->].
      exists r. by rewrite Hrow.
    + match goal with |- context [grep_lines ?a ?b ?c ?d ?e ?f] => pose proof (grep_lines_grow a b c e d f) as [more Eg]; destruct (grep_lines a b c d e f) as [out []] end;
        cbn in Eg; subst out; destruct (join_head [x0a] row more) as [r Er]; rewrite Er; exists r; by rewrite Hrow.
Qed.

End Search.

(** ** Ignore rules *)

Lemma join_merge sep (a s : str) l : l <> [] -> join sep ((a ++ sep ++ s) :: l) = join sep (a :: s :: l).
Proof. destruct l as [|y l]; [done|]. intros _. cbn [join]. by rewrite <- !app_assoc. Qed.

(** When the last rule that matches a path is a negated one the path is not ignored, also
    when a directory above it is: [acc] holds the directories passed so far. *)
Theorem negation_reincludes rules segs seg is_dir : forall acc ignored,
  match_one rules (join (lit "/") (option_list acc ++ segs ++ [seg])) seg is_dir = Some false ->
  ignored_loop rules acc (segs ++ [seg]) is_dir ignored = false.
Proof.
  induction segs as [|s segs IH]; intros acc ignored H; cbn [app ignored_loop] in *.
  - assert (match_one rules (match acc with Some a => a ++ lit "/" ++ seg | None => seg end) seg is_dir = Some false) as H' by (by destruct acc).
    by rewrite H'.
  - destruct (segs ++ [seg]) as [|y r] eqn:E; [by destruct segs|]. rewrite <- E in *. apply IH.
    destruct acc as [a|]; [|done]. pose proof (join_merge (lit "/") a s (segs ++ [seg]) ltac:(by destruct segs)) as Em.
    change (match_one rules (join (lit "/") ((a ++ lit "/" ++ s) :: segs ++ [seg])) seg is_dir = Some false). by rewrite Em.
Qed.

(** ** A concrete tree *)

Definition demo_tree : Tree :=
  list_to_map
    [([lit "w"], NDir); ([lit "w"; lit "a.txt"], NFile (lit "hi"));
     ([lit "w"; lit ".git"], NDir); ([lit "w"; lit ".git"; lit "config"], NFile (lit "token = 1"));
     ([lit "w"; lit "out"], NLink (lit "/etc/cron.d/job")); ([lit "w"; lit "notes"], NLink (lit "/home/keys"));
     ([lit "etc"], NDir); ([lit "etc"; lit "cron.d"], NDir);
     ([lit "home"], NDir); ([lit "home"; lit "keys"], NFile (lit "ssh-rsa"))].

Definition demo_sandbox : FileSandbox := {| sb_root := [lit "w"]; gitignore := [] |}.

Definition demo_write (path content : str) : Value :=
  VObject [(lit "path", VString path); (lit "content", VString content)].

Definition literal_regex (pattern : str) : option (str -> bool) := Some (contains pattern).

Lemma demo_physical : physical demo_tree [lit "w"].
Proof. intros [|x q] r E Hr; [done|]. destruct q; [|done]. destruct r; done. Qed.

(** Checks that decide what the theorems ask of a tree. *)
Definition link_free_b (fs : Tree) (p : Loc) : bool :=
  forallb (fun n => match fs !! take n p with Some (NLink _) => false | _ => true end) (seq 0 (S (length p))).

Lemma link_free_b_spec fs p : link_free_b fs p = true -> link_free fs p.
Proof.
  unfold link_free_b. rewrite forallb_forall. intros H q r t -> Hq.
  specialize (H (length q)). rewrite take_app_length, Hq in H. discriminate H. apply in_seq. rewrite length_app. lia.
Qed.

#[global] Instance node_eq_dec : EqDecision node.
Proof. solve_decision. Defined.

(** Compare trees without writing them out. *)
Lemma result_is (m : outcome (str * Tree) ToolError) msg fs :
  match m with Ok (msg', fs') => bool_decide (msg' = msg) && bool_decide (fs' = fs) | _ => false end = true -> m = Ok (msg, fs).
Proof. destruct m as [[msg' fs']| |]; [|done..]. intros [->%bool_decide_eq_true_1 ->%bool_decide_eq_true_1]%andb_true_iff. done. Qed.

Ltac evaluate := vm_compute; first [reflexivity | exact I].

Lemma read_confined_witness :
  read_file id (VObject [(lit "path", VString (lit "a.txt"))]) demo_tree demo_sandbox = Ok (lit "hi") /\
  exists loc, sb_root demo_sandbox `prefix_of` loc /\ lookup_node demo_tree loc = Some (NFile (lit "hi")) /\ lit ".git" ∉ loc.
Proof.
  split; [evaluate|]. destruct (read_confined id (VObject [(lit "path", VString (lit "a.txt"))]) demo_tree demo_sandbox (lit "hi"))
    as (path & loc & bytes & [= <-] & Hj & Hp & _ & Hn & Hg & _); [evaluate|].
  exists loc. split; [exact Hp|]. split; [|exact Hg].
  assert (canonicalize_text demo_tree (dir_form (lit "a.txt")) (joined demo_sandbox (lit "a.txt")) = Some [lit "w"; lit "a.txt"]) as E by evaluate.
  rewrite E in Hj. injection Hj as <-. evaluate.
Defined.

Definition demo_after : Tree := <[[lit "w"; lit "d"; lit "b.txt"] := NFile (lit "new")]> (<[[lit "w"; lit "d"] := NDir]> demo_tree).

Lemma write_confined_witness :
  write_file id (demo_write (lit "d/b.txt") (lit "new")) demo_tree demo_sandbox = Ok (lit "wrote d/b.txt (3 bytes)", demo_after) /\
  exists content target,
    value_get (demo_write (lit "d/b.txt") (lit "new")) (lit "content") = Some (VString content) /\
    sb_root demo_sandbox `prefix_of` target /\
    is_secret_file id (name_of target) = false /\ lit ".git" ∉ target /\
    (link_free demo_tree target ->
     read demo_after target = Some content /\
     forall p, demo_after !! p <> demo_tree !! p -> sb_root demo_sandbox `prefix_of` p /\
       (p = target \/ (p `prefix_of` target /\ demo_tree !! p = None /\ demo_after !! p = Some NDir))).
Proof.
  split; [|apply (write_confined id (demo_write (lit "d/b.txt") (lit "new")) demo_tree demo_sandbox (lit "wrote d/b.txt (3 bytes)"))];
    apply result_is; evaluate.
Defined.

Lemma write_follows_link_witness :
  (exists msg, write_file id (demo_write (lit "out") (lit "job")) demo_tree demo_sandbox
     = Ok (msg, <[[lit "etc"; lit "cron.d"; lit "job"] := NFile (lit "job")]> demo_tree)) /\
  (exists msg, write_file id (demo_write (lit "notes/") (lit "key")) demo_tree demo_sandbox
     = Ok (msg, <[[lit "home"; lit "keys"] := NFile (lit "key")]> demo_tree)).
Proof.
  split; [apply (write_follows_link id demo_tree demo_sandbox (lit "out") (lit "out"))
         |apply (write_follows_link id demo_tree demo_sandbox (lit "notes/") (lit "notes"))];
    try exact demo_physical; try by_decide; evaluate.
Defined.

Lemma edit_exact_witness :
  edit_file id (VObject [(lit "path", VString (lit "a.txt")); (lit "old_string", VString (lit "i")); (lit "new_string", VString (lit "o"))])
    demo_tree demo_sandbox = Ok (lit "edited a.txt", <[[lit "w"; lit "a.txt"] := NFile (lit "ho")]> demo_tree) /\
  exists old new target pre post,
    value_get (VObject [(lit "path", VString (lit "a.txt")); (lit "old_string", VString (lit "i")); (lit "new_string", VString (lit "o"))])
      (lit "old_string") = Some (VString old) /\
    value_get (VObject [(lit "path", VString (lit "a.txt")); (lit "old_string", VString (lit "i")); (lit "new_string", VString (lit "o"))])
      (lit "new_string") = Some (VString new) /\
    sb_root demo_sandbox `prefix_of` target /\ is_secret_file id (name_of target) = false /\ lit ".git" ∉ target /\
    read demo_tree target = Some (pre ++ old ++ post) /\
    (forall pre' post', pre ++ old ++ post = pre' ++ old ++ post' ->
       pre' = pre \/ (length pre < length pre' < length pre + length old)%nat) /\
    (link_free demo_tree target ->
     <[[lit "w"; lit "a.txt"] := NFile (lit "ho")]> demo_tree = <[target := NFile (pre ++ new ++ post)]> demo_tree).
Proof. split; [|apply (edit_exact id _ demo_tree demo_sandbox (lit "edited a.txt"))]; apply result_is; evaluate. Defined.

Lemma collected_exact_witness :
  collect_all id demo_tree demo_sandbox [lit "w"] = [[lit "w"; lit "a.txt"]] /\
  let files := collect_all id demo_tree demo_sandbox [lit "w"] in
  (forall f, f ∈ files -> exists rest, f = [lit "w"] ++ rest /\ visible demo_tree demo_sandbox [lit "w"] rest) /\
  (zlength files < MAX_WALK_FILES ->
   forall rest, visible demo_tree demo_sandbox [lit "w"] rest -> (length rest <= S MAX_WALK_DEPTH)%nat -> [lit "w"] ++ rest ∈ files).
Proof.
  split; [evaluate|]. apply collected_exact; [done|apply wf_tree_b_spec; evaluate|evaluate].
Defined.

Lemma grep_shows_refused_witness :
  (exists e, read_file id (VObject [(lit "path", VString (lit ".git/config"))]) demo_tree demo_sandbox = Err e) /\
  exists more, grep id literal_regex id (VObject [(lit "pattern", VString (lit "token")); (lit "path", VString (lit ".git/config"))])
      demo_tree demo_sandbox
    = Ok (shown_path demo_sandbox [lit "w"; lit ".git"; lit "config"] ++ lit ":1:" ++
          truncate_chars (lit "token = 1") MAX_GREP_LINE_LEN ++ more).
Proof.
  apply (grep_shows_refused id id literal_regex demo_tree demo_sandbox (lit ".git/config") (lit "token") (contains (lit "token"))
           [lit "w"; lit ".git"; lit "config"] (lit "token = 1") (lit "token = 1") []);
    try evaluate. left. by_decide.
Defined.

(** The rules [build/] and [!*.txt]; a pattern with a star matches by its end. *)
Definition demo_rules : Gitignore :=
  omap (parse_line (fun re => Some (fun s => if contains (lit "txt") re then ends_with (lit ".txt") s else bool_decide (s = lit "build"))))
    [lit "build/"; lit "!*.txt"].

Lemma negation_reincludes_witness :
  is_ignored_rel demo_rules (lit "build") true = true /\
  ignored_loop demo_rules None ([lit "build"] ++ [lit "a.txt"]) false false = false.
Proof. split; [evaluate|]. apply (negation_reincludes demo_rules [lit "build"] (lit "a.txt") false None false). evaluate. Defined.
