(* ===== verification/Chat.v ===== *)
(** * Messages of the chat agent and their wire forms

    [aic-client/src/agent/types.rs]: the messages of a conversation, the JSON of the two
    families of providers they are sent as, and the answers read back. The text form of JSON
    is a library: [json_parse] and [json_print] are parameters. A message is polymorphic in
    the content of a tool's answer; on the wire that is text. *)

From S2P Require Import Prelude RustStr JsonValue.

Record ToolCall := { id : str; name : str; arguments : str }.

Inductive ChatMessage {R : Type} :=
| System (content : str)
| User (content : str)
| Assistant (content : option str) (tool_calls : list ToolCall)
| Tool (call_id : str) (content : R).
Arguments ChatMessage : clear implicits.

Record TokenUsage := { input_tokens : Z; output_tokens : Z }.

Record ToolSpec := { spec_name : str; description : str; parameters : Value }.

Inductive ChatResponse := Text (text : str) | ToolCalls (calls : list ToolCall).

#[export] Instance ToolCall_eq_dec : EqDecision ToolCall.
Proof. solve_decision. Defined.

(** ** JSON *)

(** [json["key"]] and [json[0]] give null where there is nothing. *)
Definition at_key (v : Value) (key : str) : Value := default VNull (value_get v key).
Definition at_index (v : Value) (i : nat) : Value := default VNull (l ← as_array v; l !! i).

Definition role_content (role : str) (content : Value) : Value :=
  VObject [(lit "role", VString role); (lit "content", content)].

(** ** OpenAI *)

Definition call_to_openai (c : ToolCall) : Value :=
  VObject [(lit "id", VString (id c)); (lit "type", VString (lit "function"));
           (lit "function", VObject [(lit "name", VString (name c)); (lit "arguments", VString (arguments c))])].

Definition to_openai_json (m : ChatMessage str) : Value :=
  match m with
  | System c => role_content (lit "system") (VString c)
  | User c => role_content (lit "user") (VString c)
  | Assistant content tool_calls =>
      VObject ([(lit "role", VString (lit "assistant"));
                (lit "content", match content with Some c => VString c | None => VNull end)]
               ++ match tool_calls with [] => [] | _ => [(lit "tool_calls", VArray (call_to_openai <$> tool_calls))] end)
  | Tool call_id content =>
      VObject [(lit "role", VString (lit "tool")); (lit "tool_call_id", VString call_id); (lit "content", VString content)]
  end.

Definition spec_to_openai (s : ToolSpec) : Value :=
  VObject [(lit "type", VString (lit "function"));
           (lit "function", VObject [(lit "name", VString (spec_name s)); (lit "description", VString (description s));
                                     (lit "parameters", parameters s)])].

Definition spec_to_anthropic (s : ToolSpec) : Value :=
  VObject [(lit "name", VString (spec_name s)); (lit "description", VString (description s)); (lit "input_schema", parameters s)].

Definition parse_usage (input output : str) (json : Value) : option TokenUsage :=
  u ← value_get json (lit "usage");
  Some {| input_tokens := default 0 (value_get u input ≫= as_u64); output_tokens := default 0 (value_get u output ≫= as_u64) |}.

Definition parse_openai_usage : Value -> option TokenUsage := parse_usage (lit "prompt_tokens") (lit "completion_tokens").
Definition parse_anthropic_usage : Value -> option TokenUsage := parse_usage (lit "input_tokens") (lit "output_tokens").

Definition parse_tool_call (v : Value) : option ToolCall :=
  func ← value_get v (lit "function");
  name ← get_str func (lit "name");
  Some {| id := default [] (get_str v (lit "id")); name := name; arguments := default (lit "{}") (get_str func (lit "arguments")) |}.

Definition parse_openai_response (json : Value) : option ChatResponse :=
  choices ← value_get json (lit "choices");
  first ← as_array choices ≫= head;
  message ← value_get first (lit "message");
  let calls := match value_get message (lit "tool_calls") ≫= as_array with
               | Some arr => omap parse_tool_call arr
               | None => []
               end in
  match calls with
  | [] => Some (Text (default [] (get_str message (lit "content"))))
  | _ => Some (ToolCalls calls)
  end.

(** ** Anthropic *)

Section Anthropic.
Variable json_parse : str -> option Value.
Variable json_print : Value -> str.

Definition text_block (c : str) : Value := VObject [(lit "type", VString (lit "text")); (lit "text", VString c)].

Definition tool_result_block (call_id content : str) : Value :=
  VObject [(lit "type", VString (lit "tool_result")); (lit "tool_use_id", VString call_id); (lit "content", VString content)].

Definition tool_use_block (c : ToolCall) : Value :=
  VObject [(lit "type", VString (lit "tool_use")); (lit "id", VString (id c)); (lit "name", VString (name c));
           (lit "input", default (VObject []) (json_parse (arguments c)))].

Definition flush_user (pending out : list Value) : list Value :=
  match pending with [] => out | _ => out ++ [role_content (lit "user") (VArray pending)] end.

Definition assistant_blocks (content : option str) (tool_calls : list ToolCall) : list Value :=
  match content with Some ((_ :: _) as c) => [text_block c] | _ => [] end ++ (tool_use_block <$> tool_calls).

(** The loop: the system texts, the messages so far, and the blocks of the next user message. *)
Fixpoint anthropic_loop (messages : list (ChatMessage str)) (system : list str) (out pending : list Value)
    : list str * list Value :=
  match messages with
  | [] => (system, flush_user pending out)
  | System c :: rest => anthropic_loop rest (system ++ [c]) out pending
  | User c :: rest => anthropic_loop rest system out (pending ++ [text_block c])
  | Tool call_id content :: rest => anthropic_loop rest system out (pending ++ [tool_result_block call_id content])
  | Assistant content tool_calls :: rest =>
      anthropic_loop rest system
        (flush_user pending out ++ [role_content (lit "assistant") (VArray (assistant_blocks content tool_calls))]) []
  end.

Definition to_anthropic_request (messages : list (ChatMessage str)) : option str * list Value :=
  let '(system, out) := anthropic_loop messages [] [] [] in
  (match system with [] => None | _ => Some (join [x0a; x0a] system) end, out).

(** The loop over the blocks of an answer; nothing when a call has no name. *)
Fixpoint response_blocks (blocks : list Value) (calls : list ToolCall) (text : str) : option (list ToolCall * str) :=
  match blocks with
  | [] => Some (calls, text)
  | block :: blocks =>
      let kind := get_str block (lit "type") in
      if bool_decide (kind = Some (lit "tool_use")) then
        name ← get_str block (lit "name");
        let input := default (VObject []) (value_get block (lit "input")) in
        response_blocks blocks
          (calls ++ [{| id := default [] (get_str block (lit "id")); name := name; arguments := json_print input |}]) text
      else if bool_decide (kind = Some (lit "text")) then
        response_blocks blocks calls (text ++ default [] (get_str block (lit "text")))
      else response_blocks blocks calls text
  end.

Definition parse_anthropic_response (json : Value) : option ChatResponse :=
  content ← value_get json (lit "content") ≫= as_array;
  '(calls, text) ← response_blocks content [] [];
  match calls with [] => Some (Text text) | _ => Some (ToolCalls calls) end.
End Anthropic.

(** ** Saved conversations *)

(** [history_to_session_values] of session.rs *)
Definition session_value {R} (m : ChatMessage R) : option Value :=
  match m with
  | User c => Some (role_content (lit "user") (VString c))
  | Assistant (Some c) _ => Some (role_content (lit "assistant") (VString c))
  | _ => None
  end.

Definition history_to_session_values {R} (history : list (ChatMessage R)) : list Value := omap session_value history.

Definition restored_message {R} (v : Value) : option (ChatMessage R) :=
  role ← get_str v (lit "role");
  content ← get_str v (lit "content");
  if bool_decide (role = lit "user") then Some (User content)
  else if bool_decide (role = lit "assistant") then Some (Assistant (Some content) [])
  else None.

Definition session_values_to_messages {R} (values : list Value) : list (ChatMessage R) := omap restored_message values.
