(* ===== verification/Sse.v ===== *)
(** * Streamed answers of model providers

    [aic-client/src/streaming.rs]: server-sent events cut from a stream of chunks, and the
    text and tool calls put together from their fragments. The parser of JSON text is a
    parameter; the HTTP response is its chunks, one of which may be an error. *)

From S2P Require Import Prelude RustStr JsonValue Chat.

(** What a line does: reading goes on, the answer is complete, or it failed. *)
Inductive progress (S : Type) := Going (s : S) | Finished (s : S) | Failed (message : str).
Arguments Going {S} s.
Arguments Finished {S} s.
Arguments Failed {S} message.

Inductive chunk := Data (bytes : str) | Broken (message : str).

(** ** Events *)

Fixpoint find_pair (buf : str) : option nat :=
  match buf with
  | a :: ((b :: _) as rest) =>
      if bool_decide (a = b /\ (a = x0a \/ a = x0d)) then Some O else S <$> find_pair rest
  | _ => None
  end.

Definition CRLF_CRLF : str := [x0d; x0a; x0d; x0a].

(** Where an event ends, and how many bytes to drop with it. *)
Definition find_event_boundary (buf : str) : option (nat * nat) :=
  match find_sub CRLF_CRLF buf with
  | Some p => Some (p, 4%nat)
  | None => p ← find_pair buf; Some (p, 2%nat)
  end.

Definition trim_trailing_cr (line : str) : str := if bool_decide (last line = Some x0d) then removelast line else line.

Definition without_prefix (p s : str) : option str := if starts_with p s then Some (drop (length p) s) else None.

Definition strip_data_prefix (line : str) : option str :=
  match without_prefix (lit "data: ") line with Some d => Some d | None => without_prefix (lit "data:") line end.

Section Events.
Context {S : Type}.
(** What the data of a line does. *)
Variable on_data : str -> S -> progress S.

Definition on_line (line : str) (s : S) : progress S :=
  match strip_data_prefix (trim_trailing_cr line) with
  | Some ((_ :: _) as data) => on_data data s
  | _ => Going s
  end.

Fixpoint process_lines (ls : list str) (s : S) : progress S :=
  match ls with
  | [] => Going s
  | line :: ls => match on_line line s with Going s => process_lines ls s | r => r end
  end.

Definition process_event (event_bytes : str) (s : S) : progress S := process_lines (split_byte x0a event_bytes) s.

(** The inner loop: events are cut from the buffer while there is a boundary. *)
Fixpoint drain_events (fuel : nat) (buffer : str) (s : S) : progress (S * str) :=
  match fuel with
  | O => Going (s, buffer)
  | Datatypes.S fuel =>
      match find_event_boundary buffer with
      | Some (pos, advance) =>
          match process_event (take (pos + advance) buffer) s with
          | Going s => drain_events fuel (drop (pos + advance) buffer) s
          | Finished s => Finished (s, drop (pos + advance) buffer)
          | Failed m => Failed m
          end
      | None => Going (s, buffer)
      end
  end.

(** The outer loop, and what is left in the buffer at the end. *)
Fixpoint accumulate (chunks : list chunk) (buffer : str) (s : S) : outcome S str :=
  match chunks with
  | [] =>
      match buffer with
      | [] => Ok s
      | _ => match process_event buffer s with Going s | Finished s => Ok s | Failed m => Err m end
      end
  | Broken m :: _ => Err m
  | Data bytes :: chunks =>
      let buffer := buffer ++ bytes in
      match drain_events (length buffer) buffer s with
      | Going (s, buffer) => accumulate chunks buffer s
      | Finished (s, _) => Ok s
      | Failed m => Err m
      end
  end.
End Events.

(** ** Answers *)

(** The texts passed on as they come, and the whole text. *)
Record Shown := { shown : list str; full : str }.

Definition show (t : str) (s : Shown) : Shown := {| shown := shown s ++ [t]; full := full s ++ t |}.

Record ToolCallBuilder := { b_id : str; b_name : str; b_args : str }.

Definition empty_builder : ToolCallBuilder := {| b_id := []; b_name := []; b_args := [] |}.

Definition finish_response (text : str) (tools : list ToolCallBuilder) : ChatResponse :=
  let calls := (fun t => {| id := b_id t; name := b_name t;
                            arguments := if bool_decide (trim (b_args t) = []) then lit "{}" else b_args t |})
               <$> filter (fun t => b_name t <> []) tools in
  match calls with [] => Text text | _ => ToolCalls calls end.

Section Providers.
(** [serde_json::from_slice] *)
Variable json_parse : str -> option Value.

Definition message_or (v : Value) (default_text : str) : str := default default_text (get_str v (lit "message")).

(** The handlers of the plain text streams. *)
Definition openai_text (data : str) (s : Shown) : progress Shown :=
  if bool_decide (data = lit "[DONE]") then Finished s
  else match json_parse data with
       | None => Going s
       | Some json =>
           match value_get json (lit "error") with
           | Some err => Failed (lit "API error: " ++ message_or err (lit "unknown"))
           | None => match as_str (at_key (at_key (at_index (at_key json (lit "choices")) 0) (lit "delta")) (lit "content")) with
                     | Some content => Going (show content s)
                     | None => Going s
                     end
           end
       end.

Definition anthropic_error (json : Value) : str :=
  lit "Anthropic API error: " ++ message_or (at_key json (lit "error")) (lit "unknown anthropic error").

Definition anthropic_text (data : str) (s : Shown) : progress Shown :=
  match json_parse data with
  | None => Going s
  | Some json =>
      let event_type := default [] (get_str json (lit "type")) in
      if bool_decide (event_type = lit "content_block_delta") then
        match get_str (at_key json (lit "delta")) (lit "text") with Some text => Going (show text s) | None => Going s end
      else if bool_decide (event_type = lit "message_stop") then Finished s
      else if bool_decide (event_type = lit "error") then Failed (anthropic_error json)
      else Going s
  end.

Definition stream_openai_compat (chunks : list chunk) : outcome Shown str := accumulate openai_text chunks [] {| shown := []; full := [] |}.
Definition stream_anthropic (chunks : list chunk) : outcome Shown str := accumulate anthropic_text chunks [] {| shown := []; full := [] |}.

Definition set_if_some (v : option str) (old : str) : str := match v with Some ((_ :: _) as t) => t | _ => old end.

(** One entry of [delta.tool_calls]. *)
Definition tool_delta (tools : list ToolCallBuilder) (tc : Value) : list ToolCallBuilder :=
  let idx := Z.to_nat (default 0 (value_get tc (lit "index") ≫= as_u64)) in
  let tools := tools ++ replicate (S idx - length tools) empty_builder in
  alter (fun b => {| b_id := set_if_some (get_str tc (lit "id")) (b_id b);
                     b_name := set_if_some (get_str (at_key tc (lit "function")) (lit "name")) (b_name b);
                     b_args := b_args b ++ default [] (get_str (at_key tc (lit "function")) (lit "arguments")) |}) idx tools.

Definition show_some (t : option str) (s : Shown) : Shown := match t with Some ((_ :: _) as t) => show t s | _ => s end.

Definition openai_delta (data : str) (st : Shown * list ToolCallBuilder) : progress (Shown * list ToolCallBuilder) :=
  let '(s, tools) := st in
  if bool_decide (data = lit "[DONE]") then Finished st
  else match json_parse data with
       | None => Going st
       | Some json =>
           match value_get json (lit "error") with
           | Some err => Failed (lit "API error: " ++ message_or err (lit "unknown"))
           | None =>
               let delta := at_key (at_index (at_key json (lit "choices")) 0) (lit "delta") in
               let s := show_some (get_str delta (lit "content")) s in
               let tools := match as_array (at_key delta (lit "tool_calls")) with
                            | Some tcs => foldl tool_delta tools tcs
                            | None => tools
                            end in
               Going (s, tools)
           end
       end.

Definition accumulate_openai_stream (chunks : list chunk) : outcome (list str * ChatResponse) str :=
  match accumulate openai_delta chunks [] ({| shown := []; full := [] |}, []) with
  | Ok (s, tools) => Ok (shown s, finish_response (full s) tools)
  | Err m => Err m
  | Panic => Panic
  end.

(** [BTreeMap<usize, ToolCallBuilder>], in order of its keys. *)
Abbreviation Blocks := (list (Z * ToolCallBuilder)).

Fixpoint modify_block (idx : Z) (f : ToolCallBuilder -> ToolCallBuilder) (m : Blocks) : Blocks :=
  match m with
  | [] => [(idx, f empty_builder)]
  | (k, b) :: rest =>
      if idx <? k then (idx, f empty_builder) :: m
      else if idx =? k then (k, f b) :: rest
      else (k, b) :: modify_block idx f rest
  end.

Definition anthropic_delta (data : str) (st : Shown * Blocks) : progress (Shown * Blocks) :=
  let '(s, tools) := st in
  match json_parse data with
  | None => Going st
  | Some json =>
      let event_type := default [] (get_str json (lit "type")) in
      let idx := default 0 (value_get json (lit "index") ≫= as_u64) in
      if bool_decide (event_type = lit "content_block_start") then
        let cb := at_key json (lit "content_block") in
        if bool_decide (get_str cb (lit "type") = Some (lit "tool_use")) then
          Going (s, modify_block idx (fun _ => {| b_id := default [] (get_str cb (lit "id"));
                                                  b_name := default [] (get_str cb (lit "name")); b_args := [] |}) tools)
        else Going st
      else if bool_decide (event_type = lit "content_block_delta") then
        let d := at_key json (lit "delta") in
        let kind := default [] (get_str d (lit "type")) in
        if bool_decide (kind = lit "text_delta") then Going (show_some (get_str d (lit "text")) s, tools)
        else if bool_decide (kind = lit "input_json_delta") then
          match get_str d (lit "partial_json") with
          | Some p => Going (s, modify_block idx (fun b => {| b_id := b_id b; b_name := b_name b; b_args := b_args b ++ p |}) tools)
          | None => Going st
          end
        else Going st
      else if bool_decide (event_type = lit "message_stop") then Finished st
      else if bool_decide (event_type = lit "error") then Failed (anthropic_error json)
      else Going st
  end.

Definition accumulate_anthropic_stream (chunks : list chunk) : outcome (list str * ChatResponse) str :=
  match accumulate anthropic_delta chunks [] ({| shown := []; full := [] |}, []) with
  | Ok (s, tools) => Ok (shown s, finish_response (full s) tools.*2)
  | Err m => Err m
  | Panic => Panic
  end.
End Providers.
