(* ===== verification/SseSpec.v ===== *)
(** * Streamed answers do not depend on how they are cut

    [chunks_irrelevant]: what a stream of chunks gives is what its lines give, wherever the
    chunks end. [streamed_calls_exact]: tool calls are put together from fragments in any
    interleaving. [index_allocates]: the index of a fragment decides how much is allocated. *)

From S2P Require Import Prelude RustStr JsonValue Chat Sse.

(** ** Lines *)

(** The empty string, or whole lines. *)
Definition whole_lines (s : str) : Prop := s = [] \/ exists p, s = p ++ [x0a].

Definition no_double_cr (s : str) : Prop := forall a b, s <> a ++ x0d :: x0d :: b.

Section Lines.
Context {S : Type}.
Variable on_data : str -> S -> progress S.

Lemma process_lines_app ls ls' s :
  process_lines on_data (ls ++ ls') s =
  match process_lines on_data ls s with Going s => process_lines on_data ls' s | r => r end.
Proof. revert s. induction ls as [|l ls IH]; intros s; simpl; [done|]. by destruct (on_line on_data l s). Qed.

Lemma process_blank s : process_lines on_data [[]] s = Going s.
Proof. done. Qed.

Lemma process_event_whole s0 rest s :
  whole_lines s0 ->
  process_event on_data (s0 ++ rest) s =
  match process_event on_data s0 s with Going s => process_event on_data rest s | r => r end.
Proof.
  unfold process_event. intros [->|[p ->]]; [done|]. rewrite <- app_assoc. cbn [app].
  rewrite !split_byte_join, !process_lines_app. destruct (process_lines on_data (split_byte x0a p) s); done.
Qed.

Lemma whole_lines_app a b : whole_lines a -> whole_lines b -> whole_lines (a ++ b).
Proof.
  intros Ha [->|[p ->]]; [by rewrite app_nil_r|]. right. exists (a ++ p). by rewrite app_assoc.
Qed.

Lemma find_pair_Some buf p : find_pair buf = Some p -> exists a b c, buf = a ++ c :: c :: b /\ length a = p /\ (c = x0a \/ c = x0d).
Proof.
  revert p. induction buf as [|x buf IH]; intros p; cbn [find_pair]; [done|]. destruct buf as [|y buf]; [done|].
  case_bool_decide as E.
  - intros [= <-]. destruct E as [<- Hx]. by exists [], buf, x.
  - destruct (find_pair (y :: buf)) as [q|]; [|done]. intros [= <-]. destruct (IH q eq_refl) as (a & b & c & E2 & <- & Hc).
    exists (x :: a), b, c. by rewrite E2.
Qed.

Lemma boundary_whole buf p n :
  no_double_cr buf -> find_event_boundary buf = Some (p, n) -> whole_lines (take (p + n) buf).
Proof.
  unfold find_event_boundary. intros Hcr H. right. destruct (find_sub CRLF_CRLF buf) as [q|] eqn:E.
  - injection H as -> <-. apply find_sub_Some in E as (a & b & -> & <-). exists (a ++ [x0d; x0a; x0d]).
    rewrite take_app_add'; [|done]. change (CRLF_CRLF ++ b) with ([x0d; x0a; x0d] ++ x0a :: b). simpl.
    rewrite take_0. by rewrite <- app_assoc.
  - destruct (find_pair buf) as [q|] eqn:E2; [|done]. injection H as -> <-.
    apply find_pair_Some in E2 as (a & b & c & -> & <- & [->| ->]); [|by destruct (Hcr a b)].
    exists (a ++ [x0a]). rewrite take_app_add'; [|done]. simpl. rewrite take_0. by rewrite <- app_assoc.
Qed.

Lemma no_double_cr_parts a b : no_double_cr (a ++ b) -> no_double_cr a /\ no_double_cr b.
Proof.
  intros H. split; intros x y ->.
  - apply (H x (y ++ b)). by rewrite <- app_assoc.
  - apply (H (a ++ x) y). by rewrite <- app_assoc.
Qed.

(** Cutting events off the buffer does not change what the buffer and what follows it do. *)
Lemma drain_events_exact fuel buffer rest s :
  no_double_cr buffer ->
  process_event on_data (buffer ++ rest) s =
  match drain_events on_data fuel buffer s with
  | Going (s, buffer) => process_event on_data (buffer ++ rest) s
  | Finished (s, _) => Finished s
  | Failed m => Failed m
  end.
Proof.
  revert buffer s. induction fuel as [|fuel IH]; intros buffer s Hcr; cbn [drain_events]; [done|].
  destruct (find_event_boundary buffer) as [[p n]|] eqn:E; [|done]. pose proof (boundary_whole _ _ _ Hcr E) as Hw.
  rewrite <- (take_drop (p + n) buffer) at 1. rewrite <- app_assoc, process_event_whole by done.
  destruct (process_event on_data (take (p + n) buffer) s) as [s'| |]; [|done..]. apply IH.
  apply (no_double_cr_parts (take (p + n) buffer)). by rewrite take_drop.
Qed.

Lemma drain_events_rest fuel buffer s s' buffer' :
  drain_events on_data fuel buffer s = Going (s', buffer') -> exists a, buffer = a ++ buffer'.
Proof.
  revert buffer s. induction fuel as [|fuel IH]; intros buffer s; cbn [drain_events]; [intros [= _ <-]; by exists []|].
  destruct (find_event_boundary buffer) as [[p n]|]; [|intros [= _ <-]; by exists []].
  destruct (process_event on_data (take (p + n) buffer) s); [|done..]. intros (a & E)%IH.
  exists (take (p + n) buffer ++ a). by rewrite <- app_assoc, <- E, take_drop.
Qed.

Definition settled (r : progress S) : outcome S str :=
  match r with Going s | Finished s => Ok s | Failed m => Err m end.

Lemma accumulate_exact bs buffer s :
  no_double_cr (buffer ++ concat bs) ->
  accumulate on_data (Data <$> bs) buffer s = settled (process_event on_data (buffer ++ concat bs) s).
Proof.
  revert buffer s. induction bs as [|b bs IH]; intros buffer s Hcr.
  - cbn [fmap list_fmap concat accumulate]. rewrite app_nil_r. destruct buffer; [done|]. by destruct (process_event on_data _ s).
  - change (concat (b :: bs)) with (b ++ concat bs) in *. rewrite app_assoc in *. cbn [fmap list_fmap accumulate].
    destruct (no_double_cr_parts _ _ Hcr) as [Hcr1 _].
    rewrite (drain_events_exact (length (buffer ++ b)) (buffer ++ b)) by done.
    destruct (drain_events on_data (length (buffer ++ b)) (buffer ++ b) s) as [[s' buffer']|[s' ?]|m] eqn:E; [|done..].
    apply IH. apply drain_events_rest in E as (a & E). rewrite E, <- app_assoc in Hcr. by apply no_double_cr_parts in Hcr as [_ Hcr].
Qed.
End Lines.

Lemma accumulate_whole {S} (on_data : str -> S -> progress S) bs s :
  no_double_cr (concat bs) -> accumulate on_data (Data <$> bs) [] s = accumulate on_data [Data (concat bs)] [] s.
Proof.
  intros H. rewrite accumulate_exact by done. change [Data (concat bs)] with (Data <$> [concat bs]).
  assert (concat [concat bs] = concat bs) as E by (simpl; by rewrite app_nil_r).
  rewrite accumulate_exact by (cbn [app]; by rewrite E). by rewrite E.
Qed.

(** wherever the chunks of a stream end, in the middle of a line, of a character or of an
    event, the answer is that of the whole stream in one chunk, for all four readers, as long
    as no two carriage returns follow each other. *)
Theorem chunks_irrelevant json_parse bs (Hcr : no_double_cr (concat bs)) :
  accumulate_openai_stream json_parse (Data <$> bs) = accumulate_openai_stream json_parse [Data (concat bs)] /\
  accumulate_anthropic_stream json_parse (Data <$> bs) = accumulate_anthropic_stream json_parse [Data (concat bs)] /\
  stream_openai_compat json_parse (Data <$> bs) = stream_openai_compat json_parse [Data (concat bs)] /\
  stream_anthropic json_parse (Data <$> bs) = stream_anthropic json_parse [Data (concat bs)].
Proof.
  unfold accumulate_openai_stream, accumulate_anthropic_stream, stream_openai_compat, stream_anthropic.
  by rewrite !accumulate_whole.
Qed.

(** ** Fragments of tool calls *)

Definition frag_index (tc : Value) : nat := Z.to_nat (default 0 (value_get tc (lit "index") ≫= as_u64)).
Definition frag_id (tc : Value) : option str := get_str tc (lit "id").
Definition frag_name (tc : Value) : option str := get_str (at_key tc (lit "function")) (lit "name").
Definition frag_args (tc : Value) : str := default [] (get_str (at_key tc (lit "function")) (lit "arguments")).

Definition add_fragment (b : ToolCallBuilder) (tc : Value) : ToolCallBuilder :=
  {| b_id := set_if_some (frag_id tc) (b_id b); b_name := set_if_some (frag_name tc) (b_name b); b_args := b_args b ++ frag_args tc |}.

Definition builder_at (tools : list ToolCallBuilder) (i : nat) : ToolCallBuilder := default empty_builder (tools !! i).

Lemma tool_delta_length tools tc : length (tool_delta tools tc) = Nat.max (length tools) (S (frag_index tc)).
Proof. unfold tool_delta, frag_index. rewrite length_alter, length_app, length_replicate. lia. Qed.

Lemma tool_delta_at tools tc i :
  builder_at (tool_delta tools tc) i = if decide (i = frag_index tc) then add_fragment (builder_at tools i) tc else builder_at tools i.
Proof.
  unfold builder_at, tool_delta. fold (frag_index tc). set (more := replicate _ empty_builder).
  assert (default empty_builder ((tools ++ more) !! i) = default empty_builder (tools !! i)) as E.
  { destruct (decide (i < length tools)%nat); [by rewrite lookup_app_l|]. rewrite lookup_app_r by lia.
    rewrite (lookup_ge_None_2 tools) by lia. destruct (more !! _) as [b|] eqn:Em; [|done]. unfold more in Em. by apply lookup_replicate_1 in Em as [-> _]. }
  destruct (decide (i = frag_index tc)) as [->|Hi].
  - rewrite list_lookup_alter_eq, <- E. clear E. destruct ((tools ++ more) !! frag_index tc) eqn:Et; [done|].
    apply lookup_ge_None_1 in Et. unfold more in Et. rewrite length_app, length_replicate in Et. lia.
  - by rewrite list_lookup_alter_ne.
Qed.

Definition fragments (i : nat) (tcs : list Value) : list Value := filter (fun tc => frag_index tc = i) tcs.

Lemma foldl_tool_delta_at tcs tools i :
  builder_at (foldl tool_delta tools tcs) i = foldl add_fragment (builder_at tools i) (fragments i tcs).
Proof.
  revert tools. induction tcs as [|tc tcs IH]; intros tools; [done|]. cbn [foldl]. rewrite IH, tool_delta_at.
  unfold fragments. rewrite filter_cons. by repeat destruct decide; subst.
Qed.

Lemma foldl_tool_delta_length tcs tools n :
  (length tools <= n)%nat -> Forall (fun tc => (frag_index tc < n)%nat) tcs -> (length (foldl tool_delta tools tcs) <= n)%nat.
Proof.
  intros Hl H. revert tools Hl. induction H as [|tc tcs Ht _ IH]; intros tools Hl; [done|]. cbn [foldl]. apply IH.
  rewrite tool_delta_length. lia.
Qed.

Lemma foldl_tool_delta_ge tcs tools : (length tools <= length (foldl tool_delta tools tcs))%nat.
Proof.
  revert tools. induction tcs as [|tc tcs IH]; intros tools; [done|]. cbn [foldl]. specialize (IH (tool_delta tools tc)).
  rewrite tool_delta_length in IH. lia.
Qed.

Lemma foldl_tool_delta_covers tcs tools tc : tc ∈ tcs -> (frag_index tc < length (foldl tool_delta tools tcs))%nat.
Proof.
  revert tools. induction tcs as [|x tcs IH]; intros tools; [by intros ?%not_elem_of_nil|].
  intros [->|H]%elem_of_cons; cbn [foldl]; [|by apply IH].
  pose proof (foldl_tool_delta_ge tcs (tool_delta tools x)). rewrite tool_delta_length in *. lia.
Qed.

Lemma add_unnamed fs b :
  Forall (fun f => frag_id f = None /\ frag_name f = None) fs ->
  foldl add_fragment b fs = {| b_id := b_id b; b_name := b_name b; b_args := b_args b ++ mjoin (frag_args <$> fs) |}.
Proof.
  intros H. revert b. induction H as [|f fs [H1 H2] _ IH]; intros b; cbn [foldl].
  - destruct b. simpl. by rewrite app_nil_r.
  - rewrite IH. unfold add_fragment. rewrite H1, H2. cbn [b_id b_name b_args set_if_some fmap list_fmap].
    change (mjoin (frag_args f :: ?l)) with (frag_args f ++ mjoin l). by rewrite <- app_assoc.
Qed.

(** The fragments of a call: the first names it, and together they carry its arguments. *)
Definition call_in (tcs : list Value) (i : nat) (c : ToolCall) : Prop :=
  name c <> [] /\ trim (arguments c) <> [] /\
  exists f rest, fragments i tcs = f :: rest /\ default [] (frag_id f) = id c /\ frag_name f = Some (name c) /\
    Forall (fun f => frag_id f = None /\ frag_name f = None) rest /\ mjoin (frag_args <$> f :: rest) = arguments c.

Lemma call_built tcs i c : call_in tcs i c -> builder_at (foldl tool_delta [] tcs) i = {| b_id := id c; b_name := name c; b_args := arguments c |}.
Proof.
  intros (Hn & _ & f & rest & Hf & Hid & Hname & Hrest & Hargs). rewrite foldl_tool_delta_at, Hf. cbn [foldl].
  rewrite add_unnamed by done. unfold add_fragment, builder_at. rewrite lookup_nil. cbn [default b_id b_name b_args empty_builder].
  rewrite <- Hargs, Hname, <- Hid. cbn [fmap list_fmap]. change (mjoin (frag_args f :: ?l)) with (frag_args f ++ mjoin l).
  f_equal; [by destruct (frag_id f) as [[|]|]|]. simpl. by destruct (name c).
Qed.

Lemma finish_calls text tcs calls :
  Forall (fun tc => (frag_index tc < length calls)%nat) tcs -> (forall i c, calls !! i = Some c -> call_in tcs i c) -> calls <> [] ->
  finish_response text (foldl tool_delta [] tcs) = ToolCalls calls.
Proof.
  intros Hidx Hcalls Hne. set (tools := foldl tool_delta [] tcs).
  assert (length tools = length calls) as Hlen.
  { apply Nat.le_antisymm; [by apply foldl_tool_delta_length; [simpl; lia|]|].
    destruct (last calls) as [c|] eqn:El; [|by apply last_None in El]. rewrite last_lookup in El.
    destruct (Hcalls _ _ El) as (_ & _ & f & rest & Hf & _).
    assert (f ∈ fragments (pred (length calls)) tcs) as Hin by (rewrite Hf; constructor).
    apply list_elem_of_filter in Hin as [Hi Hin]. pose proof (foldl_tool_delta_covers tcs [] f Hin). fold tools in H. lia. }
  assert (tools = (fun c => {| b_id := id c; b_name := name c; b_args := arguments c |}) <$> calls) as ->.
  { apply list_eq. intros i. rewrite list_lookup_fmap. destruct (calls !! i) as [c|] eqn:Ec.
    - pose proof (call_built _ _ _ (Hcalls i c Ec)) as Hb. fold tools in Hb. unfold builder_at in Hb.
      destruct (tools !! i) eqn:Et; [by simpl in *; rewrite Hb|].
      apply lookup_ge_None_1 in Et. apply lookup_lt_Some in Ec. lia.
    - apply lookup_ge_None_1 in Ec. by rewrite lookup_ge_None_2 by lia. }
  unfold finish_response. assert (Forall (fun c => name c <> [] /\ trim (arguments c) <> []) calls) as Hgood.
  { apply Forall_lookup. intros i c Hc. by destruct (Hcalls i c Hc) as (? & ? & _). }
  clear - Hgood Hne. set (r := fmap _ (filter _ _)). assert (r = calls) as ->; [|by destruct calls]. unfold r.
  induction Hgood as [|c calls [H1 H2] Hgood IH]; [done|]. cbn [fmap list_fmap]. rewrite filter_cons_True by done. cbn [fmap list_fmap b_id b_name b_args].
  rewrite bool_decide_eq_false_2 by done. f_equal; [by destruct c|]. destruct calls; [done|]. by apply IH.
Qed.

(** ** Whole streams *)

Definition sse_event (data : str) : str := lit "data: " ++ data ++ [x0a; x0a].
Definition sse_text (datas : list str) : str := mjoin (sse_event <$> datas).

Definition one_line (data : str) : Prop := data <> [] /\ x0a ∉ data /\ x0d ∉ data.

Lemma trim_cr_free line : x0d ∉ line -> trim_trailing_cr line = line.
Proof.
  intros H. unfold trim_trailing_cr. rewrite bool_decide_eq_false_2; [done|]. intros E. apply H.
  apply last_Some in E as [l ->]. set_solver.
Qed.

Lemma on_data_line {S} (on_data : str -> S -> progress S) data s :
  one_line data -> on_line on_data (lit "data: " ++ data) s = on_data data s.
Proof.
  intros (Hne & _ & Hcr). unfold on_line. rewrite trim_cr_free by (rewrite elem_of_app; intros [H|H]; [by vm_compute in H; set_solver|done]).
  change (strip_data_prefix (lit "data: " ++ data)) with (Some data). by destruct data.
Qed.

Lemma process_sse {S} (on_data : str -> S -> progress S) data rest s :
  one_line data ->
  process_event on_data (sse_event data ++ rest) s =
  match on_data data s with Going s => process_event on_data rest s | r => r end.
Proof.
  intros H. unfold process_event, sse_event. rewrite <- !app_assoc. cbn [app].
  rewrite app_assoc, split_byte_join. destruct H as (Hne & Hlf & Hcr).
  rewrite (split_byte_none x0a (lit "data: " ++ data)).
  - change (x0a :: rest) with ([] ++ x0a :: rest). rewrite split_byte_join. cbn [app process_lines split_byte].
    rewrite on_data_line by done. by destruct (on_data data s).
  - rewrite elem_of_app. intros [E|E]; [by vm_compute in E; set_solver|done].
Qed.

Definition delta_of (json : Value) : Value := at_key (at_index (at_key json (lit "choices")) 0) (lit "delta").
Definition fragments_of (json : Value) : list Value := default [] (as_array (at_key (delta_of json) (lit "tool_calls"))).
Definition texts_of (json : Value) : list str := match get_str (delta_of json) (lit "content") with Some ((_ :: _) as t) => [t] | _ => [] end.

(** The data of an event that carries a piece of the answer. *)
Definition carries (json_parse : str -> option Value) (data : str) (json : Value) : Prop :=
  one_line data /\ data <> lit "[DONE]" /\ json_parse data = Some json /\ value_get json (lit "error") = None.

Lemma openai_run json_parse ds js rest s tools :
  Forall2 (carries json_parse) ds js ->
  process_event (openai_delta json_parse) (sse_text ds ++ rest) (s, tools) =
  process_event (openai_delta json_parse) rest
    ({| shown := shown s ++ mjoin (texts_of <$> js); full := full s ++ mjoin (mjoin (texts_of <$> js)) |},
     foldl tool_delta tools (mjoin (fragments_of <$> js))).
Proof.
  intros H. revert s tools. induction H as [|d j ds js (Hl & Hd & Hp & He) _ IH]; intros s tools.
  - destruct s. simpl. by rewrite !app_nil_r.
  - change (sse_text (d :: ds)) with (sse_event d ++ sse_text ds). rewrite <- app_assoc, process_sse by done.
    unfold openai_delta at 1. rewrite bool_decide_eq_false_2, Hp, He, IH by done. f_equal.
    change (mjoin (fragments_of <$> j :: js)) with (fragments_of j ++ mjoin (fragments_of <$> js)).
    change (mjoin (texts_of <$> j :: js)) with (texts_of j ++ mjoin (texts_of <$> js)). f_equal.
    + assert (show_some (get_str (delta_of j) (lit "content")) s = {| shown := shown s ++ texts_of j; full := full s ++ mjoin (texts_of j) |}) as E.
      { unfold show_some, texts_of. destruct s. by destruct (get_str (delta_of j) (lit "content")) as [[|]|]; simpl; rewrite ?app_nil_r. }
      unfold delta_of in E. rewrite E. cbn [shown full]. assert (forall a b : list str, mjoin (a ++ b) = mjoin a ++ mjoin b) as Hj by (intros a b; apply join_app).
      by rewrite Hj, !app_assoc.
    + rewrite foldl_app. fold (delta_of j). f_equal. unfold fragments_of.
      by destruct (as_array (at_key (delta_of j) (lit "tool_calls"))).
Qed.

Lemma sse_no_double_cr ds : Forall one_line ds -> no_double_cr (sse_text ds).
Proof.
  intros H a b E. assert (x0d ∉ sse_text ds) as Hn; [|apply Hn; rewrite E; set_solver]. clear E.
  induction H as [|d ds (_ & _ & Hd) _ IH]; [apply not_elem_of_nil|]. change (sse_text (d :: ds)) with (sse_event d ++ sse_text ds).
  unfold sse_event. rewrite !elem_of_app. intros [[E|[E|E]]|E]; [by vm_compute in E; set_solver|done|by set_solver|done].
Qed.

(** C9: tool calls streamed in pieces are put together exactly. Whatever the chunks, if the
    events name each call in the first fragment of its index and spread its arguments over any
    number of later ones, interleaved in any way with those of other calls and with text, the
    answer is the calls in the order of their indices and every non-empty text is shown. *)
Theorem streamed_calls_exact json_parse bs ds js calls
    (Hds : Forall2 (carries json_parse) ds js)
    (Hbs : concat bs = sse_text (ds ++ [lit "[DONE]"]))
    (Hidx : Forall (fun tc => (frag_index tc < length calls)%nat) (mjoin (fragments_of <$> js)))
    (Hcalls : forall i c, calls !! i = Some c -> call_in (mjoin (fragments_of <$> js)) i c)
    (Hne : calls <> []) :
  accumulate_openai_stream json_parse (Data <$> bs) = Ok (mjoin (texts_of <$> js), ToolCalls calls).
Proof.
  assert (one_line (lit "[DONE]")) as Hdone by (vm_compute; split; [done|]; set_solver).
  unfold accumulate_openai_stream. rewrite accumulate_exact; cbn [app]; rewrite Hbs.
  - unfold sse_text. rewrite fmap_app, join_app. change (mjoin (sse_event <$> ds)) with (sse_text ds).
    rewrite (openai_run _ ds js) by done. cbn [fmap list_fmap mjoin list_join]. rewrite process_sse by done.
    unfold openai_delta. rewrite bool_decide_eq_true_2 by done. cbn [settled shown full app]. by rewrite (finish_calls _ _ calls).
  - apply sse_no_double_cr, Forall_app. split; [|by constructor]. apply Forall_lookup. intros i d Hd.
    destruct (Forall2_lookup_l _ _ _ _ _ Hds Hd) as (j & _ & Hl & _). done.
Qed.

(** the index of a fragment alone decides how many calls are kept in memory: after an
    event whose fragment has index [i], there are more than [i] of them. *)
Theorem index_allocates tools tc : (frag_index tc < length (tool_delta tools tc))%nat.
Proof. rewrite tool_delta_length. lia. Qed.

(** ** Witnesses *)

Section Demo.
#[local] Notation obj := VObject.

Definition fragment (index : Z) (names : list (str * Value)) (call : list (str * Value)) : Value :=
  obj ((lit "index", VNumber (Some index)) :: names ++ [(lit "function", obj call)]).

Definition event_json (delta : list (str * Value)) : Value :=
  obj [(lit "choices", VArray [obj [(lit "delta", obj delta)]])].

Definition demo_json1 : Value := event_json
  [(lit "content", VString (lit "hi"));
   (lit "tool_calls", VArray [fragment 0 [(lit "id", VString (lit "c1"))]
                                [(lit "name", VString (lit "grep")); (lit "arguments", VString (lit "[1,"))]])].
Definition demo_json2 : Value := event_json
  [(lit "tool_calls", VArray [fragment 1 [(lit "id", VString (lit "c2"))]
                                [(lit "name", VString (lit "glob")); (lit "arguments", VString (lit "[]"))];
                              fragment 0 [] [(lit "arguments", VString (lit "2]"))]])].

Definition demo_parse (data : str) : option Value :=
  if bool_decide (data = lit "1") then Some demo_json1 else if bool_decide (data = lit "2") then Some demo_json2 else None.

Definition demo_stream : str := sse_text ([lit "1"; lit "2"] ++ [lit "[DONE]"]).
End Demo.

Lemma streamed_calls_exact_witness :
  accumulate_openai_stream demo_parse (Data <$> [take 11 demo_stream; drop 11 demo_stream])
  = Ok ([lit "hi"], ToolCalls [{| id := lit "c1"; name := lit "grep"; arguments := lit "[1,2]" |};
                               {| id := lit "c2"; name := lit "glob"; arguments := lit "[]" |}]).
Proof.
  apply (streamed_calls_exact demo_parse _ [lit "1"; lit "2"] [demo_json1; demo_json2]).
  - repeat constructor; try (intros H; vm_compute in H; set_solver); vm_compute; done.
  - vm_compute. done.
  - repeat constructor.
  - intros [|[|i]] c E; [injection E as <-..|done].
    + split; [done|]. split; [done|]. eexists _, _. repeat split; vm_compute; repeat constructor.
    + split; [done|]. split; [done|]. eexists _, _. repeat split; vm_compute; repeat constructor.
  - done.
Defined.

Lemma chunks_irrelevant_witness :
  accumulate_openai_stream demo_parse (Data <$> [take 11 demo_stream; drop 11 demo_stream])
  = accumulate_openai_stream demo_parse [Data (concat [take 11 demo_stream; drop 11 demo_stream])].
Proof.
  apply (chunks_irrelevant demo_parse). intros a b E. assert (x0d ∈ concat [take 11 demo_stream; drop 11 demo_stream]) as H by (rewrite E; set_solver).
  by vm_compute in H; set_solver.
Defined.
