(* ===== verification/ChatSpec.v ===== *)
(** * Conversations and their wire forms

    [saved_texts]: saving and resuming keeps what was said. [anthropic_request_valid]: a
    conversation in which every call is answered becomes a request whose messages alternate
    and answer every call. [no_empty_calls]: a provider's answer never asks for no call at all. *)

From S2P Require Import Prelude RustStr JsonValue Chat Sse.

(** ** Conversations *)

(** The calls that still wait for their answers, if every answer so far came in its turn. *)
Fixpoint waiting {R} (pending : list str) (h : list (ChatMessage R)) : option (list str) :=
  match h with
  | [] => Some pending
  | Tool call_id _ :: h =>
      match pending with
      | p :: pending => if bool_decide (p = call_id) then waiting pending h else None
      | [] => None
      end
  | Assistant _ calls :: h => match pending with [] => waiting (id <$> calls) h | _ => None end
  | (System _ | User _) :: h => match pending with [] => waiting [] h | _ => None end
  end.

(** Every call is answered, in order, before anyone else speaks. *)
Definition well_formed {R} (h : list (ChatMessage R)) : Prop := waiting [] h = Some [].

Lemma waiting_app {R} (h h' : list (ChatMessage R)) pending :
  waiting pending (h ++ h') = match waiting pending h with Some p => waiting p h' | None => None end.
Proof.
  revert pending. induction h as [|m h IH]; intros pending; [done|]. cbn [app waiting].
  destruct m; destruct pending; try done; try apply IH. case_bool_decide; [apply IH|done].
Qed.

(** The text of what was said, without calls and answers. *)
Definition said {R} (m : ChatMessage R) : option (ChatMessage R) :=
  match m with
  | User c => Some (User c)
  | Assistant (Some c) _ => Some (Assistant (Some c) [])
  | _ => None
  end.

(** saving a conversation and resuming it gives back what the user and the model said, in
    order, and saving that again gives the same values. *)
Theorem saved_texts {R} (h : list (ChatMessage R)) :
  session_values_to_messages (history_to_session_values h) = omap said h /\
  history_to_session_values (session_values_to_messages (R := R) (history_to_session_values h)) = history_to_session_values h.
Proof.
  unfold session_values_to_messages, history_to_session_values.
  assert (forall c, restored_message (R := R) (role_content (lit "user") (VString c)) = Some (User c)) as E1 by done.
  assert (forall c, restored_message (R := R) (role_content (lit "assistant") (VString c)) = Some (Assistant (Some c) [])) as E2 by done.
  induction h as [|m h [IH1 IH2]]; [done|].
  destruct m as [c|c|[c|] calls|cid c]; cbn [omap list_omap session_value said]; rewrite ?E1, ?E2; try done;
    cbn [omap list_omap session_value]; by rewrite IH2, ?IH1.
Qed.

(** ** Requests of Anthropic *)

(** Who may speak next: whether an answer of the model is due, if it never spoke twice. *)
Fixpoint turns {R} (due : bool) (h : list (ChatMessage R)) : option bool :=
  match h with
  | [] => Some due
  | System _ :: h => turns due h
  | (User _ | Tool _ _) :: h => turns true h
  | Assistant _ _ :: h => if due then turns false h else None
  end.

Lemma turns_app {R} (h h' : list (ChatMessage R)) due :
  turns due (h ++ h') = match turns due h with Some d => turns d h' | None => None end.
Proof.
  revert due. induction h as [|m h IH]; intros due; [done|]. cbn [app turns]. destruct m; try apply IH. by destruct due.
Qed.

Definition role (j : Value) : option str := get_str j (lit "role").
Definition blocks (j : Value) : list Value := default [] (value_get j (lit "content") ≫= as_array).

Definition block_id (kind key : str) (b : Value) : option str :=
  if bool_decide (get_str b (lit "type") = Some kind) then get_str b key else None.
Definition uses (j : Value) : list str := omap (block_id (lit "tool_use") (lit "id")) (blocks j).
Definition results (bs : list Value) : list str := omap (block_id (lit "tool_result") (lit "tool_use_id")) bs.

(** The messages of a request: users and assistant in turns, and every user message answers
    exactly the calls of the assistant before it. *)
Fixpoint valid_request (asked : list str) (user_next : bool) (out : list Value) : Prop :=
  match out with
  | [] => asked = []
  | j :: out =>
      if user_next then role j = Some (lit "user") /\ results (blocks j) = asked /\ valid_request [] false out
      else role j = Some (lit "assistant") /\ valid_request (uses j) true out
  end.

Section Anthropic.
Variable json_parse : str -> option Value.

(** What the loop still adds to the messages. *)
Fixpoint anthropic_rest (messages : list (ChatMessage str)) (pending : list Value) : list Value :=
  match messages with
  | [] => flush_user pending []
  | System _ :: rest => anthropic_rest rest pending
  | User c :: rest => anthropic_rest rest (pending ++ [text_block c])
  | Tool call_id content :: rest => anthropic_rest rest (pending ++ [tool_result_block call_id content])
  | Assistant content tool_calls :: rest =>
      flush_user pending [] ++ [role_content (lit "assistant") (VArray (assistant_blocks json_parse content tool_calls))]
      ++ anthropic_rest rest []
  end.

Lemma flush_user_app pending out : flush_user pending out = out ++ flush_user pending [].
Proof. unfold flush_user. destruct pending; [by rewrite app_nil_r|done]. Qed.

Lemma anthropic_loop_rest messages system out pending :
  (anthropic_loop json_parse messages system out pending).2 = out ++ anthropic_rest messages pending.
Proof.
  revert system out pending. induction messages as [|m messages IH]; intros system out pending; cbn [anthropic_loop anthropic_rest].
  - apply flush_user_app.
  - destruct m; rewrite IH; try done. rewrite flush_user_app, <- !app_assoc. done.
Qed.

Lemma results_app a b : results (a ++ b) = results a ++ results b.
Proof. apply omap_app. Qed.

Lemma text_no_result c : results [text_block c] = [].
Proof. done. Qed.

Lemma result_of_block cid c : results [tool_result_block cid c] = [cid].
Proof. done. Qed.

Lemma uses_assistant content calls :
  uses (role_content (lit "assistant") (VArray (assistant_blocks json_parse content calls))) = id <$> calls.
Proof.
  unfold uses. change (blocks _) with (assistant_blocks json_parse content calls). unfold assistant_blocks. rewrite omap_app.
  assert (omap (block_id (lit "tool_use") (lit "id")) (match content with Some ((_ :: _) as c) => [text_block c] | _ => [] end) = []) as ->
    by (by destruct content as [[|]|]).
  cbn [app]. induction calls as [|c calls IH]; [done|]. cbn [fmap list_fmap omap list_omap].
  change (block_id (lit "tool_use") (lit "id") (tool_use_block json_parse c)) with (Some (id c)). cbn. by f_equal.
Qed.

Lemma anthropic_rest_valid messages : forall pending due asked,
  waiting asked messages = Some [] -> (exists d, turns due messages = Some d) -> (due = true -> pending <> []) ->
  valid_request (results pending ++ asked) true (anthropic_rest messages pending).
Proof.
  induction messages as [|m messages IH]; intros pending due asked Hw [d Ht] Hp; cbn [anthropic_rest].
  - cbn in Hw. injection Hw as ->. rewrite app_nil_r. unfold flush_user. by destruct pending.
  - destruct m as [c|c|content calls|cid c]; cbn [waiting turns] in *.
    + destruct asked; [|done]. apply (IH _ due); [done|by exists d|done].
    + destruct asked; [|done]. specialize (IH (pending ++ [text_block c]) true []). rewrite results_app, text_no_result, !app_nil_r in IH.
      rewrite app_nil_r. apply IH; [done|by exists d|intros _ E; by apply app_eq_nil in E as [_ ?]].
    + destruct asked; [|done]. destruct due; [|done]. specialize (Hp eq_refl). rewrite app_nil_r. unfold flush_user.
      destruct pending as [|b pending]; [done|]. cbn [app]. split; [done|]. split; [done|]. split; [done|]. rewrite uses_assistant.
      refine (IH [] false (id <$> calls) Hw _ _); [by exists d|done].
    + destruct asked as [|p asked]; [done|]. case_bool_decide as E; [|done]. subst p.
      specialize (IH (pending ++ [tool_result_block cid c]) true asked). rewrite results_app, result_of_block, <- app_assoc in IH.
      apply IH; [done|by exists d|intros _ E; by apply app_eq_nil in E as [_ ?]].
Qed.

Lemma answered_request_valid messages :
  well_formed messages -> (exists due, turns false messages = Some due) -> valid_request [] true (to_anthropic_request json_parse messages).2.
Proof.
  intros Hw Ht. unfold to_anthropic_request. pose proof (anthropic_loop_rest messages [] [] []) as E.
  destruct (anthropic_loop json_parse messages [] [] []) as [system out]. cbn [snd] in *. rewrite E.
  by apply (anthropic_rest_valid messages [] false []).
Qed.

(** a conversation in which every call is answered in order and the model never speaks
    twice in a row becomes a valid request: the messages alternate, beginning with the user,
    and each user message holds exactly the results of the calls before it, in order. *)
Theorem anthropic_request_valid messages
    (answered : well_formed messages) (in_turns : exists due, turns false messages = Some due) :
  valid_request [] true (to_anthropic_request json_parse messages).2.
Proof.
  by apply answered_request_valid.
Qed.
End Anthropic.

(** ** Answers *)

(** an answer that asks for tools asks for at least one, whichever provider it is of and
    whether or not it was streamed. *)
Theorem no_empty_calls json json_print text builders calls :
  (parse_openai_response json = Some (ToolCalls calls) \/ parse_anthropic_response json_print json = Some (ToolCalls calls) \/
   finish_response text builders = ToolCalls calls) -> calls <> [].
Proof.
  intros [H|[H|H]] ->.
  - unfold parse_openai_response in H. destruct (value_get json (lit "choices")) as [choices|]; [|done]. cbn [mbind option_bind] in H.
    destruct (as_array choices ≫= head) as [first|]; [|done]. cbn [mbind option_bind] in H. destruct (value_get first (lit "message")) as [message|]; [|done].
    cbn [mbind option_bind] in H. destruct (value_get message (lit "tool_calls") ≫= as_array) as [arr|]; [|done]. by destruct (omap parse_tool_call arr).
  - unfold parse_anthropic_response in H. destruct (value_get json (lit "content") ≫= as_array); [|done]. cbn [mbind option_bind] in H.
    destruct (response_blocks _ _ _ _) as [[[|c cs] t]|]; done.
  - unfold finish_response in H. set (cs := fmap _ _) in H. by destruct cs.
Qed.

Definition demo_call : ToolCall := {| id := lit "c"; name := lit "grep"; arguments := lit "{}" |}.

Lemma anthropic_request_valid_witness :
  valid_request [] true (to_anthropic_request (fun _ => None) [System []; User (lit "q"); Assistant None [demo_call]; Tool (lit "c") []; User []]).2.
Proof. apply anthropic_request_valid; [done|by eexists]. Defined.

Lemma no_empty_calls_witness : [demo_call] <> [].
Proof.
  apply (no_empty_calls VNull (fun _ => []) [] [{| b_id := lit "c"; b_name := lit "grep"; b_args := lit "{}" |}]). right. right. reflexivity.
Defined.
