(* ===== verification/Redaction.v ===== *)
(** * Masking of secrets and personal data

    [aic-common/src/redaction.rs]: the text of a prompt with its secrets and personal data
    replaced by placeholders. The regular-expression engine is a parameter: it looks for a
    pattern at one place of a text and gives the length it takes. A pattern is the list of its
    items, read off the source; a text is the list of its characters. The entropy is compared
    with its limit in exact arithmetic, without the rounding of [f64]. *)

From S2P Require Import Prelude RustStr.

Record RedactionReport := { counts : list (str * nat) }.

Definition total (r : RedactionReport) : nat := sum_by snd (counts r).
Definition is_empty (r : RedactionReport) : bool := (total r =? 0)%nat.

(** ** Patterns *)

(** A class repeated between [min] and [max] times, or [\b]. *)
Inductive item := Class (p : str -> bool) (min : nat) (max : option nat) | WordBoundary.
Abbreviation Regex := (list item).

Definition ascii (p : byte -> bool) (c : str) : bool := match c with [b] => p b | _ => false end.
Definition char_is (b : byte) : str -> bool := ascii (fun x => bool_decide (x = b)).
Definition lower (b : byte) : bool := byte_in 97 122 b.
Definition upper (b : byte) : bool := byte_in 65 90 b.
Definition alnum (b : byte) : bool := lower b || upper b || is_ascii_digit b.
Definition alnum_or (extra : list byte) : str -> bool := ascii (fun b => alnum b || bool_decide (b ∈ extra)).
Definition is_space (c : str) : bool :=
  match c with [a] => is_ws1 a | [a; b] => is_ws2 a b | [a; b; d] => is_ws3 a b d | _ => false end.
(** [[^\s...]] *)
Definition not_space_or (excluded : list byte) (c : str) : bool := negb (is_space c || ascii (fun b => bool_decide (b ∈ excluded)) c).

Definition once (p : str -> bool) : item := Class p 1 (Some 1%nat).
Definition optional (p : str -> bool) : item := Class p 0 (Some 1%nat).
Definition many (p : str -> bool) : item := Class p 1 None.
Definition times (n : nat) (p : str -> bool) : item := Class p n (Some n).
Definition literal (s : str) : Regex := (fun b => once (char_is b)) <$> s.
(** [(?i)] *)
Definition literal_any_case (s : str) : Regex := (fun b => once (ascii (fun x => bool_decide (ascii_lower x = b)))) <$> s.

Definition DASH_UNDERSCORE : list byte := [x2d; x5f].

Definition anthropic_key : Regex := literal (lit "sk-ant-") ++ [Class (alnum_or DASH_UNDERSCORE) 32 None].
Definition openai_key : Regex := literal (lit "sk-") ++ [Class (alnum_or DASH_UNDERSCORE) 32 None].
Definition aws_key : Regex := literal (lit "AKIA") ++ [times 16 (ascii (fun b => is_ascii_digit b || upper b))].
Definition github_token : Regex :=
  literal (lit "gh") ++ [once (ascii (fun b => bool_decide (b ∈ lit "pousr")))] ++ literal (lit "_")
  ++ [Class (alnum_or [x5f]) 36 None].
Definition jwt_token : Regex :=
  literal (lit "eyJ") ++ [many (alnum_or DASH_UNDERSCORE)] ++ literal (lit ".") ++ [many (alnum_or DASH_UNDERSCORE)]
  ++ literal (lit ".") ++ [many (alnum_or DASH_UNDERSCORE)].
Definition conn_string : Regex :=
  [once (ascii (fun b => lower b || upper b)); Class (alnum_or (lit "+.-")) 0 None] ++ literal (lit "://")
  ++ [many (not_space_or (lit ":/@"))] ++ literal (lit ":") ++ [many (not_space_or (lit ":/@"))] ++ literal (lit "@")
  ++ [many (not_space_or (lit "/"))].
Definition bearer_token : Regex := literal_any_case (lit "bearer") ++ [many is_space; Class (alnum_or (lit "._~+/=-")) 16 None].
Definition email : Regex :=
  [many (alnum_or (lit "._%+-"))] ++ literal (lit "@") ++ [many (alnum_or (lit ".-"))] ++ literal (lit ".")
  ++ [Class (ascii (fun b => lower b || upper b)) 2 None].

Section Engine.
(** [\d] and [\w], which are Unicode classes. *)
Variable is_digit : str -> bool.
Variable is_word : str -> bool.
(** The length of the match of a pattern at a place: the character before it and the text
    from it. *)
Variable match_at : Regex -> option str -> list str -> option nat.

Definition kr_rrn : Regex :=
  [WordBoundary; times 6 is_digit; optional (char_is x2d); once (ascii (byte_in 49 52)); times 6 is_digit; WordBoundary].
Definition dash_or_space (c : str) : bool := char_is x2d c || is_space c.
Definition kr_phone : Regex :=
  [WordBoundary] ++ literal (lit "01") ++ [once (ascii (fun b => bool_decide (b ∈ lit "016789"))); optional dash_or_space;
   Class is_digit 3 (Some 4%nat); optional dash_or_space; times 4 is_digit; WordBoundary].
Definition octet : item := Class is_digit 1 (Some 3%nat).
Definition ipv4 : Regex :=
  [WordBoundary; octet; once (char_is x2e); octet; once (char_is x2e); octet; once (char_is x2e); octet; WordBoundary].

Record Pattern := { p_name : str; p_regex : Regex; is_secret : bool }.

Definition patterns : list Pattern :=
  [{| p_name := lit "anthropic_key"; p_regex := anthropic_key; is_secret := true |};
   {| p_name := lit "openai_key"; p_regex := openai_key; is_secret := true |};
   {| p_name := lit "aws_key"; p_regex := aws_key; is_secret := true |};
   {| p_name := lit "github_token"; p_regex := github_token; is_secret := true |};
   {| p_name := lit "jwt_token"; p_regex := jwt_token; is_secret := true |};
   {| p_name := lit "conn_string"; p_regex := conn_string; is_secret := false |};
   {| p_name := lit "bearer_token"; p_regex := bearer_token; is_secret := false |};
   {| p_name := lit "kr_rrn"; p_regex := kr_rrn; is_secret := false |};
   {| p_name := lit "email"; p_regex := email; is_secret := false |};
   {| p_name := lit "kr_phone"; p_regex := kr_phone; is_secret := false |};
   {| p_name := lit "ipv4"; p_regex := ipv4; is_secret := false |}].

(** ** Entropy *)

(** [shannon_entropy(s) < 3]: with [n] characters of which each different one occurs [c]
    times, the entropy is [log2 n - (sum of c * log2 c) / n]. *)
Definition occurrences (s : list str) : list nat := (fun c => length (filter (fun x => x = c) s)) <$> remove_dups s.

Definition entropy_below_min (s : list str) : bool :=
  match s with
  | [] => true
  | _ => let n := Z.of_nat (length s) in
         n ^ n <? 8 ^ n * foldr (fun c acc => Z.of_nat c ^ Z.of_nat c * acc) 1 (occurrences s)
  end.

(** ** Redaction *)

Definition placeholder (name : str) : str := lit "[REDACTED:" ++ name ++ lit "]".

(** The matches of a pattern from a place on, from left to right, replaced; with how many
    were masked. [fuel] is at least the length of the text. *)
Fixpoint replace_from (fuel : nat) (p : Pattern) (prev : option str) (s : list str) : list str * nat :=
  match fuel with
  | O => (s, O)
  | S fuel =>
      match s with
      | [] => ([], O)
      | c :: rest =>
          match match_at (p_regex p) prev s with
          | Some (S _ as n) =>
              let matched := take n s in
              let '(out, count) := replace_from fuel p (last matched) (drop n s) in
              if is_secret p && entropy_below_min matched then (matched ++ out, count)
              else (chars (placeholder (p_name p)) ++ out, S count)
          | _ => let '(out, count) := replace_from fuel p (Some c) rest in (c :: out, count)
          end
      end
  end.

Definition replace_all (p : Pattern) (s : list str) : list str * nat := replace_from (length s) p None s.

Fixpoint found_from (re : Regex) (prev : option str) (s : list str) : bool :=
  bool_decide (is_Some (match_at re prev s)) || match s with [] => false | c :: rest => found_from re (Some c) rest end.

Definition is_match (text : list str) (p : Pattern) : bool := found_from (p_regex p) None text.

(** The loop over the patterns. *)
Fixpoint mask_loop (ps : list Pattern) (current : list str) (cs : list (str * nat)) : list str * RedactionReport :=
  match ps with
  | [] => (current, {| counts := cs |})
  | p :: ps =>
      let '(current, count) := replace_all p current in
      mask_loop ps current (if (0 <? count)%nat then cs ++ [(p_name p, count)] else cs)
  end.

Definition redact_chars (text : list str) : list str * RedactionReport :=
  let hits := filter (fun p => is_match text p = true) patterns in
  match hits with
  | [] => (text, {| counts := [] |})
  | _ => mask_loop hits text []
  end.

Definition redact (text : str) : str * RedactionReport := let '(out, r) := redact_chars (chars text) in (mjoin out, r).

(** Every pattern in turn, without the filter. *)
Definition redact_legacy (text : list str) : list str * RedactionReport := mask_loop patterns text [].
End Engine.
