(* ===== verification/RedactionSpec.v ===== *)
(** * What is left after masking

    [nothing_personal_survives]: no e-mail address and no bearer token is left in a redacted
    text. [clean_text_untouched]: a text no pattern occurs in stays as it is.
    [filter_misses_uncovered]: the filter looks at the text before masking, so what masking
    uncovers stays. The engine is assumed to look for what a pattern means, [matches]. *)

From S2P Require Import Prelude RustStr Redaction.

(** ** What a pattern means *)

Section Meaning.
Variable is_digit is_word : str -> bool.

Definition boundary (prev next : option str) : bool := xorb (from_option is_word false prev) (from_option is_word false next).

Definition within (k : nat) (max : option nat) : Prop := match max with Some m => (k <= m)%nat | None => True end.

Definition before (prev : option str) (taken : list str) : option str := match last taken with Some c => Some c | None => prev end.

Fixpoint matches (re : Regex) (prev : option str) (s : list str) (n : nat) : Prop :=
  match re with
  | [] => n = O
  | WordBoundary :: re => boundary prev (head s) = true /\ matches re prev s n
  | Class p min max :: re =>
      exists k n', (min <= k <= length s)%nat /\ within k max /\ Forall (fun c => p c = true) (take k s) /\
                   n = (k + n')%nat /\ matches re (before prev (take k s)) (drop k s) n'
  end.

Definition context_free (re : Regex) : Prop := Forall (fun i => i <> WordBoundary) re.

Definition class_in (re : Regex) (p : str -> bool) : Prop := exists min max, Class p min max ∈ re.

Lemma matches_length re prev s n : matches re prev s n -> (n <= length s)%nat.
Proof.
  revert prev s n. induction re as [|[p lo hi|] re IH]; intros prev s n; cbn [matches].
  - intros ->. lia.
  - intros (k & n' & Hk & _ & _ & -> & H%IH). rewrite length_drop in H. lia.
  - intros [_ H]. by eapply IH.
Qed.

Lemma matches_app re prev prev' s t n : context_free re -> matches re prev s n -> matches re prev' (s ++ t) n.
Proof.
  intros Hc. revert prev prev' s n. induction Hc as [|[p lo hi|] re Hi _ IH]; intros prev prev' s n; cbn [matches]; [done| |done].
  intros (k & n' & Hk & Hw & Hp & -> & H). exists k, n'. rewrite take_app_le, drop_app_le, length_app by lia.
  split; [lia|]. split; [done|]. split; [done|]. split; [done|]. by eapply IH.
Qed.

Lemma matches_chars re prev s n c : matches re prev s n -> c ∈ take n s -> exists p, class_in re p /\ p c = true.
Proof.
  revert prev s n. induction re as [|[p lo hi|] re IH]; intros prev s n; cbn [matches].
  - intros -> Hc. rewrite take_0 in Hc. by apply not_elem_of_nil in Hc.
  - intros (k & n' & Hk & Hw & Hp & -> & H). rewrite <- take_take_drop, elem_of_app. intros [Hc|Hc].
    + exists p. split; [exists lo, hi; constructor|]. rewrite Forall_forall in Hp. by apply Hp.
    + destruct (IH _ _ _ H Hc) as (q & (lo' & hi' & Hq) & Hc'). exists q. split; [|done]. exists lo', hi'. by constructor.
  - intros [_ H] Hc. destruct (IH _ _ _ H Hc) as (q & (lo' & hi' & Hq) & Hc'). exists q. split; [|done]. exists lo', hi'. by constructor.
Qed.

Lemma matches_needs re prev s n p lo hi :
  matches re prev s n -> Class p lo hi ∈ re -> (1 <= lo)%nat -> exists c, c ∈ take n s /\ p c = true.
Proof.
  intros H Hin Hlo. revert prev s n H. induction re as [|i re IH]; [by apply not_elem_of_nil in Hin|]. intros prev s n.
  apply elem_of_cons in Hin as [<-|Hin]; cbn [matches].
  - intros (k & n' & Hk & Hw & Hp & -> & H). destruct k as [|k]; [lia|]. destruct s as [|c s]; [simpl in Hk; lia|].
    exists c. cbn [take firstn] in Hp. apply Forall_cons in Hp as [Hc _]. split; [|done]. simpl. constructor.
  - destruct i as [q l h|].
    + intros (k & n' & Hk & Hw & Hp & -> & H). destruct (IH Hin _ _ _ H) as (c & Hc & Hp'). exists c. split; [|done].
      rewrite <- take_take_drop, elem_of_app. by right.
    + intros [_ H]. by apply (IH Hin _ _ _ H).
Qed.
End Meaning.

(** ** What masking leaves *)

Definition inside {A} (w o : list A) : Prop := exists a b, o = a ++ w ++ b.

Definition OPEN : str := [x5b].
Definition CLOSE : str := [x5d].

(** Characters a text without placeholders may be made of. *)
Definition unmarked (w : list str) : Prop := OPEN ∉ w /\ CLOSE ∉ w.

(** [o] is [s] with parts of it replaced by [ph]; nothing that was kept begins with a hit. *)
Inductive Masked (hit : list str -> Prop) (ph : list str) : list str -> list str -> Prop :=
| masked_nil : Masked hit ph [] []
| masked_keep c s o : ~ hit (c :: s) -> Masked hit ph s o -> Masked hit ph (c :: s) (c :: o)
| masked_part m s o : Masked hit ph s o -> Masked hit ph (m ++ s) (ph ++ o).

Section Masking.
Variable hit : list str -> Prop.
Variable ph : list str.
Hypothesis ph_marked : exists body, ph = OPEN :: body ++ [CLOSE].

Lemma masked_prefix s o w b : Masked hit ph s o -> unmarked w -> o = w ++ b -> exists b', s = w ++ b'.
Proof.
  intros H Hw. revert w b Hw. induction H as [|c s o _ _ IH|m s o _ IH]; intros w b [Ho Hc] E.
  - symmetry in E. apply app_eq_nil in E as [-> _]. by exists [].
  - destruct w as [|x w]; [by exists (c :: s)|]. injection E as -> E.
    destruct (IH w b) as [b' ->]; [split; set_solver|done|]. by exists b'.
  - destruct w as [|x w]; [by exists (m ++ s)|]. destruct ph_marked as [body Hph]. rewrite Hph in E.
    injection E as Ex _. destruct Ho. subst x. constructor.
Qed.

Lemma masked_inside s o w : Masked hit ph s o -> unmarked w -> w <> [] -> inside w o ->
  inside w ph \/ (inside w s /\ exists rest, ~ hit (w ++ rest)).
Proof.
  intros H Hw Hne (a & b & E). revert a E. induction H as [|c s o Hc H IH|m s o H IH]; intros a E.
  - symmetry in E. apply app_eq_nil in E as [_ E]. by apply app_eq_nil in E as [-> _].
  - destruct a as [|x a].
    + right. destruct (masked_prefix (c :: s) (c :: o) w b) as [b' E']; [by constructor|done..|].
      split; [by exists [], b'|exists b'; by rewrite <- E'].
    + injection E as <- E. destruct (IH a E) as [?|[(a' & b' & ->) ?]]; [by left|]. right. split; [by exists (c :: a'), b'|done].
  - destruct (decide (length ph <= length a)%nat) as [Hl|Hl].
    + assert (o = drop (length ph) a ++ w ++ b) as E'.
      { apply (f_equal (drop (length ph))) in E. by rewrite drop_app_length, drop_app_le in E. }
      destruct (IH _ E') as [?|[(a' & b' & ->) ?]]; [by left|]. right. split; [|done]. exists (m ++ a'), b'. by rewrite <- app_assoc.
    + left. assert (drop (length a) ph ++ o = w ++ b) as E'.
      { apply (f_equal (drop (length a))) in E. by rewrite drop_app_le, drop_app_length in E by lia. }
      rewrite <- (take_drop (length a) ph). exists (take (length a) ph).
      assert (exists l, drop (length a) ph = l ++ [CLOSE]) as [l Hl'].
      { destruct ph_marked as [body Hph]. rewrite Hph. exists (drop (length a) (OPEN :: body)).
        change (OPEN :: body ++ [CLOSE]) with ((OPEN :: body) ++ [CLOSE]). rewrite drop_app_le; [done|].
        rewrite Hph in Hl. simpl in *. rewrite length_app in Hl. simpl in Hl. lia. }
      rewrite Hl' in *. rewrite <- app_assoc in E'. cbn [app] in E'.
      destruct (decide (length w <= length l)%nat) as [Hwl|Hwl].
      * assert (w = take (length w) l) as Ew.
        { apply (f_equal (take (length w))) in E'. by rewrite take_app_le, take_app_length in E' by done. }
        exists (drop (length w) l ++ [CLOSE]). f_equal. rewrite app_assoc. f_equal. rewrite Ew at 1. by rewrite take_drop.
      * destruct Hw as [_ Hw]. destruct Hw. apply (f_equal (fun x => x !! length l)) in E'.
        rewrite list_lookup_middle in E' by done. rewrite lookup_app_l in E' by lia. symmetry in E'. by eapply list_elem_of_lookup_2.
Qed.
End Masking.

(** ** The whole redaction *)

(** What is relied on of the engine: it finds a match where there is one, and what it finds
    is one. *)
Record EngineLaws (is_word : str -> bool) (match_at : Regex -> option str -> list str -> option nat) : Prop := {
  engine_sound : forall re prev s n, match_at re prev s = Some n -> matches is_word re prev s n;
  engine_complete : forall re prev s n, matches is_word re prev s n -> match_at re prev s <> None;
}.

Definition mark (p : Pattern) : list str := chars (placeholder (p_name p)).

Section Redact.
Variable is_word : str -> bool.
Variable match_at : Regex -> option str -> list str -> option nat.
Hypothesis engine : EngineLaws is_word match_at.

Definition takes_some (re : Regex) : Prop := exists p lo hi, Class p lo hi ∈ re /\ (1 <= lo)%nat.

Definition hit_of (p : Pattern) (s : list str) : Prop :=
  is_secret p = false /\ context_free (p_regex p) /\ takes_some (p_regex p) /\ exists n, matches is_word (p_regex p) None s n.

Lemma hit_found p prev s : hit_of p s -> exists n, match_at (p_regex p) prev s = Some (S n).
Proof.
  intros (_ & Hc & (c & lo & hi & Hin & Hlo) & n & H). destruct engine as [Hs Hco].
  destruct (match_at (p_regex p) prev s) as [[|k]|] eqn:E; [|by exists k|].
  - apply Hs in E. destruct (matches_needs is_word _ _ _ _ c lo hi E Hin Hlo) as (x & Hx & _). rewrite take_0 in Hx. by apply not_elem_of_nil in Hx.
  - destruct (Hco (p_regex p) prev s n); [|done]. rewrite <- (app_nil_r s). by apply (matches_app is_word _ None).
Qed.

Lemma masked_kept p m s o : is_secret p = true -> Masked (hit_of p) (mark p) s o -> Masked (hit_of p) (mark p) (m ++ s) (m ++ o).
Proof. intros Hs H. induction m as [|c m IH]; [done|]. cbn [app]. constructor; [|done]. intros (Hn & _). congruence. Qed.

Lemma replace_masked fuel p prev s :
  (length s <= fuel)%nat -> Masked (hit_of p) (mark p) s (replace_from match_at fuel p prev s).1.
Proof.
  revert prev s. induction fuel as [|fuel IH]; intros prev s Hl; [destruct s; [constructor|simpl in Hl; lia]|].
  destruct s as [|c s]; [constructor|]. cbn [replace_from].
  assert (forall prev', match_at (p_regex p) prev (c :: s) = None \/ match_at (p_regex p) prev (c :: s) = Some O ->
            Masked (hit_of p) (mark p) (c :: s) (c :: (replace_from match_at fuel p prev' s).1)) as Hkeep.
  { intros prev' Hm. constructor; [|apply IH; simpl in Hl; lia]. intros Hh. apply (hit_found p prev) in Hh as (n & Hn). destruct Hm; congruence. }
  destruct (match_at (p_regex p) prev (c :: s)) as [[|n]|] eqn:E.
  - specialize (Hkeep (Some c) (or_intror eq_refl)). by destruct (replace_from match_at fuel p (Some c) s).
  - assert (length (drop (S n) (c :: s)) <= fuel)%nat as Hd by (rewrite length_drop; simpl in *; lia).
    specialize (IH (last (take (S n) (c :: s))) (drop (S n) (c :: s)) Hd).
    destruct (replace_from match_at fuel p _ _) as [out count]. cbn [fst] in IH.
    rewrite <- (take_drop (S n) (c :: s)) at 1. destruct (is_secret p) eqn:Es; [destruct (entropy_below_min _)|].
    + by apply masked_kept.
    + by constructor.
    + by constructor.
  - specialize (Hkeep (Some c) (or_introl eq_refl)). by destruct (replace_from match_at fuel p (Some c) s).
Qed.

Lemma found_inside re prev w s : context_free re -> matches is_word re None w (length w) -> inside w s -> found_from match_at re prev s = true.
Proof.
  intros Hc H (a & b & ->). revert prev. induction a as [|x a IH]; intros prev.
  - assert (is_Some (match_at re prev (w ++ b))) as Hs.
    { apply not_eq_None_Some. apply (engine_complete _ _ engine _ _ _ (length w)). by apply (matches_app is_word _ None). }
    cbn [app]. destruct (w ++ b); cbn [found_from]; by rewrite bool_decide_eq_true_2.
  - cbn [app found_from]. rewrite IH. by rewrite orb_true_r.
Qed.

Definition marked_pattern (p : Pattern) : Prop := exists body, mark p = OPEN :: body ++ [CLOSE].

Lemma mask_loop_inside ps cur cs w :
  Forall marked_pattern ps -> unmarked w -> w <> [] -> inside w (mask_loop match_at ps cur cs).1 ->
  (exists p, p ∈ ps /\ inside w (mark p)) \/ (inside w cur /\ forall p, p ∈ ps -> exists rest, ~ hit_of p (w ++ rest)).
Proof.
  intros Hps Hw Hne. revert cur cs. induction Hps as [|p ps Hp _ IH]; intros cur cs; cbn [mask_loop].
  - intros H. right. split; [done|]. intros p Hin. by apply not_elem_of_nil in Hin.
  - pose proof (replace_masked (length cur) p None cur (le_n _)) as Hm. unfold replace_all.
    destruct (replace_from match_at (length cur) p None cur) as [cur' count]. cbn [fst] in Hm.
    intros [(q & Hq & Hi)|[Hi Hrest]]%IH; [left; exists q; split; [by constructor|done]|].
    destruct (masked_inside (hit_of p) (mark p) Hp cur cur' w) as [?|[Hc Hh]]; [done..| |].
    + left. exists p. split; [constructor|done].
    + right. split; [done|]. intros q [->|Hq]%elem_of_cons; [done|]. by apply Hrest.
Qed.

Variable is_digit : str -> bool.

(** Texts of a pattern that is always masked do not survive. *)
Lemma redact_clears e w text :
  e ∈ patterns is_digit -> is_secret e = false -> context_free (p_regex e) -> takes_some (p_regex e) ->
  matches is_word (p_regex e) None w (length w) -> unmarked w ->
  (forall p, p ∈ patterns is_digit -> ~ inside w (mark p)) ->
  Forall marked_pattern (patterns is_digit) ->
  ~ inside w (redact_chars is_digit match_at text).1.
Proof.
  intros He Hs Hc Ht H Hw Hmarks Hall Hin. assert (w <> []) as Hne.
  { intros ->. destruct Ht as (c & lo & hi & Hi & Hlo). destruct (matches_needs is_word _ _ _ _ c lo hi H Hi Hlo) as (x & Hx & _).
    by apply not_elem_of_nil in Hx. }
  assert (forall rest, hit_of e (w ++ rest)) as Hhit.
  { intros rest. repeat (split; [done|]). exists (length w). by apply (matches_app is_word _ None). }
  unfold redact_chars in Hin. set (hits := filter _ _) in Hin.
  assert (inside w text -> e ∈ hits) as Hhits.
  { intros Ht'. unfold hits. apply list_elem_of_filter. split; [|done]. by apply (found_inside _ _ w). }
  destruct hits as [|h hits'] eqn:Eh; [by apply Hhits in Hin; apply not_elem_of_nil in Hin|].
  apply mask_loop_inside in Hin as [(p & Hp & Hi)|[Hi Hall']]; [| | |done|done].
  - apply (Hmarks p); [|done]. assert (p ∈ h :: hits') as Hp' by done. rewrite <- Eh in Hp'. unfold hits in Hp'. by apply list_elem_of_filter in Hp' as [_ ?].
  - destruct (Hall' e (Hhits Hi)) as [rest Hr]. by apply Hr.
  - rewrite <- Eh. unfold hits. apply Forall_forall. intros p Hp. apply list_elem_of_filter in Hp as [_ Hp].
    rewrite Forall_forall in Hall. by apply Hall.
Qed.
End Redact.

Definition avoids (x : str) (re : Regex) : Prop := Forall (fun i => match i with Class p _ _ => p x = false | WordBoundary => True end) re.

Lemma avoids_chars is_word re prev s n x : avoids x re -> matches is_word re prev s n -> x ∉ take n s.
Proof.
  intros Ha H Hx. destruct (matches_chars is_word _ _ _ _ _ H Hx) as (p & (lo & hi & Hin) & Hp).
  unfold avoids in Ha. rewrite Forall_forall in Ha. specialize (Ha _ Hin). simpl in Ha. congruence.
Qed.

Definition rejects (p : str -> bool) (s : list str) : Prop := Forall (fun c => p c = false) s.

Lemma marks_shape is_digit : Forall marked_pattern (patterns is_digit).
Proof.
  repeat (apply Forall_cons; split; [match goal with |- marked_pattern ?p => exists (removelast (tail (mark p))); by vm_compute end|]).
  constructor.
Qed.

(** A pattern that is always masked, of characters other than brackets, one class of which
    is in no placeholder. *)
Definition clearable is_digit (e : Pattern) (c : str -> bool) (lo : nat) (hi : option nat) : Prop :=
  e ∈ patterns is_digit /\ is_secret e = false /\ context_free (p_regex e) /\ Class c lo hi ∈ p_regex e /\ (1 <= lo)%nat /\
  avoids OPEN (p_regex e) /\ avoids CLOSE (p_regex e) /\ Forall (fun p => rejects c (mark p)) (patterns is_digit).

Lemma clearable_clears is_digit is_word match_at e c lo hi w text :
  EngineLaws is_word match_at -> clearable is_digit e c lo hi -> matches is_word (p_regex e) None w (length w) ->
  ~ inside w (redact_chars is_digit match_at text).1.
Proof.
  intros Hlaws (He & Hs & Hc & Hcl & Hlo & Ho & Hclose & Hr) H. apply (redact_clears is_word _ Hlaws is_digit e); try done.
  - by exists c, lo, hi.
  - split; intros Hx; [eapply avoids_chars in H; [|exact Ho]|eapply avoids_chars in H; [|exact Hclose]]; apply H; by rewrite firstn_all.
  - intros p Hp (a & b & E). destruct (matches_needs is_word _ _ _ _ c lo hi H Hcl Hlo) as (x & Hx & Hcx).
    rewrite firstn_all in Hx. rewrite Forall_forall in Hr. specialize (Hr _ Hp). unfold rejects in Hr. rewrite Forall_forall in Hr.
    assert (c x = false) by (apply Hr; rewrite E, !elem_of_app; by right; left). congruence.
  - apply marks_shape.
Qed.

Lemma not_in_marks is_digit c :
  forallb (fun m => forallb (fun x => negb (c x)) m) (mark <$> patterns (fun _ => false)) = true ->
  Forall (fun p => rejects c (mark p)) (patterns is_digit).
Proof.
  intros H. apply (Forall_fmap mark (rejects c)). change (mark <$> patterns is_digit) with (mark <$> patterns (fun _ => false)).
  rewrite forallb_forall in H. apply Forall_forall. intros m Hm. apply list_elem_of_In in Hm. specialize (H m Hm).
  rewrite forallb_forall in H. apply Forall_forall. intros x Hx. apply list_elem_of_In in Hx. specialize (H x Hx). by destruct (c x).
Qed.

Definition email_pattern : Pattern := {| p_name := lit "email"; p_regex := email; is_secret := false |}.
Definition bearer_pattern : Pattern := {| p_name := lit "bearer_token"; p_regex := bearer_token; is_secret := false |}.

Lemma email_clearable is_digit : clearable is_digit email_pattern (char_is x40) 1 (Some 1%nat).
Proof.
  split; [unfold patterns; set_solver|]. split; [done|]. split; [by repeat constructor|].
  split; [right; left|]. split; [lia|]. split; [by repeat constructor|]. split; [by repeat constructor|].
  apply not_in_marks. by vm_compute.
Qed.

Lemma bearer_clearable is_digit : clearable is_digit bearer_pattern is_space 1 None.
Proof.
  split; [unfold patterns; set_solver|]. split; [done|]. split; [by repeat constructor|].
  split; [unfold bearer_pattern, bearer_token; cbn [p_regex]; apply elem_of_app; right; left|]. split; [lia|].
  split; [by repeat constructor|]. split; [by repeat constructor|]. apply not_in_marks. by vm_compute.
Qed.

(** ** Characters stay whole *)

Lemma masked_forall hit ph s o (P : str -> Prop) : Masked hit ph s o -> Forall P ph -> Forall P s -> Forall P o.
Proof.
  intros H Hph. induction H as [|c s o _ _ IH|m s o _ IH]; intros Hs; [done| |].
  - apply Forall_cons in Hs as [Hc Hs]. constructor; [done|by apply IH].
  - apply Forall_app in Hs as [_ Hs]. apply Forall_app. split; [done|by apply IH].
Qed.

Lemma mask_loop_forall is_word match_at (P : str -> Prop) ps cur cs :
  EngineLaws is_word match_at -> Forall (fun p => Forall P (mark p)) ps -> Forall P cur -> Forall P (mask_loop match_at ps cur cs).1.
Proof.
  intros Hlaws Hps. revert cur cs. induction Hps as [|p ps Hp _ IH]; intros cur cs Hcur; cbn [mask_loop]; [done|].
  pose proof (replace_masked is_word match_at Hlaws (length cur) p None cur (le_n _)) as Hm. unfold replace_all.
  destruct (replace_from match_at (length cur) p None cur) as [cur' count]. apply IH. by eapply masked_forall.
Qed.

Lemma marks_whole is_digit : Forall (fun p => Forall one_char (mark p)) (patterns is_digit).
Proof.
  assert (forall p, utf8_valid (placeholder (p_name p)) = true -> Forall one_char (mark p)) as H by (intros p Hp; by apply chars_exact).
  repeat (apply Forall_cons; split; [apply H; by vm_compute|]). constructor.
Qed.

Lemma redact_whole is_digit is_word match_at text :
  EngineLaws is_word match_at -> utf8_valid text = true ->
  utf8_valid (redact is_digit match_at text).1 = true /\
  chars (redact is_digit match_at text).1 = (redact_chars is_digit match_at (chars text)).1.
Proof.
  intros Hlaws Hv. unfold redact. assert (Forall one_char (redact_chars is_digit match_at (chars text)).1) as H.
  { unfold redact_chars. destruct (chars_exact text Hv) as [Hc _]. destruct (filter _ _) as [|h hits] eqn:E; [done|].
    apply (mask_loop_forall is_word); [done| |done]. rewrite <- E. apply Forall_forall. intros p Hp.
    apply list_elem_of_filter in Hp as [_ Hp]. pose proof (marks_whole is_digit) as Hm. rewrite Forall_forall in Hm. by apply Hm. }
  destruct (redact_chars is_digit match_at (chars text)) as [out r]. cbn [fst] in *. by apply chars_of_chars.
Qed.

(** What the patterns of an e-mail address and of a bearer token describe. *)
Definition personal (is_word : str -> bool) (w : list str) : Prop :=
  matches is_word email None w (length w) \/ matches is_word bearer_token None w (length w).

Lemma personal_cleared is_digit is_word match_at text w :
  EngineLaws is_word match_at -> personal is_word w -> ~ inside w (redact_chars is_digit match_at text).1.
Proof.
  intros Hlaws [H|H].
  - by eapply (clearable_clears _ _ _ email_pattern); [|apply email_clearable|].
  - by eapply (clearable_clears _ _ _ bearer_pattern); [|apply bearer_clearable|].
Qed.

(** C5: whatever the text, no e-mail address and no bearer token is left in it after masking:
    no part of the redacted text is what either pattern describes. *)
Theorem nothing_personal_survives is_digit is_word match_at text w
    (engine : EngineLaws is_word match_at)
    (valid : utf8_valid text = true)
    (is_personal : personal is_word w) :
  ~ inside w (chars (redact is_digit match_at text).1).
Proof.
  destruct (redact_whole is_digit is_word match_at text engine valid) as [_ ->]. by apply (personal_cleared is_digit is_word).
Qed.

(** ** A concrete engine *)

Fixpoint run_length (p : str -> bool) (s : list str) : nat :=
  match s with c :: s => if p c then S (run_length p s) else O | [] => O end.

Definition longest (p : str -> bool) (max : option nat) (s : list str) : nat :=
  match max with Some m => Nat.min m (run_length p s) | None => run_length p s end.

(** [k] at [n], [n - 1], ... down to [lo]. *)
Fixpoint longest_first (n lo : nat) (k : nat -> option nat) : option nat :=
  if (n <? lo)%nat then None
  else match k n with
       | Some r => Some r
       | None => match n with O => None | S n => longest_first n lo k end
       end.

Fixpoint backtrack (is_word : str -> bool) (re : Regex) (prev : option str) (s : list str) : option nat :=
  match re with
  | [] => Some O
  | WordBoundary :: re => if boundary is_word prev (head s) then backtrack is_word re prev s else None
  | Class p min max :: re =>
      longest_first (longest p max s) min
        (fun n => Nat.add n <$> backtrack is_word re (before prev (take n s)) (drop n s))
  end.

Lemma run_length_take p s k : (k <= run_length p s)%nat <-> (k <= length s)%nat /\ Forall (fun c => p c = true) (take k s).
Proof.
  revert k. induction s as [|c s IH]; intros [|k]; cbn [run_length take firstn length]; split; try (intros; split; [lia|constructor]); try lia.
  - destruct (p c) eqn:E; [|lia]. intros H. destruct (IH k) as [H1 _]. destruct H1; [lia|]. split; [lia|]. by constructor.
  - intros [H1 H2]. apply Forall_cons in H2 as [-> H2]. assert (k <= run_length p s)%nat; [|lia]. apply IH. split; [lia|done].
Qed.

Lemma longest_first_Some n lo k r : longest_first n lo k = Some r -> exists j, (lo <= j <= n)%nat /\ k j = Some r.
Proof.
  induction n as [|n IH]; cbn [longest_first]; destruct (_ <? lo)%nat eqn:E; try done; apply Nat.ltb_ge in E.
  - destruct (k O) eqn:Ek; [|done]. intros [= <-]. exists O. by split; [lia|].
  - destruct (k (S n)) eqn:Ek; [intros [= <-]; exists (S n); by split; [lia|]|]. intros H. destruct (IH H) as (j & ? & ?).
    exists j. split; [lia|done].
Qed.

Lemma longest_first_None n lo k j : longest_first n lo k = None -> (lo <= j <= n)%nat -> k j = None.
Proof.
  induction n as [|n IH]; cbn [longest_first]; intros H Hj; destruct (_ <? lo)%nat eqn:E; try (apply Nat.ltb_lt in E; lia).
  - assert (j = O) as -> by lia. by destruct (k O).
  - destruct (k (S n)) eqn:Ek; [done|]. destruct (decide (j = S n)) as [->|]; [done|]. apply IH; [done|lia].
Qed.

Lemma backtrack_laws is_word : EngineLaws is_word (backtrack is_word).
Proof.
  split; intros re; induction re as [|[p lo hi|] re IH]; intros prev s n; cbn [backtrack matches].
  - by intros [= <-].
  - intros (k & Hk & H)%longest_first_Some. destruct (backtrack is_word re _ _) as [n'|] eqn:E; [|done]. injection H as <-.
    assert (k <= run_length p s)%nat as Hr by (unfold longest in Hk; destruct hi; lia).
    apply run_length_take in Hr as [Hl Hp]. exists k, n'. split; [lia|]. split; [unfold longest in Hk; destruct hi; simpl; lia|].
    split; [done|]. split; [done|]. by apply IH.
  - destruct (boundary is_word prev (head s)); [|done]. intros H. split; [done|]. by apply IH.
  - done.
  - intros (k & n' & Hk & Hw & Hp & -> & H) E. assert (k <= run_length p s)%nat as Hr by (by apply run_length_take; split; [lia|]).
    apply (longest_first_None _ _ _ k) in E; [|unfold longest; destruct hi; simpl in Hw; lia].
    cbv beta in E. destruct (backtrack is_word re _ _) eqn:Eb; [done|]. by destruct (IH _ _ _ H).
  - intros [-> H]. by eapply IH.
Qed.

(** ** What the filter misses *)

Definition digit1 : str -> bool := ascii is_ascii_digit.
Definition word1 : str -> bool := alnum_or [x5f].

Definition covered_address : str := lit "AKIAABCDEFGHIJKLMNOP1.2.3.4".

(** the filter looks for the patterns in the text before masking, so what masking one
    uncovers stays: an address that follows a key without a break is left in the text, while
    going through every pattern in turn, or redacting a second time, masks it. *)
Theorem filter_misses_uncovered :
  let redacted := (redact digit1 (backtrack word1) covered_address).1 in
  redacted = lit "[REDACTED:aws_key]1.2.3.4" /\
  mjoin (redact_legacy digit1 (backtrack word1) (chars covered_address)).1 = lit "[REDACTED:aws_key][REDACTED:ipv4]" /\
  (redact digit1 (backtrack word1) redacted).1 = lit "[REDACTED:aws_key][REDACTED:ipv4]".
Proof. vm_compute. done. Qed.

Lemma nothing_personal_survives_witness :
  ~ inside (chars (lit "bob@example.com")) (chars (redact digit1 (backtrack word1) (lit "mail bob@example.com now")).1).
Proof.
  apply (nothing_personal_survives digit1 word1); [apply backtrack_laws|done|]. left.
  apply (engine_sound _ _ (backtrack_laws word1)). vm_compute. reflexivity.
Defined.
