(* ===== verification/Dispatcher.v ===== *)
(** * Requests to model providers

    [aic-client/src/llm_dispatcher.rs], with [AicError] of [aic-common/src/error.rs] and the
    provider settings of [aic-common/src/lib.rs]: the circuit breaker, the requests of the two
    families of providers, retries, and what is masked on the way out. The HTTP client is a
    parameter: it turns a request into a status and the chunks of a body. So are the parser
    of JSON, the key store, the processes of CLI providers and the clock, whose readings are
    nanoseconds. *)

From S2P Require Import Prelude RustStr JsonValue FileTree Redaction Chat Sse.
#[local] Open Scope outcome_scope.

(** ** Errors *)

Inductive AicError :=
| ServerNotRunning
| ApiKeyMissing (provider : str)
| CliNotFound (cli_name : str)
| LlmApiError (status : Z) (message : str)
| PtyError (message : str)
| IpcError (message : str)
| ConfigError (message : str)
| UserMessage (message : str).

Definition is_retryable (e : AicError) : bool :=
  match e with
  | LlmApiError status _ => (status =? 0) || (status =? 429) || ((500 <=? status) && (status <? 600))
  | _ => false
  end.

Definition handle_http_status (status : Z) : option AicError :=
  if (200 <=? status) && (status <=? 299) then None
  else if status =? 401 then Some (LlmApiError status (lit "API 인증 실패"))
  else if status =? 429 then Some (LlmApiError status (lit "API 요청 한도 초과"))
  else Some (LlmApiError status (lit "HTTP " ++ show_unsigned status ++ lit " 에러")).

(** ** Circuit breaker *)

Definition SECOND : Z := 1000000000.

Module Circuit.
Record t := { window : list Z; open_until : option Z }.

Definition new : t := {| window := []; open_until := None |}.
Definition threshold : nat := 5.
Definition window_duration : Z := 60 * SECOND.
Definition open_duration : Z := 30 * SECOND.

Definition open_error (secs : Z) : AicError :=
  LlmApiError 0 (lit "최근 연속 실패가 많아 circuit breaker가 열렸습니다. 약 " ++ show_unsigned secs ++ lit "초 후 자동 재개").

Definition check (now : Z) (c : t) : outcome unit AicError * t :=
  match open_until c with
  | Some until =>
      if now <? until then (Err (open_error ((until - now) / SECOND)), c)
      else (Ok tt, {| window := window c; open_until := None |})
  | None => (Ok tt, c)
  end.

(** The loop that drops old failures from the front. *)
Fixpoint drop_old (now : Z) (win : list Z) : list Z :=
  match win with
  | front :: rest => if window_duration <? now - front then drop_old now rest else win
  | [] => []
  end.

Definition record_failure (now : Z) (c : t) : t :=
  let win := drop_old now (window c ++ [now]) in
  if (threshold <=? length win)%nat then {| window := []; open_until := Some (now + open_duration) |}
  else {| window := win; open_until := open_until c |}.

Definition record_success (c : t) : t := {| window := []; open_until := open_until c |}.
End Circuit.

(** ** Settings *)

Inductive ProviderType := OpenAiCompatible | Groq | Anthropic | CliBackend.

Record ProviderConfig := {
  provider_type : ProviderType;
  endpoint : option str;
  api_key : option str;
  model : option str;
  cli_path : option str;
  cli_args : option (list str);
}.

Record LlmConfig := { default_provider : str; providers : gmap str ProviderConfig; request_timeout_secs : Z }.

Definition openai_compat_defaults (p : ProviderType) : str * str :=
  match p with
  | Groq => (lit "https://api.groq.com/openai/v1/chat/completions", lit "llama-3.3-70b-versatile")
  | _ => (lit "https://api.openai.com/v1/chat/completions", lit "gpt-4o")
  end.

Definition ANTHROPIC_ENDPOINT : str := lit "https://api.anthropic.com/v1/messages".
Definition ANTHROPIC_MODEL : str := lit "claude-sonnet-4-6".

Definition resolve_cli_args (path : str) (override_args : option (list str)) : list str :=
  match override_args with
  | Some args => args
  | None =>
      let basename := default path (file_name path) in
      if bool_decide (basename ∈ [lit "kiro-cli"; lit "kiro"]) then [lit "chat"]
      else if bool_decide (basename ∈ [lit "claude"; lit "claude-cli"]) then [lit "-p"]
      else []
  end.

(** ** Requests and replies *)

Record Request := { url : str; headers : list (str * str); timeout_secs : Z; body : Value }.

Inductive HttpReply := NotSent (message : str) | Answered (status : Z) (chunks : list chunk).

Fixpoint whole_body (chunks : list chunk) : outcome str str :=
  match chunks with
  | [] => Ok []
  | Data bytes :: rest => let? more := whole_body rest in Ok (bytes ++ more)
  | Broken m :: _ => Err m
  end.

Inductive CliOutput :=
| CliAbsent
| CliNotStarted (message : str)
| CliExited (success : bool) (code : option Z) (stdout stderr : str).

(** ** State *)

Record Dispatcher := { circuit : Circuit.t; last_usage : option TokenUsage }.

(** A call may fail, and leaves the dispatcher in some state. *)
Definition Call (A : Type) : Type := Dispatcher -> outcome A AicError * Dispatcher.

Definition ret {A} (a : A) : Call A := fun d => (Ok a, d).
Definition lift {A} (o : outcome A AicError) : Call A := fun d => (o, d).
Definition bind {A B} (m : Call A) (k : A -> Call B) : Call B :=
  fun d => match m d with
           | (Ok a, d) => k a d
           | (Err e, d) => (Err e, d)
           | (Panic, d) => (Panic, d)
           end.

Notation "'let!' x ':=' m 'in' k" := (bind m (fun x => k)) (at level 200, x pattern, right associativity).

Definition with_circuit (f : Circuit.t -> Circuit.t) : Call unit :=
  fun d => (Ok tt, {| circuit := f (circuit d); last_usage := last_usage d |}).

Definition check_circuit (now : Z) : Call unit :=
  fun d => let '(r, c) := Circuit.check now (circuit d) in (r, {| circuit := c; last_usage := last_usage d |}).

Definition record_usage (u : option TokenUsage) : Call unit := fun d => (Ok tt, {| circuit := circuit d; last_usage := u |}).

Definition record_failure (now : Z) : Call unit := with_circuit (Circuit.record_failure now).
Definition record_success : Call unit := with_circuit Circuit.record_success.

Definition fail_counted {A} (now : Z) (e : AicError) : Call A := let! _ := record_failure now in lift (Err e).

(** [match &result]: the outcome of a stream is counted either way. *)
Definition counted {A} (now : Z) (m : Call A) : Call A :=
  fun d => match m d with
           | (Ok a, d) => (let! _ := record_success in ret a) d
           | (Err e, d) => fail_counted now e d
           | (Panic, d) => (Panic, d)
           end.

Section Dispatch.
Variable to_lowercase : str -> str.
Variable json_parse : str -> option Value.
Variable json_print : Value -> str.
(** What [serde_json] says of a text that is not JSON. *)
Variable parse_error : str -> str.
(** [redaction::redact]'s text *)
Variable redact : str -> str.
(** [keychain::resolve] *)
Variable resolve_key : str -> outcome str str.
Variable config : LlmConfig.
(** [AIC_REDACT] is not [off]. *)
Variable redact_enabled : bool.

Definition estimate_request_timeout (model : str) (base_secs : Z) : Z :=
  let m := to_lowercase model in
  if contains (lit "deepseek-v") m || contains (lit "deepseek-r") m || contains (lit "405b") m
     || contains (lit "opus") m || contains (lit "o1") m then Z.max base_secs 180
  else if contains (lit "70b") m || contains (lit "sonnet") m || contains (lit "nemotron") m then Z.max base_secs 90
  else if contains (lit "32b") m || contains (lit "haiku") m || contains (lit "gpt-4o") m then Z.max base_secs 45
  else base_secs.

Definition resolve_provider : outcome ProviderConfig AicError :=
  ok_or (providers config !! default_provider config)
    (ConfigError (lit "Provider '" ++ default_provider config ++ lit "' 설정을 찾을 수 없습니다")).

Definition supports_tool_calling : bool :=
  match resolve_provider with
  | Ok p => match provider_type p with CliBackend => false | _ => true end
  | _ => false
  end.

Definition request_timeout : Z :=
  match resolve_provider with
  | Ok p =>
      let default_model := match provider_type p with Anthropic => ANTHROPIC_MODEL | t => (openai_compat_defaults t).2 end in
      estimate_request_timeout (default default_model (model p)) (request_timeout_secs config)
  | _ => request_timeout_secs config
  end.

Definition resolved_key (p : ProviderConfig) : outcome str AicError :=
  match api_key p with
  | None => Err (ApiKeyMissing (default_provider config))
  | Some raw =>
      match resolve_key raw with
      | Ok key => Ok key
      | Err e => Err (ApiKeyMissing (default_provider config ++ lit " (" ++ e ++ lit ")"))
      | Panic => Panic
      end
  end.

(** ** Masking *)

Definition masked (s : str) : str := if redact_enabled then redact s else s.

(** [json[key] = v] of a key that is there. *)
Fixpoint set_field (key : str) (v : Value) (fields : list (str * Value)) : list (str * Value) :=
  match fields with
  | [] => [(key, v)]
  | (k, old) :: fields => if bool_decide (k = key) then (k, v) :: fields else (k, old) :: set_field key v fields
  end.

Definition mask_field (key : str) (j : Value) : Value :=
  match j, get_str j key with
  | VObject fields, Some c => VObject (set_field key (VString (redact c)) fields)
  | _, _ => j
  end.

Definition openai_wire_message (m : ChatMessage str) : Value :=
  let j := to_openai_json m in if redact_enabled then mask_field (lit "content") j else j.

Definition redact_anthropic_content (message : Value) : Value :=
  match message, value_get message (lit "content") ≫= as_array with
  | VObject fields, Some blocks =>
      VObject (set_field (lit "content")
                 (VArray ((fun b => mask_field (lit "content") (mask_field (lit "text") b)) <$> blocks)) fields)
  | _, _ => message
  end.

Definition stream_field (stream : bool) : list (str * Value) := if stream then [(lit "stream", VBool true)] else [].

Definition openai_request (p : ProviderConfig) (key : str) (stream : bool) (messages : list (ChatMessage str)) (tools : list ToolSpec)
    : Request :=
  let '(default_endpoint, default_model) := openai_compat_defaults (provider_type p) in
  let model := default default_model (model p) in
  {| url := default default_endpoint (endpoint p);
     headers := [(lit "Authorization", lit "Bearer " ++ key)];
     timeout_secs := estimate_request_timeout model (request_timeout_secs config);
     body := VObject ([(lit "model", VString model); (lit "messages", VArray (openai_wire_message <$> messages))]
                      ++ stream_field stream
                      ++ match tools with
                         | [] => []
                         | _ => [(lit "tools", VArray (spec_to_openai <$> tools)); (lit "tool_choice", VString (lit "auto"))]
                         end) |}.

Definition anthropic_headers (key : str) : list (str * str) :=
  [(lit "x-api-key", key); (lit "anthropic-version", lit "2023-06-01"); (lit "content-type", lit "application/json")].

Definition anthropic_request (p : ProviderConfig) (key : str) (stream : bool) (messages : list (ChatMessage str)) (tools : list ToolSpec)
    : Request :=
  let model := default ANTHROPIC_MODEL (model p) in
  let '(system, wire_messages) := to_anthropic_request json_parse messages in
  let wire_messages := if redact_enabled then redact_anthropic_content <$> wire_messages else wire_messages in
  {| url := default ANTHROPIC_ENDPOINT (endpoint p);
     headers := anthropic_headers key;
     timeout_secs := estimate_request_timeout model (request_timeout_secs config);
     body := VObject ([(lit "model", VString model); (lit "max_tokens", VNumber (Some 4096));
                       (lit "messages", VArray wire_messages)]
                      ++ stream_field stream
                      ++ match system with Some sys => [(lit "system", VString (masked sys))] | None => [] end
                      ++ match tools with [] => [] | _ => [(lit "tools", VArray (spec_to_anthropic <$> tools))] end) |}.

(** ** Conversations *)

(** [resp.bytes()], then the JSON of them. *)
Definition read_json (chunks : list chunk) : outcome Value AicError :=
  match whole_body chunks with
  | Ok bytes => ok_or (json_parse bytes) (LlmApiError 0 (lit "응답 파싱 실패: " ++ parse_error bytes))
  | Err e => Err (LlmApiError 0 (lit "응답 수신 실패: " ++ e))
  | Panic => Panic
  end.

(** A request whose refusal counts as a failure. *)
Definition counted_post (now : Z) (post : Request -> HttpReply) (req : Request) : Call (list chunk) :=
  match post req with
  | NotSent m => fail_counted now (LlmApiError 0 m)
  | Answered status chunks => match handle_http_status status with Some e => fail_counted now e | None => ret chunks end
  end.

Definition counted_response (now : Z) (r : option ChatResponse) (message : str) : Call ChatResponse :=
  match r with
  | Some r => let! _ := record_success in ret r
  | None => fail_counted now (LlmApiError 0 message)
  end.

(** The calls below start at [now]; the reply is there at [later]. *)
Definition send_messages_openai (now later : Z) (post : Request -> HttpReply) (p : ProviderConfig)
    (messages : list (ChatMessage str)) (tools : list ToolSpec) : Call ChatResponse :=
  let! _ := check_circuit now in
  let! key := lift (resolved_key p) in
  let! chunks := counted_post later post (openai_request p key false messages tools) in
  let! json := lift (read_json chunks) in
  let! _ := record_usage (parse_openai_usage json) in
  counted_response later (parse_openai_response json) (lit "응답에서 메시지를 추출할 수 없습니다").

Definition send_messages_anthropic (now later : Z) (post : Request -> HttpReply) (p : ProviderConfig)
    (messages : list (ChatMessage str)) (tools : list ToolSpec) : Call ChatResponse :=
  let! _ := check_circuit now in
  let! key := lift (resolved_key p) in
  let! chunks := counted_post later post (anthropic_request p key false messages tools) in
  let! json := lift (read_json chunks) in
  let! _ := record_usage (parse_anthropic_usage json) in
  counted_response later (parse_anthropic_response json_print json) (lit "Anthropic 응답에서 메시지를 추출할 수 없습니다").

Definition send_messages (now later : Z) (post : Request -> HttpReply)
    (messages : list (ChatMessage str)) (tools : list ToolSpec) : Call ChatResponse :=
  let! p := lift resolve_provider in
  match provider_type p with
  | Anthropic => send_messages_anthropic now later post p messages tools
  | OpenAiCompatible | Groq => send_messages_openai now later post p messages tools
  | CliBackend => lift (Err (ConfigError (lit "send_messages는 OpenAI 호환 또는 Anthropic provider에서만 지원됩니다")))
  end.

(** The error of a broken or refused stream. *)
Definition stream_result {A} (r : outcome A str) : outcome A AicError :=
  match r with Ok a => Ok a | Err m => Err (LlmApiError 0 m) | Panic => Panic end.

Definition stream_messages_openai (now later : Z) (post : Request -> HttpReply) (p : ProviderConfig)
    (messages : list (ChatMessage str)) (tools : list ToolSpec) : Call (list str * ChatResponse) :=
  let! _ := check_circuit now in
  let! key := lift (resolved_key p) in
  let! chunks := counted_post later post (openai_request p key true messages tools) in
  counted later (lift (stream_result (accumulate_openai_stream json_parse chunks))).

Definition stream_messages_anthropic (now later : Z) (post : Request -> HttpReply) (p : ProviderConfig)
    (messages : list (ChatMessage str)) (tools : list ToolSpec) : Call (list str * ChatResponse) :=
  let! _ := check_circuit now in
  let! key := lift (resolved_key p) in
  let! chunks := counted_post later post (anthropic_request p key true messages tools) in
  counted later (lift (stream_result (accumulate_anthropic_stream json_parse chunks))).

(** With the texts passed on as they came. *)
Definition send_messages_streaming (now later : Z) (post : Request -> HttpReply)
    (messages : list (ChatMessage str)) (tools : list ToolSpec) : Call (list str * ChatResponse) :=
  let! p := lift resolve_provider in
  match provider_type p with
  | Anthropic => stream_messages_anthropic now later post p messages tools
  | OpenAiCompatible | Groq => stream_messages_openai now later post p messages tools
  | CliBackend =>
      let! resp := send_messages now later post messages tools in
      ret (match resp with Text t => [t] | ToolCalls _ => [] end, resp)
  end.

(** ** Single prompts *)

Definition plain_post (post : Request -> HttpReply) (req : Request) : outcome (list chunk) AicError :=
  match post req with
  | NotSent m => Err (LlmApiError 0 m)
  | Answered status chunks => match handle_http_status status with Some e => Err e | None => Ok chunks end
  end.

Definition extract_openai_content (json : Value) : outcome str AicError :=
  ok_or (as_str (at_key (at_key (at_index (at_key json (lit "choices")) 0) (lit "message")) (lit "content")))
    (LlmApiError 0 (lit "OpenAI 응답에서 content를 추출할 수 없습니다")).

Definition extract_anthropic_content (json : Value) : outcome str AicError :=
  ok_or (as_str (at_key (at_index (at_key json (lit "content")) 0) (lit "text")))
    (LlmApiError 0 (lit "Anthropic 응답에서 content를 추출할 수 없습니다")).

Definition user_messages (prompt : str) : Value := VArray [role_content (lit "user") (VString prompt)].

Definition send_openai (post : Request -> HttpReply) (p : ProviderConfig) (prompt : str) : Call str :=
  let '(default_endpoint, default_model) := openai_compat_defaults (provider_type p) in
  let model := default default_model (model p) in
  let! key := lift (resolved_key p) in
  let! chunks := lift (plain_post post {| url := default default_endpoint (endpoint p);
                                          headers := [(lit "Authorization", lit "Bearer " ++ key)];
                                          timeout_secs := estimate_request_timeout model (request_timeout_secs config);
                                          body := VObject [(lit "model", VString model); (lit "messages", user_messages prompt)] |}) in
  let! json := lift (read_json chunks) in
  let! _ := record_usage (parse_openai_usage json) in
  lift (extract_openai_content json).

Definition send_anthropic (post : Request -> HttpReply) (p : ProviderConfig) (prompt : str) : Call str :=
  let model := default ANTHROPIC_MODEL (model p) in
  let! key := lift (resolved_key p) in
  let! chunks := lift (plain_post post {| url := default ANTHROPIC_ENDPOINT (endpoint p);
                                          headers := take 2 (anthropic_headers key);
                                          timeout_secs := estimate_request_timeout model (request_timeout_secs config);
                                          body := VObject [(lit "model", VString model); (lit "messages", user_messages prompt);
                                                           (lit "max_tokens", VNumber (Some 4096))] |}) in
  let! json := lift (read_json chunks) in
  let! _ := record_usage (parse_anthropic_usage json) in
  lift (extract_anthropic_content json).

(** [run cli args] runs a program. *)
Definition send_cli (run : str -> list str -> CliOutput) (p : ProviderConfig) (prompt : str) : Call str :=
  let! _ := record_usage None in
  let path := default (default_provider config) (cli_path p) in
  lift match run path (resolve_cli_args path (cli_args p) ++ [prompt]) with
       | CliAbsent => Err (CliNotFound path)
       | CliNotStarted m => Err (LlmApiError 0 (lit "CLI 실행 실패: " ++ m))
       | CliExited false code _ stderr =>
           Err (LlmApiError (default 1 code mod 65536) (lit "CLI 프로세스 에러: " ++ from_utf8_lossy stderr))
       | CliExited true _ stdout _ =>
           if utf8_valid stdout then Ok stdout else Err (LlmApiError 0 (lit "CLI 출력 디코딩 실패: " ++ parse_error stdout))
       end.

Definition MAX_ATTEMPTS : nat := 5.
Definition BASE_DELAY_MS : Z := 500.

(** The attempts from number [attempt] on, with [left] more; the waits between them in
    milliseconds, and the result. [post] may answer each attempt differently. *)
Fixpoint attempts (later : Z) (one : nat -> Call str) (attempt left : nat) (waits : list Z) : Call (list Z * str) :=
  match left with
  | O => lift Panic
  | S left' =>
      let waits := if (0 <? attempt)%nat then waits ++ [BASE_DELAY_MS * Z.shiftl 1 (Z.of_nat attempt - 1)] else waits in
      fun d => match one attempt d with
               | (Ok r, d) => (let! _ := record_success in ret (waits, r)) d
               | (Err e, d) =>
                   if is_retryable e && (attempt + 1 <? MAX_ATTEMPTS)%nat then attempts later one (S attempt) left' waits d
                   else fail_counted later e d
               | (Panic, d) => (Panic, d)
               end
  end.

Definition send (now later : Z) (post : nat -> Request -> HttpReply) (run : str -> list str -> CliOutput) (prompt : str)
    : Call (list Z * str) :=
  let! p := lift resolve_provider in
  match provider_type p with
  | CliBackend => let! r := send_cli run p prompt in ret ([], r)
  | t =>
      let prompt := masked prompt in
      let! _ := check_circuit now in
      attempts later
        (fun attempt => match t with Anthropic => send_anthropic (post attempt) p prompt | _ => send_openai (post attempt) p prompt end)
        O MAX_ATTEMPTS []
  end.

(** The check of a streamed prompt's status. *)
Definition stream_post (post : Request -> HttpReply) (req : Request) : outcome (list chunk) AicError :=
  match post req with
  | NotSent m => Err (LlmApiError 0 m)
  | Answered status chunks =>
      if (200 <=? status) && (status <=? 299) then Ok chunks
      else Err (LlmApiError status (lit "HTTP " ++ show_unsigned status))
  end.

(** The streamed prompt of the REPL, with the texts passed on. *)
Definition send_streaming (now later : Z) (post : nat -> Request -> HttpReply) (run : str -> list str -> CliOutput) (prompt : str)
    : Call (list str * str) :=
  let! p := lift resolve_provider in
  match provider_type p with
  | CliBackend => let! r := send now later post run prompt in ret ([r.2], r.2)
  | t =>
      let! _ := check_circuit now in
      let prompt := masked prompt in
      let! _ := record_usage None in
      let! key := lift (resolved_key p) in
      let stream req text :=
        counted later (let! chunks := lift (stream_post (post O) req) in
                       let! s := lift (stream_result (text chunks)) in ret (shown s, full s)) in
      match t with
      | Anthropic =>
          let model := default ANTHROPIC_MODEL (model p) in
          stream {| url := default ANTHROPIC_ENDPOINT (endpoint p); headers := anthropic_headers key;
                    timeout_secs := estimate_request_timeout model (request_timeout_secs config);
                    body := VObject [(lit "model", VString model); (lit "messages", user_messages prompt);
                                     (lit "max_tokens", VNumber (Some 4096)); (lit "stream", VBool true)] |}
                 (stream_anthropic json_parse)
      | _ =>
          let '(default_endpoint, default_model) := openai_compat_defaults (provider_type p) in
          let model := default default_model (model p) in
          stream {| url := default default_endpoint (endpoint p); headers := [(lit "Authorization", lit "Bearer " ++ key)];
                    timeout_secs := estimate_request_timeout model (request_timeout_secs config);
                    body := VObject [(lit "model", VString model); (lit "messages", user_messages prompt);
                                     (lit "stream", VBool true)] |}
                 (stream_openai_compat json_parse)
      end
  end.
End Dispatch.
