(* ===== verification/DispatcherSpec.v ===== *)
(** * When requests are refused, repeated and masked

    [opens_only_after_failures], [opens_at_fifth_failure]: the circuit breaker refuses exactly
    after five failures within a minute. [send_bounded]: a prompt is tried at most five times,
    with growing waits, and counts as one failure at most. [requests_masked]: no e-mail address or bearer token goes out in the
    texts of a conversation. [lost_bodies_not_counted], [streamed_usage_stale]: what the
    breaker and the usage of the last call miss. *)

From S2P Require Import Prelude RustStr JsonValue Redaction RedactionSpec Chat Sse Dispatcher.

(** ** The circuit breaker *)

Inductive CircuitEvent := Failed_at (t : Z) | Succeeded | Checked_at (t : Z).

Definition circuit_step (c : Circuit.t) (e : CircuitEvent) : Circuit.t :=
  match e with
  | Failed_at t => Circuit.record_failure t c
  | Succeeded => Circuit.record_success c
  | Checked_at t => (Circuit.check t c).2
  end.

(** A log, oldest event first. *)
Definition circuit_run (log : list CircuitEvent) : Circuit.t := foldl circuit_step Circuit.new log.

(** The times of the failures since the last success. *)
Definition failures (log : list CircuitEvent) : list Z :=
  foldl (fun fs e => match e with Failed_at t => fs ++ [t] | Succeeded => [] | Checked_at _ => fs end) [] log.

Definition recent (now : Z) (fs : list Z) : list Z := filter (fun t => now - t <= Circuit.window_duration) fs.

Definition ascending (fs : list Z) : Prop := StronglySorted Z.le fs.

Lemma recent_whole now fs : Forall (fun t => now - t <= Circuit.window_duration) fs -> recent now fs = fs.
Proof. unfold recent. induction 1 as [|t fs Ht _ IH]; [done|]. by rewrite filter_cons_True, IH. Qed.

Lemma drop_old_sorted now fs : ascending fs -> Circuit.drop_old now fs = recent now fs.
Proof.
  induction 1 as [|t fs Hs IH Hall]; [done|]. cbn [Circuit.drop_old]. destruct (Circuit.window_duration <? now - t) eqn:E.
  - unfold recent in *. rewrite filter_cons_False by lia. done.
  - symmetry. apply recent_whole. constructor; [lia|]. rewrite Forall_forall in *. intros x Hx. specialize (Hall x Hx). lia.
Qed.

Lemma ascending_recent now fs : ascending fs -> ascending (recent now fs).
Proof.
  unfold recent. induction 1 as [|t fs Hs IH Hall]; [constructor|]. rewrite filter_cons. destruct (decide _); [|done]. constructor; [done|].
  rewrite Forall_forall in *. intros x Hx. apply list_elem_of_filter in Hx as [_ Hx]. by apply Hall.
Qed.

Lemma recent_recent now now' fs : now <= now' -> recent now' (recent now fs) = recent now' fs.
Proof. intros H. unfold recent. rewrite list_filter_filter_l; [done|]. intros x Hx. lia. Qed.

Lemma recent_app now fs gs : recent now (fs ++ gs) = recent now fs ++ recent now gs.
Proof. apply filter_app. Qed.

Lemma ascending_app fs gs : ascending (fs ++ gs) -> ascending fs /\ ascending gs /\ forall x y, x ∈ fs -> y ∈ gs -> x <= y.
Proof. intros (H1 & H2 & H3)%StronglySorted_app. done. Qed.

Definition fail_times (log : list CircuitEvent) : list Z := omap (fun e => match e with Failed_at t => Some t | _ => None end) log.

Lemma failures_snoc log e :
  failures (log ++ [e]) = match e with Failed_at t => failures log ++ [t] | Succeeded => [] | Checked_at _ => failures log end.
Proof. unfold failures. by rewrite foldl_app. Qed.

Lemma failures_suffix log : exists old, fail_times log = old ++ failures log.
Proof.
  induction log as [|e log [old IH]] using rev_ind; [by exists []|]. unfold fail_times in *. rewrite omap_app, IH, failures_snoc.
  destruct e as [t| |t]; simpl.
  - exists old. by rewrite app_assoc.
  - exists (old ++ failures log). by rewrite !app_nil_r.
  - exists old. by rewrite app_nil_r.
Qed.

Lemma drop_old_suffix now fs : exists old, fs = old ++ Circuit.drop_old now fs.
Proof.
  induction fs as [|t fs [old IH]]; [by exists []|]. cbn [Circuit.drop_old]. destruct (_ <? _); [|by exists []].
  exists (t :: old). cbn [app]. by rewrite <- IH.
Qed.

(** The failure that opened the circuit last. *)
Definition opened_by (log : list CircuitEvent) (u : Z) : Prop :=
  exists pre t0, (pre ++ [Failed_at t0]) `prefix_of` log /\ u = t0 + Circuit.open_duration /\
    (Circuit.threshold <= length (recent t0 (failures (pre ++ [Failed_at t0]))))%nat.

Lemma circuit_invariant log :
  ascending (fail_times log) ->
  (exists old, failures log = old ++ Circuit.window (circuit_run log)) /\
  (forall u, Circuit.open_until (circuit_run log) = Some u -> opened_by log u).
Proof.
  induction log as [|e log IH] using rev_ind; [by intros _; split; [exists []|]|]. intros Hasc.
  unfold circuit_run in *. rewrite foldl_app. cbn [foldl]. set (c := foldl circuit_step Circuit.new log) in *.
  assert (ascending (fail_times log)) as Hlog.
  { unfold fail_times in *. rewrite omap_app in Hasc. by apply ascending_app in Hasc as [? _]. }
  destruct (IH Hlog) as [[old Hold] Hopen].
  assert (forall u, opened_by log u -> opened_by (log ++ [e]) u) as Hmore.
  { intros u (pre & t0 & Hp & ? & ?). exists pre, t0. split; [by apply prefix_app_r|done]. }
  rewrite failures_snoc. destruct e as [t| |t]; cbn [circuit_step].
  - unfold Circuit.record_failure. destruct (_ <=? _)%nat eqn:E; cbn [Circuit.window Circuit.open_until].
    + apply Nat.leb_le in E. split; [by exists (failures log ++ [t]); rewrite app_nil_r|]. intros u [= <-]. exists log, t.
      split; [done|]. split; [done|]. rewrite failures_snoc, Hold, <- app_assoc, recent_app, length_app.
      rewrite drop_old_sorted in E; [lia|]. destruct (failures_suffix (log ++ [Failed_at t])) as [o Ho].
      rewrite Ho, failures_snoc, Hold, <- app_assoc in Hasc. by apply ascending_app in Hasc as (_ & (_ & ? & _)%ascending_app & _).
    + split; [|by auto]. destruct (drop_old_suffix t (Circuit.window c ++ [t])) as [o Ho]. exists (old ++ o).
      by rewrite Hold, <- !app_assoc, <- Ho.
  - unfold Circuit.record_success. cbn [Circuit.window Circuit.open_until]. split; [by exists []|]. auto.
  - unfold Circuit.check. destruct (Circuit.open_until c) as [u|] eqn:Eo; [destruct (_ <? _)|]; cbn [snd Circuit.window Circuit.open_until].
    + split; [by exists old|]. rewrite Eo. auto.
    + split; [by exists old|done].
    + split; [by exists old|]. rewrite Eo. done.
Qed.

(** a request is refused only while five failures that lie within a minute, with no
    success between, are less than half a minute old: whatever was recorded, in the order of
    time, a refusal at [t] follows a fifth such failure at some [t0] with [t] before
    [t0 + 30 s]. *)
Theorem opens_only_after_failures log t
    (in_order : ascending (fail_times log)) (refused : (Circuit.check t (circuit_run log)).1 <> Ok tt) :
  exists u, opened_by log u /\ t < u.
Proof.
  destruct (circuit_invariant log in_order) as [_ H]. unfold Circuit.check in refused.
  destruct (Circuit.open_until (circuit_run log)) as [u|]; [|done]. exists u. split; [by apply H|].
  destruct (t <? u) eqn:E; [lia|done].
Qed.

Definition fail_all (c : Circuit.t) (ts : list Z) : Circuit.t := foldl (fun c t => Circuit.record_failure t c) c ts.

Lemma few_failures c ts :
  Circuit.window c = [] -> ascending ts -> (length ts < Circuit.threshold)%nat ->
  Circuit.open_until (fail_all c ts) = Circuit.open_until c /\
  forall now, (forall t, t ∈ ts -> t <= now) -> recent now (Circuit.window (fail_all c ts)) = recent now ts /\ ascending (Circuit.window (fail_all c ts) ++ [now]).
Proof.
  intros Hw. induction ts as [|t ts IH] using rev_ind.
  - intros _ _. split; [done|]. intros now _. unfold fail_all. simpl. rewrite Hw. split; [done|]. repeat constructor.
  - rewrite length_app. intros (Hasc & _ & Hle)%ascending_app Hlen. simpl in Hlen. destruct IH as [Ho IH]; [done|lia|].
    unfold fail_all in *. rewrite foldl_app. cbn [foldl]. destruct (IH t) as [Hr Hs]; [intros x Hx; apply Hle; [done|constructor]|].
    unfold Circuit.record_failure. rewrite drop_old_sorted by done. set (c' := foldl _ c ts) in *.
    assert (recent t (Circuit.window c' ++ [t]) = recent t (ts ++ [t])) as -> by (by rewrite !recent_app, Hr).
    assert (length (recent t (ts ++ [t])) < Circuit.threshold)%nat as Hl.
    { pose proof (length_filter (fun x => t - x <= Circuit.window_duration) (ts ++ [t])) as Hf. rewrite length_app in Hf. simpl in Hf. unfold recent. lia. }
    rewrite (proj2 (Nat.leb_gt _ _) Hl). cbn [Circuit.window Circuit.open_until]. split; [done|]. intros now Hnow.
    split; [apply recent_recent; apply Hnow; apply elem_of_app; right; constructor|].
    apply StronglySorted_app. split; [|split; [|repeat constructor]].
    + intros x y Hx Hy. apply list_elem_of_singleton in Hy as ->. apply Hnow. by apply list_elem_of_filter in Hx as [_ ?].
    + apply ascending_recent. apply StronglySorted_app. split; [done|]. split; [done|repeat constructor].
Qed.

(** C16: after a success, four failures in a row never open the circuit; the fifth opens it
    exactly if all five lie within a minute, and then every request is refused for half a
    minute and none after it. *)
Theorem opens_at_fifth_failure c ts t5
    (fresh : Circuit.window c = []) (in_order : ascending (ts ++ [t5])) (four : length ts = 4%nat) :
  Circuit.open_until (fail_all c ts) = Circuit.open_until c /\
  if bool_decide (Forall (fun t => t5 - t <= Circuit.window_duration) ts)
  then forall t, (Circuit.check t (fail_all c (ts ++ [t5]))).1 = Ok tt <-> t5 + Circuit.open_duration <= t
  else Circuit.open_until (fail_all c (ts ++ [t5])) = Circuit.open_until c.
Proof.
  apply ascending_app in in_order as (Hasc & _ & Hle). destruct (few_failures c ts fresh Hasc) as [Ho Hw]; [rewrite four; unfold Circuit.threshold; lia|].
  split; [done|]. destruct (Hw t5) as [Hr Hs]; [intros x Hx; apply Hle; [done|constructor]|].
  unfold fail_all in *. rewrite foldl_app. cbn [foldl]. unfold Circuit.record_failure. rewrite drop_old_sorted by done.
  set (c' := foldl _ c ts) in *. assert (recent t5 (Circuit.window c' ++ [t5]) = recent t5 ts ++ recent t5 [t5]) as -> by (by rewrite recent_app, Hr).
  assert (recent t5 [t5] = [t5]) as -> by (apply recent_whole; repeat constructor; unfold Circuit.window_duration, SECOND; lia).
  rewrite length_app. simpl (length [t5]). case_bool_decide as Hall.
  - rewrite recent_whole by done. rewrite four. cbn [Nat.add Nat.leb Circuit.threshold Circuit.open_until Circuit.check].
    intros t. unfold Circuit.check. cbn [Circuit.open_until]. destruct (t <? t5 + Circuit.open_duration) eqn:E; cbn [fst]; split; intros; try done; lia.
  - assert (length (recent t5 ts) < 4)%nat as Hl.
    { apply not_Forall_Exists in Hall; [|apply _]. apply Exists_exists in Hall as (x & Hx & Hn). rewrite <- four. by apply (length_filter_lt _ _ x). }
    destruct (_ <=? _)%nat eqn:E; [apply Nat.leb_le in E; unfold Circuit.threshold in E; lia|]. done.
Qed.

Lemma opens_only_after_failures_witness : exists u,
  opened_by [Failed_at 1; Failed_at 2; Checked_at 2; Failed_at 3; Failed_at 4; Failed_at 5] u /\ 6 < u.
Proof.
  apply (opens_only_after_failures [Failed_at 1; Failed_at 2; Checked_at 2; Failed_at 3; Failed_at 4; Failed_at 5] 6).
  - repeat constructor; lia.
  - vm_compute. discriminate.
Defined.

Lemma opens_at_fifth_failure_witness :
  (Circuit.check 6 (fail_all Circuit.new [1; 2; 3; 4; 5])).1 = Ok tt <-> 5 + Circuit.open_duration <= 6.
Proof.
  destruct (opens_at_fifth_failure Circuit.new [1; 2; 3; 4] 5) as [_ H]; [done|repeat constructor; lia|done|].
  rewrite bool_decide_eq_true_2 in H by (repeat constructor; vm_compute; discriminate). exact (H 6).
Defined.

(** ** Retries *)

Section Retries.
Variable one : nat -> Call str.

(** The dispatcher after the first [k] attempts. *)
Fixpoint after_attempts (k : nat) (d : Dispatcher) : Dispatcher :=
  match k with O => d | S k => (one k (after_attempts k d)).2 end.

Definition WAITS : list Z := [500; 1000; 2000; 4000].

(** What the attempts give when number [k] is the last. *)
Definition ends_at (later : Z) (d : Dispatcher) (k : nat) : Prop :=
  match one k (after_attempts k d) with
  | (Ok r, d') => attempts later one 0 MAX_ATTEMPTS [] d = (Ok (take k WAITS, r), (record_success d').2)
  | (Err e, d') =>
      (k = 4%nat \/ is_retryable e = false) /\ attempts later one 0 MAX_ATTEMPTS [] d = (Err e, (record_failure later d').2)
  | (Panic, _) => False
  end.

Lemma attempts_step later attempt left waits d :
  attempts later one attempt (S left) waits d =
  let waits := if (0 <? attempt)%nat then waits ++ [BASE_DELAY_MS * Z.shiftl 1 (Z.of_nat attempt - 1)] else waits in
  match one attempt d with
  | (Ok r, d) => (Ok (waits, r), (record_success d).2)
  | (Err e, d) =>
      if is_retryable e && (attempt + 1 <? MAX_ATTEMPTS)%nat then attempts later one (S attempt) left waits d
      else (Err e, (record_failure later d).2)
  | (Panic, d) => (Panic, d)
  end.
Proof. cbn [attempts]. by destruct (one attempt d) as [[]?]. Qed.

(** The attempts stop at the first that succeeds or fails for good, or at the fifth. *)
Lemma attempts_end later d (defined : forall k d, (one k d).1 <> Panic) :
  exists k, (k < MAX_ATTEMPTS)%nat /\ ends_at later d k /\
    forall j, (j < k)%nat -> exists e, (one j (after_attempts j d)).1 = Err e /\ is_retryable e = true.
Proof.
  assert (forall k, (k < 5)%nat -> (forall j, (j < k)%nat -> exists e, (one j (after_attempts j d)).1 = Err e /\ is_retryable e = true) ->
            attempts later one 0 MAX_ATTEMPTS [] d =
            attempts later one k (MAX_ATTEMPTS - k) (take (pred k) WAITS) (after_attempts k d)) as Hrun.
  { intros k. induction k as [|k IH]; intros Hk Hj; [done|]. rewrite IH by (lia || (intros j Hlt; apply Hj; lia)).
    destruct (Hj k) as (e & He & Hr); [lia|]. replace (MAX_ATTEMPTS - k)%nat with (S (MAX_ATTEMPTS - S k)) by (unfold MAX_ATTEMPTS; lia).
    rewrite attempts_step. cbn [after_attempts]. destruct (one k (after_attempts k d)) as [o d'] eqn:E. cbn [fst snd] in *. subst o.
    rewrite Hr. replace (k + 1 <? MAX_ATTEMPTS)%nat with true by (symmetry; apply Nat.ltb_lt; unfold MAX_ATTEMPTS; lia). cbn [andb].
    f_equal. destruct k as [|[|[|[|k]]]]; try done. lia. }
  assert (forall n k, (n + k = 5)%nat -> (0 < n)%nat ->
            (forall j, (j < k)%nat -> exists e, (one j (after_attempts j d)).1 = Err e /\ is_retryable e = true) ->
            exists k', (k' < MAX_ATTEMPTS)%nat /\ ends_at later d k' /\
              forall j, (j < k')%nat -> exists e, (one j (after_attempts j d)).1 = Err e /\ is_retryable e = true) as Hfind.
  { induction n as [|n IH]; intros k Hn Hpos Hj; [lia|]. specialize (Hrun k ltac:(lia) Hj).
    replace (MAX_ATTEMPTS - k)%nat with (S n) in Hrun by (unfold MAX_ATTEMPTS; lia). rewrite attempts_step in Hrun.
    pose proof (defined k (after_attempts k d)) as Hdef. destruct (one k (after_attempts k d)) as [[r|e|] d'] eqn:E; [| |done].
    - exists k. split; [unfold MAX_ATTEMPTS; lia|]. split; [|done]. unfold ends_at. rewrite E, Hrun. f_equal. f_equal. f_equal.
      destruct k as [|[|[|[|[|k]]]]]; try done. lia.
    - destruct (is_retryable e) eqn:Er; [|exists k; split; [unfold MAX_ATTEMPTS; lia|]; split; [|done]; unfold ends_at; rewrite E; by split; [right|]].
      destruct (decide (n = 0)%nat) as [->|].
      + exists k. assert (k = 4)%nat as -> by lia. split; [unfold MAX_ATTEMPTS; lia|]. split; [|done]. unfold ends_at. rewrite E. by split; [left|].
      + apply (IH (S k)); [lia|lia|]. intros j Hlt. destruct (decide (j = k)) as [->|]; [exists e; by rewrite E|]. apply Hj. lia. }
  apply (Hfind 5%nat O); [done|lia|]. intros j Hj. lia.
Qed.
End Retries.

Definition idle_dispatcher : Dispatcher := {| circuit := Circuit.new; last_usage := None |}.

Section Prompts.
Variable to_lowercase : str -> str.
Variable json_parse : str -> option Value.
Variable json_print : Value -> str.
Variable parse_error : str -> str.
Variable redact : str -> str.
Variable resolve_key : str -> outcome str str.
Variable config : LlmConfig.
Variable redact_enabled : bool.

(** One request for a prompt, and what its reply means. *)
Definition plain_send (p : ProviderConfig) (prompt : str) (post : Request -> HttpReply) : Call str :=
  match provider_type p with
  | Anthropic => send_anthropic to_lowercase json_parse parse_error resolve_key config post p prompt
  | _ => send_openai to_lowercase json_parse parse_error resolve_key config post p prompt
  end.
Definition answer (p : ProviderConfig) (prompt : str) (post : Request -> HttpReply) : outcome str AicError :=
  (plain_send p prompt post idle_dispatcher).1.

Lemma whole_body_defined chunks : whole_body chunks <> Panic.
Proof. induction chunks as [|[bytes|m] rest IH]; [done| |done]. cbn. by destruct (whole_body rest). Qed.

Lemma read_json_defined chunks : read_json json_parse parse_error chunks <> Panic.
Proof. unfold read_json. pose proof (whole_body_defined chunks). destruct (whole_body chunks) as [bytes| |]; [|done..]. by destruct (json_parse bytes). Qed.

(** A single request counts nothing, and what it gives does not depend on what came before. *)
Lemma plain_send_frame p prompt post d :
  exists u, plain_send p prompt post d = (answer p prompt post, {| circuit := circuit d; last_usage := u |}).
Proof.
  unfold answer, plain_send, send_anthropic, send_openai. destruct d as [c u0]. destruct (provider_type p); cbn [openai_compat_defaults];
    unfold bind, lift; (destruct (resolved_key resolve_key config p); [|by exists u0..]);
    (destruct (plain_post post _) as [chunks| |]; [|by exists u0..]); (destruct (read_json json_parse parse_error chunks); [|by exists u0..]);
    by eexists.
Qed.

Lemma answer_defined p prompt post : (forall raw, resolve_key raw <> Panic) -> answer p prompt post <> Panic.
Proof.
  intros Hk. unfold answer, plain_send, send_anthropic, send_openai.
  assert (resolved_key resolve_key config p <> Panic) as Hr.
  { unfold resolved_key. destruct (api_key p) as [raw|]; [|done]. specialize (Hk raw). by destruct (resolve_key raw). }
  destruct (provider_type p); cbn [openai_compat_defaults]; unfold bind, lift; (destruct (resolved_key resolve_key config p) as [key| |]; [|done..]);
    unfold plain_post; (destruct (post _) as [m|status chunks]; [done|]); (destruct (handle_http_status status); [done|]);
    pose proof (read_json_defined chunks) as Hj; (destruct (read_json json_parse parse_error chunks) as [j| |]; [|done..]);
    unfold record_usage, extract_openai_content, extract_anthropic_content; cbn [fst]; by destruct (as_str _).
Qed.

Lemma plain_attempts p prompt post k d :
  circuit (after_attempts (fun j => plain_send p prompt (post j)) k d) = circuit d.
Proof.
  induction k as [|k IH]; [done|]. cbn [after_attempts].
  destruct (plain_send_frame p prompt (post k) (after_attempts (fun j => plain_send p prompt (post j)) k d)) as [u ->]. exact IH.
Qed.

#[local] Notation send := (send to_lowercase json_parse parse_error redact resolve_key config redact_enabled).

Lemma send_attempts now later post run prompt d p :
  resolve_provider config = Ok p -> provider_type p <> CliBackend -> (Circuit.check now (circuit d)).1 = Ok tt ->
  send now later post run prompt d
  = attempts later (fun j => plain_send p (masked redact redact_enabled prompt) (post j)) 0 MAX_ATTEMPTS []
      {| circuit := (Circuit.check now (circuit d)).2; last_usage := last_usage d |}.
Proof.
  intros Hp Hcli Hc. unfold Dispatcher.send, bind at 1, lift at 1. rewrite Hp. unfold plain_send, check_circuit, bind.
  destruct (provider_type p); [..|done]; destruct (Circuit.check now (circuit d)) as [r c]; cbn [fst snd] in *; by subst r.
Qed.

(** How a prompt ends when the answer to request [k] is the last that counts: [c] is the circuit
    before, [c'] the one after. *)
Definition settled (answer_to : nat -> outcome str AicError) (later : Z) (c : Circuit.t) (k : nat)
    (r : outcome (list Z * str) AicError) (c' : Circuit.t) : Prop :=
  (k < 5)%nat /\
  (forall j, (j < k)%nat -> exists e, answer_to j = Err e /\ is_retryable e = true) /\
  match answer_to k with
  | Ok text => r = Ok (take k [500; 1000; 2000; 4000], text) /\ c' = Circuit.record_success c
  | Err e => r = Err e /\ (k = 4%nat \/ is_retryable e = false) /\ c' = Circuit.record_failure later c
  | Panic => False
  end.

Lemma settled_once answer_to later c k r c' answer_to' k' r' c'' :
  settled answer_to later c k r c' -> settled answer_to' later c k' r' c'' ->
  (forall j, (j <= k)%nat -> answer_to' j = answer_to j) -> r' = r /\ c'' = c'.
Proof.
  intros (Hk & Hj & He) (Hk' & Hj' & He') Hsame. assert (k' = k) as ->.
  { destruct (Nat.lt_trichotomy k' k) as [Hl|[?|Hl]]; [|done|]; exfalso.
    - destruct (Hj k' Hl) as (e & E & Hr). rewrite Hsame, E in He' by lia. destruct He' as (_ & [?|Hn] & _); [lia|congruence].
    - destruct (Hj' k Hl) as (e & E & Hr). rewrite Hsame in E by lia. rewrite E in He. destruct He as (_ & [?|Hn] & _); [lia|congruence]. }
  rewrite Hsame in He' by lia. destruct (answer_to k); [| |done]; naive_solver.
Qed.

Lemma send_settled now later post run prompt d p
    (provider : resolve_provider config = Ok p) (http : provider_type p <> CliBackend)
    (let_through : (Circuit.check now (circuit d)).1 = Ok tt) (keys_read : forall raw, resolve_key raw <> Panic) :
  let w := send now later post run prompt d in
  exists k, settled (fun j => answer p (masked redact redact_enabled prompt) (post j)) later (Circuit.check now (circuit d)).2 k w.1 (circuit w.2).
Proof.
  cbv zeta. rewrite (send_attempts now later post run prompt d p) by done. set (text := masked _ _ _). set (d0 := {| circuit := _ |}).
  destruct (attempts_end (fun j => plain_send p text (post j)) later d0) as (k & Hk & He & Hj).
  { intros k d1. destruct (plain_send_frame p text (post k) d1) as [u ->]. by apply answer_defined. }
  exists k. split; [done|]. split.
  - intros j Hlt. destruct (Hj j Hlt) as (e & E & Hr). exists e. split; [|done].
    destruct (plain_send_frame p text (post j) (after_attempts (fun j => plain_send p text (post j)) j d0)) as [u E']. by rewrite E' in E.
  - unfold ends_at in He. pose proof (plain_attempts p text post k d0) as Hc.
    destruct (plain_send_frame p text (post k) (after_attempts (fun j => plain_send p text (post j)) k d0)) as [u E']. rewrite E', Hc in He.
    destruct (answer p text (post k)) as [t|e|]; [by rewrite He| |done]. destruct He as [Hn He]. by rewrite He.
Qed.

(** C36: a prompt for an HTTP provider, when the circuit lets it through, ends with the answer to
    one of at most five requests: every request before it was answered in a way that may pass
    and counted nothing, the waits before them were 0.5, 1, 2 and 4 s, at most 7.5 s in all,
    and no later answer matters. When it succeeds the failures are forgotten; when it fails,
    for good or at the fifth request, exactly one failure is counted. *)
Theorem send_bounded now later post run prompt d p
    (provider : resolve_provider config = Ok p) (http : provider_type p <> CliBackend)
    (let_through : (Circuit.check now (circuit d)).1 = Ok tt) (keys_read : forall raw, resolve_key raw <> Panic) :
  let answer_to post j := answer p (masked redact redact_enabled prompt) (post j) in
  let w := send now later post run prompt d in
  match w.1 with Ok (waits, _) => foldr Z.add 0 waits <= 7500 | _ => True end /\
  exists k, settled (answer_to post) later (Circuit.check now (circuit d)).2 k w.1 (circuit w.2) /\
    forall post', (forall j, (j <= k)%nat -> answer_to post' j = answer_to post j) ->
      let w' := send now later post' run prompt d in w'.1 = w.1 /\ circuit w'.2 = circuit w.2.
Proof.
  cbv zeta. destruct (send_settled now later post run prompt d p provider http let_through keys_read) as [k Hk]. split.
  { destruct Hk as (Hk & _ & He). destruct (answer _ _ (post k)); [destruct He as [-> _]|by destruct He as [-> _]|done].
    destruct k as [|[|[|[|[|k]]]]]; [vm_compute; done..|lia]. }
  exists k. split; [exact Hk|]. intros post' Hsame.
  destruct (send_settled now later post' run prompt d p provider http let_through keys_read) as [k' Hk'].
  by apply (settled_once _ _ _ _ _ _ _ _ _ _ Hk Hk').
Qed.
End Prompts.

(** ** Masking *)

Lemma get_set_field key v fields : get key (set_field key v fields) = Some v.
Proof.
  induction fields as [|[k old] fields IH]; cbn [set_field get]; [by rewrite bool_decide_eq_true_2|].
  case_bool_decide; cbn [get]; [by rewrite bool_decide_eq_true_2|by rewrite bool_decide_eq_false_2].
Qed.

Lemma get_set_field_ne key key' v fields : key <> key' -> get key' (set_field key v fields) = get key' fields.
Proof.
  intros Hk. induction fields as [|[k old] fields IH]; cbn [set_field get]; [by rewrite bool_decide_eq_false_2|].
  case_bool_decide as E; cbn [get]; subst; [by rewrite !bool_decide_eq_false_2|by rewrite IH].
Qed.

Lemma get_str_mask_field redact key key' j :
  get_str (mask_field redact key j) key' = if decide (key = key') then redact <$> get_str j key else get_str j key'.
Proof.
  unfold mask_field. destruct j; try (destruct (get_str _ key) eqn:E; try discriminate E; destruct (decide _); by subst).
  destruct (get_str (VObject fields) key) as [c|] eqn:E; [|destruct (decide _) as [<-|]; [by rewrite E|done]].
  unfold get_str, value_get. cbn [as_object mbind option_bind]. destruct (decide _) as [<-|Hk].
  - rewrite get_set_field. done.
  - by rewrite get_set_field_ne.
Qed.

Definition text_keys : list str := [lit "text"; lit "content"].
Definition messages_of (body : Value) : list Value := default [] (as_array (at_key body (lit "messages"))).
Definition blocks_of (message : Value) : list Value := default [] (value_get message (lit "content") ≫= as_array).

(** The strings of a conversation are strings of Rust. *)
Definition message_text (m : ChatMessage str) : str :=
  match m with System c | User c | Tool _ c => c | Assistant content _ => default [] content end.
Definition proper (messages : list (ChatMessage str)) : Prop := Forall (fun m => utf8_valid (message_text m) = true) messages.

Definition proper_block (b : Value) : Prop := forall k c, k ∈ text_keys -> get_str b k = Some c -> utf8_valid c = true.

Lemma text_block_proper c : utf8_valid c = true -> proper_block (text_block c).
Proof. intros Hc k s Hk. unfold text_keys in Hk. rewrite !elem_of_cons in Hk. destruct Hk as [->|[->|Hk%not_elem_of_nil]]; [|done|done]. by intros [= <-]. Qed.

Lemma result_block_proper id c : utf8_valid c = true -> proper_block (tool_result_block id c).
Proof. intros Hc k s Hk. unfold text_keys in Hk. rewrite !elem_of_cons in Hk. destruct Hk as [->|[->|Hk%not_elem_of_nil]]; [done| |done]. by intros [= <-]. Qed.

Lemma use_block_proper json_parse call : proper_block (tool_use_block json_parse call).
Proof. intros k s Hk. unfold text_keys in Hk. rewrite !elem_of_cons in Hk. by destruct Hk as [->|[->|Hk%not_elem_of_nil]]. Qed.

Lemma assistant_blocks_proper json_parse content calls :
  utf8_valid (default [] content) = true -> Forall proper_block (assistant_blocks json_parse content calls).
Proof.
  intros Hc. apply Forall_app. split.
  - destruct content as [[|b c]|]; [constructor| |constructor]. constructor; [by apply text_block_proper|constructor].
  - apply Forall_fmap, Forall_true. intros call. apply use_block_proper.
Qed.

Definition proper_message (j : Value) : Prop := Forall proper_block (blocks_of j).

Lemma flush_user_proper pending out :
  Forall proper_block pending -> Forall proper_message out -> Forall proper_message (flush_user pending out).
Proof. intros Hp Ho. unfold flush_user. destruct pending; [done|]. apply Forall_app. split; [done|]. constructor; [done|constructor]. Qed.

Lemma anthropic_loop_proper json_parse messages : proper messages -> forall system out pending,
  Forall (fun s => utf8_valid s = true) system -> Forall proper_message out -> Forall proper_block pending ->
  Forall (fun s => utf8_valid s = true) (anthropic_loop json_parse messages system out pending).1 /\
  Forall proper_message (anthropic_loop json_parse messages system out pending).2.
Proof.
  induction 1 as [|m messages Hm _ IH]; intros system out pending Hs Ho Hp; cbn [anthropic_loop].
  - split; [done|]. by apply flush_user_proper.
  - destruct m as [c|c|content calls|call_id c]; cbn [message_text] in Hm; apply IH; try done.
    + apply Forall_app. split; [done|]. by constructor.
    + apply Forall_app. split; [done|]. constructor; [by apply text_block_proper|constructor].
    + apply Forall_app. split; [by apply flush_user_proper|]. constructor; [|constructor]. by apply assistant_blocks_proper.
    + apply Forall_app. split; [done|]. constructor; [by apply result_block_proper|constructor].
Qed.

Lemma utf8_valid_join sep parts :
  utf8_valid sep = true -> Forall (fun s => utf8_valid s = true) parts -> utf8_valid (join sep parts) = true.
Proof.
  intros Hs. induction 1 as [|p parts Hp H IH]; [done|]. cbn [join]. destruct parts; [done|].
  apply utf8_valid_app; [done|]. by apply utf8_valid_app.
Qed.

Section Masks.
Variable is_digit is_word : str -> bool.
Variable match_at : Regex -> option str -> list str -> option nat.
Hypothesis engine : EngineLaws is_word match_at.
Variable to_lowercase : str -> str.
Variable json_parse : str -> option Value.
Variable config : LlmConfig.

Definition redact_text (s : str) : str := (Redaction.redact is_digit match_at s).1.

(** Nothing that reads as an e-mail address or a bearer token. *)
Definition impersonal (c : str) : Prop := forall w, personal is_word w -> ~ inside w (chars c).

Lemma redact_text_impersonal s : utf8_valid s = true -> impersonal (redact_text s).
Proof.
  intros Hs w Hw. unfold redact_text. destruct (redact_whole is_digit is_word match_at s engine Hs) as [_ ->].
  by apply (personal_cleared is_digit is_word match_at).
Qed.

Lemma blocks_masked j b k c :
  proper_message j -> b ∈ blocks_of (redact_anthropic_content redact_text j) -> k ∈ text_keys -> get_str b k = Some c -> impersonal c.
Proof.
  intros Hj Hb Hk Hc. unfold redact_anthropic_content in Hb. destruct j as [|x|x|x|l|fields]; try (by apply not_elem_of_nil in Hb).
  destruct (value_get (VObject fields) (lit "content") ≫= as_array) as [blocks|] eqn:E.
  2:{ unfold blocks_of in Hb. rewrite E in Hb. by apply not_elem_of_nil in Hb. }
  unfold blocks_of, value_get in Hb. cbn [as_object mbind option_bind] in Hb. rewrite get_set_field in Hb. cbn in Hb.
  apply list_elem_of_fmap in Hb as (b0 & -> & Hb0). unfold proper_message, blocks_of in Hj. rewrite E in Hj.
  rewrite Forall_forall in Hj. specialize (Hj b0 Hb0).
  assert (get_str (mask_field redact_text (lit "content") (mask_field redact_text (lit "text") b0)) k = redact_text <$> get_str b0 k) as E2.
  { rewrite get_str_mask_field. unfold text_keys in Hk. rewrite !elem_of_cons in Hk. destruct Hk as [->|[->|[]%not_elem_of_nil]].
    - rewrite decide_False by done. by rewrite get_str_mask_field, decide_True.
    - rewrite decide_True by done. by rewrite get_str_mask_field, decide_False. }
  change (get_str (mask_field redact_text (lit "content") (mask_field redact_text (lit "text") b0)) k = Some c) in Hc. rewrite E2 in Hc. destruct (get_str b0 k) as [s|] eqn:Es; [|done]. injection Hc as <-.
  apply redact_text_impersonal. by apply (Hj k).
Qed.

(** C6: with masking on, nothing that reads as an e-mail address or a bearer token goes out in
    the texts of a conversation: not in the content of an OpenAI message, not in a text or a
    tool's result of an Anthropic one, and not in the Anthropic system prompt. *)
Theorem requests_masked p key stream messages tools (strings : proper messages) :
  (forall j c, j ∈ messages_of (body (openai_request to_lowercase redact_text config true p key stream messages tools)) ->
     get_str j (lit "content") = Some c -> impersonal c) /\
  (forall j b k c, j ∈ messages_of (body (anthropic_request to_lowercase json_parse redact_text config true p key stream messages tools)) ->
     b ∈ blocks_of j -> k ∈ text_keys -> get_str b k = Some c -> impersonal c) /\
  (forall c, get_str (body (anthropic_request to_lowercase json_parse redact_text config true p key stream messages tools)) (lit "system") = Some c ->
     impersonal c).
Proof.
  unfold openai_request, anthropic_request, to_anthropic_request.
  destruct (openai_compat_defaults (provider_type p)) as [de dm].
  pose proof (anthropic_loop_proper json_parse messages strings [] [] []) as Hl.
  destruct (anthropic_loop json_parse messages [] [] []) as [system out]. destruct Hl as [Hsys Hout]; [constructor..|]. cbn [fst snd] in *.
  split; [|split].
  - intros j c Hj Hc. unfold messages_of in Hj. cbn in Hj. apply list_elem_of_fmap in Hj as (m & -> & Hm).
    unfold openai_wire_message in Hc. rewrite get_str_mask_field, decide_True in Hc by done.
    destruct (get_str (to_openai_json m) (lit "content")) as [s|] eqn:Es; [|done]. injection Hc as <-. apply redact_text_impersonal.
    unfold proper in strings. rewrite Forall_forall in strings. specialize (strings m Hm).
    destruct m as [t|t|content calls|cid t]; cbn [message_text] in strings; try (injection Es as <-; done).
    destruct content; cbn in Es; [injection Es as <-; done|done].
  - intros j b k c Hj Hb Hk Hc. unfold messages_of in Hj. cbn in Hj. apply list_elem_of_fmap in Hj as (j0 & -> & Hj0).
    rewrite Forall_forall in Hout. by apply (blocks_masked j0 b k c); [apply Hout|..].
  - intros c Hc. destruct system as [|s0 system]; [by destruct stream, tools|].
    assert (c = redact_text (join [x0a; x0a] (s0 :: system))) as ->; [|by apply redact_text_impersonal, utf8_valid_join].
    destruct stream; injection Hc as <-; done.
Qed.
End Masks.

(** ** What is not counted *)

Section Uncounted.
Variable to_lowercase : str -> str.
Variable json_parse : str -> option Value.
Variable json_print : Value -> str.
Variable parse_error : str -> str.
Variable redact : str -> str.
Variable resolve_key : str -> outcome str str.
Variable config : LlmConfig.
Variable redact_enabled : bool.

(** an answer whose body breaks off fails the request, but only a streamed request counts
    it: however often it happens, the breaker of an unstreamed conversation stays as it is. *)
Theorem lost_bodies_not_counted now later post p key messages tools d m
    (has_key : resolved_key resolve_key config p = Ok key)
    (closed : Circuit.open_until (circuit d) = None)
    (breaks : forall req, post req = Answered 200 [Broken m]) :
  let unstreamed := send_messages_openai to_lowercase json_parse parse_error redact resolve_key config redact_enabled now later post p messages tools d in
  let streamed := stream_messages_openai to_lowercase json_parse redact resolve_key config redact_enabled now later post p messages tools d in
  (exists e, unstreamed.1 = Err e) /\ circuit unstreamed.2 = circuit d /\
  (exists e, streamed.1 = Err e) /\ circuit streamed.2 = Circuit.record_failure later (circuit d).
Proof.
  unfold send_messages_openai, stream_messages_openai, bind, check_circuit, Circuit.check, lift, counted_post.
  rewrite closed, has_key. cbn. rewrite !breaks. cbn. destruct d as [c u]. cbn in *. split; [by eexists|]. split; [done|]. split; [by eexists|done].
Qed.

(** a streamed conversation leaves the usage that an earlier call reported. *)
Theorem streamed_usage_stale now later post messages tools d :
  (forall p, resolve_provider config = Ok p -> provider_type p <> CliBackend) ->
  last_usage (send_messages_streaming to_lowercase json_parse json_print parse_error redact resolve_key config redact_enabled
                now later post messages tools d).2 = last_usage d.
Proof.
  intros Hp. unfold send_messages_streaming, bind, lift. destruct (resolve_provider config) as [p| |]; [|done..].
  specialize (Hp p eq_refl). unfold stream_messages_openai, stream_messages_anthropic, bind, lift, check_circuit, counted_post, counted, fail_counted, record_failure, record_success, with_circuit, bind, lift, ret.
  destruct (provider_type p); try done; destruct (Circuit.check now (circuit d)) as [[[]| |] c]; cbn; try done;
    destruct (resolved_key resolve_key config p); try done; destruct (post _); cbn; try done; destruct (handle_http_status status); cbn; try done;
    by destruct (stream_result _).
Qed.
End Uncounted.

(** ** Witnesses *)

Definition same (s : str) : str := s.

Definition demo_provider : ProviderConfig :=
  {| provider_type := OpenAiCompatible; endpoint := None; api_key := Some (lit "k"); model := None; cli_path := None; cli_args := None |}.
Definition demo_config : LlmConfig := {| default_provider := lit "p"; providers := {[lit "p" := demo_provider]}; request_timeout_secs := 120 |}.
Definition demo_dispatcher : Dispatcher :=
  {| circuit := Circuit.new; last_usage := Some {| input_tokens := 120; output_tokens := 7 |} |}.

Lemma requests_masked_witness :
  Forall (fun j => forall c, get_str j (lit "content") = Some c -> impersonal word1 c)
    (messages_of (body (openai_request same (redact_text digit1 (backtrack word1)) demo_config true demo_provider (lit "k") false
                          [User (lit "mail bob@example.com")] []))).
Proof.
  apply Forall_forall. intros j Hj c. revert j c Hj.
  apply (requests_masked digit1 word1 (backtrack word1) (backtrack_laws word1) same (fun _ => None)). by repeat constructor.
Defined.

Lemma lost_bodies_not_counted_witness :
  circuit (stream_messages_openai same (fun _ => None) same Ok demo_config false 1 2 (fun _ => Answered 200 [Broken []]) demo_provider [] [] demo_dispatcher).2
  = Circuit.record_failure 2 Circuit.new.
Proof.
  apply (lost_bodies_not_counted same (fun _ => None) same same Ok demo_config false 1 2 (fun _ => Answered 200 [Broken []]) demo_provider (lit "k") [] [] demo_dispatcher []);
    done.
Defined.

Lemma streamed_usage_stale_witness :
  last_usage (send_messages_streaming same (fun _ => None) (fun _ => []) same same Ok demo_config false 1 2 (fun _ => NotSent []) [] [] demo_dispatcher).2
  = Some {| input_tokens := 120; output_tokens := 7 |}.
Proof.
  apply (streamed_usage_stale same (fun _ => None) (fun _ => []) same same Ok demo_config false 1 2 (fun _ => NotSent []) [] [] demo_dispatcher).
  intros p. unfold resolve_provider, demo_config. cbn [providers default_provider]. rewrite lookup_singleton_eq. cbn. by intros [= <-].
Defined.

Definition demo_reply : Value :=
  VObject [(lit "choices", VArray [VObject [(lit "message", VObject [(lit "content", VString (lit "answer"))])]])].

(** Twice too busy, then an answer. *)
Definition flaky (j : nat) (_ : Request) : HttpReply := match j with O | S O => Answered 503 [] | _ => Answered 200 [] end.

Definition demo_send : outcome (list Z * str) AicError * Dispatcher :=
  send same (fun _ => Some demo_reply) same same Ok demo_config true 0 9 flaky (fun _ _ => CliAbsent) (lit "q") idle_dispatcher.

Lemma send_bounded_witness : exists k,
  settled (fun j => answer same (fun _ => Some demo_reply) same Ok demo_config demo_provider (lit "q") (flaky j)) 9 Circuit.new k
    demo_send.1 (circuit demo_send.2).
Proof.
  destruct (send_bounded same (fun _ => Some demo_reply) same same Ok demo_config true 0 9 flaky (fun _ _ => CliAbsent) (lit "q")
    idle_dispatcher demo_provider) as (_ & k & Hk & _); [by vm_compute|done|done|done|]. exists k. exact Hk.
Defined.

Example demo_send_answers : demo_send.1 = Ok ([500; 1000], lit "answer").
Proof. by vm_compute. Qed.
