(* ===== verification/LogClassify.v ===== *)
(** * Logs handed to a classifier, and the record of tool calls

    [aic-client/src/agent/session.rs], the tool [jev_classify_logs], and
    [agent/tool_record.rs]: which log text the tool takes, how it is bounded and masked, and
    what is kept of earlier calls. The classifier, the printer of JSON, the texts of I/O
    errors and the masking are parameters; the file system is a [Tree].

    [excerpt_bounded]: at most 200 lines and 16 KiB, masked. [log_file_confined]: a configured
    file is read only where neither its name nor its target is sensitive, and only its end.
    [excerpt_from_record]: an excerpt is the result of an earlier call that read a log.
    [log_path_leaves_directory]: what counts as a path of a log directory. *)

From S2P Require Import Prelude RustStr JsonValue FileTree Chat RunCommand.
#[local] Open Scope outcome_scope.

Definition JEV_LOG_MAX_LINES : nat := 200.
Definition JEV_LOG_MAX_BYTES : nat := 16 * 1024.
Definition JEV_LOG_FILE_TAIL_BYTES : Z := 1024 * 1024.
Definition MAX_TOOL_RESULT_BYTES : nat := 64 * 1024.

Inductive LogClassificationSource := File (label : str) | Probe (id : str) | Excerpt (source text : str).

Record BoundedLogExcerpt := { text : str; n_lines : nat; truncated : bool }.

(** [value.get(key).is_some()] *)
Definition has_key (v : Value) (key : str) : bool := bool_decide (is_Some (value_get v key)).

Definition parse_log_classification_source (args : Value) (files : list (str * str)) : outcome LogClassificationSource str :=
  guard negb (has_key args (lit "path")) else lit "파일 경로는 받지 않습니다. configured file label을 사용하세요." in
  let? source := ok_or (get_str args (lit "source")) (lit "필수 인자 'source'가 없거나 문자열이 아닙니다.") in
  let fields := length (filter (fun k => has_key args k = true) [lit "label"; lit "probe"; lit "excerpt"]) in
  guard (fields =? 1)%nat else lit "정확히 하나의 source 값(label, probe, excerpt)만 지정하세요." in
  if bool_decide (source = lit "file") then
    let? label := ok_or (get_str args (lit "label")) (lit "file source에는 label이 필요합니다.") in
    let matches := length (filter (fun f => f.1 = label) files) in
    guard negb (matches =? 0)%nat else lit "등록되지 않은 file label입니다: " ++ label in
    guard (matches <=? 1)%nat else lit "file label이 중복되어 모호합니다: " ++ label in
    Ok (File label)
  else if bool_decide (source = lit "probe") then
    let? id := ok_or (get_str args (lit "probe")) (lit "probe source에는 probe가 필요합니다.") in
    guard bool_decide (id ∈ [lit "journal_errors"; lit "dmesg_oom"]) else lit "허용되지 않은 system probe입니다: " ++ id in
    Ok (Probe id)
  else if bool_decide (source = lit "excerpt") then
    let? src := ok_or (s ← get_str args (lit "excerpt_source");
                       if bool_decide (s ∈ [lit "loki_query"; lit "run_command"]) then Some s else None)
                  (lit "excerpt_source는 loki_query 또는 run_command이어야 합니다.") in
    let? text := ok_or (get_str args (lit "excerpt")) (lit "excerpt source에는 excerpt가 필요합니다.") in
    Ok (Excerpt src text)
  else Err (lit "알 수 없는 source입니다: " ++ source).

(** The longest prefix of at most [max] bytes that ends between characters. *)
Fixpoint boundary_below (end_ : nat) (s : str) : nat :=
  match end_ with
  | O => O
  | S e => if is_char_boundary s end_ then end_ else boundary_below e s
  end.

Definition cap_log_utf8 (value : str) (max : nat) : str :=
  if (length value <=? max)%nat then value else take (boundary_below max value) value.

(** The commands of the probes that a log may come from and of those that [/health] runs
    ([agent/probes.rs]). *)
Definition probe_command (linux : bool) (id : str) : option str :=
  if bool_decide (id = lit "journal_errors") then
    Some (if linux then lit "journalctl -p err --since today -n 50 --no-pager" else lit "dmesg | tail -n 50")
  else if bool_decide (id = lit "dmesg_oom") then
    Some (if linux then lit "dmesg -T | grep -i oom | head -n 30" else lit "dmesg | grep -i oom | head -n 30")
  else if bool_decide (id = lit "disk") then Some (lit "df -h")
  else if bool_decide (id = lit "inodes") then Some (lit "df -i")
  else if bool_decide (id = lit "fd") then
    Some (if linux then lit "sysctl fs.file-nr fs.file-max" else lit "sysctl kern.num_files kern.maxfiles")
  else if bool_decide (id = lit "proc_states") then
    Some (if linux then lit "ps -eo stat | sort | uniq -c | sort -rn | head -n 15"
          else lit "ps -axo stat | sort | uniq -c | sort -rn | head -n 15")
  else if bool_decide (id = lit "failed_units") then
    Some (if linux then lit "systemctl --failed --no-pager --no-legend | head -n 40" else lit "echo")
  else if bool_decide (id = lit "ip") then Some (if linux then lit "ip -br addr" else lit "ifconfig | head -n 80")
  else if bool_decide (id = lit "route") then Some (if linux then lit "ip route | head -n 20" else lit "netstat -rn | head -n 30")
  else if bool_decide (id = lit "dns_resolver") then
    Some (if linux then lit "cat /etc/resolv.conf" else lit "scutil --dns | head -n 40")
  else None.

(** ** Records of tool calls *)

Record ToolRecord := {
  corr : str;
  r_name : str;
  command_display : option str;
  status : str;
  exit_ : option str;
  duration_ms : option str;
  r_truncated : bool;
  output : str;
}.

Definition TOOL_RECORD_CAP : nat := 20.

Definition extract_kv (s key : str) : option str := i ← find_sub key s; Some (until_ws (drop (i + length key) s)).

Definition push_record (ring : list ToolRecord) (rec : ToolRecord) : list ToolRecord :=
  (if (TOOL_RECORD_CAP <=? length ring)%nat then drop 1 ring else ring) ++ [rec].

Definition extract_command_line (output : str) : option str :=
  head (omap (fun l => if starts_with (lit "command: ") l then Some (drop (length (lit "command: ")) l) else None) (lines output)).

Section Logs.
Variable to_lowercase : str -> str.
Variable redact : str -> str.

Definition from_result (corr name : str) (command_display : option str) (output : str) : ToolRecord :=
  let output := redact output in
  {| corr := corr;
     r_name := name;
     command_display := redact <$> command_display;
     status := if starts_with (lit "[blocked]") output then lit "blocked"
               else if starts_with (lit "[denied]") output then lit "denied"
               else if starts_with (lit "[tool error]") output then lit "error"
               else if contains (lit "exit_code=") output then lit "executed"
               else lit "ok";
     exit_ := extract_kv output (lit "exit_code=");
     duration_ms := extract_kv output (lit "duration_ms=");
     r_truncated := bool_decide (extract_kv output (lit "truncated=") = Some (lit "true")) || contains (lit "output was truncated") output;
     output := output |}.

(** ** Bounds *)

Definition bound_and_redact_log (raw : str) (source_truncated : bool) : BoundedLogExcerpt :=
  let all_lines := lines raw in
  let line_truncated := (JEV_LOG_MAX_LINES <? length all_lines)%nat in
  let selected := lastn JEV_LOG_MAX_LINES all_lines in
  let redacted := redact (join [x0a] selected) in
  let byte_truncated := (JEV_LOG_MAX_BYTES <? length redacted)%nat in
  let text := cap_log_utf8 redacted JEV_LOG_MAX_BYTES in
  {| text := text; n_lines := length (lines text); truncated := source_truncated || line_truncated || byte_truncated |}.

(** ** Configured log files *)

(** [path.components()], with the leading [.] that it keeps. *)
Definition path_components (path : str) : list str :=
  (if bool_decide (head (split_byte x2f path) = Some (lit ".")) then [lit "."] else []) ++ comps path.

Definition log_path_is_sensitive (path : str) : bool :=
  let lower := to_lowercase path in
  let components := filter (fun c => c <> []) (to_lowercase <$> path_components path) in
  existsb (fun c => bool_decide (c ∈ SENSITIVE_DIR_COMPONENTS)) components
  || existsb (fun prefix => bool_decide (lower = prefix) || starts_with (prefix ++ lit "/") lower)
       [lit "/etc/shadow"; lit "/etc/gshadow"; lit "/etc/sudoers"; lit "/etc/ssl/private"]
  || (bool_decide (head components = Some (lit "proc")) && bool_decide (last components = Some (lit "environ")))
  || match file_name path with Some name => is_secret_file to_lowercase name | None => false end.

(** What is at a path itself, links not followed. *)
Definition lstat (fs : Tree) (path : str) (at_ : list str) : option node :=
  if dir_form path then canonicalize_text fs true at_ ≫= lookup_node fs
  else match rev at_ with
       | [] => Some NDir
       | name :: rparent =>
           if bool_decide (name = DOTDOT) then FileTree.canonicalize fs at_ ≫= lookup_node fs
           else base ← FileTree.canonicalize fs (rev rparent); lookup_node fs (base ++ [name])
       end.

Section Files.
Variable fs : Tree.
(** The directory of the process. *)
Variable cwd : Loc.
(** The text of an I/O error. *)
Variable io_error : str.

Definition absolute (path : str) : list str := if is_absolute path then comps path else cwd ++ comps path.

Definition canonical_log_file (path : str) : outcome Loc str :=
  guard negb (log_path_is_sensitive path) else lit "민감 경로의 로그 파일은 읽지 않습니다." in
  let? before := ok_or (lstat fs path (absolute path)) (lit "로그 파일 metadata 조회 실패: " ++ io_error) in
  let? _ := match before with
            | NLink _ => Err (lit "symlink 로그 파일은 읽지 않습니다.")
            | NDir => Err (lit "로그 경로가 regular file이 아닙니다.")
            | NFile _ => Ok tt
            end in
  let? canonical := ok_or (canonicalize_text fs (dir_form path) (absolute path)) (lit "로그 파일 경로 확인 실패: " ++ io_error) in
  guard negb (log_path_is_sensitive (render canonical)) else lit "민감 경로(symlink 대상)의 로그 파일은 읽지 않습니다." in
  let? meta := ok_or (lookup_node fs canonical) (lit "정규화한 로그 파일 metadata 조회 실패: " ++ io_error) in
  match meta with
  | NFile _ => Ok canonical
  | _ => Err (lit "정규화한 로그 대상이 regular file이 아닙니다.")
  end.

(** The last part of the file; whether more came before it. *)
Definition read_configured_log (path : str) : outcome (str * bool) str :=
  let? path := canonical_log_file path in
  let? bytes := match lookup_node fs path with
                | Some (NFile bytes) => Ok bytes
                | _ => Err (lit "로그 파일을 read-only로 열 수 없습니다: " ++ io_error)
                end in
  let start := sat_sub (Z.of_nat (length bytes)) JEV_LOG_FILE_TAIL_BYTES in
  Ok (from_utf8_lossy (drop (Z.to_nat start) bytes), 0 <? start).
End Files.

(** ** Excerpts of earlier results *)

Definition command_basename (command : str) : option (str * list str) :=
  match split_whitespace command with
  | [] => None
  | head :: rest => basename ← file_name head; Some (basename, rest)
  end.

Definition is_count (s : str) : bool := bool_decide (is_Some (parse_u64 s)).
Definition all_digits (s : str) : bool := forallb is_ascii_digit s.

(** The files of a [tail] command, unless an option is not understood. *)
Fixpoint tail_paths (args : list str) : option (list str) :=
  match args with
  | [] => Some []
  | a :: rest =>
      if bool_decide (a ∈ [lit "-n"; lit "--lines"; lit "-c"; lit "--bytes"]) then
        match rest with
        | [] => None
        | value :: rest => if is_count value then tail_paths rest else None
        end
      else if bool_decide (a = lit "--") then Some rest
      else if starts_with (lit "--lines=") a || starts_with (lit "--bytes=") a then
        match split_once x3d a with
        | Some (_, count) => if is_count count then tail_paths rest else None
        | None => None
        end
      else if starts_with (lit "-") a then
        if (length a <? 2)%nat || negb (all_digits (drop 1 a)) then None else tail_paths rest
      else (a ::.) <$> tail_paths rest
  end.

Definition tail_reads_log (args : list str) : bool :=
  match tail_paths args with
  | Some [path] =>
      if bool_decide (path = lit "-") || log_path_is_sensitive path then false
      else
        let lower := to_lowercase path in
        starts_with (lit "/var/log/") lower || starts_with (lit "/private/var/log/") lower
        || match file_name path with
           | Some name => let name := to_lowercase name in ends_with (lit ".log") name || contains (lit ".log.") name
           | None => false
           end
  | _ => false
  end.

(** The loop over the arguments of [grep]: how many patterns, unless an option is unknown. *)
Fixpoint grep_patterns (args : list str) : option nat :=
  match args with
  | [] => Some O
  | a :: rest =>
      if bool_decide (a ∈ [lit "-i"; lit "-v"; lit "-E"; lit "-F"; lit "-n"; lit "-c"; lit "-o"; lit "-w"; lit "-x";
                           lit "--color=never"]) then grep_patterns rest
      else if starts_with (lit "-") a then None
      else S <$> grep_patterns rest
  end.

Definition safe_log_filter (segment : str) : bool :=
  match command_basename segment with
  | None => false
  | Some (head, args) =>
      if bool_decide (head = lit "grep") then bool_decide (grep_patterns args = Some 1%nat)
      else if bool_decide (head ∈ [lit "head"; lit "tail"]) then
        match args with
        | [] => true
        | [opt; count] => bool_decide (opt ∈ [lit "-n"; lit "--lines"]) && is_count count
        | [count] => starts_with (lit "-") count && (1 <? length count)%nat && all_digits (drop 1 count)
        | _ => false
        end
      else false
  end.

Definition FORBIDDEN : list byte := [x3b; x26; x24; x60; x3e; x3c; x5c; x27; x22; x0a; x0d].

Definition journalctl_arg_reads_file (arg : str) : bool :=
  bool_decide (arg ∈ [lit "--file"; lit "--directory"; lit "--root"; lit "-D"])
  || starts_with (lit "--file=") arg || starts_with (lit "--directory=") arg || starts_with (lit "--root=") arg
  || (starts_with (lit "-D") arg && (2 <? length arg)%nat).

Definition dmesg_arg_reads_file (arg : str) : bool :=
  bool_decide (arg ∈ [lit "--file"; lit "-F"]) || starts_with (lit "--file=") arg.

Definition log_reader_command_allowed (command : str) : bool :=
  if existsb (fun c => has c command) FORBIDDEN then false
  else match trim <$> split_byte x7c command with
       | [] => false
       | first :: segments =>
           match command_basename first with
           | None => false
           | Some (head, args) =>
               (if bool_decide (head = lit "tail") then tail_reads_log args
                else if bool_decide (head = lit "journalctl") then negb (existsb journalctl_arg_reads_file args)
                else if bool_decide (head = lit "dmesg") then negb (existsb dmesg_arg_reads_file args)
                else false)
               && forallb safe_log_filter segments
           end
       end.

Definition verified_log_excerpt (records : list ToolRecord) (source excerpt : str) : outcome (str * bool) str :=
  guard (length excerpt <=? MAX_TOOL_RESULT_BYTES)%nat else lit "도구 결과 크기 상한을 넘는 발췌문은 사용할 수 없습니다." in
  let redacted := redact excerpt in
  let? record := ok_or (last (filter (fun r => r_name r = source /\ output r = redacted) records))
                   (lit "현재 세션에서 일치하는 로그 도구 결과를 찾을 수 없습니다.") in
  guard negb (bool_decide (status record ∈ [lit "error"; lit "blocked"; lit "denied"]))
    else lit "오류가 난 도구 결과는 로그 분류에 사용할 수 없습니다." in
  let? _ := (if bool_decide (source = lit "run_command") then
               guard bool_decide (status record = lit "executed") else lit "실행이 확인된 run_command 결과만 사용할 수 있습니다." in
               guard log_reader_command_allowed (default [] (command_display record))
                 else lit "로그 명령과 제한된 필터로 얻은 run_command 결과만 분류할 수 있습니다." in
               Ok tt
             else Ok tt) in
  Ok (output record, r_truncated record || (MAX_TOOL_RESULT_BYTES <=? length (output record))%nat).
End Logs.

From S2P Require Import Redaction RedactionSpec RunCommandSpec.

(** ** Line feeds *)

Definition feeds (s : str) : nat := length (filter (fun b => b = x0a) s).

Lemma feeds_app a b : feeds (a ++ b) = (feeds a + feeds b)%nat.
Proof. unfold feeds. by rewrite filter_app, length_app. Qed.

Lemma feeds_take n s : (feeds (take n s) <= feeds s)%nat.
Proof. rewrite <- (take_drop n s) at 2. rewrite feeds_app. lia. Qed.

Lemma feeds_free s : x0a ∉ s -> feeds s = O.
Proof.
  induction s as [|x s IH]; intros H; [done|]. unfold feeds in *. rewrite filter_cons_False by set_solver. apply IH. set_solver.
Qed.

Lemma length_split_byte s : length (split_byte x0a s) = S (feeds s).
Proof.
  induction s as [|x s IH]; [done|]. cbn [split_byte]. unfold feeds in *. rewrite filter_cons. case_bool_decide as E.
  - rewrite decide_True by done. cbn [length]. by rewrite IH.
  - rewrite decide_False by done. destruct (split_byte x0a s) as [|p ps]; [done|]. exact IH.
Qed.

Lemma length_lines s : (length (lines s) <= S (feeds s))%nat.
Proof.
  unfold lines. rewrite <- length_split_byte. generalize (split_byte x0a s) as ps. induction ps as [|p ps IH]; [done|].
  cbn [lines_of]. destruct ps; [case_bool_decide; cbn; lia|]. cbn [length] in *. lia.
Qed.

Lemma feeds_join ls : Forall (fun l => x0a ∉ l) ls -> (feeds (join [x0a] ls) <= pred (length ls))%nat.
Proof.
  induction 1 as [|l ls Hl Hls IH]; [done|]. cbn [join]. destruct ls as [|l' ls]; [by rewrite feeds_free|].
  rewrite !feeds_app, (feeds_free l) by done. change (feeds [x0a]) with 1%nat. cbn [length pred] in *. lia.
Qed.

(** ** Masking adds no line *)

Lemma feeds_mjoin cs : feeds (mjoin cs) = sum_list_with feeds cs.
Proof. induction cs as [|c cs IH]; [done|]. change (mjoin (c :: cs)) with (c ++ mjoin cs). by rewrite feeds_app, IH. Qed.

Lemma masked_feeds hit ph s o : Masked hit ph s o -> sum_list_with feeds ph = O -> (sum_list_with feeds o <= sum_list_with feeds s)%nat.
Proof.
  intros H Hph. induction H as [|c s o _ _ IH|m s o _ IH]; cbn [sum_list_with]; [done|lia|]. rewrite !sum_list_with_app. lia.
Qed.

Lemma marks_feed_free is_digit : Forall (fun p => sum_list_with feeds (mark p) = O) (patterns is_digit).
Proof. repeat (apply Forall_cons; split; [by vm_compute|]). constructor. Qed.

Section Engine.
Variable is_digit is_word : str -> bool.
Variable match_at : Regex -> option str -> list str -> option nat.
Hypothesis engine : EngineLaws is_word match_at.

Definition mask (s : str) : str := (Redaction.redact is_digit match_at s).1.

Lemma mask_loop_feeds ps cur cs :
  Forall (fun p => sum_list_with feeds (mark p) = O) ps ->
  (sum_list_with feeds (mask_loop match_at ps cur cs).1 <= sum_list_with feeds cur)%nat.
Proof.
  intros H. revert cur cs. induction H as [|p ps Hp _ IH]; intros cur cs; cbn [mask_loop]; [done|].
  pose proof (replace_masked is_word match_at engine (length cur) p None cur (le_n _)) as Hm. unfold replace_all.
  destruct (replace_from match_at (length cur) p None cur) as [cur' count]. cbn [fst] in Hm. apply masked_feeds in Hm; [|done].
  etransitivity; [apply IH|done].
Qed.

Lemma mask_feeds s : utf8_valid s = true -> (feeds (mask s) <= feeds s)%nat.
Proof.
  intros Hs. destruct (chars_exact s Hs) as [_ E]. rewrite <- E at 2. unfold mask, Redaction.redact, redact_chars. rewrite feeds_mjoin.
  destruct (filter _ _) as [|h hits] eqn:Eh; cbn [fst]; [by rewrite feeds_mjoin|].
  pose proof (mask_loop_feeds (h :: hits) (chars s) []) as H. destruct (mask_loop match_at (h :: hits) (chars s) []) as [out r]. cbn [fst] in *.
  rewrite feeds_mjoin. apply H. rewrite <- Eh. apply Forall_forall. intros p Hp. apply list_elem_of_filter in Hp as [_ Hp].
  pose proof (marks_feed_free is_digit) as Hm. rewrite Forall_forall in Hm. by apply Hm.
Qed.

Lemma boundary_below_le n s : (boundary_below n s <= n)%nat.
Proof. induction n as [|n IH]; [done|]. cbn [boundary_below]. destruct (is_char_boundary s (S n)); lia. Qed.

(** however long a log is, the classifier sees at most its last 200 lines and 16 KiB, from
    the masked text, and is told when something is missing. *)
Theorem excerpt_bounded raw source_truncated
    (strings : utf8_valid (join [x0a] (lastn JEV_LOG_MAX_LINES (lines raw))) = true) :
  let r := bound_and_redact_log mask raw source_truncated in
  (length (text r) <= JEV_LOG_MAX_BYTES)%nat /\ (n_lines r <= JEV_LOG_MAX_LINES)%nat /\
  text r `prefix_of` mask (join [x0a] (lastn JEV_LOG_MAX_LINES (lines raw))) /\
  (truncated r = false -> text r = mask (join [x0a] (lines raw)) /\ source_truncated = false).
Proof.
  unfold bound_and_redact_log. cbn [text n_lines truncated]. set (sel := lastn JEV_LOG_MAX_LINES (lines raw)) in *.
  set (m := mask (join [x0a] sel)). assert (cap_log_utf8 m JEV_LOG_MAX_BYTES `prefix_of` m) as Hpre.
  { unfold cap_log_utf8. destruct (_ <=? _)%nat; [done|apply prefix_take]. }
  split; [|split; [|split; [done|]]].
  - unfold cap_log_utf8. destruct (Nat.leb_spec (length m) JEV_LOG_MAX_BYTES); [done|]. rewrite length_take.
    pose proof (boundary_below_le JEV_LOG_MAX_BYTES m). lia.
  - etransitivity; [apply length_lines|]. destruct Hpre as [rest Hrest].
    assert (feeds (cap_log_utf8 m JEV_LOG_MAX_BYTES) <= feeds m)%nat as H1 by (rewrite Hrest at 2; rewrite feeds_app; lia).
    assert (feeds m <= feeds (join [x0a] sel))%nat as H2 by (by apply mask_feeds).
    assert (feeds (join [x0a] sel) <= pred (length sel))%nat as H3.
    { apply feeds_join. pose proof (lines_free raw) as Hf. unfold sel, lastn. by apply Forall_drop. }
    pose proof (lastn_le JEV_LOG_MAX_LINES (lines raw)) as H4. fold sel in H4. unfold JEV_LOG_MAX_LINES in *. lia.
  - intros H. apply orb_false_iff in H as [H Hb]. apply orb_false_iff in H as [Hs Hl]. apply Nat.ltb_ge in Hb, Hl. split; [|done].
    assert (sel = lines raw) as E by (by apply lastn_all). unfold m in *. rewrite E in *. unfold cap_log_utf8.
    by rewrite (proj2 (Nat.leb_le _ _) Hb).
Qed.
End Engine.

Lemma excerpt_bounded_witness :
  (n_lines (bound_and_redact_log (mask digit1 (backtrack word1)) (lit "a
b") false) <= JEV_LOG_MAX_LINES)%nat.
Proof. apply (excerpt_bounded digit1 word1 (backtrack word1) (backtrack_laws word1)). by vm_compute. Defined.

(** ** Where log text comes from *)

Section Sources.
Variable to_lowercase : str -> str.

(** a configured log is read only if neither the path nor the place it leads to is
    sensitive, the path is no link, and a regular file is there; what is read is the last
    megabyte of that file at most, and it is known whether more came before. *)
Theorem log_file_confined fs cwd io_error path txt truncated
    (read : read_configured_log to_lowercase fs cwd io_error path = Ok (txt, truncated)) :
  exists loc bytes start,
    log_path_is_sensitive to_lowercase path = false /\ log_path_is_sensitive to_lowercase (render loc) = false /\
    canonicalize_text fs (dir_form path) (absolute cwd path) = Some loc /\ fs !! loc = Some (NFile bytes) /\
    (forall t, lstat fs path (absolute cwd path) <> Some (NLink t)) /\
    txt = from_utf8_lossy (drop start bytes) /\ (length (drop start bytes) <= Z.to_nat JEV_LOG_FILE_TAIL_BYTES)%nat /\
    (truncated = true <-> JEV_LOG_FILE_TAIL_BYTES < Z.of_nat (length bytes)).
Proof.
  unfold read_configured_log, canonical_log_file in read. destruct (log_path_is_sensitive to_lowercase path) eqn:E1; [done|]. cbn [negb] in read.
  destruct (lstat fs path (absolute cwd path)) as [[before| |t]|] eqn:E2; cbn [ok_or obind] in read; try done.
  destruct (canonicalize_text _ _ _) as [loc|] eqn:E3; cbn [ok_or obind] in read; [|done].
  destruct (log_path_is_sensitive to_lowercase (render loc)) eqn:E4; cbn [negb obind] in read; [done|].
  destruct (lookup_node fs loc) as [[bytes| |t]|] eqn:E5; cbn [ok_or obind] in read; try done. rewrite E5 in read. cbn [obind] in read.
  injection read as <- <-. exists loc, bytes, (Z.to_nat (sat_sub (Z.of_nat (length bytes)) JEV_LOG_FILE_TAIL_BYTES)).
  assert (fs !! loc = Some (NFile bytes)) as Hloc by (unfold lookup_node in E5; by destruct loc).
  repeat (split; [done|]). unfold sat_sub. split.
  - rewrite length_drop. unfold JEV_LOG_FILE_TAIL_BYTES. lia.
  - unfold JEV_LOG_FILE_TAIL_BYTES. lia.
Qed.

Variable redact : str -> str.

(** an excerpt is never the model's own text: it is the masked result of an earlier call of
    the tool it names, one that was not refused and did not fail; from [run_command], one that
    ran a command of the allowed form. *)
Theorem excerpt_from_record records source excerpt txt truncated
    (verified : verified_log_excerpt to_lowercase redact records source excerpt = Ok (txt, truncated)) :
  exists r, r ∈ records /\ r_name r = source /\ txt = output r /\ output r = redact excerpt /\
    status r ∉ [lit "error"; lit "blocked"; lit "denied"] /\
    (source = lit "run_command" -> status r = lit "executed" /\
       exists command, default [] (command_display r) = command /\ log_reader_command_allowed to_lowercase command = true).
Proof.
  revert verified. unfold verified_log_excerpt. generalize MAX_TOOL_RESULT_BYTES. intros cap verified. destruct (_ <=? _)%nat; [|done].
  destruct (last _) as [r|] eqn:El; cbn [ok_or obind] in verified; [|done].
  assert (r ∈ filter (fun r => r_name r = source /\ output r = redact excerpt) records) as Hr.
  { apply last_Some in El as [l ->]. rewrite elem_of_app. right. constructor. }
  apply list_elem_of_filter in Hr as [[Hn Ho] Hr]. case_bool_decide as Hs; [done|]. cbn [negb] in verified.
  exists r. split; [done|]. split; [done|]. case_bool_decide as Hrun.
  - case_bool_decide as He; [|done]. destruct (log_reader_command_allowed _ _) eqn:Ea; [|done]. cbn [obind] in verified. injection verified as <- <-.
    repeat (split; [done|]). by eexists.
  - cbn [obind] in verified. injection verified as <- <-. repeat (split; [done|]). done.
Qed.
End Sources.

(** a path counts as one of a log directory by its beginning alone: reading a file of a
    home directory by way of [/var/log] passes for reading a log. *)
Theorem log_path_leaves_directory :
  let path := lit "/var/log/../../home/u/notes.txt" in
  log_reader_command_allowed lower (lit "tail -n 5 " ++ path) = true /\
  foldl (fun at_ c => if bool_decide (c = DOTDOT) then removelast at_ else at_ ++ [c]) [] (comps path) = [lit "home"; lit "u"; lit "notes.txt"].
Proof. by vm_compute. Qed.

(** the two commands of the catalogue run without a question where their paths are not
    sensitive: both are on the safelist and pass the checks of commands. *)
Theorem catalogue_probes_run fs sb id command
    (no_secrets : forall t p, RunCommand.canonicalize fs (process_cwd fs) t = Some p -> is_sensitive_path_str lower (render p) = false)
    (known : probe_command true id = Some command) :
  RunCommand.execute lower fs true sb (fun _ => false) {| a_command := Some command; a_cwd := None; a_timeout := None |}
  = Run command (root sb) DEFAULT_TIMEOUT_SECS.
Proof.
  apply (runs_silently_spec fs sb no_secrets); [|done]. unfold probe_command in known.
  repeat case_bool_decide; simplify_eq; by vm_compute.
Qed.

Lemma log_file_confined_witness : log_path_is_sensitive lower (lit "/l") = false.
Proof.
  destruct (log_file_confined lower {[ [lit "l"] := NFile (lit "x") ]} [] [] (lit "/l") (lit "x") false) as (loc & bytes & start & H & _);
    [vm_compute; reflexivity|exact H].
Defined.

Definition demo_record : ToolRecord := from_result (fun s => s) [] (lit "loki_query") None (lit "line").

Lemma excerpt_from_record_witness : exists r, r ∈ [demo_record] /\ output r = lit "line".
Proof.
  destruct (excerpt_from_record lower (fun s => s) [demo_record] (lit "loki_query") (lit "line") (lit "line") false) as (r & Hr & _ & _ & Ho & _);
    [vm_compute; reflexivity|]. exists r. split; [exact Hr|exact Ho].
Defined.

Lemma catalogue_probes_run_witness :
  RunCommand.execute lower {| RunCommand.canonicalize _ _ := None; RunCommand.is_dir _ := true; process_cwd := [] |} true {| root := [] |} (fun _ => false)
    {| a_command := Some (lit "dmesg -T | grep -i oom | head -n 30"); a_cwd := None; a_timeout := None |}
  = Run (lit "dmesg -T | grep -i oom | head -n 30") [] DEFAULT_TIMEOUT_SECS.
Proof.
  apply (catalogue_probes_run {| RunCommand.canonicalize _ _ := None; RunCommand.is_dir _ := true; process_cwd := [] |} {| root := [] |} (lit "dmesg_oom"));
    [by intros t p|by vm_compute].
Defined.
