(* ===== verification/ChatSession.v ===== *)
(** * The chat session

    [aic-client/src/agent/session.rs] with the lookup of tools of [agent/mcp.rs]: the turns
    in which a model asks for tools, the calls and what guards them, and the history that is
    sent back; the probes that slash commands and snapshots run. What the model answers, what the user allows, what the shell and the services
    do are parameters that may depend on everything that happened before; the log is what
    happened. *)

From S2P Require Import Prelude RustStr JsonValue FileTree RiskGuard RunCommand Sandbox FileTools Chat Dispatcher LogClassify.
#[local] Open Scope outcome_scope.

Definition MAX_ITERATIONS : nat := 8.

(** ** MCP servers *)

Record McpTool := { tool_name : str; full_name : str }.
Record McpServer := { auto_approve : list str; server_tools : list McpTool }.

Fixpoint mcp_find (servers : list McpServer) (name : str) : option (McpServer * McpTool) :=
  match servers with
  | [] => None
  | s :: servers =>
      match head (filter (fun t => full_name t = name) (server_tools s)) with
      | Some t => Some (s, t)
      | None => mcp_find servers name
      end
  end.

Definition is_tool (servers : list McpServer) (name : str) : bool := bool_decide (is_Some (mcp_find servers name)).

Definition needs_confirm (servers : list McpServer) (name : str) : bool :=
  match mcp_find servers name with
  | Some (s, t) => negb (bool_decide (tool_name t ∈ auto_approve s))
  | None => true
  end.

(** ** State *)

Inductive Event :=
| Requested
| Prompted
| Asked (prompt : str) (answer : bool)
| Ran (command : str) (dir : Loc) (timeout : Z)
| Wrote (name : str) (args : Value)
| Called (name : str) (args : Value).

Record Config := {
  sandbox : FileSandbox;
  linux : bool;
  allow_run_command : bool;
  jev_enabled : bool;
  log_files : list (str * str);
  has_obs : bool;
  has_rca_agent : bool;
  mcp : list McpServer;
  llm_available : bool;
  run_id : str;
}.

Record Session := {
  history : list (ChatMessage str);
  degraded : bool;
  tool_seq : Z;
  tool_records : list ToolRecord;
  tree : Tree;
  log : list Event;
}.

Definition happened (e : Event) (s : Session) : Session :=
  {| history := history s; degraded := degraded s; tool_seq := tool_seq s; tool_records := tool_records s; tree := tree s; log := log s ++ [e] |}.
Definition push (m : ChatMessage str) (s : Session) : Session :=
  {| history := history s ++ [m]; degraded := degraded s; tool_seq := tool_seq s; tool_records := tool_records s; tree := tree s; log := log s |}.
Definition with_tree (t : Tree) (s : Session) : Session :=
  {| history := history s; degraded := degraded s; tool_seq := tool_seq s; tool_records := tool_records s; tree := t; log := log s |}.
Definition truncate (n : nat) (s : Session) : Session :=
  {| history := take n (history s); degraded := degraded s; tool_seq := tool_seq s; tool_records := tool_records s; tree := tree s; log := log s |}.
Definition set_degraded (s : Session) : Session :=
  {| history := history s; degraded := true; tool_seq := tool_seq s; tool_records := tool_records s; tree := tree s; log := log s |}.
Definition next_call (s : Session) : Session :=
  {| history := history s; degraded := degraded s; tool_seq := tool_seq s + 1; tool_records := tool_records s; tree := tree s; log := log s |}.

(** ** Texts *)

Definition cap_bytes (s : str) (max : nat) : str :=
  if (length s <=? max)%nat then s
  else take (boundary_below max s) s ++ x0a :: lit "…[tool 결과 truncated: " ++ show_unsigned (Z.of_nat (length s)) ++ lit " bytes]".

Definition is_tools_unsupported (e : AicError) : bool :=
  match e with
  | ConfigError _ => true
  | LlmApiError status _ => bool_decide (status ∈ [400; 404; 405; 415; 422; 501])
  | _ => false
  end.

Definition tool_args (args : Value) : ToolArgs :=
  {| a_command := get_str args (lit "command"); a_cwd := get_str args (lit "cwd"); a_timeout := value_get args (lit "timeout_secs") ≫= as_u64 |}.

Definition RUN_DISABLED : str :=
  lit "[tool error] run_command은 현재 read-only 세션이라 비활성입니다. 셸 실행이 필요하면 `--no-run`/`--read-only` 없이(또는 AIC_AGENT_NO_RUN 미설정) `aic chat`을 다시 실행하세요. 지금은 read_file/list_dir/grep/glob로 진단하세요.".
Definition WRITE_DENIED : str := lit "[denied] 파일 쓰기를 사용자가 거부했습니다.".
Definition NO_OBS : str :=
  lit "[tool error] 관측 백엔드가 설정되지 않았습니다. config [observability.backends.<name>]에 추가하세요.".
Definition NO_RCA : str :=
  lit "[tool error] rca-agent 연동이 설정되지 않았습니다. config [rca_agent]에 enabled = true를 설정하세요.".

Definition write_prompt (path : str) : str := lit "⚠ " ++ path ++ lit " 쓰기? [y/N]".
Definition mcp_prompt (name : str) : str := lit "⚠ MCP 도구 " ++ name ++ lit " 실행? [y/N]".
Definition run_prompt (command reason : str) : str := lit "⚠ " ++ command ++ lit " — " ++ reason ++ lit " [y/N]".

(** What the commands of a session see of the files. *)
Definition view (cwd : Loc) (fs : Tree) : FsView :=
  {| RunCommand.canonicalize dir input :=
       canonicalize_text fs (dir_form input) (if is_absolute input then comps input else dir ++ comps input);
     RunCommand.is_dir p := is_dir_node (lookup_node fs p);
     RunCommand.process_cwd := cwd |}.

(** What a session is given. The model, with the tools or with a single prompt; the user; the
    shell, which gives the text of the reply and the files it leaves; the services; and the
    classifier of logs. The wordings of a tool's error, of a command that did not run and of a
    risk are given too. *)
Record Env := {
  cfg_ : Config;
  to_lowercase_ : str -> str;
  regex_new_ : str -> option (str -> bool);
  order_ : list str -> list str;
  redact_ : str -> str;
  json_parse_ : str -> option Value;
  json_print_ : Value -> str;
  parse_error_ : str -> str;
  error_text_ : ToolError -> str;
  refusal_ : RunCommand.ToolResult -> str;
  reason_ : RiskAssessment -> str;
  cwd_ : Loc;
  io_error_ : str;
  model_ : list Event -> list (ChatMessage str) -> outcome ChatResponse AicError;
  plain_ : list Event -> str -> outcome str AicError;
  consent_ : list Event -> str -> bool;
  shell_ : list Event -> str -> Loc -> Z -> Tree -> str * Tree;
  service_ : list Event -> str -> Value -> outcome str str;
  choose_log_ : list Event -> str -> option (str * option Value);
}.

Section Agent.
Variable env : Env.
#[local] Notation cfg := (cfg_ env).
#[local] Notation to_lowercase := (to_lowercase_ env).
#[local] Notation regex_new := (regex_new_ env).
#[local] Notation order := (order_ env).
#[local] Notation redact := (redact_ env).
#[local] Notation json_parse := (json_parse_ env).
#[local] Notation json_print := (json_print_ env).
#[local] Notation parse_error := (parse_error_ env).
#[local] Notation error_text := (error_text_ env).
#[local] Notation refusal := (refusal_ env).
#[local] Notation reason := (reason_ env).
#[local] Notation cwd := (cwd_ env).
#[local] Notation io_error := (io_error_ env).
#[local] Notation model := (model_ env).
#[local] Notation plain := (plain_ env).
#[local] Notation consent := (consent_ env).
#[local] Notation shell := (shell_ env).
#[local] Notation service := (service_ env).
#[local] Notation choose_log := (choose_log_ env).

Definition confirm (prompt : str) (s : Session) : bool * Session :=
  let answer := consent (log s) prompt in (answer, happened (Asked prompt answer) s).

(** ** Commands *)

Definition command_root : RunCommand.Sandbox := {| root := sb_root (sandbox cfg) |}.

(** A command that is to run, runs; else the reply says why not. *)
Definition perform (r : RunCommand.ToolResult) (s : Session) : outcome str str * Session :=
  match r with
  | Run command dir timeout =>
      let '(text, fs) := shell (log s) command dir timeout (tree s) in
      (Ok text, with_tree fs (happened (Ran command dir timeout) s))
  | MissingCommand | BadCwd => (Err (refusal r), s)
  | _ => (Ok (refusal r), s)
  end.

Definition execute_command (approved : bool) (a : ToolArgs) (s : Session) : outcome str str * Session :=
  perform (RunCommand.execute to_lowercase (view cwd (tree s)) (linux cfg) command_root (fun _ => approved) a) s.

Definition run_command (args : Value) (s : Session) : outcome str str * Session :=
  let command := default [] (get_str args (lit "command")) in
  let assessment := classify to_lowercase command in
  let '(approved, s) :=
    if bool_decide (level assessment = NeedsConfirm) then confirm (run_prompt command (reason assessment)) s else (false, s) in
  execute_command approved (tool_args args) s.

(** ** Files *)

Definition file_tool (name : str) (args : Value) (s : Session) : outcome str str * Session :=
  match FileTools.execute to_lowercase regex_new order name args (tree s) (sandbox cfg) with
  | Ok (text, fs) => (Ok text, with_tree fs s)
  | Err e => (Err (error_text e), s)
  | Panic => (Panic, s)
  end.

Definition write_tool (name : str) (args : Value) (s : Session) : outcome str str * Session :=
  let path := default [] (get_str args (lit "path")) in
  let '(ok, s) := confirm (write_prompt path) s in
  if ok then file_tool name args (happened (Wrote name args) s) else (Ok WRITE_DENIED, s).

(** ** Logs *)

Definition render_log_unavailable (source error : str) : str :=
  json_print (VObject [(lit "available", VBool false); (lit "classification", VString (lit "unavailable"));
                       (lit "source", VString source); (lit "error", VString error)]).

Definition classified (source : str) (bounded : BoundedLogExcerpt) (choice : option (str * option Value)) : str :=
  json_print (VObject
    ([(lit "available", VBool (bool_decide (is_Some choice)));
      (lit "classification", VString (match choice with Some (v, _) => v | None => lit "unavailable" end));
      (lit "excerpt", VString (text bounded));
      (lit "lines", VNumber (Some (Z.of_nat (n_lines bounded))));
      (lit "source", VString source);
      (lit "truncated", VBool (truncated bounded))]
     ++ match choice with
        | Some (_, Some confidence) => [(lit "confidence", confidence)]
        | Some (_, None) => []
        | None => [(lit "error", VString (lit "Jev classification unavailable"))]
        end)).

Definition source_name (src : LogClassificationSource) : str :=
  match src with
  | File label => lit "file:" ++ label
  | Probe id => lit "probe:" ++ id
  | Excerpt source _ => lit "excerpt:" ++ source
  end.

(** The text of the source, and whether some of it is missing. *)
Definition log_text (src : LogClassificationSource) (corr : str) (s : Session) : outcome (str * bool) str * Session :=
  match src with
  | File label =>
      match head (filter (fun f => f.1 = label) (log_files cfg)) with
      | None => (Err (lit "configured file label을 찾을 수 없습니다."), s)
      | Some f => (read_configured_log to_lowercase (tree s) cwd io_error f.2, s)
      end
  | Probe id =>
      if negb (allow_run_command cfg) then
        (Err (lit "system preset은 run_command가 활성인 chat에서만 실행할 수 있습니다."), s)
      else
        match probe_command (linux cfg) id with
        | None => (Err (lit "catalog probe를 찾을 수 없습니다."), s)
        | Some command =>
            let '(result, s) := execute_command false {| a_command := Some command; a_cwd := None; a_timeout := None |} s in
            (let? output := result in
             let record := from_result redact corr (lit "run_command") (extract_command_line output) output in
             guard bool_decide (status record = lit "executed") else lit "system log probe가 실행되지 않았습니다." in
             Ok (output, r_truncated record), s)
        end
  | Excerpt source text => (verified_log_excerpt to_lowercase redact (tool_records s) source text, s)
  end.

Definition execute_log_classification (args : Value) (corr : str) (s : Session) : str * Session :=
  if negb (jev_enabled cfg) then (render_log_unavailable (lit "unknown") (lit "Jev 로그 분류가 비활성화되어 있습니다."), s)
  else
    match parse_log_classification_source args (log_files cfg) with
    | Ok src =>
        match log_text src corr s with
        | (Ok (raw, source_truncated), s) =>
            let bounded := bound_and_redact_log redact raw source_truncated in
            let choice := choose_log (log s) (LogClassify.text bounded) in
            (classified (source_name src) bounded choice, happened (Called (lit "jev") (VString (LogClassify.text bounded))) s)
        | (Err e, s) => (render_log_unavailable (source_name src) e, s)
        | (Panic, s) => ([], s)
        end
    | Err e => (render_log_unavailable (lit "unknown") e, s)
    | Panic => ([], s)
    end.

(** ** One call of a tool *)

Definition call_service (name : str) (args : Value) (s : Session) : outcome str str * Session :=
  (service (log s) name args, happened (Called name args) s).

(** [McpClient::call]: the server's name of the tool, and an object as arguments. *)
Definition mcp_call (name : str) (args : Value) (s : Session) : outcome str str * Session :=
  match mcp_find (mcp cfg) name with
  | None => (Err (lit "미등록 MCP 도구: " ++ name), s)
  | Some (_, tool) =>
      let arguments := match args with VObject _ => args | _ => VObject [] end in
      call_service name (VObject [(lit "name", VString (tool_name tool)); (lit "arguments", arguments)]) s
  end.

Definition mcp_tool (name : str) (args : Value) (s : Session) : outcome str str * Session :=
  let '(approved, s) := if needs_confirm (mcp cfg) name then confirm (mcp_prompt name) s else (true, s) in
  if approved then mcp_call name args s
  else (Ok (lit "[denied] MCP 도구 " ++ name ++ lit " 실행을 사용자가 거부했습니다."), s).

(** The tool that a name selects. *)
Definition dispatch (name : str) (args : Value) (corr : str) (s : Session) : outcome str str * Session :=
  if bool_decide (name = lit "run_command") then
    if negb (allow_run_command cfg) then (Ok RUN_DISABLED, s) else run_command args s
  else if bool_decide (name ∈ [lit "write_file"; lit "edit_file"]) then write_tool name args s
  else if bool_decide (name = lit "jev_classify_logs") then
    let '(out, s) := execute_log_classification args corr s in (Ok out, s)
  else if bool_decide (name ∈ [lit "prometheus_query"; lit "loki_query"; lit "es_search"]) then
    if has_obs cfg then call_service name args s else (Ok NO_OBS, s)
  else if bool_decide (name ∈ [lit "rca_agent_collect"; lit "rca_agent_features"]) then
    if has_rca_agent cfg then call_service name args s else (Ok NO_RCA, s)
  else if is_tool (mcp cfg) name then mcp_tool name args s
  else file_tool name args s.

Definition record_tool (corr name : str) (command_display : option str) (output : str) (s : Session) : Session :=
  {| history := history s; degraded := degraded s; tool_seq := tool_seq s;
     tool_records := push_record (tool_records s) (from_result redact corr name command_display output);
     tree := tree s; log := log s |}.

(** The text for the model of what a tool gave. *)
Definition final_text (r : outcome str str) : str :=
  match r with
  | Ok out => cap_bytes out MAX_TOOL_RESULT_BYTES
  | Err e => lit "[tool error] " ++ e
  | Panic => []
  end.

Definition exec_tool (call : ToolCall) (s : Session) : str * Session :=
  let s := next_call s in
  let corr := run_id cfg ++ lit "." ++ show_unsigned (tool_seq s) in
  match json_parse (arguments call) with
  | None =>
      let out := lit "[tool error] 인자 JSON 파싱 실패: " ++ parse_error (arguments call) in
      (out, record_tool corr (name call) None out s)
  | Some args =>
      let '(result, s) := dispatch (name call) args corr s in
      let final_out := final_text result in
      let command_display := if bool_decide (name call = lit "run_command") then extract_command_line final_out else None in
      (final_out, record_tool corr (name call) command_display final_out s)
  end.

(** ** Probes *)

(** A command of aic's own, which nobody is asked about. *)
Definition run_probe (sb : RunCommand.Sandbox) (command : str) (timeout : option Z) (s : Session) : outcome str str * Session :=
  perform (RunCommand.execute to_lowercase (view cwd (tree s)) (linux cfg) sb (fun _ => false)
             {| a_command := Some command; a_cwd := None; a_timeout := timeout |}) s.

(** The text of a probe in a snapshot. *)
Definition probe_output (r : outcome str str) : str :=
  match r with Ok out => out | Err e => lit "[tool error] " ++ e | Panic => [] end.

Definition section_text (name out : str) : str := lit "## " ++ name ++ x0a :: out ++ [x0a; x0a].

(** The probes that a slash command runs, one after another; each is recorded. *)
Fixpoint collect_snapshot (probes : list (str * str)) (timeout : option Z) (s : Session) : str * Session :=
  match probes with
  | [] => ([], s)
  | (name, cmd) :: probes =>
      let s := next_call s in
      let corr := run_id cfg ++ lit "." ++ show_unsigned (tool_seq s) in
      let '(result, s) := run_probe command_root cmd timeout s in
      let out := probe_output result in
      let s := record_tool corr (lit "run_command") (Some cmd) out s in
      let '(rest, s) := collect_snapshot probes timeout s in
      (section_text name out ++ rest, s)
  end.

(** The snapshot that is recorded outside the session: the sandbox is the directory of the
    process, and no record is kept. *)
Fixpoint collect_local_body (probes : list (str * str)) (s : Session) : str * Session :=
  match probes with
  | [] => ([], s)
  | (name, cmd) :: probes =>
      let '(result, s) := run_probe {| root := cwd |} cmd None s in
      let '(rest, s) := collect_local_body probes s in
      (section_text name (probe_output result) ++ rest, s)
  end.

Definition HEALTH_PROBE_IDS : list str :=
  [lit "disk"; lit "inodes"; lit "fd"; lit "proc_states"; lit "failed_units"; lit "dmesg_oom"; lit "ip"; lit "route"; lit "dns_resolver"].
Definition HEALTH_PROBE_TIMEOUT_SECS : Z := 3.

Definition resolve_ids (ids : list str) : list (str * str) :=
  omap (fun id => command ← probe_command (linux cfg) id; Some (id, command)) ids.

(** [/local], [/diagnose], [/incident], [/compare], [/watch], [/bundle] and [/triage --run]: where
    commands are off nothing is collected. [/watch] collects the same probes more than once,
    [/incident] and [/bundle] two catalogues. *)
Definition handle_probes (rounds : list (list (str * str))) (s : Session) : Session :=
  if negb (allow_run_command cfg) then s else foldl (fun s probes => (collect_snapshot probes None s).2) s rounds.

Definition handle_health (s : Session) : Session :=
  (collect_snapshot (resolve_ids HEALTH_PROBE_IDS) (Some HEALTH_PROBE_TIMEOUT_SECS) s).2.

(** ** Turns *)

Definition answer (text : str) (s : Session) : Session := push (Assistant (Some text) []) s.

(** The text of the last user message. *)
Definition last_prompt (h : list (ChatMessage str)) : str :=
  default [] (last (omap (fun m => match m with User c => Some c | _ => None end) h)).

Definition run_turn_degraded (s : Session) : outcome unit AicError * Session :=
  let resp := plain (log s) (last_prompt (history s)) in
  let s := happened Prompted s in
  match resp with
  | Ok text => (Ok tt, answer text s)
  | Err e => (Err e, s)
  | Panic => (Panic, s)
  end.

(** Where a turn is: about to ask the model for the [iter]-th time, with calls left to
    execute, or over. *)
Inductive Phase := Asking (iter : nat) | Executing (iter : nat) (calls : list ToolCall) | Over (r : outcome unit AicError).

Definition over (r : outcome unit AicError * Session) : Phase * Session := (Over r.1, r.2).

Definition turn_step (ps : Phase * Session) : Phase * Session :=
  let '(p, s) := ps in
  match p with
  | Asking iter =>
      if negb (iter <? MAX_ITERATIONS)%nat then (Over (Ok tt), s)
      else
        let resp := model (log s) (history s) in
        let s := happened Requested s in
        match resp with
        | Ok (Text text) => (Over (Ok tt), answer text s)
        | Ok (ToolCalls calls) => (Executing iter calls, push (Assistant None calls) s)
        | Err e => if (iter =? 0)%nat && is_tools_unsupported e then over (run_turn_degraded (set_degraded s)) else (Over (Err e), s)
        | Panic => (Over Panic, s)
        end
  | Executing iter [] => (Asking (S iter), s)
  | Executing iter (call :: calls) =>
      let '(result, s) := exec_tool call s in
      (Executing iter calls, push (Tool (id call) result) s)
  | Over r => (Over r, s)
  end.

Definition turn_start (s : Session) : Phase * Session :=
  if negb (llm_available cfg) then (Over (Ok tt), s)
  else if degraded s then over (run_turn_degraded s)
  else (Asking 0, s).

(** The loops of [run_turn]. *)
Fixpoint exec_calls (calls : list ToolCall) (s : Session) : Session :=
  match calls with
  | [] => s
  | call :: calls => let '(result, s) := exec_tool call s in exec_calls calls (push (Tool (id call) result) s)
  end.

Fixpoint iterations (budget iter : nat) (s : Session) : outcome unit AicError * Session :=
  match budget with
  | O => (Ok tt, s)
  | S budget =>
      let resp := model (log s) (history s) in
      let s := happened Requested s in
      match resp with
      | Ok (Text text) => (Ok tt, answer text s)
      | Ok (ToolCalls calls) => iterations budget (S iter) (exec_calls calls (push (Assistant None calls) s))
      | Err e => if (iter =? 0)%nat && is_tools_unsupported e then run_turn_degraded (set_degraded s) else (Err e, s)
      | Panic => (Panic, s)
      end
  end.

Definition run_turn (s : Session) : outcome unit AicError * Session :=
  if negb (llm_available cfg) then (Ok tt, s)
  else if degraded s then run_turn_degraded s
  else iterations MAX_ITERATIONS 0 s.

(** ** Inputs *)

Definition FIX_REQUEST : str :=
  lit "직전 대화·진단 맥락에서 지금 실행하면 좋을 안전한 명령 하나를 run_command 도구로 실행해줘. 상태 변경이 위험하면 실행하지 말고 이유를 설명해줘.".

(** What happens in a session: a message, [/clear], [/fix], [/resume] with the saved values that
    were read, or a diagnosis that ended with an answer. A message or [/fix] may be cancelled
    after some steps of its turn. [Probes]: the commands of [/local], [/diagnose], [/incident],
    [/compare], [/watch], [/bundle] and [/triage --run], as many times as they are collected.
    [Health]: [/health]. [Capture]: a snapshot for the recorder or for an incident, at
    [/record now] or in the background. *)
Inductive Input :=
| Say (text : str) (cancel : option nat)
| Clear
| Fix (cancel : option nat)
| Resume (saved : option (list Value))
| Analysis (kind text : str)
| Probes (rounds : list (list (str * str)))
| Health
| Capture (probes : list (str * str)).

(** The session when the future of a turn is dropped after [n] steps, and whether the turn was
    over by then. *)
Definition cut_turn (n : nat) (s : Session) : bool * Session :=
  let '(p, s') := Nat.iter n turn_step (turn_start s) in
  (match p with Over _ => true | _ => false end, s').

Definition handle (i : Input) (s : Session) : Session :=
  match i with
  | Say text cancel =>
      let s := push (User text) s in
      match cancel with
      | None => (run_turn s).2
      | Some n =>
          let mark := length (history s) in
          let '(finished, s) := cut_turn n s in
          if finished then s else truncate mark s
      end
  | Clear => truncate 1 s
  | Fix cancel =>
      if negb (allow_run_command cfg) then s
      else
        let s := push (User FIX_REQUEST) s in
        match cancel with
        | None => (run_turn s).2
        | Some n => (cut_turn n s).2
        end
  | Resume saved =>
      match saved with
      | None => s
      | Some values => foldl (fun s m => push m s) s (session_values_to_messages values)
      end
  | Analysis kind text => answer text (push (User (lit "[" ++ kind ++ lit "] 진단 분석 요청")) s)
  | Probes rounds => handle_probes rounds s
  | Health => handle_health s
  | Capture probes => (collect_local_body probes s).2
  end.

Definition new_session (preface : str) (fs : Tree) : Session :=
  {| history := [System preface]; degraded := false; tool_seq := 0; tool_records := []; tree := fs; log := [] |}.

Definition session (preface : str) (fs : Tree) (inputs : list Input) : Session := foldl (fun s i => handle i s) (new_session preface fs) inputs.
End Agent.
