(* ===== verification/ChatSessionSpec.v ===== *)
(** * What a chat session never does

    [commands_guarded]: no command runs, no file is written and no tool of a server is called
    without what allows it. [history_well_formed]: every tool call in the history is answered
    in order, so [requests_valid]: every request is one that the provider takes. [turn_ends]: a
    turn ends after at most eight requests. [read_only_session_writes],
    [read_only_session_runs], [cancelled_fix_dangles]: what a read-only session may still do,
    and what a cancelled [/fix] leaves. *)

From S2P Require Import Prelude RustStr JsonValue FileTree RiskGuard RunCommand Sandbox FileTools RunCommandSpec Chat ChatSpec Dispatcher LogClassify ChatSession.

Section Session.
Variable env : Env.
#[local] Notation cfg := (cfg_ env).
#[local] Notation to_lowercase := (to_lowercase_ env).
#[local] Notation redact := (redact_ env).
#[local] Notation reason := (reason_ env).
#[local] Notation cwd := (cwd_ env).
#[local] Notation model := (model_ env).
#[local] Notation consent := (consent_ env).

(** ** What allows an event *)

(** The command that a requested text stands for. *)
Definition canonical (raw : str) : str := default (trim raw) (normalize_sre_command to_lowercase (linux cfg) (trim raw)).

(** Services that are asked without a question: the read-only clients and the classifier. *)
Definition OPEN_SERVICES : list str :=
  [lit "prometheus_query"; lit "loki_query"; lit "es_search"; lit "rca_agent_collect"; lit "rca_agent_features"; lit "jev"].

(** The commands that an input runs although commands may be switched off: the nine probes of
    [/health], and those of a snapshot. *)
Definition unswitched (i : Input) : list str :=
  match i with
  | Health => omap (probe_command (linux cfg)) HEALTH_PROBE_IDS
  | Capture probes => probes.*2
  | _ => []
  end.

(** What must hold of an event, and have happened just before it; [us] are the commands that
    run although commands may be switched off. *)
Definition allowed (us : list str) (before : option Event) (e : Event) : Prop :=
  match e with
  | Ran command _ timeout =>
      (exists fs sb, sb ∈ [command_root env; {| root := cwd |}] /\ validate_command to_lowercase (view cwd fs) sb command = None) /\
      1 <= timeout <= MAX_TIMEOUT_SECS /\
      (allow_run_command cfg = true \/ exists raw, raw ∈ us /\ command = canonical raw) /\
      (level (classify to_lowercase command) = Safe \/
       exists raw, before = Some (Asked (run_prompt raw (reason (classify to_lowercase raw))) true) /\ command = canonical raw)
  | Wrote name args =>
      name ∈ [lit "write_file"; lit "edit_file"] /\ before = Some (Asked (write_prompt (default [] (get_str args (lit "path")))) true)
  | Called name _ =>
      name ∈ OPEN_SERVICES \/ needs_confirm (mcp cfg) name = false \/ before = Some (Asked (mcp_prompt name) true)
  | _ => True
  end.

Fixpoint guarded (us : list str) (before : option Event) (es : list Event) : Prop :=
  match es with
  | [] => True
  | e :: es => allowed us before e /\ guarded us (Some e) es
  end.

(** Events that leave the files as they are. *)
Definition harmless (e : Event) : Prop := match e with Ran _ _ _ | Wrote _ _ => False | _ => True end.

Definition is_request (e : Event) : bool := match e with Requested => true | _ => false end.
Definition requests (es : list Event) : nat := length (filter (fun e => is_request e = true) es).

Lemma guarded_weaken us before es : guarded us None es -> guarded us before es.
Proof.
  destruct es as [|e es]; [done|]. intros [He H]. split; [|done]. destruct e; simpl in *; try done.
  - destruct He as (? & ? & ? & [?|(raw & [=] & _)]). auto.
  - by destruct He.
  - destruct He as [?|[?|[=]]]; auto.
Qed.

Lemma guarded_app us before es es' : guarded us before es -> guarded us None es' -> guarded us before (es ++ es').
Proof.
  revert before. induction es as [|e es IH]; intros before; cbn [app guarded]; [intros _; apply guarded_weaken|].
  intros [He H] H'. split; [done|]. by apply IH.
Qed.

Lemma guarded_more us us' before es : us ⊆ us' -> guarded us before es -> guarded us' before es.
Proof.
  intros Hus. revert before. induction es as [|e es IH]; intros before; [done|]. intros [He H]. split; [|by apply IH].
  destruct e; try done. destruct He as (? & ? & [?|(raw & ? & ?)] & ?); repeat (split; [done|]); (split; [|done]); [by left|].
  right. exists raw. split; [by apply Hus|done].
Qed.

(** What a step of a session adds: events that were allowed, at most [n] of them requests, and
    files only change by what they say. *)
Record adds (us : list str) (n : nat) (s s' : Session) : Prop := {
  added_log : exists es, log s' = log s ++ es /\ guarded us None es /\ (requests es <= n)%nat /\ (Forall harmless es -> tree s' = tree s);
}.

Lemma adds_refl us n s : adds us n s s.
Proof. split. exists []. rewrite app_nil_r. split; [done|]. split; [done|]. split; [vm_compute; lia|done]. Qed.

Lemma adds_trans us n m s1 s2 s3 : adds us n s1 s2 -> adds us m s2 s3 -> adds us (n + m) s1 s3.
Proof.
  intros [(es & H1 & H2 & H3 & H4)] [(es' & H1' & H2' & H3' & H4')]. split. exists (es ++ es'). rewrite H1', H1, <- app_assoc.
  split; [done|]. split; [by apply guarded_app|]. split; [unfold requests in *; rewrite filter_app, length_app; lia|].
  intros [Hh Hh']%Forall_app. by rewrite H4', H4.
Qed.

Lemma adds_same us n s s' : log s' = log s -> tree s' = tree s -> adds us n s s'.
Proof.
  intros Hl Ht. split. exists []. rewrite app_nil_r. split; [done|]. split; [done|]. split; [vm_compute; lia|done].
Qed.

Lemma adds_events us n es s s' :
  log s' = log s ++ es -> guarded us None es -> (requests es <= n)%nat -> (Forall harmless es -> tree s' = tree s) -> adds us n s s'.
Proof. intros. split. by exists es. Qed.

Lemma adds_more us us' n m s s' : us ⊆ us' -> (n <= m)%nat -> adds us n s s' -> adds us' m s s'.
Proof. intros Hus Hle [(es & ? & ? & ? & ?)]. split. exists es. split; [done|]. split; [by eapply guarded_more|]. split; [lia|done]. Qed.

(** Calls of tools and probes keep the history and the mode, and add no request. *)
Definition quiet (us : list str) (s s' : Session) : Prop := history s' = history s /\ degraded s' = degraded s /\ adds us 0 s s'.

Lemma quiet_refl us s : quiet us s s.
Proof. split; [done|]. split; [done|apply adds_refl]. Qed.

Lemma quiet_trans us s1 s2 s3 : quiet us s1 s2 -> quiet us s2 s3 -> quiet us s1 s3.
Proof. intros (H1 & H2 & H3) (H1' & H2' & H3'). split; [congruence|]. split; [congruence|]. by apply (adds_trans us 0 0 _ s2). Qed.

Lemma quiet_events us es s s' :
  history s' = history s -> degraded s' = degraded s -> log s' = log s ++ es -> guarded us None es -> requests es = O ->
  (Forall harmless es -> tree s' = tree s) -> quiet us s s'.
Proof. intros. split; [done|]. split; [done|]. apply (adds_events us _ es); try done. lia. Qed.

Lemma quiet_same us s s' : history s' = history s -> degraded s' = degraded s -> log s' = log s -> tree s' = tree s -> quiet us s s'.
Proof. intros. apply (quiet_events us []); rewrite ?app_nil_r; done. Qed.

(** ** Tools *)

(** What [execute] says of a command that is to run. *)
Lemma execute_Run fs lx sb approved a command dir timeout :
  RunCommand.execute to_lowercase fs lx sb (fun _ => approved) a = Run command dir timeout ->
  exists raw, a_command a = Some raw /\ command = default (trim raw) (normalize_sre_command to_lowercase lx (trim raw)) /\
    validate_command to_lowercase fs sb command = None /\ 1 <= timeout <= MAX_TIMEOUT_SECS /\
    (level (classify to_lowercase command) = Safe \/ approved = true).
Proof.
  unfold RunCommand.execute. destruct (a_command a) as [raw|]; [|done]. case_bool_decide; [done|].
  destruct (resolve_cwd _ _ _) as [dir'|]; [|done]. unfold run_and_format.
  set (c := default (trim raw) _).
  assert (1 <= resolve_timeout a <= MAX_TIMEOUT_SECS) as Ht by (unfold resolve_timeout, MAX_TIMEOUT_SECS; lia).
  destruct (level (classify to_lowercase c)) eqn:El; try done.
  - destruct (validate_command _ _ _ _) eqn:Ev; [done|]. intros [= <- <- <-]. exists raw. eauto 6.
  - destruct approved; [|done]. destruct (validate_command _ _ _ _) eqn:Ev; [done|]. intros [= <- <- <-]. exists raw. eauto 6.
Qed.

(** A command may run after [before] if it is safe or [before] approved it, where commands are
    on or it is one of [us]. *)
Lemma perform_events us sb approved a s :
  sb ∈ [command_root env; {| root := cwd |}] ->
  (allow_run_command cfg = true \/ exists raw, a_command a = Some raw /\ raw ∈ us) ->
  let s' := (perform env (RunCommand.execute to_lowercase (view cwd (tree s)) (linux cfg) sb (fun _ => approved) a) s).2 in
  history s' = history s /\ degraded s' = degraded s /\
  exists es, log s' = log s ++ es /\ requests es = O /\ (Forall harmless es -> tree s' = tree s) /\
    forall before,
      (approved = true -> exists raw, a_command a = Some raw /\ before = Some (Asked (run_prompt raw (reason (classify to_lowercase raw))) true)) ->
      guarded us before es.
Proof.
  intros Hsb Hallow. destruct (RunCommand.execute _ _ _ _ _ _) as [| |l| |d|command dir timeout] eqn:E;
    try (split; [done|]; split; [done|]; exists []; rewrite app_nil_r; done).
  unfold perform. destruct (shell_ env _ _ _ _ _) as [txt fs]. split; [done|]. split; [done|]. exists [Ran command dir timeout].
  split; [done|]. split; [done|]. split; [by intros [? _]%Forall_cons|]. intros before Hb.
  apply execute_Run in E as (raw & Hraw & Hc & Hv & Ht & Hs). split; [|done]. split; [by exists (tree s), sb|]. split; [done|]. split.
  - destruct Hallow as [?|(raw' & Hraw' & Hus)]; [by left|]. right. exists raw'. split; [done|]. rewrite Hraw in Hraw'. injection Hraw' as <-. exact Hc.
  - destruct Hs as [?|Ha]; [by left|]. right. destruct (Hb Ha) as (raw' & Hraw' & ->). rewrite Hraw in Hraw'. injection Hraw' as <-.
    exists raw. split; [done|]. exact Hc.
Qed.

Lemma execute_command_events approved a s :
  allow_run_command cfg = true ->
  let s' := (execute_command env approved a s).2 in
  history s' = history s /\ degraded s' = degraded s /\
  exists es, log s' = log s ++ es /\ requests es = O /\ (Forall harmless es -> tree s' = tree s) /\
    forall before,
      (approved = true -> exists raw, a_command a = Some raw /\ before = Some (Asked (run_prompt raw (reason (classify to_lowercase raw))) true)) ->
      guarded [] before es.
Proof. intros Hallow. apply perform_events; [left|by left]. Qed.

Lemma run_probe_quiet us sb command timeout s :
  sb ∈ [command_root env; {| root := cwd |}] -> (allow_run_command cfg = true \/ command ∈ us) ->
  quiet us s (run_probe env sb command timeout s).2.
Proof.
  intros Hsb Hallow. unfold run_probe. set (a := {| a_command := _ |}).
  destruct (perform_events us sb false a s Hsb) as (Hh & Hd & es & Hl & Hr & Ht & Hg); [|apply (quiet_events us es); try done; by apply Hg].
  destruct Hallow as [?|?]; [by left|]. right. by exists command.
Qed.

Lemma collect_snapshot_quiet us probes timeout s :
  (allow_run_command cfg = true \/ probes.*2 ⊆ us) -> quiet us s (collect_snapshot env probes timeout s).2.
Proof.
  revert s. induction probes as [|[name cmd] probes IH]; intros s Hallow; [apply quiet_refl|]. cbn [collect_snapshot].
  set (corr := run_id cfg ++ _). assert (quiet us s (next_call s)) as Hn by by apply quiet_same.
  pose proof (run_probe_quiet us (command_root env) cmd timeout (next_call s) ltac:(left)) as Hq.
  destruct (run_probe env _ cmd timeout (next_call s)) as [result s1]. cbn [snd] in Hq.
  set (s2 := record_tool _ _ _ _ _ s1). assert (quiet us s1 s2) as Hs by by apply quiet_same. specialize (IH s2).
  destruct (collect_snapshot env probes timeout s2) as [rest s3]. cbn [snd] in *.
  eapply quiet_trans; [exact Hn|]. eapply quiet_trans; [apply Hq; destruct Hallow; [by left|right; set_solver]|].
  eapply quiet_trans; [exact Hs|]. apply IH. destruct Hallow; [by left|right; set_solver].
Qed.

Lemma collect_local_body_quiet us probes s :
  (allow_run_command cfg = true \/ probes.*2 ⊆ us) -> quiet us s (collect_local_body env probes s).2.
Proof.
  revert s. induction probes as [|[name cmd] probes IH]; intros s Hallow; [apply quiet_refl|]. cbn [collect_local_body].
  pose proof (run_probe_quiet us {| root := cwd |} cmd None s ltac:(right; left)) as Hq.
  destruct (run_probe env _ cmd None s) as [result s1]. cbn [snd] in Hq. specialize (IH s1).
  destruct (collect_local_body env probes s1) as [rest s2]. cbn [snd] in *.
  eapply quiet_trans; [apply Hq; destruct Hallow; [by left|right; set_solver]|]. apply IH. destruct Hallow; [by left|right; set_solver].
Qed.

Lemma run_command_quiet args s : allow_run_command cfg = true -> quiet [] s (run_command env args s).2.
Proof.
  intros Hallow. unfold run_command. set (command := default [] _). case_bool_decide as Hl.
  - unfold confirm. set (prompt := run_prompt _ _). destruct (execute_command_events (consent (log s) prompt) (tool_args args)
      (happened (Asked prompt (consent (log s) prompt)) s) Hallow) as (Hh & Hd & es & Hlog & Hr & Ht & Hg).
    apply (quiet_events _ (Asked prompt (consent (log s) prompt) :: es)); try done.
    + rewrite Hlog. cbn [log happened]. by rewrite <- app_assoc.
    + split; [done|]. apply Hg. intros Ha. rewrite Ha. unfold tool_args. cbn [a_command].
      unfold command in *. destruct (get_str args (lit "command")) as [raw|] eqn:Ec; [by exists raw|].
      exfalso. cbn in Hl. revert Hl. by vm_compute.
    + intros [_ H]%Forall_cons. by rewrite Ht.
  - destruct (execute_command_events false (tool_args args) s Hallow) as (Hh & Hd & es & Hlog & Hr & Ht & Hg).
    apply (quiet_events _ es); try done. by apply Hg.
Qed.

Lemma file_tool_tree name args s :
  name ∉ [lit "write_file"; lit "edit_file"] -> tree (file_tool env name args s).2 = tree s.
Proof.
  intros Hn. unfold file_tool, FileTools.execute. repeat (case_bool_decide; [subst; try (exfalso; set_solver)|]); try done;
    unfold keep_tree, obind; by repeat case_match; simplify_eq.
Qed.

Lemma file_tool_frame name args s :
  history (file_tool env name args s).2 = history s /\ degraded (file_tool env name args s).2 = degraded s /\
  log (file_tool env name args s).2 = log s.
Proof. unfold file_tool. by destruct (FileTools.execute _ _ _ _ _ _ _) as [[]| |]. Qed.

Lemma write_tool_quiet name args s : name ∈ [lit "write_file"; lit "edit_file"] -> quiet [] s (write_tool env name args s).2.
Proof.
  intros Hn. unfold write_tool, confirm. set (path := default [] _). set (ok := consent_ env _ _).
  destruct ok eqn:Eok; cbn [snd].
  - set (s1 := happened (Wrote name args) _). destruct (file_tool_frame name args s1) as (Hh & Hd & Hl).
    apply (quiet_events _ [Asked (write_prompt path) true; Wrote name args]); try done.
    + rewrite Hl. unfold s1. cbn. by rewrite <- app_assoc.
    + by intros [_ [? _]%Forall_cons]%Forall_cons.
  - apply (quiet_events _ [Asked (write_prompt path) false]); done.
Qed.

Lemma call_service_quiet name args s :
  (name ∈ OPEN_SERVICES \/ needs_confirm (mcp cfg) name = false) -> quiet [] s (call_service env name args s).2.
Proof.
  intros Hn. apply (quiet_events _ [Called name args]); try done. split; [|done]. destruct Hn; [by left|by right; left].
Qed.

Lemma log_text_quiet src corr s : quiet [] s (log_text env src corr s).2.
Proof.
  unfold log_text. destruct src as [label|id|source txt]; [destruct (head _); apply quiet_refl| |apply quiet_refl].
  destruct (allow_run_command cfg) eqn:Ha; [|apply quiet_refl]. cbn [negb]. destruct (probe_command _ _) as [command|]; [|apply quiet_refl].
  destruct (execute_command_events false {| a_command := Some command; a_cwd := None; a_timeout := None |} s Ha) as (Hh & Hd & es & Hlog & Hr & Ht & Hg).
  destruct (execute_command env false _ s) as [result s1]. apply (quiet_events _ es); try done. by apply Hg.
Qed.

Lemma classification_quiet args corr s : quiet [] s (execute_log_classification env args corr s).2.
Proof.
  unfold execute_log_classification. destruct (negb _); [apply quiet_refl|]. destruct (parse_log_classification_source _ _); [|apply quiet_refl..].
  pose proof (log_text_quiet a corr s) as Hq. destruct (log_text env a corr s) as [[[raw tr]| |] s1]; [|done..].
  cbn [snd] in *. eapply quiet_trans; [exact Hq|]. eapply (quiet_events _ [Called _ _]); try done. split; [|done]. left. set_solver.
Qed.

Lemma mcp_tool_quiet name args s : is_tool (mcp cfg) name = true -> quiet [] s (mcp_tool env name args s).2.
Proof.
  intros Ht. unfold mcp_tool, mcp_call. unfold is_tool in Ht. apply bool_decide_eq_true_1 in Ht as [[srv tool] Hf].
  rewrite Hf. destruct (needs_confirm (mcp cfg) name) eqn:En.
  - unfold confirm. set (ok := consent_ env _ _). destruct ok; cbn [snd].
    + eapply (quiet_events _ [Asked (mcp_prompt name) true; Called name _]); try done.
      * cbn. by rewrite <- app_assoc.
      * split; [done|]. split; [|done]. by right; right.
    + by apply (quiet_events _ [Asked (mcp_prompt name) false]).
  - apply call_service_quiet. by right.
Qed.

Lemma dispatch_quiet name args corr s : quiet [] s (dispatch env name args corr s).2.
Proof.
  unfold dispatch. case_bool_decide; [destruct (allow_run_command cfg) eqn:Ha; [by apply run_command_quiet|apply quiet_refl]|].
  case_bool_decide as Hw; [by apply write_tool_quiet|].
  case_bool_decide. { pose proof (classification_quiet args corr s) as Hq. by destruct (execute_log_classification env args corr s). }
  case_bool_decide as Ho. { destruct (has_obs cfg); [|apply quiet_refl]. apply call_service_quiet. left. unfold OPEN_SERVICES. set_solver. }
  case_bool_decide as Hr. { destruct (has_rca_agent cfg); [|apply quiet_refl]. apply call_service_quiet. left. unfold OPEN_SERVICES. set_solver. }
  destruct (is_tool (mcp cfg) name) eqn:Em; [by apply mcp_tool_quiet|].
  destruct (file_tool_frame name args s) as (Hh & Hd & Hl). apply (quiet_events _ []); try done.
  - by rewrite app_nil_r.
  - intros _. by apply file_tool_tree.
Qed.

Lemma exec_tool_quiet call s : quiet [] s (exec_tool env call s).2.
Proof.
  unfold exec_tool. set (corr := run_id cfg ++ _). assert (quiet [] s (next_call s)) as Hn by (by apply (quiet_events _ []); rewrite ?app_nil_r).
  assert (forall a b c d s1, quiet [] s s1 -> quiet [] s (record_tool env a b c d s1)) as Hrec.
  { intros a b c d s1 Hq. eapply quiet_trans; [exact Hq|]. apply (quiet_events _ []); try done. by rewrite app_nil_r. }
  destruct (json_parse_ env _) as [args|]; [|by apply Hrec].
  pose proof (dispatch_quiet (name call) args corr (next_call s)) as Hq. destruct (dispatch env _ args corr _) as [result s1].
  apply Hrec. by eapply quiet_trans.
Qed.

(** ** Turns *)

(** What holds of the history at each point of a turn. *)
Definition phase_ok (ps : Phase * Session) : Prop :=
  match ps.1 with
  | Executing _ calls => waiting [] (history ps.2) = Some (id <$> calls)
  | _ => well_formed (history ps.2)
  end.

Definition said_first (preface : str) (h : list (ChatMessage str)) : Prop := exists rest, h = System preface :: rest.

Lemma push_waiting m s p p' : waiting [] (history s) = Some p -> waiting p [m] = Some p' -> waiting [] (history (push m s)) = Some p'.
Proof. intros H1 H2. cbn. by rewrite waiting_app, H1. Qed.

Lemma degraded_ok s : well_formed (history s) -> phase_ok (over (run_turn_degraded env s)).
Proof.
  intros H. unfold run_turn_degraded. destruct (plain_ env _ _); [|done..]. unfold phase_ok. cbn [fst snd over].
  unfold well_formed. eapply (push_waiting _ _ []); done.
Qed.

Lemma turn_step_ok ps : phase_ok ps -> phase_ok (turn_step env ps).
Proof.
  destruct ps as [p s]. destruct p as [iter|iter [|call calls]|r]; unfold phase_ok; cbn [fst snd]; intros H.
  - cbn [turn_step]. destruct (negb _); [done|]. destruct (model (log s) (history s)) as [[text|calls]|e|]; cbn [fst snd].
    + eapply (push_waiting _ _ []); done.
    + eapply (push_waiting _ _ []); done.
    + destruct (_ && _); [|done]. apply (degraded_ok (set_degraded (happened Requested s))). done.
    + done.
  - done.
  - cbn [turn_step]. destruct (exec_tool_quiet call s) as (Hh & _ & _). destruct (exec_tool env call s) as [result s1]. cbn [fst snd] in *.
    eapply push_waiting; [rewrite Hh; exact H|]. cbn. by rewrite bool_decide_eq_true_2.
  - done.
Qed.

Lemma turn_start_ok s : well_formed (history s) -> phase_ok (turn_start env s).
Proof. intros H. unfold turn_start. destruct (negb _); [done|]. destruct (degraded s); [by apply degraded_ok|done]. Qed.

Lemma iter_ok n ps : phase_ok ps -> phase_ok (Nat.iter n (turn_step env) ps).
Proof. intros H. induction n as [|n IH]; [done|]. rewrite Nat.iter_succ. by apply turn_step_ok. Qed.

(** ** The loops take the steps *)

Lemma iter_add {A} (f : A -> A) n m x : Nat.iter (n + m) f x = Nat.iter n f (Nat.iter m f x).
Proof. induction n as [|n IH]; [done|]. cbn [Nat.add]. rewrite !Nat.iter_succ. by rewrite IH. Qed.

Lemma iter_one {A} (f : A -> A) x : Nat.iter 1 f x = f x.
Proof. done. Qed.

Lemma exec_calls_steps iter calls s :
  Nat.iter (length calls) (turn_step env) (Executing iter calls, s) = (Executing iter [], exec_calls env calls s).
Proof.
  revert s. induction calls as [|c calls IH]; intros s; [done|]. replace (length (c :: calls)) with (length calls + 1)%nat by (simpl; lia).
  rewrite iter_add. rewrite !iter_one. cbn [turn_step exec_calls]. destruct (exec_tool env c s) as [result s1]. apply IH.
Qed.

Lemma iterations_steps budget iter s :
  (budget + iter = MAX_ITERATIONS)%nat ->
  exists n, Nat.iter n (turn_step env) (Asking iter, s) = over (iterations env budget iter s).
Proof.
  revert iter s. induction budget as [|budget IH]; intros iter s Hb.
  - exists 1%nat. rewrite !iter_one. cbn [turn_step iterations]. destruct (Nat.ltb_spec iter MAX_ITERATIONS); [lia|done].
  - assert (turn_step env (Asking iter, s) =
      let resp := model (log s) (history s) in
      let s := happened Requested s in
      match resp with
      | Ok (Text text) => (Over (Ok tt), answer text s)
      | Ok (ToolCalls calls) => (Executing iter calls, push (Assistant None calls) s)
      | Err e => if (iter =? 0)%nat && is_tools_unsupported e then over (run_turn_degraded env (set_degraded s)) else (Over (Err e), s)
      | Panic => (Over Panic, s)
      end) as Hstep.
    { cbn [turn_step]. destruct (Nat.ltb_spec iter MAX_ITERATIONS); [done|lia]. }
    cbn [iterations]. destruct (model (log s) (history s)) as [[text|calls]|e|] eqn:Em; cbv zeta in Hstep.
    + exists 1%nat. rewrite !iter_one. by rewrite Hstep.
    + destruct (IH (S iter) (exec_calls env calls (push (Assistant None calls) (happened Requested s)))) as [n Hn]; [lia|].
      exists (n + (1 + (length calls + 1)))%nat. rewrite iter_add, iter_add, (iter_add _ (length calls)). rewrite !iter_one. rewrite Hstep.
      rewrite exec_calls_steps. exact Hn.
    + exists 1%nat. rewrite !iter_one. rewrite Hstep. by destruct (_ && _).
    + exists 1%nat. rewrite !iter_one. by rewrite Hstep.
Qed.

(** The requests that are left at a point of a turn. *)
Definition budget_left (p : Phase) : nat :=
  match p with Asking iter => MAX_ITERATIONS - iter | Executing iter _ => MAX_ITERATIONS - S iter | Over _ => 0 end.

Lemma degraded_adds s : adds [] 0 s (run_turn_degraded env s).2.
Proof.
  unfold run_turn_degraded. destruct (plain_ env _ _); apply (adds_events [] _ [Prompted]); try done; vm_compute; lia.
Qed.

Lemma turn_step_adds ps :
  exists k, adds [] k ps.2 (turn_step env ps).2 /\ (k + budget_left (turn_step env ps).1 <= budget_left ps.1)%nat.
Proof.
  destruct ps as [p s]. destruct p as [iter|iter [|call calls]|r]; cbn [fst snd].
  - cbn [turn_step]. destruct (Nat.ltb_spec iter MAX_ITERATIONS) as [Hlt|Hge]; cbn [negb]; [|exists O; split; [apply adds_refl|cbn [budget_left turn_step turn_start fst snd over]; lia]].
    exists 1%nat. assert (forall s', log s' = log (happened Requested s) -> tree s' = tree s -> adds [] 1 s s') as Hreq.
    { intros s' Hl Ht. apply (adds_events [] _ [Requested]); [by rewrite Hl|done|vm_compute; lia|done]. }
    destruct (model (log s) (history s)) as [[text|calls]|e|]; cbn [fst snd]; [by split; [apply Hreq|cbn [budget_left turn_step turn_start fst snd over]; lia]|by split; [apply Hreq|cbn [budget_left turn_step turn_start fst snd over]; lia]| |by split; [apply Hreq|cbn [budget_left turn_step turn_start fst snd over]; lia]].
    destruct (_ && _); cbn [fst snd over]; [|by split; [apply Hreq|cbn [budget_left turn_step turn_start fst snd over]; lia]]. split; [|cbn [budget_left turn_step turn_start fst snd over]; lia].
    apply (adds_trans [] 1 0 _ (set_degraded (happened Requested s))); [by apply Hreq|apply degraded_adds].
  - exists O. split; [apply adds_refl|cbn [budget_left turn_step turn_start fst snd over]; lia].
  - exists O. cbn [turn_step]. destruct (exec_tool_quiet call s) as (_ & _ & Ha). destruct (exec_tool env call s) as [result s1]. cbn [fst snd] in *.
    split; [|cbn [budget_left turn_step turn_start fst snd over]; lia]. apply (adds_trans [] 0 0 _ s1); [done|]. by apply adds_same.
  - exists O. split; [apply adds_refl|cbn [budget_left turn_step turn_start fst snd over]; lia].
Qed.

Lemma iter_adds n ps :
  exists k, adds [] k ps.2 (Nat.iter n (turn_step env) ps).2 /\ (k + budget_left (Nat.iter n (turn_step env) ps).1 <= budget_left ps.1)%nat.
Proof.
  induction n as [|n (k & Ha & Hb)]; [exists O; split; [apply adds_refl|done]|]. rewrite Nat.iter_succ.
  destruct (turn_step_adds (Nat.iter n (turn_step env) ps)) as (k' & Ha' & Hb'). exists (k + k')%nat. split; [by eapply adds_trans|lia].
Qed.

Lemma turn_start_adds s : exists k, adds [] k s (turn_start env s).2 /\ (k + budget_left (turn_start env s).1 <= MAX_ITERATIONS)%nat.
Proof.
  exists O. unfold turn_start. destruct (negb _); [split; [apply adds_refl|cbn [budget_left turn_step turn_start fst snd over]; lia]|].
  destruct (degraded s); [split; [apply degraded_adds|cbn [budget_left turn_step turn_start fst snd over]; lia]|split; [apply adds_refl|cbn [budget_left turn_step turn_start fst snd over]; lia]].
Qed.

Lemma cut_adds n s : adds [] MAX_ITERATIONS s (Nat.iter n (turn_step env) (turn_start env s)).2.
Proof.
  destruct (turn_start_adds s) as (k & Ha & Hb), (iter_adds n (turn_start env s)) as (k' & Ha' & Hb').
  apply (adds_more [] [] (k + k')); [done|lia|]. by eapply adds_trans.
Qed.

Lemma run_turn_steps s : exists n, Nat.iter n (turn_step env) (turn_start env s) = over (run_turn env s).
Proof.
  unfold turn_start, run_turn. destruct (negb _); [by exists O|]. destruct (degraded s); [by exists O|]. by apply iterations_steps.
Qed.

Lemma run_turn_adds s : adds [] MAX_ITERATIONS s (run_turn env s).2.
Proof. destruct (run_turn_steps s) as [n Hn]. pose proof (cut_adds n s) as Ha. by rewrite Hn in Ha. Qed.

Lemma run_turn_ok s : well_formed (history s) -> well_formed (history (run_turn env s).2).
Proof.
  intros H. destruct (run_turn_steps s) as [n Hn]. pose proof (iter_ok n _ (turn_start_ok s H)) as Ho. rewrite Hn in Ho. done.
Qed.

(** C4: a turn always ends: taking its steps one after another, however many calls the model
    asks for, comes to an end with what the loops of [run_turn] give, and the model was asked
    at most eight times. *)
Theorem turn_ends s :
  (exists n, Nat.iter n (turn_step env) (turn_start env s) = over (run_turn env s)) /\
  exists es, log (run_turn env s).2 = log s ++ es /\ (requests es <= MAX_ITERATIONS)%nat.
Proof.
  split; [apply run_turn_steps|]. destruct (run_turn_adds s) as [(es & ? & _ & ? & _)]. by exists es.
Qed.

(** ** Sessions *)

Lemma turn_step_history ps : exists more, history (turn_step env ps).2 = history ps.2 ++ more.
Proof.
  destruct ps as [p s]. assert (forall s', history s' = history s -> exists more, history s' = history s ++ more) as Hsame.
  { intros s' ->. exists []. by rewrite app_nil_r. }
  assert (forall s', history s' = history s -> exists more, history (run_turn_degraded env s').2 = history s ++ more) as Hdeg.
  { intros s' E. unfold run_turn_degraded. destruct (plain_ env _ _); cbn; rewrite E; [by eexists|exists []; by rewrite app_nil_r..]. }
  destruct p as [iter|iter [|call calls]|r]; cbn [turn_step]; try by apply Hsame.
  - destruct (negb _); [by apply Hsame|]. destruct (model _ _) as [[text|calls]|e|]; [by eexists|by eexists| |by apply Hsame].
    destruct (_ && _); [by apply Hdeg|by apply Hsame].
  - destruct (exec_tool_quiet call s) as (Hh & _). destruct (exec_tool env call s) as [result s1]. cbn in *. rewrite Hh. by eexists.
Qed.

Lemma cut_history n s : exists more, history (Nat.iter n (turn_step env) (turn_start env s)).2 = history s ++ more.
Proof.
  induction n as [|n [more IH]].
  - unfold turn_start, run_turn_degraded. cbn [Nat.iter nat_rect]. destruct (negb _); [exists []; by rewrite app_nil_r|].
    destruct (degraded s); [|exists []; by rewrite app_nil_r]. destruct (plain_ env _ _); cbn; [by eexists|exists []; by rewrite app_nil_r..].
  - rewrite Nat.iter_succ. destruct (turn_step_history (Nat.iter n (turn_step env) (turn_start env s))) as [more' E].
    rewrite E, IH, <- app_assoc. by eexists.
Qed.

Lemma resumed_ok (ms : list (ChatMessage str)) s :
  well_formed (history s) -> waiting [] ms = Some [] -> well_formed (history (foldl (fun s m => push m s) s ms)).
Proof.
  intros H Hm. assert (history (foldl (fun s m => push m s) s ms) = history s ++ ms) as ->.
  { revert s H. clear. induction ms as [|m ms IH]; intros s H; cbn [foldl]; [by rewrite app_nil_r|].
    assert (forall s', history (foldl (fun s m => push m s) s' ms) = history s' ++ ms) as E.
    { clear. induction ms as [|m ms IH]; intros s'; cbn [foldl]; [by rewrite app_nil_r|]. rewrite IH. cbn. by rewrite <- app_assoc. }
    rewrite E. cbn. by rewrite <- app_assoc. }
  unfold well_formed. by rewrite waiting_app, H.
Qed.

Lemma restored_ok values : waiting (R := str) [] (session_values_to_messages values) = Some [].
Proof.
  unfold session_values_to_messages. induction values as [|v values IH]; [done|]. cbn [omap list_omap].
  destruct (restored_message v) as [m|] eqn:E; [|done].
  assert (exists c, m = User c \/ m = Assistant (Some c) []) as [c [-> | ->]]; [|done..].
  unfold restored_message in E. destruct (get_str v (lit "role")) as [role|]; [|done]. cbn [mbind option_bind] in E.
  destruct (get_str v (lit "content")) as [content|]; [|done]. cbn [mbind option_bind] in E. exists content.
  repeat case_bool_decide; simplify_eq; auto.
Qed.

(** The inputs that run commands of aic's own. *)
Definition probing (i : Input) : bool := match i with Probes _ | Health | Capture _ => true | _ => false end.

Lemma rounds_quiet rounds s :
  allow_run_command cfg = true -> quiet [] s (foldl (fun s probes => (collect_snapshot env probes None s).2) s rounds).
Proof.
  intros Hallow. revert s. induction rounds as [|probes rounds IH]; intros s; [apply quiet_refl|]. cbn [foldl].
  eapply quiet_trans; [|apply IH]. apply collect_snapshot_quiet. by left.
Qed.

Lemma resolved_commands ids : (resolve_ids env ids).*2 = omap (probe_command (linux cfg)) ids.
Proof.
  induction ids as [|id ids IH]; [done|]. unfold resolve_ids in *. cbn [omap list_omap].
  destruct (probe_command _ id); cbn [mbind option_bind]; [|exact IH]. by rewrite fmap_cons, IH.
Qed.

Lemma probing_quiet i s : probing i = true -> quiet (unswitched i) s (handle env i s).
Proof.
  destruct i as [| | | | |rounds| |probes]; try done; intros _; cbn [handle]; unfold handle_probes, handle_health.
  - destruct (allow_run_command cfg) eqn:Ha; [by apply rounds_quiet|apply quiet_refl].
  - apply collect_snapshot_quiet. right. by rewrite resolved_commands.
  - apply collect_local_body_quiet. by right.
Qed.

(** Everything but a [/fix] that is cancelled. *)
Definition calm (i : Input) : Prop := match i with Fix (Some _) => False | _ => True end.

Definition sound_history (h : list (ChatMessage str)) : Prop := well_formed h /\ exists preface rest, h = System preface :: rest.

Lemma well_formed_say text s : well_formed (history s) -> well_formed (history (push (User text) s)).
Proof. intros H. unfold well_formed. by eapply (push_waiting _ _ []). Qed.

Lemma handle_ok i s : calm i -> well_formed (history s) -> (exists p rest, history s = System p :: rest) -> well_formed (history (handle env i s)).
Proof.
  intros Hc H (p & rest & Hp). destruct (probing i) eqn:Hi; [by rewrite (proj1 (probing_quiet i s Hi))|].
  destruct i as [text [n|]| |[n|]|[values|]|kind text|rounds| |probes]; cbn [handle]; try done.
  - unfold cut_turn. destruct (cut_history n (push (User text) s)) as [more Hm].
    pose proof (iter_ok n _ (turn_start_ok _ (well_formed_say text s H))) as Ho.
    destruct (Nat.iter n (turn_step env) (turn_start env (push (User text) s))) as [ph s1]. cbn [fst snd] in *.
    assert (well_formed (history (truncate (length (history (push (User text) s))) s1))) as Hcut.
    { cbn [truncate history]. rewrite Hm, take_app_length. by apply well_formed_say. }
    by destruct ph.
  - by apply run_turn_ok, well_formed_say.
  - cbn [truncate history]. by rewrite Hp.
  - destruct (negb _); [done|]. by apply run_turn_ok, well_formed_say.
  - apply resumed_ok; [done|apply restored_ok].
  - unfold answer, well_formed. eapply (push_waiting _ _ []); [|done]. by apply well_formed_say.
Qed.

Lemma extends_first (h h' : list (ChatMessage str)) more p rest : h = System p :: rest -> h' = h ++ more -> exists p rest, h' = System p :: rest.
Proof. intros -> ->. by eexists _, _. Qed.

Lemma run_turn_history s : exists more, history (run_turn env s).2 = history s ++ more.
Proof. destruct (run_turn_steps s) as [n Hn]. destruct (cut_history n s) as [more E]. rewrite Hn in E. by exists more. Qed.

Lemma handle_first i s : (exists p rest, history s = System p :: rest) -> exists p rest, history (handle env i s) = System p :: rest.
Proof.
  intros (p & rest & Hp). destruct (probing i) eqn:Hi; [rewrite (proj1 (probing_quiet i s Hi)); by eexists _, _|].
  destruct i as [text [n|]| |[n|]|[values|]|kind text|rounds| |probes]; cbn [handle]; try done; try (by eexists _, _).
  - unfold cut_turn. destruct (cut_history n (push (User text) s)) as [more Hm].
    destruct (Nat.iter n (turn_step env) (turn_start env (push (User text) s))) as [ph s1]. cbn [fst snd push history] in *.
    rewrite Hp in *. destruct ph; cbn [truncate history]; rewrite Hm; by eexists _, _.
  - destruct (run_turn_history (push (User text) s)) as [more E]. rewrite E. cbn. rewrite Hp. by eexists _, _.
  - cbn [truncate history]. rewrite Hp. by eexists _, _.
  - destruct (negb _); [by eexists _, _|]. unfold cut_turn. destruct (cut_history n (push (User FIX_REQUEST) s)) as [more Hm].
    destruct (Nat.iter n (turn_step env) (turn_start env (push (User FIX_REQUEST) s))) as [ph s1]. cbn [fst snd push history] in *.
    rewrite Hm, Hp. by eexists _, _.
  - destruct (negb _); [by eexists _, _|]. destruct (run_turn_history (push (User FIX_REQUEST) s)) as [more E]. rewrite E. cbn. rewrite Hp. by eexists _, _.
  - revert s p rest Hp. induction (session_values_to_messages values) as [|m ms IH]; intros s p rest Hp; cbn [foldl]; [by eexists _, _|].
    eapply IH. cbn. by rewrite Hp.
  - unfold answer. cbn. rewrite Hp. by eexists _, _.
Qed.

(** C2: whatever the user and the model do, with any message cancelled at any point, the
    history stays a conversation that a provider takes: it begins with the system text, and
    every call of a tool is answered, in order, before anything else is said. *)
Theorem history_well_formed preface fs inputs (calm_inputs : Forall calm inputs) :
  sound_history (history (session env preface fs inputs)).
Proof.
  unfold session. assert (forall s, sound_history (history s) -> sound_history (history (foldl (fun s i => handle env i s) s inputs))) as H.
  { induction calm_inputs as [|i inputs Hi _ IH]; intros s Hs; [done|]. cbn [foldl]. apply IH. destruct Hs as [Hw Hf].
    split; [by apply handle_ok|by apply handle_first]. }
  apply H. split; [done|]. by eexists _, _.
Qed.

Lemma handle_adds i s : adds (unswitched i) MAX_ITERATIONS s (handle env i s).
Proof.
  destruct (probing i) eqn:Hi. { eapply adds_more; [done| |apply probing_quiet, Hi]. lia. }
  assert (forall m, adds [] 0 s (push m s)) as Hpush by (intros m; by apply adds_same).
  assert (forall s s' s'', adds [] 0 s s' -> adds [] MAX_ITERATIONS s' s'' -> adds [] MAX_ITERATIONS s s'') as Htr by (intros ???; apply (adds_trans [] 0)).
  destruct i as [text [n|]| |[n|]|[values|]|kind text|rounds| |probes]; cbn [handle unswitched]; try done; try apply adds_refl.
  - unfold cut_turn. pose proof (cut_adds n (push (User text) s)) as Ha. destruct (Nat.iter n _ _) as [ph s1]. cbn [snd] in Ha.
    assert (adds [] MAX_ITERATIONS s s1) by eauto. destruct ph; try done;
      (apply (adds_more [] [] (MAX_ITERATIONS + 0)); [done|lia|]; eapply adds_trans; [done|by apply adds_same]).
  - eapply Htr; [apply Hpush|apply run_turn_adds].
  - by apply adds_same.
  - destruct (negb _); [apply adds_refl|]. unfold cut_turn. pose proof (cut_adds n (push (User FIX_REQUEST) s)) as Ha.
    destruct (Nat.iter n _ _) as [ph s1]. eapply Htr; [apply Hpush|done].
  - destruct (negb _); [apply adds_refl|]. eapply Htr; [apply Hpush|apply run_turn_adds].
  - revert s Hpush. induction (session_values_to_messages values) as [|m ms IH]; intros s Hpush; cbn [foldl]; [apply adds_refl|].
    eapply Htr; [apply Hpush|]. apply IH. intros m'. by apply adds_same.
  - by apply adds_same.
Qed.

Lemma session_adds preface fs inputs :
  exists n, adds (inputs ≫= unswitched) n (new_session preface fs) (session env preface fs inputs).
Proof.
  unfold session. generalize (new_session preface fs) as s. induction inputs as [|i inputs IH]; intros s; cbn [foldl]; [exists O; apply adds_refl|].
  destruct (IH (handle env i s)) as [n Hn]. exists (MAX_ITERATIONS + n)%nat. rewrite bind_cons.
  eapply adds_trans; (eapply adds_more; [|reflexivity|]); [|apply handle_adds| |exact Hn]; set_solver.
Qed.

Lemma guarded_at us before es pre e post : guarded us before es -> es = pre ++ e :: post -> allowed us (match last pre with Some b => Some b | None => before end) e.
Proof.
  revert before pre. induction es as [|x es IH]; intros before pre Hg E; [by destruct pre|]. destruct Hg as [Hx Hg].
  destruct pre as [|y pre]; injection E as -> E; [done|]. specialize (IH _ _ Hg E). destruct pre as [|z pre]; [done|].
  change (last (y :: z :: pre)) with (last (z :: pre)). revert IH. destruct (last (z :: pre)) eqn:El; [done|]. by apply last_None in El.
Qed.

(** ** Requests *)

(** Whose turn it is at each point of a turn. *)
Definition phase_turns (ps : Phase * Session) : Prop :=
  match ps.1 with
  | Asking _ => turns false (history ps.2) = Some true
  | Executing _ calls => exists due, turns false (history ps.2) = Some due /\ (calls = [] -> due = true)
  | Over _ => exists due, turns false (history ps.2) = Some due
  end.

Section Requests.
(** What [no_empty_calls] says of the answers of providers. *)
Hypothesis some_calls : forall log h calls, model log h = Ok (ToolCalls calls) -> calls <> [].

Lemma push_turns m s d : turns false (history s) = Some d -> turns false (history (push m s)) = turns d [m].
Proof. intros H. cbn. by rewrite turns_app, H. Qed.

Lemma degraded_turns s : turns false (history s) = Some true -> phase_turns (over (run_turn_degraded env s)).
Proof.
  intros H. unfold run_turn_degraded. destruct (plain_ env _ _); unfold phase_turns; cbn [fst snd over]; [|by eexists..].
  eexists. by apply (push_turns (Assistant (Some a) []) _ true).
Qed.

Lemma turn_step_turns ps : phase_turns ps -> phase_turns (turn_step env ps).
Proof.
  destruct ps as [p s]. destruct p as [iter|iter [|call calls]|r]; unfold phase_turns; cbn [fst snd]; intros H.
  - cbn [turn_step]. destruct (negb _); [by eexists|]. destruct (model (log s) (history s)) as [[text|calls]|e|] eqn:Em; cbn [fst snd].
    + eexists. by apply (push_turns (Assistant (Some text) []) _ true).
    + exists false. split; [by apply (push_turns (Assistant None calls) _ true)|]. intros ->. by destruct (some_calls _ _ _ Em).
    + destruct (_ && _); [|by eexists]. by apply (degraded_turns (set_degraded (happened Requested s))).
    + by eexists.
  - destruct H as (due & H & Hd). by rewrite Hd in H.
  - destruct H as (due & H & _). cbn [turn_step]. destruct (exec_tool_quiet call s) as (Hh & _ & _).
    destruct (exec_tool env call s) as [result s1]. cbn [fst snd] in *. exists true. split; [|done].
    apply (push_turns (Tool (id call) result) s1 due). by rewrite Hh.
  - done.
Qed.

Lemma turn_start_turns s : turns false (history s) = Some true -> phase_turns (turn_start env s).
Proof.
  intros H. unfold turn_start. destruct (negb _); [by eexists|]. destruct (degraded s); [by apply degraded_turns|done].
Qed.

Lemma iter_turns n ps : phase_turns ps -> phase_turns (Nat.iter n (turn_step env) ps).
Proof. intros H. induction n as [|n IH]; [done|]. rewrite Nat.iter_succ. by apply turn_step_turns. Qed.

Lemma phase_turns_any ps : phase_turns ps -> exists due, turns false (history ps.2) = Some due.
Proof. unfold phase_turns. destruct ps.1; [by eexists|intros (due & H & _); by exists due|done]. Qed.

Lemma run_turn_turns s : turns false (history s) = Some true -> exists due, turns false (history (run_turn env s).2) = Some due.
Proof.
  intros H. destruct (run_turn_steps s) as [n Hn]. pose proof (phase_turns_any _ (iter_turns n _ (turn_start_turns s H))) as Ho.
  by rewrite Hn in Ho.
Qed.

(** Inputs that do not bring in messages from elsewhere. *)
Definition own (i : Input) : Prop := calm i /\ match i with Resume (Some _) => False | _ => True end.

Lemma say_turns text s due : turns false (history s) = Some due -> turns false (history (push (User text) s)) = Some true.
Proof. apply (push_turns (User text)). Qed.

Lemma handle_turns i s :
  own i -> (exists p rest, history s = System p :: rest) -> (exists due, turns false (history s) = Some due) ->
  exists due, turns false (history (handle env i s)) = Some due.
Proof.
  intros [Hc Ho] (p & rest & Hp) [due H]. destruct (probing i) eqn:Hi; [rewrite (proj1 (probing_quiet i s Hi)); by exists due|].
  destruct i as [text [n|]| |[n|]|[values|]|kind text|rounds| |probes]; cbn [handle]; try done; try by exists due.
  - unfold cut_turn. destruct (cut_history n (push (User text) s)) as [more Hm].
    pose proof (phase_turns_any _ (iter_turns n _ (turn_start_turns _ (say_turns text s due H)))) as Ht.
    destruct (Nat.iter n (turn_step env) (turn_start env (push (User text) s))) as [ph s1]. cbn [fst snd] in *.
    assert (exists d, turns false (history (truncate (length (history (push (User text) s))) s1)) = Some d) as Hcut.
    { cbn [truncate history]. rewrite Hm, take_app_length. exists true. by apply (say_turns text s due). }
    by destruct ph.
  - by apply run_turn_turns, (say_turns text s due).
  - cbn [truncate history]. rewrite Hp. by exists false.
  - destruct (negb _); [by exists due|]. by apply run_turn_turns, (say_turns _ s due).
  - unfold answer. exists false. rewrite (push_turns _ _ true); [done|]. by apply (say_turns _ s due).
Qed.

Lemma session_turns preface fs inputs :
  Forall own inputs ->
  well_formed (history (session env preface fs inputs)) /\ exists due, turns false (history (session env preface fs inputs)) = Some due.
Proof.
  intros Hin. unfold session.
  assert (forall s, sound_history (history s) -> (exists due, turns false (history s) = Some due) ->
            let s' := foldl (fun s i => handle env i s) s inputs in
            well_formed (history s') /\ exists due, turns false (history s') = Some due) as H.
  { induction Hin as [|i inputs [Hi Ho] _ IH]; intros s [Hw Hf] Ht; [done|]. cbn [foldl]. apply IH.
    - split; [by apply handle_ok|by apply handle_first].
    - by apply handle_turns. }
  apply H; [split; [done|by eexists _, _]|by eexists].
Qed.

(** C3: every request of a turn is one that Anthropic takes. In a session whose inputs cancel no
    [/fix] and restore no saved conversation ([own]; [cancelled_fix_dangles] shows what the
    former leaves), and with a provider that never asks for an empty list of calls, each time
    the model is asked in a turn that follows the messages alternate, beginning with the user,
    and each user message holds exactly the results of the calls before it. *)
Theorem requests_valid preface fs inputs text n (own_inputs : Forall own inputs) :
  match Nat.iter n (turn_step env) (turn_start env (push (User text) (session env preface fs inputs))) with
  | (Asking _, s) => valid_request [] true (to_anthropic_request (json_parse_ env) (history s)).2
  | _ => True
  end.
Proof.
  destruct (session_turns preface fs inputs own_inputs) as [Hw [due Ht]]. set (s := session env preface fs inputs) in *.
  pose proof (iter_turns n _ (turn_start_turns _ (say_turns text s due Ht))) as H1.
  pose proof (iter_ok n _ (turn_start_ok _ (well_formed_say text s Hw))) as H2.
  destruct (Nat.iter n _ _) as [[iter|iter calls|r] s']; [|done..]. apply answered_request_valid; [exact H2|by exists true].
Qed.
End Requests.

(** a read-only session hides the tools that write, but does not refuse them: a call that
    names one is carried out when the user agrees, while a command is refused. *)
Theorem read_only_session_writes args corr s text fs
    (read_only : allow_run_command cfg = false)
    (agreed : consent (log s) (write_prompt (default [] (get_str args (lit "path")))) = true)
    (writes : FileTools.execute to_lowercase (regex_new_ env) (order_ env) (lit "write_file") args (tree s) (sandbox cfg) = Ok (text, fs)) :
  tree (dispatch env (lit "write_file") args corr s).2 = fs /\
  (dispatch env (lit "run_command") args corr s).1 = Ok RUN_DISABLED.
Proof.
  split.
  - unfold dispatch. rewrite bool_decide_eq_false_2, bool_decide_eq_true_2 by (by_decide || set_solver).
    unfold write_tool, confirm. rewrite agreed. unfold file_tool. cbn [happened tree]. by rewrite writes.
  - unfold dispatch. rewrite bool_decide_eq_true_2 by done. by rewrite read_only.
Qed.

(** a [/fix] that is cancelled between the model's request for tools and their answers
    leaves the request in the history: unlike after a cancelled message, the next request to
    the provider has calls without answers. *)
Theorem cancelled_fix_dangles s calls
    (commands : allow_run_command cfg = true) (available : llm_available cfg = true) (tools : degraded s = false)
    (whole : well_formed (history s))
    (asks : model (log s) (history s ++ [User FIX_REQUEST]) = Ok (ToolCalls calls)) :
  waiting [] (history (handle env (Fix (Some 1%nat)) s)) = Some (id <$> calls) /\
  waiting [] (history (handle env (Say FIX_REQUEST (Some 1%nat)) s)) = Some [].
Proof.
  cbn [handle]. rewrite commands. cbn [negb]. unfold cut_turn, turn_start. rewrite available. cbn [push degraded negb]. rewrite tools.
  rewrite iter_one. cbn [turn_step Nat.ltb Nat.leb MAX_ITERATIONS negb push log history]. rewrite asks.
  cbn [snd happened push history truncate]. split.
  - by rewrite !waiting_app, whole.
  - rewrite take_app_length. by rewrite waiting_app, whole.
Qed.


Lemma silent_probes probes timeout s
    (on_linux : linux cfg = true) (ascii : to_lowercase_ env = lower)
    (shell_keeps : forall es c d t fs, (shell_ env es c d t fs).2 = fs)
    (no_secrets : forall t p, RunCommand.canonicalize (view cwd (tree s)) cwd t = Some p -> is_sensitive_path_str lower (render p) = false) :
  Forall (fun p => runs_silently p.2 = true) probes ->
  log (collect_snapshot env probes (Some timeout) s).2
  = log s ++ ((fun p => Ran p.2 (sb_root (sandbox cfg)) (Z.max 1 (Z.min MAX_TIMEOUT_SECS timeout))) <$> probes).
Proof.
  intros Hp. revert s no_secrets. induction Hp as [|[name cmd] probes Hc Hp IH]; intros s Hs; [by rewrite app_nil_r|].
  cbn [collect_snapshot]. unfold run_probe. rewrite on_linux, ascii.
  rewrite (runs_silently_timed (view cwd (tree (next_call s))) (command_root env) Hs cmd None (Some timeout) (root (command_root env)) Hc eq_refl).
  cbn [perform]. pose proof (shell_keeps (log (next_call s)) cmd (root (command_root env)) (resolve_timeout {| a_command := Some cmd; a_cwd := None; a_timeout := Some timeout |}) (tree (next_call s))) as Hk.
  unfold perform. destruct (shell_ env _ _ _ _ _) as [out fs]. cbn [snd] in Hk. subst fs.
  set (s2 := record_tool _ _ _ _ _ _). specialize (IH s2 Hs). destruct (collect_snapshot env probes (Some timeout) s2) as [rest s3].
  cbn [snd] in *. rewrite IH. subst s2. cbn [record_tool log with_tree happened next_call]. rewrite <- app_assoc, fmap_cons. done.
Qed.

(** "disable shell execution with --no-run": in a session where commands are off, the nine
    probes of [/health] still run in the shell, each for at most three seconds and without a
    question, where no path that they would open is sensitive. *)
Theorem read_only_session_runs s
    (read_only : allow_run_command cfg = false) (on_linux : linux cfg = true) (ascii : to_lowercase_ env = lower)
    (shell_keeps : forall es c d t fs, (shell_ env es c d t fs).2 = fs)
    (no_secrets : forall t p, RunCommand.canonicalize (view cwd (tree s)) cwd t = Some p -> is_sensitive_path_str lower (render p) = false) :
  log (handle env Health s) = log s ++ ((fun c => Ran c (sb_root (sandbox cfg)) 3) <$> omap (probe_command true) HEALTH_PROBE_IDS) /\
  length (omap (probe_command true) HEALTH_PROBE_IDS) = 9%nat.
Proof.
  split; [|done]. cbn [handle]. unfold handle_health. rewrite silent_probes; try done.
  - f_equal. unfold resolve_ids. rewrite on_linux. by vm_compute.
  - unfold resolve_ids. rewrite on_linux. vm_compute omap. repeat (apply Forall_cons; split; [by vm_compute|]). by apply Forall_nil.
Qed.
End Session.

(** ** Witnesses *)

Definition demo_cfg (commands : bool) : Config :=
  {| sandbox := {| sb_root := []; gitignore := [] |}; linux := true; allow_run_command := commands; jev_enabled := false; log_files := [];
     has_obs := false; has_rca_agent := false; mcp := []; llm_available := true; run_id := lit "r" |}.

Definition demo_call (tool : str) : ToolCall := {| id := lit "c"; name := tool; arguments := lit "a" |}.

Definition demo_args : Value := VObject [(lit "path", VString (lit "f")); (lit "content", VString (lit "x"))].

(** A model that asks for a tool once and then answers, and a user who agrees to everything. *)
Definition demo_env (commands : bool) (tool : str) : Env :=
  {| cfg_ := demo_cfg commands; to_lowercase_ s := s; regex_new_ _ := None; order_ l := l; redact_ s := s; json_parse_ _ := Some demo_args;
     json_print_ _ := []; parse_error_ s := s; error_text_ _ := []; refusal_ _ := []; reason_ _ := []; cwd_ := []; io_error_ := [];
     model_ log _ := match log with [] => Ok (ToolCalls [demo_call tool]) | _ => Ok (Text (lit "done")) end;
     plain_ _ _ := Ok []; consent_ _ _ := true; shell_ _ _ _ _ fs := ([], fs); service_ _ _ _ := Ok []; choose_log_ _ _ := None |}.

Lemma history_well_formed_witness :
  sound_history (history (session (demo_env true (lit "write_file")) (lit "p") ∅ [Say (lit "q") (Some 1%nat); Fix None; Say (lit "q") None])).
Proof. apply (history_well_formed (demo_env true (lit "write_file"))). repeat constructor. Defined.

Definition quiet_env : Env :=
  {| cfg_ := demo_cfg false; to_lowercase_ := lower; regex_new_ _ := None; order_ l := l; redact_ s := s; json_parse_ _ := None;
     json_print_ _ := []; parse_error_ s := s; error_text_ _ := []; refusal_ _ := []; reason_ _ := []; cwd_ := []; io_error_ := [];
     model_ _ _ := Panic; plain_ _ _ := Panic; consent_ _ _ := false; shell_ _ _ _ _ fs := ([], fs); service_ _ _ _ := Ok []; choose_log_ _ _ := None |}.

Lemma nothing_there p loc : FileTree.canonicalize ∅ p = Some loc -> loc = [].
Proof.
  unfold FileTree.canonicalize. induction p as [|c p IH]; cbn; [congruence|]. case_bool_decide; [exact IH|].
  by rewrite lookup_empty.
Qed.

Lemma read_only_session_runs_witness :
  log (handle quiet_env Health (new_session [] ∅)) = (fun c => Ran c [] 3) <$> omap (probe_command true) HEALTH_PROBE_IDS.
Proof.
  refine (proj1 (read_only_session_runs quiet_env (new_session [] ∅) eq_refl eq_refl eq_refl _ _)); [done|].
  intros t p E. cbn in E. unfold canonicalize_text in E. apply bind_Some in E as (loc & E & H). apply nothing_there in E as ->.
  revert H. destruct (dir_form t); [destruct (lookup_node _ _) as [[]|]|]; try done; intros [= <-]; by vm_compute.
Defined.

Lemma read_only_session_writes_witness :
  tree (dispatch (demo_env false (lit "write_file")) (lit "write_file") demo_args [] (new_session [] ∅)).2 !! [lit "f"] = Some (NFile (lit "x")).
Proof.
  assert (match FileTools.execute (fun s => s) (fun _ => None) (fun l => l) (lit "write_file") demo_args ∅ (sandbox (demo_cfg false)) with
          | Ok (_, fs) => match fs !! [lit "f"] with Some (NFile c) => bool_decide (c = lit "x") | _ => false end
          | _ => false
          end = true) as H by (vm_compute; reflexivity).
  destruct (FileTools.execute _ _ _ _ _ _ _) as [[text fs]| |] eqn:E; [|discriminate H..].
  assert (fs !! [lit "f"] = Some (NFile (lit "x"))) as <-.
  { destruct (fs !! [lit "f"]) as [[c| |]|]; [|discriminate H..]. by apply bool_decide_eq_true_1 in H as ->. }
  f_equal.
  exact (proj1 (read_only_session_writes (demo_env false (lit "write_file")) demo_args [] (new_session [] ∅) text fs eq_refl eq_refl E)).
Defined.

Lemma cancelled_fix_dangles_witness :
  waiting [] (history (handle (demo_env true (lit "run_command")) (Fix (Some 1%nat)) (new_session [] ∅))) = Some [lit "c"].
Proof. by apply (cancelled_fix_dangles (demo_env true (lit "run_command")) (new_session [] ∅) [demo_call (lit "run_command")]). Defined.

Lemma requests_valid_witness :
  valid_request [] true
    (to_anthropic_request (fun _ => Some demo_args)
       (history (push (User (lit "r")) (session (demo_env true (lit "write_file")) (lit "p") ∅ [Say (lit "q") None])))).2.
Proof.
  refine (requests_valid (demo_env true (lit "write_file")) _ (lit "p") ∅ [Say (lit "q") None] (lit "r") 0 _).
  - intros log h calls E. destruct log; [by injection E as <-|discriminate E].
  - by repeat constructor.
Defined.
