(* ===== verification/Hosts.v ===== *)
(** * Remote hosts

    [aic-client/src/agent/hosts.rs]: the hosts of [~/.ssh/config] and [hosts.toml], groups, and
    hosts given on the command line. The files' texts and the parsed TOML are given; so is the
    name of the local user. *)

From S2P Require Import Prelude RustStr.
#[local] Open Scope outcome_scope.

Inductive HostKeyCheck := Strict | AcceptNew.
Inductive HostSource := HostsToml | SshConfig | Overlay | AdHoc.

Record HostEntry := {
  name : str;
  hostname : str;
  user : str;
  port : Z;
  identity_file : option str;
  forward_agent : bool;
  proxy_jump : option str;
  host_key_check : HostKeyCheck;
  connect_timeout_secs : Z;
  tags : list str;
  source : HostSource;
}.

Record HostGroup := { members : list str; group_tags : list str }.
Record Options := { ssh_config_import : bool; default_host_key_check : str; remote_shell_wrap : bool }.
Record Concurrency := { max_parallel : nat; per_host_timeout_secs : Z; wall_clock_timeout_secs : Z }.

(** An entry of [[[hosts]]]. *)
Record HostsTomlEntry := {
  e_name : str;
  e_hostname : option str;
  e_user : option str;
  e_port : option Z;
  e_identity_file : option str;
  e_forward_agent : option bool;
  e_proxy_jump : option str;
  e_host_key_check : option str;
  e_connect_timeout_secs : option Z;
  e_tags : list str;
}.

Record HostsTomlDoc := {
  d_options : Options;
  d_concurrency : Concurrency;
  d_groups : gmap str HostGroup;
  d_hosts : list HostsTomlEntry;
}.

Record Inventory := {
  options : Options;
  concurrency : Concurrency;
  groups : gmap str HostGroup;
  hosts : gmap str HostEntry;
  ssh_config_warnings : list str;
}.

Definition parse_host_key_check (s : str) : HostKeyCheck :=
  if bool_decide (s ∈ [lit "accept-new"; lit "accept_new"; lit "AcceptNew"]) then AcceptNew else Strict.

Section Inventory.
Variable whoami : str.

(** A host of which only the name is known. *)
Definition fresh_entry (name hostname : str) (check : HostKeyCheck) (source : HostSource) : HostEntry :=
  {| name := name; hostname := hostname; user := whoami; port := 22; identity_file := None; forward_agent := false;
     proxy_jump := None; host_key_check := check; connect_timeout_secs := 10; tags := []; source := source |}.

Definition apply_overlay (opts : Options) (hosts : gmap str HostEntry) (e : HostsTomlEntry) : gmap str HostEntry :=
  let default_check := parse_host_key_check (default_host_key_check opts) in
  let entry := default (fresh_entry (e_name e) [] default_check HostsToml) (hosts !! e_name e) in
  <[e_name e :=
      {| name := name entry;
         hostname := match e_hostname e with
                     | Some h => h
                     | None => match hostname entry with [] => name entry | h => h end
                     end;
         user := default (user entry) (e_user e);
         port := default (port entry) (e_port e);
         identity_file := match e_identity_file e with Some i => Some i | None => identity_file entry end;
         forward_agent := default (forward_agent entry) (e_forward_agent e);
         proxy_jump := match e_proxy_jump e with Some j => Some j | None => proxy_jump entry end;
         host_key_check := match e_host_key_check e with Some c => parse_host_key_check c | None => host_key_check entry end;
         connect_timeout_secs := default (connect_timeout_secs entry) (e_connect_timeout_secs e);
         tags := match e_tags e with [] => tags entry | t => t end;
         source := match hosts !! e_name e with Some _ => Overlay | None => HostsToml end |}]> hosts.

(** ** [ssh_config] *)

Definition contains_wildcard (s : str) : bool :=
  contains (lit "*") s || contains (lit "?") s || starts_with (lit "!") s.

Definition strip_comment (line : str) : str := match find_byte x23 line with Some i => take i line | None => line end.

(** [trim_start_matches] of white space and equals signs. *)
Fixpoint trim_seps (fuel : nat) (s : str) : str :=
  match fuel with
  | O => s
  | S fuel => match trim_start s with b :: rest => if bool_decide (b = x3d) then trim_seps fuel rest else b :: rest | [] => [] end
  end.

Definition split_kv (line : str) : option (str * str) :=
  let line := trim line in
  let word := until_ws line in
  let key := match find_byte x3d word with Some i => take i word | None => word end in
  if (length key =? length line)%nat then None else Some (key, trim_seps (length line) (drop (length key) line)).

Record SshConfigScan := {
  scanned : gmap str HostEntry;
  warnings : list str;
  current : option HostEntry;
  in_match_block : bool;
}.

Definition flush (s : SshConfigScan) : gmap str HostEntry :=
  match current s with
  | Some h => if bool_decide (name h = []) || contains_wildcard (name h) then scanned s else <[name h := h]> (scanned s)
  | None => scanned s
  end.

Definition warn (lineno : nat) (text : str) (s : SshConfigScan) : SshConfigScan :=
  {| scanned := scanned s; warnings := warnings s ++ [lit "line " ++ show_unsigned (Z.of_nat lineno) ++ lit ": " ++ text];
     current := current s; in_match_block := in_match_block s |}.

Definition with_current (h : HostEntry) (s : SshConfigScan) : SshConfigScan :=
  {| scanned := scanned s; warnings := warnings s; current := Some h; in_match_block := in_match_block s |}.

Definition set_hostname (v : str) (h : HostEntry) : HostEntry :=
  {| name := name h; hostname := v; user := user h; port := port h; identity_file := identity_file h; forward_agent := forward_agent h;
     proxy_jump := proxy_jump h; host_key_check := host_key_check h; connect_timeout_secs := connect_timeout_secs h; tags := tags h; source := source h |}.
Definition set_user (v : str) (h : HostEntry) : HostEntry :=
  {| name := name h; hostname := hostname h; user := v; port := port h; identity_file := identity_file h; forward_agent := forward_agent h;
     proxy_jump := proxy_jump h; host_key_check := host_key_check h; connect_timeout_secs := connect_timeout_secs h; tags := tags h; source := source h |}.
Definition set_port (v : Z) (h : HostEntry) : HostEntry :=
  {| name := name h; hostname := hostname h; user := user h; port := v; identity_file := identity_file h; forward_agent := forward_agent h;
     proxy_jump := proxy_jump h; host_key_check := host_key_check h; connect_timeout_secs := connect_timeout_secs h; tags := tags h; source := source h |}.
Definition set_proxy_jump (v : str) (h : HostEntry) : HostEntry :=
  {| name := name h; hostname := hostname h; user := user h; port := port h; identity_file := identity_file h; forward_agent := forward_agent h;
     proxy_jump := Some v; host_key_check := host_key_check h; connect_timeout_secs := connect_timeout_secs h; tags := tags h; source := source h |}.
Definition set_identity_file (v : str) (h : HostEntry) : HostEntry :=
  {| name := name h; hostname := hostname h; user := user h; port := port h; identity_file := Some v; forward_agent := forward_agent h;
     proxy_jump := proxy_jump h; host_key_check := host_key_check h; connect_timeout_secs := connect_timeout_secs h; tags := tags h; source := source h |}.

(** A directive of the current host. *)
Definition directive (lineno : nat) (key value : str) (s : SshConfigScan) : SshConfigScan :=
  match current s with
  | None => s
  | Some h =>
      if bool_decide (key = lit "hostname") then with_current (set_hostname value h) s
      else if bool_decide (key = lit "user") then with_current (set_user value h) s
      else if bool_decide (key = lit "port") then match parse_u16 value with Some p => with_current (set_port p h) s | None => s end
      else if bool_decide (key = lit "proxyjump") then with_current (set_proxy_jump value h) s
      else if bool_decide (key = lit "identityfile") then with_current (set_identity_file value h) s
      else if bool_decide (key = lit "proxycommand") then warn lineno (lit "ProxyCommand handled by ssh process (not parsed by aic)") s
      else if bool_decide (key = lit "canonicalizehostname") then warn lineno (lit "CanonicalizeHostname handled by ssh process") s
      else s
  end.

(** One line, counted from one. *)
Definition scan_line (lineno : nat) (raw : str) (s : SshConfigScan) : SshConfigScan :=
  let line := trim (strip_comment raw) in
  let lower := ascii_lower <$> line in
  match line with
  | [] => s
  | _ =>
      if starts_with (lit "match ") lower || bool_decide (lower = lit "match") then
        let s := warn lineno (lit "Match directive ignored (ssh process handles)") s in
        {| scanned := flush s; warnings := warnings s; current := None; in_match_block := true |}
      else if starts_with (lit "include ") lower then warn lineno (lit "Include directive not followed by aic") s
      else
        match split_kv line with
        | None => s
        | Some (key, value) =>
            let key := ascii_lower <$> key in
            if bool_decide (key = lit "host") then
              let name := default [] (head (split_whitespace value)) in
              {| scanned := flush s; warnings := warnings s; in_match_block := false;
                 current := if contains_wildcard name then None else Some (fresh_entry name name Strict SshConfig) |}
            else if in_match_block s then s
            else directive lineno key value s
        end
  end.

Fixpoint scan_lines (lineno : nat) (ls : list str) (s : SshConfigScan) : SshConfigScan :=
  match ls with
  | [] => s
  | line :: ls => scan_lines (S lineno) ls (scan_line lineno line s)
  end.

Definition parse_ssh_config (text : str) : gmap str HostEntry * list str :=
  let s := scan_lines 1 (lines text) {| scanned := ∅; warnings := []; current := None; in_match_block := false |} in
  (flush s, warnings s).

Definition load_from (doc : HostsTomlDoc) (ssh_config : option str) : Inventory :=
  let '(imported, warns) :=
    match ssh_config with
    | Some text => if ssh_config_import (d_options doc) then parse_ssh_config text else (∅, [])
    | None => (∅, [])
    end in
  {| options := d_options doc; concurrency := d_concurrency doc; groups := d_groups doc;
     hosts := foldl (apply_overlay (d_options doc)) imported (d_hosts doc); ssh_config_warnings := warns |}.

(** ** Targets *)

Fixpoint group_hosts (inv : Inventory) (group : str) (names : list str) : outcome (list HostEntry) str :=
  match names with
  | [] => Ok []
  | h :: names =>
      let? e := ok_or (hosts inv !! h) (lit "group @" ++ group ++ lit " references unknown host: " ++ h) in
      let? rest := group_hosts inv group names in Ok (e :: rest)
  end.

Definition resolve_pattern (inv : Inventory) (pat : str) : outcome (list HostEntry) str :=
  match pat with
  | x40 :: group =>
      let? g := ok_or (groups inv !! group) (lit "group not found: @" ++ group) in
      group_hosts inv group (members g)
  | _ => let? e := ok_or (hosts inv !! pat) (lit "host not found: " ++ pat) in Ok [e]
  end.

(** [s.rsplit_once(c)] *)
Definition rsplit_once (c : byte) (s : str) : option (str * str) :=
  '(back, front) ← split_once c (reverse s); Some (reverse front, reverse back).

Definition ad_hoc_entry (user host : str) (port : Z) : HostEntry :=
  {| name := user ++ lit "@" ++ host ++ lit ":" ++ show_unsigned port; hostname := host; user := user; port := port;
     identity_file := None; forward_agent := false; proxy_jump := None; host_key_check := Strict; connect_timeout_secs := 10;
     tags := []; source := AdHoc |}.

Definition parse_ad_hoc (s : str) : option HostEntry :=
  if starts_with (lit "@") s then None
  else if contains (lit "@") s then
    '(user, rest) ← split_once x40 s;
    if bool_decide (user = []) || bool_decide (rest = []) || contains (lit "@") rest || starts_with (lit "[") rest then None
    else
      '(host, port) ← match rsplit_once x3a rest with
                      | Some (h, p) => port ← parse_u16 p; Some (h, port)
                      | None => Some (rest, 22)
                      end;
      if bool_decide (host = []) then None else Some (ad_hoc_entry user host port)
  else
    let s := trim s in
    if bool_decide (s = []) || contains (lit " ") s || contains (lit "/") s then None
    else
      let '(host, port) := match rsplit_once x3a s with
                           | Some (h, p) => match parse_u16 p with Some port => (h, port) | None => (s, 22) end
                           | None => (s, 22)
                           end in
      if bool_decide (host = []) then None else Some (ad_hoc_entry whoami host port).
End Inventory.
