(* ===== verification/Remote.v ===== *)
(** * Commands on remote hosts

    [aic-client/src/agent/remote/mod.rs], [ssh_process.rs], [secret_filter.rs], [tofu.rs] and
    the single-host part of [hosts ping] in [main.rs]: the command line of [ssh], the quoting
    of arguments, what is kept of the output, the status of a host, and the trust of its key.
    What a run of [ssh] gives is a parameter; so is the regular-expression engine, which looks
    for a pattern at one place of a text and gives the length it takes. *)

From S2P Require Import Prelude RustStr Redaction PathGuard Hosts.
#[local] Open Scope outcome_scope.

Record RemoteCommand := { program : str; args : list str }.

Inductive HostStatus := Okay | OkWithWarn | Unreachable | Timeout | AuthFail | ProxyFail | RemoteErr | HostKeyMismatch.

#[export] Instance HostStatus_eq_dec : EqDecision HostStatus.
Proof. solve_decision. Defined.

Record RemoteResult := {
  host : str;
  stdout : str;
  stderr : str;
  exit_code : Z;
  duration_ms : Z;
  status : HostStatus;
  truncated : bool;
  redacted : nat;
}.

Definition severity (s : HostStatus) : Z :=
  match s with
  | HostKeyMismatch => 90
  | AuthFail => 70
  | ProxyFail => 60
  | Timeout => 50
  | Unreachable => 40
  | RemoteErr => 30
  | OkWithWarn => 10
  | Okay => 0
  end.

(** ** Quoting *)

(** The [ssh] that is run passes the rest of its command line to a shell on the host. *)
Definition shell_escape (s : str) : str :=
  [x27] ++ mjoin ((fun c => if bool_decide (c = x27) then [x27; x5c; x27; x27] else [c]) <$> s) ++ [x27].

Definition option_arg (o : str) : list str := [lit "-o"; o].

(** What [SshProcessExecutor::exec] gives to [ssh]. *)
Definition ssh_args (batch_id : str) (host : HostEntry) (cmd : RemoteCommand) : list str :=
  let check := match host_key_check host with Strict => lit "yes" | AcceptNew => lit "accept-new" end in
  option_arg (lit "BatchMode=yes") ++ option_arg (lit "ForwardAgent=no")
  ++ option_arg (lit "ConnectTimeout=" ++ show_unsigned (connect_timeout_secs host))
  ++ option_arg (lit "StrictHostKeyChecking=" ++ check)
  ++ option_arg (lit "ControlMaster=auto")
  ++ option_arg (lit "ControlPath=/tmp/aic-cm-" ++ batch_id ++ lit "-%C")
  ++ option_arg (lit "ControlPersist=60s")
  ++ [lit "-p"; show_unsigned (port host)]
  ++ match proxy_jump host with Some pj => [lit "-J"; pj] | None => [] end
  ++ match identity_file host with Some f => [lit "-i"; f] | None => [] end
  ++ [user host ++ lit "@" ++ hostname host; lit "--"; program cmd]
  ++ (shell_escape <$> args cmd).

(** ** Output *)

Definition REMOTE_MAX_STDOUT_BYTES : nat := 64 * 1024.
Definition REMOTE_MAX_DRAIN_BYTES : nat := 8 * 1024 * 1024.

(** What one [read] of a pipe gives: some bytes, or an error. The pipe ends after the last. *)
Inductive PipeRead := Got (bytes : str) | ReadFailed.

Fixpoint read_loop (reads : list PipeRead) (buf : str) (drained : nat) (cut : bool) : option (str * bool) :=
  match reads with
  | [] => Some (buf, cut)
  | ReadFailed :: _ => None
  | Got bytes :: reads =>
      let n := length bytes in
      if (n =? 0)%nat then Some (buf, cut)
      else if (length buf <? REMOTE_MAX_STDOUT_BYTES)%nat then
        let taken := Nat.min (REMOTE_MAX_STDOUT_BYTES - length buf) n in
        let buf := buf ++ take taken bytes in
        if (taken <? n)%nat then
          let drained := (drained + (n - taken))%nat in
          if (REMOTE_MAX_DRAIN_BYTES <? drained)%nat then Some (buf, true) else read_loop reads buf drained true
        else read_loop reads buf drained cut
      else
        let drained := (drained + n)%nat in
        if (REMOTE_MAX_DRAIN_BYTES <? drained)%nat then Some (buf, true) else read_loop reads buf drained true
  end.

Definition bounded_read (reads : list PipeRead) : option (str * bool) :=
  '(buf, cut) ← read_loop reads [] 0 false; Some (from_utf8_lossy buf, cut).

(** ** Patterns of secrets *)

Inductive Rx :=
| One (p : str -> bool)
| Many (min : nat) (r : Rx)
| Cat (rs : list Rx)
| Or (rs : list Rx)
| Edge.

Definition word (s : str) : Rx := Cat ((fun b => One (char_is b)) <$> s).
(** Under [(?i)]: in either case, and the long [s] and the Kelvin sign as [S] and [K]. *)
Definition LONG_S : str := [xc5; xbf].
Definition KELVIN : str := [xe2; x84; xaa].
Definition folds_to (b : byte) (c : str) : bool :=
  ascii (fun x => bool_decide (ascii_lower x = ascii_lower b)) c
  || bool_decide (ascii_lower b = x73 /\ c = LONG_S) || bool_decide (ascii_lower b = x6b /\ c = KELVIN).
Definition any_case (s : str) : Rx := Cat ((fun b => One (folds_to b)) <$> s).
Definition letter_or_underscore : Rx :=
  One (fun c => ascii (fun b => lower b || upper b || bool_decide (b = x5f)) c || bool_decide (c = LONG_S \/ c = KELVIN)).
Definition not_space : Rx := One (fun c => negb (is_space c)).
Definition base64url (extra : list byte) : Rx := Many 1 (One (alnum_or (lit "_=-" ++ extra))).

Definition env_secret : Rx :=
  Cat [Edge;
       Or [Cat [Many 0 letter_or_underscore;
                Or [any_case (lit "PASSWORD"); any_case (lit "SECRET"); any_case (lit "TOKEN");
                    Cat [any_case (lit "API"); Or [One (ascii (fun b => bool_decide (b ∈ lit "_-"))); Cat []]; any_case (lit "KEY")]];
                Many 0 letter_or_underscore];
           any_case (lit "DATABASE_URL"); any_case (lit "VAULT_TOKEN"); any_case (lit "AWS_ACCESS_KEY_ID");
           any_case (lit "AWS_SECRET_ACCESS_KEY"); any_case (lit "AWS_SESSION_TOKEN")];
       word (lit "="); Many 1 not_space].
Definition jwt : Rx := Cat [word (lit "eyJ"); base64url []; word (lit ".eyJ"); base64url []; word (lit "."); base64url (lit ".")].
Definition capitals_and_spaces : Rx := Many 1 (One (ascii (fun b => upper b || bool_decide (b = x20)))).
Definition pem_begin : Rx := Cat [word (lit "-----BEGIN "); capitals_and_spaces; word (lit "-----")].
Definition pem_end : Rx := Cat [word (lit "-----END "); capitals_and_spaces; word (lit "-----")].

Definition secret_patterns : list Rx := [env_secret; jwt; pem_begin; pem_end].

Section Remote.
Variable to_lowercase : str -> str.
(** The length of the match of a pattern at a place: the character before it and the text
    from it. *)
Variable match_at : Rx -> option str -> list str -> option nat.

(** [find_iter] and [replace_all]: the text with each match replaced, and how many. *)
Fixpoint hide_from (fuel : nat) (re : Rx) (prev : option str) (s : list str) : list str * nat :=
  match fuel with
  | O => (s, O)
  | S fuel =>
      match s with
      | [] => ([], O)
      | c :: rest =>
          match match_at re prev s with
          | Some (S _ as n) => let '(out, k) := hide_from fuel re (last (take n s)) (drop n s) in (chars (lit "[REDACTED]") ++ out, S k)
          | _ => let '(out, k) := hide_from fuel re (Some c) rest in (c :: out, k)
          end
      end
  end.

Definition filter_secrets (text : str) : str * nat :=
  let '(out, hits) :=
    foldl (fun '(out, hits) re => let '(out, k) := hide_from (length out) re None out in (out, (hits + k)%nat)) (chars text, O) secret_patterns in
  (mjoin out, hits).

(** ** Status *)

Definition says (stderr : str) (patterns : list str) : bool := existsb (fun p => contains p stderr) patterns.

Definition stderr_has_warning (s : str) : bool := says (to_lowercase s) [lit "warning"; lit "warn:"; lit "notice:"].

Definition classify_ssh_result (exit_code : Z) (stderr : str) (duration_ms connect_timeout_ms : Z) : HostStatus :=
  if exit_code =? 0 then if stderr_has_warning stderr then OkWithWarn else Okay
  else
    let low := to_lowercase stderr in
    if exit_code =? 255 then
      if contains (lit "host key") low && says low [lit "changed"; lit "verification failed"] then HostKeyMismatch
      else if says low [lit "jump host"; lit "bastion"] then ProxyFail
      else if says low [lit "permission denied"; lit "publickey"; lit "gssapi"; lit "kerberos"; lit "keyboard-interactive";
                        lit "too many authentication failures"] then AuthFail
      else if says low [lit "channel"; lit "open failed"] then RemoteErr
      else if says low [lit "operation timed out"; lit "connection timed out"] then Unreachable
      else if says low [lit "connect to host"; lit "connection refused"; lit "no route to host"; lit "network is unreachable";
                        lit "name or service not known"] then Unreachable
      else if duration_ms <=? connect_timeout_ms + 500 then Unreachable
      else RemoteErr
    else RemoteErr.

(** How a run of [ssh] ends; no exit code when a signal killed it. *)
Inductive SshRun :=
| SpawnFailed (error : str)
| TimedOut
| Exited (out err : list PipeRead) (code : option Z).

(** [SshProcessExecutor::exec], given what the run does and how long it takes. *)
Definition exec_result (per_host_timeout : Z) (h : HostEntry) (run : SshRun) (duration_ms : Z) : RemoteResult :=
  match run with
  | SpawnFailed e =>
      {| host := name h; stdout := []; stderr := lit "ssh spawn failed: " ++ e; exit_code := -1; duration_ms := duration_ms;
         status := RemoteErr; truncated := false; redacted := 0 |}
  | TimedOut =>
      {| host := name h; stdout := []; stderr := lit "per-host command timeout (" ++ show_unsigned per_host_timeout ++ lit "s)";
         exit_code := -1; duration_ms := duration_ms; status := Timeout; truncated := false; redacted := 0 |}
  | Exited out err code =>
      let '(stdout_raw, stdout_truncated) := default ([], false) (bounded_read out) in
      let '(stderr_raw, stderr_truncated) := default ([], false) (bounded_read err) in
      let exit_code := default (-1) code in
      let '(stdout, redact_out) := filter_secrets stdout_raw in
      let '(stderr, redact_err) := filter_secrets stderr_raw in
      {| host := name h; stdout := stdout; stderr := stderr; exit_code := exit_code; duration_ms := duration_ms;
         status := classify_ssh_result exit_code stderr_raw duration_ms (connect_timeout_secs h * 1000);
         truncated := stdout_truncated || stderr_truncated; redacted := redact_out + redact_err |}
  end.

(** ** Trust on first use *)

Record HostKey := { key_type : str; known_hosts_line : str }.

(** [line.splitn(3, ' ')] with three parts. *)
Definition split3 (line : str) : option (str * str * str) :=
  '(a, rest) ← split_once x20 line; '(b, c) ← split_once x20 rest; Some (a, b, c).

Definition parse_keyscan_lines (stdout : str) : list HostKey :=
  omap (fun line => '(_, key_type, _) ← split3 line; Some {| key_type := key_type; known_hosts_line := line |})
    (filter (fun l => negb (starts_with (lit "#") l) && negb (bool_decide (trim l = [])) = true) (lines stdout)).

(** The file after its keys were appended. *)
Definition append_known_hosts (known_hosts : str) (keys : list HostKey) : str :=
  known_hosts ++ mjoin ((fun k => known_hosts_line k ++ [x0a]) <$> keys).

(** ** [hosts ping] of one host *)

(** The answer of the user, the output of [ssh-keyscan] and the file of known hosts. *)
Definition try_auto_trust (stderr : str) (answer : option str) (keyscan : str) (known_hosts : str) : option str :=
  if negb (contains (lit "host key verification failed") (to_lowercase stderr)) then None
  else
    match answer with
    | Some a =>
        if bool_decide (to_lowercase (trim a) ∈ [lit "y"; lit "yes"]) then
          match parse_keyscan_lines keyscan with
          | [] => None
          | keys => Some (append_known_hosts known_hosts keys)
          end
        else None
    | None => None
    end.

Inductive Target := Single (h : HostEntry) | Group (hs : list HostEntry) | NoTarget (message : str).

Definition resolve_target (whoami : str) (inv : Inventory) (target : str) (identity : option str) : Target :=
  let found := if starts_with (lit "@") target || bool_decide (is_Some (hosts inv !! target)) then resolve_pattern inv target
               else ok_or ((fun h => [h]) <$> parse_ad_hoc whoami target) (lit "host not found: " ++ target) in
  let with_identity h :=
    match identity with
    | Some f => {| name := name h; hostname := hostname h; user := user h; port := port h; identity_file := Some f; forward_agent := forward_agent h;
                   proxy_jump := proxy_jump h; host_key_check := host_key_check h; connect_timeout_secs := connect_timeout_secs h;
                   tags := tags h; source := source h |}
    | None => h
    end in
  match found with
  | Ok [h] => Single (with_identity h)
  | Ok hs => Group (with_identity <$> hs)
  | Err m => NoTarget m
  | Panic => NoTarget []
  end.

(** What the gate makes of the text of [--cmd]. *)
Definition gate_command (wl : Whitelist) (cmd : str) : outcome RemoteCommand Z :=
  match split_whitespace cmd with
  | [] => Err 2
  | program :: args =>
      match PathGuard.check to_lowercase wl program args with
      | CheckAllowed => Ok {| program := program; args := args |}
      | CheckBlocked _ => Err 1
      end
  end.

(** A single host: the results of the runs made, the known hosts after them, the exit code. *)
Definition ping_one (run : nat -> HostEntry -> RemoteCommand -> RemoteResult) (h : HostEntry) (cmd : RemoteCommand)
    (answer : option str) (keyscan known_hosts : str) : list RemoteResult * str * Z :=
  let code r := match status r with Okay | OkWithWarn => 0 | _ => 1 end in
  let r := run 0%nat h cmd in
  if bool_decide (status r = AuthFail) then
    match try_auto_trust (stderr r) answer keyscan known_hosts with
    | Some known_hosts => let r' := run 1%nat h cmd in ([r; r'], known_hosts, code r')
    | None => ([r], known_hosts, code r)
    end
  else ([r], known_hosts, code r).
End Remote.
