(* ===== verification/RemoteSpec.v ===== *)
(** * What runs on a remote host

    [remote_runs_what_passed]: the words that the shell of the host sees are those that the
    gate looked at. [option_injection], [agent_never_forwarded]: what the command line of [ssh]
    lets through and what it ignores. [bounded_output]: how much is kept. [auto_trust_dead]:
    the offer to trust an unknown key is never made. [trusted_keys_read_back],
    [unterminated_file_joined]: what is appended to the known hosts. *)

From S2P Require Import Prelude RustStr Redaction PathGuard Hosts Remote.
#[local] Open Scope outcome_scope.

(** ** The shell of the host

    Field splitting and quoting of POSIX [sh], for texts that use nothing else: no expansion,
    no redirection, no operator. Other texts have no words here. *)

Inductive sh_mode := Between | InWord (w : str) | Quoted (w : str) | Escaped (w : str).

Definition sh_plain (b : byte) : bool := alnum b || bool_decide (b ∈ lit "_-./:,+@%").

Fixpoint sh_words (m : sh_mode) (s : str) : option (list str) :=
  match s with
  | [] => match m with Between => Some [] | InWord w => Some [w] | _ => None end
  | c :: s =>
      match m with
      | Quoted w => if bool_decide (c = x27) then sh_words (InWord w) s else sh_words (Quoted (w ++ [c])) s
      | Escaped w => if bool_decide (c = x0a) then None else sh_words (InWord (w ++ [c])) s
      | Between =>
          if bool_decide (c = x20 \/ c = x09) then sh_words Between s
          else if bool_decide (c = x27) then sh_words (Quoted []) s
          else if bool_decide (c = x5c) then sh_words (Escaped []) s
          else if sh_plain c then sh_words (InWord [c]) s
          else None
      | InWord w =>
          if bool_decide (c = x20 \/ c = x09) then (w ::.) <$> sh_words Between s
          else if bool_decide (c = x27) then sh_words (Quoted w) s
          else if bool_decide (c = x5c) then sh_words (Escaped w) s
          else if sh_plain c then sh_words (InWord (w ++ [c])) s
          else None
      end
  end.

Definition plain_word (w : str) : Prop := w <> [] /\ Forall (fun b => sh_plain b = true) w.

Lemma sh_plain_not c : sh_plain c = true -> ~ (c = x20 \/ c = x09) /\ c <> x27 /\ c <> x5c.
Proof. intros H. repeat split; [intros [-> | ->]|intros ->..]; by vm_compute in H. Qed.

Lemma plain_in_word w s rest : Forall (fun b => sh_plain b = true) s -> sh_words (InWord w) (s ++ rest) = sh_words (InWord (w ++ s)) rest.
Proof.
  revert w. induction s as [|c s IH]; intros w H; [by rewrite app_nil_r|]. apply Forall_cons in H as [Hc Hs].
  destruct (sh_plain_not c Hc) as (H1 & H2 & H3). cbn [app sh_words]. rewrite !bool_decide_eq_false_2, Hc by done.
  rewrite IH by done. by rewrite <- app_assoc.
Qed.

Lemma plain_word_read w rest : plain_word w -> sh_words Between (w ++ rest) = sh_words (InWord w) rest.
Proof.
  intros [Hne H]. destruct w as [|c w]; [done|]. apply Forall_cons in H as [Hc Hw]. destruct (sh_plain_not c Hc) as (H1 & H2 & H3).
  cbn [app sh_words]. rewrite !bool_decide_eq_false_2, Hc by done. by rewrite plain_in_word.
Qed.

Lemma quoted_quote w rest : sh_words (Quoted w) ([x27; x5c; x27; x27] ++ rest) = sh_words (Quoted (w ++ [x27])) rest.
Proof. reflexivity. Qed.

Lemma quoted_body w a rest :
  sh_words (Quoted w) (mjoin ((fun c => if bool_decide (c = x27) then [x27; x5c; x27; x27] else [c]) <$> a) ++ x27 :: rest)
  = sh_words (InWord (w ++ a)) rest.
Proof.
  revert w. induction a as [|c a IH]; intros w; [by rewrite app_nil_r|]. rewrite fmap_cons. cbn [mjoin list_join].
  case_bool_decide as E; rewrite <- app_assoc.
  - subst c. rewrite quoted_quote, IH. by rewrite <- app_assoc.
  - cbn [app sh_words]. rewrite bool_decide_eq_false_2 by done. rewrite IH. by rewrite <- app_assoc.
Qed.

Lemma escaped_read a rest : sh_words Between (shell_escape a ++ rest) = sh_words (InWord a) rest.
Proof. unfold shell_escape. rewrite <- !app_assoc. cbn [app sh_words]. rewrite !bool_decide_eq_false_2, bool_decide_eq_true_2 by (by_decide || done || naive_solver). apply (quoted_body []). Qed.

Lemma spaced_words w a rest : (forall rest, sh_words Between (w ++ rest) = sh_words (InWord a) rest) ->
  sh_words Between (w ++ x20 :: rest) = (a ::.) <$> sh_words Between rest.
Proof. intros H. rewrite H. cbn [sh_words]. by rewrite bool_decide_eq_true_2 by auto. Qed.

Lemma joined_words (ws : list (str * str)) :
  Forall (fun p => forall rest, sh_words Between (p.1 ++ rest) = sh_words (InWord p.2) rest) ws ->
  sh_words Between (join [x20] ws.*1) = Some ws.*2.
Proof.
  induction ws as [|[w a] ws IH]; intros H; [done|]. apply Forall_cons in H as [Hw H]. destruct ws as [|p ws].
  - cbn. specialize (Hw []). by rewrite app_nil_r in Hw.
  - rewrite !fmap_cons in *. cbn [fst snd] in *. change (join [x20] (w :: p.1 :: ws.*1)) with (w ++ x20 :: join [x20] (p.1 :: ws.*1)).
    rewrite (spaced_words _ _ _ Hw). by rewrite IH.
Qed.

Lemma command_words p args : plain_word p -> sh_words Between (join [x20] (p :: (shell_escape <$> args))) = Some (p :: args).
Proof.
  intros Hp. pose proof (joined_words ((p, p) :: ((fun a => (shell_escape a, a)) <$> args))) as H. rewrite !fmap_cons, <- !list_fmap_compose in H.
  cbn [fst snd] in H. rewrite <- (list_fmap_id args) at 2. apply H. constructor; [intros rest; by apply plain_word_read|].
  apply Forall_fmap, Forall_forall. intros a _ rest. apply escaped_read.
Qed.

(** ** The command line of [ssh]

    [ssh [options] destination [options] [--] [command]], with the options that take a value:
    [-o], [-p], [-J] and [-i]. *)

Record SshCall := { opts : list (byte * str); dest : str; command : list str }.

(** An argument that begins with a dash: the option's letter and what follows it. *)
Definition as_option (a : str) : option (byte * str) :=
  match a with d :: o :: value => if bool_decide (d = x2d) then Some (o, value) else None | _ => None end.

Fixpoint ssh_getopt (dest : option str) (os : list (byte * str)) (args : list str) : option SshCall :=
  match args with
  | [] => d ← dest; Some {| opts := os; dest := d; command := [] |}
  | a :: rest =>
      if bool_decide (a = lit "--") then
        match dest, rest with
        | Some d, _ => Some {| opts := os; dest := d; command := rest |}
        | None, d :: rest => ssh_getopt (Some d) os rest
        | None, [] => None
        end
      else
        match as_option a with
        | Some (o, value) =>
            if bool_decide (o ∈ lit "opJi") then
              match value, rest with
              | [], v :: rest => ssh_getopt dest (os ++ [(o, v)]) rest
              | [], [] => None
              | _, _ => ssh_getopt dest (os ++ [(o, value)]) rest
              end
            else None
        | None => match dest with
               | None => ssh_getopt (Some a) os rest
               | Some d => Some {| opts := os; dest := d; command := a :: rest |}
               end
        end
  end.

(** The options that [exec] means to give. *)
Definition meant_options (batch_id : str) (h : HostEntry) : list (byte * str) :=
  [(x6f, lit "BatchMode=yes"); (x6f, lit "ForwardAgent=no");
   (x6f, lit "ConnectTimeout=" ++ show_unsigned (connect_timeout_secs h));
   (x6f, lit "StrictHostKeyChecking=" ++ match host_key_check h with Strict => lit "yes" | AcceptNew => lit "accept-new" end);
   (x6f, lit "ControlMaster=auto"); (x6f, lit "ControlPath=/tmp/aic-cm-" ++ batch_id ++ lit "-%C"); (x6f, lit "ControlPersist=60s");
   (x70, show_unsigned (port h))]
  ++ match proxy_jump h with Some j => [(x4a, j)] | None => [] end
  ++ match identity_file h with Some f => [(x69, f)] | None => [] end.

Lemma getopt_option dest os o v rest :
  o ∈ lit "opJi" -> ssh_getopt dest os ([x2d; o] :: v :: rest) = ssh_getopt dest (os ++ [(o, v)]) rest.
Proof.
  intros Ho. assert (bool_decide ([x2d; o] = lit "--") = false) as E.
  { apply bool_decide_eq_false_2. intros [= ->]. set_solver. }
  cbn [ssh_getopt]. rewrite E. cbn [as_option]. rewrite bool_decide_eq_true_2 by done. by rewrite bool_decide_eq_true_2.
Qed.

Lemma getopt_attached dest os o value rest :
  o ∈ lit "opJi" -> value <> [] -> ssh_getopt dest os (([x2d; o] ++ value) :: rest) = ssh_getopt dest (os ++ [(o, value)]) rest.
Proof.
  intros Ho Hv. assert (bool_decide ([x2d; o] ++ value = lit "--") = false) as E.
  { apply bool_decide_eq_false_2. intros [= -> _]. set_solver. }
  cbn [ssh_getopt]. rewrite E. cbn [app as_option]. rewrite bool_decide_eq_true_2 by done. rewrite bool_decide_eq_true_2 by done. by destruct value.
Qed.

Lemma getopt_o dest os v rest : ssh_getopt dest os (lit "-o" :: v :: rest) = ssh_getopt dest (os ++ [(x6f, v)]) rest.
Proof. by apply getopt_option; by_decide. Qed.
Lemma getopt_p dest os v rest : ssh_getopt dest os (lit "-p" :: v :: rest) = ssh_getopt dest (os ++ [(x70, v)]) rest.
Proof. by apply getopt_option; by_decide. Qed.
Lemma getopt_J dest os v rest : ssh_getopt dest os (lit "-J" :: v :: rest) = ssh_getopt dest (os ++ [(x4a, v)]) rest.
Proof. by apply getopt_option; by_decide. Qed.
Lemma getopt_i dest os v rest : ssh_getopt dest os (lit "-i" :: v :: rest) = ssh_getopt dest (os ++ [(x69, v)]) rest.
Proof. by apply getopt_option; by_decide. Qed.

Lemma getopt_meant os batch_id h tail :
  ssh_getopt None os
    (option_arg (lit "BatchMode=yes") ++ option_arg (lit "ForwardAgent=no")
     ++ option_arg (lit "ConnectTimeout=" ++ show_unsigned (connect_timeout_secs h))
     ++ option_arg (lit "StrictHostKeyChecking=" ++ match host_key_check h with Strict => lit "yes" | AcceptNew => lit "accept-new" end)
     ++ option_arg (lit "ControlMaster=auto") ++ option_arg (lit "ControlPath=/tmp/aic-cm-" ++ batch_id ++ lit "-%C")
     ++ option_arg (lit "ControlPersist=60s") ++ [lit "-p"; show_unsigned (port h)]
     ++ match proxy_jump h with Some pj => [lit "-J"; pj] | None => [] end
     ++ match identity_file h with Some f => [lit "-i"; f] | None => [] end ++ tail)
  = ssh_getopt None (os ++ meant_options batch_id h) tail.
Proof.
  unfold option_arg, meant_options. cbn [app].
  rewrite !getopt_o, getopt_p.
  destruct (proxy_jump h), (identity_file h); cbn [app]; rewrite ?getopt_J, ?getopt_i; f_equal; by rewrite <- !app_assoc.
Qed.

Definition destination (h : HostEntry) : str := user h ++ lit "@" ++ hostname h.

Lemma getopt_stop d os rest : ssh_getopt (Some d) os (lit "--" :: rest) = Some {| opts := os; dest := d; command := rest |}.
Proof. cbn [ssh_getopt]. by rewrite bool_decide_eq_true_2. Qed.

Lemma no_option_word b v : b <> x2d -> as_option (b :: v) = None.
Proof. intros Hb. destruct v as [|o v]; [done|]. cbn [as_option]. by rewrite bool_decide_eq_false_2. Qed.

Lemma getopt_word os b v rest : b <> x2d -> ssh_getopt None os ((b :: v) :: rest) = ssh_getopt (Some (b :: v)) os rest.
Proof.
  intros Hb. cbn [ssh_getopt]. rewrite bool_decide_eq_false_2 by (by intros [= -> _]).
  by rewrite no_option_word.
Qed.

Lemma getopt_destination os h rest :
  starts_with (lit "-") (user h) = false -> ssh_getopt None os (destination h :: rest) = ssh_getopt (Some (destination h)) os rest.
Proof.
  intros Hd. unfold destination. destruct (user h) as [|b u]; [by apply getopt_word|]. apply getopt_word. intros ->. by vm_compute in Hd.
Qed.

Lemma ssh_args_read batch_id h cmd :
  starts_with (lit "-") (user h) = false ->
  ssh_getopt None [] (ssh_args batch_id h cmd)
  = Some {| opts := meant_options batch_id h; dest := destination h; command := program cmd :: (shell_escape <$> args cmd) |}.
Proof.
  intros Hd. unfold ssh_args. cbn zeta. rewrite getopt_meant. cbn [app]. change (user h ++ lit "@" ++ hostname h) with (destination h).
  by rewrite getopt_destination, getopt_stop.
Qed.

(** ** The gate *)

(** The names of a whitelist's programs are words that the shell of the host takes as they are. *)
Definition plain_programs (wl : Whitelist) : Prop := forall p, is_Some (programs wl !! p) -> plain_word p.

Lemma gate_passed to_lowercase wl cmd c :
  gate_command to_lowercase wl cmd = Ok c ->
  split_whitespace cmd = program c :: args c /\ PathGuard.check to_lowercase wl (program c) (args c) = CheckAllowed.
Proof.
  unfold gate_command. destruct (split_whitespace cmd) as [|p a]; [done|].
  destruct (PathGuard.check to_lowercase wl p a) eqn:E; [|done]. by intros [= <-].
Qed.

Lemma allowed_program to_lowercase wl p a : PathGuard.check to_lowercase wl p a = CheckAllowed -> is_Some (programs wl !! p).
Proof.
  unfold PathGuard.check. destruct (first_some _ _); [done|]. destruct (find_metachar p); [done|].
  by destruct (programs wl !! p).
Qed.

(** C7: a command that [hosts ping] sends is the one that the gate looked at, where the user name
    of the host does not begin with a dash ([option_injection] is what happens where it does)
    and the whitelist names programs by plain words: from the command line given to [ssh],
    [ssh] takes exactly the options meant, the destination of the host
    and a command of which the host's shell makes the very words of the text that passed the
    gate, whatever bytes they hold. *)
Theorem remote_runs_what_passed to_lowercase wl cmd c batch_id h
    (plain_names : plain_programs wl) (no_option : starts_with (lit "-") (user h) = false)
    (passed : gate_command to_lowercase wl cmd = Ok c) :
  exists call, ssh_getopt None [] (ssh_args batch_id h c) = Some call /\
    opts call = meant_options batch_id h /\ dest call = destination h /\
    sh_words Between (join [x20] (command call)) = Some (split_whitespace cmd) /\
    PathGuard.check to_lowercase wl (program c) (args c) = CheckAllowed.
Proof.
  destruct (gate_passed _ _ _ _ passed) as [Hw Hc]. eexists. split; [by apply ssh_args_read|]. cbn [opts dest command].
  repeat split; [|done]. rewrite Hw. apply command_words, plain_names. by eapply allowed_program.
Qed.

Lemma getopt_escaped d os as_ :
  ssh_getopt (Some d) os (shell_escape <$> as_) = Some {| opts := os; dest := d; command := shell_escape <$> as_ |}.
Proof.
  destruct as_ as [|a as_]; [done|]. rewrite fmap_cons. change (shell_escape a) with (x27 :: drop 1 (shell_escape a)). cbn [ssh_getopt].
  by rewrite bool_decide_eq_false_2, no_option_word.
Qed.

(** nothing keeps a user name from being an option: for a host whose user begins with
    [-o], [ssh] takes the destination for an option, and the program for the host. *)
Theorem option_injection batch_id h cmd b o (user_is_option : user h = lit "-o" ++ b :: o) :
  parse_ad_hoc (lit "me") (lit "-oProxyCommand=id@h") = Some (ad_hoc_entry (lit "-oProxyCommand=id") (lit "h") 22) /\
  exists call, ssh_getopt None [] (ssh_args batch_id h cmd) = Some call /\
    (x6f, (b :: o) ++ lit "@" ++ hostname h) ∈ opts call /\ dest call = program cmd.
Proof.
  split; [by vm_compute|]. unfold ssh_args. cbn zeta. rewrite getopt_meant. cbn [app]. rewrite user_is_option. eexists. split.
  - change ((lit "-o" ++ b :: o) ++ lit "@" ++ hostname h) with ([x2d; x6f] ++ (b :: o) ++ lit "@" ++ hostname h).
    rewrite getopt_attached by (by_decide || done). cbn [ssh_getopt]. rewrite bool_decide_eq_true_2 by done. apply getopt_escaped.
  - cbn [opts dest]. split; [|done]. apply elem_of_app. right. by apply list_elem_of_singleton.
Qed.

(** forwarding of the agent is off whatever the inventory says. *)
Theorem agent_never_forwarded batch_id h cmd call
    (no_option : starts_with (lit "-") (user h) = false)
    (read : ssh_getopt None [] (ssh_args batch_id h cmd) = Some call) :
  take 2 (opts call) = [(x6f, lit "BatchMode=yes"); (x6f, lit "ForwardAgent=no")] /\
  forall v, (x6f, v) ∈ drop 2 (opts call) -> starts_with (lit "ForwardAgent") v = false.
Proof.
  rewrite ssh_args_read in read by done. injection read as <-. split; [done|]. cbn [opts]. intros v Hv. unfold meant_options in Hv. cbn [app drop] in Hv.
  rewrite !elem_of_cons, elem_of_app in Hv. destruct (proxy_jump h), (identity_file h); cbn [app] in Hv.
  all: repeat (destruct Hv as [[= ->]|Hv]; [done|]).
  all: set_solver.
Qed.

(** ** Output *)

Definition pipe (bytes : list str) : list PipeRead := Got <$> bytes.

Lemma read_loop_spec bytes buf drained cut :
  Forall (fun b => b <> []) bytes -> (length buf <= REMOTE_MAX_STDOUT_BYTES)%nat ->
  read_loop (pipe bytes) buf drained cut
  = Some (take REMOTE_MAX_STDOUT_BYTES (buf ++ concat bytes), cut || (REMOTE_MAX_STDOUT_BYTES <? length (buf ++ concat bytes))%nat).
Proof.
  revert buf drained cut. induction bytes as [|b bytes IH]; intros buf drained cut Hne Hb.
  - cbn [pipe fmap list_fmap read_loop concat]. rewrite app_nil_r, take_ge by done. replace (_ <? _)%nat with false by (symmetry; apply Nat.ltb_ge; lia).
    by rewrite orb_false_r.
  - apply Forall_cons in Hne as [Hn Hne]. assert (length b <> 0)%nat as Hl by (by destruct b).
    assert (concat (b :: bytes) = b ++ concat bytes) as Ec by done. rewrite Ec.
    assert (length (buf ++ b ++ concat bytes) = length buf + length b + length (concat bytes))%nat as El by (rewrite !length_app; lia).
    unfold pipe. rewrite fmap_cons. cbn [read_loop]. replace (length b =? 0)%nat with false by (symmetry; by apply Nat.eqb_neq).
    destruct (length buf <? REMOTE_MAX_STDOUT_BYTES)%nat eqn:E1; [apply Nat.ltb_lt in E1|apply Nat.ltb_ge in E1].
    + destruct (_ <? length b)%nat eqn:E2; [apply Nat.ltb_lt in E2|apply Nat.ltb_ge in E2].
      * assert (length (buf ++ take (Nat.min (REMOTE_MAX_STDOUT_BYTES - length buf) (length b)) b) = REMOTE_MAX_STDOUT_BYTES)%nat as Ef
          by (rewrite length_app, length_take; lia).
        assert (forall rest, take REMOTE_MAX_STDOUT_BYTES ((buf ++ take (Nat.min (REMOTE_MAX_STDOUT_BYTES - length buf) (length b)) b) ++ rest)
                  = take REMOTE_MAX_STDOUT_BYTES (buf ++ b ++ concat bytes)) as Et.
        { intros rest. rewrite take_app_le, take_ge by lia. rewrite take_app. f_equal; [by rewrite take_ge by lia|].
          rewrite take_app_le by lia. f_equal. lia. }
        replace (REMOTE_MAX_STDOUT_BYTES <? length (buf ++ b ++ concat bytes))%nat with true by (symmetry; apply Nat.ltb_lt; lia). rewrite orb_true_r.
        destruct (REMOTE_MAX_DRAIN_BYTES <? _)%nat.
        { specialize (Et []). rewrite app_nil_r, (take_ge (_ ++ _)) in Et by lia. by rewrite Et. }
        rewrite IH by (done || lia). by rewrite Et.
      * rewrite IH by (done || (rewrite length_app, length_take; lia)).
        rewrite (take_ge b) by lia. by rewrite <- app_assoc.
    + replace (REMOTE_MAX_STDOUT_BYTES <? length (buf ++ b ++ concat bytes))%nat with true by (symmetry; apply Nat.ltb_lt; lia). rewrite orb_true_r.
      assert (forall rest, take REMOTE_MAX_STDOUT_BYTES (buf ++ rest) = buf) as Et by (intros rest; rewrite take_app_le, take_ge by lia; done).
      rewrite Et. destruct (REMOTE_MAX_DRAIN_BYTES <? _)%nat; [done|]. rewrite IH by done. by rewrite Et.
Qed.

Lemma read_loop_stops bytes more buf drained cut :
  Forall (fun b => b <> []) bytes -> (drained <= REMOTE_MAX_DRAIN_BYTES)%nat -> (length buf <= REMOTE_MAX_STDOUT_BYTES)%nat ->
  (length buf < REMOTE_MAX_STDOUT_BYTES -> drained = 0)%nat ->
  (REMOTE_MAX_STDOUT_BYTES + REMOTE_MAX_DRAIN_BYTES < length buf + drained + length (concat bytes))%nat ->
  read_loop (pipe bytes ++ more) buf drained cut = read_loop (pipe bytes) buf drained cut.
Proof.
  revert buf drained cut. induction bytes as [|b bytes IH]; intros buf drained cut Hne Hd Hb H0 Hl; [cbn [concat length] in Hl; lia|].
  apply Forall_cons in Hne as [Hn Hne]. assert (length b <> 0)%nat by (by destruct b).
  assert (length (concat (b :: bytes)) = length b + length (concat bytes))%nat as Ec by (cbn [concat]; apply length_app). rewrite Ec in Hl.
  unfold pipe. rewrite fmap_cons. cbn [app read_loop]. replace (length b =? 0)%nat with false by (symmetry; by apply Nat.eqb_neq).
  destruct (length buf <? REMOTE_MAX_STDOUT_BYTES)%nat eqn:E1; [apply Nat.ltb_lt in E1; specialize (H0 E1)|apply Nat.ltb_ge in E1].
  - destruct (_ <? length b)%nat eqn:E2; [apply Nat.ltb_lt in E2|apply Nat.ltb_ge in E2].
    + destruct (REMOTE_MAX_DRAIN_BYTES <? _)%nat eqn:E3; [done|apply Nat.ltb_ge in E3].
      apply IH; [done|lia|rewrite length_app, length_take; lia..].
    + apply IH; [done|lia|rewrite length_app, length_take; lia..].
  - destruct (REMOTE_MAX_DRAIN_BYTES <? _)%nat eqn:E3; [done|apply Nat.ltb_ge in E3]. apply IH; [done|lia..].
Qed.

(** of what a pipe gives exactly the first 64 KiB are kept, and the result says whether
    there was more; once eight more megabytes have come, nothing that comes later is read. *)
Theorem bounded_output bytes (some : Forall (fun b => b <> []) bytes) :
  bounded_read (pipe bytes)
  = Some (from_utf8_lossy (take REMOTE_MAX_STDOUT_BYTES (concat bytes)), (REMOTE_MAX_STDOUT_BYTES <? length (concat bytes))%nat) /\
  ((REMOTE_MAX_STDOUT_BYTES + REMOTE_MAX_DRAIN_BYTES < length (concat bytes))%nat ->
   forall more, bounded_read (pipe bytes ++ more) = bounded_read (pipe bytes)).
Proof.
  assert (length (@nil byte) <= REMOTE_MAX_STDOUT_BYTES)%nat as H0 by (cbn [length]; lia). split.
  - unfold bounded_read. by rewrite read_loop_spec.
  - intros Hl more. unfold bounded_read. rewrite read_loop_stops; [done|done|lia|done|done|]. cbn [length]. lia.
Qed.

(** ** Trust in keys *)

Lemma contains_middle a b c s : contains (a ++ b ++ c) s = true -> contains b s = true.
Proof.
  rewrite !contains_spec. intros (pre & post & ->). exists (pre ++ a), (c ++ post). by rewrite <- !app_assoc.
Qed.

Lemma auth_fail_knows_key to_lowercase code err duration connect :
  classify_ssh_result to_lowercase code err duration connect = AuthFail ->
  contains (lit "host key verification failed") (to_lowercase err) = false.
Proof.
  unfold classify_ssh_result. destruct (code =? 0); [by destruct (stderr_has_warning _ _)|]. cbn zeta. destruct (code =? 255); [|done].
  destruct (contains (lit "host key verification failed") (to_lowercase err)) eqn:E; [|done].
  rewrite (contains_middle [] (lit "host key") (lit " verification failed") _ E).
  unfold says. cbn [existsb]. rewrite (contains_middle (lit "host key ") (lit "verification failed") [] _ E). by rewrite !orb_true_r.
Qed.

(** The text on [stderr] of a run, before secrets are hidden. *)
Definition raw_stderr (run : SshRun) : str := match run with Exited _ err _ => (default ([], false) (bounded_read err)).1 | _ => [] end.

(** What [ssh] prints about a host whose key it does not know. *)
Definition UNKNOWN_HOST : str :=
  lit "No ED25519 host key is known for h and you have requested strict checking." ++ [x0d; x0a] ++ lit "Host key verification failed." ++ [x0d; x0a].

(** the offer to trust the key of a new host is never made: it is looked for only after an
    authentication failure, while a run in which [ssh] says that the key could not be verified
    counts as a mismatch of keys. So a host that is not known yet is reported as one whose
    key has changed, and the known hosts stay as they are whatever the user would answer. *)
Theorem auto_trust_dead to_lowercase match_at timeout h cmd (runs : nat -> SshRun) (times : nat -> Z) answer keyscan known_hosts
    (nothing_hidden : (filter_secrets match_at (raw_stderr (runs 0%nat))).1 = raw_stderr (runs 0%nat)) :
  let run n h (_ : RemoteCommand) := exec_result to_lowercase match_at timeout h (runs n) (times n) in
  let '(made, known, _) := ping_one to_lowercase run h cmd answer keyscan known_hosts in
  (length made = 1)%nat /\ known = known_hosts /\
  classify_ssh_result (fmap ascii_lower) 255 UNKNOWN_HOST (times 0%nat) (connect_timeout_secs h * 1000) = HostKeyMismatch.
Proof.
  cbn zeta. unfold ping_one. case_bool_decide as Ha; [|by vm_compute].
  assert (contains (lit "host key verification failed") (to_lowercase (stderr (exec_result to_lowercase match_at timeout h (runs 0%nat) (times 0%nat)))) = false) as E.
  { destruct (runs 0%nat) as [e| |out err code]; [done..|]. cbn [exec_result raw_stderr] in *.
    destruct (default _ (bounded_read out)) as [o ot]. destruct (default _ (bounded_read err)) as [e et]. cbn [fst] in *.
    destruct (filter_secrets match_at o) as [so no]. destruct (filter_secrets match_at e) as [se ne] eqn:Ef. cbn [fst stderr status] in *. subst se.
    by eapply auth_fail_knows_key. }
  unfold try_auto_trust. rewrite E. by vm_compute.
Qed.

(** Lines without line feeds or a carriage return at the end, as [ssh-keyscan] prints them. *)
Definition clean_line (l : str) : Prop := x0a ∉ l /\ last l <> Some x0d.

Lemma strip_cr_clean l : clean_line l -> strip_cr l = l.
Proof.
  intros [_ Hl]. unfold strip_cr. destruct (reverse l) as [|x r] eqn:E; [by rewrite <- (reverse_involutive l), E|]. rewrite bool_decide_eq_false_2; [done|].
  intros ->. apply Hl. by rewrite <- (reverse_involutive l), E, reverse_cons, last_snoc.
Qed.

Lemma lines_app_fed s rest : lines (s ++ x0a :: rest) = lines (s ++ [x0a]) ++ lines rest.
Proof.
  unfold lines. rewrite !split_byte_join. generalize (split_byte x0a s) (split_byte_cons x0a rest) (split_byte_cons x0a s). intros ps (p & q & ->) (p' & q' & Hs).
  clear Hs. induction ps as [|a ps IH]; [done|]. cbn [app lines_of]. destruct ps as [|b ps]; cbn [app lines_of] in *; [done|]. by rewrite IH.
Qed.

Lemma lines_fed ls : Forall clean_line ls -> lines (mjoin ((fun l => l ++ [x0a]) <$> ls)) = ls.
Proof.
  induction 1 as [|l ls [Hl Hc] _ IH]; [done|]. change (mjoin _) with ((l ++ [x0a]) ++ mjoin ((fun l => l ++ [x0a]) <$> ls)). rewrite <- app_assoc.
  cbn [app]. rewrite lines_line, IH by done. by rewrite strip_cr_clean.
Qed.

Lemma lines_clean s l : x0d ∉ s -> l ∈ lines s -> clean_line l.
Proof.
  intros Hs Hl. split; [intros Hb; by destruct (lines_incl _ _ _ Hl Hb)|]. intros (l' & ->)%last_Some.
  apply Hs. apply (lines_incl _ _ x0d Hl). apply elem_of_app. right. by left.
Qed.

Definition keyscan_entry (line : str) : option HostKey :=
  if negb (starts_with (lit "#") line) && negb (bool_decide (trim line = [])) then
    '(_, key_type, _) ← split3 line; Some {| key_type := key_type; known_hosts_line := line |}
  else None.

Lemma parse_keyscan_entries s : parse_keyscan_lines s = omap keyscan_entry (lines s).
Proof.
  unfold parse_keyscan_lines. induction (lines s) as [|l ls IH]; [done|]. cbn [omap list_omap]. unfold keyscan_entry at 1.
  destruct (negb (starts_with (lit "#") l) && negb (bool_decide (trim l = []))) eqn:E.
  - rewrite filter_cons_True by done. cbn [omap list_omap]. destruct (split3 l) as [[[a b] c]|]; cbn [mbind option_bind]; by rewrite IH.
  - rewrite filter_cons_False by (by rewrite E). exact IH.
Qed.

Lemma keyscan_entry_line l k : keyscan_entry l = Some k -> known_hosts_line k = l.
Proof. unfold keyscan_entry. case_match; [|done]. destruct (split3 l) as [[[a b] c]|]; [|done]. by intros [= <-]. Qed.

Lemma entries_again (ls : list str) : omap keyscan_entry (known_hosts_line <$> omap keyscan_entry ls) = omap keyscan_entry ls.
Proof.
  induction ls as [|l ls IH]; [done|]. cbn [omap list_omap]. destruct (keyscan_entry l) as [k|] eqn:E; [|done].
  rewrite fmap_cons. cbn [omap list_omap]. by rewrite (keyscan_entry_line _ _ E), E, IH.
Qed.

Lemma appended_lines known keys :
  known = [] \/ (exists k, known = k ++ [x0a]) -> Forall (fun k => clean_line (known_hosts_line k)) keys ->
  lines (append_known_hosts known keys) = lines known ++ (known_hosts_line <$> keys).
Proof.
  intros Hk Hc. unfold append_known_hosts. assert (lines (mjoin ((fun k => known_hosts_line k ++ [x0a]) <$> keys)) = known_hosts_line <$> keys) as Hl.
  { rewrite (list_fmap_compose known_hosts_line (fun l => l ++ [x0a])). apply lines_fed. by apply Forall_fmap. }
  destruct Hk as [->|[k ->]]; [done|]. rewrite <- app_assoc. cbn [app]. by rewrite lines_app_fed, Hl.
Qed.

(** what [ssh-keyscan] printed and the user accepted is what is known afterwards: from a
    file that ends with a line, the entries read back are the old ones and then exactly the
    keys of the scan. *)
Theorem trusted_keys_read_back known scan
    (terminated : known = [] \/ exists k, known = k ++ [x0a]) (no_returns : x0d ∉ scan) :
  parse_keyscan_lines (append_known_hosts known (parse_keyscan_lines scan)) = parse_keyscan_lines known ++ parse_keyscan_lines scan.
Proof.
  rewrite (parse_keyscan_entries (append_known_hosts _ _)), appended_lines; [|done|].
  - rewrite omap_app, !parse_keyscan_entries. by rewrite entries_again.
  - rewrite parse_keyscan_entries. apply Forall_forall. intros k (l & Hl & E)%list_elem_of_omap. rewrite (keyscan_entry_line _ _ E). by eapply lines_clean.
Qed.

Lemma strip_cr_joined l k : k <> [] -> clean_line k -> strip_cr (l ++ k) = l ++ k.
Proof.
  intros Hne [_ Hk]. destruct (last k) as [b|] eqn:E; [|by apply last_None in E]. apply (strip_cr_other _ b); [by rewrite last_app, E|congruence].
Qed.

(** a file whose last line is not ended is not: the first key is written onto that line,
    and the two make one line. *)
Theorem unterminated_file_joined pre l key keys
    (one_line : x0a ∉ l) (not_blank : known_hosts_line key <> []) (clean : Forall (fun k => clean_line (known_hosts_line k)) (key :: keys)) :
  lines (append_known_hosts (pre ++ x0a :: l) (key :: keys)) = lines (pre ++ [x0a]) ++ (l ++ known_hosts_line key) :: (known_hosts_line <$> keys).
Proof.
  apply Forall_cons in clean as [Hk Hks]. unfold append_known_hosts. rewrite <- app_assoc. cbn [app]. rewrite lines_app_fed. f_equal.
  change (mjoin _) with ((known_hosts_line key ++ [x0a]) ++ mjoin ((fun k => known_hosts_line k ++ [x0a]) <$> keys)).
  rewrite <- app_assoc. cbn [app]. rewrite app_assoc, lines_line by (destruct Hk; set_solver). rewrite strip_cr_joined by done.
  f_equal. pose proof (appended_lines [] keys) as H. apply H; [by left|done].
Qed.

(** ** Witnesses *)

Lemma plain_builtin : plain_programs builtin_whitelist.
Proof.
  assert (map_Forall (fun p _ => p <> [] /\ Forall (fun b => sh_plain b = true) p) (programs builtin_whitelist)) as H
    by (apply (bool_decide_unpack _); by vm_compute).
  intros p [x Hx]. exact (H p x Hx).
Qed.

Lemma remote_runs_what_passed_witness :
  exists c call, gate_command (fmap ascii_lower) builtin_whitelist (lit "df -h") = Ok c /\
    ssh_getopt None [] (ssh_args (lit "ping-1") (ad_hoc_entry (lit "me") (lit "db1") 22) c) = Some call /\
    sh_words Between (join [x20] (command call)) = Some [lit "df"; lit "-h"].
Proof.
  destruct (remote_runs_what_passed (fmap ascii_lower) builtin_whitelist (lit "df -h") {| program := lit "df"; args := [lit "-h"] |}
              (lit "ping-1") (ad_hoc_entry (lit "me") (lit "db1") 22) plain_builtin ltac:(by vm_compute) ltac:(by vm_compute))
    as (call & Hc & _ & _ & Hw & _).
  eexists _, call. split; [|split; [exact Hc|]]; [by vm_compute|]. rewrite Hw. by vm_compute.
Defined.

Lemma option_injection_witness :
  exists call, ssh_getopt None [] (ssh_args (lit "b") (ad_hoc_entry (lit "-oProxyCommand=id") (lit "h") 22) {| program := lit "uptime"; args := [] |}) = Some call /\
    dest call = lit "uptime".
Proof.
  destruct (option_injection (lit "b") (ad_hoc_entry (lit "-oProxyCommand=id") (lit "h") 22) {| program := lit "uptime"; args := [] |}
              x50 (lit "roxyCommand=id") eq_refl) as (_ & call & Hc & _ & Hd). by exists call.
Defined.

(** A host whose inventory entry asks for the agent. *)
Definition forwarding : HostEntry :=
  {| name := lit "db1"; hostname := lit "10.0.0.1"; user := lit "me"; port := 22; identity_file := None; forward_agent := true;
     proxy_jump := Some (lit "bastion"); host_key_check := Strict; connect_timeout_secs := 10; tags := []; source := HostsToml |}.

Lemma agent_never_forwarded_witness :
  exists call, ssh_getopt None [] (ssh_args (lit "b") forwarding {| program := lit "uptime"; args := [] |}) = Some call /\
    take 2 (opts call) = [(x6f, lit "BatchMode=yes"); (x6f, lit "ForwardAgent=no")].
Proof.
  eexists. split; [by vm_compute|]. refine (proj1 (agent_never_forwarded (lit "b") forwarding {| program := lit "uptime"; args := [] |} _ eq_refl _)).
  by vm_compute.
Defined.

Lemma bounded_output_witness : bounded_read (pipe [lit "load"; lit " 0.1"]) = Some (lit "load 0.1", false).
Proof.
  destruct (bounded_output [lit "load"; lit " 0.1"] ltac:(by repeat constructor)) as [H _]. rewrite H. by vm_compute.
Defined.

Lemma auto_trust_dead_witness :
  (let run n h (_ : RemoteCommand) := exec_result (fmap ascii_lower) (fun _ _ _ => None) 30 h (Exited [] [Got UNKNOWN_HOST] (Some 255)) 40 in
   ping_one (fmap ascii_lower) run forwarding {| program := lit "uptime"; args := [] |} (Some (lit "yes")) (lit "h ssh-ed25519 AAAA") []).1.2 = [].
Proof.
  pose proof (auto_trust_dead (fmap ascii_lower) (fun _ _ _ => None) 30 forwarding {| program := lit "uptime"; args := [] |}
                (fun _ => Exited [] [Got UNKNOWN_HOST] (Some 255)) (fun _ => 40) (Some (lit "yes")) (lit "h ssh-ed25519 AAAA") [] ltac:(by vm_compute)) as H.
  cbn zeta in H |- *. destruct (ping_one _ _ _ _ _ _ _) as [[made known] code]. exact (proj1 (proj2 H)).
Defined.

Lemma trusted_keys_read_back_witness :
  parse_keyscan_lines (append_known_hosts (lit "a ssh-rsa B" ++ [x0a]) (parse_keyscan_lines (lit "h ssh-ed25519 C")))
  = [{| key_type := lit "ssh-rsa"; known_hosts_line := lit "a ssh-rsa B" |}; {| key_type := lit "ssh-ed25519"; known_hosts_line := lit "h ssh-ed25519 C" |}].
Proof.
  rewrite (trusted_keys_read_back (lit "a ssh-rsa B" ++ [x0a]) (lit "h ssh-ed25519 C")
             (or_intror (ex_intro _ (lit "a ssh-rsa B") eq_refl)) ltac:(by_decide)). by vm_compute.
Defined.

Lemma unterminated_file_joined_witness :
  lines (append_known_hosts (lit "# mine" ++ x0a :: lit "a ssh-rsa B") [{| key_type := lit "ssh-ed25519"; known_hosts_line := lit "h ssh-ed25519 C" |}])
  = [lit "# mine"; lit "a ssh-rsa Bh ssh-ed25519 C"].
Proof.
  rewrite (unterminated_file_joined (lit "# mine") (lit "a ssh-rsa B") {| key_type := lit "ssh-ed25519"; known_hosts_line := lit "h ssh-ed25519 C" |} []
             ltac:(by_decide) ltac:(done) ltac:(constructor; [split; [by_decide|done]|constructor])). by vm_compute.
Defined.
