(* ===== verification/Fanout.v ===== *)
(** * One command on many hosts

    [aic-client/src/agent/remote/fanout.rs] and [diagnose.rs], and the exit codes of
    [main.rs]: a command runs on the hosts of a group with a limit on how many at once and a
    deadline for all; a diagnosis collects what the hosts answered. Which host starts and
    which one answers next is not determined: the run is a step relation.

    [fan_invariant], [fan_terminates]: the run keeps to its limit, loses no host and comes to
    an end. [fanout_accounts]: results and incomplete hosts are the group; [shared_name_lost]:
    not where two hosts share a name. [diagnosis_accounts]: the report of a diagnosis and its
    exit code. [symptom_stays_text]: what the remote [aic] is asked. *)

From S2P Require Import Prelude RustStr StrOrder JsonValue Hosts Remote.
#[local] Open Scope outcome_scope.

Record FanoutResult := { results : list RemoteResult; wall_timed_out : bool; incomplete : list str }.

Record StatusCounts := {
  n_ok : nat;
  n_ok_warn : nat;
  n_unreachable : nat;
  n_timeout : nat;
  n_auth_fail : nat;
  n_proxy_fail : nat;
  n_remote_err : nat;
  n_host_key_mismatch : nat;
  n_cancelled : nat;
}.

Definition count_status (s : HostStatus) (rs : list RemoteResult) : nat := length (filter (fun r => status r = s) rs).

Definition fanout_counts (f : FanoutResult) : StatusCounts :=
  let n s := count_status s (results f) in
  {| n_ok := n Okay; n_ok_warn := n OkWithWarn; n_unreachable := n Unreachable; n_timeout := n Timeout; n_auth_fail := n AuthFail;
     n_proxy_fail := n ProxyFail; n_remote_err := n RemoteErr; n_host_key_mismatch := n HostKeyMismatch;
     n_cancelled := length (incomplete f) |}.

Definition counts_total (c : StatusCounts) : nat :=
  n_ok c + n_ok_warn c + n_unreachable c + n_timeout c + n_auth_fail c + n_proxy_fail c + n_remote_err c + n_host_key_mismatch c
  + n_cancelled c.

(** ** The run *)

(** The hosts, by their place in the list, that wait for a permit, that run, and that
    answered, in the order of their answers. *)
Record Fan := { waiting : list nat; running : list nat; answered : list (nat * RemoteResult) }.

Definition start (n : nat) : Fan := {| waiting := seq 0 n; running := []; answered := [] |}.

Section Fanout.
Variable group : list HostEntry.
Variable max_parallel : nat.

Definition cap : nat := Nat.max max_parallel 1.

Inductive fan_step : Fan -> Fan -> Prop :=
| Begin w1 i w2 run ans :
    (length run < cap)%nat ->
    fan_step {| waiting := w1 ++ i :: w2; running := run; answered := ans |} {| waiting := w1 ++ w2; running := i :: run; answered := ans |}
| Answer w r1 i r2 ans h r :
    group !! i = Some h -> host r = name h ->
    fan_step {| waiting := w; running := r1 ++ i :: r2; answered := ans |} {| waiting := w; running := r1 ++ r2; answered := ans ++ [(i, r)] |}.

Definition over (f : Fan) : Prop := waiting f = [] /\ running f = [].

(** What [run_fanout] returns when it stops at [f]; before the end only at the deadline. *)
Definition fanout_result (f : Fan) (timed_out : bool) : FanoutResult :=
  let rs := snd <$> answered f in
  {| results := rs;
     wall_timed_out := timed_out;
     incomplete := if timed_out then filter (fun n => n ∉ (host <$> rs)) (name <$> group) else [] |}.

Inductive fanout : FanoutResult -> Prop :=
| Complete f : rtc fan_step (start (length group)) f -> over f -> fanout (fanout_result f false)
| Deadline f : rtc fan_step (start (length group)) f -> ~ over f -> fanout (fanout_result f true).
End Fanout.

(** The exit code of [hosts ping] of a group. *)
Definition ping_group_code (f : FanoutResult) : Z :=
  if wall_timed_out f then 2
  else if forallb (fun r => bool_decide (status r ∈ [Okay; OkWithWarn])) (results f) then 0 else 1.

(** ** Diagnosis *)

Inductive RemoteDiagnosisState := Success | TransportError | InvalidPayload | Incomplete.

#[export] Instance RemoteDiagnosisState_eq_dec : EqDecision RemoteDiagnosisState.
Proof. solve_decision. Defined.

Record RemoteDiagnosisHost := {
  d_host : str;
  d_state : RemoteDiagnosisState;
  transport_status : option HostStatus;
  d_duration_ms : option Z;
  d_truncated : bool;
  d_redacted : nat;
  diagnosis : option Value;
  d_error : option str;
}.

Record RemoteDiagnosisSummary := { s_success : nat; s_transport_error : nat; s_invalid_payload : nat; s_incomplete : nat; s_total : nat }.

Record RemoteDiagnosisReport := {
  target : str;
  symptom : option str;
  r_wall_timed_out : bool;
  summary : RemoteDiagnosisSummary;
  d_hosts : list RemoteDiagnosisHost;
}.

Definition count_state (hs : list RemoteDiagnosisHost) (s : RemoteDiagnosisState) : nat := length (filter (fun h => d_state h = s) hs).

Definition from_hosts (hs : list RemoteDiagnosisHost) : RemoteDiagnosisSummary :=
  {| s_success := count_state hs Success; s_transport_error := count_state hs TransportError;
     s_invalid_payload := count_state hs InvalidPayload; s_incomplete := count_state hs Incomplete; s_total := length hs |}.

Definition first_nonempty (first second : str) : option str := head (filter (fun s => s <> []) (trim <$> [first; second])).

Definition host_le (a b : RemoteDiagnosisHost) : Prop := str_le (d_host a) (d_host b).
#[export] Instance host_le_dec : RelDecision host_le := fun a b => decide (str_le (d_host a) (d_host b)).

Section Diagnose.
Variable json_parse : str -> option Value.
(** What [serde_json] says of a text that is not JSON. *)
Variable parse_error : str -> str.

Definition REMOTE_DIAGNOSE_SCHEMA_VERSION : Z := 1.
Definition MAX_REMOTE_SYMPTOM_BYTES : nat := 512.

Definition parse_diagnosis_envelope (stdout : str) : outcome Value str :=
  let? envelope := ok_or (json_parse (trim stdout)) (lit "원격 diagnosis JSON 파싱 실패: " ++ parse_error (trim stdout)) in
  guard bool_decide (value_get envelope (lit "schema_version") ≫= as_u64 = Some 1) else lit "지원하지 않는 원격 diagnosis schema_version" in
  ok_or (d ← value_get envelope (lit "diagnosis"); match d with VObject _ => Some d | _ => None end)
    (lit "원격 diagnosis payload 누락").

Definition diagnosed (r : RemoteResult) : RemoteDiagnosisHost :=
  let entry state diagnosis error :=
    {| d_host := host r; d_state := state; transport_status := Some (status r); d_duration_ms := Some (duration_ms r);
       d_truncated := truncated r; d_redacted := redacted r; diagnosis := diagnosis; d_error := error |} in
  if negb (bool_decide (status r ∈ [Okay; OkWithWarn])) then
    entry TransportError None (Some (default (lit "원격 명령 실행 실패") (first_nonempty (stderr r) (stdout r))))
  else if truncated r then entry InvalidPayload None (Some (lit "원격 diagnosis 출력이 저장 상한을 넘어 잘림"))
  else match parse_diagnosis_envelope (stdout r) with
       | Ok d => entry Success (Some d) None
       | Err e => entry InvalidPayload None (Some e)
       | Panic => entry InvalidPayload None None
       end.

Definition not_completed (h : str) : RemoteDiagnosisHost :=
  {| d_host := h; d_state := Incomplete; transport_status := None; d_duration_ms := None; d_truncated := false; d_redacted := 0;
     diagnosis := None; d_error := Some (lit "wall-clock timeout 전에 완료되지 않음") |}.

Definition from_fanout (target : str) (symptom : option str) (f : FanoutResult) : RemoteDiagnosisReport :=
  let hs := merge_sort host_le ((diagnosed <$> results f) ++ (not_completed <$> incomplete f)) in
  {| target := target; symptom := symptom; r_wall_timed_out := wall_timed_out f; summary := from_hosts hs; d_hosts := hs |}.

Definition all_succeeded (r : RemoteDiagnosisReport) : bool :=
  negb (r_wall_timed_out r) && negb (bool_decide (d_hosts r = []))
  && forallb (fun h => bool_decide (d_state h = Success)) (d_hosts r).

Definition diagnose_code (r : RemoteDiagnosisReport) : Z :=
  if all_succeeded r then 0 else if r_wall_timed_out r then 2 else 1.

(** [char::is_control]: C0, DEL and C1. *)
Definition is_control (c : str) : bool :=
  match c with
  | [b] => (b2z b <? 32) || (b2z b =? 127)
  | [a; b] => (b2z a =? 194) && (b2z b <? 160)
  | _ => false
  end.

(** [diagnose::command]; the error names the refused token. *)
Definition diagnose_command (symptom : list str) : outcome RemoteCommand str :=
  guard (sum_by length symptom <=? MAX_REMOTE_SYMPTOM_BYTES)%nat
    else lit "원격 진단 증상은 512 bytes 이하여야 합니다" in
  match List.find (fun token => starts_with (lit "-") token || existsb is_control (chars token)) symptom with
  | Some token => Err token
  | None => Ok {| program := lit "aic"; args := [lit "diagnose"] ++ symptom ++ [lit "--no-analyze"; lit "--json"] |}
  end.
End Diagnose.

From S2P Require Import RemoteSpec.

Section FanTheorems.
Variable group : list HostEntry.
Variable max_parallel : nat.
Notation step := (fan_step group max_parallel).
Notation init := (start (length group)).

(** An answer is about the host it came from. *)
Definition answers (p : nat * RemoteResult) : Prop := exists h, group !! p.1 = Some h /\ host p.2 = name h.

Record FanOk (f : Fan) : Prop := {
  within_cap : (length (running f) <= cap max_parallel)%nat;
  all_there : waiting f ++ running f ++ (answered f).*1 ≡ₚ seq 0 (length group);
  by_their_host : Forall answers (answered f);
}.

Lemma start_ok : FanOk init.
Proof. split; [cbn; lia|cbn; by rewrite !app_nil_r|constructor]. Qed.

Lemma step_ok f f' : step f f' -> FanOk f -> FanOk f'.
Proof.
  intros Hs [Hc Ha Hh]. destruct Hs as [w1 i w2 run ans Hlt|w r1 i r2 ans h r Hi Hr]; cbn [waiting running answered] in *.
  - split; cbn [waiting running answered]; [cbn; lia| |done]. rewrite <- Ha. solve_Permutation.
  - split; cbn [waiting running answered]; [rewrite length_app in *; cbn in Hc; lia| |].
    + rewrite <- Ha, fmap_app, list_fmap_singleton. cbn [fst]. solve_Permutation.
    + apply Forall_app. split; [done|]. repeat constructor. by exists h.
Qed.

Lemma steps_ok f f' : rtc step f f' -> FanOk f -> FanOk f'.
Proof. induction 1 as [|f f1 f' Hs _ IH]; [done|]. intros H. by eapply IH, step_ok. Qed.

Lemma reachable_ok f : rtc step init f -> FanOk f.
Proof. intros H. by eapply steps_ok, start_ok. Qed.

(** C33: at every moment of a run no more hosts run than [max_parallel] says, one where it says
    zero, and each host of the group waits, runs or has answered, exactly once: no host is
    started twice or answers twice, and none is lost. *)
Theorem fan_invariant f (reachable : rtc step init f) :
  (length (running f) <= max_parallel \/ max_parallel = O /\ length (running f) <= 1)%nat /\
  waiting f ++ running f ++ (answered f).*1 ≡ₚ seq 0 (length group) /\
  NoDup (waiting f ++ running f ++ (answered f).*1).
Proof.
  destruct (reachable_ok f reachable) as [Hc Ha _]. split; [unfold cap in Hc; lia|]. split; [exact Ha|].
  rewrite Ha. apply NoDup_seq.
Qed.

Definition left (f : Fan) : nat := 2 * length (waiting f) + length (running f).

Lemma step_left f f' : step f f' -> left f = S (left f').
Proof. destruct 1; unfold left; cbn [waiting running]; rewrite !length_app; cbn [length]; rewrite ?length_app; lia. Qed.

Lemma steps_left k f f' : nsteps step k f f' -> left f = (k + left f')%nat.
Proof. induction 1 as [|k f f1 f' Hs _ IH]; [done|]. rewrite (step_left _ _ Hs). lia. Qed.

Lemma left_zero f : left f = O <-> over f.
Proof. unfold left, over. rewrite <- (length_zero_iff_nil (waiting f)), <- (length_zero_iff_nil (running f)). lia. Qed.

Lemma result_of (h : HostEntry) : exists r, host r = name h.
Proof.
  by exists {| host := name h; stdout := []; stderr := []; exit_code := 0; duration_ms := 0; status := Okay; truncated := false; redacted := O |}.
Qed.

(** C37: a run takes two steps for each host, a start and an answer, in whatever order they
    come: while it is not over it can go on, it is over when that many were made, and never
    earlier or later. *)
Theorem fan_terminates k f (run : nsteps step k init f) :
  (k <= 2 * length group)%nat /\ (over f <-> k = 2 * length group)%nat /\ (~ over f -> exists f', step f f').
Proof.
  pose proof (steps_left _ _ _ run) as Hl. unfold left at 1 in Hl. cbn [start waiting running length] in Hl. rewrite length_seq in Hl.
  split; [lia|]. split; [rewrite <- left_zero; lia|]. intros Ho. assert (rtc step init f) as Hr by (apply rtc_nsteps; by exists k).
  destruct (reachable_ok f Hr) as [Hc Ha _]. destruct f as [w r ans]. cbn [waiting running answered] in *. destruct r as [|i r].
  - destruct w as [|i w]; [by destruct Ho|]. eexists. apply (Begin _ _ [] i w). cbn. unfold cap. lia.
  - assert (i < length group)%nat as Hi.
    { assert (i ∈ seq 0 (length group)) as Hin by (rewrite <- Ha; rewrite !elem_of_app; right; left; by left). apply elem_of_seq in Hin. lia. }
    destruct (lookup_lt_is_Some_2 group i Hi) as [h Hh]. destruct (result_of h) as [x Hx]. eexists. by apply (Answer _ _ _ [] i r _ h x).
Qed.

(** ** Accounts *)

Definition named (i : nat) : str := default [] (name <$> group !! i).

Lemma named_all : named <$> seq 0 (length group) = name <$> group.
Proof.
  apply list_eq. intros i. rewrite !list_lookup_fmap. destruct (decide (i < length group)%nat) as [Hi|Hi].
  - rewrite lookup_seq_lt by done. cbn. unfold named. by destruct (lookup_lt_is_Some_2 group i Hi) as [h ->].
  - rewrite lookup_seq_ge by lia. rewrite (lookup_ge_None_2 group) by lia. done.
Qed.

Lemma answered_names f : FanOk f -> host <$> (answered f).*2 = named <$> (answered f).*1.
Proof.
  intros [_ _ H]. induction H as [|[i r] ans (h & Hh & Hr) _ IH]; [done|]. rewrite !fmap_cons. f_equal; [|done].
  cbn in *. unfold named. by rewrite Hh.
Qed.

Lemma names_split f : FanOk f -> (named <$> waiting f) ++ (named <$> running f) ++ (host <$> (answered f).*2) ≡ₚ name <$> group.
Proof. intros H. rewrite answered_names by done. destruct H as [_ Ha _]. rewrite <- !fmap_app, Ha. by rewrite named_all. Qed.

Lemma filter_rest {A} (eqd : EqDecision A) (all done_ rest : list A) :
  NoDup all -> rest ++ done_ ≡ₚ all -> filter (fun x => x ∉ done_) all ≡ₚ rest.
Proof.
  intros Hn Hp. assert (NoDup (rest ++ done_)) as Hd by (by rewrite Hp). apply NoDup_app in Hd as (Hr & Hd & _).
  apply NoDup_Permutation; [by apply NoDup_filter|done|]. intros x. rewrite list_elem_of_filter, <- Hp, elem_of_app.
  specialize (Hd x). tauto.
Qed.

Lemma accounts_of f (t : bool) : NoDup (name <$> group) -> FanOk f -> (t = false -> over f) ->
  (host <$> results (fanout_result group f t)) ++ incomplete (fanout_result group f t) ≡ₚ name <$> group.
Proof.
  intros Hn Hf Ht. pose proof (names_split f Hf) as Hp. unfold fanout_result. cbn [results incomplete]. destruct t.
  - rewrite (filter_rest _ (name <$> group) (host <$> (answered f).*2) ((named <$> waiting f) ++ (named <$> running f))); [|done|by rewrite <- app_assoc].
    rewrite <- Hp. solve_Permutation.
  - destruct (Ht eq_refl) as [Ew Er]. rewrite Ew, Er in Hp. by rewrite app_nil_r.
Qed.

Lemma fanout_inv f : fanout group max_parallel f ->
  exists s t, f = fanout_result group s t /\ FanOk s /\ (t = false <-> over s).
Proof.
  intros [s Hr Ho|s Hr Ho]; [exists s, false|exists s, true]; (split; [done|]; split; [by apply reachable_ok|]); by split.
Qed.
End FanTheorems.

Lemma counts_all rs : (sum_list ((fun s => count_status s rs) <$> [Okay; OkWithWarn; Unreachable; Timeout; AuthFail; ProxyFail; RemoteErr; HostKeyMismatch]) = length rs)%nat.
Proof.
  induction rs as [|r rs IH]; [done|]. cbn [length]. rewrite <- IH. unfold count_status. rewrite !fmap_cons, !fmap_nil. cbn [sum_list].
  rewrite !filter_cons. destruct (status r); repeat (case_decide; try congruence); unfold id; cbn [length]; lia.
Qed.

Lemma counts_total_spec f : counts_total (fanout_counts f) = (length (results f) + length (incomplete f))%nat.
Proof. rewrite <- (counts_all (results f)). unfold counts_total, fanout_counts. cbn. lia. Qed.

Lemma fanout_perm group max_parallel f : NoDup (name <$> group) -> fanout group max_parallel f ->
  (host <$> results f) ++ incomplete f ≡ₚ name <$> group.
Proof.
  intros Hn Hf. destruct (fanout_inv _ _ _ Hf) as (s & t & -> & Hs & Ht). eapply accounts_of; [done|done|]. by apply Ht.
Qed.

Lemma deadline_incomplete group max_parallel f : NoDup (name <$> group) -> fanout group max_parallel f ->
  wall_timed_out f = true <-> incomplete f <> [].
Proof.
  intros distinct run. pose proof (fanout_perm _ _ _ distinct run) as Hp.
  destruct (fanout_inv _ _ _ run) as (s & t & -> & Hs & Ht). destruct t; [|by cbn]. cbn [fanout_result wall_timed_out]. split; [|done]. intros _ Hi.
  rewrite Hi, app_nil_r in Hp. apply Permutation_length in Hp. pose proof (names_split _ _ _ Hs) as Hq. apply Permutation_length in Hq.
  cbn [fanout_result results] in Hp. rewrite !length_app, <- Hp in Hq. rewrite !length_fmap in Hq.
  assert (true = false); [|done]. apply (proj2 Ht). split; apply length_zero_iff_nil; lia.
Qed.

(** C14: however the run went, where the names of the group differ each of its hosts is either
    in the results or among the incomplete, once; the counts of the header add up to the
    group, and there are incomplete hosts exactly when the deadline passed. *)
Theorem fanout_accounts group max_parallel f (distinct : NoDup (name <$> group)) (run : fanout group max_parallel f) :
  (host <$> results f) ++ incomplete f ≡ₚ name <$> group /\
  counts_total (fanout_counts f) = length group /\
  (wall_timed_out f = true <-> incomplete f <> []).
Proof.
  pose proof (fanout_perm _ _ _ distinct run) as Hp. split; [done|]. split; [|by eapply deadline_incomplete].
  rewrite counts_total_spec, <- (length_fmap host), <- length_app, Hp. apply length_fmap.
Qed.

(** where a group names a host twice it is not so: of two runs of which one answered, the
    other is not among the incomplete when the deadline passes, and the counts hide it. *)
Theorem shared_name_lost inv g n h r max_parallel
    (twice : groups inv !! g = Some {| members := [n; n]; group_tags := [] |}) (known : hosts inv !! n = Some h) (its : host r = name h) :
  exists f, resolve_pattern inv (x40 :: g) = Ok [h; h] /\ fanout [h; h] max_parallel f /\
    wall_timed_out f = true /\ incomplete f = [] /\ counts_total (fanout_counts f) = 1%nat.
Proof.
  set (f := {| waiting := [1%nat]; running := []; answered := [(0%nat, r)] |}).
  exists (fanout_result [h; h] f true). split; [|split].
  - cbn [resolve_pattern]. rewrite twice. cbn. by rewrite known.
  - apply Deadline; [|by intros [? _]]. eapply rtc_l; [apply (Begin _ _ [] 0%nat [1%nat]); cbn; unfold cap; lia|].
    eapply rtc_l; [|apply rtc_refl]. by apply (Answer _ _ [1%nat] [] 0%nat [] [] h r).
  - assert (incomplete (fanout_result [h; h] f true) = []) as E.
    { cbn [fanout_result incomplete answered f]. rewrite !fmap_cons, !fmap_nil. cbn [snd]. rewrite its.
      rewrite !filter_cons_False; [done|set_solver..]. }
    split; [done|]. split; [done|]. rewrite counts_total_spec, E. done.
Qed.

(** ** Diagnosis *)

Section DiagnoseSpec.
Variable json_parse : str -> option Value.
Variable parse_error : str -> str.
Notation envelope := (parse_diagnosis_envelope json_parse parse_error).
Notation report := (from_fanout json_parse parse_error).

Definition answered_well (r : RemoteResult) : Prop :=
  status r ∈ [Okay; OkWithWarn] /\ truncated r = false /\ exists d, envelope (stdout r) = Ok d.

Lemma diagnosed_host r : d_host (diagnosed json_parse parse_error r) = host r.
Proof. unfold diagnosed. destruct (negb _); [done|]. destruct (truncated r); [done|]. by destruct (envelope (stdout r)). Qed.

Lemma diagnosed_success r : d_state (diagnosed json_parse parse_error r) = Success <-> answered_well r.
Proof.
  unfold diagnosed, answered_well. case_bool_decide as Hs; cbn [negb]; [|naive_solver].
  destruct (truncated r); [naive_solver|]. destruct (envelope (stdout r)) as [d|e|]; naive_solver.
Qed.

Lemma states_all hs : (count_state hs Success + count_state hs TransportError + count_state hs InvalidPayload + count_state hs Incomplete = length hs)%nat.
Proof.
  unfold count_state. induction hs as [|h hs IH]; [done|]. rewrite !filter_cons. destruct (d_state h); repeat (case_decide; try congruence); cbn [length]; lia.
Qed.

Lemma report_hosts target symptom f :
  d_hosts (report target symptom f) ≡ₚ (diagnosed json_parse parse_error <$> results f) ++ (not_completed <$> incomplete f).
Proof. apply merge_sort_Permutation. Qed.

Lemma report_names target symptom f : d_host <$> d_hosts (report target symptom f) ≡ₚ (host <$> results f) ++ incomplete f.
Proof.
  rewrite report_hosts, fmap_app.
  assert (d_host <$> (diagnosed json_parse parse_error <$> results f) = host <$> results f) as ->
    by (rewrite <- list_fmap_compose; apply list_fmap_ext; intros _ r _; apply diagnosed_host).
  assert (d_host <$> (not_completed <$> incomplete f) = incomplete f) as ->; [|done].
  rewrite <- list_fmap_compose. apply list_fmap_id.
Qed.

Lemma sorted_names target symptom f : Sorted str_le (d_host <$> d_hosts (report target symptom f)).
Proof.
  assert (Sorted host_le (d_hosts (report target symptom f))) as H by (apply Sorted_merge_sort; intros a b; apply (total str_le)).
  induction H as [|h hs _ IH Hh]; [constructor|]. rewrite fmap_cons. constructor; [done|]. destruct Hh; by constructor.
Qed.

Lemma all_succeeded_spec r : all_succeeded r = true <-> d_hosts r <> [] /\ r_wall_timed_out r = false /\ Forall (fun h => d_state h = Success) (d_hosts r).
Proof.
  unfold all_succeeded. rewrite !andb_true_iff, !negb_true_iff, bool_decide_eq_false, forallb_forall, Forall_forall.
  setoid_rewrite bool_decide_eq_true. setoid_rewrite list_elem_of_In. tauto.
Qed.

Lemma successes target symptom f :
  Forall (fun h => d_state h = Success) (d_hosts (report target symptom f)) <-> Forall answered_well (results f) /\ incomplete f = [].
Proof.
  rewrite report_hosts, Forall_app, !Forall_fmap. f_equiv.
  - apply Forall_iff. intros r. apply diagnosed_success.
  - destruct (incomplete f); [by split|]. split; [|done]. by inversion 1.
Qed.

(** the report of a diagnosis has one entry for each host of the group, in the order of
    their names, and its summary adds up; the exit code is 2 when the deadline passed, and 0
    exactly when there are hosts and every one ran the command, was not cut off and answered
    with an envelope that can be read. *)
Theorem diagnosis_accounts group max_parallel target symptom f
    (distinct : NoDup (name <$> group)) (run : fanout group max_parallel f) :
  let r := report target symptom f in
  d_host <$> d_hosts r ≡ₚ name <$> group /\ Sorted str_le (d_host <$> d_hosts r) /\
  s_total (summary r) = length group /\
  (s_success (summary r) + s_transport_error (summary r) + s_invalid_payload (summary r) + s_incomplete (summary r) = s_total (summary r))%nat /\
  (diagnose_code r = 2 <-> wall_timed_out f = true) /\
  (diagnose_code r = 0 <-> group <> [] /\ wall_timed_out f = false /\ Forall answered_well (results f)).
Proof.
  cbn zeta. pose proof (fanout_perm _ _ _ distinct run) as Hp. pose proof (report_names target symptom f) as Hr. rewrite Hp in Hr.
  assert (length (d_hosts (report target symptom f)) = length group) as Hl.
  { rewrite <- (length_fmap d_host), Hr. apply length_fmap. }
  split; [done|]. split; [apply sorted_names|]. split; [done|]. split; [apply states_all|]. unfold diagnose_code. split.
  - destruct (all_succeeded _) eqn:E; [|cbn [r_wall_timed_out from_fanout]; by destruct (wall_timed_out f)].
    apply all_succeeded_spec in E as (_ & Ht & _). cbn [r_wall_timed_out from_fanout] in Ht. by rewrite Ht.
  - destruct (all_succeeded _) eqn:E.
    + apply all_succeeded_spec in E as (Hn & Ht & Hs). split; [|done]. intros _. split; [|split; [done|]].
      * intros ->. apply Hn. by apply length_zero_iff_nil.
      * exact (proj1 (proj1 (successes _ _ _) Hs)).
    + split; [cbn [r_wall_timed_out from_fanout]; by destruct (wall_timed_out f)|]. intros (Hn & Ht & Hs). exfalso.
      apply not_true_iff_false in E. apply E. apply all_succeeded_spec. split; [|split; [done|]].
      * intros Ed. apply Hn. apply length_zero_iff_nil. by rewrite <- Hl, Ed.
      * apply successes. split; [done|]. destruct (incomplete f) eqn:Ei; [done|].
        exfalso. assert (wall_timed_out f = true) as Hw by (by eapply deadline_incomplete; [..|rewrite Ei]). by rewrite Hw in Ht.
Qed.
End DiagnoseSpec.

(** C15: the words of the symptom reach the remote [aic] as words and as nothing else: the
    shell of the host makes [aic diagnose], the words as they were typed and the two fixed
    options of them, none of the words begins with a dash and none holds a control
    character. *)
Theorem symptom_stays_text symptom c (accepted : diagnose_command symptom = Ok c) :
  sh_words Between (join [x20] (program c :: (shell_escape <$> args c)))
  = Some ([lit "aic"; lit "diagnose"] ++ symptom ++ [lit "--no-analyze"; lit "--json"]) /\
  (sum_by length symptom <= MAX_REMOTE_SYMPTOM_BYTES)%nat /\
  Forall (fun t => starts_with (lit "-") t = false /\ Forall (fun ch => is_control ch = false) (chars t)) symptom.
Proof.
  unfold diagnose_command in accepted. destruct (_ <=? _)%nat eqn:E; [|done]. apply Nat.leb_le in E.
  destruct (List.find _ symptom) as [t|] eqn:F; [done|]. injection accepted as <-. cbn [program args]. split; [|split; [done|]].
  - apply command_words. split; [done|]. apply (bool_decide_unpack _). by vm_compute.
  - apply Forall_forall. intros t Ht%list_elem_of_In. apply (List.find_none _ _ F), orb_false_elim in Ht as [Hd Hc]. split; [done|].
    apply Forall_forall. intros ch Hch. destruct (is_control ch) eqn:Ec; [|done].
    assert (existsb is_control (chars t) = true) as X; [|congruence]. apply existsb_exists. exists ch. split; [by apply list_elem_of_In|done].
Qed.

(** ** Witnesses *)

(** A group of two hosts, of which one has answered when the deadline passes. *)
Definition pair_of_hosts : list HostEntry := [ad_hoc_entry (lit "me") (lit "a") 22; ad_hoc_entry (lit "me") (lit "b") 22].
Definition answer_of_b : RemoteResult :=
  {| host := lit "me@b:22"; stdout := []; stderr := []; exit_code := 0; duration_ms := 3; status := Okay; truncated := false; redacted := O |}.
Definition half_way : Fan := {| waiting := [0%nat]; running := []; answered := [(1%nat, answer_of_b)] |}.

Lemma half_steps : nsteps (fan_step pair_of_hosts 1) 2 (start 2) half_way.
Proof.
  eapply nsteps_l; [apply (Begin _ _ [0%nat] 1%nat []); cbn; unfold cap; lia|].
  eapply nsteps_l; [by apply (Answer _ _ [0%nat] [] 1%nat [] [] (ad_hoc_entry (lit "me") (lit "b") 22) answer_of_b)|apply nsteps_O].
Qed.

Lemma half_reached : rtc (fan_step pair_of_hosts 1) (start 2) half_way.
Proof. apply rtc_nsteps. eexists. apply half_steps. Qed.

Lemma half_result : fanout pair_of_hosts 1 (fanout_result pair_of_hosts half_way true).
Proof. apply Deadline; [apply half_reached|]. by intros [? _]. Qed.

Lemma pair_distinct : NoDup (name <$> pair_of_hosts).
Proof. apply (bool_decide_unpack _). by vm_compute. Qed.

Lemma fan_invariant_witness : waiting half_way ++ running half_way ++ (answered half_way).*1 ≡ₚ [0%nat; 1%nat].
Proof. exact (proj1 (proj2 (fan_invariant pair_of_hosts 1 half_way half_reached))). Defined.

Lemma fan_terminates_witness : exists f', fan_step pair_of_hosts 1 half_way f'.
Proof. refine (proj2 (proj2 (fan_terminates pair_of_hosts 1 2 half_way half_steps)) _). by intros [? _]. Defined.

Lemma fanout_accounts_witness :
  (host <$> results (fanout_result pair_of_hosts half_way true)) ++ incomplete (fanout_result pair_of_hosts half_way true)
  ≡ₚ [lit "me@a:22"; lit "me@b:22"].
Proof. exact (proj1 (fanout_accounts pair_of_hosts 1 _ pair_distinct half_result)). Defined.

Definition twice_named : Inventory :=
  {| options := {| ssh_config_import := false; default_host_key_check := []; remote_shell_wrap := false |};
     concurrency := {| max_parallel := 1; per_host_timeout_secs := 30; wall_clock_timeout_secs := 60 |};
     groups := {[ lit "g" := {| members := [lit "a"; lit "a"]; group_tags := [] |} ]};
     hosts := {[ lit "a" := fresh_entry (lit "me") (lit "a") (lit "a") Strict HostsToml ]}; ssh_config_warnings := [] |}.

Lemma shared_name_lost_witness :
  exists hs f, resolve_pattern twice_named (lit "@g") = Ok hs /\ length hs = 2%nat /\ fanout hs 1 f /\
    wall_timed_out f = true /\ incomplete f = [].
Proof.
  destruct (shared_name_lost twice_named (lit "g") (lit "a") (fresh_entry (lit "me") (lit "a") (lit "a") Strict HostsToml)
              {| host := lit "a"; stdout := []; stderr := []; exit_code := 0; duration_ms := 3; status := Okay; truncated := false; redacted := O |}
              1 eq_refl eq_refl eq_refl) as (f & Hr & Hf & Ht & Hi & _).
  eexists _, f. split; [exact Hr|]. done.
Defined.

Lemma diagnosis_accounts_witness :
  diagnose_code (from_fanout (fun _ => None) (fun _ => []) (lit "@g") None (fanout_result pair_of_hosts half_way true)) = 2.
Proof.
  pose proof (diagnosis_accounts (fun _ => None) (fun _ => []) pair_of_hosts 1 (lit "@g") None _ pair_distinct half_result) as H. cbn zeta in H.
  exact (proj2 (proj1 (proj2 (proj2 (proj2 (proj2 H))))) eq_refl).
Defined.

Lemma symptom_stays_text_witness :
  sh_words Between (lit "aic 'diagnose' 'it'\''s' 'slow;' '--no-analyze' '--json'")
  = Some [lit "aic"; lit "diagnose"; lit "it's"; lit "slow;"; lit "--no-analyze"; lit "--json"].
Proof.
  exact (proj1 (symptom_stays_text [lit "it's"; lit "slow;"]
           {| program := lit "aic"; args := [lit "diagnose"; lit "it's"; lit "slow;"; lit "--no-analyze"; lit "--json"] |} ltac:(by vm_compute))).
Defined.
