(* ===== verification/HostsSpec.v ===== *)
(** * What an inventory takes from its files and from the command line

    [ssh_config_read]: the blocks of a configuration file; [last_block_wins], [tab_match_leaks]:
    where it differs from [ssh]. [inventory_names]: hosts are found under their own names.
    [ad_hoc_roundtrip], [literal_address_split]: hosts of the command line. *)

From S2P Require Import Prelude RustStr Hosts RemoteSpec.
#[local] Open Scope outcome_scope.

(** ** Blocks of a configuration file *)

Inductive Setting := HostName (v : str) | UserName (v : str) | Port (p : Z) | ProxyJump (v : str) | IdentityFile (v : str).

Inductive Block := HostBlock (name : str) (ss : list Setting) | MatchBlock (condition : str) (ss : list Setting).

Definition key_of (s : Setting) : str :=
  match s with
  | HostName _ => lit "HostName" | UserName _ => lit "User" | Port _ => lit "Port" | ProxyJump _ => lit "ProxyJump" | IdentityFile _ => lit "IdentityFile"
  end.
Definition value_of (s : Setting) : str :=
  match s with HostName v | UserName v | ProxyJump v | IdentityFile v => v | Port p => show_unsigned p end.
Definition apply_setting (h : HostEntry) (s : Setting) : HostEntry :=
  match s with
  | HostName v => set_hostname v h | UserName v => set_user v h | Port p => set_port p h | ProxyJump v => set_proxy_jump v h
  | IdentityFile v => set_identity_file v h
  end.

(** Texts without white space, comments or equals signs; and conditions, which may have spaces
    inside. *)
Definition config_word (w : str) : Prop := w <> [] /\ Forall (fun b => is_plain b = true /\ b <> x23 /\ b <> x3d) w.
Definition condition_text (c : str) : Prop := x0a ∉ c /\ x23 ∉ c /\ exists b, last c = Some b /\ is_plain b = true.
Definition setting_ok (s : Setting) : Prop := match s with Port p => 0 <= p <= 65535 | s => config_word (value_of s) end.
Definition block_ok (b : Block) : Prop :=
  match b with
  | HostBlock n ss => config_word n /\ contains_wildcard n = false /\ Forall setting_ok ss
  | MatchBlock c ss => condition_text c /\ Forall setting_ok ss
  end.

Definition setting_line (s : Setting) : str := lit "    " ++ key_of s ++ x20 :: value_of s.
Definition block_lines (b : Block) : list str :=
  match b with
  | HostBlock n ss => (lit "Host" ++ x20 :: n) :: (setting_line <$> ss)
  | MatchBlock c ss => (lit "Match " ++ c) :: (setting_line <$> ss)
  end.
Definition text_of (ls : list str) : str := mjoin ((fun l => l ++ [x0a]) <$> ls).
Definition config_text (bs : list Block) : str := text_of (mjoin (block_lines <$> bs)).

(** ** Lines *)

Lemma word_plain w : config_word w -> Forall (fun b => is_plain b = true) w.
Proof. intros [_ H]. eapply Forall_impl; [exact H|]. by intros b [? _]. Qed.

Lemma word_without c w : config_word w -> c = x23 \/ c = x3d \/ is_plain c = false -> c ∉ w.
Proof. intros [_ H] Hc Hin. rewrite Forall_forall in H. destruct (H c Hin) as (? & ? & ?). destruct Hc as [->|[->|Hc]]; congruence. Qed.

Lemma until_ws_plain w : Forall (fun b => is_plain b = true) w -> until_ws w = w.
Proof.
  induction 1 as [|a w Ha Hw IH]; [done|]. cbn [until_ws]. rewrite is_plain_not_ws1 by done.
  destruct w as [|b [|c w]]; [done| |]; rewrite is_plain_not_ws2 by auto; rewrite ?is_plain_not_ws3 by auto; by rewrite IH.
Qed.

Lemma plain_trim_start w : Forall (fun b => is_plain b = true) w -> trim_start w = w.
Proof. destruct w; [done|]. intros H. apply trim_start_plain. by invc H. Qed.

Lemma word_split w : config_word w -> head (split_whitespace w) = Some w.
Proof.
  intros H. pose proof (word_plain w H) as Hp. destruct H as [Hne _]. unfold split_whitespace. destruct w as [|a w]; [done|].
  cbn [length split_whitespace_fuel]. rewrite plain_trim_start, until_ws_plain by done. by rewrite bool_decide_eq_false_2.
Qed.

Lemma plain_last w b : Forall (fun b => is_plain b = true) w -> last w = Some b -> is_plain b = true.
Proof. rewrite Forall_forall. intros H Hl. by apply H, last_Some_elem_of. Qed.

Lemma word_ends v : config_word v -> exists b, last v = Some b /\ is_plain b = true.
Proof.
  intros Hv. destruct (last v) as [b|] eqn:E; [|by apply last_None in E as ->; destruct Hv]. exists b. split; [done|].
  eapply plain_last; [by apply word_plain|done].
Qed.

Lemma key_value_trim key v : config_word key -> config_word v -> trim (key ++ x20 :: v) = key ++ x20 :: v.
Proof.
  intros Hk Hv. pose proof (word_plain _ Hk) as Pk. destruct Hk as [Nk _]. destruct (word_ends v Hv) as (c & Hl & Hc).
  apply trim_plain_ends; intros b; [|rewrite last_app, last_cons, Hl; by intros [= <-]].
  destruct key as [|a key]; [done|]. intros [= <-]. by invc Pk.
Qed.

Lemma key_value_clean key v : config_word key -> config_word v -> x23 ∉ key ++ x20 :: v.
Proof. intros Hk Hv. pose proof (word_without x23 _ Hk (or_introl eq_refl)). pose proof (word_without x23 _ Hv (or_introl eq_refl)). set_solver. Qed.

Lemma key_value_split key v : config_word key -> config_word v -> split_kv (key ++ x20 :: v) = Some (key, v).
Proof.
  intros Hk Hv. pose proof (word_plain _ Hk) as Pk. pose proof (word_plain _ Hv) as Pv. destruct (Hk) as [Nk _]. destruct (Hv) as [Nv Fv].
  unfold split_kv. rewrite key_value_trim by done.
  assert (until_ws (key ++ x20 :: v) = key) as ->.
  { rewrite <- (first_word_plain key v Pk Nk) at 2. unfold first_word. destruct key as [|a key]; [done|]. cbn [app]. by rewrite trim_start_plain by (by invc Pk). }
  rewrite (proj2 (find_byte_None x3d key) (word_without x3d key Hk (or_intror (or_introl eq_refl)))). cbn zeta.
  rewrite length_app. cbn [length]. replace (length key =? length key + S (length v))%nat with false by (symmetry; apply Nat.eqb_neq; lia).
  rewrite drop_app_length. rewrite Nat.add_succ_r. cbn [trim_seps].
  change (trim_start (x20 :: v)) with (trim_start v). rewrite plain_trim_start by done. destruct v as [|b v]; [done|].
  apply Forall_cons in Fv as [(_ & _ & Hb) _]. by rewrite bool_decide_eq_false_2.
Qed.

Lemma strip_comment_none l : x23 ∉ l -> strip_comment l = l.
Proof. intros H. unfold strip_comment. by rewrite (proj2 (find_byte_None _ _)). Qed.

Lemma line_trim a v b : is_plain a = true -> last v = Some b -> is_plain b = true -> trim (a :: v) = a :: v.
Proof. intros Ha Hl Hb. apply trim_plain_ends; intros c; [by intros [= <-]|]. rewrite last_cons, Hl. by intros [= <-]. Qed.

Lemma port_word p : 0 <= p <= 65535 -> config_word (show_unsigned p).
Proof.
  intros _. split; [apply to_radix_nonempty|]. eapply Forall_impl; [apply show_unsigned_digits|]. intros b Hb.
  repeat split; [|by eapply digit_not..]. unfold is_ascii_digit, byte_in in Hb. unfold is_plain, is_ws1, byte_in. lia.
Qed.

Lemma value_word s : setting_ok s -> config_word (value_of s).
Proof. destruct s; [done..|apply port_word|done|done]. Qed.

Lemma key_word s : config_word (key_of s).
Proof. split; [by destruct s|]. destruct s; apply (bool_decide_unpack _); by vm_compute. Qed.

(** A line of a key and a value, as the scan sees it. *)
Lemma key_value_line who n raw s key v :
  config_word key -> config_word v -> trim (strip_comment raw) = key ++ x20 :: v ->
  let lower := ascii_lower <$> key ++ x20 :: v in
  starts_with (lit "match ") lower || bool_decide (lower = lit "match") = false -> starts_with (lit "include ") lower = false ->
  scan_line who n raw s =
    if bool_decide (ascii_lower <$> key = lit "host") then
      {| scanned := flush s; warnings := warnings s; in_match_block := false;
         current := if contains_wildcard v then None else Some (fresh_entry who v v Strict SshConfig) |}
    else if in_match_block s then s else directive n (ascii_lower <$> key) v s.
Proof.
  intros Hk Hv Hr lower Hm Hi. unfold scan_line. rewrite Hr. cbn zeta. fold lower. rewrite Hm, Hi, key_value_split by done.
  destruct (key ++ x20 :: v) eqn:E; [by destruct key|]. by rewrite (word_split v).
Qed.

Lemma indented_trim key v : config_word key -> config_word v -> trim (strip_comment (lit "    " ++ key ++ x20 :: v)) = key ++ x20 :: v.
Proof.
  intros Hk Hv. rewrite strip_comment_none; [by apply key_value_trim|]. rewrite not_elem_of_app. split; [by_decide|by apply key_value_clean].
Qed.

Lemma setting_scanned who n st s : setting_ok st ->
  scan_line who n (setting_line st) s =
    match current s with
    | Some h => if in_match_block s then s else with_current (apply_setting h st) s
    | None => s
    end.
Proof.
  intros Hs. pose proof (key_word st) as Hk. pose proof (value_word st Hs) as Hv.
  rewrite (key_value_line who n (setting_line st) s (key_of st) (value_of st) Hk Hv).
  - destruct st; cbn [key_of value_of].
    all: match goal with |- context [bool_decide (?a = lit "host")] => change (bool_decide (a = lit "host")) with false end.
    all: cbn iota; destruct (current s) as [h|] eqn:E; destruct (in_match_block s); try done; unfold directive; rewrite E; try done.
    unfold parse_u16. by rewrite parse_show_unsigned by (done || lia).
  - by apply indented_trim.
  - by destruct st.
  - by destruct st.
Qed.

Lemma host_scanned who n name s : config_word name -> contains_wildcard name = false ->
  scan_line who n (lit "Host" ++ x20 :: name) s =
    {| scanned := flush s; warnings := warnings s; in_match_block := false; current := Some (fresh_entry who name name Strict SshConfig) |}.
Proof.
  intros Hn Hw. assert (config_word (lit "Host")) as Hk by (split; [done|]; apply (bool_decide_unpack _); by vm_compute).
  rewrite (key_value_line who n _ s (lit "Host") name Hk Hn); [by rewrite Hw| |done..].
  rewrite strip_comment_none by (by apply key_value_clean). by apply key_value_trim.
Qed.

Lemma condition_trim c : condition_text c -> trim (strip_comment (lit "Match " ++ c)) = lit "Match " ++ c.
Proof.
  intros (_ & Hc & b & Hl & Hb). rewrite strip_comment_none; [|rewrite not_elem_of_app; split; [by_decide|done]].
  apply (line_trim x4d (lit "atch " ++ c) b); [done| |done]. by rewrite last_app, Hl.
Qed.

Lemma match_scanned who n c s : condition_text c ->
  flush (scan_line who n (lit "Match " ++ c) s) = flush s /\ current (scan_line who n (lit "Match " ++ c) s) = None /\
  in_match_block (scan_line who n (lit "Match " ++ c) s) = true.
Proof. intros Hc. unfold scan_line. rewrite condition_trim by done. done. Qed.

(** ** Blocks *)

Definition block_host (who : str) (m : gmap str HostEntry) (b : Block) : gmap str HostEntry :=
  match b with
  | HostBlock n ss => <[n := foldl apply_setting (fresh_entry who n n Strict SshConfig) ss]> m
  | MatchBlock _ _ => m
  end.

Lemma scan_lines_app who n ls ls' s : scan_lines who n (ls ++ ls') s = scan_lines who (n + length ls) ls' (scan_lines who n ls s).
Proof.
  revert n s. induction ls as [|l ls IH]; intros n s; [by rewrite Nat.add_0_r|]. cbn [app scan_lines length]. rewrite IH. by rewrite Nat.add_succ_comm.
Qed.

Lemma settings_scanned who n ss s h : Forall setting_ok ss -> current s = Some h -> in_match_block s = false ->
  scan_lines who n (setting_line <$> ss) s = with_current (foldl apply_setting h ss) s.
Proof.
  intros Hs. revert n s h. induction Hs as [|st ss Hst _ IH]; intros n s h Hc Hm; [destruct s; cbn in *; by subst|].
  rewrite fmap_cons. cbn [scan_lines]. rewrite setting_scanned, Hc, Hm by done. by rewrite (IH _ _ (apply_setting h st)).
Qed.

Lemma settings_skipped who n ss s : Forall setting_ok ss -> current s = None -> scan_lines who n (setting_line <$> ss) s = s.
Proof.
  intros Hs Hc. revert n. induction Hs as [|st ss Hst _ IH]; intros n; [done|]. rewrite fmap_cons. cbn [scan_lines].
  rewrite setting_scanned, Hc by done. apply IH.
Qed.

Lemma setting_name h ss : name (foldl apply_setting h ss) = name h.
Proof. revert h. induction ss as [|st ss IH]; intros h; [done|]. cbn [foldl]. rewrite IH. by destruct st. Qed.

Lemma block_scanned who n b s : block_ok b -> flush (scan_lines who n (block_lines b) s) = block_host who (flush s) b.
Proof.
  destruct b as [name ss|c ss]; cbn [block_ok block_lines block_host scan_lines].
  - intros (Hn & Hw & Hs). rewrite host_scanned by done. rewrite (settings_scanned who _ ss _ (fresh_entry who name name Strict SshConfig)) by done.
    unfold flush at 1. cbn [with_current current scanned]. rewrite setting_name. cbn [Hosts.name fresh_entry].
    rewrite Hw, bool_decide_eq_false_2 by (by destruct Hn). done.
  - intros (Hc & Hs). destruct (match_scanned who n c s Hc) as (Hf & Hn & _). by rewrite settings_skipped.
Qed.

Lemma blocks_scanned who n bs s : Forall block_ok bs ->
  flush (scan_lines who n (mjoin (block_lines <$> bs)) s) = foldl (block_host who) (flush s) bs.
Proof.
  intros H. revert n s. induction H as [|b bs Hb _ IH]; intros n s; [done|]. rewrite fmap_cons. change (mjoin _) with (block_lines b ++ mjoin (block_lines <$> bs)).
  rewrite scan_lines_app, IH. cbn [foldl]. by rewrite block_scanned.
Qed.

Lemma config_clean w pre : config_word w -> x0a ∉ pre -> clean_line (pre ++ w).
Proof.
  intros Hw Hp. destruct (word_ends w Hw) as (b & Hl & Hb). split.
  - rewrite not_elem_of_app. split; [done|]. apply word_without; auto.
  - rewrite last_app, Hl. by intros [= ->].
Qed.

Lemma setting_clean st : setting_ok st -> clean_line (setting_line st).
Proof.
  intros Hs. unfold setting_line. rewrite (cons_middle x20), !app_assoc. apply config_clean; [by apply value_word|].
  destruct st; by_decide.
Qed.

Lemma settings_clean ss : Forall setting_ok ss -> Forall clean_line (setting_line <$> ss).
Proof. intros H. apply Forall_fmap. eapply Forall_impl; [exact H|]. apply setting_clean. Qed.

Lemma condition_clean pre c : condition_text c -> x0a ∉ pre -> clean_line (pre ++ c).
Proof.
  intros (Hn & _ & b & Hl & Hb) Hp. split; [by rewrite not_elem_of_app|]. rewrite last_app, Hl. by intros [= ->].
Qed.

Lemma block_clean b : block_ok b -> Forall clean_line (block_lines b).
Proof.
  destruct b as [n ss|c ss]; cbn [block_ok block_lines].
  - intros (Hn & _ & Hs). constructor; [|by apply settings_clean]. rewrite (cons_middle x20), app_assoc. apply config_clean; [done|by_decide].
  - intros (Hc & Hs). constructor; [|by apply settings_clean]. apply condition_clean; [done|by_decide].
Qed.

Lemma blocks_clean bs : Forall block_ok bs -> Forall clean_line (mjoin (block_lines <$> bs)).
Proof. intros H. apply Forall_join, Forall_fmap. eapply Forall_impl; [exact H|]. apply block_clean. Qed.

Lemma parse_lines who ls : Forall clean_line ls ->
  (parse_ssh_config who (text_of ls)).1 = flush (scan_lines who 1 ls {| scanned := ∅; warnings := []; current := None; in_match_block := false |}).
Proof. intros H. unfold parse_ssh_config, text_of. by rewrite lines_fed. Qed.

Lemma fold_named who bs m n :
  is_Some (foldl (block_host who) m bs !! n) <-> is_Some (m !! n) \/ exists ss, HostBlock n ss ∈ bs.
Proof.
  revert m. induction bs as [|b bs IH]; intros m; [split; [by left|intros [?|[ss ?%elem_of_nil]]; done]|]. cbn [foldl]. rewrite IH.
  setoid_rewrite elem_of_cons. destruct b as [n' ss|c ss]; cbn [block_host].
  - destruct (decide (n' = n)) as [->|Hn]; [rewrite lookup_insert_eq|rewrite lookup_insert_ne by done]; naive_solver.
  - naive_solver.
Qed.

Lemma config_read who bs : Forall block_ok bs -> (parse_ssh_config who (config_text bs)).1 = foldl (block_host who) ∅ bs.
Proof. intros H. unfold config_text. rewrite parse_lines by (by apply blocks_clean). by rewrite blocks_scanned. Qed.

(** the file is read block by block: a [Host] block gives its name the entry that its
    settings make of a fresh one, in place of what an earlier block of that name gave, and
    what is said in a [Match] block reaches no host; so the hosts are those named in [Host]
    blocks, each under its own name. *)
Theorem ssh_config_read who bs (readable : Forall block_ok bs) :
  let hosts := (parse_ssh_config who (config_text bs)).1 in
  hosts = foldl (block_host who) ∅ bs /\
  forall n, is_Some (hosts !! n) <-> exists ss, HostBlock n ss ∈ bs.
Proof.
  cbn zeta. rewrite config_read by done. split; [done|]. intros n. rewrite fold_named, lookup_empty. split; [|by right].
  intros [[? H]|H]; [by simplify_eq|done].
Qed.

Lemma tab_match_split c : trim (lit "Match" ++ x09 :: c) = lit "Match" ++ x09 :: c -> exists v, split_kv (lit "Match" ++ x09 :: c) = Some (lit "Match", v).
Proof.
  intros Ht. unfold split_kv. rewrite Ht. assert (until_ws (lit "Match" ++ x09 :: c) = lit "Match") as -> by by destruct c.
  cbn zeta. eexists. reflexivity.
Qed.

Lemma tab_match_scanned who n c s : condition_text c -> in_match_block s = false -> scan_line who n (lit "Match" ++ x09 :: c) s = s.
Proof.
  intros (Hn & Hc & b & Hl & Hb) Hm. unfold scan_line.
  assert (trim (lit "Match" ++ x09 :: c) = lit "Match" ++ x09 :: c) as Ht.
  { apply (line_trim x4d (lit "atch" ++ x09 :: c) b); [done| |done]. by rewrite last_app, last_cons, Hl. }
  rewrite strip_comment_none, Ht by (rewrite not_elem_of_app, not_elem_of_cons; repeat split; [by_decide|done|done]).
  cbn zeta. change (starts_with _ _ || _) with false. change (starts_with _ _) with false. cbn iota.
  destruct (tab_match_split c Ht) as [v ->]. change (bool_decide (_ = lit "host")) with false. cbn iota. rewrite Hm.
  unfold directive. by destruct (current s).
Qed.

(** whatever else the file says, a host has the settings of its last block and of no
    other, where [ssh] takes the first value that any of its blocks gives. *)
Theorem last_block_wins who bs n ss bs' (readable : Forall block_ok (bs ++ HostBlock n ss :: bs'))
    (last_of_name : Forall (fun b => match b with HostBlock n' _ => n' <> n | MatchBlock _ _ => True end) bs') :
  (parse_ssh_config who (config_text (bs ++ HostBlock n ss :: bs'))).1 !! n = Some (foldl apply_setting (fresh_entry who n n Strict SshConfig) ss).
Proof.
  rewrite config_read by done. rewrite foldl_app. cbn [foldl block_host]. generalize (foldl (block_host who) ∅ bs). clear readable. intros m.
  assert (forall m, foldl (block_host who) m bs' !! n = m !! n) as ->; [|by rewrite lookup_insert_eq].
  induction last_of_name as [|b bs' Hb _ IH]; intros m'; [done|]. cbn [foldl]. rewrite IH. destruct b; cbn [block_host]; [by rewrite lookup_insert_ne|done].
Qed.

(** a [Match] line with a tab after the word is not seen as one: the settings under it go
    to the host above, for which they were not meant, while under a [Match] line with a space
    they go nowhere. *)
Theorem tab_match_leaks who n ss c ss'
    (readable : block_ok (HostBlock n ss)) (conditional : block_ok (MatchBlock c ss')) :
  let block := block_lines (HostBlock n ss) in
  let entry ss := foldl apply_setting (fresh_entry who n n Strict SshConfig) ss in
  (parse_ssh_config who (text_of (block ++ (lit "Match " ++ c) :: (setting_line <$> ss')))).1 !! n = Some (entry ss) /\
  (parse_ssh_config who (text_of (block ++ (lit "Match" ++ x09 :: c) :: (setting_line <$> ss')))).1 !! n = Some (entry (ss ++ ss')).
Proof.
  cbn zeta. pose proof (block_clean _ readable) as Hb. pose proof (block_clean _ conditional) as Hm. destruct conditional as [Hc Hs]. split.
  - change (block_lines (HostBlock n ss) ++ _) with (block_lines (HostBlock n ss) ++ block_lines (MatchBlock c ss')).
    rewrite parse_lines by (by apply Forall_app). rewrite scan_lines_app, block_scanned by done. cbn [block_host].
    rewrite block_scanned by done. cbn [block_host]. by rewrite lookup_insert_eq.
  - rewrite parse_lines.
    + cbn [block_lines app scan_lines]. destruct readable as (Hn & Hw & Hss). rewrite host_scanned by done.
      rewrite scan_lines_app, (settings_scanned who _ ss _ (fresh_entry who n n Strict SshConfig)) by done. cbn [scan_lines].
      rewrite tab_match_scanned by done. rewrite (settings_scanned who _ ss' _ (foldl apply_setting (fresh_entry who n n Strict SshConfig) ss)) by done.
      unfold flush at 1. cbn [with_current current scanned]. rewrite <- foldl_app, setting_name. cbn [Hosts.name fresh_entry].
      rewrite Hw, bool_decide_eq_false_2 by (by destruct Hn). cbn [orb]. by rewrite lookup_insert_eq.
    + apply Forall_app. split; [done|]. constructor; [|by apply settings_clean].
      rewrite (cons_middle x09), app_assoc. apply condition_clean; [done|by_decide].
Qed.

(** ** The inventory *)

Definition keyed (m : gmap str HostEntry) : Prop := map_Forall (fun n h => name h = n) m.

Lemma flush_keyed s : keyed (scanned s) -> keyed (flush s).
Proof. intros H. unfold flush. destruct (current s) as [h|]; [|done]. destruct (_ || _); [done|]. by apply map_Forall_insert_2. Qed.

Lemma directive_scanned n key v s : scanned (directive n key v s) = scanned s.
Proof.
  unfold directive. destruct (current s); [|done]. repeat (case_bool_decide; [try done; by destruct (parse_u16 v)|]). done.
Qed.

Lemma line_keyed who n raw s : keyed (scanned s) -> keyed (scanned (scan_line who n raw s)).
Proof.
  intros H. unfold scan_line. destruct (trim _) as [|b l]; [done|]. cbn zeta. destruct (_ || _); [by apply flush_keyed|].
  destruct (starts_with _ _); [done|]. destruct (split_kv _) as [[key v]|]; [|done]. cbn zeta. case_bool_decide; [by apply flush_keyed|].
  destruct (in_match_block s); [done|]. by rewrite directive_scanned.
Qed.

Lemma config_keyed who text : keyed (parse_ssh_config who text).1.
Proof.
  unfold parse_ssh_config. cbn [fst]. apply flush_keyed. assert (keyed (scanned {| scanned := ∅; warnings := []; current := None; in_match_block := false |})) as H by apply map_Forall_empty.
  revert H. generalize 1%nat as n, {| scanned := ∅; warnings := []; current := None; in_match_block := false |} as s.
  induction (lines text) as [|l ls IH]; intros n s H; [done|]. cbn [scan_lines]. by apply IH, line_keyed.
Qed.

Lemma overlay_keyed who opts m e : keyed m -> keyed (apply_overlay who opts m e).
Proof.
  intros H. unfold apply_overlay. cbn zeta. apply map_Forall_insert_2; [|done]. cbn [name].
  destruct (m !! e_name e) as [h|] eqn:E; [|done]. exact (H _ _ E).
Qed.

Lemma inventory_keyed who doc config : keyed (hosts (load_from who doc config)).
Proof.
  unfold load_from. destruct (match config with Some _ => _ | None => _ end) as [imported warns] eqn:E. cbn [hosts].
  assert (keyed imported) as H.
  { destruct config as [text|]; [|injection E as <- _; apply map_Forall_empty]. destruct (ssh_config_import _).
    - pose proof (config_keyed who text) as H. by rewrite E in H.
    - injection E as <- _. apply map_Forall_empty. }
  clear E. revert imported H. induction (d_hosts doc) as [|e es IH]; intros m H; [done|]. cbn [foldl]. by apply IH, overlay_keyed.
Qed.

Lemma group_hosts_names inv g ns hs : keyed (hosts inv) -> group_hosts inv g ns = Ok hs -> name <$> hs = ns.
Proof.
  intros Hk. revert hs. induction ns as [|n ns IH]; intros hs; cbn [group_hosts]; [by intros [= <-]|].
  destruct (hosts inv !! n) as [h|] eqn:E; [|done]. cbn [ok_or obind]. destruct (group_hosts inv g ns) as [rest|e|]; [|done..]. cbn [obind].
  intros [= <-]. rewrite fmap_cons. f_equal; [exact (Hk _ _ E)|by apply IH].
Qed.

Lemma group_hosts_ok inv g ns : (exists hs, group_hosts inv g ns = Ok hs) <-> Forall (fun n => is_Some (hosts inv !! n)) ns.
Proof.
  induction ns as [|n ns IH]; cbn [group_hosts]; [split; [done|by eexists]|]. rewrite Forall_cons, <- IH.
  destruct (hosts inv !! n) as [h|]; cbn [ok_or obind].
  - destruct (group_hosts inv g ns) as [rest|e|]; cbn [obind]; naive_solver.
  - split; [by intros [? ?]|by intros [[? ?] _]].
Qed.

(** whatever the files say, a pattern names hosts of their own names: [@group] the members
    of the group in their order, and only where each of them is known; any other pattern the
    one host of that name. *)
Theorem inventory_names who doc config g grp
    (known_group : groups (load_from who doc config) !! g = Some grp) :
  let inv := load_from who doc config in
  (forall hs, resolve_pattern inv (x40 :: g) = Ok hs -> name <$> hs = members grp) /\
  ((exists hs, resolve_pattern inv (x40 :: g) = Ok hs) <-> Forall (fun n => is_Some (hosts inv !! n)) (members grp)) /\
  (forall n h, hosts inv !! n = Some h -> name h = n).
Proof.
  cbn zeta. pose proof (inventory_keyed who doc config) as Hk. cbn [resolve_pattern]. rewrite known_group. cbn [ok_or obind].
  split; [intros hs; by apply group_hosts_names|]. split; [apply group_hosts_ok|exact Hk].
Qed.

(** ** Hosts of the command line *)

Lemma split_once_at c a b : c ∉ a -> split_once c (a ++ c :: b) = Some (a, b).
Proof.
  intros H. unfold split_once. rewrite find_byte_app by done. cbn [mbind option_bind]. rewrite take_app_length.
  by rewrite (cons_middle c), app_assoc, drop_app_length' by (rewrite length_app; cbn [length]; lia).
Qed.

Lemma rsplit_once_at c a b : c ∉ b -> rsplit_once c (a ++ c :: b) = Some (a, b).
Proof.
  intros H. unfold rsplit_once. rewrite reverse_app, reverse_cons, <- app_assoc. cbn [app]. rewrite split_once_at by (by rewrite elem_of_reverse).
  cbn [mbind option_bind]. by rewrite !reverse_involutive.
Qed.

Lemma contains_byte c w s : w = [c] -> contains w s = bool_decide (c ∈ s).
Proof.
  intros ->. apply eq_bool_prop_intro. rewrite !Is_true_true, contains_spec, bool_decide_eq_true. split.
  - intros (a & b & ->). set_solver.
  - intros (a & b & ->)%list_elem_of_split. by exists a, b.
Qed.

Lemma starts_with_not c w s : w = [c] -> head s <> Some c -> starts_with w s = false.
Proof. intros ->. destruct s as [|x s]; [done|]. intros H. cbn [starts_with]. rewrite bool_decide_eq_false_2; [done|]. intros ->. by apply H. Qed.

Lemma digits_without n c : is_ascii_digit c = false -> c ∉ show_unsigned n.
Proof. intros H. eapply not_elem_of_Forall; [apply show_unsigned_digits|]. cbn beta. congruence. Qed.

Lemma host_port_at host port : 0 <= port <= 65535 ->
  rsplit_once x3a (host ++ x3a :: show_unsigned port) = Some (host, show_unsigned port) /\ parse_u16 (show_unsigned port) = Some port.
Proof.
  intros Hp. split; [by apply rsplit_once_at, digits_without|]. unfold parse_u16. by apply parse_show_unsigned.
Qed.

(** the name that a host of the command line gets, which is what its results and the
    audit show, names the same host again. *)
Theorem ad_hoc_roundtrip who user host port
    (a_user : user <> [] /\ x40 ∉ user) (a_host : host <> [] /\ x40 ∉ host /\ head host <> Some x5b) (a_port : 0 <= port <= 65535) :
  parse_ad_hoc who (name (ad_hoc_entry user host port)) = Some (ad_hoc_entry user host port).
Proof.
  destruct a_user as [Nu Hu], a_host as (Nh & Hh & Hb), (host_port_at host port a_port) as [Hs Hp]. cbn [name ad_hoc_entry].
  change (user ++ lit "@" ++ host ++ lit ":" ++ show_unsigned port) with (user ++ x40 :: host ++ x3a :: show_unsigned port).
  set (rest := host ++ x3a :: show_unsigned port) in *. assert (x40 ∉ rest) as Hr.
  { unfold rest. rewrite not_elem_of_app, not_elem_of_cons. repeat split; [done|done|]. by apply digits_without. }
  unfold parse_ad_hoc. rewrite (starts_with_not x40 (lit "@") _ eq_refl) by (destruct user as [|a user]; [done|]; intros [= ->]; apply Hu; by left).
  rewrite (contains_byte x40 (lit "@") (user ++ x40 :: rest) eq_refl), bool_decide_eq_true_2 by (apply elem_of_app; right; by left).
  rewrite split_once_at by done. cbn [mbind option_bind].
  rewrite !bool_decide_eq_false_2 by (by destruct host || done). rewrite (contains_byte x40 (lit "@") rest eq_refl), bool_decide_eq_false_2 by done.
  rewrite (starts_with_not x5b (lit "[") _ eq_refl) by (unfold rest; by destruct host).
  cbn [orb]. rewrite Hs. cbn [mbind option_bind]. rewrite Hp. cbn [mbind option_bind]. by rewrite bool_decide_eq_false_2.
Qed.

Lemma no_user_host who s host port :
  x40 ∉ s -> x20 ∉ s -> x2f ∉ s -> trim s = s -> s = host ++ x3a :: show_unsigned port -> host <> [] -> 0 <= port <= 65535 ->
  parse_ad_hoc who s = Some (ad_hoc_entry who host port).
Proof.
  intros Ha Hb Hc Ht Hs Hn Hp. destruct (host_port_at host port Hp) as [Hr Hu]. rewrite <- Hs in Hr. unfold parse_ad_hoc.
  rewrite (starts_with_not x40 (lit "@") _ eq_refl).
  2: { destruct s as [|x s]; [done|]. intros [= ->]. apply Ha. by left. }
  rewrite (contains_byte x40 (lit "@") s eq_refl), bool_decide_eq_false_2 by done. rewrite Ht.
  rewrite bool_decide_eq_false_2 by (rewrite Hs; by destruct host).
  rewrite (contains_byte x20 (lit " ") s eq_refl), (contains_byte x2f (lit "/") s eq_refl), !bool_decide_eq_false_2 by done. cbn [orb].
  rewrite Hr, Hu. by rewrite bool_decide_eq_false_2.
Qed.

(** without a user the text is taken too, the last group of a literal address for the
    port: for [fe80::1] the host is [fe80:] and the port 1. A literal in brackets, refused
    after a user, is a host here. *)
Theorem literal_address_split who address port
    (no_user : x40 ∉ address /\ x20 ∉ address /\ x2f ∉ address) (an_address : address <> [])
    (plain : Forall (fun b => is_plain b = true) address) (a_port : 0 <= port <= 65535) :
  parse_ad_hoc who (address ++ x3a :: show_unsigned port) = Some (ad_hoc_entry who address port) /\
  parse_ad_hoc who (lit "me@[" ++ address ++ x5d :: x3a :: show_unsigned port) = None.
Proof.
  destruct no_user as (Ha & Hb & Hc). split.
  - apply no_user_host; try done; try (rewrite not_elem_of_app, not_elem_of_cons; repeat split; [done|done|by apply digits_without]).
    apply trim_plain, Forall_app. split; [done|]. constructor; [done|]. eapply Forall_impl; [apply show_unsigned_digits|].
    intros b Hd. unfold is_ascii_digit, byte_in in Hd. unfold is_plain, is_ws1, byte_in. lia.
  - set (rest := x5b :: address ++ x5d :: x3a :: show_unsigned port). change (lit "me@[" ++ _) with (lit "me" ++ x40 :: rest). unfold parse_ad_hoc.
    change (starts_with (lit "@") (lit "me" ++ x40 :: rest)) with false. cbn iota.
    rewrite (contains_byte x40 (lit "@") (lit "me" ++ x40 :: rest) eq_refl), bool_decide_eq_true_2 by (apply elem_of_app; right; by left).
    rewrite (split_once_at x40 (lit "me") rest) by by_decide. cbn [mbind option_bind]. change (starts_with (lit "[") rest) with true.
    by rewrite !orb_true_r.
Qed.

(** ** Witnesses *)

Definition two_blocks : list Block :=
  [HostBlock (lit "web") [HostName (lit "10.0.0.1"); Port 2222]; MatchBlock (lit "user bob") [UserName (lit "root")];
   HostBlock (lit "web") [UserName (lit "me")]].

Lemma word_decided w : bool_decide (w <> [] /\ Forall (fun b => is_plain b = true /\ b <> x23 /\ b <> x3d) w) = true -> config_word w.
Proof. apply bool_decide_eq_true_1. Qed.

Lemma two_blocks_ok : Forall block_ok two_blocks.
Proof.
  repeat constructor; try (apply word_decided; by vm_compute); try done; try by_decide; by exists x62.
Qed.

Lemma ssh_config_read_witness : is_Some ((parse_ssh_config (lit "me") (config_text two_blocks)).1 !! lit "web").
Proof.
  apply (proj2 (proj2 (ssh_config_read (lit "me") two_blocks two_blocks_ok) (lit "web"))). eexists. left.
Defined.

Lemma last_block_wins_witness :
  (parse_ssh_config (lit "me") (config_text two_blocks)).1 !! lit "web"
  = Some (set_user (lit "me") (fresh_entry (lit "me") (lit "web") (lit "web") Strict SshConfig)).
Proof.
  exact (last_block_wins (lit "me") (take 2 two_blocks) (lit "web") [UserName (lit "me")] [] two_blocks_ok (Forall_nil_2 _)).
Defined.

Lemma tab_match_leaks_witness :
  (parse_ssh_config (lit "me") (text_of [lit "Host web"; lit "Match" ++ x09 :: lit "user bob"; lit "    User root"])).1 !! lit "web"
  = Some (set_user (lit "root") (fresh_entry (lit "me") (lit "web") (lit "web") Strict SshConfig)).
Proof.
  pose proof two_blocks_ok as H. apply Forall_cons in H as [_ [Hm _]%Forall_cons].
  refine (proj2 (tab_match_leaks (lit "me") (lit "web") [] (lit "user bob") [UserName (lit "root")] _ Hm)).
  split; [apply word_decided; by vm_compute|]. split; [by vm_compute|constructor].
Defined.

(** A file with one group and one host. *)
Definition small_doc : HostsTomlDoc :=
  {| d_options := {| ssh_config_import := true; default_host_key_check := lit "strict"; remote_shell_wrap := false |};
     d_concurrency := {| max_parallel := 16; per_host_timeout_secs := 30; wall_clock_timeout_secs := 60 |};
     d_groups := {[ lit "all" := {| members := [lit "db"; lit "web"]; group_tags := [] |} ]};
     d_hosts := [{| e_name := lit "db"; e_hostname := None; e_user := None; e_port := None; e_identity_file := None; e_forward_agent := None;
                    e_proxy_jump := None; e_host_key_check := None; e_connect_timeout_secs := None; e_tags := [] |}] |}.

Lemma inventory_names_witness :
  exists hs, resolve_pattern (load_from (lit "me") small_doc (Some (config_text two_blocks))) (lit "@all") = Ok hs /\ name <$> hs = [lit "db"; lit "web"].
Proof.
  pose proof (inventory_names (lit "me") small_doc (Some (config_text two_blocks)) (lit "all")
                {| members := [lit "db"; lit "web"]; group_tags := [] |} ltac:(by vm_compute)) as H. cbn zeta in H. destruct H as (Hn & Ho & _).
  destruct (proj2 Ho) as [hs Hhs]; [|exists hs; split; [exact Hhs|exact (Hn hs Hhs)]].
  cbn [members]. repeat constructor; [by vm_compute; eexists..].
Defined.

Lemma ad_hoc_roundtrip_witness :
  parse_ad_hoc (lit "me") (lit "deploy@10.0.0.5:2222") = Some (ad_hoc_entry (lit "deploy") (lit "10.0.0.5") 2222).
Proof.
  refine (ad_hoc_roundtrip (lit "me") (lit "deploy") (lit "10.0.0.5") 2222 _ _ _); repeat split; try done; try lia; by_decide.
Defined.

Lemma literal_address_split_witness : parse_ad_hoc (lit "me") (lit "fe80::1") = Some (ad_hoc_entry (lit "me") (lit "fe80:") 1).
Proof.
  refine (proj1 (literal_address_split (lit "me") (lit "fe80:") 1 _ _ _ _)); repeat split; try done; try lia; try by_decide.
Defined.
