(* ===== verification/BatchAudit.v ===== *)
(** * The audit of runs on many hosts

    [aic-client/src/agent/audit_batch.rs] and what [main.rs] records of a fan-out: one file of
    JSON lines for each day, in which every entry names the hash of the one before it. The
    hash function, the printing of strings, times and entries, and the parser of entries are
    parameters; the clock and the date are arguments.

    [appended_batches_verify], [last_hash_determines]: the chain of a day. [audit_accounts]:
    what a fan-out leaves in it. [midnight_breaks_chain], [parallel_batches_break],
    [cut_segment_verifies]: what it does not withstand. *)

From S2P Require Import Prelude RustStr StrOrder Hosts Remote Fanout.
#[local] Open Scope outcome_scope.

Record BatchStats := {
  ok : nat;
  ok_warn : nat;
  unreachable : nat;
  timeout : nat;
  auth_fail : nat;
  proxy_fail : nat;
  remote_err : nat;
  host_key_mismatch : nat;
  cancelled : nat;
}.

(** An entry without its hashes, which every variant has; times in nanoseconds. *)
Inductive Event :=
| BatchStart (ts : Z) (batch_id kind group : str) (hosts : list str)
| HostResult (ts : Z) (batch_id host status cmd : str) (duration_ms exit_code : Z) (truncated : bool) (redacted : nat)
| TofuAccept (ts : Z) (batch_id host fingerprint : str)
| TofuReject (ts : Z) (batch_id host fingerprint reason : str)
| BatchEnd (ts : Z) (batch_id : str) (stats : BatchStats)
| BatchCancelled (ts : Z) (batch_id : str) (completed : nat) (incomplete : list str)
| SegmentEnd (ts : Z) (date next_segment : str).

Record AuditEntry := { event : Event; prev_hash : str; hash : str }.

(** The JSON values that entries are made of. *)
Inductive Val := Num (n : Z) | Flag (b : bool) | Text (s : str) | Items (l : list Val) | Fields (fs : list (str * Val)).

Class BatchJson := {
  sha256 : str -> str;
  quote : str -> str;
  rfc3339 : Z -> str;
  entry_str : AuditEntry -> str;
  entry_parse : str -> option AuditEntry;
}.

Section Batch.
Context `{BatchJson}.

(** ** Hashes *)

Definition key_le (a b : str * str) : Prop := str_le a.1 b.1.
#[export] Instance key_le_dec : RelDecision key_le := fun a b => decide (str_le a.1 b.1).

Definition member (kv : str * str) : str := quote kv.1 ++ x3a :: kv.2.

(** Objects with their keys in order. *)
Fixpoint canonicalize_json (v : Val) : str :=
  match v with
  | Num n => show_i32 n
  | Flag b => if b then lit "true" else lit "false"
  | Text s => quote s
  | Items l =>
      [x5b] ++ join [x2c] ((fix items (l : list Val) := match l with [] => [] | v :: l => canonicalize_json v :: items l end) l) ++ [x5d]
  | Fields fs =>
      [x7b] ++ join [x2c] (member <$> merge_sort key_le
        ((fix fields (fs : list (str * Val)) := match fs with [] => [] | (k, v) :: fs => (k, canonicalize_json v) :: fields fs end) fs)) ++ [x7d]
  end.

Definition entry_hash (prev_hash : str) (payload : Val) : str := hex_encode (sha256 (prev_hash ++ [x0a] ++ canonicalize_json payload)).

Definition texts (l : list str) : Val := Items (Text <$> l).
Definition count (n : nat) : Val := Num (Z.of_nat n).

Definition stats_fields (s : BatchStats) : list (str * Val) :=
  [(lit "ok", count (ok s)); (lit "ok_warn", count (ok_warn s)); (lit "unreachable", count (unreachable s));
   (lit "timeout", count (timeout s)); (lit "auth_fail", count (auth_fail s)); (lit "proxy_fail", count (proxy_fail s));
   (lit "remote_err", count (remote_err s)); (lit "host_key_mismatch", count (host_key_mismatch s)); (lit "cancelled", count (cancelled s))].

(** What is hashed when an entry is made. *)
Definition payload (e : Event) : list (str * Val) :=
  match e with
  | BatchStart ts id kind group hosts =>
      [(lit "type", Text (lit "batch_start")); (lit "ts", Text (rfc3339 ts)); (lit "batch_id", Text id); (lit "kind", Text kind);
       (lit "group", Text group); (lit "hosts", texts hosts)]
  | HostResult ts id host status cmd duration code truncated redacted =>
      [(lit "type", Text (lit "host_result")); (lit "ts", Text (rfc3339 ts)); (lit "batch_id", Text id); (lit "host", Text host);
       (lit "status", Text status); (lit "cmd", Text cmd); (lit "duration_ms", Num duration); (lit "exit_code", Num code);
       (lit "truncated", Flag truncated); (lit "redacted", count redacted)]
  | TofuAccept ts id host fingerprint =>
      [(lit "type", Text (lit "tofu_accept")); (lit "ts", Text (rfc3339 ts)); (lit "batch_id", Text id); (lit "host", Text host);
       (lit "fingerprint", Text fingerprint)]
  | TofuReject ts id host fingerprint reason =>
      [(lit "type", Text (lit "tofu_reject")); (lit "ts", Text (rfc3339 ts)); (lit "batch_id", Text id); (lit "host", Text host);
       (lit "fingerprint", Text fingerprint); (lit "reason", Text reason)]
  | BatchEnd ts id stats =>
      [(lit "type", Text (lit "batch_end")); (lit "ts", Text (rfc3339 ts)); (lit "batch_id", Text id); (lit "stats", Fields (stats_fields stats))]
  | BatchCancelled ts id completed incomplete =>
      [(lit "type", Text (lit "batch_cancelled")); (lit "ts", Text (rfc3339 ts)); (lit "batch_id", Text id); (lit "completed", count completed);
       (lit "incomplete", texts incomplete)]
  | SegmentEnd ts date next =>
      [(lit "type", Text (lit "segment_end")); (lit "ts", Text (rfc3339 ts)); (lit "date", Text date); (lit "next_segment", Text next)]
  end.

(** The derived serialisation, and the payload taken back from it. *)
Definition entry_value (e : AuditEntry) : list (str * Val) :=
  payload (event e) ++ [(lit "prev_hash", Text (prev_hash e)); (lit "hash", Text (hash e))].
Definition remove_key (k : str) (fs : list (str * Val)) : list (str * Val) := filter (fun f => f.1 <> k) fs.
Definition recompute_hash (e : AuditEntry) (prev : str) : str :=
  entry_hash prev (Fields (remove_key (lit "prev_hash") (remove_key (lit "hash") (entry_value e)))).

(** ** Appending *)

(** The segments of the directory by their date. *)
Abbreviation AuditDir := (gmap str str).

Record BatchAppender := { appender_batch : str; last_hash : str }.

Definition blank (l : str) : bool := bool_decide (trim l = []).

Definition read_last_hash (file : option str) : outcome str unit :=
  match file with
  | None => Ok []
  | Some body =>
      if negb (utf8_valid body) then Err tt
      else match last (filter (fun l => blank l = false) (lines body)) with
           | None => Ok []
           | Some line => let? e := ok_or (entry_parse line) tt in Ok (hash e)
           end
  end.

Definition open_appender (dir : AuditDir) (today batch_id : str) : outcome BatchAppender unit :=
  let? h := read_last_hash (dir !! today) in Ok {| appender_batch := batch_id; last_hash := h |}.

Definition make_entry (prev : str) (e : Event) : AuditEntry :=
  {| event := e; prev_hash := prev; hash := entry_hash prev (Fields (payload e)) |}.

(** The day is looked up for each entry. *)
Definition append_with_chain (today : str) (e : Event) (a : BatchAppender) (dir : AuditDir) : BatchAppender * AuditDir :=
  let entry := make_entry (last_hash a) e in
  ({| appender_batch := appender_batch a; last_hash := hash entry |},
   <[today := default [] (dir !! today) ++ entry_str entry ++ [x0a]]> dir).

Definition append_all (today : str) (es : list Event) (a : BatchAppender) (dir : AuditDir) : BatchAppender * AuditDir :=
  foldl (fun '(a, dir) e => append_with_chain today e a dir) (a, dir) es.

(** ** Verification *)

Record VerifyReport := { entries : nat; valid : bool; broken_at : option nat; report_last : str }.

(** [i] counts lines from one. *)
Fixpoint verify_lines (i n : nat) (prev : str) (ls : list str) : outcome VerifyReport unit :=
  match ls with
  | [] => Ok {| entries := n; valid := true; broken_at := None; report_last := prev |}
  | line :: ls =>
      if blank line then verify_lines (S i) n prev ls
      else
        let? e := ok_or (entry_parse line) tt in
        let broken := Ok {| entries := S n; valid := false; broken_at := Some i; report_last := prev |} in
        if negb (bool_decide (prev_hash e = prev)) then broken
        else if negb (bool_decide (recompute_hash e (prev_hash e) = hash e)) then broken
        else verify_lines (S i) (S n) (hash e) ls
  end.

Definition verify_segment (body : str) : outcome VerifyReport unit :=
  if utf8_valid body then verify_lines 1 0 [] (lines body) else Err tt.

(** [aic audit batch-verify]: the exit code for the segments in order. *)
Fixpoint batch_verify (segments : list str) (any_broken : bool) : Z :=
  match segments with
  | [] => if any_broken then 2 else 0
  | body :: segments =>
      match verify_segment body with
      | Ok r => batch_verify segments (any_broken || negb (valid r))
      | _ => 3
      end
  end.

(** ** What a fan-out records *)

Definition label (s : HostStatus) : str :=
  match s with
  | Okay => lit "ok" | OkWithWarn => lit "ok_warn" | Unreachable => lit "unreachable" | Timeout => lit "timeout" | AuthFail => lit "auth_fail"
  | ProxyFail => lit "proxy_fail" | RemoteErr => lit "remote_err" | HostKeyMismatch => lit "host_key_mismatch"
  end.

Definition stats_of (c : StatusCounts) : BatchStats :=
  {| ok := n_ok c; ok_warn := n_ok_warn c; unreachable := n_unreachable c; timeout := n_timeout c; auth_fail := n_auth_fail c;
     proxy_fail := n_proxy_fail c; remote_err := n_remote_err c; host_key_mismatch := n_host_key_mismatch c; cancelled := n_cancelled c |}.

Definition host_event (ts : Z) (batch_id cmd : str) (r : RemoteResult) : Event :=
  HostResult ts batch_id (host r) (label (status r)) cmd (duration_ms r) (exit_code r) (truncated r) (redacted r).

Definition last_event (ts : Z) (batch_id : str) (f : FanoutResult) : Event :=
  if wall_timed_out f then BatchCancelled ts batch_id (length (results f)) (incomplete f) else BatchEnd ts batch_id (stats_of (fanout_counts f)).

(** The events of a group's run, at the given times. *)
Definition batch_events (ts : nat -> Z) (batch_id target cmd : str) (names : list str) (f : FanoutResult) : list Event :=
  BatchStart (ts 0%nat) batch_id (lit "diagnose") target names
  :: imap (fun i r => host_event (ts (S i)) batch_id cmd r) (results f)
  ++ [last_event (ts (S (length (results f)))) batch_id f].
End Batch.

From S2P Require Import Attach RemoteSpec.

(** ** What the audit relies on *)

Definition u64 (n : Z) : Prop := 0 <= n < 2 ^ 64.
Definition text (s : str) : Prop := utf8_valid s = true.

Definition typed_stats (s : BatchStats) : Prop :=
  Forall (fun n => u64 (Z.of_nat n)) [ok s; ok_warn s; unreachable s; timeout s; auth_fail s; proxy_fail s; remote_err s; host_key_mismatch s; cancelled s].

(** Values of the Rust types. *)
Definition typed (e : Event) : Prop :=
  match e with
  | BatchStart _ id kind group hosts => Forall text (id :: kind :: group :: hosts)
  | HostResult _ id host status cmd duration code _ redacted =>
      Forall text [id; host; status; cmd] /\ u64 duration /\ - 2 ^ 31 <= code < 2 ^ 31 /\ u64 (Z.of_nat redacted)
  | TofuAccept _ id host fingerprint => Forall text [id; host; fingerprint]
  | TofuReject _ id host fingerprint reason => Forall text [id; host; fingerprint; reason]
  | BatchEnd _ id stats => text id /\ typed_stats stats
  | BatchCancelled _ id completed incomplete => Forall text (id :: incomplete) /\ u64 (Z.of_nat completed)
  | SegmentEnd _ date next => Forall text [date; next]
  end.
Definition typed_entry (e : AuditEntry) : Prop := typed (event e) /\ text (prev_hash e) /\ text (hash e).

(** Derived serialisation inverts and prints an object on one line; a digest has 32 bytes;
    the printing of times is injective, and a string literal shows where it ends. *)
Class BatchJsonLaws `{BatchJson} := {
  entry_roundtrip : forall e, typed_entry e -> entry_parse (entry_str e) = Some e;
  entry_typed : forall s e, entry_parse s = Some e -> typed_entry e;
  entry_one_line : forall e, x0a ∉ entry_str e;
  entry_utf8 : forall e, typed_entry e -> text (entry_str e);
  entry_not_blank : forall e, trim (entry_str e) <> [];
  entry_end : forall e, last (entry_str e) = Some x7d;
  sha256_length : forall s, length (sha256 s) = 32%nat;
  rfc3339_text : forall t, text (rfc3339 t);
  rfc3339_inj : forall t t', rfc3339 t = rfc3339 t' -> t = t';
  quote_head : forall s, head (quote s) = Some x22;
  quote_end : forall s s' r r', text s -> text s' -> quote s ++ r = quote s' ++ r' -> s = s' /\ r = r';
}.

Section BatchTheorems.
Context `{BatchJsonLaws}.

(** ** Chains *)

Fixpoint chain (prev : str) (es : list Event) : list AuditEntry :=
  match es with [] => [] | e :: es => make_entry prev e :: chain (hash (make_entry prev e)) es end.
Definition end_of (prev : str) (es : list Event) : str := default prev (hash <$> last (chain prev es)).
Definition segment_of (es : list AuditEntry) : str := mjoin ((fun e => entry_str e ++ [x0a]) <$> es).

Lemma chain_app prev es es' : chain prev (es ++ es') = chain prev es ++ chain (end_of prev es) es'.
Proof.
  revert prev. induction es as [|e es IH]; intros prev; [done|]. cbn [app chain]. rewrite IH. unfold end_of. cbn [chain]. rewrite last_cons.
  by destruct (last (chain (hash (make_entry prev e)) es)).
Qed.

Lemma segment_app es es' : segment_of (es ++ es') = segment_of es ++ segment_of es'.
Proof. unfold segment_of. by rewrite fmap_app, join_app. Qed.

Lemma length_chain prev es : length (chain prev es) = length es.
Proof. revert prev. induction es as [|e es IH]; intros prev; [done|]. cbn [chain length]. by rewrite IH. Qed.

Lemma hex_text s : text (hex_encode s).
Proof.
  apply utf8_valid_ascii. eapply Forall_impl; [apply hex_encode_lower|]. intros b Hb. unfold is_lower_hex, byte_in in Hb. lia.
Qed.

Lemma hash_text p v : text (entry_hash p v).
Proof. apply hex_text. Qed.

Lemma hash_not_empty p v : entry_hash p v <> [].
Proof.
  intros E. apply (f_equal length) in E. unfold entry_hash in E. rewrite length_hex_encode, sha256_length in E. by vm_compute in E.
Qed.

Lemma chain_typed prev es : text prev -> Forall typed es -> Forall typed_entry (chain prev es).
Proof.
  intros Hp He. revert prev Hp. induction He as [|e es He _ IH]; intros prev Hp; [constructor|]. cbn [chain].
  constructor; [|apply IH, hash_text]. split; [done|]. split; [done|apply hash_text].
Qed.

Lemma entry_line_clean e : clean_line (entry_str e).
Proof. split; [apply entry_one_line|]. by rewrite entry_end. Qed.

Lemma segment_lines es : lines (segment_of es) = entry_str <$> es.
Proof.
  assert (segment_of es = mjoin ((fun l => l ++ [x0a]) <$> (entry_str <$> es))) as -> by (unfold segment_of; by rewrite <- list_fmap_compose).
  apply lines_fed. apply Forall_fmap, Forall_true.
  intros e. apply entry_line_clean.
Qed.

Lemma segment_text es : Forall typed_entry es -> text (segment_of es).
Proof.
  induction 1 as [|e es He _ IH]; [done|]. change (segment_of (e :: es)) with ((entry_str e ++ [x0a]) ++ segment_of es).
  apply utf8_valid_app; [|done]. apply utf8_valid_app; [by apply entry_utf8|done].
Qed.

Lemma entry_not_blank_line e : blank (entry_str e) = false.
Proof. apply bool_decide_eq_false_2, entry_not_blank. Qed.

(** The verifier takes from an entry what was hashed. *)
Lemma recomputed p e : recompute_hash (make_entry p e) p = hash (make_entry p e).
Proof. unfold recompute_hash. by destruct e. Qed.

Lemma end_of_cons prev e es : end_of prev (e :: es) = end_of (hash (make_entry prev e)) es.
Proof. unfold end_of. cbn [chain]. rewrite last_cons. by destruct (last (chain (hash (make_entry prev e)) es)). Qed.

Lemma verify_app i n prev es ls : text prev -> Forall typed es ->
  verify_lines i n prev ((entry_str <$> chain prev es) ++ ls) = verify_lines (i + length es) (n + length es) (end_of prev es) ls.
Proof.
  intros Hp He. revert i n prev Hp. induction He as [|e es He Hes IH]; intros i n prev Hp; [by rewrite !Nat.add_0_r|].
  cbn [chain]. rewrite fmap_cons. cbn [app verify_lines]. rewrite entry_not_blank_line.
  rewrite entry_roundtrip by (split; [done|]; split; [done|apply hash_text]). cbn [ok_or obind]. cbn [prev_hash make_entry].
  rewrite bool_decide_eq_true_2 by done. cbn [negb]. fold (make_entry prev e). rewrite recomputed. rewrite bool_decide_eq_true_2 by done. cbn [negb].
  rewrite IH by apply hash_text. rewrite end_of_cons. cbn [length]. by rewrite !Nat.add_succ_comm.
Qed.

Lemma verify_chain i n prev es : text prev -> Forall typed es ->
  verify_lines i n prev (entry_str <$> chain prev es)
  = Ok {| entries := n + length es; valid := true; broken_at := None; report_last := end_of prev es |}.
Proof. intros Hp He. rewrite <- (app_nil_r (entry_str <$> _)). by rewrite verify_app. Qed.

Lemma segment_verifies es : Forall typed es ->
  verify_segment (segment_of (chain [] es)) = Ok {| entries := length es; valid := true; broken_at := None; report_last := end_of [] es |}.
Proof.
  intros He. unfold verify_segment. rewrite segment_text by (by apply chain_typed). by rewrite segment_lines, verify_chain.
Qed.

Lemma last_hash_read es : Forall typed es -> read_last_hash (Some (segment_of (chain [] es))) = Ok (end_of [] es).
Proof.
  intros He. pose proof (chain_typed [] es eq_refl He) as Ht. unfold read_last_hash. rewrite segment_text by done. cbn [negb]. rewrite segment_lines.
  assert (forall xs : list AuditEntry, filter (fun l => blank l = false) (entry_str <$> xs) = entry_str <$> xs) as ->.
  { intros xs. induction xs as [|x xs IH]; [done|]. rewrite fmap_cons, filter_cons_True by apply entry_not_blank_line. by rewrite IH. }
  rewrite fmap_last. unfold end_of. destruct (last (chain [] es)) as [x|] eqn:E; [|done]. cbn [fmap option_fmap option_map default].
  rewrite entry_roundtrip; [done|]. apply (proj1 (Forall_forall _ _) Ht). by apply last_Some_elem_of.
Qed.

(** ** A day of batches *)

(** A batch opens the segment of the day and appends its events. *)
Definition run_batch (today : str) (id : str) (es : list Event) (dir : gmap str str) : outcome (gmap str str) unit :=
  let? a := open_appender dir today id in Ok (append_all today es a dir).2.

Fixpoint run_batches (today : str) (bs : list (str * list Event)) (dir : gmap str str) : outcome (gmap str str) unit :=
  match bs with
  | [] => Ok dir
  | (id, es) :: bs => let? dir := run_batch today id es dir in run_batches today bs dir
  end.

(** The directory holds the chain of [es] for the day. *)
Definition holds (today : str) (es : list Event) (dir : gmap str str) : Prop := default [] (dir !! today) = segment_of (chain [] es).

Lemma appended_one today e es a dir : holds today es dir -> last_hash a = end_of [] es ->
  let '(a', dir') := append_with_chain today e a dir in
  holds today (es ++ [e]) dir' /\ last_hash a' = end_of [] (es ++ [e]) /\ forall day, day <> today -> dir' !! day = dir !! day.
Proof.
  intros Hd Ha. cbn [append_with_chain]. unfold holds in *. rewrite lookup_insert_eq. cbn [default from_option last_hash]. rewrite Ha. split; [|split].
  - rewrite Hd, chain_app, segment_app. f_equal. unfold segment_of. cbn [chain]. rewrite fmap_cons. cbn. by rewrite app_nil_r.
  - unfold end_of at 2. rewrite chain_app. cbn [chain]. by rewrite last_app.
  - intros day Hn. by rewrite lookup_insert_ne.
Qed.

Lemma append_all_spec today es' es a dir : holds today es dir -> last_hash a = end_of [] es ->
  let '(a', dir') := append_all today es' a dir in
  holds today (es ++ es') dir' /\ last_hash a' = end_of [] (es ++ es') /\ forall day, day <> today -> dir' !! day = dir !! day.
Proof.
  revert es a dir. induction es' as [|e es' IH]; intros es a dir Hd Ha; [by rewrite app_nil_r|].
  unfold append_all. cbn [foldl]. pose proof (appended_one today e es a dir Hd Ha) as Hs. destruct (append_with_chain today e a dir) as [a1 dir1].
  destruct Hs as (Hd1 & Ha1 & Ho1). specialize (IH (es ++ [e]) a1 dir1 Hd1 Ha1). unfold append_all in IH.
  destruct (foldl _ (a1, dir1) es') as [a' dir']. rewrite <- app_assoc in IH. destruct IH as (Hd' & Ha' & Ho'). split; [done|]. split; [done|].
  intros day Hn. by rewrite Ho', Ho1.
Qed.

Lemma open_held today id es dir : Forall typed es -> holds today es dir -> open_appender dir today id = Ok {| appender_batch := id; last_hash := end_of [] es |}.
Proof.
  intros He Hd. unfold open_appender, holds in *. destruct (dir !! today) as [body|]; cbn [default from_option] in Hd.
  - change (body = segment_of (chain [] es)) in Hd. by rewrite Hd, last_hash_read.
  - destruct es as [|e es]; [done|]. exfalso. cbn [chain] in Hd. symmetry in Hd. unfold segment_of in Hd. rewrite fmap_cons in Hd. cbn [mjoin list_join] in Hd.
    apply (f_equal length) in Hd. rewrite !length_app in Hd. cbn [length] in Hd. lia.
Qed.

Lemma batch_spec today id es' es dir : Forall typed es -> holds today es dir ->
  exists dir', run_batch today id es' dir = Ok dir' /\ holds today (es ++ es') dir' /\ forall day, day <> today -> dir' !! day = dir !! day.
Proof.
  intros He Hd. unfold run_batch. rewrite (open_held today id es) by done. cbn [obind].
  pose proof (append_all_spec today es' es {| appender_batch := id; last_hash := end_of [] es |} dir Hd eq_refl) as Hs.
  destruct (append_all _ _ _ _) as [a' dir']. destruct Hs as (Hd' & _ & Ho). by exists dir'.
Qed.

Lemma batches_spec today bs es dir : Forall typed es -> Forall (fun b => Forall typed b.2) bs -> holds today es dir ->
  exists dir', run_batches today bs dir = Ok dir' /\ holds today (es ++ mjoin bs.*2) dir' /\ forall day, day <> today -> dir' !! day = dir !! day.
Proof.
  intros He Hb. revert es dir He. induction Hb as [|[id es'] bs Hes _ IH]; intros es dir He Hd; [exists dir; by rewrite app_nil_r|].
  destruct (batch_spec today id es' es dir He Hd) as (dir1 & Hr & Hd1 & Ho1). cbn [run_batches]. rewrite Hr. cbn [obind].
  destruct (IH (es ++ es') dir1) as (dir' & Hr' & Hd' & Ho'); [by apply Forall_app|done|]. exists dir'. split; [done|]. rewrite fmap_cons.
  change (mjoin ((id, es').2 :: bs.*2)) with (es' ++ mjoin bs.*2). rewrite app_assoc. split; [done|]. intros day Hn. by rewrite Ho', Ho1.
Qed.

Lemma parsed_events prev es : Forall typed es -> Forall typed_entry (chain prev es) ->
  omap (fun l => event <$> entry_parse l) (entry_str <$> chain prev es) = es.
Proof.
  intros He. revert prev. induction He as [|e es He _ IH]; intros prev Ht; [done|]. cbn [chain] in *. apply Forall_cons in Ht as [Hx Ht].
  rewrite fmap_cons. cbn [omap list_omap]. rewrite entry_roundtrip by done. cbn [fmap option_fmap option_map event make_entry]. by rewrite IH.
Qed.

(** C40: batches that follow each other within a day, from the first one on, leave one segment
    that verifies with an entry for each event, in order, and touch no other day. *)
Theorem appended_batches_verify today bs dir
    (new_day : dir !! today = None) (typed_events : Forall (fun b => Forall typed b.2) bs) :
  exists dir', run_batches today bs dir = Ok dir' /\
    (exists r, verify_segment (default [] (dir' !! today)) = Ok r /\ valid r = true /\ entries r = length (mjoin bs.*2)) /\
    omap (fun l => event <$> entry_parse l) (lines (default [] (dir' !! today))) = mjoin bs.*2 /\
    forall day, day <> today -> dir' !! day = dir !! day.
Proof.
  destruct (batches_spec today bs [] dir) as (dir' & Hr & Hd & Ho); [constructor|done|by unfold holds; rewrite new_day|].
  exists dir'. split; [done|]. cbn [app] in Hd. unfold holds in Hd. rewrite Hd.
  assert (Forall typed (mjoin bs.*2)) as He by (apply Forall_join; by apply Forall_fmap). split; [|split; [|done]].
  - eexists. split; [by apply segment_verifies|done].
  - rewrite segment_lines. apply parsed_events; [done|by apply chain_typed].
Qed.

(** cutting a segment after any of its entries leaves one that verifies, since nothing
    outside it holds the last hash and no entry that ends a segment is ever written. *)
Theorem cut_segment_verifies es es' (typed_events : Forall typed (es ++ es')) :
  segment_of (chain [] es) `prefix_of` segment_of (chain [] (es ++ es')) /\
  exists r, verify_segment (segment_of (chain [] es)) = Ok r /\ valid r = true /\ entries r = length es.
Proof.
  apply Forall_app in typed_events as [He _]. split; [rewrite chain_app, segment_app; by eexists|].
  eexists. split; [by apply segment_verifies|done].
Qed.

(** A segment whose first entry names another before it. *)
Lemma dangling_segment e rest : typed_entry e -> prev_hash e <> [] -> text rest ->
  verify_segment (entry_str e ++ x0a :: rest) = Ok {| entries := 1; valid := false; broken_at := Some 1%nat; report_last := [] |}.
Proof.
  intros He Hp Hr. unfold verify_segment. replace (utf8_valid _) with true.
  2: { symmetry. apply utf8_valid_app; [by apply entry_utf8|]. by apply (utf8_valid_app [x0a]). }
  rewrite lines_line by apply entry_one_line. rewrite strip_cr_clean by apply entry_line_clean.
  cbn [verify_lines]. rewrite entry_not_blank_line, entry_roundtrip by done. cbn [ok_or obind]. by rewrite bool_decide_eq_false_2.
Qed.

(** an appender that is open when the day changes breaks the segment of the new day for
    good: its next entry is the first of a file and names a hash of the day before, and
    whatever is appended later, verification fails at the first line. *)
Theorem midnight_breaks_chain yesterday today e e' later a dir
    (days : yesterday <> today) (new_day : dir !! today = None) (typed_event : typed e') (typed_later : text later) :
  let '(a1, dir1) := append_with_chain yesterday e a dir in
  let '(_, dir2) := append_with_chain today e' a1 dir1 in
  verify_segment (default [] (dir2 !! today) ++ later) = Ok {| entries := 1; valid := false; broken_at := Some 1%nat; report_last := [] |} /\
  batch_verify [default [] (dir2 !! today) ++ later] false = 2.
Proof.
  cbn [append_with_chain]. rewrite lookup_insert_eq. cbn [default from_option last_hash]. rewrite lookup_insert_ne, new_day by done.
  cbn [default from_option app id]. rewrite <- app_assoc. cbn [app].
  assert (verify_segment (entry_str (make_entry (hash (make_entry (last_hash a) e)) e') ++ x0a :: later)
          = Ok {| entries := 1; valid := false; broken_at := Some 1%nat; report_last := [] |}) as Hv.
  { apply dangling_segment; [split; [done|]; split; apply hash_text|apply hash_not_empty|done]. }
  rewrite Hv. split; [done|]. cbn [batch_verify]. by rewrite Hv.
Qed.

Lemma end_text es : text (end_of [] es).
Proof.
  unfold end_of. destruct es as [|e es] using rev_ind; [done|]. rewrite chain_app. cbn [chain]. rewrite last_app. cbn [last fmap option_fmap option_map default from_option].
  apply hash_text.
Qed.

(** two batches of the same day that are open at once break the segment: the second to
    write names the hash that was last when it was opened, and verification fails at its
    entry. *)
Theorem parallel_batches_break today es e1 e2 id1 id2 dir
    (so_far : holds today es dir) (typed_events : Forall typed (es ++ [e1; e2]))
    (no_cycle : hash (make_entry (end_of [] es) e1) <> end_of [] es) :
  exists a1 a2, open_appender dir today id1 = Ok a1 /\ open_appender dir today id2 = Ok a2 /\
    let '(_, dir1) := append_with_chain today e1 a1 dir in
    let '(_, dir2) := append_with_chain today e2 a2 dir1 in
    exists r, verify_segment (default [] (dir2 !! today)) = Ok r /\ valid r = false /\ broken_at r = Some (length es + 2)%nat.
Proof.
  apply Forall_app in typed_events as (He & (H1 & (H2 & _)%Forall_cons)%Forall_cons).
  exists {| appender_batch := id1; last_hash := end_of [] es |}, {| appender_batch := id2; last_hash := end_of [] es |}.
  split; [by apply open_held|]. split; [by apply open_held|].
  pose proof (appended_one today e1 es {| appender_batch := id1; last_hash := end_of [] es |} dir so_far eq_refl) as Hs.
  destruct (append_with_chain today e1 _ dir) as [a1 dir1]. destruct Hs as (Hd & _ & _). cbn [append_with_chain last_hash]. rewrite lookup_insert_eq.
  unfold holds in Hd. cbn [default from_option id]. rewrite Hd. set (x := make_entry (end_of [] es) e2).
  assert (segment_of (chain [] (es ++ [e1])) ++ entry_str x ++ [x0a] = segment_of (chain [] (es ++ [e1]) ++ [x])) as ->.
  { rewrite segment_app. f_equal. unfold segment_of. cbn. by rewrite app_nil_r. }
  assert (typed_entry x) as Hx by (split; [done|]; split; [apply end_text|apply hash_text]).
  eexists. split.
  - unfold verify_segment. rewrite segment_text by (apply Forall_app; split; [apply chain_typed; [done|apply Forall_app; by split; [|constructor]]|by constructor]).
    rewrite segment_lines, fmap_app. rewrite verify_app by (done || (apply Forall_app; by split; [|constructor])).
    rewrite fmap_cons. cbn [fmap list_fmap verify_lines]. rewrite entry_not_blank_line, entry_roundtrip by done. cbn [ok_or obind prev_hash x make_entry].
    rewrite bool_decide_eq_false_2; [cbn [negb]; reflexivity|]. unfold end_of at 2. rewrite chain_app. cbn [chain]. rewrite last_app. cbn. by apply not_eq_sym.
  - split; [done|]. cbn [broken_at]. f_equal. rewrite length_app. cbn [length]. lia.
Qed.

(** ** What a fan-out leaves *)

Definition reported (e : Event) : option str := match e with HostResult _ _ h _ _ _ _ _ _ => Some h | _ => None end.
Definition unfinished (e : Event) : list str := match e with BatchCancelled _ _ _ hs => hs | _ => [] end.
Definition stats_total (s : BatchStats) : nat :=
  ok s + ok_warn s + unreachable s + timeout s + auth_fail s + proxy_fail s + remote_err s + host_key_mismatch s + cancelled s.

Lemma reported_results ts id cmd rs : omap reported (imap (fun i r => host_event (ts i) id cmd r) rs) = host <$> rs.
Proof. revert ts. induction rs as [|r rs IH]; intros ts; [done|]. cbn [imap omap list_omap]. cbn. f_equal. apply (IH (fun i => ts (S i))). Qed.

Lemma unfinished_results ts id cmd rs : mjoin (unfinished <$> imap (fun i r => host_event (ts i) id cmd r) rs) = [].
Proof. revert ts. induction rs as [|r rs IH]; intros ts; [done|]. cbn [imap]. rewrite fmap_cons. cbn. apply (IH (fun i => ts (S i))). Qed.

(** C34: the audit of a run over a group of hosts with distinct names accounts for it
    ([shared_name_lost] is what happens where a name is given twice): it begins with the names of the group, has a
    result for each host that answered, ends with the hosts that did not, and these are the
    group again; without a deadline it ends with counts that add up to the group. *)
Theorem audit_accounts group max_parallel f ts batch_id target cmd
    (distinct : NoDup (name <$> group)) (run : fanout group max_parallel f) :
  let es := batch_events ts batch_id target cmd (name <$> group) f in
  head es = Some (BatchStart (ts 0%nat) batch_id (lit "diagnose") target (name <$> group)) /\
  omap reported es ++ mjoin (unfinished <$> es) ≡ₚ name <$> group /\
  (wall_timed_out f = false -> exists t s, last es = Some (BatchEnd t batch_id s) /\ stats_total s = length group).
Proof.
  cbn zeta. unfold batch_events. split; [done|]. split.
  - cbn [omap list_omap reported]. rewrite omap_app, fmap_cons, fmap_app. cbn [mjoin list_join unfinished app]. rewrite join_app.
    rewrite (reported_results (fun i => ts (S i))), (unfinished_results (fun i => ts (S i))). cbn [app].
    rewrite <- (fanout_perm _ _ _ distinct run). unfold last_event. destruct (wall_timed_out f) eqn:Ew; cbn; rewrite ?app_nil_r; [done|].
    destruct (incomplete f) as [|n ns] eqn:Ei; [by rewrite app_nil_r|]. exfalso.
    assert (wall_timed_out f = true) as Hw by (by eapply deadline_incomplete; [..|rewrite Ei]). by rewrite Hw in Ew.
  - intros Hw. exists (ts (S (length (results f)))), (stats_of (fanout_counts f)). split.
    + rewrite last_cons, last_app. cbn [last]. unfold last_event. by rewrite Hw.
    + change (stats_total (stats_of (fanout_counts f))) with (counts_total (fanout_counts f)).
      rewrite counts_total_spec, <- (length_fmap host), <- length_app, (fanout_perm _ _ _ distinct run). apply length_fmap.
Qed.

(** ** The text that is hashed *)

(** The members of an event's object in the order of their keys. *)
Inductive Wire := WNum (n : Z) | WFlag (b : bool) | WText (s : str) | WTexts (l : list str) | WCounts (l : list (str * Z)).

Definition counts_str (l : list (str * Z)) : str := [x7b] ++ join [x2c] ((fun f => quote f.1 ++ x3a :: show_i32 f.2) <$> l) ++ [x7d].
Definition wire_str (w : Wire) : str :=
  match w with
  | WNum n => show_i32 n
  | WFlag b => if b then lit "true" else lit "false"
  | WText s => quote s
  | WTexts l => [x5b] ++ join [x2c] (quote <$> l) ++ [x5d]
  | WCounts l => counts_str l
  end.

Definition sorted_stats (s : BatchStats) : list (str * Z) :=
  (fun f => (f.1, Z.of_nat f.2)) <$>
  [(lit "auth_fail", auth_fail s); (lit "cancelled", cancelled s); (lit "host_key_mismatch", host_key_mismatch s); (lit "ok", ok s); (lit "ok_warn", ok_warn s);
   (lit "proxy_fail", proxy_fail s); (lit "remote_err", remote_err s); (lit "timeout", timeout s); (lit "unreachable", unreachable s)].

Definition sorted_payload (e : Event) : list (str * Wire) :=
  match e with
  | BatchStart ts id kind group hosts =>
      [(lit "batch_id", WText id); (lit "group", WText group); (lit "hosts", WTexts hosts); (lit "kind", WText kind); (lit "ts", WText (rfc3339 ts));
       (lit "type", WText (lit "batch_start"))]
  | HostResult ts id host status cmd duration code truncated redacted =>
      [(lit "batch_id", WText id); (lit "cmd", WText cmd); (lit "duration_ms", WNum duration); (lit "exit_code", WNum code); (lit "host", WText host);
       (lit "redacted", WNum (Z.of_nat redacted)); (lit "status", WText status); (lit "truncated", WFlag truncated); (lit "ts", WText (rfc3339 ts));
       (lit "type", WText (lit "host_result"))]
  | TofuAccept ts id host fingerprint =>
      [(lit "batch_id", WText id); (lit "fingerprint", WText fingerprint); (lit "host", WText host); (lit "ts", WText (rfc3339 ts));
       (lit "type", WText (lit "tofu_accept"))]
  | TofuReject ts id host fingerprint reason =>
      [(lit "batch_id", WText id); (lit "fingerprint", WText fingerprint); (lit "host", WText host); (lit "reason", WText reason);
       (lit "ts", WText (rfc3339 ts)); (lit "type", WText (lit "tofu_reject"))]
  | BatchEnd ts id stats =>
      [(lit "batch_id", WText id); (lit "stats", WCounts (sorted_stats stats)); (lit "ts", WText (rfc3339 ts)); (lit "type", WText (lit "batch_end"))]
  | BatchCancelled ts id completed incomplete =>
      [(lit "batch_id", WText id); (lit "completed", WNum (Z.of_nat completed)); (lit "incomplete", WTexts incomplete); (lit "ts", WText (rfc3339 ts));
       (lit "type", WText (lit "batch_cancelled"))]
  | SegmentEnd ts date next =>
      [(lit "date", WText date); (lit "next_segment", WText next); (lit "ts", WText (rfc3339 ts)); (lit "type", WText (lit "segment_end"))]
  end.

Definition members_str (l : list (str * Wire)) : str := join [x2c] ((fun f => quote f.1 ++ x3a :: wire_str f.2) <$> l).

Lemma texts_str l : canonicalize_json (texts l) = wire_str (WTexts l).
Proof.
  unfold texts. cbn [canonicalize_json wire_str]. do 3 f_equal. induction l as [|t l IH]; [done|]. rewrite !fmap_cons. cbn [canonicalize_json]. by f_equal.
Qed.

Lemma payload_str e : canonicalize_json (Fields (payload e)) = [x7b] ++ members_str (sorted_payload e) ++ [x7d].
Proof.
  destruct e; cbn [payload canonicalize_json]; rewrite ?texts_str; unfold members_str; reflexivity.
Qed.

(** ** The text determines the event *)

(** What may follow a value. *)
Definition stop (r : str) : Prop := match r with b :: _ => b = x2c \/ b = x5d \/ b = x7d | [] => True end.

(** A printer whose texts show where they end. *)
Definition readable {A} (good : A -> Prop) (f : A -> str) : Prop :=
  forall a a' r r', good a -> good a' -> stop r -> stop r' -> f a ++ r = f a' ++ r' -> a = a' /\ r = r'.

Definition num_char (b : byte) : Prop := b = x2d \/ is_ascii_digit b = true.
Definition num_ok (n : Z) : Prop := - 2 ^ 31 <= n < 2 ^ 64.

Lemma span_inj (P : byte -> Prop) a b r r' : Forall P a -> Forall P b ->
  (forall x, head r = Some x -> ~ P x) -> (forall x, head r' = Some x -> ~ P x) -> a ++ r = b ++ r' -> a = b /\ r = r'.
Proof.
  intros Ha. revert b. induction Ha as [|x a Hx Ha IH]; intros b Hb Hr Hr' E.
  - destruct b as [|y b]; [done|]. cbn in E. subst r. apply Forall_cons in Hb as [Hy _]. by destruct (Hr y eq_refl).
  - destruct Hb as [|y b Hy Hb]; cbn [app] in E.
    + subst r'. by destruct (Hr' x eq_refl).
    + injection E as -> E. destruct (IH b Hb Hr Hr' E) as [-> ->]. done.
Qed.

Lemma stop_no_num r x : stop r -> head r = Some x -> ~ num_char x.
Proof. destruct r as [|b r]; [done|]. cbn. intros Hs [= ->] [->|Hd]; [by destruct Hs as [?|[?|?]]|]. destruct Hs as [->|[->| ->]]; by vm_compute in Hd. Qed.

Lemma show_unsigned_inj n m : 0 <= n < 2 ^ 64 -> 0 <= m < 2 ^ 64 -> show_unsigned n = show_unsigned m -> n = m.
Proof.
  intros Hn Hm E. assert (parse_unsigned 10 u64_max (show_unsigned n) = Some n) as Pn by (apply parse_show_unsigned; unfold u64_max; lia).
  assert (parse_unsigned 10 u64_max (show_unsigned m) = Some m) as Pm by (apply parse_show_unsigned; unfold u64_max; lia). congruence.
Qed.

Lemma show_unsigned_no_minus n s : show_unsigned n <> x2d :: s.
Proof. intros E. pose proof (show_unsigned_digits n) as Hd. rewrite E in Hd. by invc Hd. Qed.

Lemma show_i32_inj n m : num_ok n -> num_ok m -> show_i32 n = show_i32 m -> n = m.
Proof.
  unfold num_ok, show_i32. intros Hn Hm. destruct (n <? 0) eqn:En, (m <? 0) eqn:Em; intros E.
  - injection E as E. apply show_unsigned_inj in E; lia.
  - by destruct (show_unsigned_no_minus m (show_unsigned (- n))).
  - by destruct (show_unsigned_no_minus n (show_unsigned (- m))).
  - apply show_unsigned_inj in E; lia.
Qed.

Lemma readable_num : readable num_ok show_i32.
Proof.
  intros n m r r' Hn Hm Hr Hr' E. destruct (span_inj num_char (show_i32 n) (show_i32 m) r r') as [E1 E2];
    [apply show_i32_bytes..|intros x; by apply stop_no_num|intros x; by apply stop_no_num|done|].
  split; [by apply show_i32_inj|done].
Qed.

Lemma readable_quote : readable text quote.
Proof. intros s s' r r' Hs Hs' _ _. by apply quote_end. Qed.

Lemma readable_member {A} (good : A -> Prop) f : readable good f -> readable (fun p => text p.1 /\ good p.2) (fun p => quote p.1 ++ x3a :: f p.2).
Proof.
  intros Hf [k a] [k' a'] r r' [Hk Ha] [Hk' Ha'] Hr Hr' E. cbn in *. rewrite <- !app_assoc in E. cbn [app] in E.
  apply quote_end in E as [-> E]; [|done|done]. injection E as E. destruct (Hf a a' r r') as [-> ->]; done.
Qed.

Definition tail_str (l : list str) : str := mjoin ((fun t => x2c :: t) <$> l).

Lemma join_tail t l : join [x2c] (t :: l) = t ++ tail_str l.
Proof. revert t. induction l as [|t' l IH]; intros t; [by rewrite app_nil_r|]. change (join [x2c] (t :: t' :: l)) with (t ++ [x2c] ++ join [x2c] (t' :: l)). by rewrite IH. Qed.

Lemma tail_stop l z r : z = x5d \/ z = x7d -> stop (tail_str l ++ z :: r).
Proof. intros Hz. destruct l as [|t l]; cbn; tauto. Qed.

Lemma tail_inj {A} (good : A -> Prop) f z l l' r r' : readable good f -> z = x5d \/ z = x7d -> Forall good l -> Forall good l' ->
  tail_str (f <$> l) ++ z :: r = tail_str (f <$> l') ++ z :: r' -> l = l' /\ r = r'.
Proof.
  intros Hf Hz Hl. revert l'. induction Hl as [|a l Ha Hl IH]; intros l' Hl' E.
  - destruct l' as [|a' l']; [by injection E|]. injection E as E _. exfalso. destruct Hz; congruence.
  - destruct Hl' as [|a' l' Ha' Hl'].
    + injection E as E _. exfalso. destruct Hz; congruence.
    + rewrite !fmap_cons in E. change (tail_str (f a :: (f <$> l))) with (x2c :: f a ++ tail_str (f <$> l)) in E.
      change (tail_str (f a' :: (f <$> l'))) with (x2c :: f a' ++ tail_str (f <$> l')) in E. cbn [app] in E. injection E as E. rewrite <- !app_assoc in E.
      apply Hf in E as [-> E]; [|done|done|by apply tail_stop..]. by destruct (IH l' Hl' E) as [-> ->].
Qed.

Lemma head_quote_app k t : head (quote k ++ t) = Some x22.
Proof. pose proof (quote_head k) as Hq. by destruct (quote k). Qed.

Lemma joined_inj {A} (good : A -> Prop) f z l l' r r' : readable good f -> (forall a, head (f a) = Some x22) -> z = x5d \/ z = x7d -> Forall good l -> Forall good l' ->
  join [x2c] (f <$> l) ++ z :: r = join [x2c] (f <$> l') ++ z :: r' -> l = l' /\ r = r'.
Proof.
  intros Hf Hh Hz Hl Hl' E.
  assert (forall a t, f a ++ t <> z :: r /\ f a ++ t <> z :: r') as Hn.
  { intros a t. specialize (Hh a). destruct (f a) as [|b s]; [done|]. injection Hh as ->. split; intros [= <-]; by destruct Hz. }
  destruct Hl as [|a l Ha Hl], Hl' as [|a' l' Ha' Hl']; rewrite ?fmap_cons, ?join_tail, <- ?app_assoc in E.
  - by injection E.
  - exfalso. symmetry in E. exact (proj1 (Hn _ _) E).
  - exfalso. exact (proj2 (Hn _ _) E).
  - apply Hf in E as [-> E]; [|done|done|by apply tail_stop..]. by apply (tail_inj good f z) in E as [-> ->].
Qed.

Definition wire_ok (w : Wire) : Prop :=
  match w with
  | WNum n => num_ok n
  | WFlag _ => True
  | WText s => text s
  | WTexts l => Forall text l
  | WCounts l => Forall (fun f => text f.1 /\ num_ok f.2) l
  end.

(** The first byte tells the kind. *)
Definition kind_of (w : Wire) (b : byte) : Prop :=
  match w with
  | WNum _ => num_char b | WFlag true => b = x74 | WFlag false => b = x66 | WText _ => b = x22 | WTexts _ => b = x5b | WCounts _ => b = x7b
  end.

Lemma wire_head w r : exists b s, wire_str w ++ r = b :: s /\ kind_of w b.
Proof.
  destruct w as [n|[]|s|l|l]; cbn [wire_str kind_of]; try (by eexists _, _).
  - pose proof (show_i32_bytes n) as Hb. destruct (show_i32 n) as [|b s] eqn:E; [|apply Forall_cons in Hb as [Hb _]; by eexists _, _].
    unfold show_i32 in E. destruct (n <? 0); [done|]. by destruct (to_radix_nonempty 10 19 n).
  - pose proof (quote_head s) as Hq. destruct (quote s) as [|b t]; [done|]. injection Hq as ->. by eexists _, _.
Qed.

Lemma kinds_agree w w' b : kind_of w b -> kind_of w' b ->
  match w, w' with WNum _, WNum _ | WText _, WText _ | WTexts _, WTexts _ | WCounts _, WCounts _ => True | WFlag c, WFlag c' => c = c' | _, _ => False end.
Proof.
  assert (~ num_char x74 /\ ~ num_char x66 /\ ~ num_char x22 /\ ~ num_char x5b /\ ~ num_char x7b) as (? & ? & ? & ? & ?).
  { repeat split; intros [Hd|Hd]; by vm_compute in Hd. }
  destruct w as [n|[]|s|l|l], w' as [n'|[]|s'|l'|l']; cbn; try done; intros Hk Hk'; subst; try done.
Qed.

Lemma readable_wire : readable wire_ok wire_str.
Proof.
  intros w w' r r' Hw Hw' Hr Hr' E. destruct (wire_head w r) as (b & s & Es & Hb), (wire_head w' r') as (b' & s' & Es' & Hb').
  assert (b' = b) as -> by congruence. pose proof (kinds_agree w w' b Hb Hb') as Hk. clear Es Es' Hb Hb'.
  destruct w as [n|c|t|l|l], w' as [n'|c'|t'|l'|l']; try done; cbn [wire_ok wire_str counts_str] in *.
  - by apply readable_num in E as [-> ->].
  - subst c'. by apply app_inv_head in E as ->.
  - by apply quote_end in E as [-> ->].
  - rewrite <- !app_assoc in E. cbn [app] in E. injection E as E. apply (joined_inj text quote x5d) in E as [-> ->]; auto using readable_quote, quote_head.
  - unfold counts_str in E. rewrite <- !app_assoc in E. cbn [app] in E. injection E as E.
    apply (joined_inj (fun f : str * Z => text f.1 /\ num_ok f.2) (fun f => quote f.1 ++ x3a :: show_i32 f.2) x7d) in E as [-> ->]; try done;
      [by apply readable_member, readable_num|intros f; apply head_quote_app|by right].
Qed.

Definition member_ok (f : str * Wire) : Prop := text f.1 /\ wire_ok f.2.

Lemma stats_ok s : typed_stats s -> Forall (fun f => text f.1 /\ num_ok f.2) (sorted_stats s).
Proof.
  unfold typed_stats, sorted_stats. rewrite !Forall_cons. unfold u64. intros (? & ? & ? & ? & ? & ? & ? & ? & ? & _).
  rewrite Forall_fmap. repeat (constructor; [split; [done|unfold num_ok; cbn; lia]|]). constructor.
Qed.

Lemma payload_ok e : typed e -> Forall member_ok (sorted_payload e).
Proof.
  destruct e; cbn [typed sorted_payload]; rewrite ?Forall_cons; intros He; destruct_and?; unfold member_ok; cbn [fst snd wire_ok];
    repeat match goal with |- _ /\ _ => split | |- Forall _ [] => constructor end;
    try done; try apply rfc3339_text; auto using stats_ok; unfold u64, num_ok in *; lia.
Qed.

Lemma payload_inj e e' : sorted_payload e = sorted_payload e' -> e = e'.
Proof.
  destruct e, e'; cbn [sorted_payload]; intros E; try discriminate E; injection E; intros;
    repeat match goal with
      | H : rfc3339 _ = rfc3339 _ |- _ => apply rfc3339_inj in H
      | H : Z.of_nat _ = Z.of_nat _ |- _ => apply Nat2Z.inj in H
      end; subst; try done.
  destruct stats, stats0. cbn in *. by subst.
Qed.

Lemma canonical_inj e e' : typed e -> typed e' -> canonicalize_json (Fields (payload e)) = canonicalize_json (Fields (payload e')) -> e = e'.
Proof.
  intros He He' E. rewrite !payload_str in E. cbn [app] in E. injection E as E. apply payload_inj. unfold members_str in E.
  refine (proj1 (joined_inj member_ok (fun f => quote f.1 ++ x3a :: wire_str f.2) x7d _ _ [] [] _ _ _ (payload_ok e He) (payload_ok e' He') E));
    [by apply readable_member, readable_wire|intros f; apply head_quote_app|by right].
Qed.

(** ** The last hash *)

Definition input_of (e : AuditEntry) : str := prev_hash e ++ [x0a] ++ canonicalize_json (Fields (payload (event e))).

(** Entries that follow each other. *)
Fixpoint linked (prev : str) (es : list AuditEntry) : Prop :=
  match es with
  | [] => True
  | e :: es => prev_hash e = prev /\ hash e = hex_encode (sha256 (input_of e)) /\ linked (hash e) es
  end.
Definition end_hash (prev : str) (es : list AuditEntry) : str := default prev (hash <$> last es).

Lemma recompute_input e : recompute_hash e (prev_hash e) = hex_encode (sha256 (input_of e)).
Proof. unfold recompute_hash, entry_hash, input_of. by destruct e as [[] p h]. Qed.

Definition entries_of (ls : list str) : list AuditEntry := omap entry_parse (filter (fun l => blank l = false) ls).

Lemma verified_linked i n prev ls r : verify_lines i n prev ls = Ok r -> valid r = true ->
  linked prev (entries_of ls) /\ report_last r = end_hash prev (entries_of ls).
Proof.
  revert i n prev. induction ls as [|l ls IH]; intros i n prev; cbn [verify_lines]; [by intros [= <-]|]. intros Hv Hr. unfold entries_of.
  destruct (blank l) eqn:Eb; [rewrite filter_cons_False by (by rewrite Eb); by eapply IH|]. rewrite filter_cons_True by done. cbn [omap list_omap].
  destruct (entry_parse l) as [e|]; [|done]. cbn [ok_or obind] in Hv.
  case_bool_decide as Ep; cbn [negb] in Hv; [|by injection Hv as <-]. case_bool_decide as Eh; cbn [negb] in Hv; [|by injection Hv as <-].
  destruct (IH _ _ _ Hv Hr) as [Hl ->]. rewrite recompute_input in Eh. split; [by repeat split|]. unfold end_hash. rewrite last_cons.
  fold (entries_of ls). by destruct (last (entries_of ls)).
Qed.

Lemma linked_snoc prev es x : linked prev (es ++ [x]) <-> linked prev es /\ prev_hash x = end_hash prev es /\ hash x = hex_encode (sha256 (input_of x)).
Proof.
  revert prev. induction es as [|e es IH]; intros prev; [by cbn; tauto|]. cbn [app linked]. rewrite IH. unfold end_hash. rewrite last_cons.
  destruct (last es); cbn; tauto.
Qed.

Lemma end_snoc prev es x : end_hash prev (es ++ [x]) = hash x.
Proof. unfold end_hash. by rewrite last_snoc. Qed.

Lemma hex_inj s t : hex_encode s = hex_encode t -> s = t.
Proof.
  revert t. induction s as [|a s IH]; intros [|b t] E; [done..|]. rewrite !hex_encode_cons in E. injection E as E1 E2 E.
  pose proof (b2z_range a). pose proof (b2z_range b).
  assert (forall d d', 0 <= d < 16 -> 0 <= d' < 16 -> digit_char d = digit_char d' -> d = d') as Hd.
  { intros d d' Hd Hd' Ed. pose proof (digit_char_to_digit 16 d Hd ltac:(lia)). pose proof (digit_char_to_digit 16 d' Hd' ltac:(lia)). congruence. }
  apply Hd in E1; [|lia..]. apply Hd in E2; [|lia..].
  assert (b2z a = b2z b) as Eb by lia. f_equal; [|by apply IH]. rewrite <- (byte.of_Z_unsigned a), <- (byte.of_Z_unsigned b). by rewrite Eb.
Qed.

Lemma no_feed_hash x : hash x = hex_encode (sha256 (input_of x)) -> hash x <> [] /\ x0a ∉ hash x.
Proof.
  intros ->. split.
  - intros E. apply (f_equal length) in E. rewrite length_hex_encode, sha256_length in E. by vm_compute in E.
  - eapply not_elem_of_Forall; [apply hex_encode_lower|]. by vm_compute.
Qed.

Lemma app_split_at (a a' r r' : str) : x0a ∉ a -> x0a ∉ a' -> a ++ [x0a] ++ r = a' ++ [x0a] ++ r' -> a = a' /\ r = r'.
Proof.
  revert a'. induction a as [|b a IH]; intros [|b' a'] Ha Ha' E; cbn in E.
  - injection E as E. done.
  - injection E as <- _. exfalso. apply Ha'. by left.
  - injection E as -> _. exfalso. apply Ha. by left.
  - injection E as -> E. destruct (IH a') as [-> ->]; [set_solver..|done|done].
Qed.

Lemma end_no_feed es : linked [] es -> x0a ∉ end_hash [] es.
Proof.
  destruct es as [|x es _] using rev_ind; [intros _; apply not_elem_of_nil|]. rewrite linked_snoc, end_snoc. intros (_ & _ & Hx). by apply no_feed_hash.
Qed.

Lemma linked_determined es es' : Forall typed_entry es -> Forall typed_entry es' -> linked [] es -> linked [] es' ->
  (forall x y, x ∈ es -> y ∈ es' -> sha256 (input_of x) = sha256 (input_of y) -> input_of x = input_of y) ->
  end_hash [] es = end_hash [] es' -> es = es'.
Proof.
  revert es'. induction es as [|x es IH] using rev_ind; intros es' Ht Ht' Hl Hl' Hc He.
  - destruct es' as [|y es' _] using rev_ind; [done|]. exfalso. rewrite end_snoc in He. apply linked_snoc in Hl' as (_ & _ & Hy). by destruct (no_feed_hash y Hy).
  - destruct es' as [|y es' _] using rev_ind.
    { exfalso. rewrite end_snoc in He. apply linked_snoc in Hl as (_ & _ & Hx). by destruct (no_feed_hash x Hx). }
    rewrite !end_snoc in He. apply linked_snoc in Hl as (Hl & Px & Hx), Hl' as (Hl' & Py & Hy).
    apply Forall_app in Ht as [Ht Tx], Ht' as [Ht' Ty]. apply Forall_cons in Tx as [Tx _], Ty as [Ty _].
    assert (input_of x = input_of y) as Ei.
    { apply Hc; [set_solver..|]. apply hex_inj. congruence. }
    unfold input_of in Ei. apply app_split_at in Ei as [Ep Ec]; [|rewrite Px; by apply end_no_feed|rewrite Py; by apply end_no_feed].
    assert (event x = event y) as Ee by (apply canonical_inj; [exact (proj1 Tx)|exact (proj1 Ty)|done]).
    assert (x = y) as -> by (clear -Ee Ep He; destruct x as [ex px hx], y as [ey py hy]; cbn in Ee, Ep, He; congruence). f_equal. apply IH; [done..| |congruence]. intros a b Ha Hb. apply Hc; set_solver.
Qed.

Lemma entries_typed ls : Forall typed_entry (entries_of ls).
Proof. apply Forall_forall. intros e (l & _ & Hl)%list_elem_of_omap. by eapply entry_typed. Qed.

(** C13: the last hash of a segment determines all of it: as long as the hash function gives
    no two of the texts hashed for them the same digest, two segments that verify and end in
    the same hash hold the same entries, however they came about. *)
Theorem last_hash_determines body body' r r'
    (verified : verify_segment body = Ok r) (intact : valid r = true) (verified' : verify_segment body' = Ok r') (intact' : valid r' = true)
    (no_collision : forall x y, x ∈ entries_of (lines body) -> y ∈ entries_of (lines body') ->
      sha256 (input_of x) = sha256 (input_of y) -> input_of x = input_of y)
    (same_end : report_last r = report_last r') :
  entries_of (lines body) = entries_of (lines body').
Proof.
  unfold verify_segment in *. destruct (utf8_valid body); [|done]. destruct (utf8_valid body'); [|done].
  destruct (verified_linked _ _ _ _ _ verified intact) as [Hl He], (verified_linked _ _ _ _ _ verified' intact') as [Hl' He'].
  apply linked_determined; auto using entries_typed. congruence.
Qed.
End BatchTheorems.

(** ** A codec that satisfies the laws *)

#[export] Instance BatchStats_eq_dec : EqDecision BatchStats.
Proof. solve_decision. Defined.
#[export] Instance Event_eq_dec : EqDecision Event.
Proof. solve_decision. Defined.
#[export] Instance AuditEntry_eq_dec : EqDecision AuditEntry.
Proof. solve_decision. Defined.

#[export] Instance BatchStats_countable : Countable BatchStats.
Proof.
  refine (inj_countable' (fun s => (ok s, ok_warn s, unreachable s, timeout s, auth_fail s, proxy_fail s, remote_err s, host_key_mismatch s, cancelled s))
            (fun '(a, b, c, d, e, f, g, h, i) => Build_BatchStats a b c d e f g h i) _). by intros [].
Defined.

Definition to_sum (e : Event) :=
  match e with
  | BatchStart ts id kind group hosts => inl (inl (inl (ts, id, kind, group, hosts)))
  | HostResult ts id host status cmd duration code truncated redacted => inl (inl (inr (ts, id, host, status, cmd, duration, code, truncated, redacted)))
  | TofuAccept ts id host fingerprint => inl (inr (inl (ts, id, host, fingerprint)))
  | TofuReject ts id host fingerprint reason => inl (inr (inr (ts, id, host, fingerprint, reason)))
  | BatchEnd ts id stats => inr (inl (inl (ts, id, stats)))
  | BatchCancelled ts id completed incomplete => inr (inl (inr (ts, id, completed, incomplete)))
  | SegmentEnd ts date next => inr (inr (ts, date, next))
  end.
Definition of_sum s : Event :=
  match s with
  | inl (inl (inl (ts, id, kind, group, hosts))) => BatchStart ts id kind group hosts
  | inl (inl (inr (ts, id, host, status, cmd, duration, code, truncated, redacted))) => HostResult ts id host status cmd duration code truncated redacted
  | inl (inr (inl (ts, id, host, fingerprint))) => TofuAccept ts id host fingerprint
  | inl (inr (inr (ts, id, host, fingerprint, reason))) => TofuReject ts id host fingerprint reason
  | inr (inl (inl (ts, id, stats))) => BatchEnd ts id stats
  | inr (inl (inr (ts, id, completed, incomplete))) => BatchCancelled ts id completed incomplete
  | inr (inr (ts, date, next)) => SegmentEnd ts date next
  end.

#[export] Instance Event_countable : Countable Event.
Proof. refine (inj_countable' to_sum of_sum _). by intros []. Defined.
#[export] Instance AuditEntry_countable : Countable AuditEntry.
Proof. refine (inj_countable' (fun e => (event e, prev_hash e, hash e)) (fun '(a, b, c) => Build_AuditEntry a b c) _). by intros []. Defined.

#[export] Instance typed_entry_dec e : Decision (typed_entry e).
Proof. unfold typed_entry, typed, typed_stats, text, u64. destruct e as [[] p h]; cbn [event prev_hash hash]; apply _. Defined.

(** Entries and strings as bits between brackets; a digest of 32 equal bytes. *)
#[export] Instance bits_batch : BatchJson := {|
  sha256 s := replicate 32 (byte.of_Z (foldr Z.lxor 0 (b2z <$> s)));
  quote s := x22 :: bits_of (encode s) ++ [x22];
  rfc3339 t := bits_of (encode t);
  entry_str e := x7b :: bits_of (encode e) ++ [x7d];
  entry_parse s :=
    p ← of_bits (take (length s - 2) (drop 1 s));
    e ← (decode p : option AuditEntry);
    if decide (typed_entry e) then Some e else None;
|}.

Lemma bits_text p : text (bits_of p).
Proof. apply utf8_bits. Qed.

Lemma bits_quote p p' r r' : bits_of p ++ x22 :: r = bits_of p' ++ x22 :: r' -> bits_of p = bits_of p' /\ r = r'.
Proof.
  revert p'. assert (forall (s s' : str), x22 ∉ s -> x22 ∉ s' -> s ++ x22 :: r = s' ++ x22 :: r' -> s = s' /\ r = r') as Hs.
  { intros s. induction s as [|b s IH]; intros [|b' s'] H H' E; cbn in E.
    - by injection E as E.
    - injection E as <- _. exfalso. apply H'. by left.
    - injection E as -> _. exfalso. apply H. by left.
    - injection E as -> E. destruct (IH s') as [-> ->]; [set_solver..|done|done]. }
  intros p'. apply Hs; by apply bits_without.
Qed.

Lemma bits_inj {A} `{Countable A} (x y : A) : bits_of (encode x) = bits_of (encode y) -> x = y.
Proof. intros E. pose proof (of_bits_encode x) as Hx. pose proof (of_bits_encode y) as Hy. rewrite E in Hx. congruence. Qed.

#[export] Instance bits_batch_laws : BatchJsonLaws.
Proof.
  split.
  - intros e He. cbn [entry_parse entry_str bits_batch]. cbn [length drop]. rewrite length_app. cbn [length].
    rewrite drop_0, take_app_le, firstn_all2 by lia. rewrite of_bits_of. cbn [mbind option_bind]. rewrite decode_encode. cbn [mbind option_bind]. by rewrite decide_True.
  - intros s e. cbn [entry_parse bits_batch]. destruct (of_bits _) as [p|]; [|done]. cbn [mbind option_bind].
    destruct (decode p) as [e'|]; [|done]. cbn [mbind option_bind]. case_decide; [|done]. by intros [= <-].
  - intros e. cbn [entry_str bits_batch]. rewrite not_elem_of_cons, not_elem_of_app. split; [done|]. split; [by apply bits_without|by_decide].
  - intros e _. cbn [entry_str bits_batch]. apply (utf8_valid_app [x7b]); [done|]. apply utf8_valid_app; [apply bits_text|done].
  - intros e. cbn [entry_str bits_batch]. rewrite trim_plain_ends; [done|by intros b [= <-]|]. intros b. rewrite app_comm_cons, last_snoc. by intros [= <-].
  - intros e. cbn [entry_str bits_batch]. by rewrite app_comm_cons, last_snoc.
  - intros s. cbn [sha256 bits_batch]. apply length_replicate.
  - intros t. apply bits_text.
  - intros t t'. apply bits_inj.
  - done.
  - intros s s' r r' _ _ E. cbn [quote bits_batch app] in E. injection E as E. rewrite <- !app_assoc in E. cbn [app] in E.
    apply bits_quote in E as [E ->]. split; [by apply bits_inj|done].
Qed.

(** ** Witnesses *)

Definition a_start : Event := BatchStart 5 (lit "ping-1") (lit "diagnose") (lit "@web") [lit "a"].
Definition a_result : Event := HostResult 6 (lit "ping-1") (lit "a") (lit "ok") (lit "uptime") 40 0 false 0.
Definition two_events : list Event := [a_start; a_result].

Lemma two_typed : Forall typed two_events.
Proof.
  assert (Forall (fun e => typed_entry {| event := e; prev_hash := []; hash := [] |}) two_events) as Ht by (apply (bool_decide_unpack _); by vm_compute).
  eapply Forall_impl; [exact Ht|]. by intros e [? _].
Qed.

Lemma appended_batches_verify_witness :
  exists dir, run_batches (lit "2026-01-02") [(lit "ping-1", two_events); (lit "ping-2", two_events)] ∅ = Ok dir /\
    exists r, verify_segment (default [] (dir !! lit "2026-01-02")) = Ok r /\ entries r = 4%nat.
Proof.
  destruct (appended_batches_verify (lit "2026-01-02") [(lit "ping-1", two_events); (lit "ping-2", two_events)] ∅ (lookup_empty _)
              ltac:(constructor; [exact two_typed|constructor; [exact two_typed|constructor]])) as (dir & Hr & (r & Hv & _ & Hn) & _).
  exists dir. split; [exact Hr|]. exists r. split; [exact Hv|]. rewrite Hn. reflexivity.
Defined.

Lemma cut_segment_verifies_witness :
  exists r, verify_segment (segment_of (chain [] (take 1 two_events))) = Ok r /\ valid r = true /\ entries r = 1%nat.
Proof. exact (proj2 (cut_segment_verifies (take 1 two_events) (drop 1 two_events) two_typed)). Defined.

Lemma midnight_breaks_chain_witness :
  let '(a1, dir1) := append_with_chain (lit "2026-01-02") a_start {| appender_batch := lit "ping-1"; last_hash := [] |} ∅ in
  let '(_, dir2) := append_with_chain (lit "2026-01-03") a_result a1 dir1 in
  batch_verify [default [] (dir2 !! lit "2026-01-03")] false = 2.
Proof.
  pose proof two_typed as Ht. apply Forall_cons in Ht as [_ [Ht _]%Forall_cons].
  pose proof (midnight_breaks_chain (lit "2026-01-02") (lit "2026-01-03") a_start a_result [] {| appender_batch := lit "ping-1"; last_hash := [] |} ∅
                ltac:(done) (lookup_empty _) Ht eq_refl) as H.
  destruct (append_with_chain _ _ _ _) as [a1 dir1]. destruct (append_with_chain _ _ a1 dir1) as [a2 dir2]. destruct H as [_ H]. by rewrite app_nil_r in H.
Defined.

Lemma parallel_batches_break_witness :
  exists a1 a2, open_appender ∅ (lit "d") (lit "1") = Ok a1 /\ open_appender ∅ (lit "d") (lit "2") = Ok a2 /\
    let '(_, dir1) := append_with_chain (lit "d") a_start a1 ∅ in
    let '(_, dir2) := append_with_chain (lit "d") a_result a2 dir1 in
    exists r, verify_segment (default [] (dir2 !! lit "d")) = Ok r /\ broken_at r = Some 2%nat.
Proof.
  destruct (parallel_batches_break (lit "d") [] a_start a_result (lit "1") (lit "2") ∅ ltac:(by unfold holds; rewrite lookup_empty) two_typed (hash_not_empty _ _)) as (a1 & a2 & H1 & H2 & H3).
  exists a1, a2. split; [exact H1|]. split; [exact H2|].
  destruct (append_with_chain _ _ a1 ∅) as [b1 dir1]. destruct (append_with_chain _ _ a2 dir1) as [b2 dir2]. destruct H3 as (r & Hv & _ & Hb). exists r. exact (conj Hv Hb).
Defined.

Lemma audit_accounts_witness :
  omap reported (batch_events Z.of_nat (lit "b") (lit "@g") (lit "uptime") (name <$> pair_of_hosts) (fanout_result pair_of_hosts half_way true))
  ++ mjoin (unfinished <$> batch_events Z.of_nat (lit "b") (lit "@g") (lit "uptime") (name <$> pair_of_hosts) (fanout_result pair_of_hosts half_way true))
  ≡ₚ name <$> pair_of_hosts.
Proof.
  pose proof (audit_accounts pair_of_hosts 1 _ Z.of_nat (lit "b") (lit "@g") (lit "uptime") pair_distinct half_result) as H. cbn zeta in H. exact (proj1 (proj2 H)).
Defined.

Lemma last_hash_determines_witness :
  exists body, verify_segment body = Ok {| entries := 2; valid := true; broken_at := None; report_last := end_of [] two_events |} /\
    entries_of (lines body) = entries_of (lines body).
Proof.
  exists (segment_of (chain [] two_events)). pose proof (segment_verifies two_events two_typed) as Hv. split; [exact Hv|].
  refine (last_hash_determines _ _ _ _ Hv eq_refl Hv eq_refl _ eq_refl).
  assert (Forall (fun x => Forall (fun y => sha256 (input_of x) = sha256 (input_of y) -> input_of x = input_of y)
      (entries_of (lines (segment_of (chain [] two_events))))) (entries_of (lines (segment_of (chain [] two_events))))) as Hc.
  { apply (bool_decide_unpack _). by vm_compute. }
  rewrite Forall_forall in Hc. intros x y Hx Hy. specialize (Hc x Hx). rewrite Forall_forall in Hc. by apply Hc.
Defined.
