(* ===== verification/QueryDigest.v ===== *)
(** * Statement differences of MySQL

    [QueryDigestTracker] of aic-common/src/workload.rs: cumulative counters of normalised
    statements, read once a minute, become differences per interval. The values of a result
    row and their conversions belong to the MySQL client library and are parameters. *)

From S2P Require Import Prelude RustStr StrOrder.

Local Open Scope outcome_scope.

Definition MYSQL_QUERY_DIGEST_ROW_LIMIT : Z := 200.
Definition MYSQL_QUERY_DIGEST_TOP : nat := 10.
Definition MICROS_PER_SEC : Z := 1000000.
Definition MICROS_PER_MILLI : Z := 1000.
Definition PICOS_PER_MICRO : Z := 1000000.
Definition WORKLOAD_SAMPLE_INTERVAL_SECS : Z := 60.
Definition MYSQL_QUERY_DIGEST_WINDOW_SECS : Z := WORKLOAD_SAMPLE_INTERVAL_SECS + 30.
Definition QUERY_DIGEST_TEXT_BYTES : nat := 4096.
Definition QUERY_DIGEST_BASELINE_CAP : nat := 2000.
Definition QUERY_DIGEST_EVICT_AFTER_POLLS : Z := 10.
Definition QUERY_DIGEST_STALE_AFTER_US : Z := 3 * WORKLOAD_SAMPLE_INTERVAL_SECS * MICROS_PER_SEC.
Definition MYSQL_ACCESS_DENIED_CODES : list Z := [1044; 1142; 1143].

Inductive QueryDigestUnavailable :=
| PerformanceSchemaOff | ConsumerDisabled | PermissionDenied | Timeout | QueryFailed | Malformed.

Record QueryDigestEntry := {
  e_schema : option str;
  e_digest : str;
  e_text : option str;
  e_calls : Z;
  e_total_time_us : Z;
  e_lock_time_us : Z;
  e_errors : Z;
  e_rows_examined : Z;
  e_rows_sent : Z;
  e_no_index_used : Z;
}.

Record QueryDigestReport := {
  baseline : bool;
  top : list QueryDigestEntry;
  unattributed_calls : Z;
  row_limit_reached : bool;
  interval_ms : Z;
  observed_calls : Z;
  observed_time_us : Z;
}.

Record DigestCounters := {
  calls : Z;
  timer_wait_ps : Z;
  lock_time_ps : Z;
  errors : Z;
  rows_examined : Z;
  rows_sent : Z;
  no_index_used : Z;
}.

(** [None] when the row counts fewer calls than before. *)
Definition since (self previous : DigestCounters) : option DigestCounters :=
  if calls previous <=? calls self then
    Some {| calls := calls self - calls previous;
            timer_wait_ps := sat_sub (timer_wait_ps self) (timer_wait_ps previous);
            lock_time_ps := sat_sub (lock_time_ps self) (lock_time_ps previous);
            errors := sat_sub (errors self) (errors previous);
            rows_examined := sat_sub (rows_examined self) (rows_examined previous);
            rows_sent := sat_sub (rows_sent self) (rows_sent previous);
            no_index_used := sat_sub (no_index_used self) (no_index_used previous) |}
  else None.

(** Schema and digest; the overflow row has no digest. *)
Abbreviation Key := (option str * option str)%type.

Record DigestRow := {
  r_schema : option str;
  r_digest : option str;
  r_counters : DigestCounters;
  r_first_seen_us : Z;
}.

Definition row_key (r : DigestRow) : Key := (r_schema r, r_digest r).

Record DigestSnapshot := { server_now_us : Z; rows : list DigestRow }.

Record DigestBaseline := { b_counters : DigestCounters; b_first_seen_us : Z; last_poll : Z }.

Record QueryDigestTracker := {
  previous_now_us : option Z;
  polls : Z;
  baselines : gmap Key DigestBaseline;
  texts : gmap str str;
}.

Definition new_tracker : QueryDigestTracker :=
  {| previous_now_us := None; polls := 0; baselines := ∅; texts := ∅ |}.

(** ** One poll *)

(** Where the interval starts: the previous poll, unless it is too old. *)
Definition window_start (t : QueryDigestTracker) (now : Z) : option Z :=
  match previous_now_us t with
  | Some previous => if sat_sub now previous <=? QUERY_DIGEST_STALE_AFTER_US then Some previous else None
  | None => None
  end.

(** What a row did in the interval. *)
Definition row_delta (start : option Z) (bs : gmap Key DigestBaseline) (row : DigestRow) : option DigestCounters :=
  start ← start;
  let recreated := if start <=? r_first_seen_us row then Some (r_counters row) else None in
  match bs !! row_key row with
  | Some previous =>
      if b_first_seen_us previous =? r_first_seen_us row then since (r_counters row) (b_counters previous)
      else recreated
  | None => recreated
  end.

Abbreviation Changed := (option str * str * DigestCounters)%type.

(** The accumulators of the loop: statements that ran, calls of the overflow row, calls and
    time of every row. *)
Record Acc := { changed : list Changed; unattributed : Z; obs_calls : Z; obs_time_ps : Z }.

Definition no_acc : Acc := {| changed := []; unattributed := 0; obs_calls := 0; obs_time_ps := 0 |}.

Definition account (row : DigestRow) (delta : option DigestCounters) (a : Acc) : Acc :=
  match delta with
  | None => a
  | Some d =>
      {| changed := match r_digest row with
                    | Some digest => if 0 <? calls d then changed a ++ [(r_schema row, digest, d)] else changed a
                    | None => changed a
                    end;
         unattributed := match r_digest row with
                         | None => wrap64 (unattributed a + calls d)
                         | Some _ => unattributed a
                         end;
         obs_calls := wrap64 (obs_calls a + calls d);
         obs_time_ps := sat_add64 (obs_time_ps a) (timer_wait_ps d) |}
  end.

Fixpoint observe_rows (start : option Z) (poll : Z) (rs : list DigestRow) (bs : gmap Key DigestBaseline) (a : Acc)
    : gmap Key DigestBaseline * Acc :=
  match rs with
  | [] => (bs, a)
  | row :: rs =>
      let delta := row_delta start bs row in
      let bs := <[row_key row := {| b_counters := r_counters row; b_first_seen_us := r_first_seen_us row; last_poll := poll |}]> bs in
      observe_rows start poll rs bs (account row delta a)
  end.

(** [sort_unstable] of the ages, then the age at an index. *)
Definition age_at (ages : list Z) (i : nat) : option Z := sort_by_key id ages !! i.

Definition evict (t : QueryDigestTracker) : outcome QueryDigestTracker unit :=
  let bs := filter (fun kb => polls t - last_poll kb.2 < QUERY_DIGEST_EVICT_AFTER_POLLS) (baselines t) in
  let? bs := (if (QUERY_DIGEST_BASELINE_CAP <? size bs)%nat then
                let ages := (fun kb => last_poll kb.2) <$> map_to_list bs in
                let? cutoff := unwrap_or_panic (age_at ages (size bs - QUERY_DIGEST_BASELINE_CAP)) in
                Ok (filter (fun kb => cutoff <= last_poll kb.2) bs)
              else Ok bs) in
  let ts := if (QUERY_DIGEST_BASELINE_CAP <? size (texts t))%nat then
              let live := omap (fun kb => kb.1.2) (map_to_list bs) in
              filter (fun dt => dt.1 ∈ live) (texts t)
            else texts t in
  Ok {| previous_now_us := previous_now_us t; polls := polls t; baselines := bs; texts := ts |}.

Definition entry_of (c : Changed) : QueryDigestEntry :=
  let '(schema, digest, delta) := c in
  {| e_schema := schema; e_digest := digest; e_text := None;
     e_calls := calls delta;
     e_total_time_us := timer_wait_ps delta / PICOS_PER_MICRO;
     e_lock_time_us := lock_time_ps delta / PICOS_PER_MICRO;
     e_errors := errors delta; e_rows_examined := rows_examined delta; e_rows_sent := rows_sent delta;
     e_no_index_used := no_index_used delta |}.

Definition observe (t : QueryDigestTracker) (s : DigestSnapshot) : outcome (QueryDigestTracker * QueryDigestReport) unit :=
  let start := window_start t (server_now_us s) in
  let bs := match start with Some _ => baselines t | None => ∅ end in
  let polls := polls t + 1 in
  let '(bs, a) := observe_rows start polls (rows s) bs no_acc in
  let? t := evict {| previous_now_us := Some (server_now_us s); polls := polls; baselines := bs; texts := texts t |} in
  let top := take MYSQL_QUERY_DIGEST_TOP (sort_by_key (fun c : Changed => - timer_wait_ps c.2) (changed a)) in
  Ok (t, {| baseline := bool_decide (start = None);
            top := entry_of <$> top;
            unattributed_calls := unattributed a;
            row_limit_reached := MYSQL_QUERY_DIGEST_ROW_LIMIT <=? Z.of_nat (length (rows s));
            interval_ms := match start with Some start => sat_sub (server_now_us s) start / MICROS_PER_MILLI | None => 0 end;
            observed_calls := obs_calls a;
            observed_time_us := obs_time_ps a / PICOS_PER_MICRO |}).

(** ** Statement texts *)

(** Without repetitions, sorted. *)
Definition missing_texts (t : QueryDigestTracker) (r : QueryDigestReport) : list str :=
  let missing := filter (fun d => texts t !! d = None) (e_digest <$> top r) in
  sort (remove_dups missing).

Fixpoint boundary_at_most (s : str) (i : nat) : nat :=
  if is_char_boundary s i then i else match i with O => O | S i => boundary_at_most s i end.

Definition truncate_at_char_boundary (text : str) (max_bytes : nat) : str :=
  if (length text <=? max_bytes)%nat then text else take (boundary_at_most text max_bytes) text.

Definition remember_text (digest text : str) (t : QueryDigestTracker) : QueryDigestTracker :=
  {| previous_now_us := previous_now_us t; polls := polls t; baselines := baselines t;
     texts := <[digest := truncate_at_char_boundary text QUERY_DIGEST_TEXT_BYTES]> (texts t) |}.

Definition set_text (text : option str) (e : QueryDigestEntry) : QueryDigestEntry :=
  {| e_schema := e_schema e; e_digest := e_digest e; e_text := text; e_calls := e_calls e;
     e_total_time_us := e_total_time_us e; e_lock_time_us := e_lock_time_us e; e_errors := e_errors e;
     e_rows_examined := e_rows_examined e; e_rows_sent := e_rows_sent e; e_no_index_used := e_no_index_used e |}.

Definition fill_texts (t : QueryDigestTracker) (r : QueryDigestReport) : QueryDigestReport :=
  {| baseline := baseline r; top := (fun e => set_text (texts t !! e_digest e) e) <$> top r;
     unattributed_calls := unattributed_calls r; row_limit_reached := row_limit_reached r;
     interval_ms := interval_ms r; observed_calls := observed_calls r; observed_time_us := observed_time_us r |}.

(** ** The queries *)

Inductive MySqlError := Server (code : Z) | Other.

Definition query_digest_error (e : MySqlError) : QueryDigestUnavailable :=
  match e with
  | Server code => if bool_decide (code ∈ MYSQL_ACCESS_DENIED_CODES) then PermissionDenied else QueryFailed
  | Other => QueryFailed
  end.

Section Queries.
(** A value of a result row and its conversions. *)
Context {value : Type}.
Variable to_u64 : value -> option Z.
Variable to_opt_string : value -> option (option str).
Variable to_string : value -> option str.
Variable to_bytes : value -> option str.

(** The next column of a row of fixed shape. *)
Definition next_value {A} (conv : value -> option A) (values : list value) : outcome (A * list value) QueryDigestUnavailable :=
  match values with
  | v :: rest => match conv v with Some a => Ok (a, rest) | None => Err Malformed end
  | [] => Err Malformed
  end.

Definition query_digest_server_now (rs : list (list value)) : outcome Z QueryDigestUnavailable :=
  match rs with
  | [row] =>
      let? (performance_schema, row) := next_value to_u64 row in
      let? (consumer, row) := next_value to_opt_string row in
      let? (now_us, _) := next_value to_u64 row in
      if performance_schema =? 0 then Err PerformanceSchemaOff
      else if negb (bool_decide (consumer = Some (lit "YES"))) then Err ConsumerDisabled
      else Ok now_us
  | _ => Err Malformed
  end.

Definition query_digest_row (values : list value) : outcome DigestRow QueryDigestUnavailable :=
  let? (schema, values) := next_value to_opt_string values in
  let? (digest, values) := next_value to_opt_string values in
  let? (calls, values) := next_value to_u64 values in
  let? (timer_wait_ps, values) := next_value to_u64 values in
  let? (lock_time_ps, values) := next_value to_u64 values in
  let? (errors, values) := next_value to_u64 values in
  let? (rows_examined, values) := next_value to_u64 values in
  let? (rows_sent, values) := next_value to_u64 values in
  let? (no_index_used, values) := next_value to_u64 values in
  let? (first_seen_us, _) := next_value to_u64 values in
  Ok {| r_schema := schema; r_digest := digest;
        r_counters := {| calls := calls; timer_wait_ps := timer_wait_ps; lock_time_ps := lock_time_ps; errors := errors;
                         rows_examined := rows_examined; rows_sent := rows_sent; no_index_used := no_index_used |};
        r_first_seen_us := first_seen_us |}.

Fixpoint query_digest_rows (rs : list (list value)) : outcome (list DigestRow) QueryDigestUnavailable :=
  match rs with
  | [] => Ok []
  | r :: rs => let? r := query_digest_row r in let? rs := query_digest_rows rs in Ok (r :: rs)
  end.

Definition remember_row (t : QueryDigestTracker) (row : list value) : QueryDigestTracker :=
  match next_value to_string row with
  | Ok (digest, rest) =>
      match next_value to_bytes rest with
      | Ok (text, _) => remember_text digest (from_utf8_lossy text) t
      | _ => t
      end
  | _ => t
  end.

(** The answers of the server to the three queries, the last one for the missing texts. *)
Definition Answer : Type := outcome (list (list value)) MySqlError.

Definition answered {A} (r : outcome A MySqlError) : outcome A QueryDigestUnavailable :=
  match r with Ok a => Ok a | Err e => Err (query_digest_error e) | Panic => Panic end.

Definition lift_panic {A} (r : outcome A unit) : outcome A QueryDigestUnavailable :=
  match r with Ok a => Ok a | _ => Panic end.

(** The tracker is lent to the poll: what it holds afterwards comes first. *)
Definition poll_query_digest (t : QueryDigestTracker) (prerequisites digests : Answer) (text_rows : list str -> Answer)
    : QueryDigestTracker * outcome QueryDigestReport QueryDigestUnavailable :=
  match (let? prerequisites := answered prerequisites in
         let? now := query_digest_server_now prerequisites in
         let? digests := answered digests in
         let? rs := query_digest_rows digests in
         lift_panic (observe t {| server_now_us := now; rows := rs |})) with
  | Ok (t, report) =>
      let missing := missing_texts t report in
      let t := match missing with
               | [] => t
               | _ => match text_rows missing with Ok rs => foldl remember_row t rs | _ => t end
               end in
      (t, Ok (fill_texts t report))
  | Err e => (t, Err e)
  | Panic => (t, Panic)
  end.
End Queries.
