(* ===== verification/QueryDigestSpec.v ===== *)
(** * Theorems about the statement differences *)

From S2P Require Import Prelude RustStr StrOrder QueryDigest.

Local Open Scope outcome_scope.

(** ** Sums *)

Fixpoint total {A} (f : A -> Z) (l : list A) : Z :=
  match l with [] => 0 | x :: l => f x + total f l end.

Lemma total_le {A} (f g : A -> Z) l : (forall x, x ∈ l -> f x <= g x) -> total f l <= total g l.
Proof.
  induction l as [|x l IH]; intros H; cbn [total]; [done|]. assert (f x <= g x) by (apply H; left).
  assert (total f l <= total g l) by (apply IH; intros; apply H; by right). lia.
Qed.

Lemma total_ext {A} (f g : A -> Z) l : (forall x, x ∈ l -> f x = g x) -> total f l = total g l.
Proof. intros H. apply Z.le_antisymm; apply total_le; intros x Hx; rewrite H; done. Qed.

Lemma total_nonneg {A} (f : A -> Z) l : (forall x, x ∈ l -> 0 <= f x) -> 0 <= total f l.
Proof. intros H. induction l as [|x l IH]; cbn [total]; [done|]. assert (0 <= f x) by (apply H; left).
  assert (0 <= total f l) by (apply IH; intros; apply H; by right). lia. Qed.

(** ** The loop over the rows *)

Definition delta_calls (d : option DigestCounters) : Z := match d with Some d => calls d | None => 0 end.

Definition baseline_of (poll : Z) (r : DigestRow) : DigestBaseline :=
  {| b_counters := r_counters r; b_first_seen_us := r_first_seen_us r; last_poll := poll |}.

(** What a row adds to the statements that ran. *)
Definition changed_of (start : option Z) (bs : gmap Key DigestBaseline) (row : DigestRow) : list Changed :=
  match row_delta start bs row, r_digest row with
  | Some d, Some digest => if 0 <? calls d then [(r_schema row, digest, d)] else []
  | _, _ => []
  end.

Lemma row_delta_other start bs row k b : row_key row <> k -> row_delta start (<[k := b]> bs) row = row_delta start bs row.
Proof. intros Hk. unfold row_delta. by rewrite lookup_insert_ne by done. Qed.

Definition row_with_key (k : Key) (rs : list DigestRow) : option DigestRow :=
  List.find (fun r => bool_decide (row_key r = k)) rs.

Lemma row_with_key_Some k rs r : row_with_key k rs = Some r -> r ∈ rs /\ row_key r = k.
Proof. intros [H1 H2]%find_some. split; [by apply list_elem_of_In|by bool_prop]. Qed.

Lemma row_with_key_None k rs : row_with_key k rs = None <-> k ∉ row_key <$> rs.
Proof.
  unfold row_with_key. split.
  - intros H (r & -> & Hr)%list_elem_of_fmap. apply list_elem_of_In in Hr.
    pose proof (find_none _ _ H r Hr) as Hf. cbn in Hf. by bool_prop.
  - intros H. destruct (List.find _ rs) eqn:E; [|done]. apply row_with_key_Some in E as [E1 E2].
    exfalso. apply H. apply list_elem_of_fmap. by exists d.
Qed.

(** When no row comes twice each is compared with the baselines of the polls before. *)
Lemma observe_rows_spec start poll : forall rs bs a x,
  NoDup (row_key <$> rs) -> obs_calls a = wrap64 x ->
  let r := observe_rows start poll rs bs a in
  (forall k, r.1 !! k = match row_with_key k rs with Some row => Some (baseline_of poll row) | None => bs !! k end) /\
  obs_calls r.2 = wrap64 (x + total (fun row => delta_calls (row_delta start bs row)) rs) /\
  changed r.2 = changed a ++ mjoin (changed_of start bs <$> rs).
Proof.
  induction rs as [|row rs IH]; intros bs a x Hnd Hx r; subst r; cbn [observe_rows total].
  { cbn. rewrite app_nil_r, Z.add_0_r. done. }
  cbn in Hnd. apply NoDup_cons in Hnd as [Hnew Hnd].
  set (bs1 := <[row_key row := _]> bs). set (a1 := account row (row_delta start bs row) a).
  assert (Hx1 : obs_calls a1 = wrap64 (x + delta_calls (row_delta start bs row))).
  { subst a1. unfold account. destruct (row_delta start bs row); cbn [obs_calls delta_calls];
      [rewrite Hx; apply wrap64_add|by rewrite Z.add_0_r]. }
  assert (Hother : forall row', row' ∈ rs -> row_delta start bs1 row' = row_delta start bs row').
  { intros row' Hr. apply row_delta_other. intros E. apply Hnew. rewrite <- E. by apply list_elem_of_fmap_2. }
  destruct (IH bs1 a1 _ Hnd Hx1) as (Hk & Hc & Hch). split_and!.
  - intros k. rewrite Hk. unfold row_with_key. cbn [List.find].
    destruct (decide (row_key row = k)) as [<-|Hne].
    + rewrite bool_decide_eq_true_2 by done. fold (row_with_key (row_key row) rs).
      rewrite (proj2 (row_with_key_None _ _)) by done. subst bs1. by rewrite lookup_insert_eq.
    + rewrite bool_decide_eq_false_2 by done. subst bs1. by rewrite lookup_insert_ne.
  - rewrite Hc. f_equal. rewrite (total_ext _ (fun row => delta_calls (row_delta start bs row)) rs); [lia|].
    intros y Hy. by rewrite Hother.
  - rewrite Hch. cbn [fmap list_fmap mjoin list_join]. rewrite app_assoc. f_equal.
    + subst a1. unfold account, changed_of. destruct (row_delta start bs row); [|by rewrite app_nil_r]. cbn [changed].
      destruct (r_digest row); [destruct (0 <? calls d)|]; by rewrite ?app_nil_r.
    + f_equal. apply list_fmap_ext. intros i y Hy. unfold changed_of. rewrite Hother; [done|]. by eapply list_elem_of_lookup_2.
Qed.

(** ** Eviction *)

Definition seen_after (p : Z) (kb : Key * DigestBaseline) : Prop := p < last_poll kb.2.
#[global] Instance seen_after_dec p kb : Decision (seen_after p kb) := Z_lt_dec _ _.

(** At most [c] baselines of each of the last polls, and none of a later one. *)
Definition spread (c : nat) (t : QueryDigestTracker) : Prop :=
  forall m : nat, (size (filter (seen_after (polls t - Z.of_nat m)) (baselines t)) <= c * m)%nat.

Lemma size_filter_insert (P : Key * DigestBaseline -> Prop) `{forall x, Decision (P x)} (k : Key) (b : DigestBaseline) (m : gmap Key DigestBaseline) :
  (size (filter P (<[k := b]> m)) <= S (size (filter P m)))%nat.
Proof.
  destruct (decide (P (k, b))) as [HP|HP].
  - rewrite map_filter_insert_True by done. rewrite map_size_insert. destruct (_ !! k); cbn; lia.
  - rewrite map_filter_insert_False by done. rewrite map_filter_delete. rewrite map_size_delete. destruct (_ !! k); cbn; lia.
Qed.

Lemma observe_rows_size P `{forall x, Decision (P x)} start poll : forall rs bs a,
  (size (filter P (observe_rows start poll rs bs a).1) <= length rs + size (filter P bs))%nat.
Proof.
  induction rs as [|row rs IH]; intros bs a; cbn [observe_rows]; [done|]. etrans; [apply IH|].
  pose proof (size_filter_insert P (row_key row) (baseline_of poll row) bs). cbn [length]. unfold baseline_of in *. lia.
Qed.

Lemma size_subseteq (m1 m2 : gmap Key DigestBaseline) : m1 ⊆ m2 -> (size m1 <= size m2)%nat.
Proof. intros H. rewrite <- !size_dom. by apply subseteq_size, subseteq_dom. Qed.

Lemma filter_seen_after_mono (p q : Z) (bs bs' : gmap Key DigestBaseline) : bs ⊆ bs' -> q <= p ->
  (size (filter (seen_after p) bs) <= size (filter (seen_after q) bs'))%nat.
Proof.
  intros Hs Hpq. apply size_subseteq. apply map_subseteq_spec. intros k b [H1 H2]%map_lookup_filter_Some.
  apply map_lookup_filter_Some. split; [by eapply lookup_weaken|]. unfold seen_after in *. cbn in *. lia.
Qed.

(** The baselines that are younger than ten polls. *)
Definition kept (polls : Z) (bs : gmap Key DigestBaseline) : gmap Key DigestBaseline :=
  filter (seen_after (polls - QUERY_DIGEST_EVICT_AFTER_POLLS)) bs.

(** Eviction ends without a panic; baselines older than ten polls go, others only when there
    are more than the cap. *)
Lemma digest_evict_spec t : exists t', evict t = Ok t' /\ polls t' = polls t /\ previous_now_us t' = previous_now_us t /\
  baselines t' ⊆ kept (polls t) (baselines t) /\
  ((size (kept (polls t) (baselines t)) <= QUERY_DIGEST_BASELINE_CAP)%nat -> baselines t' = kept (polls t) (baselines t)).
Proof.
  unfold evict. set (bs := filter _ (baselines t)).
  assert (Hbs : bs = kept (polls t) (baselines t)).
  { apply map_filter_ext. intros k b _. unfold seen_after. cbn. lia. }
  clearbody bs. subst bs. set (bs := kept _ _).
  destruct (QUERY_DIGEST_BASELINE_CAP <? size bs)%nat eqn:E.
  - bool_prop. unfold age_at.
    destruct (lookup_lt_is_Some_2 (sort_by_key id ((fun kb => last_poll kb.2) <$> map_to_list bs))
                (size bs - QUERY_DIGEST_BASELINE_CAP)) as [cutoff Hc].
    { unfold sort_by_key. rewrite sort_by_Permutation, length_fmap, length_map_to_list. unfold QUERY_DIGEST_BASELINE_CAP in *. lia. }
    rewrite Hc. cbn [unwrap_or_panic obind]. eexists. split_and!; [done..| |].
    + cbn. apply map_filter_subseteq.
    + intros Hle. lia.
  - bool_prop. cbn [obind]. by eexists.
Qed.

(** What a poll reports and remembers, when the table shows no row twice and no more rows
    than the query asks for. *)
Lemma observe_spec t s :
  NoDup (row_key <$> rows s) ->
  let start := window_start t (server_now_us s) in
  let bs := match start with Some _ => baselines t | None => ∅ end in
  exists t' r, observe t s = Ok (t', r) /\ polls t' = polls t + 1 /\ previous_now_us t' = Some (server_now_us s) /\
    observed_calls r = wrap64 (total (fun row => delta_calls (row_delta start bs row)) (rows s)) /\
    baseline r = bool_decide (start = None) /\
    top r = entry_of <$> take MYSQL_QUERY_DIGEST_TOP
              (sort_by_key (fun c : Changed => - timer_wait_ps c.2) (mjoin (changed_of start bs <$> rows s))) /\
    (forall c, (c * 10 <= QUERY_DIGEST_BASELINE_CAP)%nat -> (length (rows s) <= c)%nat -> spread c t ->
     spread c t' /\
     forall k, baselines t' !! k = match row_with_key k (rows s) with
                                   | Some row => Some (baseline_of (polls t + 1) row)
                                   | None => kept (polls t + 1) bs !! k
                                   end).
Proof.
  intros Hnd start bs. unfold observe. fold start. fold bs.
  pose proof (observe_rows_spec start (polls t + 1) (rows s) bs no_acc 0 Hnd eq_refl) as (Hk & Hc & Hch).
  pose proof (fun P H => @observe_rows_size P H start (polls t + 1) (rows s) bs no_acc) as Hsize.
  destruct (observe_rows _ _ _ _ _) as [bs1 a]. cbn [fst snd] in *. cbn [changed no_acc app] in Hch.
  destruct (digest_evict_spec {| previous_now_us := Some (server_now_us s); polls := polls t + 1; baselines := bs1; texts := texts t |})
    as (t' & -> & Hp & Hn & Hsub & Heq). cbn [polls previous_now_us baselines] in *. cbn [obind].
  eexists t', _. split_and!; [done..| |done| |].
  - cbn. by rewrite Hc, Z.add_0_l.
  - cbn. by rewrite Hch.
  - intros c Hcap Hlen Hsp.
    assert (Hsp1 : forall m : nat, (size (filter (seen_after (polls t + 1 - Z.of_nat m)) bs1) <= c * m)%nat).
    { intros m. destruct m as [|m].
      - replace (size _) with O; [lia|]. symmetry. apply map_size_empty_iff. apply map_empty. intros k.
        apply map_lookup_filter_None. right. intros b Hb. unfold seen_after. cbn. rewrite Hk in Hb.
        destruct (row_with_key k (rows s)); [injection Hb as <-; cbn; lia|]. intros Hlt.
        specialize (Hsp 0%nat). rewrite Nat.mul_0_r in Hsp. apply Nat.le_0_r, map_size_empty_iff in Hsp.
        assert (baselines t !! k = Some b) as Hbt by (subst bs; by destruct start).
        assert (filter (seen_after (polls t - Z.of_nat 0)) (baselines t) !! k = Some b) as Hf
          by (apply map_lookup_filter_Some; split; [done|unfold seen_after; cbn; lia]).
        by rewrite Hsp in Hf.
      - etrans; [apply Hsize|]. specialize (Hsp m).
        assert (Hsub0 : bs ⊆ baselines t) by (subst bs; destruct start; [done|apply map_empty_subseteq]).
        pose proof (filter_seen_after_mono (polls t + 1 - Z.of_nat (S m)) (polls t - Z.of_nat m) bs (baselines t) Hsub0 ltac:(lia)).
        lia. }
    assert (Hkept : (size (kept (polls t + 1) bs1) <= QUERY_DIGEST_BASELINE_CAP)%nat).
    { unfold kept. specialize (Hsp1 10%nat). change (Z.of_nat 10) with QUERY_DIGEST_EVICT_AFTER_POLLS in Hsp1. lia. }
    specialize (Heq Hkept). split.
    + intros m. rewrite Hp. etrans; [|apply (Hsp1 m)]. apply filter_seen_after_mono; [|lia]. rewrite Heq. apply map_filter_subseteq.
    + intros k. rewrite Heq. unfold kept. destruct (row_with_key k (rows s)) as [row|] eqn:Er.
      * apply map_lookup_filter_Some. rewrite Hk, Er. split; [done|]. unfold seen_after, QUERY_DIGEST_EVICT_AFTER_POLLS. cbn. lia.
      * apply option_eq. intros b. rewrite !map_lookup_filter_Some, Hk, Er. done.
Qed.

(** ** Against a live server *)

(** The statement table: when each row was created and what it has counted. *)
Abbreviation Table := (gmap Key (Z * DigestCounters)).

Abbreviation keys := (fmap (M := list) row_key).

(** The rows of a poll are rows of the table, each once, at most the limit. *)
Definition shows (tab : Table) (rs : list DigestRow) : Prop :=
  NoDup (keys rs) /\ (Z.of_nat (length rs) <= MYSQL_QUERY_DIGEST_ROW_LIMIT) /\
  forall row, row ∈ rs -> tab !! row_key row = Some (r_first_seen_us row, r_counters row).

(** From one poll to the next: the clock goes on, counters of a row do not decrease, a row
    that is not shown has not changed, and a new row was created after the clock was read. *)
Definition evolves (now0 now1 : Z) (tab0 tab1 : Table) (rs1 : list DigestRow) : Prop :=
  now0 < now1 <= now0 + QUERY_DIGEST_STALE_AFTER_US /\
  (forall k f c, tab0 !! k = Some (f, c) -> f < now1) /\
  forall k f c, tab1 !! k = Some (f, c) ->
    (exists c0, tab0 !! k = Some (f, c0) /\ calls c0 <= calls c /\ (k ∉ keys rs1 -> c0 = c)) \/
    ((forall c0, tab0 !! k <> Some (f, c0)) /\ now0 <= f /\ 0 <= calls c /\ k ∈ keys rs1).

(** What the server has counted for a row since the table was [tab0]. *)
Definition increase (tab0 : Table) (row : DigestRow) : Z :=
  match tab0 !! row_key row with
  | Some (f, c0) => if f =? r_first_seen_us row then calls (r_counters row) - calls c0 else calls (r_counters row)
  | None => calls (r_counters row)
  end.

(** A run of polls: the tracker, the server's clock and table at the last poll, the rows of
    all polls with the last one first, the calls reported and the calls counted by the server
    for the rows shown. *)
Inductive polled : QueryDigestTracker -> Z -> Table -> list (list DigestRow) -> Z -> Z -> Prop :=
| polled_first now tab rs t r :
    shows tab rs -> (forall k f c, tab !! k = Some (f, c) -> f < now \/ k ∈ keys rs) ->
    observe new_tracker {| server_now_us := now; rows := rs |} = Ok (t, r) ->
    polled t now tab [rs] (observed_calls r) 0
| polled_next t now0 tab0 hist seen counted now1 tab1 rs t' r :
    polled t now0 tab0 hist seen counted -> evolves now0 now1 tab0 tab1 rs -> shows tab1 rs ->
    total (increase tab0) rs < 2 ^ 64 ->
    observe t {| server_now_us := now1; rows := rs |} = Ok (t', r) ->
    polled t' now1 tab1 (rs :: hist) (seen + observed_calls r) (counted + total (increase tab0) rs).

(** The row was in one of the last ten polls. *)
Definition recent (hist : list (list DigestRow)) (k : Key) : Prop := exists rs, rs ∈ take 10 hist /\ k ∈ keys rs.

Definition agrees (t : QueryDigestTracker) (now : Z) (tab : Table) (hist : list (list DigestRow)) : Prop :=
  previous_now_us t = Some now /\ spread 200 t /\
  (forall k b, baselines t !! k = Some b ->
     tab !! k = Some (b_first_seen_us b, b_counters b) \/ (tab !! k = None /\ b_first_seen_us b < now)) /\
  (forall k f c, tab !! k = Some (f, c) -> f < now \/ is_Some (baselines t !! k)) /\
  (forall k b, baselines t !! k = Some b ->
     exists (i : nat) rs, hist !! i = Some rs /\ k ∈ keys rs /\ last_poll b = polls t - Z.of_nat i /\ (i < 10)%nat) /\
  (forall (i : nat) rs k, hist !! i = Some rs -> (i < 10)%nat -> k ∈ keys rs ->
     exists b, baselines t !! k = Some b /\ polls t - Z.of_nat i <= last_poll b).

Lemma tracked_recent t now tab hist k : agrees t now tab hist -> is_Some (baselines t !! k) <-> recent hist k.
Proof.
  intros (_ & _ & _ & _ & H1 & H2). split.
  - intros [b Hb]. destruct (H1 k b Hb) as (i & rs & Hi & Hk & _ & Hlt). exists rs. split; [|done].
    apply (list_elem_of_lookup_2 _ i). by rewrite lookup_take_lt.
  - intros (rs & [i Hi]%list_elem_of_lookup & Hk). apply lookup_take_Some in Hi as [Hi Hlt].
    destruct (H2 i rs k Hi Hlt Hk) as (b & Hb & _). by exists b.
Qed.

(** A row is credited with what the server counted, or with nothing when it is old and has
    no baseline. *)
Lemma row_delta_spec t now0 tab0 hist now1 tab1 rs row :
  agrees t now0 tab0 hist -> evolves now0 now1 tab0 tab1 rs -> shows tab1 rs -> row ∈ rs ->
  0 <= increase tab0 row /\
  ((is_Some (baselines t !! row_key row) \/ forall c0, tab0 !! row_key row <> Some (r_first_seen_us row, c0)) /\
   (exists d, row_delta (Some now0) (baselines t) row = Some d /\ calls d = increase tab0 row) \/
   (baselines t !! row_key row = None /\ (exists c0, tab0 !! row_key row = Some (r_first_seen_us row, c0)) /\
    row_delta (Some now0) (baselines t) row = None)).
Proof.
  intros (_ & _ & H1 & H2 & _) (_ & _ & Hev) (_ & _ & Hsh) Hrow. specialize (Hsh row Hrow).
  unfold increase, row_delta. cbn [mbind option_bind].
  destruct (Hev _ _ _ Hsh) as [(c0 & Hold & Hle & _)|(Hnew & Hlater & Hpos & _)].
  - rewrite Hold, Z.eqb_refl. split; [lia|]. destruct (baselines t !! row_key row) as [b|] eqn:Eb.
    + left. split; [left; by eexists|]. destruct (H1 _ _ Eb) as [Hb|[Hb _]]; [|congruence].
      rewrite Hold in Hb. injection Hb as -> ->. rewrite Z.eqb_refl. unfold since.
      apply Z.leb_le in Hle. rewrite Hle. by eexists.
    + right. split_and!; [done|by eexists|]. destruct (H2 _ _ _ Hold) as [Hlt|[b Hb]]; [|congruence].
      by rewrite (proj2 (Z.leb_gt _ _)) by done.
  - assert (Hinc : match tab0 !! row_key row with
                   | Some (f, c1) => if f =? r_first_seen_us row then calls (r_counters row) - calls c1 else calls (r_counters row)
                   | None => calls (r_counters row) end = calls (r_counters row)).
    { destruct (tab0 !! row_key row) as [[f c1]|] eqn:E; [|done]. destruct (f =? _) eqn:Ef; [|done]. bool_prop. subst f.
      by destruct (Hnew c1). }
    rewrite Hinc. split; [done|]. left. split; [by right|].
    rewrite (proj2 (Z.leb_le _ _)) by done. destruct (baselines t !! row_key row) as [b|] eqn:Eb; [|by eexists].
    destruct (_ =? _) eqn:Ef; [|by eexists]. bool_prop. exfalso.
    destruct (H1 _ _ Eb) as [Hb|[_ Hb]]; [rewrite Ef in Hb; by destruct (Hnew (b_counters b))|lia].
Qed.

Lemma window_start_next t now0 tab0 hist now1 : agrees t now0 tab0 hist ->
  now0 < now1 <= now0 + QUERY_DIGEST_STALE_AFTER_US -> window_start t now1 = Some now0.
Proof.
  intros (Hp & _) H. unfold window_start. rewrite Hp. unfold sat_sub, QUERY_DIGEST_STALE_AFTER_US in *.
  by rewrite (proj2 (Z.leb_le _ _)) by lia.
Qed.

(** How the baselines after a poll come from those before. *)
Lemma agrees_step t now0 tab0 hist now1 tab1 rs t' :
  agrees t now0 tab0 hist -> evolves now0 now1 tab0 tab1 rs -> shows tab1 rs ->
  polls t' = polls t + 1 -> previous_now_us t' = Some now1 -> spread 200 t' ->
  (forall k, baselines t' !! k = match row_with_key k rs with
                                 | Some row => Some (baseline_of (polls t + 1) row)
                                 | None => kept (polls t + 1) (baselines t) !! k
                                 end) ->
  agrees t' now1 tab1 (rs :: hist).
Proof.
  intros (Hprev & _ & H1 & H2 & H3 & H4) (Hnow & Hcre & Hev) (Hnd & Hlen & Hsh) Hp Hn Hsp Hb.
  assert (Hkept : forall k b, kept (polls t + 1) (baselines t) !! k = Some b ->
            baselines t !! k = Some b /\ polls t + 1 - 10 < last_poll b).
  { intros k b [Hk Hl]%map_lookup_filter_Some. split; [done|exact Hl]. }
  split_and!; [done|done| | | |].
  - intros k b Hk. rewrite Hb in Hk. destruct (row_with_key k rs) as [row|] eqn:Er.
    + injection Hk as <-. apply row_with_key_Some in Er as [Hr <-]. left. by apply Hsh.
    + apply Hkept in Hk as [Hk _]. apply row_with_key_None in Er.
      destruct (tab1 !! k) as [[f c]|] eqn:E1.
      * destruct (Hev _ _ _ E1) as [(c0 & Ho & _ & Heq)|(_ & _ & _ & Hin)]; [|done]. left.
        destruct (H1 _ _ Hk) as [Hk'|[Hk' _]]; [|congruence]. rewrite Ho in Hk'. injection Hk' as -> ->. by rewrite Heq.
      * right. split; [done|]. destruct (H1 _ _ Hk) as [Hk'|[_ Hk']]; [by eapply Hcre|lia].
  - intros k f c Hk. destruct (Hev _ _ _ Hk) as [(c0 & Ho & _)|(_ & _ & _ & Hin)]; [left; by eapply Hcre|]. right.
    rewrite Hb. destruct (row_with_key k rs) eqn:Er; [by eexists|]. by apply row_with_key_None in Er.
  - intros k b Hk. rewrite Hb in Hk. destruct (row_with_key k rs) as [row|] eqn:Er.
    + injection Hk as <-. apply row_with_key_Some in Er as [Hr <-]. exists 0%nat, rs. cbn.
      split_and!; [done|by apply list_elem_of_fmap_2|lia|lia].
    + apply Hkept in Hk as [Hk Hl]. destruct (H3 _ _ Hk) as (i & rs' & Hi & Hin & Hlast & _).
      exists (S i), rs'. cbn. split_and!; [done|done|lia|lia].
  - intros i rs' k Hi Hlt Hin. rewrite Hb. destruct (row_with_key k rs) as [row|] eqn:Er.
    + eexists. split; [done|]. cbn. lia.
    + apply row_with_key_None in Er. destruct i as [|i]; cbn in Hi; [congruence|].
      destruct (H4 i rs' k Hi ltac:(lia) Hin) as (b & Hk & Hl). exists b. split; [|lia].
      apply map_lookup_filter_Some. split; [done|]. unfold seen_after, QUERY_DIGEST_EVICT_AFTER_POLLS. cbn. lia.
Qed.

Lemma spread_new : spread 200 new_tracker.
Proof. intros m. cbn. change (baselines new_tracker) with (∅ : gmap Key DigestBaseline). rewrite map_filter_empty, map_size_empty. lia. Qed.

Lemma agrees_first now tab rs t r :
  shows tab rs -> (forall k f c, tab !! k = Some (f, c) -> f < now \/ k ∈ keys rs) ->
  observe new_tracker {| server_now_us := now; rows := rs |} = Ok (t, r) ->
  agrees t now tab [rs] /\ observed_calls r = 0.
Proof.
  intros (Hnd & Hlen & Hsh) Hcre Ho.
  destruct (observe_spec new_tracker {| server_now_us := now; rows := rs |} Hnd) as (t' & r' & Ho' & Hp & Hn & Hc & _ & _ & Hb).
  rewrite Ho in Ho'. injection Ho' as <- <-. cbn [rows server_now_us] in *.
  destruct (Hb 200%nat) as [Hsp Hbs]; [unfold QUERY_DIGEST_BASELINE_CAP; lia|unfold MYSQL_QUERY_DIGEST_ROW_LIMIT in *; lia|apply spread_new|].
  assert (Hbs' : forall k, baselines t !! k = match row_with_key k rs with Some row => Some (baseline_of 1 row) | None => None end).
  { intros k. rewrite Hbs. destruct (row_with_key k rs); [done|]. cbn. unfold kept. by rewrite map_filter_empty, lookup_empty. }
  split.
  - split_and!; [done|done| | | |].
    + intros k b Hk. rewrite Hbs' in Hk. destruct (row_with_key k rs) as [row|] eqn:Er; [|done]. injection Hk as <-.
      apply row_with_key_Some in Er as [Hr <-]. left. by apply Hsh.
    + intros k f c Hk. destruct (Hcre _ _ _ Hk) as [?|Hin]; [by left|]. right. rewrite Hbs'.
      destruct (row_with_key k rs) eqn:Er; [by eexists|]. by apply row_with_key_None in Er.
    + intros k b Hk. rewrite Hbs' in Hk. destruct (row_with_key k rs) as [row|] eqn:Er; [|done]. injection Hk as <-.
      apply row_with_key_Some in Er as [Hr <-]. exists 0%nat, rs. rewrite Hp. cbn. split_and!; [done|by apply list_elem_of_fmap_2|lia|lia].
    + intros [|i] rs' k Hi Hlt Hin; [|done]. injection Hi as <-. rewrite Hbs', Hp.
      destruct (row_with_key k rs) eqn:Er; [eexists; split; [done|cbn; lia]|]. by apply row_with_key_None in Er.
  - rewrite Hc. cbn [window_start new_tracker previous_now_us]. clear. induction rs as [|row rs IH]; [done|]. exact IH.
Qed.

(** The next poll of a run: it does not panic, and credits the rows. *)
Lemma poll_step t now0 tab0 hist now1 tab1 rs :
  agrees t now0 tab0 hist -> evolves now0 now1 tab0 tab1 rs -> shows tab1 rs -> total (increase tab0) rs < 2 ^ 64 ->
  exists t' r, observe t {| server_now_us := now1; rows := rs |} = Ok (t', r) /\ agrees t' now1 tab1 (rs :: hist) /\
    baseline r = false /\
    observed_calls r = total (fun row => delta_calls (row_delta (Some now0) (baselines t) row)) rs /\
    0 <= observed_calls r <= total (increase tab0) rs /\
    top r = entry_of <$> take MYSQL_QUERY_DIGEST_TOP
              (sort_by_key (fun c : Changed => - timer_wait_ps c.2) (mjoin (changed_of (Some now0) (baselines t) <$> rs))).
Proof.
  intros Ha Hev Hsh Hsmall. pose proof Hsh as (Hnd & Hlen & _).
  destruct (observe_spec t {| server_now_us := now1; rows := rs |} Hnd) as (t' & r & Ho & Hp & Hn & Hc & Hbase & Htop & Hb).
  cbn [server_now_us rows] in *. rewrite (window_start_next _ _ _ _ _ Ha (proj1 Hev)) in *.
  destruct (Hb 200%nat) as [Hsp Hbs]; [unfold QUERY_DIGEST_BASELINE_CAP; lia|unfold MYSQL_QUERY_DIGEST_ROW_LIMIT in *; lia|apply Ha|].
  assert (Hle : forall row, row ∈ rs -> 0 <= delta_calls (row_delta (Some now0) (baselines t) row) <= increase tab0 row).
  { intros row Hr. destruct (row_delta_spec _ _ _ _ _ _ _ _ Ha Hev Hsh Hr) as [Hpos [[_ (d & -> & Hd)]|(_ & _ & ->)]]; cbn; lia. }
  assert (Hb1 : 0 <= total (fun row => delta_calls (row_delta (Some now0) (baselines t) row)) rs)
    by (apply total_nonneg; intros row Hr; by apply Hle).
  assert (Hb2 : total (fun row => delta_calls (row_delta (Some now0) (baselines t) row)) rs <= total (increase tab0) rs)
    by (apply total_le; intros row Hr; by apply Hle).
  rewrite wrap64_small in Hc by lia.
  exists t', r. split_and!; [done|by eapply agrees_step|done|done|lia|lia|done].
Qed.

Lemma polled_agrees t now tab hist seen counted : polled t now tab hist seen counted ->
  agrees t now tab hist /\ 0 <= seen <= counted.
Proof.
  induction 1 as [now tab rs t r Hsh Hcre Ho|t now0 tab0 hist seen counted now1 tab1 rs t' r Hrun [IH IHc] Hev Hsh Hsmall Ho].
  - destruct (agrees_first _ _ _ _ _ Hsh Hcre Ho) as [Ha ->]. split; [done|lia].
  - destruct (poll_step _ _ _ _ _ _ _ IH Hev Hsh Hsmall) as (t2 & r2 & Ho2 & Ha & _ & _ & Hle & _).
    rewrite Ho in Ho2. injection Ho2 as <- <-. split; [done|lia].
Qed.

(** Through any run of polls of a live server the tracker never reports more calls than the
    server counted; the next poll does not panic, and reports exactly what the server counted
    since the last one, when each row it reads is new or was in one of the last ten polls. *)
Theorem digest_calls_exact t now0 tab0 hist seen counted now1 tab1 rs :
  polled t now0 tab0 hist seen counted -> evolves now0 now1 tab0 tab1 rs -> shows tab1 rs ->
  total (increase tab0) rs < 2 ^ 64 ->
  0 <= seen <= counted /\
  exists t' r, observe t {| server_now_us := now1; rows := rs |} = Ok (t', r) /\ baseline r = false /\
    observed_calls r <= total (increase tab0) rs /\
    ((forall row, row ∈ rs -> recent hist (row_key row) \/ forall c0, tab0 !! row_key row <> Some (r_first_seen_us row, c0)) ->
     observed_calls r = total (increase tab0) rs).
Proof.
  intros Hrun Hev Hsh Hsmall. destruct (polled_agrees _ _ _ _ _ _ Hrun) as [Ha Hle]. split; [done|].
  destruct (poll_step _ _ _ _ _ _ _ Ha Hev Hsh Hsmall) as (t' & r & Ho & _ & Hb & Hc & Hbound & _).
  exists t', r. split_and!; [done|done|lia|]. intros Hall. rewrite Hc. apply total_ext. intros row Hr.
  destruct (row_delta_spec _ _ _ _ _ _ _ _ Ha Hev Hsh Hr) as [_ [[_ (d & -> & Hd)]|(Hnone & [c0 Hold] & _)]]; [done|].
  exfalso. destruct (Hall row Hr) as [Hrec|Hnew]; [|by destruct (Hnew c0)].
  apply (tracked_recent _ _ _ _ _ Ha) in Hrec as [b Hbk]. congruence.
Qed.

Lemma total_gap {A} (f g : A -> Z) l x : x ∈ l -> (forall y, y ∈ l -> f y <= g y) -> total f l + (g x - f x) <= total g l.
Proof.
  induction l as [|y l IH]; intros Hx Hle; [by apply not_elem_of_nil in Hx|]. cbn [total].
  assert (f y <= g y) by (apply Hle; left). apply elem_of_cons in Hx as [->|Hx].
  - assert (total f l <= total g l) by (apply total_le; intros; apply Hle; by right). lia.
  - assert (total f l + (g x - f x) <= total g l) by (apply IH; [done|intros; apply Hle; by right]). lia.
Qed.

(** The statements that ran are rows with a difference of at least one call. *)
Lemma changed_from start bs rs c : c ∈ mjoin (changed_of start bs <$> rs) ->
  0 < calls c.2 /\ exists row, row ∈ rs /\ row_key row = (c.1.1, Some c.1.2) /\ row_delta start bs row = Some c.2.
Proof.
  intros (l & Hc & Hl)%list_elem_of_join. apply list_elem_of_fmap in Hl as (row & -> & Hrow). unfold changed_of in Hc.
  destruct (row_delta start bs row) as [d|] eqn:Ed; [|by apply not_elem_of_nil in Hc].
  destruct (r_digest row) as [digest|] eqn:Eg; [|by apply not_elem_of_nil in Hc].
  destruct (0 <? calls d) eqn:E0; [|by apply not_elem_of_nil in Hc]. apply list_elem_of_singleton in Hc as ->. bool_prop.
  split; [done|]. exists row. split_and!; [done| |done]. unfold row_key. cbn. by rewrite Eg.
Qed.

(** A statement that ran, but was in none of the last ten polls, is not reported: its calls
    of the interval are missing from the sum and it is not among the top statements, however
    many they are. *)
Theorem rare_statement_uncounted t now0 tab0 hist seen counted now1 tab1 rs row c0 :
  polled t now0 tab0 hist seen counted -> evolves now0 now1 tab0 tab1 rs -> shows tab1 rs ->
  total (increase tab0) rs < 2 ^ 64 ->
  row ∈ rs -> tab0 !! row_key row = Some (r_first_seen_us row, c0) -> ~ recent hist (row_key row) ->
  exists t' r, observe t {| server_now_us := now1; rows := rs |} = Ok (t', r) /\
    observed_calls r + increase tab0 row <= total (increase tab0) rs /\
    forall e, e ∈ top r -> (e_schema e, Some (e_digest e)) <> row_key row.
Proof.
  intros Hrun Hev Hsh Hsmall Hrow Hold Hrare. destruct (polled_agrees _ _ _ _ _ _ Hrun) as [Ha _].
  destruct (poll_step _ _ _ _ _ _ _ Ha Hev Hsh Hsmall) as (t' & r & Ho & _ & _ & Hc & _ & Htop).
  assert (Hd : row_delta (Some now0) (baselines t) row = None).
  { destruct (row_delta_spec _ _ _ _ _ _ _ _ Ha Hev Hsh Hrow) as [_ [[[Htr|Hnew] _]|(_ & _ & Hd)]]; [|by destruct (Hnew c0)|done].
    by apply (tracked_recent _ _ _ _ _ Ha) in Htr. }
  exists t', r. split_and!; [done| |].
  - rewrite Hc. pose proof (total_gap (fun row => delta_calls (row_delta (Some now0) (baselines t) row)) (increase tab0) rs row Hrow) as Hg.
    cbn beta in Hg. rewrite Hd in Hg. cbn [delta_calls] in Hg. rewrite Z.sub_0_r in Hg. apply Hg. intros y Hy.
    destruct (row_delta_spec _ _ _ _ _ _ _ _ Ha Hev Hsh Hy) as [Hpos [[_ (d & -> & Hdy)]|(_ & _ & ->)]]; cbn; lia.
  - intros e He Hk. rewrite Htop in He. apply list_elem_of_fmap in He as (c & -> & Hin).
    apply elem_of_take in Hin as (i & Hi & _). apply list_elem_of_lookup_2 in Hi. unfold sort_by_key in Hi. rewrite sort_by_Permutation in Hi.
    apply changed_from in Hi as (_ & row' & Hr' & Hk' & Hd'). destruct c as [[schema digest] d]. cbn in *.
    rewrite <- Hk' in Hk. assert (row' = row) as ->; [|congruence].
    destruct Hsh as (Hnd & _). apply list_elem_of_lookup in Hr' as [i1 H1], Hrow as [i2 H2].
    assert (i1 = i2) as ->; [|congruence]. eapply (NoDup_lookup (keys rs)); [done| |]; rewrite list_lookup_fmap; [by rewrite H1|].
    rewrite H2. cbn. by rewrite Hk.
Qed.

(** The tracker remembers at most 2000 baselines at any time, each from the last ten polls. *)
Theorem baselines_bounded t now tab hist seen counted : polled t now tab hist seen counted ->
  (size (baselines t) <= QUERY_DIGEST_BASELINE_CAP)%nat /\
  forall k b, baselines t !! k = Some b -> polls t - 10 < last_poll b <= polls t.
Proof.
  intros Hrun. destruct (polled_agrees _ _ _ _ _ _ Hrun) as [(_ & Hsp & _ & _ & H & _) _].
  assert (Hl : forall k b, baselines t !! k = Some b -> polls t - 10 < last_poll b <= polls t).
  { intros k b Hk. destruct (H k b Hk) as (i & _ & _ & _ & -> & Hi). lia. }
  split; [|done]. pose proof (Hsp 10%nat) as Hs. etrans; [|exact Hs]. apply size_subseteq, map_subseteq_spec.
  intros k b Hk. apply map_lookup_filter_Some. split; [done|]. unfold seen_after. cbn. pose proof (Hl k b Hk). lia.
Qed.

(** The top statements of a poll ran in the interval, and none of the others that ran took
    more time; at most ten are shown, and fewer only when all are. *)
Theorem top_is_heaviest t s t' r : NoDup (row_key <$> rows s) -> observe t s = Ok (t', r) ->
  exists shown rest start bs,
    shown ++ rest ≡ₚ mjoin (changed_of start bs <$> rows s) /\ top r = entry_of <$> shown /\
    (length shown <= MYSQL_QUERY_DIGEST_TOP)%nat /\ (rest = [] \/ length shown = MYSQL_QUERY_DIGEST_TOP) /\
    (forall c, c ∈ shown -> 0 < calls c.2) /\
    forall c c', c ∈ shown -> c' ∈ rest -> timer_wait_ps c'.2 <= timer_wait_ps c.2.
Proof.
  intros Hnd Ho. destruct (observe_spec t s Hnd) as (t2 & r2 & Ho2 & _ & _ & _ & _ & Htop & _).
  rewrite Ho in Ho2. injection Ho2 as <- <-.
  set (start := window_start t (server_now_us s)) in *. set (bs := match start with Some _ => baselines t | None => ∅ end) in *.
  set (key := fun c : Changed => - timer_wait_ps c.2) in *. set (l := mjoin (changed_of start bs <$> rows s)) in *.
  pose proof (sort_by_Permutation (fun x y : Changed => key x <=? key y) l) as Hperm. fold (sort_by_key key l) in Hperm.
  exists (take MYSQL_QUERY_DIGEST_TOP (sort_by_key key l)), (drop MYSQL_QUERY_DIGEST_TOP (sort_by_key key l)), start, bs.
  split_and!.
  - by rewrite take_drop.
  - exact Htop.
  - rewrite length_take. lia.
  - rewrite length_take. destruct (Nat.le_gt_cases (length (sort_by_key key l)) MYSQL_QUERY_DIGEST_TOP); [left; apply drop_ge; lia|right; lia].
  - intros c Hc. apply elem_of_take in Hc as (i & Hi & _). apply list_elem_of_lookup_2 in Hi. rewrite Hperm in Hi. by apply changed_from in Hi as [? _].
  - intros c c' Hc Hc'. pose proof (sort_by_key_sorted key l) as Hs.
    rewrite <- (take_drop MYSQL_QUERY_DIGEST_TOP (sort_by_key key l)) in Hs.
    pose proof (StronglySorted_app_1_elem_of _ _ _ _ _ Hs Hc Hc') as Hle. subst key. cbn in Hle. lia.
Qed.

(** ** A concrete run *)

Definition tracker_after (t : QueryDigestTracker) (s : DigestSnapshot) : QueryDigestTracker :=
  match observe t s with Ok (t', _) => t' | _ => t end.
Definition report_of (t : QueryDigestTracker) (s : DigestSnapshot) : option QueryDigestReport :=
  match observe t s with Ok (_, r) => Some r | _ => None end.

Lemma observe_ok t s : exists r, observe t s = Ok (tracker_after t s, r).
Proof.
  unfold tracker_after. destruct (observe t s) as [[t' r]|[]|] eqn:E; [by eexists|exfalso..]; unfold observe in E;
    destruct (observe_rows _ _ _ _ _) as [bs a];
    destruct (digest_evict_spec {| previous_now_us := Some (server_now_us s); polls := polls t + 1; baselines := bs; texts := texts t |})
      as (t' & Ht & _); rewrite Ht in E; discriminate E.
Qed.

(** Polls that show nothing while the table rests. *)
Lemma polled_idle n t now tab hist seen counted : polled t now tab hist seen counted ->
  (forall k f c, tab !! k = Some (f, c) -> f < now) ->
  exists t' seen', polled t' (now + 60000000 * Z.of_nat n) tab (replicate n [] ++ hist) seen' counted.
Proof.
  intros Hrun Hcre. induction n as [|n IH].
  - exists t, seen. by rewrite Z.add_0_r.
  - destruct IH as (t1 & seen1 & Hrun1).
    destruct (observe_ok t1 {| server_now_us := now + 60000000 * Z.of_nat (S n); rows := [] |}) as [r Hr].
    assert (Hlater : forall k f c, tab !! k = Some (f, c) -> f < now + 60000000 * Z.of_nat (S n))
      by (intros k f c Hk; specialize (Hcre _ _ _ Hk); lia).
    eexists _, _. replace counted with (counted + total (increase tab) []) by (cbn; lia).
    eapply polled_next; [exact Hrun1| | |done|exact Hr].
    + split_and!; [lia|unfold QUERY_DIGEST_STALE_AFTER_US, WORKLOAD_SAMPLE_INTERVAL_SECS, MICROS_PER_SEC; lia|exact Hlater|].
      intros k f c Hk. left. exists c. split_and!; [done|lia|done].
    + split_and!; [constructor|done|]. intros row Hrow. by apply not_elem_of_nil in Hrow.
Qed.

Definition demo_counters (n : Z) : DigestCounters := {|
  calls := n; timer_wait_ps := n * 1000000; lock_time_ps := 0; errors := 0; rows_examined := n; rows_sent := n; no_index_used := 0 |}.
Definition demo_row (n : Z) : DigestRow :=
  {| r_schema := None; r_digest := Some (lit "d"); r_counters := demo_counters n; r_first_seen_us := 5 |}.
Definition demo_table (n : Z) : Table := {[ (None, Some (lit "d")) := (5, demo_counters n) ]}.
Definition demo_poll (now : Z) (n : Z) : DigestSnapshot := {| server_now_us := now; rows := [demo_row n] |}.

Lemma demo_lookup n k f c : demo_table n !! k = Some (f, c) -> k = (None, Some (lit "d")) /\ f = 5 /\ c = demo_counters n.
Proof. unfold demo_table. intros [<- [= <- <-]]%lookup_singleton_Some. done. Qed.

Lemma demo_shows n : shows (demo_table n) [demo_row n].
Proof.
  split_and!; [apply NoDup_singleton|done|]. intros row ->%list_elem_of_singleton. apply lookup_singleton_eq.
Qed.

Lemma demo_evolves now0 now1 n0 n1 : 5 < now0 -> now0 < now1 <= now0 + QUERY_DIGEST_STALE_AFTER_US -> n0 <= n1 ->
  evolves now0 now1 (demo_table n0) (demo_table n1) [demo_row n1].
Proof.
  intros H0 H1 Hn. split_and!; [lia|lia| |].
  - intros k f c (_ & -> & _)%demo_lookup. lia.
  - intros k f c (-> & -> & ->)%demo_lookup. left. exists (demo_counters n0).
    split_and!; [apply lookup_singleton_eq|done|]. intros Hno. exfalso. apply Hno. by left.
Qed.

Lemma demo_start : exists t r, polled t 1000000 (demo_table 3) [[demo_row 3]] (observed_calls r) 0 /\
  observe new_tracker (demo_poll 1000000 3) = Ok (t, r).
Proof.
  destruct (observe_ok new_tracker (demo_poll 1000000 3)) as [r Hr]. eexists _, r. split; [|exact Hr].
  eapply polled_first; [apply demo_shows| |exact Hr]. intros k f c (_ & -> & _)%demo_lookup. by left.
Qed.

Lemma digest_calls_exact_witness : exists t t' r,
  polled t 1000000 (demo_table 3) [[demo_row 3]] 0 0 /\
  observe t (demo_poll 61000000 7) = Ok (t', r) /\ observed_calls r = 4.
Proof.
  destruct demo_start as (t & r & Hrun & _).
  destruct (digest_calls_exact t 1000000 (demo_table 3) [[demo_row 3]] (observed_calls r) 0 61000000 (demo_table 7) [demo_row 7])
    as (Hle & t' & r' & Ho & _ & _ & Hx); [done|by apply demo_evolves|apply demo_shows|vm_compute; reflexivity|].
  assert (H0 : observed_calls r = 0) by lia. rewrite H0 in Hrun. exists t, t', r'. split_and!; [done|done|].
  rewrite Hx; [vm_compute; reflexivity|]. intros row ->%list_elem_of_singleton. left. exists [demo_row 3]. split; by left.
Defined.

Lemma rare_statement_uncounted_witness : exists t seen now hist t' r,
  polled t now (demo_table 3) hist seen 0 /\
  observe t (demo_poll (now + 60000000) 1000000) = Ok (t', r) /\
  observed_calls r + 999997 <= 999997 /\ forall e, e ∈ top r -> (e_schema e, Some (e_digest e)) <> (None, Some (lit "d")).
Proof.
  destruct demo_start as (t0 & r0 & Hrun0 & _).
  destruct (polled_idle 10 _ _ _ _ _ _ Hrun0) as (t & seen & Hrun).
  { intros k f c (_ & -> & _)%demo_lookup. lia. }
  destruct (rare_statement_uncounted t 601000000 (demo_table 3) (replicate 10 [] ++ [[demo_row 3]]) seen 0
              661000000 (demo_table 1000000) [demo_row 1000000] (demo_row 1000000) (demo_counters 3))
    as (t' & r & Ho & Hle & Htop);
    [exact Hrun|by apply demo_evolves|apply demo_shows|vm_compute; reflexivity|by left|apply lookup_singleton_eq| |].
  { intros (rs & Hrs & Hk). change (take 10 _) with (replicate 10 ([] : list DigestRow)) in Hrs.
    apply elem_of_replicate in Hrs as [-> _]. by apply not_elem_of_nil in Hk. }
  exists t, seen, 601000000, (replicate 10 [] ++ [[demo_row 3]]), t', r. split_and!; [exact Hrun|exact Ho| |exact Htop].
  replace (increase (demo_table 3) (demo_row 1000000)) with 999997 in Hle by (vm_compute; reflexivity).
  replace (total (increase (demo_table 3)) [demo_row 1000000]) with 999997 in Hle by (vm_compute; reflexivity). exact Hle.
Defined.

Lemma baselines_bounded_witness : exists t seen,
  polled t 1000000 (demo_table 3) [[demo_row 3]] seen 0 /\ (size (baselines t) <= QUERY_DIGEST_BASELINE_CAP)%nat.
Proof.
  destruct demo_start as (t & r & Hrun & _). exists t, (observed_calls r). split; [done|]. by eapply baselines_bounded.
Defined.

Lemma top_is_heaviest_witness : exists t' r shown rest start bs,
  observe new_tracker (demo_poll 1000000 3) = Ok (t', r) /\
  shown ++ rest ≡ₚ mjoin (changed_of start bs <$> [demo_row 3]) /\ top r = entry_of <$> shown.
Proof.
  destruct (observe_ok new_tracker (demo_poll 1000000 3)) as [r Hr].
  destruct (top_is_heaviest new_tracker (demo_poll 1000000 3) _ r ltac:(apply NoDup_singleton) Hr) as (shown & rest & start & bs & H1 & H2 & _).
  exists (tracker_after new_tracker (demo_poll 1000000 3)), r, shown, rest, start, bs. exact (conj Hr (conj H1 H2)).
Defined.
