(* ===== verification/Workload.v ===== *)
(** * Answers of monitored services

    The text and protocol parsers of aic-common/src/workload.rs: what Redis, Memcached,
    Prometheus, ClickHouse, etcd, Elasticsearch, RabbitMQ, nginx, HAProxy, PostgreSQL and MySQL
    answer becomes a record of counters or an error. A connection is the bytes the service
    sends before it closes or fails; the CSV reader is a parameter. *)

From S2P Require Import Prelude RustStr JsonValue.

Local Open Scope outcome_scope.

Inductive WorkloadProbeError :=
| Unreachable (detail : str)
| Rejected (detail : str)
| MalformedResponse (detail : str).

Abbreviation probe A := (outcome A WorkloadProbeError).

Definition malformed {A} (detail : str) : probe A := Err (MalformedResponse detail).

Record RedisMetrics := {
  connected_clients : Z; used_memory : Z; total_commands_processed : Z; instantaneous_ops_per_sec : Z;
  keyspace_hits : Z; keyspace_misses : Z }.

Record MemcachedMetrics := {
  curr_connections : Z; mc_bytes : Z; cmd_get : Z; cmd_set : Z; get_hits : Z; get_misses : Z; evictions : Z }.

Record PrometheusMetrics := {
  config_last_reload_successful : Z; tsdb_head_series : Z; tsdb_head_chunks : Z;
  tsdb_head_samples_appended_total : Z; engine_queries : Z; pm_resident_memory_bytes : Z;
  process_virtual_memory_bytes : Z; go_goroutines : Z }.

Record ClickHouseMetrics := {
  queries : Z; merges : Z; part_mutations : Z; replicated_fetches : Z; replicated_sends : Z;
  tcp_connections : Z; http_connections : Z; memory_tracking_bytes : Z; uptime_seconds : Z;
  memory_resident_bytes : Z }.

Record EtcdMetrics := {
  server_has_leader : Z; server_is_leader : Z; leader_changes_seen_total : Z; proposals_applied_total : Z;
  proposals_committed_total : Z; proposals_failed_total : Z; proposals_pending : Z;
  mvcc_db_total_size_bytes : Z; mvcc_db_total_size_in_use_bytes : Z; et_resident_memory_bytes : Z }.

Record SearchMetrics := {
  nodes_total : Z; indices_count : Z; shards_total : Z; shards_primaries : Z; docs_count : Z;
  docs_deleted : Z; store_size_bytes : Z; fs_total_bytes : Z; fs_available_bytes : Z }.

Record RabbitMqMetrics := {
  messages : Z; messages_ready : Z; messages_unacknowledged : Z; rq_queues : Z; rq_connections : Z;
  channels : Z; consumers : Z; exchanges : Z; message_stats_publish_total : Z;
  message_stats_deliver_get_total : Z }.

Record NginxMetrics := {
  active_connections : Z; accepts_total : Z; handled_total : Z; requests_total : Z; reading : Z;
  writing : Z; waiting : Z }.

Record HaProxyMetrics := {
  current_sessions : Z; sessions_total : Z; bytes_in_total : Z; bytes_out_total : Z;
  denied_requests_total : Z; denied_responses_total : Z; failed_connections_total : Z;
  retry_warnings_total : Z; servers_down : Z }.

Record MySqlMetrics := {
  threads_connected : Z; threads_running : Z; my_connections : Z; aborted_connects : Z; questions : Z;
  slow_queries : Z; bytes_received : Z; bytes_sent : Z }.

Record PostgreSqlMetrics := {
  numbackends : Z; xact_commit : Z; xact_rollback : Z; blks_read : Z; blks_hit : Z; tup_returned : Z;
  tup_fetched : Z; tup_inserted : Z; tup_updated : Z; tup_deleted : Z; conflicts : Z; temp_files : Z;
  temp_bytes : Z; deadlocks : Z }.

(** ** Numbers of the exposition format *)

Definition i32_checked (n : Z) : option Z := if (i32_min <=? n) && (n <=? i32_max) then Some n else None.

Definition strip_plus (s : str) : str := match s with x2b :: rest => rest | _ => s end.

Definition is_exponent_mark (b : byte) : bool := bool_decide (b = x65) || bool_decide (b = x45).

Fixpoint find_byte_where (p : byte -> bool) (s : str) : option nat :=
  match s with [] => None | b :: s => if p b then Some O else S <$> find_byte_where p s end.

(** Mantissa and exponent. *)
Definition split_exponent (value : str) : option (str * Z) :=
  match find_byte_where is_exponent_mark value with
  | Some index => exponent ← parse_i32 (drop (S index) value); Some (take index value, exponent)
  | None => Some (value, 0)
  end.

(** The loop over the characters of the mantissa: the digits, and how many follow the point. *)
Fixpoint mantissa_loop (s : str) (digits : str) (fractional : Z) (seen_decimal : bool) : option (str * Z) :=
  match s with
  | [] => Some (digits, fractional)
  | c :: s =>
      if is_ascii_digit c then
        fractional ← (if seen_decimal then i32_checked (fractional + 1) else Some fractional);
        mantissa_loop s (digits ++ [c]) fractional seen_decimal
      else if bool_decide (c = x2e) && negb seen_decimal then mantissa_loop s digits fractional true
      else None
  end.

Definition all_zero (s : str) : bool := forallb (fun b => bool_decide (b = x30)) s.

Definition checked_mul64 (a b : Z) : option Z := if a * b <? 2 ^ 64 then Some (a * b) else None.
Definition checked_add64 (a b : Z) : option Z := if a + b <? 2 ^ 64 then Some (a + b) else None.

Definition parse_exposition_u64 (value : str) : option Z :=
  let value := strip_plus value in
  if bool_decide (value = []) || starts_with (lit "-") value then None
  else
    '(mantissa, exponent) ← split_exponent value;
    '(digits, fractional_digits) ← mantissa_loop mantissa [] 0 false;
    if bool_decide (digits = []) then None
    else if all_zero digits then Some 0
    else
      scale ← i32_checked (exponent - fractional_digits);
      digits ← (if scale <? 0 then
                  remove ← i32_checked (- scale);
                  let keep := Z.of_nat (length digits) - remove in
                  if keep <? 0 then None
                  else if negb (all_zero (drop (Z.to_nat keep) digits)) then None
                  else Some (take (Z.to_nat keep) digits)
                else Some digits);
      result ← (if bool_decide (digits = []) then Some 0 else parse_u64 digits);
      if 0 <? scale then
        if (19 <? scale) || (20 <? Z.of_nat (length (drop_while (fun b => bool_decide (b = x30)) digits)) + scale) then None
        else power ← (if 10 ^ scale <? 2 ^ 64 then Some (10 ^ scale) else None); checked_mul64 result power
      else Some result.

(** ** Prometheus and etcd *)

(** [split_ascii_whitespace] *)
Definition ascii_fields (s : str) : list str :=
  filter (fun f => f <> []) (foldr (fun b acc => if is_ascii_whitespace b then [] :: acc
                                                  else match acc with f :: acc => (b :: f) :: acc | [] => [[b]] end) [[]] s).

Definition metric_name (line : str) : str :=
  match find_byte_where (fun b => bool_decide (b = x7b) || is_ascii_whitespace b) line with
  | Some name_end => take name_end line
  | None => line
  end.

(** The scan both services share; [service] is what its messages begin with. *)
Fixpoint exposition_values (service : str) (required : list str) (check : str -> Z -> probe unit) (ls : list str)
    (values : gmap str Z) : probe (gmap str Z) :=
  match ls with
  | [] => Ok values
  | line :: ls =>
      let line := trim line in
      if bool_decide (line = []) || starts_with (lit "#") line then exposition_values service required check ls values
      else
        let name := metric_name line in
        if negb (bool_decide (name ∈ required)) then exposition_values service required check ls values
        else if starts_with (lit "{") (drop (length name) line)
        then malformed (service ++ lit " required metric contains labels: " ++ name)
        else match ascii_fields line with
             | [_; field] =>
                 if bool_decide (is_Some (values !! name))
                 then malformed (service ++ lit " required metric is duplicate or malformed: " ++ name)
                 else
                   let? value := ok_or (parse_exposition_u64 field)
                                   (MalformedResponse (service ++ lit " metric is not a u64: " ++ name)) in
                   let? _ := check name value in
                   exposition_values service required check ls (<[name := value]> values)
             | _ => malformed (service ++ lit " required metric is duplicate or malformed: " ++ name)
             end
  end.

Definition take_metric {A} (service : str) (values : gmap str A) (name : str) : probe A :=
  ok_or (values !! name) (MalformedResponse (service ++ lit " response is missing " ++ name)).

Definition PROMETHEUS_REQUIRED : list str :=
  [lit "prometheus_config_last_reload_successful"; lit "prometheus_tsdb_head_series"; lit "prometheus_tsdb_head_chunks";
   lit "prometheus_tsdb_head_samples_appended_total"; lit "prometheus_engine_queries"; lit "process_resident_memory_bytes";
   lit "process_virtual_memory_bytes"; lit "go_goroutines"].

Definition parse_prometheus_metrics (body : str) : probe PrometheusMetrics :=
  let? values := exposition_values (lit "Prometheus") PROMETHEUS_REQUIRED (fun _ _ => Ok tt) (lines body) ∅ in
  let take := take_metric (lit "Prometheus") values in
  let? v1 := take (lit "prometheus_config_last_reload_successful") in
  let? v2 := take (lit "prometheus_tsdb_head_series") in
  let? v3 := take (lit "prometheus_tsdb_head_chunks") in
  let? v4 := take (lit "prometheus_tsdb_head_samples_appended_total") in
  let? v5 := take (lit "prometheus_engine_queries") in
  let? v6 := take (lit "process_resident_memory_bytes") in
  let? v7 := take (lit "process_virtual_memory_bytes") in
  let? v8 := take (lit "go_goroutines") in
  Ok {| config_last_reload_successful := v1; tsdb_head_series := v2; tsdb_head_chunks := v3;
        tsdb_head_samples_appended_total := v4; engine_queries := v5; pm_resident_memory_bytes := v6;
        process_virtual_memory_bytes := v7; go_goroutines := v8 |}.

Definition ETCD_REQUIRED : list str :=
  [lit "etcd_server_has_leader"; lit "etcd_server_is_leader"; lit "etcd_server_leader_changes_seen_total";
   lit "etcd_server_proposals_applied_total"; lit "etcd_server_proposals_committed_total";
   lit "etcd_server_proposals_failed_total"; lit "etcd_server_proposals_pending"; lit "etcd_mvcc_db_total_size_in_bytes";
   lit "etcd_mvcc_db_total_size_in_use_in_bytes"; lit "process_resident_memory_bytes"].

(** The leader gauges are 0 or 1. *)
Definition leader_gauge (name : str) (value : Z) : probe unit :=
  if bool_decide (name ∈ [lit "etcd_server_has_leader"; lit "etcd_server_is_leader"]) && (1 <? value)
  then malformed (lit "etcd leader gauge is not 0 or 1: " ++ name) else Ok tt.

Definition parse_etcd_metrics (body : str) : probe EtcdMetrics :=
  let? values := exposition_values (lit "etcd") ETCD_REQUIRED leader_gauge (lines body) ∅ in
  let take := take_metric (lit "etcd") values in
  let? v1 := take (lit "etcd_server_has_leader") in
  let? v2 := take (lit "etcd_server_is_leader") in
  let? v3 := take (lit "etcd_server_leader_changes_seen_total") in
  let? v4 := take (lit "etcd_server_proposals_applied_total") in
  let? v5 := take (lit "etcd_server_proposals_committed_total") in
  let? v6 := take (lit "etcd_server_proposals_failed_total") in
  let? v7 := take (lit "etcd_server_proposals_pending") in
  let? v8 := take (lit "etcd_mvcc_db_total_size_in_bytes") in
  let? v9 := take (lit "etcd_mvcc_db_total_size_in_use_in_bytes") in
  let? v10 := take (lit "process_resident_memory_bytes") in
  Ok {| server_has_leader := v1; server_is_leader := v2; leader_changes_seen_total := v3; proposals_applied_total := v4;
        proposals_committed_total := v5; proposals_failed_total := v6; proposals_pending := v7;
        mvcc_db_total_size_bytes := v8; mvcc_db_total_size_in_use_bytes := v9; et_resident_memory_bytes := v10 |}.

(** ** ClickHouse *)

Definition CLICKHOUSE_REQUIRED : list str :=
  [lit "Query"; lit "Merge"; lit "PartMutation"; lit "ReplicatedFetch"; lit "ReplicatedSend"; lit "TCPConnection";
   lit "HTTPConnection"; lit "MemoryTracking"; lit "Uptime"; lit "MemoryResident"].

Definition clickhouse_bad_row : str := lit "ClickHouse metrics contain an unknown, duplicate, or malformed row".

Fixpoint clickhouse_values (ls : list str) (values : gmap str Z) : probe (gmap str Z) :=
  match ls with
  | [] => Ok values
  | line :: ls =>
      if bool_decide (line = []) then clickhouse_values ls values
      else match split_byte x09 line with
           | name :: value :: more =>
               if negb (bool_decide (more = [])) || negb (bool_decide (name ∈ CLICKHOUSE_REQUIRED))
               then malformed clickhouse_bad_row
               else
                 let? v := ok_or (parse_u64 value) (MalformedResponse (lit "ClickHouse metric is not a u64: " ++ name)) in
                 if bool_decide (is_Some (values !! name)) then malformed clickhouse_bad_row
                 else clickhouse_values ls (<[name := v]> values)
           | _ => malformed (lit "ClickHouse metrics row is malformed")
           end
  end.

Definition parse_clickhouse_metrics (body : str) : probe ClickHouseMetrics :=
  let? values := clickhouse_values (lines body) ∅ in
  guard (size values =? length CLICKHOUSE_REQUIRED)%nat else MalformedResponse (lit "ClickHouse metrics are incomplete") in
  let take := take_metric (lit "ClickHouse") values in
  let? v1 := take (lit "Query") in
  let? v2 := take (lit "Merge") in
  let? v3 := take (lit "PartMutation") in
  let? v4 := take (lit "ReplicatedFetch") in
  let? v5 := take (lit "ReplicatedSend") in
  let? v6 := take (lit "TCPConnection") in
  let? v7 := take (lit "HTTPConnection") in
  let? v8 := take (lit "MemoryTracking") in
  let? v9 := take (lit "Uptime") in
  let? v10 := take (lit "MemoryResident") in
  Ok {| queries := v1; merges := v2; part_mutations := v3; replicated_fetches := v4; replicated_sends := v5;
        tcp_connections := v6; http_connections := v7; memory_tracking_bytes := v8; uptime_seconds := v9;
        memory_resident_bytes := v10 |}.

(** ** Elasticsearch, OpenSearch and RabbitMQ *)

Fixpoint value_at (v : Value) (path : list str) : option Value :=
  match path with [] => Some v | segment :: path => v ← value_get v segment; value_at v path end.

(** The closure [metric] of both parsers. *)
Definition json_metric (service : str) (value : Value) (path : list str) : probe Z :=
  let? current := ok_or (value_at value path) (MalformedResponse (service ++ lit " response is missing " ++ join (lit ".") path)) in
  ok_or (as_u64 current) (MalformedResponse (service ++ lit " metric is not a u64: " ++ join (lit ".") path)).

Definition parse_search_metrics (value : Value) : probe SearchMetrics :=
  let metric := json_metric (lit "search") value in
  let? nodes_total := metric [lit "nodes"; lit "count"; lit "total"] in
  let? node_total := metric [lit "_nodes"; lit "total"] in
  let? successful := metric [lit "_nodes"; lit "successful"] in
  let? failed := metric [lit "_nodes"; lit "failed"] in
  let? indices_count := metric [lit "indices"; lit "count"] in
  let? shards_total := metric [lit "indices"; lit "shards"; lit "total"] in
  let? shards_primaries := metric [lit "indices"; lit "shards"; lit "primaries"] in
  let? docs_count := metric [lit "indices"; lit "docs"; lit "count"] in
  let? docs_deleted := metric [lit "indices"; lit "docs"; lit "deleted"] in
  let? store_size_bytes := metric [lit "indices"; lit "store"; lit "size_in_bytes"] in
  let? fs_total_bytes := metric [lit "nodes"; lit "fs"; lit "total_in_bytes"] in
  let? fs_available_bytes := metric [lit "nodes"; lit "fs"; lit "available_in_bytes"] in
  guard negb (negb (failed =? 0) || negb (bool_decide (checked_add64 successful failed = Some node_total))
              || negb (nodes_total =? successful) || (shards_total <? shards_primaries) || (fs_total_bytes <? fs_available_bytes))
    else MalformedResponse (lit "search response invariants failed") in
  Ok {| nodes_total := nodes_total; indices_count := indices_count; shards_total := shards_total;
        shards_primaries := shards_primaries; docs_count := docs_count; docs_deleted := docs_deleted;
        store_size_bytes := store_size_bytes; fs_total_bytes := fs_total_bytes; fs_available_bytes := fs_available_bytes |}.

Definition optional_message_metric (value : Value) (key : str) : probe Z :=
  match value_get value (lit "message_stats") with
  | None => Ok 0
  | Some (VObject stats) =>
      match get key stats with
      | None => Ok 0
      | Some metric => ok_or (as_u64 metric) (MalformedResponse (lit "RabbitMQ message_stats metric is not a u64: " ++ key))
      end
  | Some _ => malformed (lit "RabbitMQ message_stats is not an object")
  end.

Definition parse_rabbitmq_metrics (value : Value) : probe RabbitMqMetrics :=
  let metric := json_metric (lit "RabbitMQ") value in
  let? v1 := metric [lit "queue_totals"; lit "messages"] in
  let? v2 := metric [lit "queue_totals"; lit "messages_ready"] in
  let? v3 := metric [lit "queue_totals"; lit "messages_unacknowledged"] in
  let? v4 := metric [lit "object_totals"; lit "queues"] in
  let? v5 := metric [lit "object_totals"; lit "connections"] in
  let? v6 := metric [lit "object_totals"; lit "channels"] in
  let? v7 := metric [lit "object_totals"; lit "consumers"] in
  let? v8 := metric [lit "object_totals"; lit "exchanges"] in
  let? v9 := optional_message_metric value (lit "publish") in
  let? v10 := optional_message_metric value (lit "deliver_get") in
  Ok {| messages := v1; messages_ready := v2; messages_unacknowledged := v3; rq_queues := v4; rq_connections := v5;
        channels := v6; consumers := v7; exchanges := v8; message_stats_publish_total := v9;
        message_stats_deliver_get_total := v10 |}.

(** ** nginx *)

Definition strip_prefix (p s : str) : option str := if starts_with p s then Some (drop (length p) s) else None.

Definition parse_nginx_stub_status (body : str) : probe NginxMetrics :=
  match lines body with
  | [l0; l1; l2; l3] =>
      let? active_connections := ok_or (value ← strip_prefix (lit "Active connections: ") l0; parse_u64 (trim value))
                                   (MalformedResponse (lit "Nginx active connections is invalid")) in
      guard bool_decide (trim l1 = lit "server accepts handled requests")
        else MalformedResponse (lit "Nginx stub status header is invalid") in
      let? totals := ok_or (mapM parse_u64 (ascii_fields l2)) (MalformedResponse (lit "Nginx totals are invalid")) in
      match totals with
      | [t0; t1; t2] =>
          match ascii_fields l3 with
          | [f0; f1; f2; f3; f4; f5] =>
              guard bool_decide (f0 = lit "Reading:") && bool_decide (f2 = lit "Writing:") && bool_decide (f4 = lit "Waiting:")
                else MalformedResponse (lit "Nginx connection states are invalid") in
              match parse_u64 f1, parse_u64 f3, parse_u64 f5 with
              | Some reading, Some writing, Some waiting =>
                  let state_total := value ← checked_add64 reading writing; checked_add64 value waiting in
                  guard negb ((t0 <? t1) || negb (bool_decide (state_total = Some active_connections)))
                    else MalformedResponse (lit "Nginx stub status invariants failed") in
                  Ok {| active_connections := active_connections; accepts_total := t0; handled_total := t1;
                        requests_total := t2; reading := reading; writing := writing; waiting := waiting |}
              | _, _, _ => malformed (lit "Nginx connection state value is invalid")
              end
          | _ => malformed (lit "Nginx connection states are invalid")
          end
      | _ => malformed (lit "Nginx totals field count is invalid")
      end
  | _ => malformed (lit "Nginx stub status must contain four lines")
  end.

(** ** HAProxy *)

Definition HAPROXY_REQUIRED : list str :=
  [lit "pxname"; lit "svname"; lit "scur"; lit "stot"; lit "bin"; lit "bout"; lit "dreq"; lit "dresp"; lit "econ";
   lit "wretr"; lit "status"].

Fixpoint trim_start_byte (c : byte) (s : str) : str :=
  match s with b :: rest => if bool_decide (b = c) then trim_start_byte c rest else s | [] => [] end.

Definition header_matches (name : str) (index : nat) (value : str) : bool :=
  match index with
  | O => bool_decide (trim (trim_start_byte x23 value) = name)
  | S _ => bool_decide (value = name)
  end.

(** The one column of a name. *)
Definition column (headers : list str) (name : str) : probe nat :=
  match filter (fun iv => header_matches name iv.1 iv.2 = true) (imap pair headers) with
  | [(index, _)] => Ok index
  | _ => malformed (lit "HAProxy CSV required header is missing or duplicate")
  end.

Fixpoint columns (headers : list str) (names : list str) : probe (gmap str nat) :=
  match names with
  | [] => Ok ∅
  | name :: names => let? i := column headers name in let? m := columns headers names in Ok (<[name := i]> m)
  end.

Section HaProxy.
(** The CSV reader: the header row and the records, each a list of trimmed fields or an error. *)
Variable csv : str -> option (list str) * list (option (list str)).

Definition field (indices : gmap str nat) (record : list str) (name : str) : probe str :=
  ok_or (i ← indices !! name; record !! i) (MalformedResponse (lit "HAProxy CSV record is incomplete")).

Definition number (indices : gmap str nat) (record : list str) (name : str) : probe Z :=
  let? value := field indices record name in
  if bool_decide (value = []) then Ok 0
  else ok_or (parse_u64 value) (MalformedResponse (lit "HAProxy metric is not a u64: " ++ name)).

Definition add (target value : Z) : probe Z :=
  ok_or (checked_add64 target value) (MalformedResponse (lit "HAProxy metric sum overflowed")).

Definition no_sessions : HaProxyMetrics := {|
  current_sessions := 0; sessions_total := 0; bytes_in_total := 0; bytes_out_total := 0; denied_requests_total := 0;
  denied_responses_total := 0; failed_connections_total := 0; retry_warnings_total := 0; servers_down := 0 |}.

(** One record; the flag tells whether it is an aggregate. *)
Definition haproxy_record (indices : gmap str nat) (record : list str) (m : HaProxyMetrics) : probe (HaProxyMetrics * bool) :=
  let? svname := field indices record (lit "svname") in
  let? status := field indices record (lit "status") in
  let number := number indices record in
  if bool_decide (svname = lit "FRONTEND") then
    let? v := number (lit "scur") in let? scur := add (current_sessions m) v in
    let? v := number (lit "stot") in let? stot := add (sessions_total m) v in
    let? v := number (lit "bin") in let? bin := add (bytes_in_total m) v in
    let? v := number (lit "bout") in let? bout := add (bytes_out_total m) v in
    let? v := number (lit "dreq") in let? dreq := add (denied_requests_total m) v in
    Ok ({| current_sessions := scur; sessions_total := stot; bytes_in_total := bin; bytes_out_total := bout;
           denied_requests_total := dreq; denied_responses_total := denied_responses_total m;
           failed_connections_total := failed_connections_total m; retry_warnings_total := retry_warnings_total m;
           servers_down := servers_down m |}, true)
  else if bool_decide (svname = lit "BACKEND") then
    let? v := number (lit "dresp") in let? dresp := add (denied_responses_total m) v in
    let? v := number (lit "econ") in let? econ := add (failed_connections_total m) v in
    let? v := number (lit "wretr") in let? wretr := add (retry_warnings_total m) v in
    Ok ({| current_sessions := current_sessions m; sessions_total := sessions_total m; bytes_in_total := bytes_in_total m;
           bytes_out_total := bytes_out_total m; denied_requests_total := denied_requests_total m;
           denied_responses_total := dresp; failed_connections_total := econ; retry_warnings_total := wretr;
           servers_down := servers_down m |}, true)
  else if bool_decide (status ∈ [lit "DOWN"; lit "MAINT"]) then
    let? down := add (servers_down m) 1 in
    Ok ({| current_sessions := current_sessions m; sessions_total := sessions_total m; bytes_in_total := bytes_in_total m;
           bytes_out_total := bytes_out_total m; denied_requests_total := denied_requests_total m;
           denied_responses_total := denied_responses_total m; failed_connections_total := failed_connections_total m;
           retry_warnings_total := retry_warnings_total m; servers_down := down |}, false)
  else Ok (m, false).

Fixpoint haproxy_records (indices : gmap str nat) (records : list (option (list str))) (m : HaProxyMetrics) (aggregates : Z)
    : probe (HaProxyMetrics * Z) :=
  match records with
  | [] => Ok (m, aggregates)
  | None :: _ => malformed (lit "HAProxy CSV record is invalid")
  | Some record :: records =>
      let? (m, aggregate) := haproxy_record indices record m in
      haproxy_records indices records m (if aggregate : bool then aggregates + 1 else aggregates)
  end.

Definition parse_haproxy_stats (text : str) : probe HaProxyMetrics :=
  let text := reverse (drop_while (fun b => bool_decide (b = x0d) || bool_decide (b = x0a)) (reverse text)) in
  let '(headers, records) := csv text in
  let? headers := ok_or headers (MalformedResponse (lit "HAProxy CSV header is invalid")) in
  let? indices := columns headers HAPROXY_REQUIRED in
  let? (m, aggregates) := haproxy_records indices records no_sessions 0 in
  guard negb (aggregates =? 0) else MalformedResponse (lit "HAProxy CSV has no aggregate rows") in
  Ok m.
End HaProxy.
