(* ===== verification/WorkloadWire.v ===== *)
(** * Connections to monitored services

    The byte protocols of aic-common/src/workload.rs: RESP as the Redis probe speaks it, the
    stats protocol of Memcached, the size-limited reading of an HTTP body, and the rows of
    PostgreSQL and MySQL. *)

From S2P Require Import Prelude RustStr Workload.

Local Open Scope outcome_scope.

Definition REDIS_INFO_REQUEST : str := lit "*1" ++ [x0d; x0a] ++ lit "$4" ++ [x0d; x0a] ++ lit "INFO" ++ [x0d; x0a].
Definition REDIS_SERVER_INFO_REQUEST : str :=
  lit "*2" ++ [x0d; x0a] ++ lit "$4" ++ [x0d; x0a] ++ lit "INFO" ++ [x0d; x0a] ++ lit "$6" ++ [x0d; x0a] ++ lit "SERVER" ++ [x0d; x0a].
Definition MEMCACHED_STATS_REQUEST : str := lit "stats" ++ [x0d; x0a].
Definition REDIS_RESPONSE_BYTES : nat := Z.to_nat (64 * 1024).
Definition MEMCACHED_RESPONSE_BYTES : nat := Z.to_nat (64 * 1024).
Definition CRLF : str := [x0d; x0a].

(** ** A connection *)

(** What the service will still send, how reading ends after that, what has been sent to it,
    and whether it can still be written to. *)
Inductive ending := Closed | ReadError (message : str).

Record Conn := { incoming : str; at_end : ending; sent : str; write_error : option str }.

Definition end_message (e : ending) : str :=
  match e with Closed => lit "failed to fill whole buffer" | ReadError m => m end.

Definition read_exact (n : nat) (c : Conn) : outcome (str * Conn) ending :=
  if (n <=? length (incoming c))%nat
  then Ok (take n (incoming c), {| incoming := drop n (incoming c); at_end := at_end c; sent := sent c; write_error := write_error c |})
  else Err (at_end c).

(** [.map_err(unreachable)] *)
Definition or_unreachable {A} (r : outcome A ending) : probe A :=
  match r with Ok a => Ok a | Err e => Err (Unreachable (end_message e)) | Panic => Panic end.

Definition write_all (bytes : str) (c : Conn) : probe Conn :=
  match write_error c with
  | Some m => Err (Unreachable m)
  | None => Ok {| incoming := incoming c; at_end := at_end c; sent := sent c ++ bytes; write_error := None |}
  end.

(** ** RESP *)

Definition exceeded : WorkloadProbeError := MalformedResponse (lit "Redis INFO response exceeded the byte cap").

(** [String::from_utf8]; the message is the library's. *)
Definition string_from_utf8 (message : str) (s : str) : probe str :=
  if utf8_valid s then Ok s else malformed message.

Section Redis.
(** The message of a failed conversion to UTF-8. *)
Variable utf8_message : str -> str.

(** The loop of [read_resp_line]; [room] is what [consumed] leaves below the cap. *)
Fixpoint resp_line_loop (room : nat) (line : str) (c : Conn) : probe (str * nat * Conn) :=
  match room with
  | O => Err exceeded
  | S room =>
      let? (byte, c) := or_unreachable (read_exact 1 c) in
      let line := line ++ byte in
      if bool_decide (drop (length line - 2) line = CRLF) then
        let line := take (length line - 2) line in
        let? text := string_from_utf8 (utf8_message line) line in
        Ok (text, room, c)
      else resp_line_loop room line c
  end.

(** The line, what has been consumed with it, and the connection. *)
Definition read_resp_line (cap consumed : nat) (c : Conn) : probe (str * nat * Conn) :=
  let? (line, room, c) := resp_line_loop (cap - consumed) [] c in
  Ok (line, (cap - room)%nat, c).

Definition parse_usize (s : str) : option Z := parse_u64 s.

Definition read_redis_info_response (cap : nat) (c : Conn) : probe (str * Conn) :=
  let? (prefix, c) := or_unreachable (read_exact 1 c) in
  if bool_decide (prefix = lit "-") then
    let? _ := read_resp_line cap 1 c in Err (Rejected (lit "Redis rejected request"))
  else if negb (bool_decide (prefix = lit "$")) then malformed (lit "Redis INFO returned malformed RESP")
  else
    let? (line, consumed, c) := read_resp_line cap 1 c in
    let? len := ok_or (parse_usize line) (MalformedResponse (lit "Redis INFO returned an invalid bulk length")) in
    guard negb (Z.of_nat (cap - consumed - 2) <? len) else exceeded in
    let? (body, c) := or_unreachable (read_exact (Z.to_nat len) c) in
    let? (terminator, c) := or_unreachable (read_exact 2 c) in
    guard bool_decide (terminator = CRLF) else MalformedResponse (lit "Redis INFO returned a malformed bulk terminator") in
    let? text := string_from_utf8 (utf8_message body) body in
    Ok (text, c).

Fixpoint redis_values (ls : list str) (values : gmap str str) : probe (gmap str str) :=
  match ls with
  | [] => Ok values
  | line :: ls =>
      if bool_decide (line = []) || starts_with (lit "#") line then redis_values ls values
      else
        let? (key, value) := ok_or (split_once x3a line) (MalformedResponse (lit "Redis INFO contains a malformed line")) in
        if bool_decide (is_Some (values !! key)) then malformed (lit "Redis INFO contains a duplicate metric: " ++ key)
        else redis_values ls (<[key := value]> values)
  end.

(** The closure [metric] of the Redis and Memcached parsers. *)
Definition text_metric (missing not_numeric : str) (values : gmap str str) (key : str) : probe Z :=
  let? value := ok_or (values !! key) (MalformedResponse (missing ++ key)) in
  ok_or (parse_u64 value) (MalformedResponse (not_numeric ++ key)).

Definition parse_redis_info (info : str) : probe RedisMetrics :=
  let? values := redis_values (lines info) ∅ in
  let metric := text_metric (lit "Redis INFO is missing ") (lit "Redis INFO metric is not numeric: ") values in
  let? v1 := metric (lit "connected_clients") in
  let? v2 := metric (lit "used_memory") in
  let? v3 := metric (lit "total_commands_processed") in
  let? v4 := metric (lit "instantaneous_ops_per_sec") in
  let? v5 := metric (lit "keyspace_hits") in
  let? v6 := metric (lit "keyspace_misses") in
  Ok {| connected_clients := v1; used_memory := v2; total_commands_processed := v3; instantaneous_ops_per_sec := v4;
        keyspace_hits := v5; keyspace_misses := v6 |}.

Definition monitor_redis_stream (c : Conn) : probe RedisMetrics :=
  let? c := write_all REDIS_INFO_REQUEST c in
  let? (response, _) := read_redis_info_response REDIS_RESPONSE_BYTES c in
  parse_redis_info response.

Definition auth_arguments (username : option str) (password : str) : list str :=
  match username with None => [lit "AUTH"; password] | Some username => [lit "AUTH"; username; password] end.

Definition encode_argument (argument : str) : str :=
  lit "$" ++ show_unsigned (Z.of_nat (length argument)) ++ CRLF ++ argument ++ CRLF.

Definition auth_request (username : option str) (password : str) : str :=
  let arguments := auth_arguments username password in
  lit "*" ++ show_unsigned (Z.of_nat (length arguments)) ++ CRLF ++ mjoin (encode_argument <$> arguments).

Definition write_redis_auth (username : option str) (password : str) (c : Conn) : probe Conn :=
  let? c := write_all (auth_request username password) c in
  let? (prefix, c) := or_unreachable (read_exact 1 c) in
  if bool_decide (prefix = lit "+") then
    let? (_, _, c) := read_resp_line REDIS_RESPONSE_BYTES 1 c in Ok c
  else if bool_decide (prefix = lit "-") then
    let? _ := read_resp_line REDIS_RESPONSE_BYTES 1 c in Err (Rejected (lit "Redis authentication failed"))
  else malformed (lit "Redis AUTH returned malformed RESP").

Definition monitor_redis_authenticated_stream (username password : option str) (c : Conn) : probe RedisMetrics :=
  let? c := (match password with Some password => write_redis_auth username password c | None => Ok c end) in
  monitor_redis_stream c.

Definition probe_redis_server_stream (c : Conn) : probe unit :=
  let? c := write_all REDIS_SERVER_INFO_REQUEST c in
  let? (response, _) := read_redis_info_response REDIS_RESPONSE_BYTES c in
  if contains (lit "# Server") response then Ok tt else malformed (lit "Redis INFO SERVER was not accepted").
End Redis.

(** [max_by_key] takes the last of the greatest. *)
Definition error_rank (e : WorkloadProbeError) : Z :=
  match e with Rejected _ => 2 | MalformedResponse _ => 1 | Unreachable _ => 0 end.

Definition preferred_redis_error (errors : list WorkloadProbeError) : WorkloadProbeError :=
  match foldl (fun best e => match best with
                             | None => Some e
                             | Some b => if error_rank b <=? error_rank e then Some e else best
                             end) None errors with
  | Some e => e
  | None => Unreachable (lit "no endpoint")
  end.

Definition REDIS_LOOPBACK_ENDPOINT : str := lit "127.0.0.1:6379".

(** [monitor_redis]: what each socket path and the loopback port answer. *)
Fixpoint monitor_redis (sockets : list (str * probe RedisMetrics)) (tcp : probe RedisMetrics) (errors : list WorkloadProbeError)
    : probe (str * RedisMetrics) :=
  match sockets with
  | (path, Ok metrics) :: _ => Ok (path, metrics)
  | (_, Err error) :: sockets => monitor_redis sockets tcp (errors ++ [error])
  | (_, Panic) :: _ => Panic
  | [] => match tcp with
          | Ok metrics => Ok (REDIS_LOOPBACK_ENDPOINT, metrics)
          | Err error => Err (preferred_redis_error (errors ++ [error]))
          | Panic => Panic
          end
  end.

(** ** Memcached *)

Definition memcached_rejects (text : str) : bool :=
  bool_decide (text ∈ [lit "ERROR"; lit "CLIENT_ERROR"; lit "SERVER_ERROR"])
  || starts_with (lit "CLIENT_ERROR ") text || starts_with (lit "SERVER_ERROR ") text.

(** [room] is what the response leaves below the cap. *)
Fixpoint memcached_loop (room : nat) (response line : str) (c : Conn) : probe str :=
  match room with
  | O => malformed (lit "Memcached stats response exceeded the byte cap or omitted END")
  | S room =>
      match read_exact 1 c with
      | Err Closed => malformed (lit "Memcached stats response omitted END")
      | Err (ReadError m) => Err (Unreachable m)
      | Panic => Panic
      | Ok (byte, c) =>
          let response := response ++ byte in
          let line := line ++ byte in
          if negb (bool_decide (drop (length line - 2) line = CRLF)) then memcached_loop room response line c
          else
            let text := take (length line - 2) line in
            if negb (utf8_valid text) then malformed (lit "Memcached stats is not UTF-8")
            else if memcached_rejects text then Err (Rejected (lit "Memcached rejected stats"))
            else if bool_decide (text = lit "END") then
              let response := take (length response - length line) response in
              if utf8_valid response then Ok response else malformed (lit "Memcached stats is not UTF-8")
            else memcached_loop room response [] c
      end
  end.

Definition read_memcached_stats_response (cap : nat) (c : Conn) : probe str := memcached_loop cap [] [] c.

(** [s.split(CRLF)] *)
Fixpoint split_crlf (s : str) : list str :=
  match s with
  | [] => [[]]
  | x0d :: x0a :: rest => [] :: split_crlf rest
  | b :: rest => match split_crlf rest with p :: ps => (b :: p) :: ps | [] => [[b]] end
  end.

Fixpoint memcached_values (ls : list str) (values : gmap str str) : probe (gmap str str) :=
  match ls with
  | [] => Ok values
  | line :: ls =>
      if bool_decide (line = []) then memcached_values ls values
      else match ascii_fields line with
           | stat :: fields =>
               if negb (bool_decide (stat = lit "STAT")) then malformed (lit "Memcached stats contains a malformed line")
               else match fields with
                    | key :: value :: more =>
                        if negb (bool_decide (more = [])) || bool_decide (is_Some (values !! key))
                        then malformed (lit "Memcached stats contains a duplicate or malformed metric")
                        else memcached_values ls (<[key := value]> values)
                    | _ => malformed (lit "Memcached stats contains a malformed line")
                    end
           | [] => malformed (lit "Memcached stats contains a malformed line")
           end
  end.

Definition parse_memcached_stats (response : str) : probe MemcachedMetrics :=
  let? values := memcached_values (split_crlf response) ∅ in
  let metric := text_metric (lit "Memcached stats is missing ") (lit "Memcached stats metric is not a u64: ") values in
  let? v1 := metric (lit "curr_connections") in
  let? v2 := metric (lit "bytes") in
  let? v3 := metric (lit "cmd_get") in
  let? v4 := metric (lit "cmd_set") in
  let? v5 := metric (lit "get_hits") in
  let? v6 := metric (lit "get_misses") in
  let? v7 := metric (lit "evictions") in
  Ok {| curr_connections := v1; mc_bytes := v2; cmd_get := v3; cmd_set := v4; get_hits := v5; get_misses := v6; evictions := v7 |}.

Definition monitor_memcached_stream (c : Conn) : probe MemcachedMetrics :=
  let? c := write_all MEMCACHED_STATS_REQUEST c in
  let? response := read_memcached_stats_response MEMCACHED_RESPONSE_BYTES c in
  parse_memcached_stats response.

(** ** HTTP bodies *)

(** The chunks of a response, an error among them when reading fails. *)
Fixpoint read_chunks (service : str) (limit : nat) (body : str) (chunks : list (option str)) : probe str :=
  match chunks with
  | [] => Ok body
  | None :: _ => Err (Unreachable (service ++ lit " response could not be read"))
  | Some chunk :: chunks =>
      if (limit <? length body + length chunk)%nat then malformed (service ++ lit " response exceeds the size limit")
      else read_chunks service limit (body ++ chunk) chunks
  end.

(** From the status to the text of the body. *)
Definition read_http_body (service rejected : str) (limit : nat) (success : bool) (content_length : option Z)
    (chunks : list (option str)) : probe str :=
  guard success else Rejected rejected in
  guard negb (match content_length with Some n => Z.of_nat limit <? n | None => false end)
    else MalformedResponse (service ++ lit " response exceeds the size limit") in
  let? body := read_chunks service limit [] chunks in
  guard utf8_valid body else MalformedResponse (service ++ lit " response is not UTF-8") in
  Ok body.

(** ** SQL rows *)

(** A column that is not null and not negative. *)
Definition sql_metric (value : option Z) : probe Z :=
  ok_or (v ← value; if 0 <=? v then Some v else None) (MalformedResponse (lit "PostgreSQL metrics contain a null or negative value")).

Fixpoint sql_metrics (values : list (option Z)) : probe (list Z) :=
  match values with
  | [] => Ok []
  | v :: values => let? v := sql_metric v in let? vs := sql_metrics values in Ok (v :: vs)
  end.

Definition postgresql_metrics_from_values (values : list (option Z)) : probe PostgreSqlMetrics :=
  guard (length values =? 14)%nat else MalformedResponse (lit "PostgreSQL metrics have an invalid field count") in
  let? vs := sql_metrics values in
  match vs with
  | [v1; v2; v3; v4; v5; v6; v7; v8; v9; v10; v11; v12; v13; v14] =>
      Ok {| numbackends := v1; xact_commit := v2; xact_rollback := v3; blks_read := v4; blks_hit := v5; tup_returned := v6;
            tup_fetched := v7; tup_inserted := v8; tup_updated := v9; tup_deleted := v10; conflicts := v11; temp_files := v12;
            temp_bytes := v13; deadlocks := v14 |}
  | _ => Panic
  end.

(** Rows as columns that convert to an optional [i64], or do not. *)
Definition postgresql_metrics_from_rows (rs : list (list (option (option Z)))) : probe PostgreSqlMetrics :=
  match rs with
  | [row] =>
      let? values := ok_or (mapM (fun i => mjoin (row !! i)) (seq 0 14)) (MalformedResponse (lit "PostgreSQL metrics have invalid types")) in
      postgresql_metrics_from_values values
  | _ => malformed (lit "PostgreSQL metrics query must return exactly one row")
  end.

Definition MYSQL_KEYS : list str :=
  [lit "Threads_connected"; lit "Threads_running"; lit "Connections"; lit "Aborted_connects"; lit "Questions";
   lit "Slow_queries"; lit "Bytes_received"; lit "Bytes_sent"].

Fixpoint mysql_values (rs : list (str * str)) (values : gmap str str) : probe (gmap str str) :=
  match rs with
  | [] => Ok values
  | (key, value) :: rs =>
      if negb (bool_decide (key ∈ MYSQL_KEYS)) || bool_decide (is_Some (values !! key))
      then malformed (lit "MySQL metrics contain an unknown or duplicate metric")
      else mysql_values rs (<[key := value]> values)
  end.

Definition mysql_metrics_from_rows (rs : list (str * str)) : probe MySqlMetrics :=
  guard (length rs =? length MYSQL_KEYS)%nat else MalformedResponse (lit "MySQL metrics have an invalid row count") in
  let? values := mysql_values rs ∅ in
  let metric := text_metric (lit "MySQL metrics are missing ") (lit "MySQL metric is not a u64: ") values in
  let? v1 := metric (lit "Threads_connected") in
  let? v2 := metric (lit "Threads_running") in
  let? v3 := metric (lit "Connections") in
  let? v4 := metric (lit "Aborted_connects") in
  let? v5 := metric (lit "Questions") in
  let? v6 := metric (lit "Slow_queries") in
  let? v7 := metric (lit "Bytes_received") in
  let? v8 := metric (lit "Bytes_sent") in
  Ok {| threads_connected := v1; threads_running := v2; my_connections := v3; aborted_connects := v4; questions := v5;
        slow_queries := v6; bytes_received := v7; bytes_sent := v8 |}.
