(* ===== verification/WorkloadSpec.v ===== *)
(** * What the parsers of monitored services accept

    [exposition_exact] compares [parse_exposition_u64] with a grammar of decimal numerals and
    the number each denotes; [pages_exact] says which pages give metrics, and which;
    [haproxy_sums] that the statistics of HAProxy are sums that fit 64 bits. *)

From S2P Require Import Prelude RustStr JsonValue Workload WorkloadWire.

Local Open Scope outcome_scope.

(** ** Decimal numerals *)

Definition digits_only (s : str) : Prop := Forall (fun b => is_ascii_digit b = true) s.

(** A mantissa, its digits, and how many of them follow the point. *)
Inductive mantissa : str -> str -> nat -> Prop :=
| mantissa_whole ds : digits_only ds -> mantissa ds ds 0
| mantissa_point i f : digits_only i -> digits_only f -> mantissa (i ++ x2e :: f) (i ++ f) (length f).

(** A numeral, its digits, and the power of ten they are multiplied by. *)
Inductive numeral : str -> str -> Z -> Prop :=
| numeral_plain m ds k : mantissa m ds k -> numeral m ds (- Z.of_nat k)
| numeral_scientific m ds k c t x :
    mantissa m ds k -> is_exponent_mark c = true -> parse_i32 t = Some x -> numeral (m ++ c :: t) ds (x - Z.of_nat k).

(** [n = N * 10 ^ e] *)
Definition scaled (n N e : Z) : Prop := n * 10 ^ Z.max 0 (- e) = N * 10 ^ Z.max 0 e.

Definition dval (s : str) : Z := foldl (fun a b => a * 10 + (b2z b - 48)) 0 s.

Lemma dval_snoc s b : dval (s ++ [b]) = dval s * 10 + (b2z b - 48).
Proof. unfold dval. by rewrite foldl_app. Qed.

Lemma dval_app s t : dval (s ++ t) = dval s * 10 ^ Z.of_nat (length t) + dval t.
Proof.
  induction t as [|b t IH] using rev_ind; [rewrite app_nil_r; change (dval []) with 0; simpl; lia|].
  rewrite app_assoc, !dval_snoc, IH, length_app, Nat2Z.inj_add, Z.pow_add_r by lia.
  change (10 ^ Z.of_nat (length [b])) with 10. lia.
Qed.

Lemma digit_bounds b : is_ascii_digit b = true -> 0 <= b2z b - 48 < 10.
Proof. unfold is_ascii_digit, byte_in. intros H. bool_prop. lia. Qed.

Lemma dval_bounds s : digits_only s -> 0 <= dval s < 10 ^ Z.of_nat (length s).
Proof.
  induction s as [|b s IH] using rev_ind; intros H; [change (dval []) with 0; simpl; lia|].
  apply Forall_app in H as [H1 H2]. apply Forall_inv in H2. apply digit_bounds in H2. specialize (IH H1).
  rewrite dval_snoc, length_app, Nat2Z.inj_add, Z.pow_add_r by lia. change (10 ^ Z.of_nat (length [b])) with 10. lia.
Qed.

Lemma digits_value_dval s : digits_only s -> digits_value 10 s = Some (dval s).
Proof.
  induction s as [|b s IH] using rev_ind; intros H; [done|].
  apply Forall_app in H as [H1 H2]. apply Forall_inv in H2. rewrite (digits_value_snoc 10 s b (dval s) (b2z b - 48)).
  - by rewrite dval_snoc.
  - by apply IH.
  - unfold to_digit. unfold is_ascii_digit in H2. rewrite H2. apply digit_bounds in H2.
    by replace (b2z b - 48 <? 10) with true by lia.
Qed.

Lemma all_zero_dval s : digits_only s -> all_zero s = true <-> dval s = 0.
Proof.
  induction s as [|b s IH] using rev_ind; intros H; [done|].
  apply Forall_app in H as [H1 H2]. apply Forall_inv in H2. specialize (IH H1). pose proof (dval_bounds s H1).
  unfold all_zero in *. rewrite forallb_app, andb_true_iff, IH, dval_snoc. simpl. rewrite andb_true_r, bool_decide_eq_true. split.
  - intros [-> ->]. reflexivity.
  - pose proof (digit_bounds b H2) as Hb. intros E. assert (b2z b = 48) as Eb by lia. split; [lia|].
    rewrite <- (byte.of_Z_unsigned b), Eb. reflexivity.
Qed.

(** ** The mantissa *)

Lemma i32_checked_Some n v : i32_checked n = Some v -> v = n /\ n <= i32_max.
Proof. unfold i32_checked. case_match eqn:E; [|done]. intros [= <-]. bool_prop. lia. Qed.

Lemma i32_checked_ok n : i32_min <= n <= i32_max -> i32_checked n = Some n.
Proof. unfold i32_checked. intros H. by replace ((i32_min <=? n) && (n <=? i32_max)) with true by lia. Qed.

Lemma mantissa_loop_after s acc k d k' :
  mantissa_loop s acc k true = Some (d, k') -> d = acc ++ s /\ digits_only s /\ k' = k + Z.of_nat (length s).
Proof.
  revert acc k. induction s as [|c s IH]; intros acc k; cbn [mantissa_loop].
  - intros [= <- <-]. rewrite app_nil_r. repeat split; [constructor|simpl; lia].
  - destruct (is_ascii_digit c) eqn:Hc.
    + destruct (i32_checked (k + 1)) as [k1|] eqn:E; [|done]. apply i32_checked_Some in E as [-> _].
      simpl. intros (-> & Hd & ->)%IH. rewrite <- app_assoc. repeat split; [by constructor|simpl; lia].
    + by rewrite andb_false_r.
Qed.

Lemma mantissa_loop_sound s acc d k :
  mantissa_loop s acc 0 false = Some (d, k) -> exists ds m, d = acc ++ ds /\ k = Z.of_nat m /\ mantissa s ds m.
Proof.
  revert acc. induction s as [|c s IH]; intros acc; cbn [mantissa_loop].
  - intros [= <- <-]. exists [], 0%nat. rewrite app_nil_r. repeat split. do 2 constructor.
  - destruct (is_ascii_digit c) eqn:Hc.
    + simpl. intros (ds & m & -> & -> & Hm)%IH. exists (c :: ds), m. rewrite <- app_assoc. repeat split.
      inversion Hm; subst; [by repeat constructor|]. apply (mantissa_point (c :: i)); [by constructor|done].
    + rewrite andb_true_r. case_bool_decide as E; [subst c|done].
      intros (-> & Hd & ->)%mantissa_loop_after. exists s, (length s). repeat split.
      apply (mantissa_point [] s); [constructor|done].
Qed.

Lemma mantissa_loop_digits s rest acc k :
  digits_only s -> mantissa_loop (s ++ rest) acc k false = mantissa_loop rest (acc ++ s) k false.
Proof.
  intros H. revert acc. induction H as [|c s Hc _ IH]; intros acc; [by rewrite app_nil_r|].
  cbn [mantissa_loop app]. rewrite Hc. simpl. by rewrite IH, <- app_assoc.
Qed.

Lemma mantissa_loop_fraction s acc k :
  digits_only s -> 0 <= k -> k + Z.of_nat (length s) <= i32_max ->
  mantissa_loop s acc k true = Some (acc ++ s, k + Z.of_nat (length s)).
Proof.
  intros H. revert acc k. induction H as [|c s Hc _ IH]; intros acc k Hk Hb; cbn [mantissa_loop length] in *.
  - rewrite app_nil_r. do 2 f_equal. simpl. lia.
  - rewrite Hc, i32_checked_ok by (unfold i32_min; lia). simpl. rewrite IH by lia.
    rewrite <- app_assoc. do 2 f_equal. lia.
Qed.

Lemma mantissa_loop_complete s ds k :
  mantissa s ds k -> Z.of_nat (length s) <= i32_max -> mantissa_loop s [] 0 false = Some (ds, Z.of_nat k).
Proof.
  intros H Hl. destruct H as [ds Hd|i f Hi Hf].
  - rewrite <- (app_nil_r ds) at 1. by rewrite mantissa_loop_digits.
  - rewrite mantissa_loop_digits by done. cbn [mantissa_loop].
    change (is_ascii_digit x2e) with false. rewrite bool_decide_eq_true_2 by done. simpl.
    rewrite length_app in Hl. simpl in Hl. rewrite mantissa_loop_fraction by (done || lia). reflexivity.
Qed.

Lemma mantissa_digits s ds k : mantissa s ds k -> digits_only ds /\ (k <= length ds)%nat.
Proof. destruct 1; split; rewrite ?length_app; try lia; [done|]. by apply Forall_app. Qed.

(** ** The exponent *)

Lemma find_byte_where_Some p s i :
  find_byte_where p s = Some i -> exists a c b, s = a ++ c :: b /\ length a = i /\ p c = true.
Proof.
  revert i. induction s as [|c s IH]; intros i; simpl; [done|]. destruct (p c) eqn:Hc.
  - intros [= <-]. by exists [], c, s.
  - destruct (find_byte_where p s) as [j|]; [|done]. intros [= <-]. destruct (IH j eq_refl) as (a & c' & b & -> & <- & Hp).
    by exists (c :: a), c', b.
Qed.

Lemma find_byte_where_skip p a s :
  Forall (fun b => p b = false) a -> find_byte_where p (a ++ s) = Nat.add (length a) <$> find_byte_where p s.
Proof.
  induction 1 as [|c a Hc _ IH]; simpl; [by destruct (find_byte_where p s)|].
  rewrite Hc, IH. by destruct (find_byte_where p s).
Qed.

Lemma mantissa_no_mark s ds k : mantissa s ds k -> Forall (fun b => is_exponent_mark b = false) s.
Proof.
  assert (forall t, digits_only t -> Forall (fun b => is_exponent_mark b = false) t) as Hd.
  { intros t Ht. apply (Forall_impl _ _ _ Ht). intros b Hb. unfold is_exponent_mark. destruct (bool_decide_reflect (b = x65)); [by subst|].
    destruct (bool_decide_reflect (b = x45)); [by subst|done]. }
  destruct 1; [auto|]. apply Forall_app. split; [auto|]. constructor; [done|auto].
Qed.

(** The two parsers together read a numeral. *)
Definition read_numeral (value : str) : option (str * Z) :=
  '(m, exponent) ← split_exponent value; '(ds, k) ← mantissa_loop m [] 0 false; Some (ds, exponent - k).

Lemma read_numeral_sound value ds e : read_numeral value = Some (ds, e) -> numeral value ds e.
Proof.
  unfold read_numeral, split_exponent. destruct (find_byte_where is_exponent_mark value) as [i|] eqn:Hf.
  - destruct (find_byte_where_Some _ _ _ Hf) as (a & c & t & -> & <- & Hc).
    rewrite take_app_length, drop_app_ge by lia. replace (S (length a) - length a)%nat with 1%nat by lia. cbn [drop]. rewrite drop_0.
    destruct (parse_i32 t) as [x|] eqn:Hx; [|done]. simpl.
    destruct (mantissa_loop a [] 0 false) as [[ds' k]|] eqn:Hm; [|done]. simpl. intros [= -> <-].
    apply mantissa_loop_sound in Hm as (ds' & m & -> & -> & Hm). by apply (numeral_scientific _ _ m).
  - simpl. destruct (mantissa_loop value [] 0 false) as [[ds' k]|] eqn:Hm; [|done]. simpl. intros [= -> <-].
    apply mantissa_loop_sound in Hm as (ds' & m & -> & -> & Hm). by apply numeral_plain.
Qed.

Lemma read_numeral_complete value ds e :
  numeral value ds e -> Z.of_nat (length value) <= i32_max -> read_numeral value = Some (ds, e).
Proof.
  intros H Hl. unfold read_numeral, split_exponent. destruct H as [s ds k Hm|s ds k c t x Hm Hc Hx].
  - pose proof (find_byte_where_skip is_exponent_mark s [] (mantissa_no_mark _ _ _ Hm)) as Hf. rewrite app_nil_r in Hf.
    rewrite Hf. simpl. rewrite (mantissa_loop_complete _ _ _ Hm) by done. simpl. do 2 f_equal.
  - rewrite find_byte_where_skip by (by eapply mantissa_no_mark). simpl. rewrite Hc. simpl.
    rewrite Nat.add_0_r, take_app_length, drop_app_ge by lia. replace (S (length s) - length s)%nat with 1%nat by lia.
    cbn [drop]. rewrite drop_0, Hx. simpl. rewrite length_app in Hl. rewrite (mantissa_loop_complete _ _ _ Hm) by lia. reflexivity.
Qed.

(** ** The number *)

(** What [parse_exposition_u64] does with the digits and the power of ten. *)
Definition scale_digits (digits : str) (e : Z) : option Z :=
  if bool_decide (digits = []) then None
  else if all_zero digits then Some 0
  else
    scale ← i32_checked e;
    digits ← (if scale <? 0 then
                remove ← i32_checked (- scale);
                let keep := Z.of_nat (length digits) - remove in
                if keep <? 0 then None
                else if negb (all_zero (drop (Z.to_nat keep) digits)) then None
                else Some (take (Z.to_nat keep) digits)
              else Some digits);
    result ← (if bool_decide (digits = []) then Some 0 else parse_u64 digits);
    if 0 <? scale then
      if (19 <? scale) || (20 <? Z.of_nat (length (drop_while (fun b => bool_decide (b = x30)) digits)) + scale) then None
      else power ← (if 10 ^ scale <? 2 ^ 64 then Some (10 ^ scale) else None); checked_mul64 result power
    else Some result.

Lemma parse_exposition_steps value :
  parse_exposition_u64 value =
  if bool_decide (strip_plus value = []) || starts_with (lit "-") (strip_plus value) then None
  else '(ds, e) ← read_numeral (strip_plus value); scale_digits ds e.
Proof.
  unfold parse_exposition_u64, read_numeral. set (v := strip_plus value).
  destruct (bool_decide (v = []) || starts_with (lit "-") v); [done|].
  destruct (split_exponent v) as [[m x]|]; [|done]. simpl. by destruct (mantissa_loop m [] 0 false) as [[ds k]|].
Qed.

Lemma parse_u64_digits s : digits_only s -> s <> [] -> parse_u64 s = if dval s <? 2 ^ 64 then Some (dval s) else None.
Proof.
  intros Hd Hne. unfold parse_u64, parse_unsigned. destruct s as [|b s]; [done|].
  rewrite (bool_decide_eq_false_2 (b = x2b)) by (inversion Hd; by eapply digit_not).
  rewrite bool_decide_eq_false_2 by done. rewrite digits_value_dval by done. simpl. unfold u64_max.
  destruct (dval (b :: s) <=? 18446744073709551615) eqn:E, (dval (b :: s) <? 2 ^ 64) eqn:E'; bool_prop; try done; lia.
Qed.

Lemma significant_digits s :
  digits_only s -> dval s <> 0 -> 10 ^ (Z.of_nat (length (drop_while (fun b => bool_decide (b = x30)) s)) - 1) <= dval s.
Proof.
  induction 1 as [|b s Hb Hs IH]; [done|]. simpl. case_bool_decide as E.
  - subst b. change (x30 :: s) with ([x30] ++ s). rewrite dval_app. change (dval [x30]) with 0. intros Hne. simpl.
    apply IH. lia.
  - intros _. change (b :: s) with ([b] ++ s). rewrite dval_app. simpl length.
    pose proof (digit_bounds b Hb). pose proof (dval_bounds s Hs).
    assert (dval [b] <> 0). { change (dval [b]) with (0 * 10 + (b2z b - 48)). intros E'. apply E.
      rewrite <- (byte.of_Z_unsigned b). by replace (b2z b) with 48 by lia. }
    change (dval [b]) with (0 * 10 + (b2z b - 48)) in *. replace (Z.of_nat (S (length s)) - 1) with (Z.of_nat (length s)) by lia.
    nia.
Qed.

Lemma small_multiple n p r : 0 <= r < p -> n * p = r -> n = 0.
Proof. intros Hr E. destruct (Z.lt_trichotomy n 0) as [|[|]]; nia. Qed.

Lemma scaled_negative n ds e :
  digits_only ds -> dval ds <> 0 -> e < 0 ->
  scaled n (dval ds) e <->
  - e <= Z.of_nat (length ds) /\ dval (drop (length ds - Z.to_nat (- e)) ds) = 0 /\ n = dval (take (length ds - Z.to_nat (- e)) ds).
Proof.
  intros Hd Hne He. unfold scaled. replace (Z.max 0 (- e)) with (- e) by lia. replace (Z.max 0 e) with 0 by lia.
  rewrite Z.pow_0_r, Z.mul_1_r. pose proof (dval_bounds ds Hd) as Hb.
  destruct (Z.le_gt_cases (- e) (Z.of_nat (length ds))) as [Hle|Hgt].
  - set (j := (length ds - Z.to_nat (- e))%nat).
    assert (Forall (fun b => is_ascii_digit b = true) (drop j ds)) as Hdr by by apply Forall_drop.
    pose proof (dval_bounds _ Hdr) as Hr. pose proof (dval_app (take j ds) (drop j ds)) as Ha. rewrite take_drop in Ha.
    assert (Z.of_nat (length (drop j ds)) = - e) as Hlen by (rewrite length_drop; lia). rewrite Hlen in *.
    split; [|intros (_ & Hz & ->); lia].
    intros E. rewrite Ha in E. split; [done|]. assert (n = dval (take j ds)); [|lia].
    assert ((n - dval (take j ds)) * 10 ^ (- e) = dval (drop j ds)) as Ek by lia. apply small_multiple in Ek; lia.
  - split; [|lia]. intros E. exfalso.
    assert (10 ^ Z.of_nat (length ds) <= 10 ^ (- e)) by (apply Z.pow_le_mono_r; lia).
    assert (n = 0) as -> by (apply small_multiple in E; lia). lia.
Qed.

(** The digits and the power of ten give exactly the number they denote, when it fits. *)
Lemma scale_digits_exact ds e n :
  digits_only ds -> Z.of_nat (length ds) <= i32_max -> e <= i32_max ->
  scale_digits ds e = Some n <-> ds <> [] /\ 0 <= n < 2 ^ 64 /\ scaled n (dval ds) e.
Proof.
  intros Hd Hl He. unfold scale_digits. destruct (bool_decide_reflect (ds = [])) as [->|Hne]; [naive_solver|].
  pose proof (all_zero_dval ds Hd) as Hz. pose proof (dval_bounds ds Hd) as Hb. destruct (all_zero ds).
  { destruct Hz as [Hz _]. unfold scaled. rewrite Hz by done. split; [intros [= <-]; repeat split; done || lia|].
    intros (_ & _ & E). f_equal. assert (0 < 10 ^ Z.max 0 (- e)) by (apply Z.pow_pos_nonneg; lia). nia. }
  assert (dval ds <> 0) as Hnz by (intros E0; by apply Hz in E0). clear Hz.
  destruct (Z.lt_ge_cases e 0) as [Hneg|Hpos].
  - rewrite scaled_negative by done. destruct (Z.lt_ge_cases (- e) (Z.of_nat (length ds) + 1)) as [Hle|Hgt].
    + rewrite i32_checked_ok by (unfold i32_min, i32_max in *; lia). simpl. replace (e <? 0) with true by lia.
      rewrite i32_checked_ok by (unfold i32_min, i32_max in *; lia). simpl.
      replace (Z.of_nat (length ds) - - e <? 0) with false by lia.
      replace (Z.to_nat (Z.of_nat (length ds) - - e)) with (length ds - Z.to_nat (- e))%nat by lia.
      set (j := (length ds - Z.to_nat (- e))%nat).
      assert (digits_only (drop j ds)) as Hdr by by apply Forall_drop.
      assert (digits_only (take j ds)) as Hdt by by apply Forall_take.
      pose proof (all_zero_dval _ Hdr) as Hz. destruct (all_zero (drop j ds)); simpl.
      * destruct Hz as [Hz _]. specialize (Hz eq_refl). pose proof (dval_bounds _ Hdt).
        case_bool_decide as Ht.
        { rewrite Ht. change (dval []) with 0. simpl. replace (0 <? e) with false by lia. split; [intros [= <-]; repeat split; done || lia|].
          intros (_ & _ & _ & _ & ->). done. }
        rewrite parse_u64_digits by done. destruct (dval (take j ds) <? 2 ^ 64) eqn:E; bool_prop; simpl.
        -- replace (0 <? e) with false by lia. split; [intros [= <-]; repeat split; done || lia|]. intros (_ & _ & _ & _ & ->). done.
        -- split; [done|]. lia.
      * destruct Hz as [_ Hz]. split; [done|]. intros (_ & _ & _ & E & _). by apply Hz in E.
    + split; [|lia]. destruct (i32_checked e) as [e'|] eqn:E1; [|done]. apply i32_checked_Some in E1 as [-> _]. simpl.
      replace (e <? 0) with true by lia.
      destruct (i32_checked (- e)) as [e'|] eqn:E1; [|done]. apply i32_checked_Some in E1 as [-> _]. simpl.
      by replace (Z.of_nat (length ds) - - e <? 0) with true by lia.
  - rewrite i32_checked_ok by (unfold i32_min, i32_max in *; lia). simpl. replace (e <? 0) with false by lia. simpl.
    rewrite bool_decide_eq_false_2 by done. rewrite parse_u64_digits by done.
    unfold scaled. replace (Z.max 0 (- e)) with 0 by lia. replace (Z.max 0 e) with e by lia. rewrite Z.pow_0_r, Z.mul_1_r.
    assert (0 < 10 ^ e) by (apply Z.pow_pos_nonneg; lia). destruct (dval ds <? 2 ^ 64) eqn:E; bool_prop; simpl; [|split; [done|nia]].
    destruct (0 <? e) eqn:E0; bool_prop; [|replace e with 0 by lia; rewrite Z.mul_1_r; split; [intros [= <-]; repeat split; done || lia|intros (_ & _ & ->); done]].
    pose proof (significant_digits ds Hd Hnz) as Hs. match goal with |- context [20 <? ?k + e] => set (m := k) in * end.
    destruct ((19 <? e) || (20 <? m + e)) eqn:Ec.
    + split; [done|]. intros (_ & Hn & ->). exfalso. apply orb_true_iff in Ec.
      assert (10 ^ 20 <= dval ds * 10 ^ e); [|lia]. destruct Ec.
      * assert (10 ^ 20 <= 10 ^ e) by (apply Z.pow_le_mono_r; lia). nia.
      * destruct (Z.lt_ge_cases (m - 1) 0).
        -- assert (10 ^ 20 <= 10 ^ e) by (apply Z.pow_le_mono_r; lia). nia.
        -- assert (10 ^ 20 <= 10 ^ (m - 1) * 10 ^ e) by (rewrite <- Z.pow_add_r by lia; apply Z.pow_le_mono_r; lia). nia.
    + apply orb_false_iff in Ec. assert (10 ^ e <= 10 ^ 19) by (apply Z.pow_le_mono_r; lia).
      replace (10 ^ e <? 2 ^ 64) with true by lia. simpl. unfold checked_mul64.
      destruct (dval ds * 10 ^ e <? 2 ^ 64) eqn:Em; bool_prop.
      * split; [intros [= <-]; repeat split; done || lia|]. intros (_ & _ & ->). done.
      * split; [done|]. lia.
Qed.

Lemma numeral_bounds s ds e :
  numeral s ds e -> digits_only ds /\ (length ds <= length s)%nat /\ e <= i32_max.
Proof.
  assert (forall m ds k, mantissa m ds k -> (length ds <= length m)%nat) as Hm.
  { destruct 1; rewrite ?length_app; simpl; lia. }
  destruct 1 as [m ds k H|m ds k c t x H Hc Hx]; destruct (mantissa_digits _ _ _ H) as [Hd _]; specialize (Hm _ _ _ H);
    rewrite ?length_app; (split; [done|]); (split; [simpl; lia|]); [unfold i32_max; lia|].
  assert (x <= i32_max); [|lia]. clear - Hx. unfold parse_i32, parse_signed in Hx.
  assert (forall u v, parse_unsigned 10 i32_max u = Some v -> v <= i32_max) as Hu by (intros u v H; apply parse_unsigned_inv in H; lia).
  destruct t as [|b t]; [by apply (Hu [])|]. destruct b; try by apply Hu in Hx.
  case_bool_decide; [done|]. destruct (digits_value 10 t) as [v|] eqn:Hv; [|done]. simpl in Hx.
  case_match; [|done]. injection Hx as <-. apply digits_value_digits in Hv. unfold i32_max. lia.
Qed.

(** a value is read exactly when it is a decimal numeral, perhaps after a plus, whose
    number is an integer of 64 bits, and then as that number. *)
Theorem exposition_exact value n (Hlen : Z.of_nat (length value) <= i32_max) :
  parse_exposition_u64 value = Some n <->
  exists ds e N, numeral (strip_plus value) ds e /\ ds <> [] /\ digits_value 10 ds = Some N /\
    0 <= n < 2 ^ 64 /\ scaled n N e.
Proof.
  assert (Z.of_nat (length (strip_plus value)) <= i32_max) as Hl.
  { destruct value as [|b v]; [done|]. destruct b; simpl in *; lia. }
  rewrite parse_exposition_steps. split.
  - destruct (bool_decide _ || _); [done|]. destruct (read_numeral _) as [[ds e]|] eqn:Hr; [|done]. simpl.
    apply read_numeral_sound in Hr. destruct (numeral_bounds _ _ _ Hr) as (Hd & Hlt & He).
    rewrite scale_digits_exact by (done || lia). intros (Hne & Hn & Hs). exists ds, e, (dval ds).
    by rewrite digits_value_dval.
  - intros (ds & e & N & Hr & Hne & HN & Hn & Hs). destruct (numeral_bounds _ _ _ Hr) as (Hd & Hlt & He).
    rewrite digits_value_dval in HN by done. injection HN as <-.
    rewrite (read_numeral_complete _ _ _ Hr) by done.
    assert (bool_decide (strip_plus value = []) || starts_with (lit "-") (strip_plus value) = false) as ->;
      [|by apply scale_digits_exact; try lia].
    assert (exists b v, strip_plus value = b :: v /\ b <> x2d) as (b & v & -> & Hb).
    { destruct Hr as [m ds k Hm|m ds k c t x Hm _ _]; destruct Hm as [ds Hds|i f Hi Hf].
      - destruct ds as [|b ds]; [done|]. exists b, ds. split; [done|]. inversion Hds. by eapply digit_not.
      - destruct i as [|b i]; [by exists x2e, f|]. exists b, (i ++ x2e :: f). split; [done|]. inversion Hi. by eapply digit_not.
      - destruct ds as [|b ds]; [done|]. exists b, (ds ++ c :: t). split; [done|]. inversion Hds. by eapply digit_not.
      - destruct i as [|b i]; [by exists x2e, (f ++ c :: t)|]. exists b, ((i ++ x2e :: f) ++ c :: t). split; [done|].
        inversion Hi. by eapply digit_not. }
    rewrite bool_decide_eq_false_2 by done. simpl. by rewrite bool_decide_eq_false_2.
Qed.

(** [2.50e2] is 250 and [0.5] is no integer. *)
Theorem exposition_exact_witness :
  parse_exposition_u64 (lit "+2.50e2") = Some 250 /\
  (exists ds e N, numeral (lit "2.50e2") ds e /\ ds <> [] /\ digits_value 10 ds = Some N /\ 0 <= 250 < 2 ^ 64 /\ scaled 250 N e).
Proof. split; [reflexivity|]. apply (exposition_exact (lit "+2.50e2") 250); [by vm_compute|reflexivity]. Defined.

(** ** Pages of metrics *)

(** The lines of a page that carry a metric: what stays of blank lines and comments. *)
Definition sample_lines (ls : list str) : list str :=
  filter (fun l => l <> [] /\ starts_with (lit "#") l = false) (trim <$> ls).

Definition samples (ls : list str) (name : str) : list str := filter (fun l => metric_name l = name) (sample_lines ls).

Definition sample_value (name l : str) (v : Z) : Prop :=
  starts_with (lit "{") (drop (length name) l) = false /\
  exists w f, ascii_fields l = [w; f] /\ parse_exposition_u64 f = Some v.

(** A page reports a metric on one line, which gives its value. *)
Definition reports (body name : str) (v : Z) : Prop :=
  exists l, samples (lines body) name = [l] /\ sample_value name l v.

Section Scan.
Variables (service : str) (required : list str) (check : str -> Z -> probe unit).

Definition entry_read (name : str) (old : option Z) (ss : list str) (new : option Z) : Prop :=
  match ss, old with
  | [], _ => new = old
  | [l], None => exists v, sample_value name l v /\ check name v = Ok tt /\ new = Some v
  | _, _ => False
  end.

Definition required_samples (ls : list str) (name : str) : list str :=
  if bool_decide (name ∈ required) then samples ls name else [].

Definition page_read (ls : list str) (values out : gmap str Z) : Prop :=
  forall name : str, entry_read name (values !! name) (required_samples ls name) (out !! name).

Lemma page_read_skip l ls values out :
  (trim l = [] \/ starts_with (lit "#") (trim l) = true \/ metric_name (trim l) ∉ required) ->
  page_read (l :: ls) values out <-> page_read ls values out.
Proof.
  intros H. enough (forall name, required_samples (l :: ls) name = required_samples ls name) as Hs.
  { unfold page_read. by setoid_rewrite Hs. }
  intros name. unfold required_samples. case_bool_decide as Hn; [|done]. unfold samples, sample_lines. rewrite fmap_cons.
  destruct (decide (trim l <> [] /\ starts_with (lit "#") (trim l) = false)) as [Hk|Hk].
  - rewrite filter_cons_True by done. apply filter_cons_False. intros <-. destruct Hk as [? Hk], H as [|[H|]]; try done. congruence.
  - by rewrite filter_cons_False.
Qed.

Lemma page_read_sample l ls values out :
  let name := metric_name (trim l) in
  trim l <> [] -> starts_with (lit "#") (trim l) = false -> name ∈ required ->
  page_read (l :: ls) values out <->
  values !! name = None /\ exists v, sample_value name (trim l) v /\ check name v = Ok tt /\ page_read ls (<[name := v]> values) out.
Proof.
  intros name Hne Hc Hn.
  assert (forall n, required_samples (l :: ls) n = if decide (n = name) then trim l :: required_samples ls n else required_samples ls n) as Hs.
  { intros n. unfold required_samples. case_bool_decide as Hr; [|destruct (decide (n = name)); [by subst|done]].
    unfold samples, sample_lines. rewrite fmap_cons, (filter_cons_True _ (trim l)) by done.
    destruct (decide (n = name)) as [->|Hd]; [by rewrite filter_cons_True|]. by rewrite filter_cons_False. }
  unfold page_read. setoid_rewrite Hs. split.
  - intros H. pose proof (H name) as H0. rewrite decide_True in H0 by done. simpl in H0.
    destruct (required_samples ls name) eqn:E; [|done]. destruct (values !! name) eqn:Ev; [done|].
    destruct H0 as (v & Hv & Hk & Ho). split; [done|]. exists v. split_and!; [done..|]. intros n.
    specialize (H n). destruct (decide (n = name)) as [->|Hd].
    + by rewrite lookup_insert_eq, E.
    + by rewrite lookup_insert_ne.
  - intros (Hnone & v & Hv & Hk & H) n. specialize (H n). destruct (decide (n = name)) as [->|Hd].
    + rewrite lookup_insert_eq in H. rewrite Hnone. destruct (required_samples ls name) as [|? []]; simpl in *; [by exists v|done..].
    + by rewrite lookup_insert_ne in H.
Qed.

Lemma exposition_values_exact ls values out :
  exposition_values service required check ls values = Ok out <-> page_read ls values out.
Proof.
  revert values. induction ls as [|l ls IH]; intros values; cbn [exposition_values].
  { assert (forall name, required_samples [] name = []) as Hs by (intros name; unfold required_samples; by case_bool_decide).
    unfold page_read. setoid_rewrite Hs. simpl. split; [by intros [= ->]|].
    intros H. f_equal. by apply map_eq. }
  destruct (bool_decide_reflect (trim l = [])) as [E1|E1]; [rewrite page_read_skip by auto; apply IH|].
  destruct (starts_with (lit "#") (trim l)) eqn:E2; [rewrite page_read_skip by auto; apply IH|].
  destruct (bool_decide_reflect (metric_name (trim l) ∈ required)) as [E3|E3]; [|rewrite page_read_skip by auto; apply IH].
  rewrite page_read_sample by done. cbn [orb negb]. unfold sample_value. set (name := metric_name (trim l)) in *.
  destruct (starts_with (lit "{") (drop (length name) (trim l))) eqn:E4; [split; [done|naive_solver]|].
  destruct (ascii_fields (trim l)) as [|w [|f [|]]]; try (split; [done|naive_solver]).
  destruct (values !! name) as [old|] eqn:E5.
  { rewrite bool_decide_eq_true_2 by done. split; [done|naive_solver]. }
  rewrite bool_decide_eq_false_2 by (by intros [? ?]).
  destruct (parse_exposition_u64 f) as [v|] eqn:Ev; simpl; [|split; [done|naive_solver]].
  assert (forall P : Z -> Prop, (exists v0, (false = false /\ exists w0 f0, [w; f] = [w0; f0] /\ parse_exposition_u64 f0 = Some v0) /\
    check name v0 = Ok tt /\ P v0) <-> check name v = Ok tt /\ P v) as Hv by (intros P; naive_solver).
  rewrite (Hv (fun v0 => page_read ls (<[name := v0]> values) out)), <- IH.
  destruct (check name v) as [[]| |]; simpl; naive_solver.
Qed.
End Scan.

Lemma zip_lookup_map (ns : list str) (vs : list Z) :
  NoDup ns -> length ns = length vs -> Forall2 (fun n v => (list_to_map (zip ns vs) : gmap str Z) !! n = Some v) ns vs.
Proof.
  intros Hnd Hl. apply Forall2_same_length_lookup. split; [done|]. intros i n v Hn Hv.
  apply elem_of_list_to_map; [by rewrite fst_zip by lia|]. apply list_elem_of_lookup. exists i.
  rewrite lookup_zip_with, Hn. simpl. by rewrite Hv.
Qed.

(** The required metrics are read exactly when each is reported. *)
Lemma scan_reports service required check body vs :
  NoDup required ->
  (exists out, exposition_values service required check (lines body) ∅ = Ok out /\
     Forall2 (fun n v => out !! n = Some v) required vs) <->
  Forall2 (fun n v => reports body n v /\ check n v = Ok tt) required vs.
Proof.
  intros Hnd. split.
  - intros (out & Ho & H). apply exposition_values_exact in Ho. apply Forall2_same_length_lookup in H as [Hl H].
    apply Forall2_same_length_lookup. split; [done|]. intros i n v Hn Hv. specialize (H i n v Hn Hv).
    specialize (Ho n). unfold required_samples in Ho. rewrite bool_decide_eq_true_2 in Ho by (by eapply list_elem_of_lookup_2).
    rewrite lookup_empty in Ho. unfold reports. destruct (samples (lines body) n) as [|l []]; simpl in Ho; [congruence| |done].
    destruct Ho as (v' & Hs & Hk & Ho). assert (v' = v) as -> by congruence. split; [by exists l|done].
  - intros H. pose proof (Forall2_length _ _ _ H) as Hl. pose proof (zip_lookup_map _ _ Hnd Hl) as Hz.
    exists (list_to_map (zip required vs)). split; [|done]. apply exposition_values_exact. intros n. unfold required_samples.
    rewrite lookup_empty. case_bool_decide as Hn.
    + apply list_elem_of_lookup in Hn as [i Hn]. destruct (Forall2_lookup_l _ _ _ _ _ H Hn) as (v & Hv & (l & -> & Hs) & Hk).
      destruct (Forall2_lookup_l _ _ _ _ _ Hz Hn) as (v' & Hv' & ->). assert (v' = v) as -> by congruence. by exists v.
    + simpl. apply not_elem_of_list_to_map. by rewrite fst_zip by lia.
Qed.

Definition prometheus_fields (m : PrometheusMetrics) : list Z :=
  [config_last_reload_successful m; tsdb_head_series m; tsdb_head_chunks m; tsdb_head_samples_appended_total m;
   engine_queries m; pm_resident_memory_bytes m; process_virtual_memory_bytes m; go_goroutines m].

Definition etcd_fields (m : EtcdMetrics) : list Z :=
  [server_has_leader m; server_is_leader m; leader_changes_seen_total m; proposals_applied_total m;
   proposals_committed_total m; proposals_failed_total m; proposals_pending m; mvcc_db_total_size_bytes m;
   mvcc_db_total_size_in_use_bytes m; et_resident_memory_bytes m].

Lemma taken_Ok {A} (service : str) (values : gmap str A) (name : str) (v : A) : take_metric service values name = Ok v <-> values !! name = Some v.
Proof. apply ok_or_Ok. Qed.

Ltac read_fields :=
  repeat match goal with
         | H : obind _ _ = Ok _ |- _ => apply obind_Ok_inv in H as (? & H & ?)
         | H : take_metric _ _ _ = Ok _ |- _ => apply taken_Ok in H
         end.

Lemma prometheus_steps body m :
  parse_prometheus_metrics body = Ok m <->
  exists out, exposition_values (lit "Prometheus") PROMETHEUS_REQUIRED (fun _ _ => Ok tt) (lines body) ∅ = Ok out /\
    Forall2 (fun n v => out !! n = Some v) PROMETHEUS_REQUIRED (prometheus_fields m).
Proof.
  unfold parse_prometheus_metrics. split.
  - intros H. read_fields. simplify_eq. eexists. split; [done|]. unfold prometheus_fields. simpl. by repeat constructor.
  - intros (out & -> & H). unfold prometheus_fields, PROMETHEUS_REQUIRED in H. cbn [obind].
    repeat (apply Forall2_cons in H as [E H]; rewrite (proj2 (taken_Ok _ out _ _) E); cbn [obind]; clear E).
    by destruct m.
Qed.

Lemma etcd_steps body m :
  parse_etcd_metrics body = Ok m <->
  exists out, exposition_values (lit "etcd") ETCD_REQUIRED leader_gauge (lines body) ∅ = Ok out /\
    Forall2 (fun n v => out !! n = Some v) ETCD_REQUIRED (etcd_fields m).
Proof.
  unfold parse_etcd_metrics. split.
  - intros H. read_fields. simplify_eq. eexists. split; [done|]. unfold etcd_fields. simpl. by repeat constructor.
  - intros (out & -> & H). unfold etcd_fields, ETCD_REQUIRED in H. cbn [obind].
    repeat (apply Forall2_cons in H as [E H]; rewrite (proj2 (taken_Ok _ out _ _) E); cbn [obind]; clear E).
    by destruct m.
Qed.

Lemma Forall2_and_r {A B} (P Q : A -> B -> Prop) xs ys :
  Forall2 (fun x y => P x y /\ Q x y) xs ys <-> Forall2 P xs ys /\ Forall2 Q xs ys.
Proof.
  split.
  - intros H. split; induction H; constructor; naive_solver.
  - intros [H1 H2]. induction H1; inversion H2; subst; constructor; auto.
Qed.

(** a Prometheus or etcd page gives metrics exactly when every required metric is on one
    line of it, without labels and with a number, the leader gauges of etcd being 0 or 1; the
    metrics are those numbers. *)
Theorem pages_exact body :
  (forall m, parse_prometheus_metrics body = Ok m <-> Forall2 (reports body) PROMETHEUS_REQUIRED (prometheus_fields m)) /\
  (forall m, parse_etcd_metrics body = Ok m <->
     Forall2 (reports body) ETCD_REQUIRED (etcd_fields m) /\ server_has_leader m <= 1 /\ server_is_leader m <= 1).
Proof.
  split; intros m.
  - rewrite prometheus_steps, scan_reports by (apply (bool_decide_unpack _); by vm_compute). rewrite Forall2_and_r.
    split; [tauto|]. intros H. split; [done|]. unfold prometheus_fields. by repeat constructor.
  - rewrite etcd_steps, scan_reports by (apply (bool_decide_unpack _); by vm_compute). rewrite Forall2_and_r.
    apply and_iff_compat_l. unfold etcd_fields, ETCD_REQUIRED. split.
    + intros H. apply Forall2_cons in H as [H1 H]. apply Forall2_cons in H as [H2 _].
      unfold leader_gauge in H1, H2. change (bool_decide (_ ∈ _)) with true in H1, H2. simpl in H1, H2.
      destruct (Z.ltb_spec 1 (server_has_leader m)), (Z.ltb_spec 1 (server_is_leader m)); done || lia.
    + intros [H1 H2]. unfold leader_gauge. repeat constructor; try done;
        change (bool_decide (_ ∈ _)) with true; simpl; by rewrite (proj2 (Z.ltb_ge _ _)).
Qed.

(** ** HAProxy *)

Definition haproxy_fields (m : HaProxyMetrics) : list Z :=
  [current_sessions m; sessions_total m; bytes_in_total m; bytes_out_total m; denied_requests_total m;
   denied_responses_total m; failed_connections_total m; retry_warnings_total m; servers_down m].

(** The number in a column of a record. *)
Definition cell (indices : gmap str nat) (record : list str) (name : str) : Z :=
  match number indices record name with Ok v => v | _ => 0 end.

Definition cell_among (indices : gmap str nat) (record : list str) (name : str) (texts : list str) : bool :=
  match field indices record name with Ok s => bool_decide (s ∈ texts) | _ => false end.

Definition record_is (indices : gmap str nat) (kind : str) (record : list str) : bool :=
  cell_among indices record (lit "svname") [kind].

(** What a record adds to each field. *)
Definition contribution (indices : gmap str nat) (record : list str) : list Z :=
  if record_is indices (lit "FRONTEND") record then
    [cell indices record (lit "scur"); cell indices record (lit "stot"); cell indices record (lit "bin");
     cell indices record (lit "bout"); cell indices record (lit "dreq"); 0; 0; 0; 0]
  else if record_is indices (lit "BACKEND") record then
    [0; 0; 0; 0; 0; cell indices record (lit "dresp"); cell indices record (lit "econ"); cell indices record (lit "wretr"); 0]
  else [0; 0; 0; 0; 0; 0; 0; 0;
        if cell_among indices record (lit "status") [lit "DOWN"; lit "MAINT"] then 1 else 0].

Definition totals (indices : gmap str nat) (records : list (list str)) : list Z :=
  foldl (fun sums r => zip_with Z.add sums (contribution indices r)) (replicate 9 0) records.

Lemma add_Ok t v r : add t v = Ok r <-> r = t + v /\ t + v < 2 ^ 64.
Proof.
  unfold add. rewrite ok_or_Ok. unfold checked_add64. destruct (Z.ltb_spec (t + v) (2 ^ 64)); naive_solver lia.
Qed.

Lemma number_cell indices record name v : number indices record name = Ok v -> cell indices record name = v.
Proof. unfold cell. by intros ->. Qed.

Ltac read_numbers :=
  repeat match goal with
         | H : obind _ _ = Ok _ |- _ => apply obind_Ok_inv in H as (? & H & ?)
         | H : number _ _ _ = Ok _ |- _ => apply number_cell in H
         | H : add _ _ = Ok _ |- _ => apply add_Ok in H as [? ?]
         end.

Lemma haproxy_record_adds indices record m m' a :
  haproxy_record indices record m = Ok (m', a) ->
  haproxy_fields m' = zip_with Z.add (haproxy_fields m) (contribution indices record) /\
  a = record_is indices (lit "FRONTEND") record || record_is indices (lit "BACKEND") record /\
  (Forall (fun v => v < 2 ^ 64) (haproxy_fields m) -> Forall (fun v => v < 2 ^ 64) (haproxy_fields m')).
Proof.
  unfold haproxy_record. intros H. apply obind_Ok_inv in H as (svname & Hs & H). apply obind_Ok_inv in H as (status & Ht & H).
  unfold contribution, record_is, cell_among. rewrite Hs, Ht.
  assert (forall k, bool_decide (svname ∈ [k]) = bool_decide (svname = k)) as Hk
    by (intros k; apply bool_decide_ext, list_elem_of_singleton).
  rewrite !Hk.
  destruct (bool_decide (svname = lit "FRONTEND")); [|destruct (bool_decide (svname = lit "BACKEND"));
    [|destruct (bool_decide (status ∈ _))]]; read_numbers; simplify_eq; unfold haproxy_fields; simpl;
    rewrite ?Forall_cons; intuition (try (repeat f_equal; lia)); try lia.
Qed.

Lemma haproxy_records_add indices records m n m' n' :
  haproxy_records indices records m n = Ok (m', n') -> Forall (fun v => v < 2 ^ 64) (haproxy_fields m) ->
  exists rs, records = Some <$> rs /\
    haproxy_fields m' = foldl (fun sums r => zip_with Z.add sums (contribution indices r)) (haproxy_fields m) rs /\
    Forall (fun v => v < 2 ^ 64) (haproxy_fields m') /\
    n' = n + Z.of_nat (length (filter (fun r => record_is indices (lit "FRONTEND") r || record_is indices (lit "BACKEND") r = true) rs)).
Proof.
  revert m n. induction records as [|[r|] records IH]; intros m n; cbn [haproxy_records]; [| |done].
  - intros [= <- <-] Hb. exists []. split_and!; [done..|]. simpl. lia.
  - intros H Hb. apply obind_Ok_inv in H as ([m1 a] & H1 & H). apply haproxy_record_adds in H1 as (Ef & -> & Hb1).
    destruct (IH _ _ H (Hb1 Hb)) as (rs & -> & E & Hb' & ->). exists (r :: rs). split_and!; [done|by rewrite E, Ef|done|].
    rewrite filter_cons. destruct (_ || _); simpl; lia.
Qed.

Definition all_columns (headers : list str) : option (gmap str nat) :=
  match columns headers HAPROXY_REQUIRED with Ok m => Some m | _ => None end.

(** the statistics of HAProxy are the sums over all records of what each contributes, a
    frontend its sessions, bytes and denials, a backend its errors and retries, any other
    record itself when it is down; no sum exceeds 64 bits and there is an aggregate record. *)
Theorem haproxy_sums csv text m :
  parse_haproxy_stats csv text = Ok m ->
  exists body ends headers records indices,
    text = body ++ ends /\ Forall (fun b => b = x0d \/ b = x0a) ends /\
    csv body = (Some headers, Some <$> records) /\ all_columns headers = Some indices /\
    haproxy_fields m = totals indices records /\ Forall (fun v => v < 2 ^ 64) (haproxy_fields m) /\
    Exists (fun r => record_is indices (lit "FRONTEND") r || record_is indices (lit "BACKEND") r = true) records.
Proof.
  unfold parse_haproxy_stats. set (p := fun b : byte => bool_decide (b = x0d) || bool_decide (b = x0a)).
  assert (forall s, exists e, s = e ++ drop_while p s /\ Forall (fun b => b = x0d \/ b = x0a) e) as Hd.
  { induction s as [|b s (e & E & He)]; [by exists []|]. simpl. destruct (p b) eqn:Hp; [|by exists []].
    exists (b :: e). split; [by rewrite E at 1|]. constructor; [|done]. unfold p in Hp.
    apply orb_true_iff in Hp as [Hp|Hp]; apply bool_decide_eq_true in Hp; auto. }
  destruct (Hd (reverse text)) as (e & E & He). set (body := reverse (drop_while p (reverse text))).
  destruct (csv body) as [hs rs] eqn:Ecsv. intros H. apply obind_Ok_inv in H as (headers & Hh & H). apply ok_or_Ok in Hh as ->.
  apply obind_Ok_inv in H as (indices & Hi & H). apply obind_Ok_inv in H as ([m' n] & Hr & H).
  destruct (negb (n =? 0)) eqn:En; [|done]. injection H as <-.
  apply haproxy_records_add in Hr as (records & -> & Ef & Hb & ->); [|by repeat constructor].
  exists body, (reverse e), headers, records, indices. split_and!; try done.
  - rewrite <- (reverse_involutive text), E, reverse_app. done.
  - by apply Forall_reverse.
  - unfold all_columns. by rewrite Hi.
  - apply Exists_exists. destruct (filter _ records) as [|r l] eqn:El; [done|]. exists r.
    assert (r ∈ r :: l) as Hin by constructor. rewrite <- El in Hin. by apply list_elem_of_filter in Hin as [? ?].
Qed.

(** A frontend, a backend and a server that is down. *)
Definition sample_csv (_ : str) : option (list str) * list (option (list str)) :=
  (Some (lit "# pxname" :: drop 1 HAPROXY_REQUIRED),
   [Some [lit "web"; lit "FRONTEND"; lit "3"; lit "40"; lit "500"; lit "600"; lit "7"; []; []; []; lit "OPEN"];
    Some [lit "app"; lit "s1"; lit "1"; lit "2"; []; []; []; lit "9"; lit "9"; lit "9"; lit "DOWN"];
    Some [lit "app"; lit "BACKEND"; lit "1"; lit "2"; []; []; []; lit "4"; lit "5"; lit "6"; lit "UP"]]).

Definition sample_sums : HaProxyMetrics := {|
  current_sessions := 3; sessions_total := 40; bytes_in_total := 500; bytes_out_total := 600; denied_requests_total := 7;
  denied_responses_total := 4; failed_connections_total := 5; retry_warnings_total := 6; servers_down := 1 |}.

Theorem haproxy_sums_witness :
  parse_haproxy_stats sample_csv [] = Ok sample_sums /\
  exists records indices, haproxy_fields sample_sums = totals indices records.
Proof.
  assert (parse_haproxy_stats sample_csv [] = Ok sample_sums) as H by (vm_compute; reflexivity).
  split; [exact H|].
  destruct (haproxy_sums sample_csv [] sample_sums H) as (? & ? & ? & records & indices & _ & _ & _ & _ & E & _).
  exists records, indices. exact E.
Defined.

(** A page with a comment, labels on a metric that is not required, and an exponent. *)
Definition etcd_page : str :=
  mjoin ((fun l => l ++ [x0a]) <$>
    [lit "# HELP etcd"; lit "etcd_server_has_leader 1"; lit "etcd_server_is_leader 0"; lit "other{a=1} 7";
     lit "etcd_server_leader_changes_seen_total 2"; lit "etcd_server_proposals_applied_total 1.5e3";
     lit "etcd_server_proposals_committed_total 1500"; lit "etcd_server_proposals_failed_total 0";
     lit "etcd_server_proposals_pending 0.0"; lit "etcd_mvcc_db_total_size_in_bytes 8192";
     lit "etcd_mvcc_db_total_size_in_use_in_bytes 4096"; lit "process_resident_memory_bytes 1.0485760e+07"]).

Example etcd_page_read :
  parse_etcd_metrics etcd_page =
  Ok {| server_has_leader := 1; server_is_leader := 0; leader_changes_seen_total := 2; proposals_applied_total := 1500;
        proposals_committed_total := 1500; proposals_failed_total := 0; proposals_pending := 0;
        mvcc_db_total_size_bytes := 8192; mvcc_db_total_size_in_use_bytes := 4096; et_resident_memory_bytes := 10485760 |}.
Proof. vm_compute. reflexivity. Qed.
