(* ===== verification/WorkloadWireSpec.v ===== *)
(** * What the connections to monitored services exchange

    [auth_roundtrip] and [redis_exchange_exact] for RESP, [memcached_exchange_exact] for the
    stats protocol, [http_body_exact] for the bodies of the HTTP services. *)

From S2P Require Import Prelude RustStr Workload WorkloadWire.

Local Open Scope outcome_scope.

Lemma or_unreachable_Ok {A} (r : outcome A ending) a : or_unreachable r = Ok a <-> r = Ok a.
Proof. destruct r; simpl; naive_solver. Qed.

Definition after (rest : str) (c : Conn) : Conn :=
  {| incoming := rest; at_end := at_end c; sent := sent c; write_error := write_error c |}.

Lemma conn_read_Ok n c s c' : read_exact n c = Ok (s, c') <-> incoming c = s ++ incoming c' /\ length s = n /\ c' = after (incoming c') c.
Proof.
  unfold read_exact, after. destruct (Nat.leb_spec n (length (incoming c))) as [H|H].
  - split.
    + intros [= <- <-]. simpl. by rewrite take_drop, length_take, Nat.min_l by lia.
    + intros (E & <- & ->). simpl in *. rewrite E, take_app_length, drop_app_length. reflexivity.
  - split; [done|]. intros (E & <- & _). rewrite E, length_app in H. lia.
Qed.

Lemma read_exact_step s rest c : incoming c = s ++ rest -> read_exact (length s) c = Ok (s, after rest c).
Proof. intros E. by apply conn_read_Ok. Qed.

(** ** Lines *)

Definition crlf_free (s : str) : Prop := forall a b, s <> a ++ CRLF ++ b.

Definition ends_crlf (s : str) : Prop := drop (length s - 2) s = CRLF.

Lemma ends_crlf_app s : ends_crlf s <-> exists t, s = t ++ CRLF.
Proof.
  unfold ends_crlf. split.
  - intros E. exists (take (length s - 2) s). rewrite <- E. by rewrite take_drop.
  - intros [t ->]. rewrite length_app. replace (length t + length CRLF - 2)%nat with (length t) by (simpl; lia).
    by rewrite drop_app_length.
Qed.

Lemma chop_crlf t : take (length (t ++ CRLF) - 2) (t ++ CRLF) = t.
Proof. rewrite length_app. replace (length t + length CRLF - 2)%nat with (length t) by (simpl; lia). by rewrite take_app_length. Qed.

(** A line ends where it first ends. *)
Lemma crlf_free_prefix t u v : crlf_free t -> t ++ CRLF = (u ++ CRLF) ++ v -> v = [].
Proof.
  intros Hf E. destruct v as [|b v _] using rev_ind; [done|]. exfalso. rewrite app_assoc in E.
  change CRLF with ([x0d] ++ [x0a]) in E at 1. rewrite app_assoc in E. apply app_inj_tail in E as [E <-].
  destruct v as [|b v _] using rev_ind.
  - rewrite app_nil_r in E. change CRLF with ([x0d] ++ [x0a]) in E. rewrite app_assoc in E. by apply app_inj_tail in E as [_ E].
  - rewrite app_assoc in E. apply app_inj_tail in E as [E _]. apply (Hf u v). by rewrite <- app_assoc in E.
Qed.

Lemma string_from_utf8_Ok m s t : string_from_utf8 m s = Ok t <-> utf8_valid t = true /\ s = t.
Proof. unfold string_from_utf8. destruct (utf8_valid s) eqn:E; naive_solver congruence. Qed.

Section Redis.
Variable utf8_message : str -> str.

Lemma resp_line_loop_sound room acc c t room' c' :
  resp_line_loop utf8_message room acc c = Ok (t, room', c') ->
  exists s, incoming c = s ++ incoming c' /\ acc ++ s = t ++ CRLF /\ room = (length s + room')%nat /\ utf8_valid t = true /\
    c' = after (incoming c') c /\ forall p q, s = p ++ q -> p <> [] -> q <> [] -> ~ ends_crlf (acc ++ p).
Proof.
  revert acc c. induction room as [|room IH]; intros acc c; cbn [resp_line_loop]; [done|]. intros H.
  apply obind_Ok_inv in H as ([b c1] & Hb & H). apply or_unreachable_Ok, conn_read_Ok in Hb as (Ei & Hl & Ec).
  destruct b as [|b []]; try done. case_bool_decide as He.
  - apply obind_Ok_inv in H as (u & Hu & H). injection H as -> <- <-.
    apply string_from_utf8_Ok in Hu as [Hv Hu]. pose proof He as [w Ew]%ends_crlf_app.
    rewrite Ew, chop_crlf in Hu. subst w. exists [b].
    split_and!; [done..|]. intros p q E Hp Hq. destruct p as [|? p]; [done|]. injection E as _ E.
    apply eq_sym, app_nil in E as [_ ->]. done.
  - destruct (IH _ _ H) as (s & E1 & E2 & -> & Hv & E3 & Hp). exists (b :: s). rewrite <- app_assoc in E2. simpl in E2.
    split_and!; [by rewrite Ei, E1|done|done|done|by rewrite E3, Ec|].
    intros [|? p] q E Hp0 Hq; [done|]. injection E as <- E. destruct p as [|b' p]; [done|].
    specialize (Hp _ _ E ltac:(done) Hq). by rewrite <- app_assoc in Hp.
Qed.

Lemma resp_line_loop_complete room acc c t s rest :
  incoming c = s ++ rest -> acc ++ s = t ++ CRLF -> s <> [] -> crlf_free t -> utf8_valid t = true -> (length s <= room)%nat ->
  resp_line_loop utf8_message room acc c = Ok (t, (room - length s)%nat, after rest c).
Proof.
  revert room acc c. induction s as [|b s IH]; intros room acc c Ei E Hne Hf Hv Hr; [done|].
  destruct room as [|room]; simpl in Hr; [lia|]. cbn [resp_line_loop].
  rewrite (read_exact_step [b] (s ++ rest)) by done. cbn [or_unreachable obind]. case_bool_decide as He.
  - apply ends_crlf_app in He as [w Ew]. replace (b :: s) with ([b] ++ s) in E by done. rewrite app_assoc, Ew in E.
    apply eq_sym in E as E'. apply crlf_free_prefix in E'; [|done]. subst s. rewrite app_nil_r in E. apply app_inv_tail in E as ->.
    rewrite Ew, chop_crlf. unfold string_from_utf8. rewrite Hv. simpl. repeat f_equal. lia.
  - destruct s as [|b' s].
    { exfalso. apply He. apply ends_crlf_app. by exists t. }
    rewrite (IH room (acc ++ [b]) (after ((b' :: s) ++ rest) c)).
    all: try done; try (by rewrite <- app_assoc); try (simpl in *; lia).
Qed.

(** A line is read exactly when it comes, whole, before the cap. *)
Lemma read_resp_line_exact cap consumed c t consumed' c' :
  (consumed <= cap)%nat ->
  read_resp_line utf8_message cap consumed c = Ok (t, consumed', c') <->
  incoming c = t ++ CRLF ++ incoming c' /\ crlf_free t /\ utf8_valid t = true /\
  consumed' = (consumed + length t + 2)%nat /\ (consumed' <= cap)%nat /\ c' = after (incoming c') c.
Proof.
  intros Hc. unfold read_resp_line. split.
  - intros H. apply obind_Ok_inv in H as ([[u room] c1] & H & E). injection E as -> <- <-.
    apply resp_line_loop_sound in H as (s & Ei & Es & Er & Hv & Ea & Hp). simpl in Es. subst s.
    rewrite length_app in Er. simpl in Er. rewrite <- app_assoc in Ei. split_and!; [done| |done|lia|lia|done].
    intros a b ->. apply (Hp (a ++ CRLF) (b ++ CRLF)); [by rewrite !app_assoc|by destruct a|by destruct b|].
    apply ends_crlf_app. by exists a.
  - intros (Ei & Hf & Hv & -> & Hle & ->). simpl in *.
    rewrite (resp_line_loop_complete _ [] _ t (t ++ CRLF) (incoming c')); try done.
    + cbn [obind]. rewrite length_app. repeat f_equal. simpl. lia.
    + by rewrite <- app_assoc.
    + by destruct t.
    + rewrite length_app. simpl. lia.
Qed.

Lemma number_line s v : parse_usize s = Some v -> 0 <= v /\ crlf_free s /\ utf8_valid s = true.
Proof.
  intros H. apply parse_unsigned_inv in H as [Hv Hd]. split; [lia|]. split.
  - intros a b ->. apply Forall_app in Hd as [_ Hd]. apply Forall_inv in Hd. by destruct Hd.
  - apply utf8_valid_ascii. eapply Forall_impl; [exact Hd|]. intros b [Hb| ->]; [|done].
    unfold is_ascii_digit, byte_in in Hb. bool_prop. lia.
Qed.

(** What a bulk reply of RESP has room for. *)
Definition bulk_fits (cap : nat) (line body : str) : Prop :=
  (length line + 3 <= cap)%nat /\ (length body <= cap - (length line + 3) - 2)%nat.

Definition bulk (line body : str) : str := lit "$" ++ line ++ CRLF ++ body ++ CRLF.

Lemma read_redis_info_exact cap c body c' :
  (0 < cap)%nat ->
  read_redis_info_response utf8_message cap c = Ok (body, c') <->
  exists line, incoming c = bulk line body ++ incoming c' /\ parse_usize line = Some (Z.of_nat (length body)) /\
    bulk_fits cap line body /\ utf8_valid body = true /\ c' = after (incoming c') c.
Proof.
  intros Hcap. unfold read_redis_info_response, bulk, bulk_fits. split.
  - intros H. apply obind_Ok_inv in H as ([p c1] & Hp & H). apply or_unreachable_Ok, conn_read_Ok in Hp as (E1 & _ & Ec1).
    destruct (bool_decide (p = lit "-")); [by destruct (read_resp_line _ _ _ _)|].
    destruct (bool_decide_reflect (p = lit "$")) as [->|]; [|done]. simpl in H.
    apply obind_Ok_inv in H as ([[line consumed] c2] & Hl & H).
    apply read_resp_line_exact in Hl as (E2 & _ & _ & -> & Hle & Ec2); [|lia].
    apply obind_Ok_inv in H as (len & Hlen & H). apply ok_or_Ok in Hlen. destruct (number_line _ _ Hlen) as [Hn _].
    destruct (Z.ltb_spec (Z.of_nat (cap - (1 + length line + 2) - 2)) len) as [|Hfit]; [done|]. simpl in H.
    apply obind_Ok_inv in H as ([b c3] & Hb & H). apply or_unreachable_Ok, conn_read_Ok in Hb as (E3 & Hlb & Ec3).
    apply obind_Ok_inv in H as ([e c4] & He & H). apply or_unreachable_Ok, conn_read_Ok in He as (E4 & _ & Ec4).
    destruct (bool_decide_reflect (e = CRLF)) as [->|]; [|done]. apply obind_Ok_inv in H as (t & Ht & H).
    apply string_from_utf8_Ok in Ht as [Hv <-]. injection H as -> ->.
    exists line. rewrite E1, E2, E3, E4. split_and!; [by rewrite <- !app_assoc|rewrite Hlb, Z2Nat.id by lia; done|lia|lia|done|].
    rewrite Ec4, Ec3, Ec2, Ec1. by destruct c.
  - intros (line & E & Hlen & [Hf1 Hf2] & Hv & Ec). destruct (number_line _ _ Hlen) as (_ & Hcf & Hvl).
    rewrite <- !app_assoc in E. rewrite (read_exact_step (lit "$") _ c E : read_exact 1 c = _). cbn [or_unreachable obind].
    change (bool_decide (lit "$" = lit "-")) with false. change (bool_decide (lit "$" = lit "$")) with true. cbn [negb].
    rewrite (proj2 (read_resp_line_exact cap 1 _ line (1 + length line + 2) (after (body ++ CRLF ++ incoming c') c) ltac:(lia)))
      by (simpl; split_and!; (done || lia)).
    cbn [obind]. rewrite Hlen. cbn [ok_or obind].
    rewrite (proj2 (Z.ltb_ge _ _)) by lia. cbn [negb]. rewrite Nat2Z.id.
    rewrite (read_exact_step body (CRLF ++ incoming c')) by done. cbn [or_unreachable obind].
    rewrite (read_exact_step CRLF (incoming c') (after (CRLF ++ incoming c') _) eq_refl : read_exact 2 _ = _). cbn [or_unreachable obind].
    rewrite bool_decide_eq_true_2 by done. unfold string_from_utf8. rewrite Hv. cbn [obind]. do 2 f_equal. by rewrite Ec.
Qed.
End Redis.

(** ** Key and value lines *)

Definition fresh (values : gmap str str) (kvs : list (str * str)) : Prop :=
  NoDup kvs.*1 /\ Forall (fun kv => values !! kv.1 = None) kvs.

Definition merged (values : gmap str str) (kvs : list (str * str)) (out : gmap str str) : Prop :=
  fresh values kvs /\ out = list_to_map kvs ∪ values.

Lemma merged_nil values out : merged values [] out <-> out = values.
Proof. unfold merged, fresh. simpl. rewrite (left_id_L ∅ (∪)). split; [tauto|]. intros ->. repeat constructor. Qed.

Lemma merged_cons (values : gmap str str) (k v : str) kvs out :
  merged values ((k, v) :: kvs) out <-> values !! k = None /\ merged (<[k := v]> values) kvs out.
Proof.
  unfold merged, fresh. cbn [fmap list_fmap fst]. rewrite NoDup_cons, Forall_cons. cbn [fst].
  assert (forall l : list (str * str), k ∉ l.*1 -> list_to_map ((k, v) :: l) ∪ values = list_to_map l ∪ <[k := v]> values) as Hu.
  { intros l Hk. simpl. rewrite <- insert_union_l, insert_union_r; [done|]. by apply not_elem_of_list_to_map. }
  assert (forall l : list (str * str), Forall (fun kv => <[k := v]> values !! kv.1 = None) l <->
            k ∉ l.*1 /\ Forall (fun kv => values !! kv.1 = None) l) as Hf.
  { intros l. induction l as [|[k' v'] l IH]; [simpl; split; [split; [apply not_elem_of_nil|]|]; constructor|].
    rewrite !Forall_cons, IH. cbn [fmap list_fmap fst]. rewrite not_elem_of_cons, lookup_insert_None. tauto. }
  rewrite Hf. split.
  - intros (((Hk & Hnd) & Hv & Hfr) & ->). rewrite Hu by done. tauto.
  - intros (Hv & (Hnd & Hk & Hfr) & ->). rewrite Hu by done. tauto.
Qed.

(** The text a list of pairs has for a metric is the number. *)
Definition pair_gives (kvs : list (str * str)) (name : str) (v : Z) : Prop := exists t, (name, t) ∈ kvs /\ parse_u64 t = Some v.

Lemma merged_lookup kvs out (k t : str) : merged ∅ kvs out -> out !! k = Some t <-> (k, t) ∈ kvs.
Proof. intros [[Hnd _] ->]. rewrite (right_id_L ∅ (∪)). symmetry. by apply elem_of_list_to_map. Qed.

Lemma text_metric_Ok missing not_numeric kvs out (k : str) v :
  merged ∅ kvs out -> text_metric missing not_numeric out k = Ok v <-> pair_gives kvs k v.
Proof.
  intros Hm. unfold text_metric, pair_gives. setoid_rewrite <- (merged_lookup kvs out k _ Hm). split.
  - intros H. apply obind_Ok_inv in H as (t & H1 & H2). apply ok_or_Ok in H1, H2. by exists t.
  - intros (t & -> & H). simpl. by rewrite H.
Qed.

(** The pairs of a list of lines, no key twice. *)
Definition pairs_of (split : str -> option (str * str)) (ls : list str) (kvs : list (str * str)) : Prop :=
  Forall2 (fun l kv => split l = Some kv) ls kvs.

Lemma pairs_nil split values out : (exists kvs, pairs_of split [] kvs /\ merged values kvs out) <-> out = values.
Proof.
  split.
  - intros (kvs & H & Hm). apply Forall2_nil_inv_l in H as ->. by apply merged_nil in Hm.
  - intros ->. exists []. split; [constructor|]. by apply merged_nil.
Qed.

Lemma pairs_cons split l ls values out :
  (exists kvs, pairs_of split (l :: ls) kvs /\ merged values kvs out) <->
  exists k v, split l = Some (k, v) /\ values !! k = None /\ exists kvs, pairs_of split ls kvs /\ merged (<[k := v]> values) kvs out.
Proof.
  split.
  - intros (kvs & H & Hm). apply Forall2_cons_inv_l in H as ([k v] & kvs' & Hs & H & ->). apply merged_cons in Hm as [Hv Hm].
    by exists k, v; eauto.
  - intros (k & v & Hs & Hv & kvs & H & Hm). exists ((k, v) :: kvs). split; [by constructor|]. by apply merged_cons.
Qed.

Definition info_line (l : str) : Prop := l <> [] /\ starts_with (lit "#") l = false.

Lemma redis_values_exact ls values out :
  redis_values ls values = Ok out <-> exists kvs, pairs_of (split_once x3a) (filter info_line ls) kvs /\ merged values kvs out.
Proof.
  revert values. induction ls as [|l ls IH]; intros values; cbn [redis_values].
  { rewrite filter_nil, pairs_nil. naive_solver. }
  destruct (bool_decide_reflect (l = [])) as [->|Hl]; [rewrite filter_cons_False by (by intros []); apply IH|].
  destruct (starts_with (lit "#") l) eqn:Hc; [rewrite filter_cons_False by (intros []; congruence); apply IH|]. cbn [orb].
  rewrite filter_cons_True, pairs_cons by done. destruct (split_once x3a l) as [[k v]|]; simpl; [|naive_solver].
  destruct (bool_decide_reflect (is_Some (values !! k))) as [[w Hw]|Hn]; [naive_solver congruence|].
  rewrite IH. apply eq_None_not_Some in Hn. naive_solver.
Qed.

(** ** The exchange with Redis *)

Definition REDIS_NAMES : list str :=
  [lit "connected_clients"; lit "used_memory"; lit "total_commands_processed"; lit "instantaneous_ops_per_sec";
   lit "keyspace_hits"; lit "keyspace_misses"].

Definition redis_fields (m : RedisMetrics) : list Z :=
  [connected_clients m; used_memory m; total_commands_processed m; instantaneous_ops_per_sec m; keyspace_hits m; keyspace_misses m].

(** What the lines of an INFO text report. *)
Definition info_reports (info : str) (m : RedisMetrics) : Prop :=
  exists kvs, pairs_of (split_once x3a) (filter info_line (lines info)) kvs /\ NoDup kvs.*1 /\
    Forall2 (pair_gives kvs) REDIS_NAMES (redis_fields m).

Lemma merged_empty kvs : NoDup kvs.*1 -> merged ∅ kvs (list_to_map kvs ∪ ∅).
Proof. intros H. split; [|done]. split; [done|]. apply Forall_forall. intros kv _. apply lookup_empty. Qed.

Ltac read_metrics Hm :=
  repeat match goal with
         | H : obind _ _ = Ok _ |- _ => apply obind_Ok_inv in H as (? & H & ?)
         | H : text_metric _ _ _ _ = Ok _ |- _ => apply (text_metric_Ok _ _ _ _ _ _ Hm) in H
         end.

Ltac give_metrics Hm H :=
  repeat (apply Forall2_cons in H as [?E H]; rewrite (proj2 (text_metric_Ok _ _ _ _ _ _ Hm) E); cbn [obind]; clear E).

Lemma parse_redis_info_exact info m : parse_redis_info info = Ok m <-> info_reports info m.
Proof.
  unfold parse_redis_info, info_reports. split.
  - intros H. apply obind_Ok_inv in H as (values & Hv & H). apply redis_values_exact in Hv as (kvs & Hp & Hm).
    exists kvs. split; [done|]. split; [apply Hm|]. read_metrics Hm. simplify_eq. unfold redis_fields. simpl. by repeat constructor.
  - intros (kvs & Hp & Hnd & H). pose proof (merged_empty _ Hnd) as Hm.
    rewrite (proj2 (redis_values_exact _ _ _)) by eauto. cbn [obind]. unfold REDIS_NAMES, redis_fields in H.
    give_metrics Hm H. by destruct m.
Qed.

(** A decoder of RESP requests: an array of bulk strings. *)
Definition decode_line (s : str) : option (str * str) :=
  i ← find_sub CRLF s; Some (take i s, drop (i + 2) s).

Definition decode_bulk (s : str) : option (str * str) :=
  match s with
  | x24 :: s =>
      '(line, s) ← decode_line s; len ← parse_usize line;
      let n := Z.to_nat len in
      if bool_decide (take 2 (drop n s) = CRLF) then Some (take n s, drop (n + 2) s) else None
  | _ => None
  end.

Fixpoint decode_bulks (n : nat) (s : str) : option (list str * str) :=
  match n with
  | O => Some ([], s)
  | S n => '(a, s) ← decode_bulk s; '(rest, s) ← decode_bulks n s; Some (a :: rest, s)
  end.

Definition decode_request (s : str) : option (list str * str) :=
  match s with
  | x2a :: s => '(line, s) ← decode_line s; n ← parse_usize line; decode_bulks (Z.to_nat n) s
  | _ => None
  end.

Lemma decode_line_app line rest : Forall (fun b => is_ascii_digit b = true) line -> decode_line (line ++ CRLF ++ rest) = Some (line, rest).
Proof.
  intros H. unfold decode_line, CRLF. rewrite find_sub_skip by (intros Hin; rewrite Forall_forall in H; by apply H in Hin).
  rewrite find_sub_prefix. simpl. rewrite take_app_length', drop_app_ge by lia. repeat f_equal.
  by replace (length line + 0 + 2 - length line)%nat with 2%nat by lia.
Qed.

Lemma decode_bulk_argument a rest :
  Z.of_nat (length a) <= u64_max -> decode_bulk (encode_argument a ++ rest) = Some (a, rest).
Proof.
  intros Hl. unfold encode_argument. rewrite <- !app_assoc. change (lit "$") with [x24]. cbn [app decode_bulk].
  rewrite decode_line_app by apply show_unsigned_digits. cbn [mbind option_bind].
  unfold parse_usize, parse_u64. rewrite parse_show_unsigned by (unfold u64_max in *; lia). cbn [mbind option_bind].
  rewrite Nat2Z.id, drop_app_length, take_app_length, drop_app_ge by lia.
  by replace (length a + 2 - length a)%nat with 2%nat by lia.
Qed.

Lemma decode_bulks_arguments args rest :
  Forall (fun a => Z.of_nat (length a) <= u64_max) args ->
  decode_bulks (length args) (mjoin (encode_argument <$> args) ++ rest) = Some (args, rest).
Proof.
  induction 1 as [|a args Ha _ IH]; [done|]. cbn [length decode_bulks].
  change (mjoin (encode_argument <$> a :: args)) with (encode_argument a ++ mjoin (encode_argument <$> args)).
  rewrite <- app_assoc, decode_bulk_argument by done. cbn [mbind option_bind]. by rewrite IH.
Qed.

(** whatever bytes the user name and the password hold, line ends among them, a RESP
    server reads from the request one command, AUTH with exactly these arguments, and what
    follows the request is left. *)
Theorem auth_roundtrip username password rest
    (Hu : Z.of_nat (length (default [] username)) <= u64_max) (Hp : Z.of_nat (length password) <= u64_max) :
  decode_request (auth_request username password ++ rest) = Some (auth_arguments username password, rest).
Proof.
  unfold auth_request. rewrite <- !app_assoc. change (lit "*") with [x2a]. cbn [app decode_request].
  rewrite decode_line_app by apply show_unsigned_digits. cbn [mbind option_bind].
  unfold parse_usize, parse_u64. rewrite parse_show_unsigned by (destruct username; unfold u64_max; simpl; lia).
  cbn [mbind option_bind]. rewrite Nat2Z.id. apply decode_bulks_arguments. destruct username; repeat constructor; done.
Qed.

(** A password that looks like a command. *)
Theorem auth_roundtrip_witness :
  decode_request (auth_request (Some (lit "monitor")) (lit "x" ++ CRLF ++ lit "FLUSHALL" ++ CRLF) ++ REDIS_INFO_REQUEST) =
  Some ([lit "AUTH"; lit "monitor"; lit "x" ++ CRLF ++ lit "FLUSHALL" ++ CRLF], REDIS_INFO_REQUEST).
Proof. apply (auth_roundtrip (Some (lit "monitor"))); vm_compute; discriminate. Defined.

Lemma write_all_Ok bytes c c' :
  write_all bytes c = Ok c' <->
  write_error c = None /\ c' = {| incoming := incoming c; at_end := at_end c; sent := sent c ++ bytes; write_error := None |}.
Proof. unfold write_all. destruct (write_error c); naive_solver. Qed.

(** A line that ends an answer: it comes whole within the limit of the answers. *)
Definition answer_line (cap : nat) (t : str) : Prop := crlf_free t /\ utf8_valid t = true /\ (length t + 3 <= cap)%nat.

Definition greeting (password : option str) (g : str) : Prop :=
  match password with
  | None => g = []
  | Some _ => exists t, g = lit "+" ++ t ++ CRLF /\ answer_line REDIS_RESPONSE_BYTES t
  end.

Lemma redis_cap_pos : (1 <= REDIS_RESPONSE_BYTES)%nat.
Proof. unfold REDIS_RESPONSE_BYTES. lia. Qed.

Lemma write_redis_auth_Ok utf8_message username password c c' :
  write_redis_auth utf8_message username password c = Ok c' <->
  write_error c = None /\ exists g, greeting (Some password) g /\ incoming c = g ++ incoming c' /\
    c' = {| incoming := incoming c'; at_end := at_end c; sent := sent c ++ auth_request username password; write_error := None |}.
Proof.
  unfold write_redis_auth, greeting, answer_line. pose proof redis_cap_pos as Hcap. split.
  - intros H. apply obind_Ok_inv in H as (c1 & H1 & H). apply write_all_Ok in H1 as [Hw ->]. split; [done|].
    apply obind_Ok_inv in H as ([p c2] & Hp & H). apply or_unreachable_Ok, conn_read_Ok in Hp as (E1 & _ & Ec2). simpl in E1.
    destruct (bool_decide_reflect (p = lit "+")) as [->|].
    + apply obind_Ok_inv in H as ([[t n] c3] & Ht & H). injection H as ->.
      apply read_resp_line_exact in Ht as (E2 & Hf & Hv & -> & Hle & Ec3); [|done].
      exists (lit "+" ++ t ++ CRLF). rewrite E1, E2. split_and!; [|by rewrite <- !app_assoc|by rewrite Ec3, Ec2].
      exists t. split_and!; [done..|]. lia.
    + destruct (bool_decide (p = lit "-")); [|done]. by destruct (read_resp_line _ _ _ _).
  - intros (Hw & g & (t & -> & Hf & Hv & Hle) & E & Ec). rewrite (proj2 (write_all_Ok _ _ _) (conj Hw eq_refl)). cbn [obind].
    rewrite <- !app_assoc in E. set (c1 := {| incoming := incoming c |}).
    rewrite (read_exact_step (lit "+") (t ++ CRLF ++ incoming c') c1 E : read_exact 1 c1 = _). cbn [or_unreachable obind].
    change (bool_decide (lit "+" = lit "+")) with true. cbn iota.
    rewrite (proj2 (read_resp_line_exact _ _ 1 _ t (1 + length t + 2) (after (incoming c') c1) redis_cap_pos)).
    + cbn [obind]. by rewrite Ec.
    + simpl. split_and!; (done || lia).
Qed.

(** metrics come from Redis exactly when every write succeeds and its answers are, when a
    password is given, a line that begins with a plus, and then one bulk string within
    65536 bytes whose text reports them. *)
Theorem redis_exchange_exact utf8_message username password c m :
  monitor_redis_authenticated_stream utf8_message username password c = Ok m <->
  write_error c = None /\
  exists g line info rest, incoming c = g ++ bulk line info ++ rest /\ greeting password g /\
    parse_usize line = Some (Z.of_nat (length info)) /\ bulk_fits REDIS_RESPONSE_BYTES line info /\
    utf8_valid info = true /\ info_reports info m.
Proof.
  assert (forall c, monitor_redis_stream utf8_message c = Ok m <-> write_error c = None /\ exists line info rest,
    incoming c = bulk line info ++ rest /\ parse_usize line = Some (Z.of_nat (length info)) /\
    bulk_fits REDIS_RESPONSE_BYTES line info /\ utf8_valid info = true /\ info_reports info m) as Hinfo.
  { clear c. intros c. unfold monitor_redis_stream. rewrite obind_Ok_iff. setoid_rewrite write_all_Ok. split.
    - intros (c1 & [Hw ->] & H). split; [done|]. apply obind_Ok_inv in H as ([info c2] & Hr & H).
      apply read_redis_info_exact in Hr as (line & E & Hl & Hf & Hv & _); [|apply redis_cap_pos].
      apply parse_redis_info_exact in H. by exists line, info, (incoming c2).
    - intros (Hw & line & info & rest & E & Hl & Hf & Hv & H). eexists. split; [done|].
      set (c1 := {| incoming := incoming c |}).
      rewrite (proj2 (read_redis_info_exact utf8_message _ c1 info (after rest c1) redis_cap_pos)).
      + cbn [obind]. by apply parse_redis_info_exact.
      + by exists line. }
  unfold monitor_redis_authenticated_stream. destruct password as [p|].
  - rewrite obind_Ok_iff. setoid_rewrite write_redis_auth_Ok. setoid_rewrite Hinfo. split.
    + intros (c' & (Hw & g & Hg & E & Ec) & _ & line & info & rest & E' & H). split; [done|]. exists g, line, info, rest.
      split; [by rewrite E, E'|]. tauto.
    + intros (Hw & g & line & info & rest & E & Hg & H).
      exists {| incoming := bulk line info ++ rest; at_end := at_end c; sent := sent c ++ auth_request username p; write_error := None |}.
      simpl. split; [split; [done|by exists g]|]. split; [done|]. by exists line, info, rest.
  - cbn [obind]. rewrite Hinfo. simpl. split.
    + intros (Hw & line & info & rest & E & H). split; [done|]. by exists [], line, info, rest.
    + intros (Hw & g & line & info & rest & E & -> & H). split; [done|]. by exists line, info, rest.
Qed.

(** ** The exchange with Memcached *)

Definition terminated (ls : list str) : str := mjoin ((fun l => l ++ CRLF) <$> ls).

Lemma terminated_cons l ls : terminated (l :: ls) = l ++ CRLF ++ terminated ls.
Proof. unfold terminated. cbn [fmap list_fmap]. change (mjoin (?x :: ?y)) with (x ++ mjoin y). by rewrite <- app_assoc. Qed.

(** A line of statistics, neither the last nor an error. *)
Definition stat_text (l : str) : Prop :=
  crlf_free l /\ utf8_valid l = true /\ memcached_rejects l = false /\ l <> lit "END".

Lemma first_line_unique t u a b :
  crlf_free t -> crlf_free u -> t ++ CRLF ++ a = u ++ CRLF ++ b -> t = u /\ a = b.
Proof.
  assert (forall t u a b, crlf_free t -> (length u <= length t)%nat -> t ++ CRLF ++ a = u ++ CRLF ++ b -> t = u /\ a = b) as H.
  { clear. intros t u a b Hf Hl E. rewrite !app_assoc in E.
    assert (exists v, t ++ CRLF = (u ++ CRLF) ++ v) as [v Ev].
    { exists (drop (length (u ++ CRLF)) (t ++ CRLF)). rewrite <- (take_drop (length (u ++ CRLF)) (t ++ CRLF)) at 1. f_equal.
      transitivity (take (length (u ++ CRLF)) ((t ++ CRLF) ++ a)); [|by rewrite E, take_app_length].
      symmetry. apply take_app_le. rewrite !length_app. lia. }
    pose proof (crlf_free_prefix _ _ _ Hf Ev) as ->. rewrite app_nil_r in Ev. apply app_inv_tail in Ev as ->.
    by apply app_inv_head in E as ->. }
  intros Ht Hu E. destruct (Nat.le_ge_cases (length u) (length t)); [by apply H|].
  destruct (H u t b a Hu ltac:(done) (eq_sym E)) as [-> ->]; done.
Qed.

Lemma crlf_free_nil : crlf_free [].
Proof. intros a b E. by destruct a. Qed.

Lemma crlf_free_snoc l b : crlf_free l -> ~ ends_crlf (l ++ [b]) -> crlf_free (l ++ [b]).
Proof.
  intros Hl He x y E. destruct y as [|z y _] using rev_ind.
  - apply He, ends_crlf_app. exists x. by rewrite E, app_nil_r.
  - rewrite !app_assoc in E. apply app_inj_tail in E as [E _]. apply (Hl x y). by rewrite E, <- !app_assoc.
Qed.

Lemma crlf_free_chop l b t : crlf_free l -> l ++ [b] = t ++ CRLF -> crlf_free t.
Proof.
  intros Hl E x y ->. change CRLF with ([x0d] ++ [x0a]) in E at 2. rewrite app_assoc in E. apply app_inj_tail in E as [-> _].
  apply (Hl x (y ++ [x0d])). by rewrite <- !app_assoc.
Qed.

Lemma crlf_free_not_prefix l rest s more : crlf_free l -> l ++ rest = (s ++ CRLF) ++ more -> (length (s ++ CRLF) <= length l)%nat -> False.
Proof.
  intros Hl E Hle. apply (Hl s (drop (length (s ++ CRLF)) l)).
  rewrite app_assoc, <- (take_drop (length (s ++ CRLF)) l) at 1. f_equal.
  transitivity (take (length (s ++ CRLF)) (l ++ rest)); [by rewrite take_app_le|]. by rewrite E, take_app_length.
Qed.

Definition stats_answer (base line : str) (room : nat) (inc r : str) : Prop :=
  exists ls rest, line ++ inc = terminated ls ++ lit "END" ++ CRLF ++ rest /\ Forall stat_text ls /\
    (length (terminated ls) + 5 <= room + length line)%nat /\ r = base ++ terminated ls /\ utf8_valid r = true.

Lemma stats_answer_line base t room inc r :
  crlf_free t ->
  stats_answer base (t ++ CRLF) room inc r <->
  (t = lit "END" /\ r = base /\ utf8_valid r = true) \/ (stat_text t /\ stats_answer (base ++ t ++ CRLF) [] room inc r).
Proof.
  intros Hf. unfold stats_answer. split.
  - intros (ls & rest & E & Hls & Hr & -> & Hv). rewrite <- app_assoc in E. destruct ls as [|l ls].
    + left. apply first_line_unique in E as [-> _]; [by rewrite app_nil_r in *|done|]. by intros [|? [|? [|? []]]] ?.
    + right. apply Forall_cons in Hls as [Hl Hls]. rewrite terminated_cons, <- !app_assoc in E.
      apply first_line_unique in E as [-> E]; [|done|apply Hl]. split; [done|]. exists ls, rest.
      rewrite terminated_cons in *. rewrite <- !app_assoc. rewrite !length_app in *. split_and!; try done. simpl in *. lia.
  - intros [(-> & -> & Hv)|(Ht & ls & rest & E & Hls & Hr & -> & Hv)].
    + exists [], inc. split_and!; [done|constructor|simpl; lia|by rewrite app_nil_r|done].
    + exists (t :: ls), rest. rewrite terminated_cons. change ([] ++ inc) with inc in E. rewrite <- !app_assoc in *.
      rewrite !length_app in *. split_and!; [by rewrite <- E|by constructor|simpl in *; lia|done|done].
Qed.

Lemma stats_answer_whole base line room inc r : crlf_free line -> stats_answer base line room inc r -> (length line < room + length line)%nat /\ inc <> [].
Proof.
  intros Hl (ls & rest & E & _ & Hr & _ & _).
  assert (line ++ inc = ((terminated ls ++ lit "END") ++ CRLF) ++ rest) as E' by (rewrite <- !app_assoc; exact E).
  assert (length line < length ((terminated ls ++ lit "END") ++ CRLF))%nat as Hlt.
  { destruct (Nat.lt_ge_cases (length line) (length ((terminated ls ++ lit "END") ++ CRLF))) as [|Hge]; [done|].
    exfalso. by eapply crlf_free_not_prefix. }
  rewrite !length_app in Hlt. simpl in Hlt. split; [lia|]. intros ->. rewrite app_nil_r in E'. subst line.
  rewrite !length_app in Hlt. simpl in Hlt. lia.
Qed.

Lemma stats_answer_next base line room b inc r :
  stats_answer base line (S room) (b :: inc) r <-> stats_answer base (line ++ [b]) room inc r.
Proof.
  unfold stats_answer. rewrite length_app, <- app_assoc. simpl.
  replace (S (room + length line)) with (room + (length line + 1))%nat by lia. done.
Qed.

Lemma memcached_loop_exact room base line c r :
  crlf_free line ->
  memcached_loop room (base ++ line) line c = Ok r <-> stats_answer base line room (incoming c) r.
Proof.
  revert base line c. induction room as [|room IH]; intros base line c Hl; cbn [memcached_loop].
  { split; [done|]. intros H. apply stats_answer_whole in H as [H _]; [lia|done]. }
  unfold read_exact. destruct (incoming c) as [|b inc] eqn:Ei; cbn [length Nat.leb].
  { split; [by destruct (at_end c)|]. intros H. by apply stats_answer_whole in H as [_ H]. }
  cbn [take drop]. rewrite take_0, drop_0, stats_answer_next, <- app_assoc.
  case_bool_decide as He; cbn [negb].
  - pose proof He as [t Et]%ends_crlf_app. rewrite Et, chop_crlf. pose proof (crlf_free_chop _ _ _ Hl Et) as Ht.
    rewrite stats_answer_line by done. destruct (utf8_valid t) eqn:Hv; cbn [negb].
    2:{ split; [done|]. intros [(-> & _)|[(_ & Hv' & _) _]]; [done|congruence]. }
    destruct (memcached_rejects t) eqn:Hj.
    { split; [done|]. intros [(-> & _)|[(_ & _ & Hj' & _) _]]; [by vm_compute in Hj|congruence]. }
    case_bool_decide as Hend.
    + replace (length (base ++ t ++ CRLF) - length (t ++ CRLF))%nat with (length base) by (rewrite !length_app; lia).
      rewrite take_app_length. destruct (utf8_valid base) eqn:Hb; split; try naive_solver.
      * intros [(_ & -> & _)|[(_ & _ & _ & Hne) _]]; done.
      * intros [(_ & -> & ?)|[(_ & _ & _ & Hne) _]]; [congruence|done].
    + rewrite <- (app_nil_r (base ++ t ++ CRLF)) at 1. rewrite IH by apply crlf_free_nil. cbn [incoming].
      split; [|by intros [(? & _)|[_ ?]]]. intros H. right. by split.
  - rewrite IH; [done|]. by apply crlf_free_snoc.
Qed.

(** The key and the value of a line of statistics. *)
Definition stat_pair (l : str) : option (str * str) :=
  match ascii_fields l with
  | [stat; key; value] => if bool_decide (stat = lit "STAT") then Some (key, value) else None
  | _ => None
  end.

Lemma memcached_values_exact ls values out :
  memcached_values ls values = Ok out <-> exists kvs, pairs_of stat_pair (filter (fun l => l <> []) ls) kvs /\ merged values kvs out.
Proof.
  revert values. induction ls as [|l ls IH]; intros values; cbn [memcached_values].
  { rewrite filter_nil, pairs_nil. naive_solver. }
  destruct (bool_decide_reflect (l = [])) as [->|Hl]; [rewrite filter_cons_False by (intros H; by apply H); apply IH|].
  rewrite filter_cons_True, pairs_cons by done. unfold stat_pair at 1.
  destruct (ascii_fields l) as [|stat fields]; [naive_solver|].
  destruct (bool_decide_reflect (stat = lit "STAT")) as [->|Hs]; cbn [negb].
  2:{ split; [done|]. intros (k & v & H & _). destruct fields as [|? [|? []]]; done. }
  destruct fields as [|k [|v more]]; try (split; [done|naive_solver]).
  destruct more as [|? ?]; [|split; [done|naive_solver]]. rewrite bool_decide_eq_true_2 by done. cbn [negb orb].
  destruct (bool_decide_reflect (is_Some (values !! k))) as [[w Hw]|Hn]; [naive_solver congruence|].
  rewrite IH. apply eq_None_not_Some in Hn. naive_solver.
Qed.

Lemma split_crlf_cons b s :
  split_crlf (b :: s) =
  if bool_decide (b = x0d /\ head s = Some x0a) then [] :: split_crlf (tail s)
  else match split_crlf s with p :: ps => (b :: p) :: ps | [] => [[b]] end.
Proof. destruct b; try reflexivity. destruct s as [|c s]; [reflexivity|]. by destruct c. Qed.

Lemma split_crlf_line l rest : crlf_free l -> split_crlf (l ++ CRLF ++ rest) = l :: split_crlf rest.
Proof.
  induction l as [|b l IH]; intros Hl; [done|]. cbn [app]. rewrite split_crlf_cons, bool_decide_eq_false_2.
  - rewrite IH; [done|]. intros x y ->. by apply (Hl (b :: x) y).
  - intros [-> Hh]. destruct l as [|c l]; [done|]. injection Hh as ->. by apply (Hl [] l).
Qed.

Lemma split_crlf_terminated ls : Forall crlf_free ls -> split_crlf (terminated ls) = ls ++ [[]].
Proof.
  induction 1 as [|l ls Hl _ IH]; [done|]. by rewrite terminated_cons, split_crlf_line, IH.
Qed.

Lemma utf8_terminated ls : Forall stat_text ls -> utf8_valid (terminated ls) = true.
Proof.
  induction 1 as [|l ls (_ & Hv & _) _ IH]; [done|]. rewrite terminated_cons. by apply utf8_valid_app, utf8_valid_app.
Qed.

Definition MEMCACHED_NAMES : list str :=
  [lit "curr_connections"; lit "bytes"; lit "cmd_get"; lit "cmd_set"; lit "get_hits"; lit "get_misses"; lit "evictions"].

Definition memcached_fields (m : MemcachedMetrics) : list Z :=
  [curr_connections m; mc_bytes m; cmd_get m; cmd_set m; get_hits m; get_misses m; evictions m].

Definition stats_report (ls : list str) (m : MemcachedMetrics) : Prop :=
  exists kvs, pairs_of stat_pair (filter (fun l => l <> []) ls) kvs /\ NoDup kvs.*1 /\
    Forall2 (pair_gives kvs) MEMCACHED_NAMES (memcached_fields m).

Lemma parse_memcached_exact ls m :
  Forall stat_text ls -> parse_memcached_stats (terminated ls) = Ok m <-> stats_report ls m.
Proof.
  intros Hls. unfold parse_memcached_stats, stats_report. rewrite split_crlf_terminated by (eapply Forall_impl; [exact Hls|by intros ? []]).
  assert (filter (fun l : str => l <> []) (ls ++ [[]]) = filter (fun l => l <> []) ls) as Hf.
  { rewrite filter_app, filter_cons_False by (intros H; by apply H). by rewrite app_nil_r. }
  split.
  - intros H. apply obind_Ok_inv in H as (values & Hv & H). apply memcached_values_exact in Hv as (kvs & Hp & Hm). rewrite Hf in Hp.
    exists kvs. split; [done|]. split; [apply Hm|]. read_metrics Hm. simplify_eq. unfold memcached_fields. simpl. by repeat constructor.
  - intros (kvs & Hp & Hnd & H). pose proof (merged_empty _ Hnd) as Hm. rewrite <- Hf in Hp.
    rewrite (proj2 (memcached_values_exact _ _ _)) by eauto. cbn [obind]. unfold MEMCACHED_NAMES, memcached_fields in H.
    give_metrics Hm H. by destruct m.
Qed.

(** metrics come from Memcached exactly when the request is written and the answer is
    lines of text, no error among them, up to the line END, 65536 bytes in all, which report
    each metric once. *)
Theorem memcached_exchange_exact c m :
  monitor_memcached_stream c = Ok m <->
  write_error c = None /\
  exists ls rest, incoming c = terminated ls ++ lit "END" ++ CRLF ++ rest /\ Forall stat_text ls /\
    (length (terminated ls) + 5 <= MEMCACHED_RESPONSE_BYTES)%nat /\ stats_report ls m.
Proof.
  unfold monitor_memcached_stream, read_memcached_stats_response. rewrite obind_Ok_iff. setoid_rewrite write_all_Ok.
  setoid_rewrite obind_Ok_iff. setoid_rewrite (memcached_loop_exact _ [] [] _ _ crlf_free_nil).
  unfold stats_answer. cbn [length app]. split.
  - intros (c1 & [Hw ->] & r & (ls & rest & E & Hls & Hr & -> & _) & H). split; [done|]. exists ls, rest.
    rewrite Nat.add_0_r in Hr. split_and!; [exact E|exact Hls|exact Hr|]. by apply parse_memcached_exact.
  - intros (Hw & ls & rest & E & Hls & Hr & H). eexists. split; [done|]. exists (terminated ls).
    split; [|by apply parse_memcached_exact]. exists ls, rest. rewrite Nat.add_0_r.
    split_and!; [exact E|exact Hls|exact Hr|reflexivity|by apply utf8_terminated].
Qed.

(** ** HTTP bodies *)

(** a body is read exactly when the status is a success, neither the announced nor the
    received length exceeds the limit, no chunk fails and the text is UTF-8, and it is the
    chunks in order. *)
Theorem http_body_exact service rejected limit success content_length chunks body :
  read_http_body service rejected limit success content_length chunks = Ok body <->
  success = true /\ (forall n, content_length = Some n -> n <= Z.of_nat limit) /\
  exists parts, chunks = Some <$> parts /\ body = mjoin parts /\ (length body <= limit)%nat /\ utf8_valid body = true.
Proof.
  assert (forall chunks acc body, (length acc <= limit)%nat -> read_chunks service limit acc chunks = Ok body <->
    exists parts, chunks = Some <$> parts /\ body = acc ++ mjoin parts /\ (length body <= limit)%nat) as Hc.
  { clear. induction chunks as [|[chunk|] chunks IH]; intros acc body Hacc; cbn [read_chunks].
    - split; [intros [= <-]; exists []; split_and!; [done|by rewrite app_nil_r|done]|].
      intros ([|] & E & -> & _); [by rewrite app_nil_r|done].
    - destruct (Nat.ltb_spec limit (length acc + length chunk)) as [Hlt|Hle].
      + split; [done|]. intros ([|p parts] & E & -> & Hl); [done|]. injection E as -> ->.
        change (mjoin (p :: parts)) with (p ++ mjoin parts) in Hl. rewrite !length_app in Hl. lia.
      + rewrite IH by (rewrite length_app; lia). split.
        * intros (parts & -> & -> & Hl). exists (chunk :: parts). split_and!; [done|by rewrite <- app_assoc|done].
        * intros ([|p parts] & E & -> & Hl); [done|]. injection E as -> ->. exists parts. split_and!; [done|by rewrite <- app_assoc|done].
    - split; [done|]. by intros ([|] & E & _). }
  unfold read_http_body. destruct success; [|split; [done|by intros []]].
  destruct content_length as [n|]; [destruct (Z.ltb_spec (Z.of_nat limit) n)|]; cbn [negb].
  { split; [done|]. intros (_ & Hn & _). specialize (Hn n eq_refl). lia. }
  all: rewrite obind_Ok_iff; setoid_rewrite Hc; [|simpl; lia]; split.
  all: try (intros (b & (parts & -> & -> & Hl) & Hb); simpl in *; destruct (utf8_valid (mjoin parts)) eqn:Hv; [|done]; injection Hb as <-;
    split_and!; [done|first [done|by intros ? [= <-]]|by exists parts]).
  all: intros (_ & _ & parts & -> & -> & Hl & Hv); exists (mjoin parts); split; [by exists parts|by rewrite Hv].
Qed.
