(* ===== verification/Spool.v ===== *)
(** * The export spool

    [aic-server/src/otlp_exporter/spool.rs]: batches that could not be pushed are kept as
    files of one directory, with a byte quota per signal kind, and sent again in order. The
    directory is a map from file names to contents; what the operating system may refuse
    (listing, reading, removing, renaming) is an environment of the operations. Byte counts
    are kept as unbounded integers: they are sums of sizes of files on one disk. *)

From S2P Require Import Prelude RustStr Bytes StrOrder.

Local Open Scope outcome_scope.

(** ** Data *)

Inductive SignalKind := Metrics | Logs | AppLogs.
Inductive DropReason := Quota | Age | Rejected.

#[export] Instance SignalKind_eq_dec : EqDecision SignalKind.
Proof. solve_decision. Defined.
#[export] Instance DropReason_eq_dec : EqDecision DropReason.
Proof. solve_decision. Defined.

Definition DROP_WARN_INTERVAL_SECS : Z := 60.

Definition tag (k : SignalKind) : byte := match k with Metrics => x00 | Logs => x01 | AppLogs => x02 end.
Definition from_tag (t : byte) : option SignalKind :=
  match t with x00 => Some Metrics | x01 => Some Logs | x02 => Some AppLogs | _ => None end.

Definition code (k : SignalKind) : str :=
  match k with Metrics => lit "m" | Logs => lit "l" | AppLogs => lit "a" end.
Definition from_code (s : str) : option SignalKind :=
  if bool_decide (s = lit "m") then Some Metrics
  else if bool_decide (s = lit "l") then Some Logs
  else if bool_decide (s = lit "a") then Some AppLogs
  else None.

Definition BATCH_EXT : str := lit "batch".
Definition TMP_EXT : str := lit "tmp".
Definition DOT : byte := x2e.

Inductive PushError := Permanent (m : str) | Transient (m : str).
Definition is_permanent (e : PushError) : bool :=
  match e with Permanent _ => true | Transient _ => false end.

Record SpoolQuotas := { metrics : Z; logs : Z; app_logs : Z }.

Definition from_spool_max_bytes (max : Z) (m l a : option Z) : SpoolQuotas :=
  {| metrics := default (max / 4) m; logs := default (max / 4) l; app_logs := default (max / 2) a |}.

Record file := { content : str; mtime : option Z }.
Definition fsize (f : file) : Z := zlen (content f).

Record Spool := {
  dir : gmap str file;
  quotas : SpoolQuotas;
  next_seq : Z;
  totals : SignalKind -> Z;
  dropped : DropReason -> SignalKind -> Z;
  last_drop_warn_unix : DropReason -> Z;
}.

Record DrainReport := {
  drained : Z;
  rejected : Z;
  failed : bool;
  last_error : option (SignalKind * PushError);
}.

(** What the operating system lets the operations do. *)
Record FsEnv := {
  listable : bool;
  readable : str -> bool;
  removable : str -> bool;
  renamable : str -> bool;
}.

Definition upd {K A} `{EqDecision K} (f : K -> A) (k : K) (v : A) : K -> A :=
  fun k' => if decide (k' = k) then v else f k'.

Definition with_dir (d : gmap str file) (sp : Spool) : Spool :=
  {| dir := d; quotas := quotas sp; next_seq := next_seq sp; totals := totals sp;
     dropped := dropped sp; last_drop_warn_unix := last_drop_warn_unix sp |}.
Definition with_total (k : SignalKind) (v : Z) (sp : Spool) : Spool :=
  {| dir := dir sp; quotas := quotas sp; next_seq := next_seq sp; totals := upd (totals sp) k v;
     dropped := dropped sp; last_drop_warn_unix := last_drop_warn_unix sp |}.

(** ** File names *)

(** [Path::file_stem] and [Path::extension] of a file name: cut at the last dot, unless the
    name starts with its only dot. *)
Fixpoint rsplit_dot (s : str) : option (str * str) :=
  match s with
  | [] => None
  | b :: s' =>
      match rsplit_dot s' with
      | Some (stem, ext) => Some (b :: stem, ext)
      | None => if bool_decide (b = DOT) then Some ([], s') else None
      end
  end.

Definition stem_ext (name : str) : option (str * str) :=
  match rsplit_dot name with
  | Some ([], _) => None
  | r => r
  end.

Definition extension_is (ext name : str) : bool :=
  match stem_ext name with Some (_, e) => bool_decide (e = ext) | None => false end.

Definition parse_batch_filename (name : str) : option (Z * option SignalKind) :=
  match stem_ext name with
  | Some (stem, ext) =>
      if negb (bool_decide (ext = BATCH_EXT)) then None
      else if negb (utf8_valid stem) then None
      else
        match find_byte DOT stem with
        | Some i =>
            seq ← parse_u64 (take i stem);
            kind ← from_code (drop (S i) stem);
            Some (seq, Some kind)
        | None => seq ← parse_u64 stem; Some (seq, None)
        end
  | None => None
  end.

Definition name_kind (name : str) : option SignalKind :=
  '(_, k) ← parse_batch_filename name; k.

(** [format!("{seq:020}.{code}.{BATCH_EXT}")] *)
Definition batch_name (seq : Z) (k : SignalKind) : str :=
  show_dec_padded 20 seq ++ DOT :: code k ++ DOT :: BATCH_EXT.
Definition tmp_name (seq : Z) : str := show_dec_padded 20 seq ++ DOT :: TMP_EXT.

(** ** Batch contents *)

(** [body.len() as u32] keeps the low 32 bits. *)
Definition encode_batch (k : SignalKind) (body : str) : str :=
  tag k :: be_split 4 (zlen body mod 2 ^ 32) ++ body.

Inductive BatchError := Unreadable | TooShort | UnknownTag | LengthMismatch.

Definition decode_batch (data : str) : outcome (SignalKind * str) BatchError :=
  guard 5 <=? zlen data else TooShort in
  let? t := index_byte 0 data in
  let? kind := ok_or (from_tag t) UnknownTag in
  let? len_bytes := index_slice 1 5 data in
  let? body := index_slice 5 (zlen data) data in
  guard zlen body =? of_be len_bytes else LengthMismatch in
  Ok (kind, body).

Section Operations.
Variable env : FsEnv.

Definition read_batch (name : str) (d : gmap str file) : outcome (SignalKind * str) BatchError :=
  match d !! name with
  | Some f => if readable env name then decode_batch (content f) else Err Unreadable
  | None => Err Unreadable
  end.

(** [fs::metadata(path).map(len).unwrap_or(0)] and [fs::remove_file(path)] *)
Definition file_len (name : str) (d : gmap str file) : Z := from_option fsize 0 (d !! name).
Definition remove_file (name : str) (d : gmap str file) : option (gmap str file) :=
  if bool_decide (is_Some (d !! name)) && removable env name then Some (delete name d) else None.

(** The order of [read_dir] is that of the map; every use sorts or does not depend on it. *)
Definition names (d : gmap str file) : list str := (map_to_list d).*1.
Definition list_batch_files (d : gmap str file) : list str :=
  filter (fun n => extension_is BATCH_EXT n = true) (names d).
Definition list_batch_files_for_kind (k : SignalKind) (d : gmap str file) : list str :=
  filter (fun n => name_kind n = Some k) (names d).

(** ** Counters *)

Definition record_drop (k : SignalKind) (r : DropReason) (sp : Spool) : Spool :=
  {| dir := dir sp; quotas := quotas sp; next_seq := next_seq sp; totals := totals sp;
     dropped := upd (dropped sp) r (upd (dropped sp r) k (dropped sp r k + 1));
     last_drop_warn_unix := last_drop_warn_unix sp |}.

Definition record_rejected_batch (k : SignalKind) (sp : Spool) : Spool := record_drop k Rejected sp.

Definition dropped_count (k : SignalKind) (sp : Spool) : Z :=
  dropped sp Quota k + dropped sp Age k + dropped sp Rejected k.
Definition dropped_by_reason (r : DropReason) (sp : Spool) : Z :=
  dropped sp r Metrics + dropped sp r Logs + dropped sp r AppLogs.

(** Whether a warning may be logged now, and the state that remembers it. *)
Definition should_warn_drop (now : Z) (r : DropReason) (sp : Spool) : bool * Spool :=
  if sat_sub now (last_drop_warn_unix sp r) <? DROP_WARN_INTERVAL_SECS then (false, sp)
  else (true, {| dir := dir sp; quotas := quotas sp; next_seq := next_seq sp; totals := totals sp;
                 dropped := dropped sp;
                 last_drop_warn_unix := upd (last_drop_warn_unix sp) r now |}).

Definition quota_for (k : SignalKind) (sp : Spool) : Z :=
  match k with
  | Metrics => metrics (quotas sp)
  | Logs => logs (quotas sp)
  | AppLogs => app_logs (quotas sp)
  end.

(** ** Quotas *)

(** The loop of [enforce_cap]. *)
Fixpoint drop_files (k : SignalKind) (quota : Z) (files : list str) (dropped_now : Z) (sp : Spool)
    : Z * Spool :=
  match files with
  | [] => (dropped_now, sp)
  | name :: files =>
      if totals sp k <=? quota then (dropped_now, sp)
      else
        let len := file_len name (dir sp) in
        match remove_file name (dir sp) with
        | Some d =>
            drop_files k quota files (dropped_now + 1)
              (record_drop k Quota (with_total k (sat_sub (totals sp k) len) (with_dir d sp)))
        | None => drop_files k quota files dropped_now sp
        end
  end.

Definition enforce_cap (now : Z) (k : SignalKind) (sp : Spool) : Spool :=
  let quota := quota_for k sp in
  if totals sp k <=? quota then sp
  else if negb (listable env) then sp
  else
    let files := sort (list_batch_files_for_kind k (dir sp)) in
    let files := if bool_decide (k = AppLogs) then reverse files else files in
    let '(dropped_now, sp) := drop_files k quota files 0 sp in
    if 0 <? dropped_now then snd (should_warn_drop now Quota sp) else sp.

Definition remove_and_untrack (name : str) (k : option SignalKind) (sp : Spool) : Spool :=
  let len := file_len name (dir sp) in
  match remove_file name (dir sp) with
  | Some d =>
      match k with
      | Some k => with_total k (sat_sub (totals sp k) len) (with_dir d sp)
      | None => with_dir d sp
      end
  | None => sp
  end.

(** ** Append *)

(** How far the file operations of [append] get; [WriteFails] leaves a partial file. *)
Inductive append_io := IoOk (mtime : option Z) | CreateFails | WriteFails (f : file) | RenameFails (f : file).

(** [append] up to the rename: the batch is in the directory and not yet counted. The
    second component is the length to count. *)
Definition publish (io : append_io) (k : SignalKind) (body : str) (sp : Spool) : Spool * option Z :=
  let seq := next_seq sp in
  let buf := encode_batch k body in
  let d := dir sp in
  let at_seq d := {| dir := d; quotas := quotas sp; next_seq := (seq + 1) mod 2 ^ 64;
                     totals := totals sp; dropped := dropped sp;
                     last_drop_warn_unix := last_drop_warn_unix sp |} in
  match io with
  | CreateFails => (at_seq d, None)
  | WriteFails f | RenameFails f => (at_seq (<[tmp_name seq := f]> d), None)
  | IoOk t =>
      (at_seq (<[batch_name seq k := {| content := buf; mtime := t |}]> (delete (tmp_name seq) d)),
       Some (zlen buf))
  end.

(** The rest of [append], under the lock. *)
Definition account (now : Z) (k : SignalKind) (len : Z) (sp : Spool) : Spool :=
  enforce_cap now k (with_total k (totals sp k + len) sp).

(** The result is [false] for an I/O error. *)
Definition append (io : append_io) (now : Z) (k : SignalKind) (body : str) (sp : Spool) : bool * Spool :=
  match publish io k body sp with
  | (sp, Some len) => (true, account now k len sp)
  | (sp, None) => (false, sp)
  end.

(** ** Drain *)

(** The loop over the oldest files. The sender's answer may depend on how many batches it
    was given before; the batches it is given are also returned. *)
Variable sender : nat -> SignalKind -> str -> option PushError.

Definition no_report : DrainReport := {| drained := 0; rejected := 0; failed := false; last_error := None |}.

Fixpoint drain_loop (files : list str) (sent : list (SignalKind * str)) (r : DrainReport) (sp : Spool)
    : DrainReport * list (SignalKind * str) * Spool :=
  match files with
  | [] => (r, sent, sp)
  | name :: files =>
      match read_batch name (dir sp) with
      | Ok (kind, body) =>
          let sent' := sent ++ [(kind, body)] in
          match sender (length sent) kind body with
          | None =>
              drain_loop files sent'
                {| drained := drained r + 1; rejected := rejected r; failed := false;
                   last_error := last_error r |}
                (remove_and_untrack name (Some kind) sp)
          | Some e =>
              if is_permanent e then
                drain_loop files sent'
                  {| drained := drained r; rejected := rejected r + 1; failed := false;
                     last_error := Some (kind, e) |}
                  (remove_and_untrack name (Some kind) (record_drop kind Rejected sp))
              else
                ({| drained := drained r; rejected := rejected r; failed := true;
                    last_error := Some (kind, e) |}, sent', sp)
          end
      | _ => drain_loop files sent r (remove_and_untrack name (name_kind name) sp)
      end
  end.

Definition drain (limit : nat) (sp : Spool) : DrainReport * list (SignalKind * str) * Spool :=
  if negb (listable env) then
    ({| drained := 0; rejected := 0; failed := true; last_error := None |}, [], sp)
  else drain_loop (take limit (sort (list_batch_files (dir sp)))) [] no_report sp.

(** ** Age limit *)

(** [now.duration_since(mtime)] fails for a time in the future. *)
Definition too_old (now max_age : Z) (f : file) : bool :=
  match mtime f with
  | Some t => (t <=? now) && (max_age <? now - t)
  | None => false
  end.

Fixpoint prune_loop (now max_age : Z) (files : list str) (pruned : Z) (sp : Spool) : Z * Spool :=
  match files with
  | [] => (pruned, sp)
  | name :: files =>
      if from_option (too_old now max_age) false (dir sp !! name) then
        let kind := name_kind name in
        let sp := match kind with Some k => record_drop k Age sp | None => sp end in
        prune_loop now max_age files (pruned + 1) (remove_and_untrack name kind sp)
      else prune_loop now max_age files pruned sp
  end.

Definition prune_older_than (now unix_now max_age : Z) (sp : Spool) : Z * Spool :=
  if negb (listable env) then (0, sp)
  else
    let '(pruned, sp) := prune_loop now max_age (list_batch_files (dir sp)) 0 sp in
    (pruned, if 0 <? pruned then snd (should_warn_drop unix_now Age sp) else sp).

Definition batch_count (sp : Spool) : nat :=
  if listable env then length (list_batch_files (dir sp)) else 0%nat.

(** ** Open *)

(** The kind and length of a batch of the old name format, which gets its new name. *)
Definition migrate_legacy_batch (name : str) (seq : Z) (d : gmap str file)
    : option (SignalKind * Z * gmap str file) :=
  f ← d !! name;
  if readable env name then
    t ← content f !! 0%nat;
    kind ← from_tag t;
    if renamable env name
    then Some (kind, fsize f, <[batch_name seq kind := f]> (delete name d))
    else None
  else None.

(** The scan of the directory: the largest sequence number, the sizes and the directory. *)
Definition scan_entry (acc : Z * (SignalKind -> Z) * gmap str file) (name : str)
    : Z * (SignalKind -> Z) * gmap str file :=
  let '(max_seq, totals, d) := acc in
  if extension_is TMP_EXT name then (max_seq, totals, default d (remove_file name d))
  else
    match parse_batch_filename name with
    | None => acc
    | Some (seq, kind) =>
        let max_seq := Z.max max_seq seq in
        match kind with
        | Some k => (max_seq, upd totals k (totals k + file_len name d), d)
        | None =>
            match migrate_legacy_batch name seq d with
            | Some (k, len, d) => (max_seq, upd totals k (totals k + len), d)
            | None => (max_seq, totals, default d (remove_file name d))
            end
        end
    end.

(** [entries] is what [read_dir] returns. *)
Definition open (now : Z) (entries : list str) (d : gmap str file) (q : SpoolQuotas) : Spool :=
  let '(max_seq, totals, d) := foldl scan_entry (0, fun _ => 0, d) entries in
  let spool := {| dir := d; quotas := q; next_seq := (max_seq + 1) mod 2 ^ 64; totals := totals;
                  dropped := fun _ _ => 0; last_drop_warn_unix := fun _ => 0 |} in
  foldl (fun sp k => enforce_cap now k sp) spool [Metrics; Logs; AppLogs].

End Operations.
