(* ===== verification/SpoolSpec.v ===== *)
(** * The export spool: representation and theorems

    The directory of [Spool.v] represents a list of batches ordered by sequence number
    ([dir_rep], [rep]). Every operation is shown on that list: appending with the quota's
    eviction, draining, the age limit, and the scan at start; then sequences of operations. *)

From S2P Require Import Prelude RustStr Bytes StrOrder Spool.

Local Open Scope outcome_scope.

(** ** File names: lemmas *)

Lemma rsplit_dot_None s : DOT ∉ s -> rsplit_dot s = None.
Proof.
  induction s as [|b s IH]; intros H; [done|]. apply not_elem_of_cons in H as [Hb Hs].
  simpl. rewrite IH by done. by rewrite bool_decide_eq_false_2.
Qed.

Lemma rsplit_dot_app stem ext : DOT ∉ ext -> rsplit_dot (stem ++ DOT :: ext) = Some (stem, ext).
Proof.
  intros H. induction stem as [|b s IH]; simpl; [|by rewrite IH].
  by rewrite rsplit_dot_None.
Qed.

Lemma digits_no_dot s : digits s -> DOT ∉ s.
Proof. intros H. eapply not_elem_of_Forall; [exact H|]. done. Qed.

Lemma code_spec k : from_code (code k) = Some k /\ DOT ∉ code k /\ Forall (fun b => b2z b < 128) (code k).
Proof. split; [by destruct k|]. split; [|by destruct k; repeat constructor]. destruct k; by_decide. Qed.

Lemma padded_cons seq : exists b s, show_dec_padded 20 seq = b :: s.
Proof. pose proof (show_dec_padded_length seq). destruct (show_dec_padded 20 seq); [done|eauto]. Qed.

Lemma batch_name_split seq k :
  stem_ext (batch_name seq k) = Some (show_dec_padded 20 seq ++ DOT :: code k, BATCH_EXT).
Proof.
  unfold stem_ext, batch_name. rewrite app_comm_cons, app_assoc, rsplit_dot_app by by_decide.
  by destruct (padded_cons seq) as (b & s & ->).
Qed.

Lemma parse_batch_name seq k :
  0 <= seq <= u64_max -> parse_batch_filename (batch_name seq k) = Some (seq, Some k).
Proof.
  intros Hs. unfold parse_batch_filename. rewrite batch_name_split, bool_decide_eq_true_2 by done.
  destruct (code_spec k) as (Hc & _ & Ha). pose proof (show_dec_padded_digits 20 seq) as Hd.
  rewrite utf8_valid_ascii.
  - cbn [negb]. rewrite find_byte_app by (by apply digits_no_dot). rewrite take_app_length.
    rewrite parse_show_padded by done. cbn [mbind option_bind].
    replace (drop _ _) with (code k); [by rewrite Hc|].
    rewrite <- Nat.add_1_r, <- drop_drop, drop_app_length. done.
  - apply Forall_app. split; [|by constructor]. eapply Forall_impl; [exact Hd|].
    intros b [_ Hb]%to_digit_10. lia.
Qed.

Lemma batch_name_ext seq k : extension_is BATCH_EXT (batch_name seq k) = true.
Proof. unfold extension_is. by rewrite batch_name_split, bool_decide_eq_true_2. Qed.

Lemma tmp_name_ext seq : extension_is BATCH_EXT (tmp_name seq) = false.
Proof.
  unfold extension_is, stem_ext, tmp_name. rewrite rsplit_dot_app by by_decide.
  destruct (padded_cons seq) as (b & s & ->). done.
Qed.

Lemma name_kind_batch seq k : 0 <= seq <= u64_max -> name_kind (batch_name seq k) = Some k.
Proof. intros H. unfold name_kind. by rewrite parse_batch_name. Qed.

Lemma name_kind_ext n k : name_kind n = Some k -> extension_is BATCH_EXT n = true.
Proof.
  unfold name_kind, parse_batch_filename, extension_is. destruct (stem_ext n) as [[stem ext]|]; [|done].
  by case_bool_decide.
Qed.

(** ** Representation *)

(** A batch of the directory: its sequence number, its kind and the file. *)
Record entry := { e_seq : Z; e_kind : SignalKind; e_file : file }.

#[export] Instance file_eq_dec : EqDecision file.
Proof. solve_decision. Defined.
#[export] Instance entry_eq_dec : EqDecision entry.
Proof. solve_decision. Defined.

Definition ename (e : entry) : str := batch_name (e_seq e) (e_kind e).
Definition of_kind (k : SignalKind) (es : list entry) : list entry := filter (fun e => e_kind e = k) es.
Definition bytes_of (es : list entry) : Z := foldr (fun e n => fsize (e_file e) + n) 0 es.

(** The batch files of the directory are exactly the entries, in the order of their
    sequence numbers; a readable entry has the kind of its name. *)
Record dir_rep (es : list entry) (d : gmap str file) : Prop := {
  rep_sorted : StronglySorted (fun a b => e_seq a < e_seq b) es;
  rep_range : Forall (fun e => 0 <= e_seq e <= u64_max) es;
  rep_files : forall n f, extension_is BATCH_EXT n = true ->
    d !! n = Some f <-> exists e, e ∈ es /\ n = ename e /\ f = e_file e;
  rep_tags : Forall (fun e => forall k b, decode_batch (content (e_file e)) = Ok (k, b) -> k = e_kind e) es;
}.

(** The invariant of the spool: the counted bytes are those of the files, and the next
    sequence number is new. *)
Record rep (es : list entry) (sp : Spool) : Prop := {
  rep_dir : dir_rep es (dir sp);
  rep_totals : forall k, totals sp k = bytes_of (of_kind k es);
  rep_next : Forall (fun e => e_seq e < next_seq sp) es;
}.

Lemma bytes_of_app l1 l2 : bytes_of (l1 ++ l2) = bytes_of l1 + bytes_of l2.
Proof. induction l1 as [|e l1 IH]; simpl; [done|]. rewrite IH. lia. Qed.

Lemma bytes_of_nonneg l : 0 <= bytes_of l.
Proof. induction l as [|e l IH]; simpl; [done|]. pose proof (zlen_nonneg (content (e_file e))). unfold fsize. lia. Qed.

Lemma of_kind_app k l1 l2 : of_kind k (l1 ++ l2) = of_kind k l1 ++ of_kind k l2.
Proof. apply filter_app. Qed.

Lemma of_kind_cons k e l : of_kind k (e :: l) = if decide (e_kind e = k) then e :: of_kind k l else of_kind k l.
Proof. unfold of_kind. by rewrite filter_cons. Qed.

Lemma rep_NoDup es d : dir_rep es d -> NoDup (ename <$> es).
Proof.
  intros [Hs Hr _ _]. induction Hs as [|e es Hs IH Hlt]; simpl; [constructor|].
  inversion_clear Hr. constructor; [|by apply IH].
  intros (e' & E & Hin)%list_elem_of_fmap. rewrite Forall_forall in Hlt, H0.
  specialize (Hlt _ Hin). specialize (H0 _ Hin). apply (f_equal parse_batch_filename) in E.
  unfold ename in E. rewrite !parse_batch_name in E by lia. injection E. lia.
Qed.

(** A batch file of the directory is an entry. *)
Lemma rep_lookup es d e : dir_rep es d -> e ∈ es -> d !! ename e = Some (e_file e).
Proof. intros H Hin. apply (rep_files _ _ H); [apply batch_name_ext|eauto]. Qed.

Lemma names_NoDup d : NoDup (names d).
Proof. apply NoDup_fst_map_to_list. Qed.

Lemma elem_of_names n d : n ∈ names d <-> is_Some (d !! n).
Proof.
  unfold names. rewrite list_elem_of_fmap. split.
  - intros ([n' f] & -> & H%elem_of_map_to_list). simpl. eauto.
  - intros [f H]. exists (n, f). by rewrite elem_of_map_to_list.
Qed.

Lemma ename_sorted es d : dir_rep es d -> StronglySorted str_le (ename <$> es).
Proof.
  intros [Hs Hr _ _]. induction Hs as [|e es Hs IH Hlt]; simpl; [constructor|].
  inversion_clear Hr as [|? ? He Hes]. constructor; [by apply IH|]. apply Forall_fmap.
  rewrite Forall_forall in Hlt, Hes |- *. intros e' Hin. specialize (Hlt _ Hin).
  specialize (Hes _ Hin). unfold u64_max in *. apply padded_order; lia.
Qed.

(** The listings the operations use are the entries in order. *)
Lemma rep_listing es d : dir_rep es d -> sort (list_batch_files d) = ename <$> es.
Proof.
  intros H. apply sort_unique; [|by eapply ename_sorted].
  apply NoDup_Permutation; [apply NoDup_filter, names_NoDup|by eapply rep_NoDup|].
  intros n. unfold list_batch_files. rewrite list_elem_of_filter, elem_of_names, list_elem_of_fmap. split.
  - intros [Hx [f Hf]]. apply (rep_files _ _ H) in Hf as (e & ? & ? & _); eauto.
  - intros (e & -> & Hin). split; [apply batch_name_ext|]. erewrite rep_lookup by done. eauto.
Qed.

Lemma NoDup_fmap_filter {A B} (f : A -> B) (P : A -> Prop) `{forall x, Decision (P x)} l :
  NoDup (f <$> l) -> NoDup (f <$> filter P l).
Proof.
  induction l as [|x l IH]; simpl; [done|]. intros [Hx Hl]%NoDup_cons. rewrite filter_cons.
  case_decide; [|auto]. simpl. constructor; [|auto].
  intros (y & E & [_ Hy]%list_elem_of_filter)%list_elem_of_fmap. apply Hx, list_elem_of_fmap. eauto.
Qed.

Lemma dir_rep_kind es d e : dir_rep es d -> e ∈ es -> name_kind (ename e) = Some (e_kind e).
Proof. intros H Hin. apply name_kind_batch. pose proof (rep_range _ _ H) as Hr. rewrite Forall_forall in Hr. auto. Qed.

Lemma rep_listing_kind k es d :
  dir_rep es d -> sort (list_batch_files_for_kind k d) = ename <$> of_kind k es.
Proof.
  intros H. apply sort_unique.
  - apply NoDup_Permutation; [apply NoDup_filter, names_NoDup| |].
    + apply (NoDup_fmap_filter _ _ _ (rep_NoDup _ _ H)).
    + intros n. unfold list_batch_files_for_kind, of_kind.
      rewrite list_elem_of_filter, elem_of_names, list_elem_of_fmap. split.
      * intros [Hk [f Hf]]. pose proof (name_kind_ext _ _ Hk) as Hx.
        apply (rep_files _ _ H) in Hf as (e & He & -> & _); [|done]. exists e. split; [done|].
        rewrite list_elem_of_filter. split; [|done]. rewrite (dir_rep_kind _ _ _ H He) in Hk. congruence.
      * intros (e & -> & [Hk Hin]%list_elem_of_filter). split.
        -- rewrite (dir_rep_kind _ _ _ H Hin). congruence.
        -- erewrite rep_lookup by done. eauto.
  - pose proof (ename_sorted _ _ H) as Hs. clear H. unfold of_kind.
    induction es as [|e es IH]; [constructor|]. inversion_clear Hs as [|? ? Hs' Hx].
    rewrite filter_cons. case_decide; [|auto]. simpl. constructor; [auto|].
    rewrite Forall_fmap, Forall_forall in Hx |- *. intros e' [_ Hin]%list_elem_of_filter. by apply Hx.
Qed.

(** ** Removing and adding entries *)

Definition without (l : list entry) (es : list entry) : list entry := filter (fun e => e ∉ l) es.

Lemma StronglySorted_filter {A} (R : relation A) (P : A -> Prop) `{forall x, Decision (P x)} l :
  StronglySorted R l -> StronglySorted R (filter P l).
Proof.
  induction 1 as [|x l Hs IH Hx]; [constructor|]. rewrite filter_cons. case_decide; [|done].
  constructor; [done|]. rewrite Forall_forall in Hx |- *. intros y [_ Hy]%list_elem_of_filter. auto.
Qed.

Lemma Forall_without (P : entry -> Prop) l es : Forall P es -> Forall P (without l es).
Proof. rewrite !Forall_forall. intros H e [_ He]%list_elem_of_filter. auto. Qed.

Lemma without_nil es : without [] es = es.
Proof.
  unfold without. induction es as [|e es IH]; [done|]. rewrite filter_cons_True by set_solver. by rewrite IH.
Qed.

Lemma without_cons e l es : without l (without [e] es) = without (e :: l) es.
Proof. unfold without. rewrite list_filter_filter. apply list_filter_iff. set_solver. Qed.

Lemma of_kind_without k l es : of_kind k (without l es) = without l (of_kind k es).
Proof. unfold of_kind, without. rewrite !list_filter_filter. apply list_filter_iff. set_solver. Qed.

Lemma without_absent l es : Forall (fun e => e ∉ es) l -> without l es = es.
Proof.
  intros H. induction es as [|e es IH]; [done|]. unfold without in *. rewrite Forall_forall in H.
  rewrite filter_cons_True.
  - f_equal. apply IH, Forall_forall. intros x Hx Hin. eapply H; [done|by right].
  - intros Hin. apply (H e Hin). by left.
Qed.

Lemma dir_rep_entries_NoDup es d : dir_rep es d -> NoDup es.
Proof. intros H%rep_NoDup. by eapply NoDup_fmap_1. Qed.

Lemma bytes_without es e :
  NoDup es -> e ∈ es -> bytes_of (without [e] es) = bytes_of es - fsize (e_file e).
Proof.
  intros Hn (l1 & l2 & ->)%list_elem_of_split. apply NoDup_app in Hn as (_ & H1 & H2).
  apply NoDup_cons in H2 as [H2 _]. unfold without.
  rewrite filter_app, filter_cons_False by set_solver. fold (without [e] l1) (without [e] l2).
  rewrite (without_absent [e] l1), (without_absent [e] l2).
  - rewrite !bytes_of_app. simpl. lia.
  - by constructor.
  - constructor; [|done]. intros Hin. apply (H1 _ Hin). by left.
Qed.

Lemma dir_rep_remove es d e :
  dir_rep es d -> e ∈ es -> dir_rep (without [e] es) (delete (ename e) d).
Proof.
  intros H Hin. pose proof (rep_NoDup _ _ H) as Hn. destruct H as [Hs Hr Hf Ht].
  split; [by apply StronglySorted_filter|by apply Forall_without| |by apply Forall_without].
  intros n f Hx. rewrite lookup_delete_Some, Hf by done. split.
  - intros (Hne & e' & He & -> & ->). exists e'. unfold without. rewrite list_elem_of_filter. set_solver.
  - intros (e' & [Hne He]%list_elem_of_filter & -> & ->). split; [|eauto].
    intros E. apply Hne, list_elem_of_singleton. symmetry.
    apply list_elem_of_lookup in He as [i Hi], Hin as [j Hj].
    assert (i = j); [|congruence]. eapply NoDup_lookup; [exact Hn| |].
    + rewrite list_lookup_fmap, Hi. done.
    + rewrite list_lookup_fmap, Hj. simpl. by rewrite E.
Qed.

Lemma rep_remove es sp e d' :
  rep es sp -> e ∈ es -> d' = delete (ename e) (dir sp) ->
  rep (without [e] es)
    (with_total (e_kind e) (sat_sub (totals sp (e_kind e)) (fsize (e_file e))) (with_dir d' sp)).
Proof.
  intros [Hd Ht Hn] Hin ->. split; [by apply dir_rep_remove| |by apply Forall_without].
  intros k. simpl. unfold upd. rewrite of_kind_without.
  case_decide as E; subst.
  - assert (Hk : e ∈ of_kind (e_kind e) es) by (by apply list_elem_of_filter).
    assert (Hnd : NoDup (of_kind (e_kind e) es)) by (eapply NoDup_filter, dir_rep_entries_NoDup; eauto).
    rewrite bytes_without by done. rewrite Ht. unfold sat_sub.
    pose proof (bytes_of_nonneg (without [e] (of_kind (e_kind e) es))).
    rewrite bytes_without in H by done. lia.
  - rewrite without_absent; [apply Ht|]. constructor; [|done]. intros [? _]%list_elem_of_filter. congruence.
Qed.

(** Counters and warnings do not matter to the representation. *)
Lemma rep_record_drop es sp k r : rep es sp <-> rep es (record_drop k r sp).
Proof. split; intros []; by split. Qed.

Lemma rep_should_warn es sp now r : rep es sp -> rep es (should_warn_drop now r sp).2.
Proof. unfold should_warn_drop. intros []. case_match; by split. Qed.

Record fs_ok (env : FsEnv) : Prop := {
  ok_listable : listable env = true;
  ok_readable : forall n, readable env n = true;
  ok_removable : forall n, removable env n = true;
}.

Lemma remove_file_ok env n f d : fs_ok env -> d !! n = Some f -> remove_file env n d = Some (delete n d).
Proof.
  intros He Hf. unfold remove_file. rewrite (ok_removable _ He), bool_decide_eq_true_2; [done|eauto].
Qed.

Lemma rep_untrack env es sp e :
  fs_ok env -> rep es sp -> e ∈ es ->
  rep (without [e] es) (remove_and_untrack env (ename e) (Some (e_kind e)) sp).
Proof.
  intros He Hr Hin. unfold remove_and_untrack, file_len.
  pose proof (rep_lookup _ _ _ (rep_dir _ _ Hr) Hin) as Hl.
  rewrite (remove_file_ok _ _ _ _ He Hl), Hl. by apply rep_remove.
Qed.

(** ** Quotas: what is dropped *)

(** The longest suffix (prefix) of the entries that fits the quota. *)
Definition keeps_newest (quota : Z) (all kept : list entry) : Prop :=
  kept `suffix_of` all /\ bytes_of kept <= quota /\
  forall more, more `suffix_of` all -> (length kept < length more)%nat -> quota < bytes_of more.
Definition keeps_oldest (quota : Z) (all kept : list entry) : Prop :=
  kept `prefix_of` all /\ bytes_of kept <= quota /\
  forall more, more `prefix_of` all -> (length kept < length more)%nat -> quota < bytes_of more.
Definition keeps (k : SignalKind) : Z -> list entry -> list entry -> Prop :=
  if bool_decide (k = AppLogs) then keeps_oldest else keeps_newest.

Lemma drop_files_spec env k quota l :
  fs_ok env -> forall es sp n, rep es sp -> NoDup l -> Forall (fun e => e ∈ of_kind k es) l ->
  exists j sp', drop_files env k quota (ename <$> l) n sp = (n + Z.of_nat j, sp') /\
    (j <= length l)%nat /\ rep (without (take j l) es) sp' /\
    quotas sp' = quotas sp /\ next_seq sp' = next_seq sp /\
    dropped sp' Quota k = dropped sp Quota k + Z.of_nat j /\
    (totals sp' k <= quota \/ j = length l) /\
    forall i, (i < j)%nat -> quota < bytes_of (of_kind k (without (take i l) es)).
Proof.
  intros He. induction l as [|e l IH]; intros es sp n Hr Hnd Hl; simpl.
  { exists 0%nat, sp. rewrite Z.add_0_r, without_nil. repeat split; try done; try lia; by apply Hr. }
  destruct (totals sp k <=? quota) eqn:Eq; bool_prop.
  { exists 0%nat, sp. rewrite Z.add_0_r, without_nil.
    split; [done|]. split; [lia|]. do 3 (split; [done|]). split; [lia|]. split; [by left|lia]. }
  apply NoDup_cons in Hnd as [Hne Hnd]. inversion_clear Hl as [|? ? He1 Hl'].
  apply list_elem_of_filter in He1 as [Hk Hin].
  pose proof (rep_lookup _ _ _ (rep_dir _ _ Hr) Hin) as Hlk.
  rewrite (remove_file_ok _ _ _ _ He Hlk). unfold file_len. rewrite Hlk. cbn [from_option].
  pose proof (rep_remove _ _ _ _ Hr Hin eq_refl) as Hr'. rewrite Hk in Hr'.
  apply (rep_record_drop _ _ k Quota) in Hr'.
  destruct (IH _ _ (n + 1) Hr' Hnd) as (j & sp' & E & Hj & Hrep & Hq & Hs & Hd & Ht & Hm).
  { rewrite of_kind_without. rewrite Forall_forall in Hl' |- *. intros x Hx.
    apply list_elem_of_filter. split; [|auto]. set_solver. }
  exists (S j), sp'. change (list_fmap entry (list byte) ename l) with (ename <$> l). rewrite E.
  cbn [take]. rewrite <- without_cons. split; [f_equal; lia|].
  split; [lia|]. do 3 (split; [done|]). split.
  { rewrite Hd. simpl. unfold upd. rewrite !decide_True by done. lia. }
  split; [destruct Ht as [?| ->]; auto|]. intros [|i] Hi; simpl.
  - rewrite without_nil. rewrite <- (rep_totals _ _ Hr). lia.
  - rewrite <- without_cons. apply Hm. lia.
Qed.

Lemma without_all l es : Forall (fun e => e ∈ l) es -> without l es = [].
Proof.
  unfold without. induction 1 as [|e es He _ IH]; [done|]. by rewrite filter_cons_False by auto.
Qed.

Lemma without_app l es1 es2 : without l (es1 ++ es2) = without l es1 ++ without l es2.
Proof. apply filter_app. Qed.

Lemma without_prefix (ks : list entry) j : NoDup ks -> without (take j ks) ks = drop j ks.
Proof.
  intros H. rewrite <- (take_drop j ks) at 2. rewrite without_app.
  rewrite <- (take_drop j ks) in H. apply NoDup_app in H as (_ & H & _).
  rewrite without_all by (by apply Forall_forall). by apply without_absent, Forall_forall.
Qed.

Lemma without_permutation l l' es : l ≡ₚ l' -> without l es = without l' es.
Proof. intros H. apply list_filter_iff. intros e. by rewrite H. Qed.

Lemma without_suffix (ks : list entry) j :
  NoDup ks -> (j <= length ks)%nat -> without (take j (reverse ks)) ks = take (length ks - j) ks.
Proof.
  intros H Hj. rewrite take_reverse, (without_permutation _ (drop (length ks - j) ks))
    by (by rewrite reverse_Permutation).
  rewrite <- (take_drop (length ks - j) ks) at 3. rewrite without_app.
  rewrite <- (take_drop (length ks - j) ks) in H. apply NoDup_app in H as (_ & H & _).
  rewrite (without_all _ (drop _ _)), app_nil_r by (by apply Forall_forall).
  apply without_absent, Forall_forall. intros e H1 H2. by apply (H e).
Qed.

Lemma keeps_all k quota all : bytes_of all <= quota -> keeps k quota all all.
Proof.
  intros H. unfold keeps. case_bool_decide; (split; [done|]; split; [done|]); intros more Hm Hl.
  - apply prefix_length in Hm. lia.
  - apply suffix_length in Hm. lia.
Qed.

(** Dropping the first [j] of the files in the order of the kind leaves what is kept. *)
Definition drop_order (k : SignalKind) (ks : list entry) : list entry :=
  if bool_decide (k = AppLogs) then reverse ks else ks.

Lemma keeps_dropped k quota ks j :
  NoDup ks -> (j <= length ks)%nat ->
  bytes_of (without (take j (drop_order k ks)) ks) <= quota ->
  (forall i, (i < j)%nat -> quota < bytes_of (without (take i (drop_order k ks)) ks)) ->
  keeps k quota ks (without (take j (drop_order k ks)) ks) /\
  length (without (take j (drop_order k ks)) ks) = (length ks - j)%nat.
Proof.
  intros Hn Hj Hb Hm. unfold keeps, drop_order in *. case_bool_decide.
  - rewrite without_suffix in * by done. split; [|rewrite length_take; lia].
    split; [|split; [done|]].
    + eexists. symmetry. apply take_drop.
    + intros more [rest E]. rewrite length_take. intros Hl.
      specialize (Hm (length ks - length more)%nat). rewrite without_suffix in Hm by (done || lia).
      assert (length ks = length more + length rest)%nat by (subst; apply length_app).
      replace (length ks - (length ks - length more))%nat with (length more) in Hm by lia.
      rewrite E, take_app_length in Hm. apply Hm. rewrite length_app. subst. rewrite length_app in *. lia.
  - rewrite without_prefix in * by done. split; [|rewrite length_drop; lia].
    split; [|split; [done|]].
    + eexists. symmetry. apply take_drop.
    + intros more [rest E]. rewrite length_drop. intros Hl.
      specialize (Hm (length rest)). rewrite without_prefix in Hm by done.
      assert (length ks = length rest + length more)%nat by (subst; apply length_app).
      rewrite E, drop_app_length in Hm. apply Hm. lia.
Qed.

Lemma should_warn_fields now r sp :
  quotas (should_warn_drop now r sp).2 = quotas sp /\
  next_seq (should_warn_drop now r sp).2 = next_seq sp /\
  dropped (should_warn_drop now r sp).2 = dropped sp.
Proof. unfold should_warn_drop. by case_match. Qed.

Lemma enforce_cap_spec env now k es sp :
  fs_ok env -> rep es sp -> 0 <= quota_for k sp ->
  exists es', rep es' (enforce_cap env now k sp) /\
    (forall k', k' <> k -> of_kind k' es' = of_kind k' es) /\
    keeps k (quota_for k sp) (of_kind k es) (of_kind k es') /\
    quotas (enforce_cap env now k sp) = quotas sp /\
    next_seq (enforce_cap env now k sp) = next_seq sp /\
    dropped (enforce_cap env now k sp) Quota k
      = dropped sp Quota k + (Z.of_nat (length (of_kind k es)) - Z.of_nat (length (of_kind k es'))) /\
    es' `sublist_of` es.
Proof.
  intros He Hr Hq. unfold enforce_cap.
  destruct (totals sp k <=? quota_for k sp) eqn:Et; bool_prop.
  { exists es. repeat split; try done; [by apply Hr..| |lia]. apply keeps_all.
    rewrite <- (rep_totals _ _ Hr). done. }
  rewrite (ok_listable _ He). cbn [negb]. rewrite (rep_listing_kind k _ _ (rep_dir _ _ Hr)).
  assert (Hnd : NoDup (of_kind k es)) by (eapply NoDup_filter, dir_rep_entries_NoDup, Hr).
  replace (if bool_decide (k = AppLogs) then reverse (ename <$> of_kind k es) else ename <$> of_kind k es)
    with (ename <$> drop_order k (of_kind k es))
    by (unfold drop_order; case_bool_decide; [by rewrite fmap_reverse|done]).
  assert (Hp : drop_order k (of_kind k es) ≡ₚ of_kind k es)
    by (unfold drop_order; case_bool_decide; [apply reverse_Permutation|done]).
  destruct (drop_files_spec env k (quota_for k sp) (drop_order k (of_kind k es)) He es sp 0)
    as (j & sp' & E & Hj & Hrep & Hqs & Hs & Hd & Ht & Hm); [done|by rewrite Hp| |].
  { apply Forall_forall. intros e. by rewrite Hp. }
  rewrite E. rewrite Z.add_0_l. rewrite (Permutation_length Hp) in Hj, Ht.
  pose proof (rep_totals _ _ Hrep k) as Htk. rewrite of_kind_without in Htk.
  destruct (keeps_dropped k (quota_for k sp) (of_kind k es) j) as [Hk Hlen]; [done..| | |].
  { destruct Ht as [Ht| ->]; [by rewrite <- Htk|].
    rewrite <- (Permutation_length Hp), firstn_all, without_all; [done|].
    apply Forall_forall. intros e. by rewrite Hp. }
  { intros i Hi. rewrite <- of_kind_without. by apply Hm. }
  exists (without (take j (drop_order k (of_kind k es))) es).
  destruct (should_warn_fields now Quota sp') as (F1 & F2 & F3).
  split; [case_match; [by apply rep_should_warn|done]|].
  split.
  { intros k' Hne. rewrite of_kind_without. apply without_absent, Forall_forall.
    intros e H1 [H2 _]%list_elem_of_filter. apply subseteq_take in H1.
    rewrite Hp in H1. apply list_elem_of_filter in H1 as [H1 _]. congruence. }
  rewrite of_kind_without. split; [done|].
  rewrite Hlen. split; [case_match; [by rewrite F1|done]|].
  split; [case_match; [by rewrite F2|done]|]. split; [|apply sublist_filter].
  replace (dropped _ Quota k) with (dropped sp' Quota k) by (case_match; [by rewrite F3|done]).
  rewrite Hd. lia.
Qed.

(** ** Append, drain, age limit: what they do to the entries *)

Lemma from_tag_tag k : from_tag (tag k) = Some k.
Proof. by destruct k. Qed.

(** Decoding what [append] writes, up to the comparison of lengths. *)
Lemma decode_encoded k body :
  decode_batch (encode_batch k body)
  = if zlen body =? zlen body mod 2 ^ 32 then Ok (k, body) else Err LengthMismatch.
Proof.
  unfold decode_batch, encode_batch. pose proof (zlen_nonneg body).
  change (tag k :: be_split 4 (zlen body mod 2 ^ 32) ++ body)
    with ([tag k] ++ be_split 4 (zlen body mod 2 ^ 32) ++ body).
  set (data := [tag k] ++ be_split 4 (zlen body mod 2 ^ 32) ++ body).
  assert (Hl : zlen data = 5 + zlen body) by (subst data; zl; lia).
  replace (5 <=? zlen data) with true by lia. unfold index_byte, index_slice.
  replace (byte_at 0 data) with (Some (tag k)) by done.
  replace (slice 1 5 data) with (Some (be_split 4 (zlen body mod 2 ^ 32))) by (symmetry; subst data; piece).
  replace (slice 5 (zlen data) data) with (Some body) by (rewrite Hl; symmetry; subst data; piece).
  cbn [unwrap_or_panic obind]. rewrite from_tag_tag. cbn [ok_or obind].
  rewrite of_be_split; [done|]. apply Z.mod_pos_bound. lia.
Qed.

Lemma decode_tag k b0 k' b : decode_batch (encode_batch k b0) = Ok (k', b) -> k' = k.
Proof. rewrite decode_encoded. case_match; [|done]. by intros [= <- _]. Qed.

Lemma StronglySorted_snoc {A} (R : relation A) l x :
  StronglySorted R l -> Forall (fun y => R y x) l -> StronglySorted R (l ++ [x]).
Proof.
  induction 1 as [|y l Hs IH Hy]; simpl; intros H; [by repeat constructor|].
  inversion_clear H. constructor; [auto|]. apply Forall_app_2; [done|by constructor].
Qed.

Lemma dir_rep_add es d e :
  dir_rep es d -> 0 <= e_seq e <= u64_max -> Forall (fun x => e_seq x < e_seq e) es ->
  (forall k b, decode_batch (content (e_file e)) = Ok (k, b) -> k = e_kind e) ->
  dir_rep (es ++ [e]) (<[ename e := e_file e]> (delete (tmp_name (e_seq e)) d)).
Proof.
  intros [Hs Hr Hf Ht] He Hlt Htag. split.
  - by apply StronglySorted_snoc.
  - apply Forall_app_2; [done|by constructor].
  - intros n f Hx. assert (n <> tmp_name (e_seq e)) by (intros ->; by rewrite tmp_name_ext in Hx).
    rewrite lookup_insert_Some, lookup_delete_ne, Hf by done. split.
    + intros [[<- <-]|(Hne & e' & H1 & -> & ->)]; [exists e|exists e']; set_solver.
    + intros (e' & [Hin|Hin]%elem_of_app & -> & ->);
        [right|apply list_elem_of_singleton in Hin as ->; by left].
      split; [|eauto]. intros E. apply (f_equal parse_batch_filename) in E. unfold ename in E.
      rewrite Forall_forall in Hlt, Hr. specialize (Hlt _ Hin). specialize (Hr _ Hin).
      rewrite !parse_batch_name in E by lia. injection E. lia.
  - apply Forall_app_2; [done|by constructor].
Qed.

(** A file that is not a batch does not matter. *)
Lemma dir_rep_tmp es d s f : dir_rep es d -> dir_rep es (<[tmp_name s := f]> d).
Proof.
  intros [Hs Hr Hf Ht]. split; [done..| |done]. intros n g Hx.
  rewrite lookup_insert_ne; [by apply Hf|]. intros <-. by rewrite tmp_name_ext in Hx.
Qed.

Definition new_entry (k : SignalKind) (body : str) (t : option Z) (sp : Spool) : entry :=
  {| e_seq := next_seq sp; e_kind := k; e_file := {| content := encode_batch k body; mtime := t |} |}.

Lemma publish_spec k body t es sp :
  rep es sp -> 0 <= next_seq sp < u64_max ->
  exists len, publish (IoOk t) k body sp
    = ({| dir := <[ename (new_entry k body t sp) := e_file (new_entry k body t sp)]>
                   (delete (tmp_name (next_seq sp)) (dir sp));
          quotas := quotas sp; next_seq := next_seq sp + 1; totals := totals sp;
          dropped := dropped sp; last_drop_warn_unix := last_drop_warn_unix sp |}, Some len) /\
    rep (es ++ [new_entry k body t sp])
      (with_total k (totals sp k + len) (publish (IoOk t) k body sp).1).
Proof.
  intros [Hd Ht Hn] Hs. exists (zlen (encode_batch k body)). unfold u64_max in Hs.
  assert (Hm : (next_seq sp + 1) mod 2 ^ 64 = next_seq sp + 1) by (apply Z.mod_small; lia).
  unfold publish. rewrite Hm. split; [done|]. split; simpl.
  - apply (dir_rep_add _ _ (new_entry k body t sp)); [done|simpl; unfold u64_max; lia|done|].
    intros k' b. apply decode_tag.
  - intros k'. rewrite of_kind_app, bytes_of_app, of_kind_cons. unfold upd. simpl.
    destruct (decide (k' = k)) as [->|Hne].
    + rewrite decide_True by done. rewrite Ht. simpl. unfold fsize. simpl. lia.
    + rewrite decide_False by done. rewrite Ht. simpl. lia.
  - apply Forall_app. split; [|repeat constructor; simpl; lia].
    eapply Forall_impl; [exact Hn|]. simpl. lia.
Qed.

Lemma append_spec env now k body t es sp :
  fs_ok env -> rep es sp -> 0 <= quota_for k sp -> 0 <= next_seq sp < u64_max ->
  exists es' sp', append env (IoOk t) now k body sp = (true, sp') /\ rep es' sp' /\
    (forall k', k' <> k -> of_kind k' es' = of_kind k' es) /\
    keeps k (quota_for k sp) (of_kind k es ++ [new_entry k body t sp]) (of_kind k es') /\
    quotas sp' = quotas sp /\ next_seq sp' = next_seq sp + 1 /\
    dropped sp' Quota k = dropped sp Quota k + (Z.of_nat (length (of_kind k es)) + 1
      - Z.of_nat (length (of_kind k es'))) /\
    es' `sublist_of` es ++ [new_entry k body t sp].
Proof.
  intros He Hr Hq Hs. destruct (publish_spec k body t es sp Hr Hs) as (len & E & Hr').
  unfold append. rewrite E in *. cbn [fst] in Hr'. unfold account. cbn [totals].
  destruct (enforce_cap_spec env now k _ _ He Hr') as (es' & Hrep & Ho & Hk & F1 & F2 & F3 & F4); [done|].
  exists es'. eexists. split; [done|]. split; [exact Hrep|]. rewrite F1, F2, F3.
  assert (Hnew : of_kind k [new_entry k body t sp] = [new_entry k body t sp])
    by (unfold of_kind; by rewrite filter_cons_True).
  rewrite of_kind_app, Hnew in *. split.
  { intros k' Hne. rewrite Ho, of_kind_app by done. unfold of_kind at 2.
    rewrite filter_cons_False by (by simpl). by rewrite app_nil_r. }
  split; [done|]. split; [done|]. split; [done|]. split; [|done]. simpl. rewrite length_app. simpl. lia.
Qed.

(** The batches a list of entries holds; damaged files hold none. *)
Definition batches (es : list entry) : list (SignalKind * str) :=
  omap (fun e => match decode_batch (content (e_file e)) with Ok p => Some p | _ => None end) es.

Lemma without_head e es : NoDup (e :: es) -> without [e] (e :: es) = es.
Proof.
  intros [Hn _]%NoDup_cons. unfold without. rewrite filter_cons_False by set_solver.
  apply (without_absent [e]). by constructor.
Qed.

Section Drain.
Variable env : FsEnv.
Variable sender : nat -> SignalKind -> str -> option PushError.
Hypothesis env_ok : fs_ok env.

(** The answers to the batches [bs], given after [n] others. *)
Definition answers (n : nat) (bs : list (SignalKind * str)) : list (option PushError) :=
  imap (fun i '(k, b) => sender (n + i)%nat k b) bs.

Definition delivered (a : option PushError) : Prop := a = None.
Definition refused (a : option PushError) : Prop := is_permanent <$> a = Some true.
#[local] Instance delivered_dec a : Decision (delivered a).
Proof. unfold delivered. apply _. Defined.
#[local] Instance refused_dec a : Decision (refused a).
Proof. unfold refused. apply _. Defined.

Definition count (P : option PushError -> Prop) `{forall a, Decision (P a)} (l : list (option PushError)) : Z :=
  Z.of_nat (length (filter P l)).

Lemma count_cons P `{forall a, Decision (P a)} a l :
  count P (a :: l) = (if decide (P a) then 1 else 0) + count P l.
Proof. unfold count. rewrite filter_cons. case_decide; simpl; lia. Qed.

Lemma answers_cons n k b bs : answers n ((k, b) :: bs) = sender n k b :: answers (S n) bs.
Proof.
  unfold answers. simpl. rewrite Nat.add_0_r. f_equal. apply imap_ext. intros i [k' b'] _. simpl.
  f_equal. lia.
Qed.

Lemma rep_pop e es sp :
  rep (e :: es) sp -> rep es (remove_and_untrack env (ename e) (Some (e_kind e)) sp).
Proof.
  intros H. rewrite <- (without_head e es) by (eapply dir_rep_entries_NoDup, H).
  apply rep_untrack; [done..|]. by left.
Qed.

(** What a drain does: it settles the first [m] entries in order, each readable one sent
    once and either delivered or refused for good, and stops early only at an answer that
    says to try again. *)
Record drain_post (l : list entry) (sent : list (SignalKind * str)) (r : DrainReport)
    (m : nat) (r' : DrainReport) (sent' : list (SignalKind * str)) : Prop := {
  post_le : (m <= length l)%nat;
  post_settled : Forall (fun a => delivered a \/ refused a) (answers (length sent) (batches (take m l)));
  post_drained : drained r' = drained r + count delivered (answers (length sent) (batches (take m l)));
  post_rejected : rejected r' = rejected r + count refused (answers (length sent) (batches (take m l)));
  post_stop :
    if failed r' then
      exists e k b err, l !! m = Some e /\ decode_batch (content (e_file e)) = Ok (k, b) /\
        sent' = sent ++ batches (take m l) ++ [(k, b)] /\
        sender (length sent + length (batches (take m l))) k b = Some err /\ is_permanent err = false
    else m = length l /\ sent' = sent ++ batches l;
}.

Lemma post_sent e k b l sent r r1 m r' sent' :
  decode_batch (content (e_file e)) = Ok (k, b) ->
  delivered (sender (length sent) k b) \/ refused (sender (length sent) k b) ->
  drained r1 = drained r + (if decide (delivered (sender (length sent) k b)) then 1 else 0) ->
  rejected r1 = rejected r + (if decide (refused (sender (length sent) k b)) then 1 else 0) ->
  drain_post l (sent ++ [(k, b)]) r1 m r' sent' -> drain_post (e :: l) sent r (S m) r' sent'.
Proof.
  intros Ed Ha H1 H2 [P1 P2 P3 P4 P5].
  assert (Hb : forall l', batches (e :: l') = (k, b) :: batches l') by (intros; unfold batches; simpl; by rewrite Ed).
  assert (Hl : length (sent ++ [(k, b)]) = S (length sent)) by len. rewrite Hl in *.
  split; cbn [take]; rewrite ?Hb, ?answers_cons, ?count_cons; [simpl; lia|by constructor|lia|lia|].
  destruct (failed r').
  - destruct P5 as (e' & k' & b' & err & Q1 & Q2 & Q3 & Q4 & Q5). exists e', k', b', err.
    do 2 (split; [done|]). rewrite <- app_assoc in Q3. split; [done|]. split; [|done].
    rewrite <- Q4. f_equal. simpl. lia.
  - destruct P5 as [-> ->]. split; [done|]. by rewrite <- app_assoc.
Qed.

Lemma post_damaged e l sent r m r' sent' :
  (forall p, decode_batch (content (e_file e)) <> Ok p) ->
  drain_post l sent r m r' sent' -> drain_post (e :: l) sent r (S m) r' sent'.
Proof.
  intros Ed [P1 P2 P3 P4 P5].
  assert (Hb : forall l', batches (e :: l') = batches l').
  { intros. unfold batches. simpl. destruct (decode_batch _) as [p| |]; [by destruct (Ed p)|done..]. }
  split; cbn [take]; rewrite ?Hb; [simpl; lia|done..|].
  destruct (failed r'); [done|]. destruct P5 as [-> ->]. done.
Qed.

(** Apply the induction hypothesis to the rest of the loop. *)
Ltac recur :=
  match goal with
  | IH : context [drain_loop], Hr : rep _ ?sp |- context [drain_loop _ _ _ ?s ?r ?sp] =>
      destruct (IH _ s r sp Hr) as (m & r' & s' & sp' & E & Hrep & Hp);
      [done|exists (S m), r', s', sp'; do 2 (split; [done|])]
  end.

Lemma drain_loop_spec l : forall es sent r sp,
  rep (l ++ es) sp -> failed r = false ->
  exists m r' sent' sp', drain_loop env sender (ename <$> l) sent r sp = (r', sent', sp') /\
    rep (drop m l ++ es) sp' /\ drain_post l sent r m r' sent'.
Proof.
  induction l as [|e l IH]; intros es sent r sp Hr Hf.
  { exists 0%nat, r, sent, sp. split; [done|]. split; [done|].
    split; simpl; try done; try (unfold count; simpl; lia). rewrite Hf. by rewrite app_nil_r. }
  rewrite fmap_cons. cbn [drain_loop]. unfold read_batch.
  rewrite (rep_lookup _ _ e (rep_dir _ _ Hr)) by (by left). rewrite (ok_readable _ env_ok).
  pose proof (rep_tags _ _ (rep_dir _ _ Hr)) as Htag. inversion_clear Htag as [|? ? Ht _].
  pose proof (dir_rep_kind _ _ e (rep_dir _ _ Hr) ltac:(by left)) as Hk.
  destruct (decode_batch (content (e_file e))) as [[k b]|er|] eqn:Ed.
  2,3: rewrite Hk; apply rep_pop in Hr; recur; apply post_damaged; [by rewrite Ed|done].
  specialize (Ht k b eq_refl). subst k. destruct (sender (length sent) (e_kind e) b) as [err|] eqn:Es.
  - destruct (is_permanent err) eqn:Ep.
    + apply (rep_record_drop _ _ (e_kind e) Rejected), rep_pop in Hr. recur.
      eapply post_sent; [done| | | |exact Hp]; rewrite Es.
      * right. unfold refused. simpl. by rewrite Ep.
      * rewrite decide_False by done. cbn. lia.
      * rewrite decide_True by (unfold refused; simpl; by rewrite Ep). cbn. lia.
    + exists 0%nat. do 3 eexists. split; [done|]. split; [exact Hr|].
      split; simpl; try lia; try constructor; try (unfold count; simpl; lia).
      exists e, (e_kind e), b, err. rewrite Nat.add_0_r. repeat split; done.
  - apply rep_pop in Hr. recur. eapply post_sent; [done| | | |exact Hp]; rewrite Es.
    * by left.
    * rewrite decide_True by done. cbn. lia.
    * rewrite decide_False by done. cbn. lia.
Qed.
End Drain.

Definition stale (now max_age : Z) (e : entry) : Prop := too_old now max_age (e_file e) = true.
#[export] Instance stale_dec now max_age e : Decision (stale now max_age e).
Proof. unfold stale. apply _. Defined.

(** The listing before sorting is a permutation of the entries. *)
Lemma rep_listing_perm es d : dir_rep es d -> exists l, list_batch_files d = ename <$> l /\ l ≡ₚ es.
Proof.
  intros H. pose proof (rep_listing _ _ H) as E.
  assert (Hp : list_batch_files d ≡ₚ ename <$> es) by (by rewrite <- E, sort_Permutation).
  apply Permutation_map_inv in Hp as (l & -> & Hl). by exists l.
Qed.

Lemma prune_loop_spec env now max_age l :
  fs_ok env -> forall es sp n, rep es sp -> NoDup l -> Forall (fun e => e ∈ es) l ->
  exists sp', prune_loop env now max_age (ename <$> l) n sp
      = (n + Z.of_nat (length (filter (stale now max_age) l)), sp') /\
    rep (without (filter (stale now max_age) l) es) sp' /\
    quotas sp' = quotas sp /\ next_seq sp' = next_seq sp.
Proof.
  intros He. induction l as [|e l IH]; intros es sp n Hr Hnd Hl.
  { exists sp. rewrite without_nil. simpl. rewrite Z.add_0_r. done. }
  rewrite fmap_cons. cbn [prune_loop]. apply NoDup_cons in Hnd as [Hne Hnd].
  inversion_clear Hl as [|? ? Hin Hl']. rewrite (rep_lookup _ _ _ (rep_dir _ _ Hr) Hin). cbn [from_option].
  rewrite filter_cons. case_decide as Hst; unfold stale in Hst.
  - rewrite Hst, (dir_rep_kind _ _ _ (rep_dir _ _ Hr) Hin).
    rewrite <- without_cons.
    destruct (IH (without [e] es) (remove_and_untrack env (ename e) (Some (e_kind e)) (record_drop (e_kind e) Age sp)) (n + 1))
      as (sp' & E & Hrep & F1 & F2); [|done| |].
    + apply rep_untrack; [done| |done]. by apply rep_record_drop.
    + rewrite Forall_forall in Hl' |- *. intros x Hx. apply list_elem_of_filter. split; [set_solver|auto].
    + exists sp'. rewrite E. split; [f_equal; simpl; lia|]. split; [done|]. rewrite F1, F2.
      unfold remove_and_untrack. by case_match.
  - rewrite (not_true_is_false _ Hst). by apply IH.
Qed.

Lemma filter_ext_in {A} (P Q : A -> Prop) `{forall x, Decision (P x), forall x, Decision (Q x)} (l : list A) :
  (forall x, x ∈ l -> P x <-> Q x) -> filter P l = filter Q l.
Proof.
  induction l as [|x l IH]; intros E; [done|]. rewrite !filter_cons.
  rewrite IH by (intros; apply E; by right). assert (Hx : P x <-> Q x) by (apply E; by left).
  repeat case_decide; tauto.
Qed.

Lemma prune_spec env now unix_now max_age es sp :
  fs_ok env -> rep es sp ->
  exists sp', prune_older_than env now unix_now max_age sp
      = (Z.of_nat (length (filter (stale now max_age) es)), sp') /\
    rep (filter (fun e => ~ stale now max_age e) es) sp' /\
    quotas sp' = quotas sp /\ next_seq sp' = next_seq sp.
Proof.
  intros He Hr. unfold prune_older_than. rewrite (ok_listable _ He). cbn [negb].
  destruct (rep_listing_perm _ _ (rep_dir _ _ Hr)) as (l & -> & Hl).
  destruct (prune_loop_spec env now max_age l He es sp 0) as (sp' & E & Hrep & F1 & F2); [done| | |].
  - rewrite Hl. eapply dir_rep_entries_NoDup, Hr.
  - apply Forall_forall. intros e. by rewrite Hl.
  - rewrite E, Z.add_0_l. assert (Hf : filter (stale now max_age) l ≡ₚ filter (stale now max_age) es)
      by (by rewrite Hl).
    rewrite (Permutation_length Hf).
    assert (Hw : without (filter (stale now max_age) l) es = filter (fun e => ~ stale now max_age e) es).
    { rewrite (without_permutation _ _ _ Hf). unfold without. apply filter_ext_in.
      intros e Hin. rewrite list_elem_of_filter. tauto. }
    rewrite Hw in Hrep. eexists. split; [done|]. destruct (should_warn_fields unix_now Age sp') as (G1 & G2 & _).
    case_match; [rewrite G1, G2; split; [by apply rep_should_warn|done]|done].
Qed.

(** ** Open *)

Lemma dir_rep_other es d d' :
  (forall n, extension_is BATCH_EXT n = true -> d' !! n = d !! n) -> dir_rep es d -> dir_rep es d'.
Proof. intros E [Hs Hr Hf Ht]. split; [done..| |done]. intros n f Hx. rewrite E by done. auto. Qed.

Lemma tmp_not_batch n : extension_is TMP_EXT n = true -> extension_is BATCH_EXT n = false.
Proof.
  unfold extension_is. destruct (stem_ext n) as [[? e]|]; [|done]. intros H. bool_prop. subst.
  by apply bool_decide_eq_false.
Qed.

Lemma parse_None_ext n : extension_is BATCH_EXT n = false -> parse_batch_filename n = None.
Proof.
  unfold extension_is, parse_batch_filename. destruct (stem_ext n) as [[? e]|]; [|done].
  by intros ->.
Qed.

Lemma scan_spec env es ns :
  fs_ok env -> forall l m t d, filter (fun n => extension_is BATCH_EXT n = true) ns = ename <$> l ->
  dir_rep es d -> Forall (fun e => e ∈ es) l ->
  exists m' t' d', foldl (scan_entry env) (m, t, d) ns = (m', t', d') /\ dir_rep es d' /\
    m <= m' /\ Forall (fun e => e_seq e <= m') l /\
    (forall b, m <= b -> Forall (fun e => e_seq e <= b) l -> m' <= b) /\
    forall k, t' k = t k + bytes_of (of_kind k l).
Proof.
  intros He. induction ns as [|n ns IH]; intros l m t d Hl Hd Hin.
  { destruct l; [|done]. exists m, t, d. repeat split; try done; try apply Hd; try lia. intros; simpl; lia. }
  cbn [foldl]. rewrite filter_cons in Hl. case_decide as Hx.
  - destruct l as [|e l]; [done|]. injection Hl as Hn Hl. inversion_clear Hin as [|? ? Hine Hin'].
    assert (Htmp : extension_is TMP_EXT n = false).
    { destruct (extension_is TMP_EXT n) eqn:E; [|done]. apply tmp_not_batch in E. congruence. }
    assert (Hr : 0 <= e_seq e <= u64_max).
    { pose proof (rep_range _ _ Hd) as Hr. rewrite Forall_forall in Hr. auto. }
    unfold scan_entry at 2. rewrite Htmp, Hn. unfold ename at 1. rewrite parse_batch_name by done.
    unfold file_len. rewrite (rep_lookup _ _ _ Hd Hine). cbn [from_option].
    destruct (IH l (Z.max m (e_seq e)) (upd t (e_kind e) (t (e_kind e) + fsize (e_file e))) d Hl Hd Hin')
      as (m' & t' & d' & E & Hd' & H1 & H2 & H3 & H4).
    exists m', t', d'. split; [done|]. split; [done|]. split; [lia|].
    split; [constructor; [lia|done]|]. split.
    + intros b Hb Hall. inversion_clear Hall. apply H3; [lia|done].
    + intros k. rewrite H4, of_kind_cons. unfold upd. repeat case_decide; subst; simpl; try done; lia.
  - destruct (IH l m t (if extension_is TMP_EXT n then default d (remove_file env n d) else d) Hl)
      as (m' & t' & d' & E & Hrest); [|done|].
    { case_match eqn:Et; [|done]. eapply dir_rep_other; [|done]. intros n' Hx'.
      unfold remove_file. case_match; [|done]. simpl. apply lookup_delete_ne. congruence. }
    exists m', t', d'. split; [|done]. rewrite <- E. f_equal. unfold scan_entry at 1.
    destruct (extension_is TMP_EXT n); [done|].
    rewrite parse_None_ext; [done|]. by destruct (extension_is BATCH_EXT n).
Qed.

Lemma bytes_of_perm l l' : l ≡ₚ l' -> bytes_of l = bytes_of l'.
Proof. induction 1; simpl; lia. Qed.

Definition quotas_ok (q : SpoolQuotas) : Prop := 0 <= metrics q /\ 0 <= logs q /\ 0 <= app_logs q.

Lemma quota_for_ok k sp : quotas_ok (quotas sp) -> 0 <= quota_for k sp.
Proof. intros (? & ? & ?). by destruct k. Qed.

Lemma quota_for_eq k sp sp' : quotas sp' = quotas sp -> quota_for k sp' = quota_for k sp.
Proof. intros E. unfold quota_for. by rewrite E. Qed.

(** The scan of a directory rebuilds the counters. *)
Lemma scan_rep env q es d entries m t d' :
  fs_ok env -> dir_rep es d -> Forall (fun e => e_seq e < u64_max) es -> entries ≡ₚ names d ->
  foldl (scan_entry env) (0, fun _ => 0, d) entries = (m, t, d') ->
  rep es {| dir := d'; quotas := q; next_seq := (m + 1) mod 2 ^ 64; totals := t;
            dropped := fun _ _ => 0; last_drop_warn_unix := fun _ => 0 |} /\
  forall b, 1 <= b <= u64_max -> Forall (fun e => e_seq e < b) es -> 1 <= (m + 1) mod 2 ^ 64 <= b.
Proof.
  intros He Hd Hb Hp Hscan.
  assert (Hl : exists l, filter (fun n => extension_is BATCH_EXT n = true) entries = ename <$> l /\ l ≡ₚ es).
  { destruct (rep_listing_perm _ _ Hd) as (l0 & E0 & Hl0).
    assert (Hp' : filter (fun n => extension_is BATCH_EXT n = true) entries ≡ₚ ename <$> l0)
      by (rewrite <- E0; unfold list_batch_files; by rewrite Hp).
    apply Permutation_map_inv in Hp' as (l & -> & Hl). exists l. split; [done|]. by trans l0. }
  destruct Hl as (l & Hl & Hles).
  destruct (scan_spec env es entries He l 0 (fun _ => 0) d Hl Hd) as (m' & t' & d'' & E & Hd' & H1 & H2 & H3 & H4).
  { apply Forall_forall. intros e. by rewrite Hles. }
  rewrite E in Hscan. injection Hscan as -> -> ->.
  assert (Hm : m <= u64_max - 1).
  { apply H3; [unfold u64_max; lia|]. rewrite Hles. eapply Forall_impl; [exact Hb|]. simpl. lia. }
  rewrite Z.mod_small by (unfold u64_max in *; lia). split.
  2: { intros b Hb1 Hb2. split; [lia|]. enough (m <= b - 1) by lia. apply H3; [lia|]. rewrite Hles.
    eapply Forall_impl; [exact Hb2|]. simpl. lia. }
  split; simpl; [done| |].
  - intros k. rewrite H4. simpl. apply bytes_of_perm. unfold of_kind. by rewrite Hles.
  - rewrite Hles in H2. eapply Forall_impl; [exact H2|]. simpl. lia.
Qed.

Lemma reopen_spec env now q es d entries :
  fs_ok env -> quotas_ok q -> dir_rep es d -> Forall (fun e => e_seq e < u64_max) es -> entries ≡ₚ names d ->
  exists es', rep es' (open env now entries d q) /\
    (forall k, keeps k (quota_for k (open env now entries d q)) (of_kind k es) (of_kind k es')) /\
    quotas (open env now entries d q) = q /\ es' `sublist_of` es /\
    forall b, 1 <= b <= u64_max -> Forall (fun e => e_seq e < b) es ->
      1 <= next_seq (open env now entries d q) <= b.
Proof.
  intros He Hq Hd Hb Hp. unfold open.
  destruct (foldl (scan_entry env) (0, fun _ => 0, d) entries) as [[m t] d'] eqn:E.
  destruct (scan_rep env q es d entries m t d' He Hd Hb Hp E) as [Hr Hnext].
  set (sp0 := {| dir := d' |}) in *. cbn [foldl].
  destruct (enforce_cap_spec env now Metrics es sp0 He Hr) as (e1 & R1 & O1 & K1 & Q1 & N1 & _ & S1); [by apply quota_for_ok|].
  set (sp1 := enforce_cap env now Metrics sp0) in *.
  destruct (enforce_cap_spec env now Logs e1 sp1 He R1) as (e2 & R2 & O2 & K2 & Q2 & N2 & _ & S2).
  { apply quota_for_ok. by rewrite Q1. }
  set (sp2 := enforce_cap env now Logs sp1) in *.
  destruct (enforce_cap_spec env now AppLogs e2 sp2 He R2) as (e3 & R3 & O3 & K3 & Q3 & N3 & _ & S3).
  { apply quota_for_ok. by rewrite Q2, Q1. }
  exists e3. split; [done|]. split; [|split; [by rewrite Q3, Q2, Q1|split; [by rewrite S3, S2, S1|by rewrite N3, N2, N1]]].
  intros []; rewrite (quota_for_eq _ sp0) by (by rewrite Q3, Q2, Q1).
  - by rewrite O3, O2 by done.
  - rewrite O3 by done. rewrite O1 in K2 by done. by rewrite (quota_for_eq _ sp0) in K2.
  - rewrite O2, O1 in K3 by done. by rewrite (quota_for_eq _ sp0) in K3 by (by rewrite Q2, Q1).
Qed.

(** ** Sequences of operations *)

Lemma untrack_fields env n k sp :
  quotas (remove_and_untrack env n k sp) = quotas sp /\ next_seq (remove_and_untrack env n k sp) = next_seq sp.
Proof. unfold remove_and_untrack. destruct (remove_file _ _ _), k; done. Qed.

Lemma drain_loop_fields env sender files : forall sent r sp,
  quotas (drain_loop env sender files sent r sp).2 = quotas sp /\
  next_seq (drain_loop env sender files sent r sp).2 = next_seq sp.
Proof.
  induction files as [|n files IH]; intros; simpl; [done|].
  repeat case_match; subst; try done;
    match goal with |- context [drain_loop _ _ _ ?s ?r ?sp] => destruct (IH s r sp) as [-> ->] end;
    match goal with |- context [remove_and_untrack _ ?n ?k ?sp] => destruct (untrack_fields env n k sp) as [-> ->] end;
    done.
Qed.

Lemma drain_spec env sender limit es sp :
  fs_ok env -> rep es sp ->
  exists m r sent sp', drain env sender limit sp = (r, sent, sp') /\ rep (drop m es) sp' /\
    quotas sp' = quotas sp /\ next_seq sp' = next_seq sp /\
    drain_post sender (take limit es) [] no_report m r sent.
Proof.
  intros He Hr. unfold drain. rewrite (ok_listable _ He), (rep_listing _ _ (rep_dir _ _ Hr)). cbn [negb].
  rewrite <- fmap_take. rewrite <- (take_drop limit es) in Hr.
  destruct (drain_loop_spec env sender He (take limit es) (drop limit es) [] no_report sp Hr)
    as (m & r & sent & sp' & E & Hrep & Hp); [done|].
  exists m, r, sent, sp'. destruct (drain_loop_fields env sender (ename <$> take limit es) [] no_report sp) as [F1 F2].
  rewrite E in F1, F2. split; [done|]. split; [|done].
  pose proof (post_le _ _ _ _ _ _ _ Hp) as Hm. rewrite <- (take_drop limit es).
  rewrite drop_app_le; [done|]. len.
Qed.

(** The operations of the daemon's tasks, and a restart of the daemon. *)
Inductive spool_op :=
| OpAppend (io : append_io) (now : Z) (k : SignalKind) (body : str)
| OpDrain (limit : nat) (sender : nat -> SignalKind -> str -> option PushError)
| OpPrune (now unix_now max_age : Z)
| OpReject (k : SignalKind)
| OpRestart (now : Z).

Definition run_op (env : FsEnv) (sp : Spool) (o : spool_op) : Spool :=
  match o with
  | OpAppend io now k body => (append env io now k body sp).2
  | OpDrain limit sender => (drain env sender limit sp).2
  | OpPrune now unix_now max_age => (prune_older_than env now unix_now max_age sp).2
  | OpReject k => record_rejected_batch k sp
  | OpRestart now => open env now (names (dir sp)) (dir sp) (quotas sp)
  end.

(** Every kind is within its quota. *)
Definition within (es : list entry) (sp : Spool) : Prop :=
  forall k, bytes_of (of_kind k es) <= quota_for k sp.

Lemma keeps_fits k q all kept : keeps k q all kept -> bytes_of kept <= q.
Proof. unfold keeps. case_bool_decide; by intros (_ & ? & _). Qed.

Lemma bytes_sublist l l' : l `sublist_of` l' -> bytes_of l <= bytes_of l'.
Proof.
  induction 1; simpl; [lia|lia|]. pose proof (zlen_nonneg (content (e_file x))). unfold fsize. lia.
Qed.

Lemma sublist_filter_mono {A} (P : A -> Prop) `{forall x, Decision (P x)} (l l' : list A) :
  l `sublist_of` l' -> filter P l `sublist_of` filter P l'.
Proof.
  induction 1 as [|x l l' _ IH|x l l' _ IH]; [done| |]; rewrite !filter_cons; case_decide; try done;
    by constructor.
Qed.

Lemma within_sublist es es' sp sp' :
  within es sp -> es' `sublist_of` es -> quotas sp' = quotas sp -> within es' sp'.
Proof.
  intros H Hs Hq k. rewrite (quota_for_eq k sp sp' Hq). etrans; [|apply H]. apply bytes_sublist.
  unfold of_kind. by apply sublist_filter_mono.
Qed.

Lemma append_ok env io now k body sp sp' :
  append env io now k body sp = (true, sp') -> exists t, io = IoOk t.
Proof. destruct io; [eauto|done..]. Qed.

(** An I/O error loses the batch and nothing else. *)
Lemma append_failed env io now k body es sp sp' :
  rep es sp -> 0 <= next_seq sp < u64_max -> append env io now k body sp = (false, sp') ->
  rep es sp' /\ quotas sp' = quotas sp /\ next_seq sp' = next_seq sp + 1.
Proof.
  intros [Hd Ht Hs] Hn. unfold append, publish. rewrite Z.mod_small by (unfold u64_max in *; lia).
  assert (Hs' : Forall (fun e => e_seq e < next_seq sp + 1) es)
    by (eapply Forall_impl; [exact Hs|]; simpl; lia).
  destruct io; [done|..]; intros [= <-]; (split; [|done]); split; simpl; try done; by apply dir_rep_tmp.
Qed.

Lemma run_op_spec env o es sp :
  fs_ok env -> rep es sp -> within es sp -> quotas_ok (quotas sp) -> 1 <= next_seq sp < u64_max ->
  exists es', rep es' (run_op env sp o) /\ within es' (run_op env sp o) /\
    quotas (run_op env sp o) = quotas sp /\ 1 <= next_seq (run_op env sp o) <= next_seq sp + 1.
Proof.
  intros He Hr Hw Hq Hn. destruct o as [io now k body|limit sender|now unix_now max_age|k|now]; simpl.
  - destruct (append env io now k body sp) as [[] sp'] eqn:E; cbn [snd].
    + destruct (append_ok _ _ _ _ _ _ _ E) as [t ->]. destruct (append_spec env now k body t es sp)
        as (es' & sp1 & E' & R & Ho & Hk & F1 & F2 & _); [done..|by apply quota_for_ok|lia|].
      rewrite E in E'. injection E' as <-. exists es'. split; [done|]. split; [|split; [done|lia]].
      intros k'. rewrite (quota_for_eq k' sp sp' F1).
      destruct (decide (k' = k)) as [->|Hne]; [by eapply keeps_fits|]. rewrite Ho by done. apply Hw.
    + destruct (append_failed env io now k body es sp sp') as (R & F1 & F2); [done..|lia|done|].
      exists es. split; [done|]. split; [by eapply within_sublist|]. split; [done|lia].
  - destruct (drain_spec env sender limit es sp He Hr) as (m & r & sent & sp' & E & R & F1 & F2 & _).
    rewrite E. cbn [snd]. exists (drop m es). split; [done|]. rewrite F2. split; [|split; [done|lia]].
    eapply within_sublist; [done|apply sublist_drop|done].
  - destruct (prune_spec env now unix_now max_age es sp He Hr) as (sp' & E & R & F1 & F2).
    rewrite E. eexists. split; [exact R|]. cbn [snd]. rewrite F2. split; [|split; [done|lia]].
    eapply within_sublist; [done|apply sublist_filter|done].
  - exists es. split; [by apply rep_record_drop|]. split; [done|]. split; [done|simpl; lia].
  - pose proof Hr as [Hd _ Hs].
    destruct (reopen_spec env now (quotas sp) es (dir sp) (names (dir sp)) He Hq Hd) as (es' & R & Hk & Fq & Hsub & Hb);
      [|done|].
    { eapply Forall_impl; [exact Hs|]. simpl. lia. }
    exists es'. split; [done|]. split; [|split; [done|]].
    + intros k. by eapply keeps_fits.
    + assert (Hb' := Hb (next_seq sp) ltac:(lia) Hs). lia.
Qed.

Definition fresh (env : FsEnv) (now : Z) (q : SpoolQuotas) : Spool := open env now [] ∅ q.

Lemma fresh_rep env now q :
  fs_ok env -> quotas_ok q ->
  rep [] (fresh env now q) /\ quotas (fresh env now q) = q /\ next_seq (fresh env now q) = 1.
Proof.
  intros He Hq. destruct (reopen_spec env now q [] ∅ []) as (es' & R & _ & F & Hs & Hb); [done|done| |done|done|].
  { split; [constructor|constructor| |constructor]. intros n f _. rewrite lookup_empty. set_solver. }
  apply sublist_nil_r in Hs. subst es'. split; [done|]. split; [done|].
  specialize (Hb 1 ltac:(done) ltac:(constructor)). unfold fresh. lia.
Qed.

Lemma run_spec env ops : fs_ok env -> forall es sp,
  rep es sp -> within es sp -> quotas_ok (quotas sp) -> 1 <= next_seq sp ->
  next_seq sp + Z.of_nat (length ops) <= u64_max ->
  exists es', rep es' (foldl (run_op env) sp ops) /\ within es' (foldl (run_op env) sp ops) /\
    quotas (foldl (run_op env) sp ops) = quotas sp.
Proof.
  intros He. induction ops as [|o ops IH]; intros es sp Hr Hw Hq Hn Hl; [by exists es|].
  cbn [foldl length] in *. destruct (run_op_spec env o es sp) as (es1 & R & W & Q & N); [done..|lia|].
  destruct (IH es1 (run_op env sp o)) as (es' & R' & W' & Q'); [done..|by rewrite Q|lia|lia|].
  exists es'. split; [done|]. split; [done|]. by rewrite Q'.
Qed.

(** ** Theorems *)

(** C31: after any sequence of appends (failing or not), drains, age limits and restarts,
    the counted bytes of every kind are exactly the bytes of its files, within its quota.
    Operations follow each other: publishing a file and counting it are two steps of the
    source, and [append_drain_race] shows a drain between them. *)
Theorem spool_invariant env now q ops :
  fs_ok env -> quotas_ok q -> Z.of_nat (length ops) < u64_max ->
  let sp := foldl (run_op env) (fresh env now q) ops in
  exists es, dir_rep es (dir sp) /\
    forall k, totals sp k = bytes_of (of_kind k es) /\ totals sp k <= quota_for k sp /\ quotas sp = q.
Proof.
  intros He Hq Hl sp. subst sp. destruct (fresh_rep env now q He Hq) as (R & F & N).
  destruct (run_spec env ops He [] (fresh env now q)) as (es & R' & W & Q).
  - done.
  - intros k. apply quota_for_ok. by rewrite F.
  - by rewrite F.
  - rewrite N. lia.
  - rewrite N. lia.
  - exists es. split; [apply R'|]. intros k. rewrite (rep_totals _ _ R'). split; [done|]. split; [apply W|].
    by rewrite Q.
Qed.

(** appending a batch drops, among the batches of its kind only, exactly what the
    quota requires: the oldest ones for metrics and events, the newest ones for application
    logs; every loss is counted. *)
Theorem append_drops_least env now k body t es sp :
  fs_ok env -> rep es sp -> 0 <= quota_for k sp -> 0 <= next_seq sp < u64_max ->
  exists es' sp', append env (IoOk t) now k body sp = (true, sp') /\ rep es' sp' /\
    (forall k', k' <> k -> of_kind k' es' = of_kind k' es) /\
    keeps k (quota_for k sp) (of_kind k es ++ [new_entry k body t sp]) (of_kind k es') /\
    dropped sp' Quota k = dropped sp Quota k + (Z.of_nat (length (of_kind k es)) + 1
      - Z.of_nat (length (of_kind k es'))).
Proof.
  intros He Hr Hq Hn. destruct (append_spec env now k body t es sp) as (es' & sp' & E & R & Ho & Hk & _ & _ & Hd & _);
    [done..|]. by exists es', sp'.
Qed.

(** C38: a drain hands the stored batches to the sender in the order they were appended,
    each once; it deletes those that were delivered or refused for good and, at the first
    answer that says to try again, stops and keeps that batch and everything after it. *)
Theorem drain_in_order env sender limit es sp :
  fs_ok env -> rep es sp ->
  exists m r sent sp', drain env sender limit sp = (r, sent, sp') /\ rep (drop m es) sp' /\
    drain_post sender (take limit es) [] no_report m r sent.
Proof.
  intros He Hr. destruct (drain_spec env sender limit es sp He Hr) as (m & r & sent & sp' & E & R & _ & _ & P).
  by exists m, r, sent, sp'.
Qed.

(** a stored batch is read back as it was given, when its length fits 32 bits; a longer
    one is written with a truncated length and rejected when read. *)
Theorem batch_roundtrip k body :
  decode_batch (encode_batch k body) = if zlen body <? 2 ^ 32 then Ok (k, body) else Err LengthMismatch.
Proof.
  rewrite decode_encoded. pose proof (zlen_nonneg body). pose proof (Z.mod_pos_bound (zlen body) (2 ^ 32)).
  destruct (zlen body <? 2 ^ 32) eqn:E; bool_prop.
  - by rewrite Z.mod_small, Z.eqb_refl by lia.
  - by replace (zlen body =? _) with false by lia.
Qed.

(** [append] makes the batch visible before it counts it. When a drain delivers it in
    between, its bytes are counted although it is gone, and stay counted. *)
Theorem append_drain_race env now k body t sp limit :
  fs_ok env -> rep [] sp -> (0 < limit)%nat -> zlen body < 2 ^ 32 ->
  0 <= next_seq sp < u64_max -> 5 + zlen body <= quota_for k sp ->
  exists sp1 len, publish (IoOk t) k body sp = (sp1, Some len) /\
    let sp2 := (drain env (fun _ _ _ => None) limit sp1).2 in
    let sp3 := account env now k len sp2 in
    list_batch_files (dir sp3) = [] /\ totals sp3 k = 5 + zlen body.
Proof.
  intros He Hr Hl Hb Hn Hq. pose proof (zlen_nonneg body) as Hz.
  destruct (publish_spec k body t [] sp Hr Hn) as (len & E & Hr'). exists (publish (IoOk t) k body sp).1, len.
  assert (Hlen : len = 5 + zlen body).
  { unfold publish in E. injection E as _ <-. unfold encode_batch. rewrite zlen_cons, zlen_app, zlen_be_split. lia. }
  split; [by rewrite E|]. rewrite E in Hr'. rewrite E. cbn [fst] in *.
  match goal with |- context [drain _ _ _ ?s] => set (sp1 := s) in * end.
  assert (Hd : dir_rep [new_entry k body t sp] (dir sp1)) by apply (rep_dir _ _ Hr').
  assert (Hk : totals sp1 k = 0) by (simpl; by rewrite (rep_totals _ _ Hr)).
  assert (Hdr : (drain env (fun _ _ _ => None) limit sp1).2
    = remove_and_untrack env (ename (new_entry k body t sp)) (Some k) sp1).
  { unfold drain. rewrite (ok_listable _ He), (rep_listing _ _ Hd). cbn [negb]. destruct limit; [lia|].
    change (ename <$> [new_entry k body t sp]) with [ename (new_entry k body t sp)].
    cbn [take]. rewrite firstn_nil. cbn [drain_loop]. unfold read_batch.
    rewrite (rep_lookup _ _ (new_entry k body t sp) Hd) by (by left). rewrite (ok_readable _ He).
    simpl (content _). rewrite decode_encoded, Z.mod_small, Z.eqb_refl by lia. done. }
  rewrite Hdr. unfold remove_and_untrack, file_len.
  rewrite (remove_file_ok _ _ (e_file (new_entry k body t sp)) _ He) by (apply (rep_lookup _ _ _ Hd); by left).
  unfold account, enforce_cap. cbn [totals with_total]. unfold upd. rewrite !decide_True by done.
  rewrite (rep_lookup _ _ (new_entry k body t sp) Hd) by (by left). rewrite Hk. cbn [from_option].
  pose proof (zlen_nonneg (encode_batch k body)).
  replace (sat_sub 0 _) with 0 by (unfold sat_sub, fsize; simpl; lia). rewrite Z.add_0_l.
  rewrite (quota_for_eq k sp) by done. replace (len <=? quota_for k sp) with true by lia.
  split; [|simpl; unfold upd; by rewrite decide_True, Hlen]. cbn [dir with_total with_dir].
  pose proof (dir_rep_remove _ _ _ Hd ltac:(by left)) as Hd'. rewrite without_head in Hd' by (apply NoDup_singleton).
  apply rep_listing in Hd'. apply Permutation_nil_r. by rewrite <- sort_Permutation, Hd'.
Qed.

(** ** Witnesses *)

Definition sample_env : FsEnv :=
  {| listable := true; readable := fun _ => true; removable := fun _ => true; renamable := fun _ => true |}.
Definition sample_quotas : SpoolQuotas := from_spool_max_bytes 64 None None None.
Definition sample_spool : Spool := fresh sample_env 0 sample_quotas.

Lemma sample_env_ok : fs_ok sample_env.
Proof. done. Qed.
Lemma sample_rep : rep [] sample_spool.
Proof. by apply fresh_rep. Qed.

Lemma spool_invariant_witness :
  exists es, dir_rep es (dir (foldl (run_op sample_env) sample_spool
    [OpAppend (IoOk None) 0 Logs (lit "abcdef"); OpRestart 1; OpAppend (IoOk None) 2 Logs (lit "ghijkl")])) /\
    forall k, totals (foldl (run_op sample_env) sample_spool
      [OpAppend (IoOk None) 0 Logs (lit "abcdef"); OpRestart 1; OpAppend (IoOk None) 2 Logs (lit "ghijkl")]) k
      = bytes_of (of_kind k es).
Proof.
  destruct (spool_invariant sample_env 0 sample_quotas
    [OpAppend (IoOk None) 0 Logs (lit "abcdef"); OpRestart 1; OpAppend (IoOk None) 2 Logs (lit "ghijkl")]
    sample_env_ok) as (es & Hd & Hk); [done|done|].
  exists es. split; [exact Hd|]. intros k. apply (Hk k).
Defined.

Lemma append_drops_least_witness :
  exists es' sp', append sample_env (IoOk None) 0 Metrics (lit "abc") sample_spool = (true, sp') /\ rep es' sp'.
Proof.
  destruct (append_drops_least sample_env 0 Metrics (lit "abc") None [] sample_spool sample_env_ok sample_rep)
    as (es' & sp' & E & R & _); [done|done|]. by exists es', sp'.
Defined.

Definition sample_entry : entry := new_entry Logs (lit "abc") None sample_spool.
Definition sample_spool1 : Spool := (append sample_env (IoOk None) 0 Logs (lit "abc") sample_spool).2.

Lemma sample_rep1 : rep [sample_entry] sample_spool1.
Proof.
  destruct (publish_spec Logs (lit "abc") None [] sample_spool sample_rep ltac:(done)) as (len & E & Hr).
  assert (El : len = 8) by (apply (f_equal snd) in E; by injection E as <-). subst len.
  unfold sample_spool1, append. rewrite E in *. cbn [fst] in Hr. exact Hr.
Qed.

Lemma drain_in_order_witness :
  exists m r sent sp', drain sample_env (fun _ _ _ => None) 10 sample_spool1 = (r, sent, sp') /\
    rep (drop m [sample_entry]) sp'.
Proof.
  destruct (drain_in_order sample_env (fun _ _ _ => None) 10 [sample_entry] sample_spool1 sample_env_ok sample_rep1)
    as (m & r & sent & sp' & E & R & _). exists m, r, sent, sp'. split; [exact E|exact R].
Defined.

Lemma append_drain_race_witness :
  exists sp1 len, publish (IoOk None) Logs (lit "abc") sample_spool = (sp1, Some len) /\
    totals (account sample_env 0 Logs len (drain sample_env (fun _ _ _ => None) 1 sp1).2) Logs = 8.
Proof.
  destruct (append_drain_race sample_env 0 Logs (lit "abc") None sample_spool 1 sample_env_ok sample_rep)
    as (sp1 & len & E & _ & Ht); [lia|done|done|done|]. exists sp1, len. split; [exact E|exact Ht].
Defined.
