(* ===== verification/Checkpoint.v ===== *)
(** * Log checkpoints

    [aic-server/src/otlp_exporter/logs/checkpoint.rs]: the tracker that lets a checkpoint
    advance over a gap-free prefix of finished batches only, and the store of one cursor per
    source in a directory. *)

From S2P Require Import Prelude RustStr.

(** ** The tracker *)

Record AckTracker := {
  next_seq : Z;
  next_expected : Z;
  completed : gset Z;
}.

Definition new : AckTracker := {| next_seq := 1; next_expected := 1; completed := ∅ |}.

Definition issue (t : AckTracker) : Z * AckTracker :=
  (next_seq t, {| next_seq := next_seq t + 1; next_expected := next_expected t; completed := completed t |}).

(** [while completed.remove(&next_expected)]; every turn removes an element, so one more
    turn than there are elements is enough. *)
Fixpoint absorb (fuel : nat) (expected : Z) (s : gset Z) : Z * gset Z :=
  match fuel with
  | O => (expected, s)
  | S fuel =>
      if bool_decide (expected ∈ s) then absorb fuel (expected + 1) (s ∖ {[expected]})
      else (expected, s)
  end.

Definition complete (seq : Z) (t : AckTracker) : AckTracker :=
  if seq <? next_expected t then t
  else
    let s := {[seq]} ∪ completed t in
    let '(e, s) := absorb (S (size s)) (next_expected t) s in
    {| next_seq := next_seq t; next_expected := e; completed := s |}.

Definition committed (t : AckTracker) : Z := next_expected t - 1.

(** ** The store *)

Definition key_char (c : byte) : bool :=
  is_ascii_alphanumeric c || bool_decide (c = x2d) || bool_decide (c = x5f).

Definition map_char (ch : str) : byte :=
  match ch with
  | [c] => if key_char c then c else x5f
  | _ => x5f
  end.

Definition sanitize_key (key : str) : str :=
  let mapped := map_char <$> chars key in
  let trimmed := trim_matches (fun c => bool_decide (c = x5f)) mapped in
  let truncated := take 128 trimmed in
  if bool_decide (truncated = []) then lit "key" else truncated.

Definition CHECKPOINT_EXT : str := lit "checkpoint".
Definition TMP_EXT : str := lit "tmp".
Definition file_name (ext key : str) : str := sanitize_key key ++ x2e :: ext.

(** The files of the directory and their contents. *)
Abbreviation CheckpointStore := (gmap str str).

Definition load (key : str) (st : CheckpointStore) : option str :=
  raw ← st !! file_name CHECKPOINT_EXT key;
  if utf8_valid raw then
    let trimmed := trim raw in
    if bool_decide (trimmed = []) then None else Some trimmed
  else None.

(** How far [save] gets; the partial temporary file stays. *)
Inductive save_io := SaveOk | SaveCreateFails | SaveWriteFails (partial : str).

Definition save (io : save_io) (key value : str) (st : CheckpointStore) : bool * CheckpointStore :=
  match io with
  | SaveOk => (true, <[file_name CHECKPOINT_EXT key := value]> (delete (file_name TMP_EXT key) st))
  | SaveCreateFails => (false, st)
  | SaveWriteFails p => (false, <[file_name TMP_EXT key := p]> st)
  end.

(** ** The tracker is exact *)

Lemma absorb_spec fuel : forall e s,
  (size s < fuel)%nat ->
  exists e', e <= e' /\ (forall i, e <= i < e' -> i ∈ s) /\ e' ∉ s /\
    absorb fuel e s = (e', filter (fun i => ~ (e <= i < e')) s).
Proof.
  induction fuel as [|fuel IH]; intros e s Hs; [lia|]. cbn [absorb]. case_bool_decide as He.
  - destruct (IH (e + 1) (s ∖ {[e]})) as (e' & H1 & H2 & H3 & H4).
    { assert (Hsub : {[e]} ⊆ s) by set_solver. pose proof (subseteq_size _ _ Hsub) as Hle.
      rewrite size_difference by done. rewrite size_singleton in *. lia. }
    exists e'. split; [lia|]. split.
    { intros i Hi. destruct (decide (i = e)) as [->|]; [done|]. specialize (H2 i). set_solver by lia. }
    split; [intros Hin; apply H3; set_solver by lia|]. rewrite H4. f_equal. apply set_eq. intros i.
    rewrite !elem_of_filter, elem_of_difference, elem_of_singleton. split; [intros (? & ? & ?)|intros (? & ?)];
      (split; [lia|]); [done|]. split; [done|lia].
  - exists e. split; [lia|]. split; [lia|]. split; [done|]. f_equal. apply set_eq. intros i.
    rewrite elem_of_filter. split; [intros; split; [lia|done]|tauto].
Qed.

(** The tracker after the batches [done] were reported finished. *)
Record tracks (reported : gset Z) (t : AckTracker) : Prop := {
  tr_low : 1 <= next_expected t;
  tr_prefix : forall i, 1 <= i < next_expected t -> i ∈ reported;
  tr_gap : next_expected t ∉ reported;
  tr_rest : forall i, next_expected t <= i -> i ∈ completed t <-> i ∈ reported;
}.

Lemma new_tracks : tracks ∅ new.
Proof. split; simpl; [done|lia|set_solver|set_solver]. Qed.

Lemma issue_tracks r t : tracks r t -> tracks r (issue t).2.
Proof. intros []; by split. Qed.

Lemma complete_tracks r t seq : 1 <= seq -> tracks r t -> tracks ({[seq]} ∪ r) (complete seq t).
Proof.
  intros Hseq [H1 H2 H3 H4]. unfold complete. destruct (seq <? next_expected t) eqn:E; bool_prop.
  { split; [done|set_solver| |].
    - intros [Hx%elem_of_singleton|?]%elem_of_union; [lia|done].
    - intros i Hi. rewrite H4 by done. split; [set_solver|].
      intros [Hx%elem_of_singleton|?]%elem_of_union; [lia|done]. }
  destruct (absorb_spec (S (size ({[seq]} ∪ completed t))) (next_expected t) ({[seq]} ∪ completed t))
    as (e' & A1 & A2 & A3 & A4); [lia|].
  rewrite A4. split; simpl.
  - lia.
  - intros i Hi. destruct (decide (i < next_expected t)); [set_solver by lia|].
    specialize (A2 i ltac:(lia)). specialize (H4 i ltac:(lia)). set_solver.
  - specialize (H4 e' A1). set_solver.
  - intros i Hi. specialize (H4 i ltac:(lia)). rewrite elem_of_filter. set_solver by lia.
Qed.

Inductive ack_op := OpIssue | OpComplete (seq : Z).

Definition ack_step (t : AckTracker) (o : ack_op) : AckTracker :=
  match o with
  | OpIssue => (issue t).2
  | OpComplete seq => complete seq t
  end.

Definition valid_op (o : ack_op) : Prop := match o with OpIssue => True | OpComplete seq => 1 <= seq end.

Lemma run_tracks ops : forall r t, Forall valid_op ops -> tracks r t ->
  exists r', tracks r' (foldl ack_step t ops) /\ forall i, i ∈ r' <-> i ∈ r \/ OpComplete i ∈ ops.
Proof.
  induction ops as [|o ops IH]; intros r t Hv Ht; [exists r; set_solver|]. inversion_clear Hv as [|? ? Ho Hv'].
  cbn [foldl]. destruct o as [|seq]; cbn [ack_step].
  - destruct (IH r _ Hv' (issue_tracks _ _ Ht)) as (r' & H & E). exists r'. split; [done|].
    intros i. rewrite E. set_solver.
  - destruct (IH _ _ Hv' (complete_tracks _ _ seq Ho Ht)) as (r' & H & E). exists r'. split; [done|].
    intros i. rewrite E, elem_of_union, elem_of_singleton, elem_of_cons. split; [|intros [?|[[= ?]|?]]; auto].
    intros [[->|?]|?]; auto.
Qed.

(** ** The store: file names *)

Lemma drop_while_Forall (P : byte -> Prop) p s : Forall P s -> Forall P (drop_while p s).
Proof. induction 1 as [|b s Hb Hs IH]; simpl; [constructor|]. case_match; [done|by constructor]. Qed.

Lemma trim_matches_Forall (P : byte -> Prop) p s : Forall P s -> Forall P (trim_matches p s).
Proof.
  intros H. unfold trim_matches. apply Forall_reverse, drop_while_Forall, Forall_reverse. by apply drop_while_Forall.
Qed.

Lemma sanitize_key_safe key :
  Forall (fun c => key_char c = true) (sanitize_key key) /\ (1 <= length (sanitize_key key) <= 128)%nat.
Proof.
  unfold sanitize_key. case_bool_decide as E; [split; [by repeat constructor|simpl; lia]|]. split.
  - apply Forall_take, trim_matches_Forall, Forall_fmap, Forall_forall. intros ch _. simpl.
    unfold map_char. destruct ch as [|c [|]]; [done| |done]. by destruct (key_char c) eqn:Hc.
  - match goal with |- (_ <= length ?l <= _)%nat => assert (length l <> 0%nat) by (by intros ?%nil_length_inv) end.
    rewrite length_take in *. lia.
Qed.

Lemma sanitize_key_no_dot key : x2e ∉ sanitize_key key.
Proof. eapply not_elem_of_Forall; [apply sanitize_key_safe|done]. Qed.

Lemma app_dot_inj (c : byte) a b x y : c ∉ a -> c ∉ b -> a ++ c :: x = b ++ c :: y -> a = b /\ x = y.
Proof.
  intros Ha Hb E. pose proof (find_byte_app c a x Ha) as F. rewrite E, find_byte_app in F by done.
  injection F as F. apply app_inj_1 in E as [-> E]; [|done]. by injection E as ->.
Qed.

Lemma file_name_inj ext ext' k k' :
  file_name ext k = file_name ext' k' -> sanitize_key k = sanitize_key k' /\ ext = ext'.
Proof. apply app_dot_inj; apply sanitize_key_no_dot. Qed.

(** ** Theorems *)

(** after any interleaving of issued and finished batches the tracker has committed
    exactly the longest prefix of finished ones, whatever the order of completion. *)
Theorem committed_exact ops n :
  Forall valid_op ops ->
  committed (foldl ack_step new ops) = n <->
  0 <= n /\ (forall i, 1 <= i <= n -> OpComplete i ∈ ops) /\ OpComplete (n + 1) ∉ ops.
Proof.
  intros Hv. destruct (run_tracks ops ∅ new Hv new_tracks) as (r & [H1 H2 H3 _] & E). unfold committed.
  assert (E' : forall i, i ∈ r <-> OpComplete i ∈ ops) by (intros i; rewrite E; set_solver).
  set (e := next_expected (foldl ack_step new ops)) in *. split.
  - intros <-. split; [lia|]. split; [intros i Hi; apply E', H2; lia|].
    rewrite <- E'. by replace (e - 1 + 1) with e by lia.
  - intros (Hn & Hp & Hg). destruct (Z.lt_total (e - 1) n) as [Hlt|[?|Hlt]]; [|done|].
    + exfalso. apply H3, E', Hp. lia.
    + exfalso. apply Hg, E', H2. lia.
Qed.

(** a completed save is what a later load of the same file sees, trimmed; a failed save
    changes no load; other files are untouched. *)
Theorem save_atomic io k v k' st :
  utf8_valid v = true ->
  load k' (save io k v st).2 =
    match io with
    | SaveOk =>
        if decide (sanitize_key k' = sanitize_key k) then
          if bool_decide (trim v = []) then None else Some (trim v)
        else load k' st
    | _ => load k' st
    end.
Proof.
  intros Hv. unfold load.
  assert (Ht : forall f : str, st !! file_name CHECKPOINT_EXT k' = delete (file_name TMP_EXT k) st !! file_name CHECKPOINT_EXT k'
    /\ <[file_name TMP_EXT k := f]> st !! file_name CHECKPOINT_EXT k' = st !! file_name CHECKPOINT_EXT k').
  { intros f. rewrite lookup_delete_ne, lookup_insert_ne by (by intros [_ ?]%file_name_inj). done. }
  destruct io as [| |p]; cbn [save snd]; [|done|by destruct (Ht p) as [_ ->]].
  case_decide as E.
  - replace (file_name CHECKPOINT_EXT k') with (file_name CHECKPOINT_EXT k) by (unfold file_name; by rewrite E).
    rewrite lookup_insert_eq. simpl. by rewrite Hv.
  - rewrite lookup_insert_ne by (intros [? _]%file_name_inj; congruence). by destruct (Ht []) as [<- _].
Qed.

(** distinct keys can share a file: the cursor saved for one log file is loaded for
    another whose label differs in a replaced character only. *)
Theorem checkpoint_collision v st :
  utf8_valid v = true -> trim v <> [] ->
  load (lit "file/app.log") (save SaveOk (lit "file/app_log") v st).2 = Some (trim v).
Proof.
  intros Hv Ht. unfold load. cbn [save snd].
  replace (file_name CHECKPOINT_EXT (lit "file/app.log")) with (file_name CHECKPOINT_EXT (lit "file/app_log")) by done.
  rewrite lookup_insert_eq. simpl. by rewrite Hv, bool_decide_eq_false_2.
Qed.

(** ** Witnesses *)

Lemma committed_exact_witness :
  committed (foldl ack_step new [OpIssue; OpIssue; OpIssue; OpComplete 3; OpComplete 1]) = 1.
Proof.
  apply (committed_exact [OpIssue; OpIssue; OpIssue; OpComplete 3; OpComplete 1] 1).
  - repeat constructor; simpl; lia.
  - split; [lia|]. split.
    + intros i Hi. replace i with 1 by lia. set_solver.
    + intros H. repeat (apply elem_of_cons in H as [H|H]; [done|]). by apply elem_of_nil in H.
Defined.

Lemma save_atomic_witness :
  load (lit "journald") (save SaveOk (lit "journald") (lit "s=1") ∅).2 = Some (lit "s=1").
Proof. rewrite (save_atomic SaveOk (lit "journald") (lit "s=1") (lit "journald") ∅); vm_compute; reflexivity. Defined.

Lemma checkpoint_collision_witness :
  load (lit "file/app.log") (save SaveOk (lit "file/app_log") (lit "9:42") ∅).2 = Some (trim (lit "9:42")).
Proof. apply (checkpoint_collision (lit "9:42") ∅); [reflexivity|done]. Defined.
