(* ===== verification/Float64.v ===== *)
(** * Double-precision numbers

    The [f64] of the program as the Standard Library's executable model of binary64
    ([SpecFloat]), with the conversions and operations the code uses, and exactness on
    integers: a whole number below 2^53 is represented exactly, and counting down by one
    from it gives every smaller number exactly. *)

From Stdlib Require Import Floats.SpecFloat.
From S2P Require Import Prelude.

Definition f64 : Type := spec_float.

Definition of_Z (n : Z) : f64 := binary_normalize 53 1024 n 0 false.
Definition f64_zero : f64 := S754_zero false.
Definition f64_one : f64 := of_Z 1.

Definition f64_add : f64 -> f64 -> f64 := SFadd 53 1024.
Definition f64_sub : f64 -> f64 -> f64 := SFsub 53 1024.
Definition f64_mul : f64 -> f64 -> f64 := SFmul 53 1024.
Definition f64_div : f64 -> f64 -> f64 := SFdiv 53 1024.
Definition f64_lt : f64 -> f64 -> bool := SFltb.
Definition f64_le : f64 -> f64 -> bool := SFleb.

Definition is_nan (x : f64) : bool := match x with S754_nan => true | _ => false end.

(** [f64::min]: a number is preferred to a NaN. *)
Definition f64_min (x y : f64) : f64 :=
  if is_nan x then y else if is_nan y then x else if f64_lt y x then y else x.

Definition NANOS_PER_SEC : Z := 1000000000.

(** [Duration::as_secs_f64] of a number of nanoseconds. *)
Definition as_secs_f64 (d : Z) : f64 :=
  f64_add (of_Z (d / NANOS_PER_SEC)) (f64_div (of_Z (d mod NANOS_PER_SEC)) (of_Z NANOS_PER_SEC)).

(** ** Integers are exact *)

Lemma digits2_bounds p : 2 ^ (Z.pos (digits2_pos p) - 1) <= Z.pos p < 2 ^ Z.pos (digits2_pos p).
Proof.
  induction p as [p IH|p IH|]; cbn [digits2_pos]; [| |done]; rewrite Pos2Z.inj_succ;
    replace (Z.succ (Z.pos (digits2_pos p)) - 1) with (Z.succ (Z.pos (digits2_pos p) - 1)) by lia;
    rewrite !Z.pow_succ_r by lia; lia.
Qed.

Lemma digits2_unique p d : 2 ^ (d - 1) <= Z.pos p < 2 ^ d -> Z.pos (digits2_pos p) = d.
Proof.
  intros [H1 H2]. destruct (digits2_bounds p) as [H3 H4].
  assert (d - 1 < Z.pos (digits2_pos p)) by (apply (Z.pow_lt_mono_r_iff 2); lia).
  enough (Z.pos (digits2_pos p) - 1 < d) by lia.
  apply (Z.pow_lt_mono_r_iff 2); [lia| |lia]. destruct (Z.le_gt_cases 0 d); [done|].
  rewrite (Z.pow_neg_r 2 d) in H2 by done. lia.
Qed.

Lemma iter_xO p d : Z.pos (Pos.iter xO p d) = Z.pos p * 2 ^ Z.pos d.
Proof.
  induction d as [|d IH] using Pos.peano_ind; [simpl; lia|].
  rewrite Pos.iter_succ, Pos2Z.inj_xO, IH, Pos2Z.inj_succ, Z.pow_succ_r by lia. lia.
Qed.

(** Dropping zero bits loses nothing. *)
Lemma shr_exact (n : positive) : forall m, SpecFloat.iter_pos shr_1 n (Build_shr_record (m * 2 ^ Z.pos n) false false) =
  Build_shr_record m false false.
Proof.
  assert (H1 : forall m, shr_1 (Build_shr_record (m * 2) false false) = Build_shr_record m false false).
  { intros m. destruct m as [|p|p]; [done|..]; cbn [shr_1 orb]; rewrite Z.mul_comm; done. }
  induction n as [n IH|n IH|]; intros m; cbn [SpecFloat.iter_pos]; [| |apply H1].
  - replace (m * 2 ^ Z.pos n~1) with (m * 2 ^ Z.pos n * 2 ^ Z.pos n * 2).
    2: { rewrite (Pos2Z.inj_xI n), Z.add_1_r, Z.pow_succ_r, Z.mul_comm, (Z.mul_comm 2 (Z.pos n)) by lia.
         rewrite Z.pow_mul_r by lia. change (2 ^ Z.pos n) with (2 ^ Z.pos n). rewrite Z.pow_2_r. lia. }
    by rewrite H1, !IH.
  - replace (m * 2 ^ Z.pos n~0) with (m * 2 ^ Z.pos n * 2 ^ Z.pos n).
    2: { rewrite (Pos2Z.inj_xO n), (Z.mul_comm 2), Z.pow_mul_r by lia. rewrite Z.pow_2_r. lia. }
    by rewrite !IH.
Qed.

Lemma digits2_log2 p : Z.pos (digits2_pos p) = Z.log2 (Z.pos p) + 1.
Proof. apply digits2_unique. pose proof (Z.log2_spec (Z.pos p)). rewrite Z.add_simpl_r, Z.add_1_r. lia. Qed.

Lemma zdigits2_log2 m : 0 < m -> Zdigits2 m = Z.log2 m + 1.
Proof. destruct m; try lia. intros _. apply digits2_log2. Qed.

Lemma log2_mul_pow2_le m j : 0 < m -> 0 <= j -> Z.log2 (m * 2 ^ j) = Z.log2 m + j.
Proof. intros. rewrite Z.log2_mul_pow2 by done. lia. Qed.

Lemma fexp_normal k : -1000 <= k -> fexp 53 1024 k = k - 53.
Proof. unfold fexp, emin. change Z.sub with Z.sub. change Z.max with Z.max. intros. lia. Qed.

Lemma shr_fexp_exact m j e :
  0 < m -> 0 <= j -> Z.log2 m = 52 -> -1000 <= e + j ->
  shr_fexp 53 1024 (m * 2 ^ j) e loc_Exact = (Build_shr_record m false false, e + j).
Proof.
  intros Hm Hj Hl He. assert (0 < 2 ^ j) by lia. unfold shr_fexp.
  rewrite zdigits2_log2, log2_mul_pow2_le, Hl, fexp_normal by nia.
  replace (52 + j + 1 + e - 53 - e) with j by lia. cbn [shr_record_of_loc]. unfold shr.
  destruct j as [|j|]; [|by rewrite shr_exact|done]. by rewrite Z.mul_1_r, Z.add_0_r.
Qed.

Lemma binary_round_aux_exact m j e :
  0 <= j -> Z.log2 (Z.pos m) = 52 -> -1000 <= e + j <= 971 ->
  binary_round_aux 53 1024 false (Z.pos m * 2 ^ j) e loc_Exact = S754_finite false m (e + j).
Proof.
  intros Hj Hl He. unfold binary_round_aux. rewrite shr_fexp_exact by (done || lia). cbn [shr_m loc_of_shr_record round_nearest_even].
  rewrite <- (Z.mul_1_r (Z.pos m)). change 1 with (2 ^ 0). rewrite shr_fexp_exact by (done || lia). cbn [shr_m].
  rewrite Z.add_0_r. change (1024 - 53) with 971. by destruct (Z.leb_spec (e + j) 971); [|lia].
Qed.

(** The 53 bits of a whole number. *)
Definition whole (n : Z) : f64 :=
  S754_finite false (Z.to_pos (n * 2 ^ (52 - Z.log2 n))) (Z.log2 n - 52).

Lemma log2_small n : 0 < n < 2 ^ 53 -> 0 <= Z.log2 n <= 52.
Proof. intros. assert (Z.log2 n < 53) by (apply Z.log2_lt_pow2; lia). pose proof (Z.log2_nonneg n). lia. Qed.

Lemma normalize_exact n s :
  0 < n < 2 ^ 53 -> 0 <= s <= 52 -> binary_normalize 53 1024 (n * 2 ^ s) (- s) false = whole n.
Proof.
  intros Hn Hs. pose proof (log2_small n Hn) as Hl. unfold whole.
  set (m := Z.to_pos (n * 2 ^ (52 - Z.log2 n))).
  assert (Hm : Z.pos m = n * 2 ^ (52 - Z.log2 n)) by (apply Z2Pos.id; nia).
  assert (Hlm : Z.log2 (Z.pos m) = 52) by (rewrite Hm, log2_mul_pow2_le; lia).
  destruct (n * 2 ^ s) as [|p|p] eqn:Ep; [nia| |nia]. cbn [binary_normalize]. unfold binary_round.
  assert (Hlp : Z.log2 (Z.pos p) = Z.log2 n + s) by (rewrite <- Ep, log2_mul_pow2_le; lia).
  rewrite digits2_log2, Hlp, fexp_normal by lia. unfold shl_align.
  replace (Z.log2 n + s + 1 + - s - 53 - - s) with (Z.log2 n + s - 52) by lia.
  replace (Z.log2 n + s + 1 + - s - 53) with (Z.log2 n - 52) by lia.
  destruct (Z.log2 n + s - 52) as [|j|j] eqn:Ej.
  1, 2: replace (Z.pos p) with (Z.pos m * 2 ^ (Z.log2 n + s - 52)).
  2, 4: rewrite <- Ep, Hm, <- Z.mul_assoc, <- Z.pow_add_r by lia; do 2 f_equal; lia.
  1, 2: rewrite binary_round_aux_exact by (done || lia); f_equal; lia.
  rewrite iter_xO, <- Ep, <- Z.mul_assoc, <- Z.pow_add_r by lia.
  replace (s + Z.pos j) with (52 - Z.log2 n) by lia. rewrite <- Hm.
  rewrite <- (Z.mul_1_r (Z.pos m)). change 1 with (2 ^ 0). rewrite binary_round_aux_exact by (done || lia).
  f_equal. lia.
Qed.

Lemma of_Z_whole n : 0 < n < 2 ^ 53 -> of_Z n = whole n.
Proof. intros Hn. unfold of_Z. rewrite <- (normalize_exact n 0 Hn) by lia. by rewrite Z.mul_1_r. Qed.

Lemma shl_align_down m e d : 0 <= d -> fst (shl_align m (d + e) e) = Z.to_pos (Z.pos m * 2 ^ d).
Proof.
  intros Hd. unfold shl_align. replace (e - (d + e)) with (- d) by lia. destruct d as [|d|d]; [|..|done].
  - cbn. by rewrite Z.mul_1_r.
  - cbn [Z.opp fst]. by rewrite <- iter_xO.
Qed.

(** Counting down is exact. *)
Lemma of_Z_pred n : 0 < n < 2 ^ 53 -> f64_sub (of_Z n) f64_one = of_Z (n - 1).
Proof.
  intros Hn. pose proof (log2_small n Hn) as Hl.
  assert (H1 : f64_one = S754_finite false (Z.to_pos (2 ^ 52)) (- 52)) by reflexivity.
  rewrite H1, (of_Z_whole n Hn). unfold whole, f64_sub, SFsub. cbv zeta.
  rewrite Z.min_r by lia. replace (Z.log2 n - 52) with (Z.log2 n + - 52) by lia.
  rewrite shl_align_down by lia. pose proof (shl_align_down (Z.to_pos (2 ^ 52)) (- 52) 0 ltac:(lia)) as Ha.
  rewrite Z.add_0_l in Ha. rewrite Ha. cbn [cond_Zopp].
  assert (Hp : 0 < n * 2 ^ (52 - Z.log2 n)) by nia.
  rewrite (Z2Pos.id (n * 2 ^ (52 - Z.log2 n))), <- Z.mul_assoc, <- Z.pow_add_r by lia.
  replace (52 - Z.log2 n + Z.log2 n) with 52 by lia. rewrite Z2Pos.id by lia.
  rewrite !Z2Pos.id by lia. replace (n * 2 ^ 52 - 2 ^ 52 * 2 ^ 0) with ((n - 1) * 2 ^ 52) by lia.
  destruct (decide (n = 1)) as [->|]; [done|]. rewrite (of_Z_whole (n - 1)) by lia.
  apply (normalize_exact (n - 1) 52); lia.
Qed.

Lemma one_le_of_Z n : 0 < n < 2 ^ 53 -> f64_le f64_one (of_Z n) = true.
Proof.
  intros Hn. pose proof (log2_small n Hn) as Hl. rewrite (of_Z_whole n Hn).
  assert (H1 : f64_one = S754_finite false (Z.to_pos (2 ^ 52)) (- 52)) by reflexivity.
  rewrite H1. unfold f64_le, SFleb, whole. cbn [SFcompare].
  destruct (Z.compare_spec (- 52) (Z.log2 n - 52)) as [E|E|E]; [|done|lia].
  replace (Z.log2 n) with 0 by lia. rewrite Z.sub_0_r.
  change (Pos.compare_cont Eq (Z.to_pos (2 ^ 52)) (Z.to_pos (n * 2 ^ 52)))
    with (Pos.compare (Z.to_pos (2 ^ 52)) (Z.to_pos (n * 2 ^ 52))).
  destruct (Pos.compare_spec (Z.to_pos (2 ^ 52)) (Z.to_pos (n * 2 ^ 52))); try done. lia.
Qed.

Lemma one_le_zero : f64_le f64_one (of_Z 0) = false.
Proof. done. Qed.

(** The number [x / 2]. *)
Definition halves (x : Z) : f64 := S754_finite false (Z.to_pos (x * 2 ^ (52 - Z.log2 x))) (Z.log2 x - 53).

Lemma halves_whole n : 0 < n < 2 ^ 52 -> of_Z n = halves (2 * n).
Proof.
  intros Hn. rewrite of_Z_whole by lia. unfold whole, halves. assert (Z.log2 n < 52) by (apply Z.log2_lt_pow2; lia).
  pose proof (Z.log2_nonneg n). rewrite Z.log2_double by lia. replace (52 - Z.log2 n) with (Z.succ (52 - Z.succ (Z.log2 n))) by lia.
  rewrite Z.pow_succ_r by lia. f_equal; [f_equal; ring|lia].
Qed.

Lemma halves_ratio n : 0 < n < 2 ^ 51 -> f64_mul (of_Z n) (f64_div (of_Z 3) (of_Z 2)) = halves (3 * n).
Proof.
  intros Hn. assert (f64_div (of_Z 3) (of_Z 2) = S754_finite false (Z.to_pos (3 * 2 ^ 51)) (- 52)) as -> by reflexivity.
  rewrite of_Z_whole by lia. pose proof (log2_small n ltac:(lia)) as Hl. pose proof (log2_small (3 * n) ltac:(lia)) as H3.
  unfold f64_mul, whole, SFmul. cbn [xorb]. set (x := 3 * n) in *.
  assert (Z.log2 n <= Z.log2 x) as Hle by (apply Z.log2_le_mono; lia). assert (Z.log2 n < 51) by (apply Z.log2_lt_pow2; lia).
  rewrite Pos2Z.inj_mul, !Z2Pos.id by (nia || lia).
  assert (0 < x * 2 ^ (52 - Z.log2 x)) as Hp by (apply Z.mul_pos_pos; [lia|apply Z.pow_pos_nonneg; lia]).
  replace (n * 2 ^ (52 - Z.log2 n) * (3 * 2 ^ 51)) with (Z.pos (Z.to_pos (x * 2 ^ (52 - Z.log2 x))) * 2 ^ (51 - Z.log2 n + Z.log2 x)).
  - rewrite binary_round_aux_exact; [unfold halves; f_equal; lia|lia| |lia]. rewrite Z2Pos.id by done. rewrite log2_mul_pow2_le; lia.
  - rewrite Z2Pos.id by done. rewrite <- Z.mul_assoc, <- Z.pow_add_r by lia. replace (52 - Z.log2 x + (51 - Z.log2 n + Z.log2 x)) with (52 - Z.log2 n + 51) by lia.
    rewrite Z.pow_add_r by lia. unfold x. ring.
Qed.

Lemma halves_le x y : 0 < x < 2 ^ 53 -> 0 < y < 2 ^ 53 -> f64_le (halves x) (halves y) = (x <=? y).
Proof.
  intros Hx Hy. pose proof (log2_small x Hx) as Lx. pose proof (log2_small y Hy) as Ly. unfold f64_le, SFleb, halves. cbn [SFcompare].
  destruct (Z.compare_spec (Z.log2 x - 53) (Z.log2 y - 53)) as [E|E|E].
  - replace (Z.log2 y) with (Z.log2 x) by lia. change (Pos.compare_cont Eq ?a ?b) with (Pos.compare a b).
    assert (0 < 2 ^ (52 - Z.log2 x)) by (apply Z.pow_pos_nonneg; lia).
    destruct (Pos.compare_spec (Z.to_pos (x * 2 ^ (52 - Z.log2 x))) (Z.to_pos (y * 2 ^ (52 - Z.log2 x)))) as [F|F|F]; symmetry; [apply Z.leb_le|apply Z.leb_le|apply Z.leb_gt]; nia.
  - symmetry. apply Z.leb_le. apply Z.lt_le_incl, Z.log2_lt_cancel. lia.
  - symmetry. apply Z.leb_gt. apply Z.log2_lt_cancel. lia.
Qed.

Example as_secs_half : as_secs_f64 1500000000 = f64_div (of_Z 3) (of_Z 2).
Proof. vm_compute. reflexivity. Qed.
