(* ===== verification/Backoff.v ===== *)
(** * Retry intervals of the exporters

    [aic-server/src/otlp_exporter/backoff.rs]: after each failure in a row the next attempt
    waits twice as long, up to a minute, plus a random part. Instants and durations are
    nanoseconds; the clock and the random draw are arguments. *)

From S2P Require Import Prelude RustStr.

Definition MS : Z := 1000000.
Definition BASE : Z := 1000 * MS.
Definition CAP : Z := 60000 * MS.

Record Backoff := { consecutive_failures : Z; next_allowed : Z }.

Definition new_backoff (now : Z) : Backoff := {| consecutive_failures := 0; next_allowed := now |}.

Definition ready (now : Z) (b : Backoff) : bool := next_allowed b <=? now.

Definition on_success (now : Z) (b : Backoff) : Backoff := {| consecutive_failures := 0; next_allowed := now |}.

(** [u32::checked_shl] *)
Definition checked_shl32 (a k : Z) : option Z :=
  if k <? 32 then Some (Z.land (Z.shiftl a k) u32_max) else None.

Definition delay_for (n : Z) : Z :=
  let shift := Z.min (Z.max 0 (n - 1)) 6 in
  Z.min (BASE * default u32_max (checked_shl32 1 shift)) CAP.

(** [draw m] is the random number of milliseconds in [0..=m]. *)
Definition on_failure (draw : Z -> Z) (now : Z) (b : Backoff) : Backoff :=
  let n := Z.min (consecutive_failures b + 1) u32_max in
  let delay := delay_for n in
  let jitter_max_ms := Z.max (delay / MS / 5) 50 in
  {| consecutive_failures := n; next_allowed := now + delay + draw jitter_max_ms * MS |}.

Definition in_range (draw : Z -> Z) : Prop := forall m, 0 <= m -> 0 <= draw m <= m.

(** ** Delays *)

Lemma delay_cases n : 1 <= n ->
  delay_for n = (if n <=? 6 then BASE * 2 ^ (n - 1) else CAP).
Proof.
  intros Hn. unfold delay_for. destruct (Z.leb_spec n 6) as [H|H].
  - assert (n = 1 \/ n = 2 \/ n = 3 \/ n = 4 \/ n = 5 \/ n = 6) as H6 by lia.
    repeat (destruct H6 as [->|H6]; [reflexivity|]). by rewrite H6.
  - by replace (Z.min (Z.max 0 (n - 1)) 6) with 6 by lia.
Qed.

Lemma delay_bounds n : 1 <= n -> BASE <= delay_for n <= CAP.
Proof.
  intros Hn. rewrite delay_cases by done. destruct (Z.leb_spec n 6); [|done].
  assert (2 ^ 0 <= 2 ^ (n - 1) <= 2 ^ 5) by (split; apply Z.pow_le_mono_r; lia).
  change (2 ^ 0) with 1 in *. change (2 ^ 5) with 32 in *. unfold BASE, CAP, MS. lia.
Qed.

Lemma delay_cap n : 7 <= n -> delay_for n = CAP.
Proof. intros Hn. rewrite delay_cases by lia. by destruct (Z.leb_spec n 6); [lia|]. Qed.

(** ** Attempts *)

(** One attempt that fails: when it starts, when it has failed, and the draw. *)
Record attempt := { started : Z; failed_at : Z; draws : Z -> Z }.

(** Attempts in a row, each made only when the interval allows it. *)
Inductive outage : Backoff -> list attempt -> Prop :=
| outage_nil b : outage b []
| outage_cons b a l :
    ready (started a) b = true -> started a <= failed_at a -> in_range (draws a) ->
    outage (on_failure (draws a) (failed_at a) b) l -> outage b (a :: l).

(** The delays after the failures numbered from [n]. *)
Fixpoint total_delay (n : Z) (k : nat) : Z :=
  match k with
  | O => 0
  | S k => delay_for n + total_delay (Z.min (n + 1) u32_max) k
  end.

Lemma total_delay_nonneg k : forall n, 1 <= n -> 0 <= total_delay n k.
Proof.
  induction k as [|k IH]; intros n Hn; cbn [total_delay]; [lia|].
  pose proof (delay_bounds n Hn). specialize (IH (Z.min (n + 1) u32_max) ltac:(unfold u32_max; lia)).
  unfold BASE, MS in *. lia.
Qed.

(** From the seventh failure on every delay is a minute. *)
Lemma total_delay_lower k : forall n, 1 <= n <= u32_max -> CAP * (Z.of_nat k - Z.max 0 (7 - n)) <= total_delay n k.
Proof.
  induction k as [|k IH]; intros n Hn; cbn [total_delay]; [unfold CAP, MS; lia|].
  specialize (IH (Z.min (n + 1) u32_max) ltac:(unfold u32_max in *; lia)).
  pose proof (delay_bounds n ltac:(lia)) as [Hd _].
  destruct (Z.le_gt_cases 7 n); [rewrite delay_cap by done|]; unfold u32_max, BASE, CAP, MS in *; lia.
Qed.

Lemma outage_spacing l : forall b a k x, 0 <= consecutive_failures b -> outage b (a :: l) -> l !! k = Some x ->
  failed_at a + total_delay (Z.min (consecutive_failures b + 1) u32_max) (S k) <= started x.
Proof.
  induction l as [|c l IH]; intros b a k x Hb Ho Hk; [done|].
  inversion Ho as [|? ? ? _ _ Hd Ho']; subst. inversion Ho' as [|? ? ? Hr Hs _ _]; subst.
  unfold ready in Hr. apply Z.leb_le in Hr. cbn [on_failure next_allowed] in Hr.
  set (n := Z.min (consecutive_failures b + 1) u32_max) in *.
  assert (Hj := Hd (Z.max (delay_for n / MS / 5) 50) ltac:(lia)).
  assert (Hgap : failed_at a + delay_for n <= started c) by (unfold MS in *; nia).
  assert (Hn : 0 <= n) by (unfold n, u32_max; lia).
  destruct k as [|k]; cbn [lookup list_lookup] in Hk; cbn [total_delay].
  - injection Hk as <-. lia.
  - pose proof (IH (on_failure (draws a) (failed_at a) b) c k x Hn Ho' Hk) as H. cbn [on_failure consecutive_failures total_delay] in H.
    fold n in H. lia.
Qed.

(** While the collector does not answer, an exporter makes at most seven attempts and then
    one a minute. *)
Lemma outage_bound b a l W :
  0 <= consecutive_failures b -> outage b (a :: l) -> 0 <= W ->
  Forall (fun x => started x <= failed_at a + W) l ->
  Z.of_nat (length l) <= 6 + W / CAP.
Proof.
  intros Hb Ho HW Hl. destruct (length l) as [|k] eqn:E; [unfold CAP, MS; lia|].
  destruct (lookup_lt_is_Some_2 l k ltac:(lia)) as [x Hx].
  pose proof (outage_spacing l b a k x Hb Ho Hx) as Hsp.
  apply Forall_lookup_1 with (i := k) (x := x) in Hl; [|done].
  pose proof (total_delay_lower (S k) (Z.min (consecutive_failures b + 1) u32_max) ltac:(unfold u32_max; lia)) as Ht.
  assert (Z.of_nat (S k) - 6 <= W / CAP); [|lia]. apply Z.div_le_lower_bound; unfold CAP, MS, u32_max in *; lia.
Qed.

(** An attempt is refused before the interval is over and allowed after it and its largest
    random part; a success allows the next at once. *)
Lemma backoff_window b draw now t :
  0 <= consecutive_failures b < u32_max -> in_range draw ->
  let n := consecutive_failures b + 1 in
  (t < now + delay_for n -> ready t (on_failure draw now b) = false) /\
  (now + delay_for n + Z.max (delay_for n / 5) (50 * MS) <= t -> ready t (on_failure draw now b) = true) /\
  ready now (on_success now b) = true /\ consecutive_failures (on_success now b) = 0.
Proof.
  intros Hb Hd n. unfold ready. cbn [on_failure next_allowed on_success consecutive_failures].
  rewrite Z.min_l by lia. fold n. specialize (Hd (Z.max (delay_for n / MS / 5) 50) ltac:(lia)).
  assert (delay_for n / MS / 5 * MS <= delay_for n / 5).
  { rewrite Z.div_div, (Z.mul_comm MS 5), <- Z.div_div by (unfold MS; lia).
    rewrite Z.mul_comm. apply Z.mul_div_le. unfold MS. lia. }
  repeat split; try lia; intros; [apply Z.leb_gt|apply Z.leb_le]; unfold MS in *; nia.
Qed.
