(* ===== verification/LogGate.v ===== *)
(** * What a log line must pass before it is exported

    [logs/filter.rs]: the least severity of a line's service or source. [logs/limiter.rs]: a
    token bucket per service, for a bounded number of services. Tokens are [f64] as in the
    code ([Float64]); instants are nanoseconds. The iteration order of the hash map decides
    between buckets last used at the same time and is an argument. *)

From S2P Require Import Prelude RustStr Records Float64.

(** ** Severity *)

Definition GLOBAL_DEFAULT_SENTINEL : str := lit "INFO".

Record AicdLogServiceOverride := { ov_enabled : option bool; ov_min_severity : option str }.

(** The fields of [AicdLogsConfig] that the exporter reads. *)
Record AicdLogsConfig := {
  min_severity : str;
  external_min_severity : str;
  max_lines_per_sec : Z;
  max_services : nat;
  services : gmap str AicdLogServiceOverride;
}.

Definition severity_rank (s : str) : Z :=
  if bool_decide (s = lit "DEBUG") then 0
  else if bool_decide (s = lit "WARN") then 2
  else if bool_decide (s = lit "ERROR") then 3
  else 1.

Definition source_default_min_severity (source : str) (cfg : AicdLogsConfig) : str :=
  if bool_decide (source = lit "aic") then lit "INFO" else external_min_severity cfg.

Definition effective_min_severity (line : LogLine) (cfg : AicdLogsConfig) : str :=
  match (o ← services cfg !! ll_service line; ov_min_severity o) with
  | Some over => over
  | None =>
      if negb (bool_decide (min_severity cfg = GLOBAL_DEFAULT_SENTINEL)) then min_severity cfg
      else source_default_min_severity (ll_source line) cfg
  end.

Definition passes_severity (line : LogLine) (cfg : AicdLogsConfig) : bool :=
  severity_rank (effective_min_severity line cfg) <=? severity_rank (ll_severity line).

(** ** Token buckets *)

Record Bucket := { tokens : f64; last_refill : Z; last_access : Z }.

Definition new_bucket (now : Z) (burst : f64) : Bucket :=
  {| tokens := burst; last_refill := now; last_access := now |}.

Definition refill (now : Z) (rate_per_sec burst : f64) (b : Bucket) : Bucket :=
  let elapsed := as_secs_f64 (Z.max 0 (now - last_refill b)) in
  if f64_lt f64_zero elapsed then
    {| tokens := f64_min (f64_add (tokens b) (f64_mul elapsed rate_per_sec)) burst;
       last_refill := now; last_access := last_access b |}
  else b.

Record Limiter := { buckets : gmap str Bucket; rate_per_sec : f64; burst : f64; limit_services : nat }.

Definition new_limiter (rate : Z) (max : nat) : Limiter :=
  let r := of_Z (Z.max rate 1) in
  {| buckets := ∅; rate_per_sec := r; burst := r; limit_services := Nat.max max 1 |}.

Definition with_buckets (bs : gmap str Bucket) (l : Limiter) : Limiter :=
  {| buckets := bs; rate_per_sec := rate_per_sec l; burst := burst l; limit_services := limit_services l |}.

(** [Iterator::min_by_key] keeps the first of equal minima. *)
Fixpoint min_access (l : list (str * Bucket)) : option (str * Bucket) :=
  match l with
  | [] => None
  | x :: l =>
      match min_access l with
      | None => Some x
      | Some y => if last_access x.2 <=? last_access y.2 then Some x else Some y
      end
  end.

Definition evict_if_at_capacity (ord : list (str * Bucket) -> list (str * Bucket)) (l : Limiter) : Limiter :=
  if (size (buckets l) <? limit_services l)%nat then l
  else match min_access (ord (map_to_list (buckets l))) with
       | Some (lru_key, _) => with_buckets (delete lru_key (buckets l)) l
       | None => l
       end.

(** The bucket of a service, created full when there is none. *)
Definition ensure_bucket (ord : list (str * Bucket) -> list (str * Bucket)) (now : Z) (service : str)
    (l : Limiter) : Limiter * Bucket :=
  match buckets l !! service with
  | Some b => (l, b)
  | None => (evict_if_at_capacity ord l, new_bucket now (burst l))
  end.

Definition try_acquire (ord : list (str * Bucket) -> list (str * Bucket)) (now : Z) (service : str)
    (l : Limiter) : bool * Limiter :=
  let '(l, b) := ensure_bucket ord now service l in
  let b := refill now (rate_per_sec l) (burst l) b in
  let ok := f64_le f64_one (tokens b) in
  let b := {| tokens := if ok then f64_sub (tokens b) f64_one else tokens b;
              last_refill := last_refill b; last_access := now |} in
  (ok, with_buckets (<[service := b]> (buckets l)) l).

Definition service_count (l : Limiter) : nat := size (buckets l).

(** ** Severity: properties *)

(** An override wins over the global value, which wins over the source's default. *)
Lemma override_wins line cfg o v :
  services cfg !! ll_service line = Some o -> ov_min_severity o = Some v ->
  passes_severity line cfg = (severity_rank v <=? severity_rank (ll_severity line)).
Proof. intros H1 H2. unfold passes_severity, effective_min_severity. by rewrite H1; cbn; rewrite H2. Qed.

(** ** Buckets: properties *)

Definition access_order (ord : list (str * Bucket) -> list (str * Bucket)) : Prop := forall l, ord l ≡ₚ l.

Lemma min_access_spec l k b : min_access l = Some (k, b) ->
  (k, b) ∈ l /\ forall x, x ∈ l -> last_access b <= last_access x.2.
Proof.
  revert k b. induction l as [|y l IH]; intros k b; cbn [min_access]; [done|].
  destruct (min_access l) as [[k' b']|] eqn:E.
  - destruct (IH k' b' eq_refl) as [Hin Hle].
    cbn [snd]. destruct (Z.leb_spec (last_access y.2) (last_access b')).
    + intros [= ->]. split; [by left|]. intros x [->|Hx]%elem_of_cons; [done|]. specialize (Hle x Hx). simpl in *. lia.
    + intros [= <- <-]. split; [by right|]. intros x [->|Hx]%elem_of_cons; [lia|by apply Hle].
  - intros [= ->]. destruct l as [|z l].
    + split; [by left|]. by intros x ->%list_elem_of_singleton.
    + cbn in E. destruct (min_access l); [|done]. by case_match.
Qed.

Lemma min_access_None l : min_access l = None -> l = [].
Proof. destruct l as [|x l]; [done|]. cbn. destruct (min_access l); [by case_match|done]. Qed.

(** What making room removes: nothing while there is room, and else a bucket that was not
    used after any other. *)
Lemma evict_bucket_spec ord l : access_order ord -> (0 < limit_services l)%nat ->
  let l' := evict_if_at_capacity ord l in
  (size (buckets l) < limit_services l)%nat /\ l' = l \/
  (limit_services l <= size (buckets l))%nat /\ exists k b, buckets l !! k = Some b /\
    l' = with_buckets (delete k (buckets l)) l /\
    forall k' b', buckets l !! k' = Some b' -> last_access b <= last_access b'.
Proof.
  intros Ho Hp. unfold evict_if_at_capacity. destruct (Nat.ltb_spec (size (buckets l)) (limit_services l)); [by left|].
  right. split; [done|]. destruct (min_access _) as [[k b]|] eqn:E.
  - apply min_access_spec in E as [Hin Hle]. rewrite (Ho _) in Hin. apply elem_of_map_to_list in Hin.
    exists k, b. repeat split; [done|]. intros k' b' Hk'.
    apply (Hle (k', b')). rewrite (Ho _). by apply elem_of_map_to_list.
  - apply min_access_None in E. assert (Hs : map_to_list (buckets l) = []).
    { pose proof (Ho (map_to_list (buckets l))) as HP. rewrite E in HP. by apply Permutation_nil in HP. }
    apply map_to_list_empty_iff in Hs. rewrite Hs, map_size_empty in H. lia.
Qed.

Lemma evict_fields ord l :
  burst (evict_if_at_capacity ord l) = burst l /\
  rate_per_sec (evict_if_at_capacity ord l) = rate_per_sec l /\
  limit_services (evict_if_at_capacity ord l) = limit_services l.
Proof.
  unfold evict_if_at_capacity. destruct (size (buckets l) <? limit_services l)%nat; [done|].
  by destruct (min_access _) as [[]|].
Qed.

(** A limiter that never tracks more services than allowed. *)
Definition wf_limiter (l : Limiter) : Prop :=
  (0 < limit_services l)%nat /\ (size (buckets l) <= limit_services l)%nat.

Lemma wf_new_limiter rate max : wf_limiter (new_limiter rate max).
Proof. unfold wf_limiter. cbn [new_limiter buckets limit_services]. rewrite map_size_empty. lia. Qed.

Lemma try_acquire_wf ord now service l :
  access_order ord -> wf_limiter l -> wf_limiter (try_acquire ord now service l).2.
Proof.
  intros Ho [Hp Hs]. unfold try_acquire, ensure_bucket. destruct (buckets l !! service) as [b|] eqn:E.
  - split; [done|]. cbn [snd with_buckets buckets limit_services]. by rewrite map_size_insert_Some by done.
  - destruct (evict_bucket_spec ord l Ho Hp) as [[H ->]|(H & k & b & Hk & -> & _)];
      (split; [done|]); cbn [snd with_buckets buckets limit_services].
    + rewrite map_size_insert_None by done. lia.
    + rewrite map_size_insert_None by (by rewrite lookup_delete_None; right).
      rewrite map_size_delete_Some by (by eexists). lia.
Qed.

(** A line of a service: when it comes and how the map is iterated then. *)
Record request := { rq_order : list (str * Bucket) -> list (str * Bucket); rq_now : Z; rq_service : str }.

Fixpoint acquire_all (rs : list request) (l : Limiter) : list bool * Limiter :=
  match rs with
  | [] => ([], l)
  | r :: rs =>
      let '(ok, l) := try_acquire (rq_order r) (rq_now r) (rq_service r) l in
      let '(oks, l) := acquire_all rs l in
      (ok :: oks, l)
  end.

(** The number of tracked services never exceeds the configured one, whatever names the
    lines carry. *)
Theorem limiter_memory_bound rate max rs :
  Forall (fun r => access_order (rq_order r)) rs ->
  (service_count (acquire_all rs (new_limiter rate max)).2 <= Nat.max max 1)%nat.
Proof.
  intros Hr.
  assert (H : forall l, wf_limiter l -> wf_limiter (acquire_all rs l).2 /\
    limit_services (acquire_all rs l).2 = limit_services l).
  { induction Hr as [|r rs Ho _ IH]; intros l Hl; [done|]. cbn [acquire_all].
    pose proof (try_acquire_wf (rq_order r) (rq_now r) (rq_service r) l Ho Hl) as Hl'.
    assert (Hs : limit_services (try_acquire (rq_order r) (rq_now r) (rq_service r) l).2 = limit_services l).
    { unfold try_acquire, ensure_bucket. destruct (buckets l !! rq_service r); [done|]. apply evict_fields. }
    destruct (try_acquire _ _ _ l) as [ok l']. destruct (IH l' Hl') as [H1 H2].
    destruct (acquire_all rs l') as [oks l'']. cbn [snd] in *. by rewrite H2. }
  destruct (H _ (wf_new_limiter rate max)) as [[_ H1] H2]. by rewrite H2 in H1.
Qed.

(** Serving one service leaves the bucket of every other one as it was, unless the service is
    new and the limiter full: then the one bucket removed was last used before the others. *)
Theorem limiter_isolation ord now service l k b :
  access_order ord -> wf_limiter l -> k <> service -> buckets l !! k = Some b ->
  buckets (try_acquire ord now service l).2 !! k = Some b \/
  buckets l !! service = None /\ size (buckets l) = limit_services l /\
  buckets (try_acquire ord now service l).2 !! k = None /\
  forall k' b', buckets l !! k' = Some b' -> last_access b <= last_access b'.
Proof.
  intros Ho [Hp Hs] Hne Hk. unfold try_acquire, ensure_bucket. destruct (buckets l !! service) as [b0|] eqn:E.
  - left. cbn [snd with_buckets buckets]. by rewrite lookup_insert_ne by done.
  - destruct (evict_bucket_spec ord l Ho Hp) as [[H ->]|(H & k0 & b0 & Hk0 & -> & Hle)];
      cbn [snd with_buckets buckets]; rewrite lookup_insert_ne by done; [by left|].
    destruct (decide (k0 = k)) as [->|]; [|left; by rewrite lookup_delete_ne].
    right. split; [done|]. split; [lia|]. rewrite lookup_delete_eq. split; [done|].
    rewrite Hk in Hk0. by injection Hk0 as ->.
Qed.

(** ** How many lines pass *)

Lemma refill_same_time now rate burst b : last_refill b = now -> refill now rate burst b = b.
Proof. intros <-. unfold refill. by rewrite Z.sub_diag. Qed.

Lemma acquire_new ord now service l n :
  buckets l !! service = None -> burst l = of_Z n -> 0 < n < 2 ^ 53 ->
  let '(ok, l') := try_acquire ord now service l in
  ok = true /\ rate_per_sec l' = rate_per_sec l /\ burst l' = burst l /\
  buckets l' = <[service := {| tokens := of_Z (n - 1); last_refill := now; last_access := now |}]>
                 (buckets (evict_if_at_capacity ord l)).
Proof.
  intros Hs Hb Hn. unfold try_acquire, ensure_bucket. rewrite Hs.
  destruct (evict_fields ord l) as (Hl1 & Hl2 & _). rewrite refill_same_time by done. cbn [new_bucket tokens last_refill].
  rewrite Hb, one_le_of_Z by done. cbn [with_buckets rate_per_sec burst buckets].
  rewrite of_Z_pred by done. by rewrite Hl1, Hl2, Hb.
Qed.

Lemma acquire_tracked ord now service l n a :
  buckets l !! service = Some {| tokens := of_Z n; last_refill := now; last_access := a |} -> 0 <= n < 2 ^ 53 ->
  let '(ok, l') := try_acquire ord now service l in
  ok = (0 <? n) /\
  buckets l' !! service = Some {| tokens := of_Z (Z.max 0 (n - 1)); last_refill := now; last_access := now |}.
Proof.
  intros Hs Hn. unfold try_acquire, ensure_bucket. rewrite Hs, refill_same_time by done. cbn [tokens last_refill].
  destruct (Z.ltb_spec 0 n) as [H|H].
  - rewrite one_le_of_Z by lia. cbn [with_buckets buckets]. rewrite lookup_insert_eq, of_Z_pred, Z.max_r by lia. done.
  - replace n with 0 by lia. rewrite one_le_zero. cbn [with_buckets buckets]. by rewrite lookup_insert_eq.
Qed.

Lemma acquire_run service now rs : Forall (fun r => rq_now r = now /\ rq_service r = service) rs ->
  forall n a l, buckets l !! service = Some {| tokens := of_Z n; last_refill := now; last_access := a |} ->
  0 <= n < 2 ^ 53 ->
  (acquire_all rs l).1 = replicate (Nat.min (Z.to_nat n) (length rs)) true ++
                         replicate (length rs - Z.to_nat n) false.
Proof.
  induction 1 as [|r rs [H1 H2] _ IH]; intros n a l Hl Hn; [by rewrite Nat.min_0_r|].
  cbn [acquire_all]. rewrite H1, H2. pose proof (acquire_tracked (rq_order r) now service l n a Hl Hn) as Hs.
  destruct (try_acquire _ _ _ l) as [ok l']. destruct Hs as [-> Hs].
  specialize (IH (Z.max 0 (n - 1)) now l' Hs ltac:(lia)). destruct (acquire_all rs l') as [oks l'']. cbn [fst] in *.
  rewrite IH. cbn [length]. destruct (Z.ltb_spec 0 n) as [H|H].
  - rewrite Z.max_r by lia. replace (Z.to_nat n) with (S (Z.to_nat (n - 1))) by lia. done.
  - replace n with 0 by lia. cbn [Z.to_nat Z.max]. change (Z.to_nat (Z.max 0 (0 - 1))) with 0%nat.
    rewrite !Nat.sub_0_r. done.
Qed.

(** At one instant exactly as many lines of a service pass as the configured rate. *)
Theorem burst_exact rate max service now rs :
  1 <= rate <= u32_max -> Forall (fun r => rq_now r = now /\ rq_service r = service) rs ->
  (acquire_all rs (new_limiter rate max)).1 =
    replicate (Nat.min (Z.to_nat rate) (length rs)) true ++ replicate (length rs - Z.to_nat rate) false.
Proof.
  unfold u32_max. intros Hr Hrs. destruct Hrs as [|r rs [H1 H2] Hrs]; [by rewrite Nat.min_0_r|].
  cbn [acquire_all]. rewrite H1, H2.
  pose proof (acquire_new (rq_order r) now service (new_limiter rate max) rate (lookup_empty _)) as Hs.
  cbn [new_limiter burst] in Hs. rewrite Z.max_l in Hs by lia. specialize (Hs eq_refl ltac:(lia)).
  destruct (try_acquire _ _ _ _) as [ok l']. destruct Hs as (-> & _ & _ & Hs).
  pose proof (acquire_run service now rs Hrs (rate - 1) now l') as Hx.
  rewrite Hs, lookup_insert_eq in Hx. specialize (Hx eq_refl ltac:(lia)).
  destruct (acquire_all rs l') as [oks l'']. cbn [fst length] in *. rewrite Hx.
  by replace (Z.to_nat rate) with (S (Z.to_nat (rate - 1))) by lia.
Qed.

(** Lines of different services all pass, however many come at one instant: the limit is not
    one of the total. *)
Theorem distinct_services_unlimited rate max rs :
  1 <= rate <= u32_max -> NoDup (rq_service <$> rs) ->
  (acquire_all rs (new_limiter rate max)).1 = replicate (length rs) true.
Proof.
  unfold u32_max. intros Hr Hnd.
  assert (H : forall l, burst l = of_Z rate -> (forall s, s ∈ rq_service <$> rs -> buckets l !! s = None) ->
    (acquire_all rs l).1 = replicate (length rs) true); [|apply H; cbn [new_limiter burst buckets]].
  2: by rewrite Z.max_l by lia.
  2: { intros. apply lookup_empty. }
  induction rs as [|r rs IH]; intros l Hb Hl; [done|]. cbn [acquire_all fmap list_fmap] in *.
  apply NoDup_cons in Hnd as [Hn Hnd].
  pose proof (acquire_new (rq_order r) (rq_now r) (rq_service r) l rate (Hl _ ltac:(by left)) Hb ltac:(lia)) as Hs.
  destruct (try_acquire _ _ _ l) as [ok l']. destruct Hs as (-> & _ & Hb' & Hs).
  specialize (IH Hnd l' ltac:(congruence)). destruct (acquire_all rs l') as [oks l'']. cbn [fst length replicate] in *.
  rewrite IH; [done|]. intros s Hin. rewrite Hs, lookup_insert_ne by (intros <-; done).
  unfold evict_if_at_capacity. repeat case_match; try (apply Hl; by right).
  cbn [with_buckets buckets]. rewrite lookup_delete_None. right. apply Hl. by right.
Qed.

(** ** Concrete requests *)

Definition demo_request (service : str) : request := {| rq_order := fun l => l; rq_now := 7; rq_service := service |}.

Lemma limiter_memory_bound_witness :
  (service_count (acquire_all (demo_request <$> [lit "a"; lit "b"; lit "c"]) (new_limiter 5 2)).2 <= Nat.max 2 1)%nat.
Proof. apply limiter_memory_bound. apply Forall_fmap, Forall_forall. intros s _ l. reflexivity. Defined.

Lemma burst_exact_witness :
  (acquire_all (demo_request <$> [lit "a"; lit "a"; lit "a"]) (new_limiter 2 10)).1 = [true; true; false].
Proof.
  etransitivity.
  - apply (burst_exact 2 10 (lit "a") 7); [unfold u32_max; lia|]. repeat (constructor; [by split|]). constructor.
  - vm_compute. reflexivity.
Defined.

Lemma distinct_services_unlimited_witness :
  (acquire_all (demo_request <$> [lit "a"; lit "b"; lit "c"]) (new_limiter 1 10)).1 = [true; true; true].
Proof.
  etransitivity.
  - apply (distinct_services_unlimited 1 10); [unfold u32_max; lia|]. apply (bool_decide_unpack _). vm_compute. exact I.
  - vm_compute. reflexivity.
Defined.
