(* ===== verification/Journald.v ===== *)
(** * The journal collector

    [aic-server/src/otlp_exporter/logs/journald.rs]: [journalctl] runs as a child that follows
    the journal; each line it prints is parsed, its cursor saved, and the line handed to the
    channel. A child that ends is started again after the backoff, from the last cursor.

    JSON text, the range of timestamps, redaction and the hash of a line are parameters. What
    the child prints, whether saves and sends succeed and what the clock says are events. *)

From S2P Require Import Prelude RustStr Records JsonValue Checkpoint Backoff.

Definition extract_str (fields : list (str * Value)) (key : str) : option str := get key fields ≫= as_str.

(** ** Parsing *)

Definition severity_from_priority (priority : str) : str :=
  match parse_unsigned 10 255 (trim priority) with
  | Some n => if n <=? 3 then lit "ERROR" else if n =? 4 then lit "WARN"
              else if n <=? 6 then lit "INFO" else if n =? 7 then lit "DEBUG" else lit "INFO"
  | None => lit "INFO"
  end.

(** [n as u8] keeps the low byte. *)
Definition extract_message (fields : list (str * Value)) : str :=
  match get (lit "MESSAGE") fields with
  | Some (VString s) => s
  | Some (VArray arr) => from_utf8_lossy ((fun n => byte.of_Z (n mod 256)) <$> omap as_u64 arr)
  | _ => []
  end.

Definition build_journalctl_args (cursor : option str) : list str :=
  [lit "--follow"; lit "--all"; lit "--show-cursor"; lit "--output=json"; lit "--no-pager"] ++
  [match cursor with Some c => lit "--after-cursor=" ++ c | None => lit "--since=now" end].

Definition insert_opt (k : str) (v : option str) (m : gmap str str) : gmap str str :=
  match v with Some v => <[k := v]> m | None => m end.

Section Journald.
Variable json_parse : str -> option Value.
Variable from_timestamp_micros : Z -> option Z.
Variable redact : str -> str.
Variable content_hash : str -> LogLine -> Z.

(** [checkpoint::record_id] *)
Definition record_id (natural_key : option str) (host : str) (line : LogLine) : str :=
  match natural_key with
  | Some key => lit "log:" ++ key
  | None => lit "log:" ++ show_hex 16 (content_hash host line)
  end.

Definition with_record_id (id : str) (l : LogLine) : LogLine :=
  {| ll_source := ll_source l; ll_service := ll_service l; ll_severity := ll_severity l;
     ll_message := ll_message l; ll_attrs := ll_attrs l; ll_ts := ll_ts l; ll_record_id := id |}.

Record ParsedJournalLine := { line : LogLine; parsed_cursor : option str }.

(** [now] is used for a line without a valid timestamp. *)
Definition parse_journal_json (raw host : str) (now : Z) : option ParsedJournalLine :=
  value ← json_parse raw;
  obj ← as_object value;
  let cursor := extract_str obj (lit "__CURSOR") in
  let service := default (default (lit "unknown") (extract_str obj (lit "SYSLOG_IDENTIFIER")))
                   (extract_str obj (lit "_SYSTEMD_UNIT")) in
  let severity := severity_from_priority (default [] (extract_str obj (lit "PRIORITY"))) in
  let ts := default now
    (s ← extract_str obj (lit "__REALTIME_TIMESTAMP");
     us ← parse_signed 10 (- 2 ^ 63) (2 ^ 63 - 1) s;
     from_timestamp_micros us) in
  let attrs := insert_opt (lit "syslog_facility") (extract_str obj (lit "SYSLOG_FACILITY"))
    (insert_opt (lit "unit") (extract_str obj (lit "_SYSTEMD_UNIT"))
      (insert_opt (lit "pid") (extract_str obj (lit "_PID")) ∅)) in
  let l := {| ll_source := lit "journald"; ll_service := service; ll_severity := severity;
              ll_message := redact (extract_message obj); ll_attrs := attrs; ll_ts := ts; ll_record_id := [] |} in
  Some {| line := with_record_id (record_id cursor host l) l; parsed_cursor := cursor |}.

(** ** The collector *)

Definition CHECKPOINT_KEY : str := lit "journald".

(** The collector, with what it handed to the channel and dropped because it was full. *)
Record JournaldCollector := {
  host : str;
  checkpoints : CheckpointStore;
  backoff : Backoff;
  cursor : option str;
  tx_sent : list LogLine;
  by_channel_full : Z;
}.

Definition new_collector (host : str) (now : Z) (store : CheckpointStore) (sent : list LogLine) (full : Z)
    : JournaldCollector :=
  {| host := host; checkpoints := store; backoff := new_backoff now; cursor := load CHECKPOINT_KEY store;
     tx_sent := sent; by_channel_full := full |}.

Definition set_cursor (io : save_io) (cur : str) (c : JournaldCollector) : JournaldCollector :=
  {| host := host c; checkpoints := (save io CHECKPOINT_KEY cur (checkpoints c)).2; backoff := backoff c;
     cursor := Some cur; tx_sent := tx_sent c; by_channel_full := by_channel_full c |}.
Definition try_send (room : bool) (l : LogLine) (c : JournaldCollector) : JournaldCollector :=
  {| host := host c; checkpoints := checkpoints c; backoff := backoff c; cursor := cursor c;
     tx_sent := if room then tx_sent c ++ [l] else tx_sent c;
     by_channel_full := if room then by_channel_full c else by_channel_full c + 1 |}.
Definition failed_at (draw : Z -> Z) (now : Z) (c : JournaldCollector) : JournaldCollector :=
  {| host := host c; checkpoints := checkpoints c; backoff := on_failure draw now (backoff c); cursor := cursor c;
     tx_sent := tx_sent c; by_channel_full := by_channel_full c |}.

Definition on_line (raw : str) (now : Z) (io : save_io) (room : bool) (c : JournaldCollector) : JournaldCollector :=
  match parse_journal_json raw (host c) now with
  | None => c
  | Some p =>
      let c := match parsed_cursor p with Some cur => set_cursor io cur c | None => c end in
      try_send room (line p) c
  end.

(** What happens while a child runs: a line of its output, the end or an error of the output,
    its error output, a change of the shutdown flag. *)
Inductive child_event :=
| Out (raw : str) (now : Z) (io : save_io) (room : bool)
| OutEnd
| ErrOutput
| Changed (stop : bool).

Inductive RunOutcome := ShutdownRequested | ChildExited.

(** [None]: the child still runs. *)
Fixpoint run_once (evs : list child_event) (c : JournaldCollector) : JournaldCollector * option RunOutcome :=
  match evs with
  | [] => (c, None)
  | Out raw now io room :: evs => run_once evs (on_line raw now io room c)
  | OutEnd :: _ => (c, Some ChildExited)
  | Changed true :: _ => (c, Some ShutdownRequested)
  | Changed false :: evs | ErrOutput :: evs => run_once evs c
  end.

Inductive io_kind := NotFound | PermissionDenied | OtherError.

Definition is_permanent_spawn_error (k : io_kind) : bool :=
  match k with NotFound | PermissionDenied => true | OtherError => false end.

(** How the wait for the backoff ends. *)
Inductive wait_result := WaitReady | WaitChanged (stop : bool).

(** One turn of [run_journald_collector]: the shutdown flag seen first, whether the child
    starts and then what it does, the clock and draw of a failure, and the wait. *)
Record round := {
  r_shutdown : bool;
  r_spawn : option io_kind;
  r_events : list child_event;
  r_failed : Z;
  r_draw : Z -> Z;
  r_wait : wait_result;
}.

Inductive status := Running | Stopped.

Definition wait_status (w : wait_result) : status := match w with WaitChanged true => Stopped | _ => Running end.

Definition run_round (r : round) (c : JournaldCollector) : JournaldCollector * status :=
  if r_shutdown r then (c, Stopped)
  else match r_spawn r with
       | Some k =>
           if is_permanent_spawn_error k then (c, Stopped)
           else (failed_at (r_draw r) (r_failed r) c, wait_status (r_wait r))
       | None =>
           match run_once (r_events r) c with
           | (c, None) => (c, Running)
           | (c, Some ShutdownRequested) => (c, Stopped)
           | (c, Some ChildExited) => (failed_at (r_draw r) (r_failed r) c, wait_status (r_wait r))
           end
       end.

Fixpoint run_journald_collector (rs : list round) (c : JournaldCollector) : JournaldCollector * status :=
  match rs with
  | [] => (c, Running)
  | r :: rs =>
      match run_round r c with
      | (c, Stopped) => (c, Stopped)
      | (c, Running) => run_journald_collector rs c
      end
  end.
End Journald.
