(* ===== verification/JournaldSpec.v ===== *)
(** * The journal collector resumes exactly

    Assuming that [journalctl] prints the entries after the cursor it is given, in order,
    every entry reaches the channel once, or is counted when the channel is full, whatever
    children die and whenever; the checkpoint is where a new process continues. The backoff
    between children is never reset. *)

From S2P Require Import Prelude RustStr Records JsonValue Checkpoint Backoff Journald.

(** A cursor text that a checkpoint file gives back. *)
Definition loadable (v : str) : Prop := utf8_valid v = true /\ trim v = v /\ v <> [].

Lemma load_saved_value key v st : loadable v -> load key (save SaveOk key v st).2 = Some v.
Proof.
  intros (H1 & H2 & H3). unfold load. cbn [save snd]. rewrite lookup_insert_eq. cbn [mbind option_bind].
  by rewrite H1, H2, bool_decide_eq_false_2.
Qed.

Section Journal.
Variable json_parse : str -> option Value.
Variable from_timestamp_micros : Z -> option Z.
Variable redact : str -> str.
Variable content_hash : str -> LogLine -> Z.

Notation parse_journal_json := (parse_journal_json json_parse from_timestamp_micros redact content_hash).
Notation on_line := (on_line json_parse from_timestamp_micros redact content_hash).
Notation run_once := (run_once json_parse from_timestamp_micros redact content_hash).
Notation run_round := (run_round json_parse from_timestamp_micros redact content_hash).
Notation run_journald_collector := (run_journald_collector json_parse from_timestamp_micros redact content_hash).

(** An entry of the journal: its text, its cursor and the line it is parsed to. *)
Record entry := { e_raw : str; e_cursor : str; e_line : LogLine }.

Variable journal : list entry.
Variable the_host : str.

Definition well_formed : Prop :=
  Forall (fun e => loadable (e_cursor e) /\ forall now,
    parse_journal_json (e_raw e) the_host now = Some {| line := e_line e; parsed_cursor := Some (e_cursor e) |}) journal.

(** The collector has read the entries up to the one numbered [j]. *)
Definition at_pos (j : nat) (c : JournaldCollector) : Prop :=
  host c = the_host /\ exists e, journal !! j = Some e /\ cursor c = Some (e_cursor e).

(** The lines of output that a child's events carry before it ends. *)
Fixpoint outs (evs : list child_event) : list str :=
  match evs with
  | [] | OutEnd :: _ | Changed true :: _ => []
  | Out raw _ _ _ :: evs => raw :: outs evs
  | Changed false :: evs | ErrOutput :: evs => outs evs
  end.

Definition outs_of (r : round) : list str :=
  if r_shutdown r then [] else match r_spawn r with Some _ => [] | None => outs (r_events r) end.

(** [journalctl --after-cursor] prints the entries after the cursor, in order. *)
Inductive follows : nat -> list round -> Prop :=
| follows_nil j : follows j []
| follows_cons j r rs :
    outs_of r `prefix_of` (e_raw <$> drop (S j) journal) ->
    follows (j + length (outs_of r)) rs -> follows j (r :: rs).

(** Entries and whether the channel had room for each. *)
Definition kept (rooms : list bool) (es : list entry) : list LogLine :=
  omap (fun x => if x.1 : bool then Some (e_line x.2) else None) (zip rooms es).
Definition refused (rooms : list bool) : Z := Z.of_nat (length (filter (fun b => b = false) rooms)).

(** What a stretch of entries [j+1 .. j+k] leaves. *)
Definition advanced (j k : nat) (c c' : JournaldCollector) : Prop :=
  at_pos (j + k) c' /\ exists rooms, length rooms = k /\
    tx_sent c' = tx_sent c ++ kept rooms (take k (drop (S j) journal)) /\
    Journald.by_channel_full c' = Journald.by_channel_full c + refused rooms.

Lemma advanced_0 j c c' :
  at_pos j c -> host c' = host c -> cursor c' = cursor c -> tx_sent c' = tx_sent c ->
  Journald.by_channel_full c' = Journald.by_channel_full c -> advanced j 0 c c'.
Proof.
  intros [Hh Hc] H1 H2 H3 H4. unfold advanced, at_pos. rewrite Nat.add_0_r, H1, H2, H3, H4. split; [done|].
  exists []. change (refused []) with 0. cbn. rewrite app_nil_r. split; [done|]. split; [done|lia].
Qed.

Lemma kept_app r1 r2 es1 es2 :
  length r1 = length es1 -> kept (r1 ++ r2) (es1 ++ es2) = kept r1 es1 ++ kept r2 es2.
Proof. intros Hl. unfold kept. rewrite zip_with_app by done. apply omap_app. Qed.

Lemma advanced_trans j k1 k2 c1 c2 c3 :
  advanced j k1 c1 c2 -> advanced (j + k1) k2 c2 c3 -> advanced j (k1 + k2) c1 c3.
Proof.
  intros [(Hh1 & e1 & He1 & _) (r1 & L1 & S1 & F1)] [Hp (r2 & L2 & S2 & F2)].
  split; [by rewrite Nat.add_assoc|]. exists (r1 ++ r2). rewrite length_app, L1, L2.
  split; [done|]. rewrite S2, S1, F2, F1. split.
  - rewrite <- app_assoc. f_equal.
    replace (take (k1 + k2) (drop (S j) journal))
      with (take k1 (drop (S j) journal) ++ take k2 (drop (S (j + k1)) journal)).
    2: { rewrite <- (take_take_drop _ k1 k2), drop_drop. by replace (S j + k1)%nat with (S (j + k1)) by lia. }
    rewrite kept_app; [done|]. apply lookup_lt_Some in He1. rewrite L1, length_take, length_drop. lia.
  - unfold refused. rewrite filter_app, length_app. lia.
Qed.

Context (Hwf : well_formed).

Lemma on_line_advanced j c raw now io room :
  at_pos j c -> [raw] `prefix_of` (e_raw <$> drop (S j) journal) -> advanced j 1 c (on_line raw now io room c).
Proof.
  intros (Hh & _) [rest Hp]. destruct (drop (S j) journal) as [|e es] eqn:Ed; [done|]. injection Hp as <- _.
  assert (He : journal !! (j + 1)%nat = Some e).
  { replace (j + 1)%nat with (S j + 0)%nat by lia. by rewrite <- lookup_drop, Ed. }
  pose proof (proj1 (Forall_lookup _ _) Hwf _ _ He) as [_ Hparse]. unfold Journald.on_line. rewrite Hh, Hparse.
  cbn [parsed_cursor line]. split; [split; [done|by exists e]|]. exists [room]. rewrite Ed. split; [done|].
  destruct room; [change (refused [true]) with 0|change (refused [false]) with 1]; cbn; rewrite ?app_nil_r;
    (split; [done|lia]).
Qed.

Lemma run_once_advanced evs : forall j c,
  at_pos j c -> outs evs `prefix_of` (e_raw <$> drop (S j) journal) ->
  advanced j (length (outs evs)) c (run_once evs c).1.
Proof.
  induction evs as [|ev evs IH]; intros j c Hc Hp; [by apply advanced_0|].
  destruct ev as [raw now io room| | |[]]; cbn [outs Journald.run_once] in *; try (by apply advanced_0); [|by apply IH..].
  assert (H1 : [raw] `prefix_of` (e_raw <$> drop (S j) journal)).
  { etransitivity; [|exact Hp]. by exists (outs evs). }
  pose proof (on_line_advanced j c raw now io room Hc H1) as Ha.
  change (length (raw :: outs evs)) with (1 + length (outs evs))%nat. eapply advanced_trans; [exact Ha|].
  apply IH; [apply Ha|]. destruct Hp as [rest Hp]. exists rest.
  replace (S (j + 1)) with (S j + 1)%nat by lia. rewrite <- drop_drop, fmap_drop, Hp. done.
Qed.

Lemma advanced_failed j k c c' draw now : advanced j k c c' -> advanced j k c (failed_at draw now c').
Proof. done. Qed.

Lemma run_round_advanced r j c :
  at_pos j c -> outs_of r `prefix_of` (e_raw <$> drop (S j) journal) ->
  advanced j (length (outs_of r)) c (run_round r c).1.
Proof.
  intros Hc. unfold outs_of, Journald.run_round. destruct (r_shutdown r); [intros _; by apply advanced_0|].
  destruct (r_spawn r) as [k|].
  - intros _. destruct (is_permanent_spawn_error k); by apply advanced_0.
  - intros Hp. pose proof (run_once_advanced (r_events r) j c Hc Hp) as Ha.
    destruct (run_once (r_events r) c) as [c' [[]|]]; exact Ha.
Qed.

(** Whatever children die and whenever, the entries after the last one read reach the
    channel in order, each once, but for those it had no room for, which are counted; and
    the cursor is that of the last entry read. *)
Theorem journal_resumed rs : forall j c,
  at_pos j c -> follows j rs -> exists k, advanced j k c (run_journald_collector rs c).1.
Proof.
  induction rs as [|r rs IH]; intros j c Hc Hf; [exists 0%nat; by apply advanced_0|].
  inversion Hf as [|? ? ? Hp Hf']; subst. cbn [Journald.run_journald_collector].
  pose proof (run_round_advanced r j c Hc Hp) as Ha. destruct (run_round r c) as [c' []]; [|by eexists].
  destruct (IH _ c' (proj1 Ha) Hf') as [k Hk]. eexists. by eapply advanced_trans.
Qed.

(** ** The checkpoint *)

Definition saves_ok (r : round) : Prop :=
  Forall (fun ev => match ev with Out _ _ io _ => io = SaveOk | _ => True end) (r_events r).

Definition saved (c : JournaldCollector) : Prop := load CHECKPOINT_KEY (checkpoints c) = cursor c.

(** Every cursor that a line shows can be read back. *)
Definition cursors_loadable : Prop :=
  forall raw h now p cur, parse_journal_json raw h now = Some p -> parsed_cursor p = Some cur -> loadable cur.

Lemma run_once_saved evs : cursors_loadable -> forall c, saved c ->
  Forall (fun ev => match ev with Out _ _ io _ => io = SaveOk | _ => True end) evs -> saved (run_once evs c).1.
Proof.
  intros Hl. induction evs as [|ev evs IH]; intros c Hc Hs; [done|]. apply Forall_cons in Hs as [Hev Hs].
  destruct ev as [raw now io room| | |[]]; cbn [Journald.run_once]; try done; try (by apply IH).
  apply IH; [|done]. unfold Journald.on_line. destruct (parse_journal_json raw (host c) now) as [p|] eqn:Ep; [|done].
  destruct (parsed_cursor p) as [cur|] eqn:Ec; [|done]. subst io. unfold saved, try_send, set_cursor. cbn [checkpoints cursor].
  apply load_saved_value. by eapply Hl.
Qed.

(** While saves succeed, the checkpoint is the cursor: a new process continues where this
    one stopped. *)
Lemma restart_position rs now : cursors_loadable -> forall c, saved c -> Forall saves_ok rs ->
  let c' := (run_journald_collector rs c).1 in
  cursor (new_collector (host c') now (checkpoints c') (tx_sent c') (Journald.by_channel_full c')) = cursor c'.
Proof.
  intros Hl. induction rs as [|r rs IH]; intros c Hc Hs; [done|]. apply Forall_cons in Hs as [Hr Hs].
  cbn [Journald.run_journald_collector].
  assert (Hc' : saved (run_round r c).1).
  { unfold Journald.run_round. destruct (r_shutdown r); [done|]. destruct (r_spawn r) as [k|].
    - by destruct (is_permanent_spawn_error k).
    - pose proof (run_once_saved (r_events r) Hl c Hc Hr) as H. destruct (run_once (r_events r) c) as [c' [[]|]]; exact H. }
  destruct (run_round r c) as [c' []]; [by apply IH|exact Hc'].
Qed.

(** ** The backoff *)

(** A child that starts, prints what it likes and ends; the wait is not interrupted. *)
Definition exits (r : round) : Prop :=
  r_shutdown r = false /\ r_spawn r = None /\ r_wait r = WaitReady /\
  exists before, r_events r = before ++ [OutEnd] /\ OutEnd ∉ before /\ Changed true ∉ before.

Lemma run_once_exits before c : OutEnd ∉ before -> Changed true ∉ before ->
  exists c', run_once (before ++ [OutEnd]) c = (c', Some ChildExited) /\ backoff c' = backoff c.
Proof.
  revert c. induction before as [|ev before IH]; intros c H1 H2; [by exists c|].
  apply not_elem_of_cons in H1 as [H1 H1']. apply not_elem_of_cons in H2 as [H2 H2'].
  destruct ev as [raw now io room| | |[]]; cbn [app Journald.run_once]; try done; [|by apply IH..].
  destruct (IH (on_line raw now io room c) H1' H2') as (c' & E & Hb). exists c'. split; [done|]. rewrite Hb.
  unfold Journald.on_line. destruct (parse_journal_json _ _ _) as [p|]; [|done]. by destruct (parsed_cursor p).
Qed.

Lemma exits_backoff rs : Forall exits rs -> forall c, 0 <= consecutive_failures (backoff c) ->
  consecutive_failures (backoff c) + Z.of_nat (length rs) <= u32_max ->
  (run_journald_collector rs c).2 = Running /\
  consecutive_failures (backoff (run_journald_collector rs c).1) =
    consecutive_failures (backoff c) + Z.of_nat (length rs).
Proof.
  induction 1 as [|r rs (E1 & E2 & E3 & before & E4 & E5 & E6) _ IH]; intros c Hc Hn; [cbn; split; [done|lia]|].
  cbn [Journald.run_journald_collector]. unfold Journald.run_round. rewrite E1, E2, E4.
  destruct (run_once_exits before c E5 E6) as (c' & -> & Hb). rewrite E3. cbn [wait_status].
  destruct (IH (failed_at (r_draw r) (r_failed r) c')) as [H1 H2].
  1, 2: cbn [failed_at backoff on_failure consecutive_failures]; rewrite Hb; cbn [length] in Hn; lia.
  split; [done|]. rewrite H2. cbn [failed_at backoff on_failure consecutive_failures length] in *. rewrite Hb. lia.
Qed.

(** After the seventh child of a process has ended, however many lines each printed and
    however long each ran, the next one is started a minute later at the earliest: nothing
    resets the count of failures. *)
Theorem backoff_never_reset rs last c :
  Forall exits (rs ++ [last]) -> consecutive_failures (backoff c) = 0 ->
  (6 <= length rs)%nat -> Z.of_nat (length rs) < u32_max -> in_range (r_draw last) ->
  r_failed last + CAP <= next_allowed (backoff (run_journald_collector (rs ++ [last]) c).1).
Proof.
  intros He Hc Hn Hm Hd. apply Forall_app in He as [He [Hlast _]%Forall_cons].
  destruct (exits_backoff rs He c ltac:(lia) ltac:(lia)) as [Hrun Hcount].
  assert (Happ : forall r2 c, (run_journald_collector rs c).2 = Running ->
    run_journald_collector (rs ++ r2) c = run_journald_collector r2 (run_journald_collector rs c).1).
  { clear. intros r2. induction rs as [|r rs IH]; intros c H; [done|]. cbn [app Journald.run_journald_collector] in *.
    destruct (run_round r c) as [c' []]; [by apply IH|done]. }
  rewrite Happ by done. destruct Hlast as (E1 & E2 & E3 & before & E4 & E5 & E6).
  cbn [Journald.run_journald_collector]. unfold Journald.run_round. rewrite E1, E2, E4.
  destruct (run_once_exits before (run_journald_collector rs c).1 E5 E6) as (c' & -> & Hb). rewrite E3. cbn [wait_status fst].
  unfold failed_at. cbn [backoff on_failure next_allowed]. rewrite Hb, Hcount, Hc, Z.add_0_l, Z.min_l by lia.
  rewrite delay_cap by lia. specialize (Hd (Z.max (CAP / MS / 5) 50) ltac:(lia)). unfold MS in *. lia.
Qed.
End Journal.

(** ** Concrete journals *)

Definition demo_parse (raw : str) : option Value :=
  Some (VObject [(lit "__CURSOR", VString (lit "s=" ++ raw)); (lit "PRIORITY", VString (lit "3"));
                 (lit "MESSAGE", VString raw); (lit "__REALTIME_TIMESTAMP", VString (lit "5"))]).

Definition demo_entry (raw : str) : entry :=
  {| e_raw := raw; e_cursor := lit "s=" ++ raw;
     e_line := {| ll_source := lit "journald"; ll_service := lit "unknown"; ll_severity := lit "ERROR";
                  ll_message := raw; ll_attrs := ∅; ll_ts := 5; ll_record_id := lit "log:s=" ++ raw |} |}.

Definition demo_journal : list entry := demo_entry <$> [lit "a"; lit "b"; lit "c"; lit "d"].

Definition demo_round (evs : list child_event) : round :=
  {| r_shutdown := false; r_spawn := None; r_events := evs; r_failed := 0; r_draw := fun _ => 0; r_wait := WaitReady |}.

(** A child that prints two entries, of which the channel has no room for one, and dies; the
    next one prints the last. *)
Definition demo_rounds : list round :=
  [demo_round [Out (lit "b") 0 SaveOk true; ErrOutput; Out (lit "c") 0 SaveOk false; OutEnd];
   demo_round [Out (lit "d") 0 SaveOk true]].

Definition demo_collector : JournaldCollector :=
  {| host := lit "h"; checkpoints := ∅; backoff := new_backoff 0; cursor := Some (lit "s=a"); tx_sent := [];
     by_channel_full := 0 |}.

Lemma demo_wf : well_formed demo_parse Some (fun s => s) (fun _ _ => 0) demo_journal (lit "h").
Proof. repeat constructor; try done; vm_compute; done. Qed.

Lemma journal_resumed_witness :
  let c' := (run_journald_collector demo_parse Some (fun s => s) (fun _ _ => 0) demo_rounds demo_collector).1 in
  (ll_message <$> tx_sent c', Journald.by_channel_full c', cursor c') = ([lit "b"; lit "d"], 1, Some (lit "s=d")) /\
  exists k, advanced demo_journal (lit "h") 0 k demo_collector c'.
Proof.
  split; [vm_compute; reflexivity|].
  apply (journal_resumed demo_parse Some (fun s => s) (fun _ _ => 0) demo_journal (lit "h") demo_wf).
  - split; [reflexivity|]. exists (demo_entry (lit "a")). split; reflexivity.
  - apply follows_cons; [exists [lit "d"]; reflexivity|]. apply follows_cons; [exists []; reflexivity|]. constructor.
Defined.

Definition quiet_exit : round := demo_round [OutEnd].

Lemma quiet_exits : exits quiet_exit.
Proof. repeat split. exists []. split; [done|]. split; apply not_elem_of_nil. Qed.

Lemma backoff_never_reset_witness :
  0 + CAP <= next_allowed (backoff (run_journald_collector demo_parse Some (fun s => s) (fun _ _ => 0)
    (replicate 6 quiet_exit ++ [quiet_exit]) demo_collector).1).
Proof.
  apply (backoff_never_reset demo_parse Some (fun s => s) (fun _ _ => 0) (replicate 6 quiet_exit) quiet_exit demo_collector).
  - repeat constructor; apply quiet_exits.
  - reflexivity.
  - cbn. lia.
  - cbn. unfold u32_max. lia.
  - intros m Hm. cbn. lia.
Defined.
