(* ===== verification/Registry.v ===== *)
(** * The daemon's session registry (aic-server/src/session_registry.rs)

    Metadata of the sessions the daemon knows, keyed by session identifier, with the
    snapshot file it is restored from. The [RwLock] makes every operation atomic. Times are
    nanoseconds since the Unix epoch and durations nanoseconds. The iteration order of the
    [HashMap] is an argument of the operations that expose it. *)

From S2P Require Import Prelude RustStr.

(** ** Data (aic-common/src/lib.rs) *)

Inductive SessionState := Creating | Attached | Detached | Stopping | Stopped | Failed.

#[export] Instance SessionState_eq_dec : EqDecision SessionState.
Proof. solve_decision. Defined.

Record SessionInfo := {
  si_id : str;
  si_pid : Z;
  si_state : SessionState;
  si_created_at : Z;
  si_last_seen_at : option Z;
  si_last_command_at : option Z;
  si_attached_tty : option str;
  si_shell : option str;
  si_cwd : option str;
  si_label : option str;
}.

#[export] Instance SessionInfo_eq_dec : EqDecision SessionInfo.
Proof. solve_decision. Defined.

Definition SECOND : Z := 1000000000.
Definition SNAPSHOT_MAX_AGE : Z := 24 * 3600 * SECOND.

Abbreviation SessionRegistry := (gmap str SessionInfo).

(** ** Operations *)

Definition from_sessions (sessions : list SessionInfo) : SessionRegistry :=
  foldl (fun m info => <[si_id info := info]> m) ∅ sessions.

Definition register (info : SessionInfo) (g : SessionRegistry) : SessionRegistry :=
  <[si_id info := info]> g.

Definition unregister (id : str) (g : SessionRegistry) : SessionRegistry * bool :=
  (delete id g, bool_decide (is_Some (g !! id))).

(** [get_mut] followed by an assignment, and whether the session exists. *)
Definition update (id : str) (f : SessionInfo -> SessionInfo) (g : SessionRegistry)
    : SessionRegistry * bool :=
  match g !! id with
  | Some info => (<[id := f info]> g, true)
  | None => (g, false)
  end.

Definition with_state (st : SessionState) (tty : option str) (i : SessionInfo) : SessionInfo := {|
  si_id := i.(si_id); si_pid := i.(si_pid); si_state := st;
  si_created_at := i.(si_created_at); si_last_seen_at := i.(si_last_seen_at);
  si_last_command_at := i.(si_last_command_at); si_attached_tty := tty;
  si_shell := i.(si_shell); si_cwd := i.(si_cwd); si_label := i.(si_label) |}.

Definition set_state (id : str) (st : SessionState) : SessionRegistry -> SessionRegistry * bool :=
  update id (fun i => with_state st i.(si_attached_tty) i).

(** [if cwd.is_some() { info.cwd = cwd }] *)
Definition if_some {A} (new old : option A) : option A :=
  match new with Some _ => new | None => old end.

Definition heartbeat_info (seen_at : Z) (cwd : option str) (i : SessionInfo) : SessionInfo := {|
  si_id := i.(si_id); si_pid := i.(si_pid);
  si_state := match i.(si_state) with Detached | Failed => Attached | st => st end;
  si_created_at := i.(si_created_at); si_last_seen_at := Some seen_at;
  si_last_command_at := i.(si_last_command_at); si_attached_tty := i.(si_attached_tty);
  si_shell := i.(si_shell); si_cwd := if_some cwd i.(si_cwd); si_label := i.(si_label) |}.

Definition heartbeat (id : str) (seen_at : Z) (cwd : option str)
    : SessionRegistry -> SessionRegistry * bool := update id (heartbeat_info seen_at cwd).

Definition hook_modify (pid : Z) (shell cwd : option str) (at_ : Z) (i : SessionInfo)
    : SessionInfo := {|
  si_id := i.(si_id); si_pid := pid; si_state := Attached;
  si_created_at := i.(si_created_at); si_last_seen_at := Some at_;
  si_last_command_at := Some at_; si_attached_tty := i.(si_attached_tty);
  si_shell := if_some shell i.(si_shell); si_cwd := if_some cwd i.(si_cwd);
  si_label := i.(si_label) |}.

Definition hook_insert (id : str) (pid : Z) (shell cwd : option str) (at_ : Z) : SessionInfo := {|
  si_id := id; si_pid := pid; si_state := Attached; si_created_at := at_;
  si_last_seen_at := Some at_; si_last_command_at := Some at_; si_attached_tty := None;
  si_shell := shell; si_cwd := cwd; si_label := None |}.

Definition upsert_hook_session (id : str) (pid : Z) (shell cwd : option str) (at_ : Z)
    (g : SessionRegistry) : SessionRegistry :=
  match g !! id with
  | Some info => <[id := hook_modify pid shell cwd at_ info]> g
  | None => <[id := hook_insert id pid shell cwd at_]> g
  end.

Definition MAX_LABEL_CHARS : nat := 64.

Definition cap_label (label : option str) : option str :=
  match label with
  | Some ((_ :: _) as s) => Some (mjoin (take MAX_LABEL_CHARS (chars s)))
  | _ => None
  end.

Definition label_info (label : option str) (i : SessionInfo) : SessionInfo := {|
  si_id := i.(si_id); si_pid := i.(si_pid); si_state := i.(si_state);
  si_created_at := i.(si_created_at); si_last_seen_at := i.(si_last_seen_at);
  si_last_command_at := i.(si_last_command_at); si_attached_tty := i.(si_attached_tty);
  si_shell := i.(si_shell); si_cwd := i.(si_cwd); si_label := cap_label label |}.

Definition set_label (id : str) (label : option str) : SessionRegistry -> SessionRegistry * bool :=
  update id (label_info label).

Definition touch_info (seen_at : Z) (i : SessionInfo) : SessionInfo := {|
  si_id := i.(si_id); si_pid := i.(si_pid); si_state := i.(si_state);
  si_created_at := i.(si_created_at); si_last_seen_at := Some seen_at;
  si_last_command_at := i.(si_last_command_at); si_attached_tty := i.(si_attached_tty);
  si_shell := i.(si_shell); si_cwd := i.(si_cwd); si_label := i.(si_label) |}.

Definition touch_seen (id : str) (seen_at : Z) : SessionRegistry -> SessionRegistry * bool :=
  update id (touch_info seen_at).

(** [ord] is the order in which the map iterates over its values. *)
Definition list_sessions (ord : list SessionInfo -> list SessionInfo) (g : SessionRegistry)
    : list SessionInfo := sort_by_key si_created_at (ord (map_to_list g).*2).

Definition len (g : SessionRegistry) : nat := size g.
Definition is_empty (g : SessionRegistry) : bool := bool_decide (size g = 0%nat).

(** [matches!(info.state, Attached | Creating)] *)
Definition is_active (i : SessionInfo) : bool :=
  match i.(si_state) with Attached | Creating => true | _ => false end.

(** [info.last_seen_at.unwrap_or(info.created_at)] *)
Definition last_seen (i : SessionInfo) : Z := default i.(si_created_at) i.(si_last_seen_at).

Definition is_stale (now stale_after : Z) (i : SessionInfo) : bool :=
  is_active i && (stale_after <? now - last_seen i).

Definition detach (i : SessionInfo) : SessionInfo := with_state Detached None i.

Definition mark_stale_active_detached (now stale_after : Z) (g : SessionRegistry)
    : SessionRegistry * nat :=
  ((fun i => if is_stale now stale_after i then detach i else i) <$> g,
   size (filter (fun kv => is_stale now stale_after kv.2 = true) g)).

Definition keeps (now older_than : Z) (i : SessionInfo) : bool :=
  is_active i || (now - last_seen i <=? older_than).

Definition prune_inactive_older_than (now older_than : Z) (g : SessionRegistry)
    : SessionRegistry * nat :=
  let kept := filter (fun kv => keeps now older_than kv.2 = true) g in
  (kept, (size g - size kept)%nat).

(** ** The snapshot file *)

(** The directory is valid UTF-8, as every path received as JSON is. *)
Definition utf8_cwd (i : SessionInfo) : bool := forallb utf8_valid (option_list i.(si_cwd)).

(** The JSON of a list of sessions. Serialisation fails only on a path that is not UTF-8. *)
Class SnapshotJson := {
  encode_sessions : list SessionInfo -> option str;
  decode_sessions : str -> option (list SessionInfo);
  encode_utf8 : forall l, Forall (fun i => utf8_cwd i = true) l -> is_Some (encode_sessions l);
  decode_encode : forall l b, encode_sessions l = Some b ->
    utf8_valid b = true /\ decode_sessions b = Some l;
}.

(** The snapshot and the temporary file next to it. *)
Record SnapFs := { snap_file : option str; snap_tmp : option str }.

(** How far the operating system lets a save go. *)
Inductive snap_io := SnapOk | SnapDirFails | SnapWriteFails (partial : option str) | SnapRenameFails.

Section Snapshot.
Context `{SnapshotJson}.

Definition save_snapshot (io : snap_io) (ord : list SessionInfo -> list SessionInfo)
    (g : SessionRegistry) (fs : SnapFs) : SnapFs * bool :=
  match io, encode_sessions (list_sessions ord g) with
  | SnapDirFails, _ | _, None => (fs, false)
  | SnapWriteFails p, Some _ => ({| snap_file := fs.(snap_file); snap_tmp := p |}, false)
  | SnapRenameFails, Some json => ({| snap_file := fs.(snap_file); snap_tmp := Some json |}, false)
  | SnapOk, Some json => ({| snap_file := Some json; snap_tmp := None |}, true)
  end.

Definition detach_if_active (i : SessionInfo) : SessionInfo := if is_active i then detach i else i.

Definition load_snapshot (now : Z) (fs : SnapFs) : outcome SessionRegistry unit :=
  match fs.(snap_file) with
  | None => Ok ∅
  | Some content =>
      if utf8_valid content then
        match decode_sessions content with
        | Some sessions =>
            let sessions := List.filter (fun i => now - last_seen i <=? SNAPSHOT_MAX_AGE) sessions in
            Ok (from_sessions (detach_if_active <$> sessions))
        | None => Err tt
        end
      else Err tt
  end.
End Snapshot.

(** ** Well-formed registries *)

(** Every session is stored under its own identifier, with a directory JSON can express. *)
Definition wf_info (k : str) (i : SessionInfo) : Prop := si_id i = k /\ utf8_cwd i = true.
Definition wf_registry (g : SessionRegistry) : Prop := map_Forall wf_info g.

Create HintDb registry.

Lemma wf_insert id i g : wf_info id i -> wf_registry g -> wf_registry (<[id := i]> g).
Proof. intros. by apply map_Forall_insert_2. Qed.

Lemma wf_delete id g : wf_registry g -> wf_registry (delete id g).
Proof. apply map_Forall_delete. Qed.

Lemma wf_update id f g :
  (forall i, wf_info id i -> wf_info id (f i)) -> wf_registry g -> wf_registry (update id f g).1.
Proof.
  intros Hf Hg. unfold update. destruct (g !! id) as [i|] eqn:E; [|done]. simpl.
  apply wf_insert; [|done]. by apply Hf, Hg.
Qed.

(** Paths that come with a request are valid or absent. *)
Definition utf8_opt (p : option str) : bool := forallb utf8_valid (option_list p).

Lemma utf8_if_some new old : utf8_opt new = true -> utf8_opt old = true -> utf8_opt (if_some new old) = true.
Proof. by destruct new. Qed.

Lemma wf_with_state st tty k i : wf_info k i -> wf_info k (with_state st tty i).
Proof. done. Qed.

Lemma wf_heartbeat_info t cwd k i : utf8_opt cwd = true -> wf_info k i -> wf_info k (heartbeat_info t cwd i).
Proof. intros Hc [Hk Hu]. split; [done|]. by apply utf8_if_some. Qed.

Lemma wf_upsert id pid shell cwd at_ g :
  utf8_opt cwd = true -> wf_registry g -> wf_registry (upsert_hook_session id pid shell cwd at_ g).
Proof.
  intros Hc Hg. unfold upsert_hook_session. destruct (g !! id) as [i|] eqn:E; (apply wf_insert; [|done]).
  - destruct (Hg _ _ E) as [Hk Hu]. split; [done|]. by apply utf8_if_some.
  - by split.
Qed.

Lemma wf_mark now d g : wf_registry g -> wf_registry (mark_stale_active_detached now d g).1.
Proof.
  intros Hg k i. simpl. rewrite lookup_fmap. destruct (g !! k) as [j|] eqn:E; [|done].
  intros [= <-]. specialize (Hg _ _ E). by destruct (is_stale now d j).
Qed.

Lemma wf_prune now d g : wf_registry g -> wf_registry (prune_inactive_older_than now d g).1.
Proof. intros Hg k i. simpl. intros [Hk _]%map_lookup_filter_Some. by apply Hg. Qed.

#[export] Hint Resolve wf_insert wf_delete wf_update wf_with_state wf_heartbeat_info
  wf_upsert wf_mark wf_prune : registry.

Lemma from_sessions_lookup l k i :
  NoDup (si_id <$> l) -> from_sessions l !! k = Some i <-> i ∈ l /\ si_id i = k.
Proof.
  unfold from_sessions. induction l as [|j l IH] using rev_ind; intros Hn.
  { simpl. rewrite lookup_empty. set_solver. }
  rewrite foldl_app. simpl. rewrite fmap_app, NoDup_app in Hn. destruct Hn as (Hn & Hd & _).
  rewrite lookup_insert_Some, (IH Hn), elem_of_app, list_elem_of_singleton. split.
  - intros [[<- <-]|(Hne & Hin & <-)]; auto.
  - intros [[Hin| ->] <-]; [right|by left]. split; [|done].
    intros E. apply (Hd (si_id i)); [by apply list_elem_of_fmap_2|]. rewrite <- E. set_solver.
Qed.

(** Any order of iteration shows each session once. *)
Definition iteration (ord : list SessionInfo -> list SessionInfo) : Prop := forall l, ord l ≡ₚ l.

Lemma list_sessions_Permutation ord g : iteration ord -> list_sessions ord g ≡ₚ (map_to_list g).*2.
Proof. intros Ho. etrans; [apply sort_by_Permutation|apply Ho]. Qed.

Lemma elem_of_list_sessions ord g i :
  iteration ord -> i ∈ list_sessions ord g <-> exists k, g !! k = Some i.
Proof.
  intros Ho. rewrite list_sessions_Permutation by done. rewrite list_elem_of_fmap. split.
  - intros ([k j] & -> & Hin%elem_of_map_to_list). by exists k.
  - intros [k Hk]. exists (k, i). split; [done|]. by apply elem_of_map_to_list.
Qed.

Lemma values_ids g : wf_registry g -> si_id <$> (map_to_list g).*2 = (map_to_list g).*1.
Proof.
  intros Hg. rewrite <- list_fmap_compose. apply list_fmap_ext. intros n [k i] Hn. simpl.
  apply (Hg k). apply elem_of_map_to_list. by eapply list_elem_of_lookup_2.
Qed.

Lemma list_sessions_NoDup ord g :
  iteration ord -> wf_registry g -> NoDup (si_id <$> list_sessions ord g).
Proof.
  intros Ho Hg. rewrite list_sessions_Permutation by done. rewrite values_ids by done.
  apply NoDup_fst_map_to_list.
Qed.

(** What a restart at [now] is meant to see: sessions seen in the last day, none of them
    attached. *)
Definition restart_view (now : Z) (g : SessionRegistry) : SessionRegistry :=
  detach_if_active <$> filter (fun kv => now - last_seen kv.2 <= SNAPSHOT_MAX_AGE) g.

Lemma detach_if_active_id i : si_id (detach_if_active i) = si_id i.
Proof. unfold detach_if_active. by destruct (is_active i). Qed.

Lemma restored_lookup now l k i :
  NoDup (si_id <$> l) ->
  from_sessions (detach_if_active <$> List.filter (fun i => now - last_seen i <=? SNAPSHOT_MAX_AGE) l)
    !! k = Some i <->
  exists j, j ∈ l /\ si_id j = k /\ now - last_seen j <= SNAPSHOT_MAX_AGE /\ i = detach_if_active j.
Proof.
  intros Hn. rewrite from_sessions_lookup.
  - rewrite list_elem_of_fmap. split.
    + intros [(j & -> & Hj) Hk]. rewrite detach_if_active_id in Hk.
      apply list_elem_of_In, List.filter_In in Hj as [Hj Ha%Z.leb_le]. apply list_elem_of_In in Hj. by exists j.
    + intros (j & Hj & Hk & Ha & ->). rewrite detach_if_active_id. split; [|done]. exists j. split; [done|].
      apply list_elem_of_In, List.filter_In. split; [by apply list_elem_of_In|lia].
  - rewrite <- list_fmap_compose.
    assert (Hf : forall m : list SessionInfo, compose si_id detach_if_active <$> m = si_id <$> m)
      by (intros m; apply list_fmap_ext; intros ? ? _; apply detach_if_active_id).
    rewrite Hf. clear Hf. induction l as [|x l IH]; simpl; [constructor|].
    apply NoDup_cons in Hn as [Hx Hn]. destruct (now - last_seen x <=? SNAPSHOT_MAX_AGE); [|by apply IH].
    simpl. constructor; [|by apply IH]. intros Hin. apply Hx. apply list_elem_of_fmap in Hin as (y & -> & Hy).
    apply list_elem_of_In, List.filter_In in Hy as [Hy _]. by apply list_elem_of_fmap_2, list_elem_of_In.
Qed.

Section SnapshotTheorems.
Context `{SnapshotJson}.

(** A saved snapshot is read back as the sessions it was taken from. *)
Lemma load_save ord g fs fs' now :
  iteration ord -> wf_registry g -> (save_snapshot SnapOk ord g fs).1 = fs' ->
  load_snapshot now fs' = Ok (restart_view now g).
Proof.
  intros Ho Hg. unfold save_snapshot.
  destruct (encode_utf8 (list_sessions ord g)) as [b E].
  { apply Forall_forall. intros i [k Hk]%elem_of_list_sessions; [|done]. by apply (Hg k). }
  rewrite E. intros <-. unfold load_snapshot. simpl. destruct (decode_encode _ _ E) as [-> ->]. f_equal.
  apply map_eq. intros k. apply option_eq. intros i. unfold restart_view.
  rewrite restored_lookup by (by apply list_sessions_NoDup). rewrite lookup_fmap_Some. split.
  - intros (j & Hj & Hk & Ha & ->). exists j. split; [done|]. apply map_lookup_filter_Some.
    apply elem_of_list_sessions in Hj as [k' Hk']; [|done]. destruct (Hg _ _ Hk') as [E' _]. by rewrite <- Hk, E'.
  - intros (j & <- & [Hj Ha]%map_lookup_filter_Some). exists j. split; [|split; [by apply Hg|done]].
    apply elem_of_list_sessions; [done|]. by exists k.
Qed.

(** A save that fails leaves the last snapshot in place. *)
Lemma save_fails_keeps io ord g fs fs' :
  save_snapshot io ord g fs = (fs', false) -> snap_file fs' = snap_file fs.
Proof. unfold save_snapshot. destruct io, (encode_sessions (list_sessions ord g)); by intros [= <-]. Qed.
End SnapshotTheorems.
