(* ===== verification/Ipc.v ===== *)
(** * Requests and responses of the two daemons (aic-common/src/ipc.rs)

    The message types of the control and session sockets, and the connection handler that
    both servers share: read one length-prefixed JSON request, answer it with one frame. *)

From S2P Require Import Prelude RustStr Bytes Records Attach Registry.

(** ** Messages *)

Definition MAX_FRAME_PAYLOAD_BYTES : Z := 16 * 1024 * 1024.

Record AgentEvent := {
  ae_kind : str;
  ae_summary : str;
  ae_severity : str;
  ae_attrs : gmap str str;
  ae_ts : Z;
}.

Inductive IpcRequest :=
| GetLastCommand
| GetRecentLines (count : Z)
| GetRecentCommands (count : Z)
| FindRecordByPrefix (prefix : str)
| TagSession (id : str) (label : option str)
| RegisterRecord (record : CommandRecord)
| RegisterRecordForSession (session_id : str) (record : CommandRecord)
| GetLastCommandForSession (id : str)
| GetRecentCommandsForSession (id : str) (count : Z)
| GetRecentLinesForSession (id : str) (count : Z)
| FindRecordByPrefixForSession (id prefix : str)
| Ping
| GetMetrics
| GetVersion
| ListSessions
| PruneSessions (older_than_secs : Z)
| Shutdown
| RegisterSession (info : SessionInfo)
| UnregisterSession (id : str)
| HeartbeatSession (id : str) (seen_at : Z) (cwd : option str)
| StopSession (id : str)
| CommandStarted (session_id command_id command : str) (cwd shell : option str) (pid started_at : Z)
| CommandFinished (session_id command_id : str) (exit_code finished_at duration_ms : Z)
| AgentEventRequest (ev : AgentEvent)
| GetExporterStatus
| FlushSpool
| PushLogLines (lines : list LogLine)
| GetSelfUpdateStatus
| GetRecentProcessChanges (count : Z).

Record ProcessChange := {
  pc_op : str;
  pc_pid : Z;
  pc_ppid : Z;
  pc_start_time : Z;
  pc_name : str;
  pc_uid : option Z;
  pc_container_id : option str;
  pc_observed_at : Z;
}.

Record SpoolFlushResult := { sf_drained : Z; sf_rejected : Z; sf_remaining : Z }.

Record ExporterFailure := { ef_secs_ago : Z; ef_url : str; ef_permanent : bool; ef_message : str }.

Record ExporterStatus := {
  es_enabled : bool;
  es_agent_enabled : option bool;
  es_agent_configured : option bool;
  es_endpoint : str;
  es_push_ok_total : Z;
  es_push_fail_total : Z;
  es_last_ok_secs_ago : option Z;
  es_spool_batches : Z;
  es_spool_dropped : Z;
  es_spool_dropped_quota : Z;
  es_spool_dropped_age : Z;
  es_spool_dropped_rejected : Z;
  es_collector_dropped : Z;
  es_last_failure : option ExporterFailure;
}.

(** [ExporterStatus::default()] *)
Definition default_exporter_status : ExporterStatus := {|
  es_enabled := false; es_agent_enabled := None; es_agent_configured := None; es_endpoint := [];
  es_push_ok_total := 0; es_push_fail_total := 0; es_last_ok_secs_ago := None;
  es_spool_batches := 0; es_spool_dropped := 0; es_spool_dropped_quota := 0;
  es_spool_dropped_age := 0; es_spool_dropped_rejected := 0; es_collector_dropped := 0;
  es_last_failure := None |}.

Record SelfUpdateStatus := {
  su_configured : bool;
  su_live : bool;
  su_interval_secs : Z;
  su_last_check_secs_ago : option Z;
  su_desired_version : option str;
  su_last_outcome : option str;
  su_current_version : str;
}.

Record DaemonVersion := { dv_version : str; dv_commit : str; dv_build_info : str }.

Record MetricsSnapshot := {
  ms_uptime_secs : Z;
  ms_pid : Z;
  ms_ipc_request_count : Z;
  ms_rb_used : Z;
  ms_rb_capacity : Z;
  ms_last_command_secs_ago : option Z;
  ms_central_store_push_total : Z;
  ms_attach_connections : Z;
  ms_attach_open_total : Z;
  ms_dropped_bytes : Z;
  ms_attach_reconnect_total : Z;
}.

(** The reasons of [IpcResponse::Error]; the message is their rendering. *)
Inductive error_reason :=
| ExporterOff
| FlushNotDelivered
| FlushUnknown
| SessionNotFound (id : str)
| NoHookRecord (id : str)
| HookNotAllowed
| NeedsSessionRouting
| NotSessionDaemon
| UnknownRequest
| InvalidPid (pid : Z)
| NotAicSession (pid : Z)
| KillFailed (pid : Z)
| NoStoredCommand
| CentralStoreRouting
| ControlPlaneRequest.

Inductive IpcResponse :=
| CommandData (record : CommandRecord)
| CommandRecords (records : list CommandRecord)
| Lines (lines : list str)
| Pong
| Metrics (snapshot : MetricsSnapshot)
| Sessions (sessions : list SessionInfo)
| PrunedSessions (count : nat)
| Version (version : DaemonVersion)
| SelfUpdateStatusResponse (status : SelfUpdateStatus)
| ExporterStatusResponse (status : ExporterStatus)
| SpoolFlushed (result : SpoolFlushResult)
| ProcessChanges (changes : list ProcessChange)
| IpcError (reason : error_reason).

(** [Vec::with_capacity(n)] of elements of [size] bytes: more than [isize::MAX] bytes panic;
    what is below is granted. *)
Definition with_capacity_ok (n size : Z) : bool := n * size <=? 9223372036854775807.

(** ** One connection *)

Class IpcJson := {
  encode_request : IpcRequest -> str;
  decode_request : str -> option IpcRequest;
  encode_response : IpcResponse -> option str;
  decode_response : str -> option IpcResponse;
  decode_encode_request : forall r, decode_request (encode_request r) = Some r;
  decode_encode_response : forall r b, encode_response r = Some b -> decode_response b = Some r;
}.

Inductive client_result :=
| Replied (bytes : str)
| Refused
| TaskPanicked.

Section Connection.
Context `{IpcJson} {S : Type} (process : IpcRequest -> S -> S * option IpcResponse).

(** [handle_client] of both servers: [None] of [process] is a panic, which ends the task and
    with it the connection. *)
Definition handle_client (input : str) (st : S) : S * client_result :=
  match slice 0 4 input with
  | None => (st, Refused)
  | Some len_buf =>
      let payload_len := of_be len_buf in
      if MAX_FRAME_PAYLOAD_BYTES <? payload_len then (st, Refused)
      else match slice 4 (4 + payload_len) input with
           | None => (st, Refused)
           | Some payload =>
               let '(st, answer) :=
                 match decode_request payload with
                 | Some request => process request st
                 | None => (st, Some (IpcError UnknownRequest))
                 end in
               match answer with
               | None => (st, TaskPanicked)
               | Some response =>
                   match encode_response response with
                   | Some json => (st, Replied (encode_frame json))
                   | None => (st, Refused)
                   end
               end
           end
  end.

(** The client's side: one request frame, one response frame. *)
Definition decode_reply (bytes : str) : option IpcResponse :=
  match decode_frame bytes with
  | Ok (_, payload) => decode_response payload
  | _ => None
  end.

Lemma handle_client_frame req st rest :
  zlen (encode_request req) <= MAX_FRAME_PAYLOAD_BYTES ->
  handle_client (encode_frame (encode_request req) ++ rest) st =
    let '(st', answer) := process req st in
    match answer with
    | None => (st', TaskPanicked)
    | Some response =>
        match encode_response response with
        | Some json => (st', Replied (encode_frame json))
        | None => (st', Refused)
        end
    end.
Proof.
  intros Hlen. pose proof (zlen_nonneg (encode_request req)) as Hpos.
  unfold handle_client, encode_frame, be32. rewrite <- !app_assoc.
  unfold MAX_FRAME_PAYLOAD_BYTES in *. rewrite Z.mod_small by lia.
  assert (Hs : slice 0 4 (be_split 4 (zlen (encode_request req)) ++ encode_request req ++ rest)
    = Some (be_split 4 (zlen (encode_request req)))) by piece.
  rewrite Hs, of_be_split by (simpl; lia). rewrite (proj2 (Z.ltb_ge _ _)) by lia.
  assert (Hp : slice 4 (4 + zlen (encode_request req))
    (be_split 4 (zlen (encode_request req)) ++ encode_request req ++ rest) = Some (encode_request req)) by piece.
  rewrite Hp, decode_encode_request. done.
Qed.

(** A request within the limit is processed once, and an answer that can be encoded reaches
    the client. *)
Lemma request_answered req st st' r json rest :
  zlen (encode_request req) <= MAX_FRAME_PAYLOAD_BYTES ->
  process req st = (st', Some r) -> encode_response r = Some json -> zlen json <= u32_max ->
  exists bytes, handle_client (encode_frame (encode_request req) ++ rest) st = (st', Replied bytes)
    /\ decode_reply bytes = Some r.
Proof.
  intros Hlen Hp Hj Hs. exists (encode_frame json). rewrite handle_client_frame by done. rewrite Hp, Hj.
  split; [done|]. unfold decode_reply. rewrite <- (app_nil_r (encode_frame json)).
  rewrite decode_encode_frame by done. by apply decode_encode_response.
Qed.
End Connection.
