(* ===== verification/Health.v ===== *)
(** * Answers of the collector and the exporters' health

    [aic-server/src/otlp_exporter/mod.rs]: how the answer to a push is classified.
    [logs/mod.rs] and [health.rs]: the counters of dropped lines and of pushes that all
    exporter tasks share, and the status read from them. The HTTP client, the text of a
    status code and the decoder of the collector's partial refusals are parameters.
    Counters are unbounded: they count events of one process. *)

From S2P Require Import Prelude RustStr Spool Registry Ipc.

(** ** Pushing *)

(** What the HTTP client returns: an error with its causes, or a status and the body when it
    could be read. *)
Inductive http_result := Transport (causes : str) | Response (status : Z) (body : option str).

Definition is_success (status : Z) : bool := (200 <=? status) && (status <? 300).
Definition is_client_error (status : Z) : bool := (400 <=? status) && (status <? 500).
Definition TOO_MANY_REQUESTS : Z := 429.
Definition REQUEST_TIMEOUT : Z := 408.

Definition reason (e : PushError) : str := match e with Permanent m | Transient m => m end.

Section Push.
Variable status_text : Z -> str.
Variable decode_logs_partial_reject : str -> Z.

Definition classify (status : Z) : PushError :=
  let msg := lit "collector가 " ++ status_text status ++ lit " 응답" in
  let retryable_4xx := (status =? TOO_MANY_REQUESTS) || (status =? REQUEST_TIMEOUT) in
  if is_client_error status && negb retryable_4xx then Permanent msg else Transient msg.

(** The number of records the collector refused in a successful push, or the error. *)
Definition push_logs (r : http_result) : Z + PushError :=
  match r with
  | Transport causes => inr (Transient causes)
  | Response status body =>
      if negb (is_success status) then inr (classify status)
      else match body with
           | None => inl 0
           | Some b => inl (decode_logs_partial_reject b)
           end
  end.

(** Only an answer that repeats on every retry is permanent. *)
Lemma push_permanent r e :
  push_logs r = inr e ->
  is_permanent e = true <->
  exists status body, r = Response status body /\ 400 <= status < 500 /\ status <> 408 /\ status <> 429.
Proof.
  unfold push_logs. destruct r as [c|s b].
  - intros [= <-]. split; [done|]. by intros (?&?&?&_).
  - destruct (is_success s) eqn:Es; [by destruct b|]. cbn [negb]. intros [= <-]. unfold classify.
    destruct (is_client_error s && _) eqn:E; cbn [is_permanent]; split; try done.
    + intros _. exists s, b. unfold is_client_error, TOO_MANY_REQUESTS, REQUEST_TIMEOUT in E. split; [done|]. lia.
    + intros (?&?&[= <- <-]&H). unfold is_client_error, TOO_MANY_REQUESTS, REQUEST_TIMEOUT in E. lia.
Qed.
End Push.

(** [format!("{}/v1/logs", endpoint.trim_end_matches('/'))] *)
Definition with_path (path endpoint : str) : str := trim_end_byte x2f endpoint ++ path.
Definition logs_url : str -> str := with_path (lit "/v1/logs").
Definition metrics_url : str -> str := with_path (lit "/v1/metrics").

(** ** Dropped lines *)

Record DropCounters := {
  by_severity : Z;
  by_rate_limit : Z;
  by_channel_full : Z;
  by_spool_quota : Z;
  by_rejected : Z;
  by_collector_dropped : Z;
}.

Definition new_counters : DropCounters :=
  {| by_severity := 0; by_rate_limit := 0; by_channel_full := 0; by_spool_quota := 0;
     by_rejected := 0; by_collector_dropped := 0 |}.

Definition add_severity (c : DropCounters) : DropCounters :=
  {| by_severity := by_severity c + 1; by_rate_limit := by_rate_limit c; by_channel_full := by_channel_full c;
     by_spool_quota := by_spool_quota c; by_rejected := by_rejected c;
     by_collector_dropped := by_collector_dropped c |}.
Definition add_rate_limit (c : DropCounters) : DropCounters :=
  {| by_severity := by_severity c; by_rate_limit := by_rate_limit c + 1; by_channel_full := by_channel_full c;
     by_spool_quota := by_spool_quota c; by_rejected := by_rejected c;
     by_collector_dropped := by_collector_dropped c |}.
Definition add_rejected (n : Z) (c : DropCounters) : DropCounters :=
  {| by_severity := by_severity c; by_rate_limit := by_rate_limit c; by_channel_full := by_channel_full c;
     by_spool_quota := by_spool_quota c; by_rejected := by_rejected c + n;
     by_collector_dropped := by_collector_dropped c |}.

Definition drop_snapshot (c : DropCounters) : list (str * Z) :=
  [(lit "severity", by_severity c); (lit "rate_limit", by_rate_limit c);
   (lit "channel_full", by_channel_full c); (lit "spool_quota", by_spool_quota c);
   (lit "rejected", by_rejected c); (lit "collector_dropped", by_collector_dropped c)].

(** ** Health *)

Record StoredFailure := { f_unix_secs : Z; f_url : str; f_permanent : bool; f_message : str }.

Record ExporterHealth := {
  push_ok_total : Z;
  push_fail_total : Z;
  last_ok_unix : Z;
  agent_live : bool;
  agent_configured : bool;
  endpoint : str;
  last_failure : option StoredFailure;
}.

Definition new_health (endpoint : str) : ExporterHealth :=
  {| push_ok_total := 0; push_fail_total := 0; last_ok_unix := 0; agent_live := false;
     agent_configured := false; endpoint := endpoint; last_failure := None |}.

Definition set_agent_live (live : bool) (h : ExporterHealth) : ExporterHealth :=
  {| push_ok_total := push_ok_total h; push_fail_total := push_fail_total h; last_ok_unix := last_ok_unix h;
     agent_live := live; agent_configured := agent_configured h; endpoint := endpoint h;
     last_failure := last_failure h |}.
Definition set_agent_configured (configured : bool) (h : ExporterHealth) : ExporterHealth :=
  {| push_ok_total := push_ok_total h; push_fail_total := push_fail_total h; last_ok_unix := last_ok_unix h;
     agent_live := agent_live h; agent_configured := configured; endpoint := endpoint h;
     last_failure := last_failure h |}.

Definition record_ok (now : Z) (h : ExporterHealth) : ExporterHealth :=
  {| push_ok_total := push_ok_total h + 1; push_fail_total := push_fail_total h; last_ok_unix := now;
     agent_live := agent_live h; agent_configured := agent_configured h; endpoint := endpoint h;
     last_failure := last_failure h |}.

Definition stored (now : Z) (url : str) (e : PushError) : StoredFailure :=
  {| f_unix_secs := now; f_url := url; f_permanent := is_permanent e; f_message := reason e |}.

Definition record_fail (now : Z) (url : str) (e : PushError) (h : ExporterHealth) : ExporterHealth :=
  {| push_ok_total := push_ok_total h; push_fail_total := push_fail_total h + 1; last_ok_unix := last_ok_unix h;
     agent_live := agent_live h; agent_configured := agent_configured h; endpoint := endpoint h;
     last_failure := Some (stored now url e) |}.
Definition record_rejection (now : Z) (url : str) (e : PushError) (h : ExporterHealth) : ExporterHealth :=
  {| push_ok_total := push_ok_total h; push_fail_total := push_fail_total h; last_ok_unix := last_ok_unix h;
     agent_live := agent_live h; agent_configured := agent_configured h; endpoint := endpoint h;
     last_failure := Some (stored now url e) |}.
Definition record_fail_without_cause (h : ExporterHealth) : ExporterHealth :=
  {| push_ok_total := push_ok_total h; push_fail_total := push_fail_total h + 1; last_ok_unix := last_ok_unix h;
     agent_live := agent_live h; agent_configured := agent_configured h; endpoint := endpoint h;
     last_failure := last_failure h |}.

(** [AgentLiveGuard::drop] *)
Definition guard_drop (h : ExporterHealth) : ExporterHealth := set_agent_live false h.

(** [drops] is what [attach_drop_counters] connected, if anything. *)
Definition health_snapshot (env : FsEnv) (now : Z) (sp : Spool) (drops : option DropCounters)
    (h : ExporterHealth) : ExporterStatus :=
  {| es_enabled := true;
     es_agent_enabled := Some (agent_live h);
     es_agent_configured := Some (agent_configured h);
     es_endpoint := endpoint h;
     es_push_ok_total := push_ok_total h;
     es_push_fail_total := push_fail_total h;
     es_last_ok_secs_ago := if 0 <? last_ok_unix h then Some (sat_sub now (last_ok_unix h)) else None;
     es_spool_batches := Z.of_nat (batch_count env sp);
     es_spool_dropped := dropped_count Spool.Metrics sp + dropped_count Spool.Logs sp + dropped_count Spool.AppLogs sp;
     es_spool_dropped_quota := dropped_by_reason Quota sp;
     es_spool_dropped_age := dropped_by_reason Age sp;
     es_spool_dropped_rejected := dropped_by_reason Rejected sp;
     es_collector_dropped := from_option by_collector_dropped 0 drops;
     es_last_failure :=
       (fun f => {| ef_secs_ago := sat_sub now (f_unix_secs f); ef_url := f_url f;
                    ef_permanent := f_permanent f; ef_message := f_message f |}) <$> last_failure h |}.

(** The reported total of lost batches is the sum of its reasons. *)
Lemma dropped_total env now sp drops h :
  let s := health_snapshot env now sp drops h in
  es_spool_dropped s = es_spool_dropped_quota s + es_spool_dropped_age s + es_spool_dropped_rejected s.
Proof. cbn. unfold dropped_count, dropped_by_reason. lia. Qed.
