(* ===== verification/LogExport.v ===== *)
(** * The log exporter

    [aic-server/src/otlp_exporter/logs/exporter.rs]: lines from a channel pass the gate, wait
    in a buffer until it is full or old enough, and leave as encoded batches that are pushed,
    or spooled when the push cannot be made or fails for now. Protobuf encoding is a
    parameter; the clock, the collector, the file system and the random draws of the n-th
    send are an oracle [net]. The calls made are kept in a list. *)

From S2P Require Import Prelude RustStr Bytes Records Spool Float64 Backoff LogGate Health.

(** The settings of [LogsExporterConfig] that do not change. *)
Record LogsExporterConfig := {
  batch_max_lines : nat;
  batch_max_bytes : Z;
  batch_max_ms : Z;
  logs_cfg : AicdLogsConfig;
}.

(** What the outside answers during one [send_one]. *)
Record send_env := {
  s_ready : Z;                  (** the clock when the backoff is asked *)
  s_answer : http_result;
  s_after : Z;                  (** the clock after the push *)
  s_unix : Z;                   (** Unix seconds *)
  s_draw : Z -> Z;
  s_io : append_io;
  s_fs : FsEnv;
}.

(** One [send_one]: the body and number of lines, the answer if a push was made, and the
    result of the spool if the batch went there. *)
Record send_record := {
  sr_body : str;
  sr_lines : nat;
  sr_answer : option (Z + PushError);
  sr_spooled : option bool;
}.

Record LogsFlusher := {
  f_spool : Spool;
  f_health : ExporterHealth;
  f_drops : DropCounters;
  f_backoff : Backoff;
  f_buffer : list LogLine;
  f_buffered_bytes : Z;
  f_deadline : option Z;
  f_limiter : Limiter;
  f_sends : list send_record;
}.

Definition line_bytes (line : LogLine) : Z :=
  zlen (ll_message line) + zlen (ll_service line) + zlen (ll_source line) + zlen (ll_record_id line) +
  map_fold (fun k v n => zlen k + zlen v + n) 0 (ll_attrs line).

Definition with_drops (d : DropCounters) (f : LogsFlusher) : LogsFlusher :=
  {| f_spool := f_spool f; f_health := f_health f; f_drops := d; f_backoff := f_backoff f;
     f_buffer := f_buffer f; f_buffered_bytes := f_buffered_bytes f; f_deadline := f_deadline f;
     f_limiter := f_limiter f; f_sends := f_sends f |}.
Definition with_limiter (l : Limiter) (f : LogsFlusher) : LogsFlusher :=
  {| f_spool := f_spool f; f_health := f_health f; f_drops := f_drops f; f_backoff := f_backoff f;
     f_buffer := f_buffer f; f_buffered_bytes := f_buffered_bytes f; f_deadline := f_deadline f;
     f_limiter := l; f_sends := f_sends f |}.
Definition with_buffer (b : list LogLine) (n : Z) (dl : option Z) (f : LogsFlusher) : LogsFlusher :=
  {| f_spool := f_spool f; f_health := f_health f; f_drops := f_drops f; f_backoff := f_backoff f;
     f_buffer := b; f_buffered_bytes := n; f_deadline := dl;
     f_limiter := f_limiter f; f_sends := f_sends f |}.
Definition sent_with (sp : Spool) (h : ExporterHealth) (d : DropCounters) (b : Backoff) (r : send_record)
    (f : LogsFlusher) : LogsFlusher :=
  {| f_spool := sp; f_health := h; f_drops := d; f_backoff := b;
     f_buffer := f_buffer f; f_buffered_bytes := f_buffered_bytes f; f_deadline := f_deadline f;
     f_limiter := f_limiter f; f_sends := f_sends f ++ [r] |}.

(** What became of the lines of a send. *)
Inductive fate := Delivered | Refused | Kept | Lost.

#[export] Instance fate_eq_dec : EqDecision fate.
Proof. solve_decision. Defined.

Definition fate_of (r : send_record) : fate :=
  match sr_spooled r with
  | Some true => Kept
  | Some false => Lost
  | None => match sr_answer r with Some (inl _) => Delivered | _ => Refused end
  end.

Definition is_empty {A} (l : list A) : bool := match l with [] => true | _ => false end.

Section Exporter.
Variable cfg : LogsExporterConfig.
Variable url : str.
Variable encode : list LogLine -> str.
Variable status_text : Z -> str.
Variable decode_logs_partial_reject : str -> Z.
Variable net : nat -> send_env.

Definition gate (ord : list (str * Bucket) -> list (str * Bucket)) (now : Z) (line : LogLine) (f : LogsFlusher)
    : bool * LogsFlusher :=
  if negb (passes_severity line (logs_cfg cfg)) then (false, with_drops (add_severity (f_drops f)) f)
  else
    let '(ok, l) := try_acquire ord now (ll_service line) (f_limiter f) in
    let f := with_limiter l f in
    if negb ok then (false, with_drops (add_rate_limit (f_drops f)) f) else (true, f).

(** The loop of [encode_within_limit]; [None] when the fuel is used up. *)
Fixpoint split_loop (fuel : nat) (stack : list (list LogLine)) : option (list (str * nat)) :=
  match fuel with
  | O => None
  | S fuel =>
      match stack with
      | [] => Some []
      | chunk :: stack =>
          if is_empty chunk then split_loop fuel stack
          else
            let body := encode chunk in
            if (zlen body <=? batch_max_bytes cfg) || (length chunk =? 1)%nat then
              cons (body, length chunk) <$> split_loop fuel stack
            else
              let mid := (length chunk / 2)%nat in
              split_loop fuel (take mid chunk :: drop mid chunk :: stack)
      end
  end.

(** Splitting [n] lines down to single ones takes less than [2 * n] turns. *)
Definition encode_within_limit (batch : list LogLine) : list (str * nat) :=
  default [] (split_loop (2 * length batch + 2) [batch]).

Definition send_one (body : str) (batch_lines : nat) (f : LogsFlusher) : LogsFlusher :=
  let e := net (length (f_sends f)) in
  let spooled answer :=
    let '(ok, sp) := append (s_fs e) (s_io e) (s_unix e) AppLogs body (f_spool f) in
    (sp, {| sr_body := body; sr_lines := batch_lines; sr_answer := answer; sr_spooled := Some ok |}) in
  let sent answer := {| sr_body := body; sr_lines := batch_lines; sr_answer := Some answer; sr_spooled := None |} in
  if negb (ready (s_ready e) (f_backoff f)) then
    let '(sp, r) := spooled None in
    sent_with sp (f_health f) (f_drops f) (f_backoff f) r f
  else
    match push_logs status_text decode_logs_partial_reject (s_answer e) with
    | inl n =>
        sent_with (f_spool f) (record_ok (s_unix e) (f_health f)) (f_drops f) (on_success (s_after e) (f_backoff f))
          (sent (inl n)) f
    | inr err =>
        if is_permanent err then
          sent_with (record_rejected_batch AppLogs (f_spool f))
            (record_rejection (s_unix e) url err (record_ok (s_unix e) (f_health f)))
            (add_rejected (Z.of_nat batch_lines) (f_drops f)) (f_backoff f) (sent (inr err)) f
        else
          let '(sp, r) := spooled (Some (inr err)) in
          sent_with sp (record_fail (s_unix e) url err (f_health f)) (f_drops f)
            (on_failure (s_draw e) (s_after e) (f_backoff f)) r f
    end.

Definition flush (f : LogsFlusher) : LogsFlusher :=
  if is_empty (f_buffer f) then f
  else foldl (fun f b => send_one b.1 b.2 f) (with_buffer [] 0 None f) (encode_within_limit (f_buffer f)).

Definition add_line (now : Z) (line : LogLine) (f : LogsFlusher) : LogsFlusher :=
  let bytes := line_bytes line in
  let f := if negb (is_empty (f_buffer f)) && (batch_max_bytes cfg <? f_buffered_bytes f + bytes)
           then flush f else f in
  let deadline := if is_empty (f_buffer f) then Some (now + batch_max_ms cfg * MS) else f_deadline f in
  with_buffer (f_buffer f ++ [line]) (f_buffered_bytes f + bytes) deadline f.

Definition should_flush_on_size (f : LogsFlusher) : bool :=
  (batch_max_lines cfg <=? length (f_buffer f))%nat || (batch_max_bytes cfg <=? f_buffered_bytes f).

(** ** The task *)

(** What wakes [serve_logs]: a line with the clocks and map order of its handling, a closed
    channel, the deadline, a change of the shutdown flag. *)
Inductive event :=
| Recv (ord : list (str * Bucket) -> list (str * Bucket)) (gate_now now : Z) (line : LogLine)
| Closed
| DeadlineReached
| Changed (stop : bool).

Definition on_recv (ord : list (str * Bucket) -> list (str * Bucket)) (gate_now now : Z) (line : LogLine)
    (f : LogsFlusher) : LogsFlusher :=
  let '(ok, f) := gate ord gate_now line f in
  if ok then
    let f := add_line now line f in
    if should_flush_on_size f then flush f else f
  else f.

(** The loop: each turn sees the shutdown flag and then an event. The second component is
    what was left in the queue when the task ended; [None] while it still runs. *)
Fixpoint serve_logs (evs : list (bool * event)) (f : LogsFlusher) : LogsFlusher * option (list (bool * event)) :=
  match evs with
  | [] => (f, None)
  | (shutdown, ev) :: rest =>
      if shutdown then (flush f, Some evs)
      else match ev with
           | Recv ord gate_now now line => serve_logs rest (on_recv ord gate_now now line f)
           | DeadlineReached => serve_logs rest (flush f)
           | Changed false => serve_logs rest f
           | Closed | Changed true => (flush f, Some rest)
           end
  end.

Definition new_flusher (now : Z) (sp : Spool) (h : ExporterHealth) (d : DropCounters) : LogsFlusher :=
  {| f_spool := sp; f_health := h; f_drops := d; f_backoff := new_backoff now; f_buffer := [];
     f_buffered_bytes := 0; f_deadline := None;
     f_limiter := new_limiter (max_lines_per_sec (logs_cfg cfg)) (max_services (logs_cfg cfg));
     f_sends := [] |}.
End Exporter.
