(* ===== verification/LogExportSpec.v ===== *)
(** * The log exporter: no line is lost from sight

    Splitting a batch ends and keeps its lines in order; every line that passed the gate is
    in exactly one send or still in the buffer, in order; the counters account for all
    others; pushes are rare while the collector is down. *)

From S2P Require Import Prelude RustStr Bytes Records Spool Float64 Backoff LogGate Health LogExport.

Section Exporter.
Variable cfg : LogsExporterConfig.
Variable url : str.
Variable encode : list LogLine -> str.
Variable status_text : Z -> str.
Variable decode_logs_partial_reject : str -> Z.
Variable net : nat -> send_env.

Notation send_one := (send_one url status_text decode_logs_partial_reject net).
Notation flush := (flush cfg url encode status_text decode_logs_partial_reject net).
Notation on_recv := (on_recv cfg url encode status_text decode_logs_partial_reject net).
Notation serve_logs := (serve_logs cfg url encode status_text decode_logs_partial_reject net).

(** ** Splitting *)

(** A chunk as it is sent, and what a chunk may be. *)
Definition encoded (c : list LogLine) : str * nat := (encode c, length c).
Definition fits (c : list LogLine) : Prop :=
  c <> [] /\ (zlen (encode c) <= batch_max_bytes cfg \/ length c = 1%nat).

(** Turns that a stack needs at most. *)
Definition turns (stack : list (list LogLine)) : nat :=
  foldr (fun c n => (Nat.max 1 (2 * length c - 1) + n)%nat) 0%nat stack.

Lemma split_loop_spec fuel : forall stack, (turns stack < fuel)%nat ->
  exists chunks, split_loop cfg encode fuel stack = Some (encoded <$> chunks) /\
    concat chunks = concat stack /\ Forall fits chunks.
Proof.
  induction fuel as [|fuel IH]; intros stack Hf; [lia|].
  destruct stack as [|c stack]; cbn [split_loop]; [by exists []|]. cbn [turns foldr] in Hf.
  change (foldr _ _ stack) with (turns stack) in Hf. destruct c as [|x c]; cbn [is_empty].
  - destruct (IH stack) as (chunks & -> & Hc & Hfit); [simpl in Hf; lia|]. by exists chunks.
  - set (chunk := x :: c) in *. destruct ((zlen (encode chunk) <=? batch_max_bytes cfg) || _) eqn:E.
    + destruct (IH stack ltac:(lia)) as (chunks & -> & Hc & Hfit). exists (chunk :: chunks).
      split; [done|]. cbn [concat]. rewrite Hc. split; [done|]. constructor; [|done]. split; [done|]. bool_prop. lia.
    + bool_prop. assert (Hl : (2 <= length chunk)%nat) by (simpl in *; lia).
      assert (Hm : (1 <= length chunk / 2 < length chunk)%nat).
      { split; [apply Nat.div_le_lower_bound; lia|apply Nat.div_lt; lia]. }
      set (mid := (length chunk / 2)%nat) in *.
      destruct (IH (take mid chunk :: drop mid chunk :: stack)) as (chunks & -> & Hc & Hfit).
      { cbn [turns foldr]. change (foldr _ _ stack) with (turns stack). rewrite length_take, length_drop. lia. }
      exists chunks. split; [done|]. split; [|done]. rewrite Hc. cbn [concat]. by rewrite app_assoc, take_drop.
Qed.

(** The batch is split into bodies that fit, in order, or single lines. *)
Theorem split_complete batch :
  exists chunks, encode_within_limit cfg encode batch = encoded <$> chunks /\
    concat chunks = batch /\ Forall fits chunks.
Proof.
  destruct (split_loop_spec (2 * length batch + 2) [batch]) as (chunks & E & Hc & Hf); [cbn; lia|].
  exists chunks. unfold encode_within_limit. rewrite E. split; [done|]. split; [|done]. rewrite Hc. apply app_nil_r.
Qed.

(** ** One send *)

Definition lines_with (k : fate) (l : list send_record) : nat :=
  sum_by (fun r => if bool_decide (fate_of r = k) then sr_lines r else 0%nat) l.

Lemma lines_with_app k l1 l2 : lines_with k (l1 ++ l2) = (lines_with k l1 + lines_with k l2)%nat.
Proof. apply sum_by_app. Qed.

Lemma lines_with_one k r : lines_with k [r] = if bool_decide (fate_of r = k) then sr_lines r else 0%nat.
Proof. apply Nat.add_0_r. Qed.

Definition same_queue (f f' : LogsFlusher) : Prop :=
  f_buffer f' = f_buffer f /\ f_buffered_bytes f' = f_buffered_bytes f /\ f_deadline f' = f_deadline f /\
  f_limiter f' = f_limiter f /\ by_severity (f_drops f') = by_severity (f_drops f) /\
  by_rate_limit (f_drops f') = by_rate_limit (f_drops f).

(** A send is recorded once and leaves the queue alone; a refusal is counted. *)
Lemma send_one_spec body n f : exists r,
  f_sends (send_one body n f) = f_sends f ++ [r] /\ sr_body r = body /\ sr_lines r = n /\
  same_queue f (send_one body n f) /\
  by_rejected (f_drops (send_one body n f)) = by_rejected (f_drops f) + Z.of_nat (lines_with Refused [r]).
Proof.
  unfold LogExport.send_one. cbv zeta. set (e := net (length (f_sends f))).
  destruct (append (s_fs e) (s_io e) (s_unix e) AppLogs body (f_spool f)) as [ok sp].
  destruct (negb (ready (s_ready e) (f_backoff f))).
  { eexists. split; [reflexivity|]. repeat split; try done. rewrite lines_with_one.
    case_bool_decide as Hd; [by destruct ok|]. cbn. lia. }
  destruct (push_logs _ _ _) as [m|err]; [|destruct (is_permanent err)];
    (eexists; split; [reflexivity|]; repeat split; rewrite lines_with_one; case_bool_decide as Hd;
     [try by destruct ok|try done]; cbn; lia).
Qed.

(** ** What has been exported *)

(** The lines [acc] passed the gate: they are in the sends and the buffer, in order. *)
Record exported (acc : list LogLine) (f : LogsFlusher) : Prop := {
  ex_lines : exists chunks,
    Forall2 (fun c r => sr_body r = encode c /\ sr_lines r = length c) chunks (f_sends f) /\
    Forall fits chunks /\ concat chunks ++ f_buffer f = acc;
  ex_refused : by_rejected (f_drops f) = Z.of_nat (lines_with Refused (f_sends f));
}.

(** The buffer's size and deadline. *)
Definition wf_buffer (f : LogsFlusher) : Prop :=
  f_buffered_bytes f = foldr (fun l n => line_bytes l + n) 0 (f_buffer f) /\
  (f_deadline f = None <-> f_buffer f = []).

Definition emptied (f f' : LogsFlusher) : Prop :=
  f_buffer f' = [] /\ f_buffered_bytes f' = 0 /\ f_deadline f' = None /\
  f_limiter f' = f_limiter f /\ by_severity (f_drops f') = by_severity (f_drops f) /\
  by_rate_limit (f_drops f') = by_rate_limit (f_drops f).

Lemma send_all_spec chunks : forall f acc,
  f_buffer f = [] -> Forall fits chunks -> exported acc f ->
  let f' := foldl (fun f b => send_one b.1 b.2 f) f (encoded <$> chunks) in
  exported (acc ++ concat chunks) f' /\ same_queue f f'.
Proof.
  induction chunks as [|c chunks IH]; intros f acc Hb Hfit Hex; cbn [fmap list_fmap foldl concat].
  - rewrite app_nil_r. split; [done|]. by repeat split.
  - apply Forall_cons in Hfit as [Hc Hfit]. destruct (send_one_spec (encode c) (length c) f) as (r & Hs & Hr1 & Hr2 & Hq & Hrej).
    pose proof Hq as (Q1 & Q2 & Q3 & Q4 & Q5 & Q6). cbn [encoded fst snd] in *.
    destruct (IH (send_one (encode c) (length c) f) (acc ++ c) ltac:(congruence) Hfit) as [H1 H2].
    + destruct Hex as [(cs & F1 & F2 & F3) Hr]. split.
      * exists (cs ++ [c]). rewrite Hs. split; [by apply Forall2_app; [done|repeat constructor]|].
        split; [by apply Forall_app; split; [done|constructor]|].
        rewrite Q1, Hb, concat_app in *. cbn [concat]. rewrite !app_nil_r in *. by rewrite F3.
      * rewrite Hrej, Hs, lines_with_app, Hr. lia.
    + rewrite <- app_assoc in H1. split; [done|]. destruct H2 as (S1 & S2 & S3 & S4 & S5 & S6).
      repeat split; congruence.
Qed.

Lemma flush_spec f acc : wf_buffer f -> exported acc f -> exported acc (flush f) /\ emptied f (flush f).
Proof.
  intros [Hn Hd] Hex. unfold LogExport.flush. destruct (f_buffer f) as [|x b] eqn:Eb; cbn [is_empty].
  - split; [done|]. repeat split; try done. by apply Hd.
  - destruct (split_complete (x :: b)) as (chunks & -> & Hc & Hfit). rewrite <- Eb in Hc.
    destruct Hex as [(cs & F1 & F2 & F3) Hr].
    destruct (send_all_spec chunks (with_buffer [] 0 None f) (concat cs) eq_refl Hfit) as [H1 H2].
    { split; [|done]. exists cs. split; [done|]. split; [done|]. apply app_nil_r. }
    rewrite Hc, F3 in H1. split; [done|]. exact H2.
Qed.

(** ** The task *)

Definition received (evs : list (bool * event)) : list LogLine :=
  omap (fun e => match e.2 with Recv _ _ _ line => Some line | _ => None end) evs.

(** The lines that the gate lets through, in order. *)
Fixpoint passing (evs : list (bool * event)) (l : Limiter) : list LogLine :=
  match evs with
  | [] => []
  | (_, Recv ord gate_now _ line) :: evs =>
      if passes_severity line (logs_cfg cfg) then
        let '(ok, l) := try_acquire ord gate_now (ll_service line) l in
        if ok then line :: passing evs l else passing evs l
      else passing evs l
  | _ :: evs => passing evs l
  end.

(** The buffer stays below both limits between events. *)
Definition below (f : LogsFlusher) : Prop :=
  f_buffer f = [] \/
  (length (f_buffer f) < batch_max_lines cfg)%nat /\ f_buffered_bytes f < batch_max_bytes cfg.

Record good (n : nat) (acc : list LogLine) (f : LogsFlusher) : Prop := {
  g_exported : exported acc f;
  g_buffer : wf_buffer f;
  g_below : below f;
  g_counts : Z.of_nat n = by_severity (f_drops f) + by_rate_limit (f_drops f) + Z.of_nat (length acc);
}.

Lemma wf_emptied f f' : emptied f f' -> wf_buffer f' /\ below f'.
Proof. intros (H1 & H2 & H3 & _). unfold wf_buffer, below. rewrite H1, H2, H3. by repeat split; [..|left]. Qed.

Lemma good_flush n acc f : good n acc f -> good n acc (flush f) /\ emptied f (flush f).
Proof.
  intros [He Hw Hb Hc]. destruct (flush_spec f acc Hw He) as [He' Hemp]. split; [|done].
  destruct (wf_emptied _ _ Hemp) as [Hw' Hb']. destruct Hemp as (_ & _ & _ & _ & Hs & Hr).
  split; [done..|]. by rewrite Hs, Hr.
Qed.

(** Adding a line to a buffer. *)
Lemma add_line_spec now line f acc :
  wf_buffer f -> exported acc f ->
  let f' := add_line cfg url encode status_text decode_logs_partial_reject net now line f in
  exported (acc ++ [line]) f' /\ wf_buffer f' /\ f_limiter f' = f_limiter f /\
  by_severity (f_drops f') = by_severity (f_drops f) /\ by_rate_limit (f_drops f') = by_rate_limit (f_drops f).
Proof.
  intros Hw He. unfold add_line. cbv zeta.
  set (g := if negb (is_empty (f_buffer f)) && _ then _ else f).
  assert (Hg : wf_buffer g /\ exported acc g /\ f_limiter g = f_limiter f /\
    by_severity (f_drops g) = by_severity (f_drops f) /\ by_rate_limit (f_drops g) = by_rate_limit (f_drops f)).
  { unfold g. destruct (negb _ && _); [|done]. destruct (flush_spec f acc Hw He) as [H1 H2].
    split; [by eapply wf_emptied|]. destruct H2 as (_ & _ & _ & H2). done. }
  clearbody g. destruct Hg as ([Hn Hd] & [(cs & F1 & F2 & F3) Hr] & Hl & Hs & Hrl).
  split; [|split; [split|done]].
  - split; [|done]. exists cs. split; [done|]. split; [done|]. cbn [with_buffer f_buffer]. by rewrite app_assoc, F3.
  - cbn [with_buffer f_buffer f_buffered_bytes]. rewrite Hn. clear. induction (f_buffer g); cbn; lia.
  - cbn [with_buffer f_buffer f_deadline]. destruct (f_buffer g) as [|x b] eqn:Eb; cbn [is_empty app].
    + done.
    + split; [|done]. intros E. by apply Hd in E.
Qed.

Lemma on_recv_spec ord gate_now now line n acc f :
  good n acc f ->
  let '(ok, l) := if passes_severity line (logs_cfg cfg) then try_acquire ord gate_now (ll_service line) (f_limiter f)
                  else (false, f_limiter f) in
  good (S n) (if ok then acc ++ [line] else acc) (on_recv ord gate_now now line f) /\
  f_limiter (on_recv ord gate_now now line f) = l.
Proof.
  intros [He Hw Hb Hc]. unfold LogExport.on_recv, gate.
  destruct (passes_severity line (logs_cfg cfg)); cbn [negb]; [|split; [|done]].
  2: { split; [destruct He; by split|done|done|]. cbn. lia. }
  destruct (try_acquire ord gate_now (ll_service line) (f_limiter f)) as [ok l]. destruct ok; cbn [negb]; [|split; [|done]].
  2: { split; [destruct He; by split|done|done|]. cbn. lia. }
  set (g := with_limiter l f). assert (Hg : wf_buffer g /\ exported acc g) by (destruct He; done).
  destruct (add_line_spec now line g acc) as (He' & Hw' & Hl & Hs & Hrl); [apply Hg..|].
  set (f' := add_line _ _ _ _ _ _ now line g) in *.
  assert (Hc' : Z.of_nat (S n) = by_severity (f_drops f') + by_rate_limit (f_drops f') + Z.of_nat (length (acc ++ [line]))).
  { rewrite Hs, Hrl, length_app. cbn. lia. }
  destruct (should_flush_on_size cfg f') eqn:Ef.
  - destruct (flush_spec f' _ Hw' He') as [He2 Hemp]. destruct (wf_emptied _ _ Hemp) as [Hw2 Hb2].
    destruct Hemp as (_ & _ & _ & Hl2 & Hs2 & Hr2). split; [split; [done..|by rewrite Hs2, Hr2]|by rewrite Hl2].
  - split; [|done]. split; [done..| |done]. right. unfold should_flush_on_size in Ef. bool_prop. lia.
Qed.

Lemma serve_spec evs : forall n acc f f' rest,
  good n acc f -> serve_logs evs f = (f', rest) ->
  exists pre, evs = pre ++ default [] rest /\
    good (n + length (received pre)) (acc ++ passing pre (f_limiter f)) f' /\
    (is_Some rest -> f_buffer f' = []).
Proof.
  induction evs as [|[sd ev] evs IH]; intros n acc f f' rest Hg; cbn [LogExport.serve_logs].
  - intros [= <- <-]. exists []. cbn. rewrite Nat.add_0_r, app_nil_r. split; [done|]. split; [done|]. intros H. by destruct H.
  - assert (Hstop : forall pre rest', passing pre (f_limiter f) = [] -> received pre = [] ->
      (flush f, Some rest') = (f', rest) -> (sd, ev) :: evs = pre ++ rest' ->
      exists pre, (sd, ev) :: evs = pre ++ default [] rest /\
        good (n + length (received pre)) (acc ++ passing pre (f_limiter f)) f' /\ (is_Some rest -> f_buffer f' = [])).
    { intros pre rest' Hp1 Hp2 [= <- <-] E. exists pre. rewrite Hp1, Hp2, Nat.add_0_r, app_nil_r. split; [done|].
      destruct (good_flush n acc f Hg) as [H1 (H2 & _)]. done. }
    assert (Hgo : forall g, serve_logs evs g = (f', rest) ->
      forall n1 acc1, good n1 acc1 g -> n1 = (n + length (received [(sd, ev)]))%nat ->
      (forall pre, acc1 ++ passing pre (f_limiter g) = acc ++ passing ((sd, ev) :: pre) (f_limiter f)) ->
      exists pre, (sd, ev) :: evs = pre ++ default [] rest /\
        good (n + length (received pre)) (acc ++ passing pre (f_limiter f)) f' /\ (is_Some rest -> f_buffer f' = [])).
    { intros g Hs n1 acc1 Hg1 -> Hacc. destruct (IH _ _ _ _ _ Hg1 Hs) as (pre & -> & Hg' & Hr).
      exists ((sd, ev) :: pre). split; [done|]. rewrite <- Hacc.
      change ((sd, ev) :: pre) with ([(sd, ev)] ++ pre). unfold received in *. rewrite omap_app, length_app.
      by rewrite Nat.add_assoc. }
    destruct sd; [intros H; by apply (Hstop [] _ eq_refl eq_refl H)|].
    destruct ev as [ord gn now line| | |[]]; intros H.
    + pose proof (on_recv_spec ord gn now line n acc f Hg) as Hr. revert Hgo. cbn [passing received omap].
      destruct (passes_severity line (logs_cfg cfg)); [destruct (try_acquire _ _ _ _) as [[] l]|];
        destruct Hr as [Hr1 Hr2]; intros Hgo; eapply (Hgo _ H _ _ Hr1); try (cbn; lia);
        intros pre; rewrite Hr2; try done; by rewrite <- app_assoc.
    + by apply (Hstop [(false, Closed)] _ eq_refl eq_refl H).
    + destruct (good_flush n acc f Hg) as [H1 (_ & _ & _ & Hl & _)].
      apply (Hgo _ H n acc H1); [cbn; lia|]. intros pre. by rewrite Hl.
    + by apply (Hstop [(false, Changed true)] _ eq_refl eq_refl H).
    + apply (Hgo _ H n acc Hg); [cbn; lia|done].
Qed.

Lemma fates_total (cs : list (list LogLine)) sends :
  Forall2 (fun c r => sr_body r = encode c /\ sr_lines r = length c) cs sends ->
  (lines_with Delivered sends + lines_with Refused sends + lines_with Kept sends + lines_with Lost sends)%nat =
  length (concat cs).
Proof.
  induction 1 as [|c r cs sends [_ Hl] _ IH]; [done|]. cbn [concat]. rewrite length_app, <- IH, <- Hl.
  change (r :: sends) with ([r] ++ sends). rewrite !lines_with_app, !lines_with_one.
  destruct (fate_of r); repeat (case_bool_decide; try done); lia.
Qed.

Section Run.
Variables (now : Z) (sp : Spool) (h : ExporterHealth).
Let start : LogsFlusher := new_flusher cfg now sp h new_counters.

Lemma start_good : good 0 [] start.
Proof.
  split; [split; [by exists []|done]|split; [done|]|by left|done]. done.
Qed.

(** C12: Whatever comes and whatever the collector and the disk answer: the lines that pass the
    gate leave in order, each in exactly one send whose body is small enough or holds one
    line, but for those still in the buffer, of which there are none when the task ends; and
    every line received is dropped by severity or rate, delivered, refused, kept in the
    spool, lost to a spool error, or buffered, as the counters say. *)
Theorem export_conserves evs f rest :
  serve_logs evs start = (f, rest) ->
  exists pre chunks, evs = pre ++ default [] rest /\
    concat chunks ++ f_buffer f = passing pre (f_limiter start) /\
    (fun r => (sr_body r, sr_lines r)) <$> f_sends f = encoded <$> chunks /\
    Forall fits chunks /\ (is_Some rest -> f_buffer f = []) /\
    by_rejected (f_drops f) = Z.of_nat (lines_with Refused (f_sends f)) /\
    Z.of_nat (length (received pre)) =
      by_severity (f_drops f) + by_rate_limit (f_drops f) + by_rejected (f_drops f) +
      Z.of_nat (lines_with Delivered (f_sends f) + lines_with Kept (f_sends f) +
                lines_with Lost (f_sends f) + length (f_buffer f)).
Proof.
  intros Hs. destruct (serve_spec evs 0 [] start f rest start_good Hs) as (pre & Hpre & [[(cs & F1 & F2 & F3) Hr] _ _ Hc] & Hend).
  exists pre, cs. repeat split; try done.
  - clear -F1. induction F1 as [|c r cs l [H1 H2] _ IH]; [done|]. cbn [fmap list_fmap]. unfold encoded in *. by rewrite H1, H2, IH.
  - pose proof (fates_total cs _ F1) as Ht. cbn [app] in F3, Hc. rewrite <- F3, length_app in Hc. rewrite Hr. lia.
Qed.
End Run.

(** C24: Between events the buffer is below both limits, counts its bytes, and has a deadline
    exactly when it is not empty. *)
Theorem buffer_bounded now sp h evs f rest :
  serve_logs evs (new_flusher cfg now sp h new_counters) = (f, rest) -> wf_buffer f /\ below f.
Proof. intros Hs. by destruct (serve_spec evs 0 [] _ f rest (start_good now sp h) Hs) as (pre & _ & [_ Hw Hb _] & _). Qed.

(** ** A collector that is down *)

(** The attempts among the sends from number [n] on, with the clocks of their pushes. *)
Definition attempts (n : nat) (l : list send_record) : list attempt :=
  omap (fun x => match sr_answer x.2 with
                 | Some _ => Some {| started := s_ready (net x.1); failed_at := s_after (net x.1); draws := s_draw (net x.1) |}
                 | None => None
                 end) (zip (seq n (length l)) l).

Definition down : Prop :=
  forall n, s_ready (net n) <= s_after (net n) /\ in_range (s_draw (net n)) /\
    exists m, push_logs status_text decode_logs_partial_reject (s_answer (net n)) = inr (Transient m).

(** What a run adds to the sends while none succeeds: attempts the backoff allows. *)
Definition failing (f f' : LogsFlusher) : Prop :=
  exists l, f_sends f' = f_sends f ++ l /\ Forall (fun r => fate_of r = Kept \/ fate_of r = Lost) l /\
    forall tail, outage (f_backoff f') tail -> outage (f_backoff f) (attempts (length (f_sends f)) l ++ tail).

Lemma attempts_app n l1 l2 : attempts n (l1 ++ l2) = attempts n l1 ++ attempts (n + length l1) l2.
Proof.
  unfold attempts. rewrite length_app, seq_app, zip_with_app by (by rewrite length_seq). apply omap_app.
Qed.

Lemma failing_refl f f' : f_sends f' = f_sends f -> f_backoff f' = f_backoff f -> failing f f'.
Proof. intros Hs Hb. exists []. rewrite Hs, Hb, app_nil_r. by repeat constructor. Qed.

Lemma failing_trans f1 f2 f3 : failing f1 f2 -> failing f2 f3 -> failing f1 f3.
Proof.
  intros (l1 & H1 & F1 & O1) (l2 & H2 & F2 & O2). exists (l1 ++ l2). rewrite H2, H1, app_assoc.
  split; [done|]. split; [by apply Forall_app|]. intros tail Ht. rewrite attempts_app, <- app_assoc.
  apply O1. rewrite <- length_app, <- H1. by apply O2.
Qed.

(** The lines in the channel when the task sees the shutdown are neither pushed nor spooled. *)
Theorem shutdown_loses_queue ev queue f :
  f_buffer f = [] -> serve_logs ((true, ev) :: queue) f = (f, Some ((true, ev) :: queue)).
Proof. intros Hb. cbn [LogExport.serve_logs]. unfold LogExport.flush. by rewrite Hb. Qed.

Context (Hdown : down).

Lemma send_one_failing body n f : failing f (send_one body n f).
Proof.
  unfold LogExport.send_one. cbv zeta. destruct (Hdown (length (f_sends f))) as (Ht & Hd & m & Ha).
  set (e := net (length (f_sends f))) in *.
  destruct (append (s_fs e) (s_io e) (s_unix e) AppLogs body (f_spool f)) as [ok sp].
  destruct (ready (s_ready e) (f_backoff f)) eqn:Er; cbn [negb]; [rewrite Ha; cbn [is_permanent]|];
    eexists; (split; [reflexivity|]); (split; [apply Forall_singleton; destruct ok; [by left|by right]|]); intros tail Ho.
  - by apply outage_cons.
  - done.
Qed.

Lemma flush_failing f : failing f (flush f).
Proof.
  unfold LogExport.flush. destruct (is_empty (f_buffer f)); [by apply failing_refl|].
  apply (failing_trans _ (with_buffer [] 0 None f)); [by apply failing_refl|].
  generalize (with_buffer [] 0 None f). induction (encode_within_limit _ _ _) as [|b bs IH]; intros g; [by apply failing_refl|].
  eapply failing_trans; [apply send_one_failing|apply IH].
Qed.

Lemma on_recv_failing ord gate_now now line f : failing f (on_recv ord gate_now now line f).
Proof.
  unfold LogExport.on_recv, gate. destruct (negb (passes_severity _ _)); [by apply failing_refl|].
  destruct (try_acquire _ _ _ _) as [ok l]. destruct ok; cbn [negb]; [|by apply failing_refl].
  set (g := add_line _ _ _ _ _ _ _ _ _). assert (Hg : failing f g).
  { unfold g, add_line. cbv zeta. destruct (negb _ && _); [|by apply failing_refl].
    eapply failing_trans; [|by apply failing_refl]. by eapply failing_trans; [apply (failing_refl f (with_limiter l f))|apply flush_failing]. }
  destruct (should_flush_on_size cfg g); [|done]. eapply failing_trans; [exact Hg|apply flush_failing].
Qed.

Lemma serve_failing evs : forall f f' rest, serve_logs evs f = (f', rest) -> failing f f'.
Proof.
  induction evs as [|[sd ev] evs IH]; intros f f' rest; cbn [LogExport.serve_logs]; [intros [= <- _]; by apply failing_refl|].
  destruct sd; [intros [= <- _]; apply flush_failing|].
  destruct ev as [ord gn now line| | |[]]; intros H; try (injection H as <- _; apply flush_failing).
  - eapply failing_trans; [apply on_recv_failing|by eapply IH].
  - eapply failing_trans; [apply flush_failing|by eapply IH].
  - by eapply IH.
Qed.

(** While the collector does not answer, every batch goes to the spool, and however many
    there are, at most seven of them and one a minute are tried on the network first. *)
Theorem down_collector now sp h evs f rest a l W :
  serve_logs evs (new_flusher cfg now sp h new_counters) = (f, rest) ->
  attempts 0 (f_sends f) = a :: l -> 0 <= W -> Forall (fun x => started x <= failed_at a + W) l ->
  Forall (fun r => fate_of r = Kept \/ fate_of r = Lost) (f_sends f) /\
  Z.of_nat (length (attempts 0 (f_sends f))) <= 7 + W / CAP.
Proof.
  intros Hs Ha HW Hl. destruct (serve_failing _ _ _ _ Hs) as (sends & E & Hf & Ho). cbn [new_flusher f_sends app] in E.
  subst sends. split; [done|]. specialize (Ho [] (outage_nil _)). cbn [new_flusher f_sends length f_backoff] in Ho.
  rewrite app_nil_r, Ha in Ho. rewrite Ha. cbn [length].
  pose proof (outage_bound (new_backoff now) a l W ltac:(cbn; lia) Ho HW Hl). lia.
Qed.
End Exporter.

(** ** Concrete runs *)

Definition demo_cfg : LogsExporterConfig :=
  {| batch_max_lines := 2; batch_max_bytes := 40; batch_max_ms := 2000;
     logs_cfg := {| min_severity := lit "INFO"; external_min_severity := lit "WARN"; max_lines_per_sec := 3;
                    max_services := 2; services := ∅ |} |}.

Definition demo_encode (ls : list LogLine) : str := lit "batch" ++ concat (ll_message <$> ls).

Definition demo_line (severity message : str) : LogLine :=
  {| ll_source := lit "file"; ll_service := lit "web"; ll_severity := severity; ll_message := message;
     ll_attrs := ∅; ll_ts := 0; ll_record_id := lit "log:1" |}.

Definition demo_spool : Spool :=
  {| dir := ∅; quotas := {| metrics := 100; logs := 100; app_logs := 100 |}; next_seq := 1; totals := fun _ => 0;
     dropped := fun _ _ => 0; last_drop_warn_unix := fun _ => 0 |}.

Definition demo_fs : FsEnv :=
  {| listable := true; readable := fun _ => true; removable := fun _ => true; renamable := fun _ => true |}.

(** The collector answers 200 to the first send and is gone afterwards. *)
Definition demo_net (up : nat) (n : nat) : send_env :=
  {| s_ready := Z.of_nat n * 400 * MS; s_answer := if (n <? up)%nat then Response 200 None else Transport (lit "refused");
     s_after := Z.of_nat n * 400 * MS + MS; s_unix := 1; s_draw := fun m => m; s_io := IoOk None; s_fs := demo_fs |}.

Definition recv (line : LogLine) : bool * event := (false, Recv (fun l => l) 0 0 line).

Definition demo_events : list (bool * event) :=
  [recv (demo_line (lit "ERROR") (lit "a")); recv (demo_line (lit "INFO") (lit "b"));
   recv (demo_line (lit "WARN") (lit "c")); recv (demo_line (lit "WARN") (lit "d"));
   recv (demo_line (lit "WARN") (lit "e")); (false, DeadlineReached); (false, Closed)].

Definition demo_run (up : nat) : LogsFlusher * option (list (bool * event)) :=
  LogExport.serve_logs demo_cfg (lit "http://c/v1/logs") demo_encode (fun _ => []) (fun _ => 0) (demo_net up) demo_events
    (new_flusher demo_cfg 0 demo_spool (new_health []) new_counters).

(** Two lines leave in one body, a third at the deadline; one is below the severity of its
    source and one above the rate. *)
Example demo_outcome :
  (sr_body <$> f_sends (demo_run 1).1) = [lit "batchac"; lit "batchd"] /\
  (fate_of <$> f_sends (demo_run 1).1) = [Delivered; Kept] /\
  by_severity (f_drops (demo_run 1).1) = 1 /\ by_rate_limit (f_drops (demo_run 1).1) = 1.
Proof. vm_compute. repeat split. Qed.

Lemma export_conserves_witness :
  length (f_sends (demo_run 1).1) = 2%nat /\
  exists pre, demo_events = pre ++ default [] (demo_run 1).2 /\
    concat [[demo_line (lit "ERROR") (lit "a"); demo_line (lit "WARN") (lit "c")]; [demo_line (lit "WARN") (lit "d")]] =
    passing demo_cfg pre (new_limiter 3 2).
Proof.
  split; [vm_compute; reflexivity|].
  destruct (export_conserves demo_cfg (lit "http://c/v1/logs") demo_encode (fun _ => []) (fun _ => 0) (demo_net 1)
    0 demo_spool (new_health []) demo_events (demo_run 1).1 (demo_run 1).2 (surjective_pairing _)) as (pre & _ & H & _).
  exists pre. split; [exact H|]. change (default [] (demo_run 1).2) with (default [] (Some (@nil (bool * event)))) in H.
  cbn [default] in H. rewrite app_nil_r in H. subst pre. vm_compute. reflexivity.
Defined.

Lemma buffer_bounded_witness : wf_buffer (demo_run 1).1 /\ below demo_cfg (demo_run 1).1.
Proof.
  apply (buffer_bounded demo_cfg (lit "http://c/v1/logs") demo_encode (fun _ => []) (fun _ => 0) (demo_net 1)
    0 demo_spool (new_health []) demo_events _ (demo_run 1).2). apply surjective_pairing.
Defined.

Lemma demo_down : down (fun _ => []) (fun _ => 0) (demo_net 0).
Proof. intros n. split; [cbn; unfold MS; lia|]. split; [intros m Hm; cbn; lia|]. by exists (lit "refused"). Qed.

Lemma down_collector_witness :
  Forall (fun r => fate_of r = Kept \/ fate_of r = Lost) (f_sends (demo_run 0).1) /\
  Z.of_nat (length (attempts (demo_net 0) 0 (f_sends (demo_run 0).1))) <= 7 + 0 / CAP.
Proof.
  refine (down_collector demo_cfg (lit "http://c/v1/logs") demo_encode (fun _ => []) (fun _ => 0) (demo_net 0) demo_down
    0 demo_spool (new_health []) demo_events (demo_run 0).1 (demo_run 0).2
    {| started := 0; failed_at := MS; draws := fun m => m |} [] 0 (surjective_pairing _) _ _ _);
    [vm_compute; reflexivity|done|constructor].
Defined.
