(* ===== verification/ControlSpec.v ===== *)
(** * Theorems about the control server

    The effect of every event on the registry as a function of the registry alone
    ([registry_step]), and from it: persistence, pruning, signals and the life of sessions. *)

From S2P Require Import Prelude RustStr Bytes Records RingBuffer RecordStore Attach Registry Ipc Control.

(** ** The registry's own transition *)

Definition marked (e : env) (g : SessionRegistry) : SessionRegistry :=
  (mark_stale_active_detached (e_now e 0%nat) STALE_ACTIVE_AFTER g).1.

Definition stop_registry (e : env) (id : str) (g : SessionRegistry) : SessionRegistry :=
  match g !! id with
  | None => g
  | Some info =>
      let pid := signed 32 info.(si_pid) in
      if pid <=? 1 then g
      else if negb (pid_looks_like_aic_session e pid) then (set_state id Failed g).1
      else match e_kill e pid with KillNoSuchProcess => delete id g | _ => g end
  end.

Definition registry_step (e : env) (ev : event) (g : SessionRegistry) : SessionRegistry :=
  match ev with
  | Tick | Req ListSessions => marked e g
  | Req (PruneSessions secs) =>
      match duration_seconds (Z.min secs i64_max) with
      | Some d => (prune_inactive_older_than (e_now e 1%nat) d (marked e g)).1
      | None => marked e g
      end
  | Req (RegisterSession info) => register info g
  | Req (UnregisterSession id) => delete id g
  | Req (HeartbeatSession id t cwd) => (heartbeat id t cwd g).1
  | Req (TagSession id label) => (set_label id label g).1
  | Req (CommandStarted sid _ _ cwd shell pid t) => upsert_hook_session sid pid shell cwd t g
  | Req (CommandFinished sid _ _ t _) => (touch_seen sid t g).1
  | Req (StopSession id) => stop_registry e id g
  | _ => g
  end.

(** What JSON guarantees of a request: its paths are UTF-8. *)
Definition utf8_event (ev : event) : bool :=
  match ev with
  | Req (RegisterSession info) => utf8_cwd info
  | Req (HeartbeatSession _ _ cwd) | Req (CommandStarted _ _ _ cwd _ _ _) => utf8_opt cwd
  | _ => true
  end.

Lemma registry_step_wf e ev g :
  utf8_event ev = true -> wf_registry g -> wf_registry (registry_step e ev g).
Proof.
  intros Hu Hg. destruct ev as [r|]; [|by apply wf_mark].
  destruct r; simpl in *; eauto using wf_mark, wf_delete.
  - apply wf_update; [|done]. by intros i [??].
  - destruct (duration_seconds _); [apply wf_prune|]; by apply wf_mark.
  - by apply wf_insert.
  - apply wf_update; [|done]. intros i Hi. by apply wf_heartbeat_info.
  - unfold stop_registry. destruct (g !! id) eqn:E; [|done]. destruct (_ <=? 1); [done|].
    destruct (negb _); [apply wf_update; [|done]; by intros i [??]|].
    destruct (e_kill e _); [done|by apply wf_delete|done].
  - by apply wf_upsert.
  - apply wf_update; [|done]. by intros i [??].
Qed.

(** The first listed session with an identifier is the stored one. *)
Lemma find_session ord g id :
  iteration ord -> wf_registry g ->
  List.find (fun s => bool_decide (s.(si_id) = id)) (list_sessions ord g) = g !! id.
Proof.
  intros Ho Hg. destruct (List.find _ _) as [i|] eqn:F.
  - apply List.find_some in F as [Hin Hid]. bool_prop. apply list_elem_of_In in Hin.
    apply elem_of_list_sessions in Hin as [k Hk]; [|done]. destruct (Hg _ _ Hk) as [<- _]. by rewrite <- Hid.
  - destruct (g !! id) as [i|] eqn:E; [|done]. exfalso.
    eapply List.find_none in F; [|apply list_elem_of_In, elem_of_list_sessions; [done|by exists id]].
    bool_prop. apply F. by apply (Hg _ _ E).
Qed.

Section Spec.
Context `{SnapshotJson}.

Lemma persist_registry_registry s c : registry (persist_registry s c) = registry c.
Proof. unfold persist_registry. by destruct (registry_path c). Qed.

Lemma persist_if_registry b e c : registry (persist_if b e c) = registry c.
Proof. unfold persist_if. destruct b; [apply persist_registry_registry|done]. Qed.

Lemma reconcile_registry e c : registry (reconcile_stale_sessions e c) = marked e (registry c).
Proof.
  unfold reconcile_stale_sessions, marked. destruct (mark_stale_active_detached _ _ _) as [g n].
  destruct (0 <? n)%nat; [by rewrite persist_registry_registry|done].
Qed.

Lemma on_registry_registry f c : registry (on_registry f c).1 = (f (registry c)).1.
Proof. unfold on_registry. by destruct (f (registry c)). Qed.

Lemma stop_session_registry e id c :
  iteration (e_order e) -> wf_registry (registry c) ->
  registry (stop_session e id c).1 = stop_registry e id (registry c).
Proof.
  intros Ho Hg. unfold stop_session, stop_registry. rewrite find_session by done.
  destruct (registry c !! id) as [i|]; [|done]. destruct (_ <=? 1); [done|].
  destruct (negb _); [apply persist_registry_registry|]. by destruct (e_kill e _).
Qed.

Lemma step_registry e ev c :
  iteration (e_order e) -> wf_registry (registry c) ->
  registry (step (e, ev) c) = registry_step e ev (registry c).
Proof.
  intros Ho Hg. unfold step. cbn [fst snd]. destruct ev as [r|]; [|apply reconcile_registry].
  destruct r; try done; cbn [process_control_request registry_step].
  - pose proof (on_registry_registry (set_label id label) c) as Hr.
    destruct (on_registry _ _) as [c' b]. cbn [fst]. by rewrite persist_if_registry.
  - by destruct (capture_mode record).
  - by destruct (with_capacity_ok count 24).
  - apply reconcile_registry.
  - destruct (duration_seconds _) as [d|]; [|apply reconcile_registry]. rewrite reconcile_registry.
    destruct (prune_inactive_older_than _ _ _) as [g n]. cbn [fst]. by rewrite persist_if_registry.
  - cbn [fst]. by rewrite persist_if_registry.
  - cbn [fst]. by rewrite persist_if_registry.
  - pose proof (on_registry_registry (heartbeat id seen_at cwd) c) as Hr.
    destruct (on_registry _ _) as [c' b]. cbn [fst]. by rewrite persist_if_registry.
  - pose proof (stop_session_registry e id c Ho Hg) as Hr. by destruct (stop_session e id c).
  - cbn [fst with_store registry]. by rewrite persist_if_registry.
  - pose proof (on_registry_registry (touch_seen session_id finished_at) c) as Hr.
    destruct (on_registry _ _) as [c' b]. cbn [fst with_store registry]. by rewrite persist_if_registry.
Qed.

(** Histories whose requests came as JSON, under any iteration orders. *)
Definition admissible (ev : env * event) : Prop := iteration (e_order ev.1) /\ utf8_event ev.2 = true.

Lemma exec_registry evs c :
  Forall admissible evs -> wf_registry (registry c) ->
  registry (exec evs c) = foldl (fun g ev => registry_step ev.1 ev.2 g) (registry c) evs
  /\ wf_registry (registry (exec evs c)).
Proof.
  unfold exec. intros Hev. revert c. induction Hev as [|[e ev] evs [Ho Hu] Hevs IH]; intros c Hg; [done|].
  cbn [foldl]. destruct (IH (step (e, ev) c)) as [H1 H2].
  - rewrite step_registry by done. by apply registry_step_wf.
  - split; [|done]. rewrite H1. f_equal. by apply step_registry.
Qed.
(** ** The snapshot restores the registry *)

(** Every save of the event succeeds. *)
Definition saves_ok (e : env) : Prop :=
  forall n, (e_saves e n).1 = SnapOk /\ iteration (e_saves e n).2.

(** A restart at any time from [t0] on would see the sessions the daemon holds. *)
Definition restorable (t0 : Z) (c : ControlContext) : Prop :=
  registry_path c = true -> forall now, t0 <= now ->
  load_snapshot now (snapshot c) = Ok (restart_view now (registry c)).

Lemma persist_restorable t0 s c :
  s.1 = SnapOk -> iteration s.2 -> wf_registry (registry c) -> restorable t0 (persist_registry s c).
Proof.
  intros Hs Ho Hg Hp now Hn. unfold persist_registry in *.
  destruct (registry_path c) eqn:P; [|congruence]. cbn [snapshot registry with_snapshot].
  rewrite Hs. by eapply load_save.
Qed.

Lemma persist_if_restorable t0 e b c g :
  saves_ok e -> wf_registry g -> restorable t0 c -> (b = false -> g = registry c) ->
  restorable t0 (persist_if b e (with_registry g c)).
Proof.
  intros Hs Hg Hc Hb. destruct b; simpl.
  - destruct (Hs 1%nat). by apply persist_restorable.
  - intros Hp now Hn. simpl. rewrite Hb by done. by apply Hc.
Qed.

Lemma mark_none now d g : (mark_stale_active_detached now d g).2 = 0%nat ->
  (mark_stale_active_detached now d g).1 = g.
Proof.
  simpl. intros Hz%map_size_empty_inv. apply map_eq. intros k. rewrite lookup_fmap.
  destruct (g !! k) as [i|] eqn:E; [|done]. simpl. destruct (is_stale now d i) eqn:Hs; [|done].
  exfalso. eapply (map_filter_empty_not_lookup _ _ _ _ Hz); [exact Hs|exact E].
Qed.

Lemma prune_none now d g : (prune_inactive_older_than now d g).2 = 0%nat ->
  (prune_inactive_older_than now d g).1 = g.
Proof.
  simpl. intros Hz. apply map_subseteq_size_eq; [apply map_filter_subseteq|]. lia.
Qed.

Lemma reconcile_restorable t0 e c :
  saves_ok e -> wf_registry (registry c) -> restorable t0 c ->
  restorable t0 (reconcile_stale_sessions e c).
Proof.
  intros Hs Hg Hc. unfold reconcile_stale_sessions.
  pose proof (mark_none (e_now e 0%nat) STALE_ACTIVE_AFTER (registry c)) as Hz.
  pose proof (wf_mark (e_now e 0%nat) STALE_ACTIVE_AFTER _ Hg) as Hw.
  destruct (mark_stale_active_detached _ _ _) as [g n]. cbn [fst snd] in *.
  destruct (0 <? n)%nat eqn:E; bool_prop.
  - destruct (Hs 0%nat). by apply persist_restorable.
  - intros Hp now Hn. simpl. rewrite Hz by lia. by apply Hc.
Qed.

Lemma update_missing id f g : (update id f g).2 = false -> (update id f g).1 = g.
Proof. unfold update. by destruct (g !! id). Qed.

(** An operation of [update] shape followed by the conditional save. *)
Lemma updated_restorable t0 e id f c :
  saves_ok e -> (forall i, wf_info id i -> wf_info id (f i)) ->
  wf_registry (registry c) -> restorable t0 c ->
  restorable t0 (persist_if (on_registry (update id f) c).2 e (on_registry (update id f) c).1).
Proof.
  intros Hs Hf Hg Hc. unfold on_registry.
  pose proof (update_missing id f (registry c)) as Hm. pose proof (wf_update id f _ Hf Hg) as Hw.
  destruct (update id f (registry c)) as [g b]. simpl in *. by apply persist_if_restorable.
Qed.

Lemma frame_restorable t0 c c' :
  restorable t0 c -> registry c' = registry c -> snapshot c' = snapshot c ->
  registry_path c' = registry_path c -> restorable t0 c'.
Proof. unfold restorable. intros Hc -> -> ->. exact Hc. Qed.

Lemma step_restorable t0 e ev c :
  admissible (e, ev) -> saves_ok e -> (forall pid, e_kill e pid <> KillNoSuchProcess) ->
  wf_registry (registry c) -> restorable t0 c -> restorable t0 (step (e, ev) c).
Proof.
  intros [Ho Hu] Hs Hk Hg Hc. unfold step. cbn [fst snd] in *.
  destruct ev as [r|]; [|by apply reconcile_restorable].
  assert (Hrec := reconcile_restorable t0 e c Hs Hg Hc).
  destruct r; cbn [process_control_request fst]; try exact Hc;
    try (by eapply frame_restorable; [exact Hc|..]).
  - assert (Hr := updated_restorable t0 e id (label_info label) c Hs
      ltac:(intros i [??]; by split) Hg Hc).
    unfold set_label. by destruct (on_registry _ _).
  - by destruct (capture_mode record).
  - by destruct (with_capacity_ok count 24).
  - exact Hrec.
  - destruct (duration_seconds _) as [d|]; [|exact Hrec].
    pose proof (prune_none (e_now e 1%nat) d (registry (reconcile_stale_sessions e c))) as Hz.
    assert (Hw : wf_registry (registry (reconcile_stale_sessions e c)))
      by (rewrite reconcile_registry; by apply wf_mark).
    pose proof (wf_prune (e_now e 1%nat) d _ Hw) as Hp.
    destruct (prune_inactive_older_than _ _ _) as [g n]. cbn [fst snd] in *.
    apply persist_if_restorable; try done. intros E. bool_prop. apply Hz. lia.
  - apply persist_if_restorable; try done. by apply wf_insert.
  - apply persist_if_restorable; try done. by apply wf_delete.
  - assert (Hr := updated_restorable t0 e id (heartbeat_info seen_at cwd) c Hs
      ltac:(intros i Hi; by apply wf_heartbeat_info) Hg Hc).
    unfold heartbeat. by destruct (on_registry _ _).
  - unfold stop_session. rewrite find_session by done.
    destruct (registry c !! id) as [i|]; [|done]. destruct (_ <=? 1); [done|].
    destruct (negb _); cycle 1.
    { destruct (e_kill e _) eqn:E; [|by apply Hk in E|exact Hc].
      eapply frame_restorable; [exact Hc|..]; done. }
    cbn [fst]. destruct (Hs 1%nat). apply persist_restorable; [done|done|].
    apply wf_update; [|done]. intros j [??]. by split.
  - eapply frame_restorable;
      [apply (persist_if_restorable t0 e true c (upsert_hook_session session_id pid shell cwd started_at (registry c)))
      |done..]; try done.
    by apply wf_upsert.
  - assert (Hr := updated_restorable t0 e session_id (touch_info finished_at) c Hs
      ltac:(intros i [??]; by split) Hg Hc).
    unfold touch_seen. destruct (on_registry _ _). simpl in *. eapply frame_restorable; [exact Hr|..]; done.
Qed.
Lemma step_path ev c : registry_path (step ev c) = registry_path c.
Proof.
  assert (Hp : forall s c, registry_path (persist_registry s c) = registry_path c)
    by (intros ? c0; unfold persist_registry; by destruct (registry_path c0) eqn:E; rewrite ?E).
  assert (Hi : forall b e c, registry_path (persist_if b e c) = registry_path c)
    by (intros []; simpl; auto).
  assert (Hr : forall e c, registry_path (reconcile_stale_sessions e c) = registry_path c).
  { intros e c0. unfold reconcile_stale_sessions. destruct (mark_stale_active_detached _ _ _) as [g n].
    destruct (0 <? n)%nat; [by rewrite Hp|done]. }
  destruct ev as [e [r|]]; [|apply Hr]. unfold step. cbn [fst snd].
  destruct r; cbn [process_control_request fst]; try done; try apply Hr;
    try (unfold on_registry, heartbeat, touch_seen, set_label; try destruct (update _ _ _);
         cbn [fst with_store registry_path]; rewrite Hi; done).
  - by destruct (capture_mode record).
  - by destruct (with_capacity_ok count 24).
  - destruct (duration_seconds _); [|apply Hr]. destruct (prune_inactive_older_than _ _ _). cbn [fst].
    rewrite Hi. apply Hr.
  - unfold stop_session. destruct (List.find _ _); [|done]. destruct (_ <=? 1); [done|].
    destruct (negb _); [cbn [fst]; by rewrite Hp|]. by destruct (e_kill e _).
Qed.

Lemma exec_app evs1 evs2 c : exec (evs1 ++ evs2) c = exec evs2 (exec evs1 c).
Proof. apply foldl_app. Qed.

Lemma exec_path evs c : registry_path (exec evs c) = registry_path c.
Proof. revert c. induction evs as [|ev evs IH]; intros c; [done|]. unfold exec in *. simpl. by rewrite IH, step_path. Qed.

(** A daemon started at [t0]: it loaded what an earlier one saved, or nothing. *)
Definition boots (t0 : Z) (c : ControlContext) : Prop :=
  exists g0, wf_registry g0 /\ registry c = restart_view t0 g0 /\
  (registry_path c = true -> forall now, load_snapshot now (snapshot c) = Ok (restart_view now g0)).

Lemma restart_view_twice t0 now g :
  t0 <= now -> restart_view now (restart_view t0 g) = restart_view now g.
Proof.
  intros Ht. assert (Hl : forall i, last_seen (detach_if_active i) = last_seen i)
    by (intros i; unfold detach_if_active; by destruct (is_active i)).
  assert (Hd : forall i, detach_if_active (detach_if_active i) = detach_if_active i).
  { intros i. unfold detach_if_active at 2 3. destruct (is_active i) eqn:E; [done|].
    unfold detach_if_active. by rewrite E. }
  apply map_eq. intros k. apply option_eq. intros i. unfold restart_view. rewrite !lookup_fmap_Some. split.
  - intros (j & <- & [(j0 & <- & [Hj0 Ha]%map_lookup_filter_Some)%lookup_fmap_Some Hb]%map_lookup_filter_Some).
    exists j0. split; [by rewrite Hd|]. apply map_lookup_filter_Some. simpl in *. by rewrite Hl in Hb.
  - intros (j & <- & [Hj Ha]%map_lookup_filter_Some). exists (detach_if_active j). split; [apply Hd|].
    apply map_lookup_filter_Some. simpl in *. rewrite Hl. split; [|done]. apply lookup_fmap_Some.
    exists j. split; [done|]. apply map_lookup_filter_Some. simpl. split; [done|lia].
Qed.

Lemma wf_restart_view t0 g : wf_registry g -> wf_registry (restart_view t0 g).
Proof.
  intros Hg k i. unfold restart_view. intros (j & <- & [Hj _]%map_lookup_filter_Some)%lookup_fmap_Some.
  destruct (Hg _ _ Hj). unfold detach_if_active. by destruct (is_active j).
Qed.

Lemma boots_wf t0 c : boots t0 c -> wf_registry (registry c).
Proof. intros (g0 & Hw & -> & _). by apply wf_restart_view. Qed.

Lemma boots_restorable t0 c : boots t0 c -> restorable t0 c.
Proof. intros (g0 & _ & Hr & Hl) Hp now Hn. by rewrite Hl, Hr, restart_view_twice. Qed.

(** No process that a stop request names has already gone. *)
Definition no_gone_process (ev : env * event) : Prop := forall pid, e_kill ev.1 pid <> KillNoSuchProcess.

Lemma exec_restorable t0 evs c :
  boots t0 c -> Forall (fun ev => admissible ev /\ saves_ok ev.1 /\ no_gone_process ev) evs ->
  restorable t0 (exec evs c).
Proof.
  intros Hb Hev. pose proof (boots_restorable _ _ Hb) as Hc. pose proof (boots_wf _ _ Hb) as Hg. clear Hb.
  revert c Hc Hg. induction Hev as [|[e ev] evs (Ha & Hs & Hk) _ IH]; intros c Hc Hg; [done|].
  apply (IH (step (e, ev) c)); [by apply step_restorable|].
  destruct Ha. rewrite step_registry by done. by apply registry_step_wf.
Qed.

(** C26: After any history of requests and ticks, one after another, in which saves succeed and no
    stopped process is already gone, the snapshot on disk restores exactly the sessions the
    daemon holds: those seen in the last day, none of them attached.
    ([gone_session_comes_back]: what happens where the process of a stop request has gone.) *)
Theorem restart_restores_registry t0 evs c now :
  boots t0 c -> registry_path c = true ->
  Forall (fun ev => admissible ev /\ saves_ok ev.1 /\ no_gone_process ev) evs -> t0 <= now ->
  load_snapshot now (snapshot (exec evs c)) = Ok (restart_view now (registry (exec evs c))).
Proof.
  intros Hb Hp Hev Hn. apply (exec_restorable t0 evs c Hb Hev); [by rewrite exec_path|done].
Qed.

(** A session whose process has gone is removed from the registry by a stop request, but not
    from the snapshot: the next restart brings it back. *)
Theorem gone_session_comes_back t0 e id c i now :
  iteration (e_order e) -> wf_registry (registry c) -> restorable t0 c -> registry_path c = true ->
  registry c !! id = Some i -> 1 < signed 32 (si_pid i) ->
  pid_looks_like_aic_session e (signed 32 (si_pid i)) = true ->
  e_kill e (signed 32 (si_pid i)) = KillNoSuchProcess ->
  t0 <= now -> now - last_seen i <= SNAPSHOT_MAX_AGE ->
  let c' := step (e, Req (StopSession id)) c in
  registry c' !! id = None /\
  exists g, load_snapshot now (snapshot c') = Ok g /\ g !! id = Some (detach_if_active i).
Proof.
  intros Ho Hg Hc Hp Hi Hpid Hl Hk Hn Ha c'.
  assert (Hc' : c' = with_registry (delete id (registry c)) c).
  { subst c'. cbn. unfold stop_session. rewrite find_session, Hi by done.
    rewrite (proj2 (Z.leb_gt _ _)) by done. by rewrite Hl, Hk. }
  rewrite Hc'. cbn. split; [apply lookup_delete_eq|].
  exists (restart_view now (registry c)). split; [by apply Hc|]. unfold restart_view. rewrite lookup_fmap.
  assert (Hf : filter (fun kv => now - last_seen kv.2 <= SNAPSHOT_MAX_AGE) (registry c) !! id = Some i)
    by (apply map_lookup_filter_Some; done). by rewrite Hf.
Qed.
(** ** Signals *)

Lemma persist_signals s c : signals (persist_registry s c) = signals c.
Proof. unfold persist_registry. by destruct (registry_path c). Qed.

Lemma persist_if_signals b e c : signals (persist_if b e c) = signals c.
Proof. destruct b; [apply persist_signals|done]. Qed.

Lemma reconcile_signals e c : signals (reconcile_stale_sessions e c) = signals c.
Proof.
  unfold reconcile_stale_sessions. destruct (mark_stale_active_detached _ _ _) as [g n].
  destruct (0 <? n)%nat; [by rewrite persist_signals|done].
Qed.

Lemma other_signals e ev c :
  (forall id, ev <> Req (StopSession id)) -> signals (step (e, ev) c) = signals c.
Proof.
  intros Hne. unfold step. cbn [fst snd]. destruct ev as [r|]; [|apply reconcile_signals].
  destruct r; cbn [process_control_request fst]; try done; try apply reconcile_signals;
    try (unfold on_registry, heartbeat, touch_seen, set_label; try destruct (update _ _ _);
         cbn [fst with_store signals]; rewrite persist_if_signals; done).
  - by destruct (capture_mode record).
  - by destruct (with_capacity_ok count 24).
  - destruct (duration_seconds _); [|apply reconcile_signals]. destruct (prune_inactive_older_than _ _ _).
    cbn [fst]. rewrite persist_if_signals. apply reconcile_signals.
  - by destruct (Hne id).
Qed.

(** The only event that signals a process is a stop request, and it signals exactly the
    process of the named session: never process 0 or 1, never a process group (a negative
    number), and never a process known to run another program. *)
Theorem signals_only_sessions e ev c :
  iteration (e_order e) -> wf_registry (registry c) ->
  signals (step (e, ev) c) = signals c \/
  exists id i, ev = Req (StopSession id) /\ registry c !! id = Some i /\
    let pid := signed 32 (si_pid i) in
    signals (step (e, ev) c) = signals c ++ [pid] /\ 1 < pid /\
    (forall path, e_exe e pid = Some path -> path_file_name path = Some (lit "aic-session")).
Proof.
  intros Ho Hg. destruct ev as [r|]; [|left; by apply other_signals].
  destruct r; try (left; apply other_signals; congruence).
  unfold step. cbn [fst snd process_control_request]. unfold stop_session. rewrite find_session by done.
  destruct (registry c !! id) as [i|] eqn:Hi; [|by left].
  destruct (signed 32 (si_pid i) <=? 1) eqn:Hpid; bool_prop; [by left|].
  destruct (pid_looks_like_aic_session e (signed 32 (si_pid i))) eqn:Hl; simpl negb;
    [|left; cbn [fst]; by rewrite persist_signals].
  destruct (e_kill e (signed 32 (si_pid i))); [right|by left..].
  exists id, i. repeat split; [done|lia|]. intros path Hx. unfold pid_looks_like_aic_session in Hl.
  rewrite Hx in Hl. unfold path_matches_aic_session in Hl. by bool_prop.
Qed.

(** ** Listing and pruning *)

(** A listing is every session once, oldest first, and none of the sessions it calls active
    has been silent for more than 30 seconds. *)
Theorem list_sessions_answer e c :
  iteration (e_order e) -> wf_registry (registry c) ->
  exists c' l, process_control_request e ListSessions c = (c', Some (Sessions l)) /\
    l ≡ₚ (map_to_list (registry c')).*2 /\
    StronglySorted (fun x y => si_created_at x <= si_created_at y) l /\
    si_id <$> l ≡ₚ elements (dom (registry c)) /\
    Forall (fun i => is_active i = true -> e_now e 0%nat - last_seen i <= STALE_ACTIVE_AFTER) l.
Proof.
  intros Ho Hg. eexists _, _. split; [done|]. rewrite reconcile_registry.
  assert (Hw := wf_mark (e_now e 0%nat) STALE_ACTIVE_AFTER _ Hg). fold (marked e (registry c)) in Hw.
  assert (Hp := list_sessions_Permutation (e_order e) (marked e (registry c)) Ho).
  split; [exact Hp|]. split; [apply sort_by_key_sorted|]. split.
  - etrans; [apply Permutation_map, Hp|]. fold (fmap (M:=list) si_id). rewrite values_ids by done.
    apply NoDup_Permutation; [apply NoDup_fst_map_to_list|apply NoDup_elements|]. intros k.
    rewrite elem_of_elements, elem_of_dom, list_elem_of_fmap. unfold marked. simpl. split.
    + intros ([k' i] & -> & Hin%elem_of_map_to_list). rewrite lookup_fmap in Hin. simpl.
      by destruct (registry c !! k').
    + intros [i Hi]. eexists (k, _). split; [done|]. apply elem_of_map_to_list. rewrite lookup_fmap, Hi. done.
  - apply Forall_forall. intros i [k Hk]%elem_of_list_sessions Ha; [|done].
    unfold marked in Hk. simpl in Hk. rewrite lookup_fmap in Hk.
    destruct (registry c !! k) as [j|]; [|done]. simpl in Hk. destruct (is_stale _ _ j) eqn:Hs.
    + by injection Hk as <-.
    + injection Hk as <-. unfold is_stale in Hs. rewrite Ha in Hs. simpl in Hs. by bool_prop.
Qed.

(** What a prune leaves of a session. *)
Definition pruned (e : env) (d : Z) (i : SessionInfo) : option SessionInfo :=
  let i := if is_stale (e_now e 0%nat) STALE_ACTIVE_AFTER i then detach i else i in
  if keeps (e_now e 1%nat) d i then Some i else None.

(** Pruning removes exactly the sessions that are inactive (or have just been found silent)
    and older than asked, answers their number, and panics, without an answer, when the age
    is more than 9223372036854775 seconds. *)
Theorem prune_exact e secs c :
  0 <= secs ->
  let '(c', answer) := process_control_request e (PruneSessions secs) c in
  if secs <=? i64_max / 1000 then
    (forall id, registry c' !! id = registry c !! id ≫= pruned e (secs * SECOND)) /\
    answer = Some (PrunedSessions (size (registry c) - size (registry c')))
  else answer = None /\ registry c' = marked e (registry c).
Proof.
  intros Hs. cbn [process_control_request]. unfold duration_seconds.
  assert (Hm : (Z.min secs i64_max <=? i64_max / 1000) = (secs <=? i64_max / 1000)).
  { change (i64_max / 1000) with 9223372036854775. unfold i64_max. lia. }
  rewrite Hm. destruct (secs <=? i64_max / 1000) eqn:E; bool_prop; [|by rewrite reconcile_registry].
  rewrite Z.min_l by (change (i64_max / 1000) with 9223372036854775 in E; unfold i64_max; lia).
  rewrite reconcile_registry. cbn [prune_inactive_older_than fst snd]. rewrite persist_if_registry.
  cbn [with_registry registry]. split.
  - intros id. unfold marked. cbn [fst mark_stale_active_detached]. apply option_eq. intros j.
    rewrite map_lookup_filter_Some, lookup_fmap. unfold pruned. destruct (registry c !! id) as [i|]; simpl; [|naive_solver].
    generalize (if is_stale (e_now e 0%nat) STALE_ACTIVE_AFTER i then detach i else i). intros i'.
    destruct (keeps (e_now e 1%nat) (secs * SECOND) i') eqn:K; (split; [intros [[= <-] K']|intros [= <-]]); simpl in *; congruence || auto.
  - do 2 f_equal. f_equal. unfold marked. simpl. by rewrite map_size_fmap.
Qed.
End Spec.
