(* ===== verification/ControlLife.v ===== *)
(** * The life of a session in the registry

    A session that keeps reporting stays active through any history of requests and
    reconciliation ticks; a session that falls silent is found inactive within the stale
    period plus one tick interval. Saves of the snapshot by concurrent requests are given as
    interleaved steps. The last part has the concrete runs. *)

From S2P Require Import Prelude RustStr Bytes Records RingBuffer RecordStore Attach Registry Ipc Control ControlSpec.

(** ** Events and one session *)

(** When the event says session [id] was seen. *)
Definition sighting (id : str) (ev : event) : option Z :=
  match ev with
  | Req (HeartbeatSession sid t _) | Req (CommandStarted sid _ _ _ _ _ t)
  | Req (CommandFinished sid _ _ t _) => if bool_decide (sid = id) then Some t else None
  | _ => None
  end.

(** The event replaces, removes or stops session [id]. *)
Definition ends_session (id : str) (ev : event) : bool :=
  match ev with
  | Req (RegisterSession info) => bool_decide (si_id info = id)
  | Req (UnregisterSession sid) | Req (StopSession sid) => bool_decide (sid = id)
  | _ => false
  end.

(** The event looks for silent sessions. *)
Definition reconciles (ev : event) : bool :=
  match ev with
  | Tick | Req ListSessions | Req (PruneSessions _) => true
  | _ => false
  end.

Lemma update_same id f g i : g !! id = Some i -> (update id f g).1 !! id = Some (f i).
Proof. intros H. unfold update. rewrite H. apply lookup_insert_eq. Qed.

Lemma update_other id f g k : k <> id -> (update id f g).1 !! k = g !! k.
Proof. intros H. unfold update. destruct (g !! id); [|done]. by apply lookup_insert_ne. Qed.

Lemma upsert_same id pid shell cwd t g i :
  g !! id = Some i -> upsert_hook_session id pid shell cwd t g !! id = Some (hook_modify pid shell cwd t i).
Proof. intros H. unfold upsert_hook_session. rewrite H. apply lookup_insert_eq. Qed.

Lemma upsert_other id pid shell cwd t g k :
  k <> id -> upsert_hook_session id pid shell cwd t g !! k = g !! k.
Proof. intros H. unfold upsert_hook_session. destruct (g !! id); by apply lookup_insert_ne. Qed.

Lemma marked_lookup e g k i :
  g !! k = Some i ->
  marked e g !! k = Some (if is_stale (e_now e 0%nat) STALE_ACTIVE_AFTER i then detach i else i).
Proof. intros H. unfold marked. simpl. by rewrite lookup_fmap, H. Qed.

Lemma stop_other e id g k : k <> id -> stop_registry e id g !! k = g !! k.
Proof.
  intros Hk. unfold stop_registry. destruct (g !! id); [|done]. destruct (_ <=? 1); [done|].
  destruct (negb _); [by apply update_other|]. destruct (e_kill e _); [done|by apply lookup_delete_ne|done].
Qed.

(** What an event that neither sights nor ends session [id] does to it: at most it marks it
    silent, and prunes it when it is inactive. *)
Lemma step_unseen e ev g id i :
  g !! id = Some i -> ends_session id ev = false -> sighting id ev = None ->
  exists i', last_seen i' = last_seen i /\
    (is_active i' = true <-> is_active i = true /\
       (reconciles ev = true -> e_now e 0%nat - last_seen i <= STALE_ACTIVE_AFTER)) /\
    (registry_step e ev g !! id = Some i' \/ is_active i' = false /\ registry_step e ev g !! id = None).
Proof.
  intros Hi He Hs.
  assert (Hsame : forall ev', reconciles ev' = false -> registry_step e ev' g !! id = g !! id ->
    exists i', last_seen i' = last_seen i /\
    (is_active i' = true <-> is_active i = true /\
       (reconciles ev' = true -> e_now e 0%nat - last_seen i <= STALE_ACTIVE_AFTER)) /\
    (registry_step e ev' g !! id = Some i' \/ is_active i' = false /\ registry_step e ev' g !! id = None)).
  { intros ev' Hr Hl. exists i. rewrite Hl, Hr, Hi. naive_solver. }
  set (m := if is_stale (e_now e 0%nat) STALE_ACTIVE_AFTER i then detach i else i).
  assert (Hm : last_seen m = last_seen i /\ (is_active m = true <-> is_active i = true /\
    (true = true -> e_now e 0%nat - last_seen i <= STALE_ACTIVE_AFTER))).
  { unfold m. destruct (is_stale _ _ i) eqn:E; unfold is_stale in E.
    - bool_prop. split; [done|]. cbn. split; [done|]. intros [_ Hx]. specialize (Hx eq_refl). lia.
    - split; [done|]. destruct (is_active i); simpl in E; bool_prop; naive_solver. }
  assert (Hmk := marked_lookup e g id i Hi : marked e g !! id = Some m).
  destruct Hm as [Hm1 Hm2]. destruct ev as [r|]; [|exists m; eauto].
  destruct r; try (by apply Hsame); cbn in He, Hs.
  - destruct (decide (id0 = id)) as [->|Hne]; [|apply Hsame; [done|]; by apply update_other].
    exists (label_info label i). split; [done|]. split; [naive_solver|]. left. by apply update_same.
  - exists m. eauto.
  - cbn [registry_step reconciles]. destruct (duration_seconds _) as [d|]; [|exists m; eauto].
    exists m. split; [done|]. split; [done|]. simpl.
    destruct (keeps (e_now e 1%nat) d m) eqn:K.
    + left. by apply map_lookup_filter_Some.
    + right. unfold keeps in K. bool_prop. split; [done|]. apply map_lookup_filter_None. right.
      intros x Hx. rewrite Hmk in Hx. injection Hx as <-. simpl. unfold keeps. rewrite H. simpl. lia.
  - bool_prop. apply Hsame; [done|]. by apply lookup_insert_ne.
  - bool_prop. apply Hsame; [done|]. by apply lookup_delete_ne.
  - case_bool_decide; [done|]. apply Hsame; [done|]. by apply update_other.
  - bool_prop. apply Hsame; [done|]. by apply stop_other.
  - case_bool_decide; [done|]. apply Hsame; [done|]. by apply upsert_other.
  - case_bool_decide; [done|]. apply Hsame; [done|]. by apply update_other.
Qed.

Lemma step_absent e ev g id :
  g !! id = None -> ends_session id ev = false -> sighting id ev = None ->
  registry_step e ev g !! id = None.
Proof.
  intros Hi He Hs.
  assert (Hmk : marked e g !! id = None) by (unfold marked; simpl; by rewrite lookup_fmap, Hi).
  assert (Hup : forall k f, (update k f g).1 !! id = None).
  { intros k f. destruct (decide (id = k)) as [->|]; [|by rewrite update_other].
    unfold update. by rewrite Hi. }
  destruct ev as [r|]; [|done]. destruct r; try done; cbn in He, Hs; cbn [registry_step]; try apply Hup.
  - destruct (duration_seconds _); [|done]. apply map_lookup_filter_None. by left.
  - bool_prop. unfold register. by rewrite lookup_insert_ne.
  - bool_prop. by rewrite lookup_delete_ne.
  - bool_prop. by rewrite stop_other.
  - case_bool_decide; [done|]. by rewrite upsert_other.
Qed.

(** A sighting keeps an active session active and moves its time. *)
Lemma step_seen e ev g id i t :
  g !! id = Some i -> is_active i = true -> sighting id ev = Some t ->
  exists i', registry_step e ev g !! id = Some i' /\ is_active i' = true /\ last_seen i' = t.
Proof.
  intros Hi Ha Hs. destruct ev as [r|]; [|done].
  destruct r; try done; cbn in Hs; case_bool_decide; try done; subst; injection Hs as ->; cbn [registry_step].
  - exists (heartbeat_info t cwd i). split; [by apply update_same|]. split; [|done].
    unfold is_active in *. cbn. by destruct (si_state i).
  - exists (hook_modify pid shell cwd t i). split; [by apply upsert_same|done].
  - exists (touch_info t i). split; [by apply update_same|done].
Qed.

Section Life.
Context `{SnapshotJson}.

(** ** Reporting sessions *)

(** Starting from a sighting at [t], each reconciliation comes at most 30 seconds after the
    latest sighting. *)
Fixpoint timely (id : str) (t : Z) (evs : list (env * event)) : bool :=
  match evs with
  | [] => true
  | (e, ev) :: rest =>
      negb (ends_session id ev) &&
      (if reconciles ev then e_now e 0%nat - t <=? STALE_ACTIVE_AFTER else true) &&
      timely id (default t (sighting id ev)) rest
  end.

(** An active session that reports in time stays registered and active, whatever other
    requests and ticks come between its reports. *)
Theorem reporting_session_stays_active id evs c i :
  Forall admissible evs -> wf_registry (registry c) ->
  registry c !! id = Some i -> is_active i = true -> timely id (last_seen i) evs = true ->
  exists i', registry (exec evs c) !! id = Some i' /\ is_active i' = true.
Proof.
  intros Hev. revert c i. induction Hev as [|[e ev] evs [Ho Hu] Hevs IH]; intros c i Hg Hi Ha Ht; [eauto|].
  cbn [timely] in Ht. bool_prop.
  assert (Hst : exists i', registry (step (e, ev) c) !! id = Some i' /\ is_active i' = true
    /\ last_seen i' = default (last_seen i) (sighting id ev)).
  { rewrite step_registry by done. destruct (sighting id ev) as [t|] eqn:S.
    - by apply (step_seen e ev _ _ i).
    - destruct (step_unseen e ev _ _ _ Hi H0 S) as (i' & Hl & Hact & [Hr|[Hn _]]); exists i'.
      + split; [done|]. split; [|done]. apply Hact. split; [done|]. intros Hr'. rewrite Hr' in H2. lia.
      + exfalso. assert (is_active i' = true); [|congruence]. apply Hact. split; [done|].
        intros Hr'. rewrite Hr' in H2. lia. }
  destruct Hst as (i' & Hr & Ha' & Hl). apply (IH (step (e, ev) c) i'); [|done..|].
  - rewrite step_registry by done. by apply registry_step_wf.
  - by rewrite Hl.
Qed.

(** ** Silent sessions *)

Definition quiet (id : str) (ev : env * event) : Prop :=
  ends_session id ev.2 = false /\ sighting id ev.2 = None.

(** Not in the registry, or there but not active. *)
Definition inactive (id : str) (g : SessionRegistry) : Prop :=
  forall i, g !! id = Some i -> is_active i = false.

Lemma step_inactive e ev g id :
  quiet id (e, ev) -> inactive id g -> inactive id (registry_step e ev g).
Proof.
  intros [He Hs] Hin j Hj. destruct (g !! id) as [i|] eqn:Hi.
  - destruct (step_unseen e ev g id i Hi He Hs) as (i' & _ & Hact & [Hr|[_ Hr]]); [|congruence].
    rewrite Hr in Hj. injection Hj as <-. apply not_true_is_false. intros Ht. apply Hact in Ht as [Ht _].
    specialize (Hin i Hi). congruence.
  - rewrite step_absent in Hj by done. done.
Qed.

Lemma exec_inactive evs c id :
  Forall admissible evs -> Forall (quiet id) evs -> wf_registry (registry c) ->
  inactive id (registry c) -> inactive id (registry (exec evs c)).
Proof.
  intros Hev. revert c. induction Hev as [|[e ev] evs [Ho Hu] Hevs IH]; intros c Hq Hg Hin; [done|].
  apply Forall_cons in Hq as [Hq Hqs]. apply (IH (step (e, ev) c)); [done|..]; rewrite step_registry by done.
  - by apply registry_step_wf.
  - by apply step_inactive.
Qed.

(** Until a tick finds it silent, a quiet session keeps its last sighting. *)
Lemma exec_quiet evs c id i :
  Forall admissible evs -> Forall (quiet id) evs -> wf_registry (registry c) ->
  registry c !! id = Some i ->
  inactive id (registry (exec evs c)) \/
  exists i', registry (exec evs c) !! id = Some i' /\ last_seen i' = last_seen i.
Proof.
  intros Hev. revert c i. induction Hev as [|[e ev] evs [Ho Hu] Hevs IH]; intros c i Hq Hg Hi; [eauto|].
  apply Forall_cons in Hq as [[He Hs] Hqs].
  assert (Hw : wf_registry (registry (step (e, ev) c)))
    by (rewrite step_registry by done; by apply registry_step_wf).
  destruct (step_unseen e ev _ _ _ Hi He Hs) as (i' & Hl & _ & [Hr|[_ Hr]]);
    rewrite <- step_registry in Hr by done.
  - destruct (IH _ _ Hqs Hw Hr) as [|(j & Hj & Hlj)]; [by left|]. right. exists j. split; [done|]. congruence.
  - left. apply (exec_inactive evs (step (e, ev) c)); [done..|]. intros j Hj. congruence.
Qed.

(** Times of the ticks, and that each comes at most an interval after the one before. *)
Definition tick_times (evs : list (env * event)) : list Z :=
  omap (fun ev => match ev.2 with Tick => Some (e_now ev.1 0%nat) | _ => None end) evs.

Fixpoint paced (t : Z) (ticks : list Z) : Prop :=
  match ticks with
  | [] => True
  | x :: rest => x <= t + RECONCILE_INTERVAL /\ paced x rest
  end.

Lemma first_late_tick s evs t :
  t <= s -> paced t (tick_times evs) -> Exists (fun x => s < x) (tick_times evs) ->
  exists pre e post, evs = pre ++ (e, Tick) :: post /\
    s < e_now e 0%nat <= s + RECONCILE_INTERVAL.
Proof.
  revert t. induction evs as [|[e ev] evs IH]; intros t Ht Hp Hx; [by apply Exists_nil in Hx|].
  destruct ev as [r|].
  - destruct (IH t Ht Hp Hx) as (pre & e' & post & -> & Hl). by exists ((e, Req r) :: pre), e', post.
  - cbn in Hp, Hx. destruct Hp as [H1 H2]. destruct (decide (s < e_now e 0%nat)) as [Hs|Hs].
    + exists [], e, evs. split; [done|]. lia.
    + apply Exists_cons in Hx as [?|Hx]; [lia|].
      destruct (IH (e_now e 0%nat) ltac:(lia) H2 Hx) as (pre & e' & post & -> & Hl).
      by exists ((e, Tick) :: pre), e', post.
Qed.

(** A session that stops reporting is found inactive by a tick that comes at most one
    interval after the stale period, and stays so: within a minute of its last report no
    listing calls it active. *)
Theorem silent_session_detached id evs c i :
  Forall admissible evs -> Forall (quiet id) evs -> wf_registry (registry c) ->
  registry c !! id = Some i ->
  paced (last_seen i + STALE_ACTIVE_AFTER) (tick_times evs) ->
  Exists (fun x => last_seen i + STALE_ACTIVE_AFTER < x) (tick_times evs) ->
  exists pre e post, evs = pre ++ (e, Tick) :: post /\
    e_now e 0%nat <= last_seen i + STALE_ACTIVE_AFTER + RECONCILE_INTERVAL /\
    forall k, inactive id (registry (exec (pre ++ (e, Tick) :: take k post) c)).
Proof.
  intros Hev Hq Hg Hi Hp Hx.
  destruct (first_late_tick _ _ _ ltac:(reflexivity) Hp Hx) as (pre & e & post & -> & H1 & H2).
  exists pre, e, post. split; [done|]. split; [done|]. intros k.
  apply Forall_app in Hev as [Hev1 [Hev2 Hev3]%Forall_cons].
  apply Forall_app in Hq as [Hq1 [Hq2 Hq3]%Forall_cons].
  destruct (exec_registry pre c Hev1 Hg) as [_ Hw].
  change ((e, Tick) :: take k post) with ([(e, Tick)] ++ take k post).
  rewrite !exec_app. apply exec_inactive; [by apply Forall_take..| |].
  - destruct (exec_registry [(e, Tick)] (exec pre c)) as [_ ?]; [by apply Forall_singleton|done|done].
  - unfold exec at 1. cbn [foldl]. rewrite step_registry by (done || apply Hev2).
    destruct (exec_quiet pre c id i) as [Hin|(j & Hj & Hl)]; try done.
    + by apply step_inactive.
    + intros x Hxx. unfold registry_step in Hxx. rewrite (marked_lookup _ _ _ _ Hj) in Hxx.
      injection Hxx as <-. destruct (is_stale _ _ j) eqn:E; [done|]. unfold is_stale in E.
      destruct (is_active j); [|done]. simpl in E. bool_prop. lia.
Qed.
End Life.

(** ** Concurrent saves *)

(** The handlers of two registrations run as separate tasks. The registry is locked for the
    insertion and for the listing, not across the save: the phases of a task. *)
Inductive save_phase :=
| Arrived (info : SessionInfo)
| Registered
| Listed (json : str)
| TmpWritten
| Saved
| SaveFailed.

Record SaveState := {
  sv_registry : SessionRegistry;
  sv_fs : SnapFs;
  sv_tasks : list save_phase;
}.

Section Race.
Context `{SnapshotJson} (ord : list SessionInfo -> list SessionInfo) (Hord : iteration ord).

(** One phase of task [k]: [register], then the three parts of [save_snapshot]. *)
Definition save_step (k : nat) (st : SaveState) : SaveState :=
  let goto ph g fs := {| sv_registry := g; sv_fs := fs; sv_tasks := <[k := ph]> st.(sv_tasks) |} in
  let g := st.(sv_registry) in let fs := st.(sv_fs) in
  match st.(sv_tasks) !! k with
  | Some (Arrived info) => goto Registered (register info g) fs
  | Some Registered =>
      match encode_sessions (list_sessions ord g) with
      | Some json => goto (Listed json) g fs
      | None => goto SaveFailed g fs
      end
  | Some (Listed json) => goto TmpWritten g {| snap_file := fs.(snap_file); snap_tmp := Some json |}
  | Some TmpWritten =>
      match fs.(snap_tmp) with
      | Some json => goto Saved g {| snap_file := Some json; snap_tmp := None |}
      | None => goto SaveFailed g fs
      end
  | _ => st
  end.

Definition run_saves (schedule : list nat) (st : SaveState) : SaveState :=
  foldl (fun st k => save_step k st) st schedule.

(** Two sessions register at the same time and both are told they are registered; the task
    that listed first writes last, and the session that came second is missing from the
    snapshot. *)
Theorem concurrent_saves_lose_session a b now :
  si_id a <> si_id b -> utf8_cwd a = true -> utf8_cwd b = true ->
  let st := run_saves [0; 0; 1; 1; 1; 1; 0; 0]%nat
    {| sv_registry := ∅; sv_fs := {| snap_file := None; snap_tmp := None |};
       sv_tasks := [Arrived a; Arrived b] |} in
  sv_tasks st = [Saved; Saved] /\ sv_registry st !! si_id b = Some b /\
  load_snapshot now (sv_fs st) = Ok (restart_view now {[ si_id a := a ]}).
Proof.
  intros Hne Ha Hb.
  assert (Hw1 : wf_registry (<[si_id a := a]> ∅)) by (apply wf_insert; [by split|apply map_Forall_empty]).
  assert (Hw2 : wf_registry (<[si_id b := b]> (<[si_id a := a]> ∅))) by (apply wf_insert; [by split|done]).
  assert (Henc : forall g, wf_registry g -> is_Some (encode_sessions (list_sessions ord g))).
  { intros g Hg. apply encode_utf8, Forall_forall. intros i [k Hk]%elem_of_list_sessions; [|done].
    by apply (Hg k). }
  destruct (Henc _ Hw1) as [j1 E1]. destruct (Henc _ Hw2) as [j2 E2].
  assert (Hl : forall k g fs ts json, ts !! k = Some Registered ->
    encode_sessions (list_sessions ord g) = Some json ->
    save_step k {| sv_registry := g; sv_fs := fs; sv_tasks := ts |} =
      {| sv_registry := g; sv_fs := fs; sv_tasks := <[k := Listed json]> ts |}).
  { intros k g fs ts json Ht E. unfold save_step. cbn. by rewrite Ht, E. }
  set (s0 := Build_SaveState _ _ _).
  assert (Hst : run_saves [0; 0; 1; 1; 1; 1; 0; 0]%nat s0 = {|
    sv_registry := <[si_id b := b]> (<[si_id a := a]> ∅);
    sv_fs := {| snap_file := Some j1; snap_tmp := None |}; sv_tasks := [Saved; Saved] |}).
  { unfold run_saves. cbn [foldl].
    change (save_step 0 s0) with {| sv_registry := <[si_id a := a]> ∅;
      sv_fs := {| snap_file := None; snap_tmp := None |}; sv_tasks := [Registered; Arrived b] |}.
    rewrite (Hl 0%nat _ _ _ j1) by done.
    change (save_step 1 {| sv_registry := <[si_id a := a]> ∅; sv_fs := {| snap_file := None; snap_tmp := None |};
      sv_tasks := <[0%nat := Listed j1]> [Registered; Arrived b] |}) with
      {| sv_registry := <[si_id b := b]> (<[si_id a := a]> ∅);
         sv_fs := {| snap_file := None; snap_tmp := None |}; sv_tasks := [Listed j1; Registered] |}.
    by rewrite (Hl 1%nat _ _ _ j2) by done. }
  rewrite Hst. cbn [sv_tasks sv_registry sv_fs]. split; [done|]. split; [apply lookup_insert_eq|].
  apply (load_save ord _ {| snap_file := None; snap_tmp := None |}); [done|done|].
  unfold save_snapshot. change ({[si_id a := a]} : SessionRegistry) with (<[si_id a := a]> ∅ : SessionRegistry).
  by rewrite E1.
Qed.
End Race.

(** ** Concrete runs *)

Definition state_code (st : SessionState) : nat :=
  match st with
  | Creating => 0 | Attached => 1 | Detached => 2 | Stopping => 3 | Stopped => 4 | Failed => 5
  end%nat.
Definition code_state (n : nat) : option SessionState :=
  [Creating; Attached; Detached; Stopping; Stopped; Failed] !! n.

#[local] Program Instance SessionState_countable : Countable SessionState :=
  inj_countable state_code code_state _.
Next Obligation. by intros []. Qed.

#[local] Program Instance SessionInfo_countable : Countable SessionInfo := inj_countable'
  (fun i => (si_id i, si_pid i, si_state i, si_created_at i, (si_last_seen_at i, si_last_command_at i,
     si_attached_tty i), (si_shell i, si_cwd i, si_label i)))
  (fun '(a, b, c, d, (e, f, g), (h, k, l)) => {| si_id := a; si_pid := b; si_state := c;
     si_created_at := d; si_last_seen_at := e; si_last_command_at := f; si_attached_tty := g;
     si_shell := h; si_cwd := k; si_label := l |}) _.
Next Obligation. by intros []. Qed.

(** A codec with the laws the registry relies on. *)
#[local] Program Instance bits_snapshot : SnapshotJson := {|
  encode_sessions l := if forallb utf8_cwd l then Some (bits_of (encode l)) else None;
  decode_sessions b := of_bits b ≫= decode;
|}.
Next Obligation.
  intros l Hl. simpl. replace (forallb utf8_cwd l) with true; [done|]. symmetry.
  apply forallb_forall. intros x Hx. rewrite Forall_forall in Hl. by apply Hl, list_elem_of_In.
Qed.
Next Obligation.
  intros l b. simpl. destruct (forallb utf8_cwd l); [|done]. intros [= <-].
  split; [apply utf8_bits|apply of_bits_encode].
Qed.

Definition ctx0 : ControlContext := {|
  shutdown := false; registry := ∅; record_store := empty_store; record_tap := [];
  registry_path := true; snapshot := {| snap_file := None; snap_tmp := None |};
  central_store_push_total := 0; attach_connections := 0; attach_open_total := 0; agent_bus := [];
  exporter_health := false; logs_tx := None; flush_tx := false; process_inventory := None;
  signals := [] |}.

(** The environment at [t] seconds: saves succeed; [kill] answers for every process. *)
Definition env_at (kill : kill_answer) (t : Z) : env := {|
  e_now := fun _ => t * SECOND; e_saves := fun _ => (SnapOk, fun l => l); e_order := fun l => l; e_rng := 7;
  e_flush := FlushNoReply; e_exe := fun _ => Some (lit "/usr/bin/aic-session"); e_kill := fun _ => kill;
  e_exporter := default_exporter_status;
  e_self_update := {| su_configured := false; su_live := false; su_interval_secs := 0;
    su_last_check_secs_ago := None; su_desired_version := None; su_last_outcome := None;
    su_current_version := [] |};
  e_version := {| dv_version := []; dv_commit := []; dv_build_info := [] |};
  e_uptime := 0; e_pid := 1; e_ipc_requests := 0 |}.

Definition session (id : str) (pid created : Z) : SessionInfo := {|
  si_id := id; si_pid := pid; si_state := Attached; si_created_at := created * SECOND;
  si_last_seen_at := None; si_last_command_at := None; si_attached_tty := Some (lit "/dev/pts/1");
  si_shell := None; si_cwd := Some (lit "/home/u"); si_label := None |}.

Definition history : list (env * event) := [
  (env_at KillOk 1, Req (RegisterSession (session (lit "aa") 100 1)));
  (env_at KillOk 2, Req (RegisterSession (session (lit "bb") 200 2)));
  (env_at KillOk 25, Req (HeartbeatSession (lit "aa") (25 * SECOND) None));
  (env_at KillOk 30, Tick);
  (env_at KillOk 50, Req (HeartbeatSession (lit "aa") (50 * SECOND) (Some (lit "/tmp"))));
  (env_at KillOk 60, Tick);
  (env_at KillOk 70, Req (StopSession (lit "aa")))].

Lemma iteration_id : iteration (fun l => l).
Proof. by intros l. Qed.

Definition sound (ev : env * event) : Prop := admissible ev /\ saves_ok ev.1 /\ no_gone_process ev.

Lemma plain_event t ev : utf8_event ev = true -> sound (env_at KillOk t, ev).
Proof.
  intros Hu. split; [split; [exact iteration_id|exact Hu]|].
  split; [intros n; split; [done|exact iteration_id]|]. intros pid. discriminate.
Qed.

Lemma history_ok : Forall (fun ev => admissible ev /\ saves_ok ev.1 /\ no_gone_process ev) history.
Proof. fold sound. repeat (apply List.Forall_cons; [by apply plain_event|]). apply List.Forall_nil. Qed.

Lemma ctx0_boots : boots 0 ctx0.
Proof.
  exists ∅. split; [apply map_Forall_empty|]. split; [by vm_compute|]. intros _ now. cbn. done.
Qed.

Lemma restart_restores_registry_witness :
  load_snapshot (80 * SECOND) (snapshot (exec history ctx0)) =
  Ok (restart_view (80 * SECOND) (registry (exec history ctx0))).
Proof.
  apply (restart_restores_registry 0 history ctx0 (80 * SECOND));
    [exact ctx0_boots | reflexivity | exact history_ok | vm_compute; discriminate].
Defined.

Definition ctx2 : ControlContext := exec (take 2 history) ctx0.

Lemma ctx2_wf : wf_registry (registry ctx2).
Proof.
  apply (exec_registry (take 2 history) ctx0); [|apply map_Forall_empty].
  apply Forall_take. eapply Forall_impl; [exact history_ok|]. by intros ? [? _].
Qed.

Lemma gone_session_comes_back_witness :
  let c' := step (env_at KillNoSuchProcess 3, Req (StopSession (lit "aa"))) ctx2 in
  registry c' !! lit "aa" = None /\
  exists g, load_snapshot (5 * SECOND) (snapshot c') = Ok g /\
    g !! lit "aa" = Some (detach_if_active (session (lit "aa") 100 1)).
Proof.
  apply (gone_session_comes_back 0 (env_at KillNoSuchProcess 3) (lit "aa") ctx2
    (session (lit "aa") 100 1) (5 * SECOND)).
  - exact iteration_id.
  - exact ctx2_wf.
  - apply (exec_restorable 0 (take 2 history) ctx0 ctx0_boots). apply Forall_take, history_ok.
  - vm_compute. reflexivity.
  - vm_compute. reflexivity.
  - vm_compute. reflexivity.
  - vm_compute. reflexivity.
  - vm_compute. reflexivity.
  - vm_compute. discriminate.
  - vm_compute. discriminate.
Defined.

Lemma signals_only_sessions_witness :
  let ev := Req (StopSession (lit "aa")) in
  (signals (step (env_at KillOk 3, ev) ctx2) = signals ctx2 \/
   exists id i, ev = Req (StopSession id) /\ registry ctx2 !! id = Some i /\
     let pid := signed 32 (si_pid i) in
     signals (step (env_at KillOk 3, ev) ctx2) = signals ctx2 ++ [pid] /\ 1 < pid /\
     (forall path, e_exe (env_at KillOk 3) pid = Some path -> path_file_name path = Some (lit "aic-session")))
  /\ signals (step (env_at KillOk 3, ev) ctx2) = [100].
Proof.
  split; [apply (signals_only_sessions (env_at KillOk 3) _ ctx2 iteration_id ctx2_wf)|].
  vm_compute. reflexivity.
Defined.

Lemma list_sessions_answer_witness :
  exists c' l, process_control_request (env_at KillOk 40) ListSessions ctx2 = (c', Some (Sessions l)) /\
    l ≡ₚ (map_to_list (registry c')).*2 /\
    StronglySorted (fun x y => si_created_at x <= si_created_at y) l /\
    si_id <$> l ≡ₚ elements (dom (registry ctx2)) /\
    Forall (fun i => is_active i = true ->
      e_now (env_at KillOk 40) 0%nat - last_seen i <= STALE_ACTIVE_AFTER) l.
Proof. exact (list_sessions_answer (env_at KillOk 40) ctx2 iteration_id ctx2_wf). Defined.

Lemma prune_exact_witness :
  (let '(c', answer) := process_control_request (env_at KillOk 40) (PruneSessions 5) ctx2 in
   if 5 <=? i64_max / 1000 then
     (forall id, registry c' !! id = registry ctx2 !! id ≫= pruned (env_at KillOk 40) (5 * SECOND)) /\
     answer = Some (PrunedSessions (size (registry ctx2) - size (registry c')))
   else answer = None /\ registry c' = marked (env_at KillOk 40) (registry ctx2)) /\
  (process_control_request (env_at KillOk 40) (PruneSessions 5) ctx2).2 = Some (PrunedSessions 2) /\
  (process_control_request (env_at KillOk 40) (PruneSessions u64_max) ctx2).2 = None.
Proof.
  split; [apply (prune_exact (env_at KillOk 40) 5 ctx2); discriminate|]. split; vm_compute; reflexivity.
Defined.

Definition later : list (env * event) := drop 2 history.

Lemma reporting_session_stays_active_witness :
  exists i', registry (exec (take 4 later) ctx2) !! lit "aa" = Some i' /\ is_active i' = true.
Proof.
  apply (reporting_session_stays_active (lit "aa") (take 4 later) ctx2 (session (lit "aa") 100 1));
    [ apply Forall_take, Forall_drop; eapply Forall_impl; [exact history_ok|]; by intros ? [? _]
    | exact ctx2_wf | vm_compute; reflexivity | reflexivity | vm_compute; reflexivity].
Defined.

Lemma silent_session_detached_witness :
  exists pre e post, later = pre ++ (e, Tick) :: post /\
    e_now e 0%nat <= 2 * SECOND + STALE_ACTIVE_AFTER + RECONCILE_INTERVAL /\
    forall k, inactive (lit "bb") (registry (exec (pre ++ (e, Tick) :: take k post) ctx2)).
Proof.
  apply (silent_session_detached (lit "bb") later ctx2 (session (lit "bb") 200 2)).
  - apply Forall_drop. eapply Forall_impl; [exact history_ok|]. by intros ? [? _].
  - repeat (apply List.Forall_cons; [by split|]). apply List.Forall_nil.
  - exact ctx2_wf.
  - vm_compute. reflexivity.
  - vm_compute. repeat split; discriminate.
  - apply Exists_cons_tl, Exists_cons_hd. reflexivity.
Defined.

Lemma concurrent_saves_lose_session_witness :
  let a := session (lit "aa") 100 1 in let b := session (lit "bb") 200 2 in
  let st := run_saves (fun l => l) [0; 0; 1; 1; 1; 1; 0; 0]%nat
    {| sv_registry := ∅; sv_fs := {| snap_file := None; snap_tmp := None |};
       sv_tasks := [Arrived a; Arrived b] |} in
  sv_tasks st = [Saved; Saved] /\ sv_registry st !! si_id b = Some b /\
  load_snapshot (3 * SECOND) (sv_fs st) = Ok (restart_view (3 * SECOND) {[ si_id a := a ]}).
Proof.
  apply (concurrent_saves_lose_session (fun l => l) iteration_id); [discriminate|reflexivity|reflexivity].
Defined.
