(* ===== verification/Uds.v ===== *)
(** * The session's own socket server (aic-server/src/uds_server.rs)

    What [aic-session] answers about its own ring buffer, in each server mode and build
    phase. The connection handler is [Ipc.handle_client]. *)

From S2P Require Import Prelude RustStr Bytes Records RingBuffer Attach Registry Ipc.

Inductive UdsServerMode := FullLocal | PingOnly.

Definition from_u8 (value : Z) : UdsServerMode := if value =? 1 then PingOnly else FullLocal.

(** The session side's counters; absent when they were not injected. *)
Record AttachMetrics := { am_dropped_bytes : Z; am_attach_reconnect_total : Z }.

Record UdsState := {
  us_buffer : RingBuffer;
  us_ipc_requests : Z;  (** an [AtomicU64] *)
}.

(** What a request finds: the random draw of a record identifier, the clock, and the
    process's own figures. [u_phase_3_5] is the build feature. *)
Record uds_env := {
  u_phase_3_5 : bool;
  u_mode : UdsServerMode;
  u_metrics : option AttachMetrics;
  u_rng : Z;
  u_now : Z;
  u_uptime : Z;
  u_pid : Z;
  u_version : DaemonVersion;
}.

(** The guard in front of every query of the local records. *)
Definition local_query (e : uds_env) (answer : option IpcResponse) : option IpcResponse :=
  if e.(u_phase_3_5) then Some (IpcError CentralStoreRouting)
  else match e.(u_mode) with
       | PingOnly => Some (IpcError CentralStoreRouting)
       | FullLocal => answer
       end.

(** [(now - timestamp).num_seconds().max(0)]: whole seconds, toward zero. *)
Definition secs_ago (now t : Z) : Z := Z.max (Z.quot (now - t) SECOND) 0.

Definition session_metrics (e : uds_env) (st : UdsState) : MetricsSnapshot := {|
  ms_uptime_secs := e.(u_uptime); ms_pid := e.(u_pid);
  ms_ipc_request_count := st.(us_ipc_requests);
  ms_rb_used := Z.of_nat (total_lines st.(us_buffer));
  ms_rb_capacity := Z.of_nat (capacity st.(us_buffer));
  ms_last_command_secs_ago := (fun r => secs_ago e.(u_now) r.(timestamp)) <$> last_record st.(us_buffer);
  ms_central_store_push_total := 0; ms_attach_connections := 0; ms_attach_open_total := 0;
  ms_dropped_bytes := default 0 (am_dropped_bytes <$> e.(u_metrics));
  ms_attach_reconnect_total := default 0 (am_attach_reconnect_total <$> e.(u_metrics)) |}.

(** [None] is a panic of the handler. *)
Definition process_request (e : uds_env) (request : IpcRequest) (st : UdsState)
    : UdsState * option IpcResponse :=
  let st := {| us_buffer := st.(us_buffer);
               us_ipc_requests := (st.(us_ipc_requests) + 1) mod 2 ^ 64 |} in
  match request with
  | GetLastCommand =>
      (st, local_query e (Some (match last_record st.(us_buffer) with
                                | Some record => CommandData record
                                | None => IpcError NoStoredCommand
                                end)))
  | GetRecentLines count =>
      (st, local_query e (if with_capacity_ok count 16
                          then Some (Lines (recent_lines (Z.to_nat count) st.(us_buffer)))
                          else None))
  | GetRecentCommands count =>
      (st, local_query e (Some (CommandRecords (recent_records (Z.to_nat count) st.(us_buffer)))))
  | FindRecordByPrefix prefix =>
      (st, local_query e (Some (CommandRecords (RingBuffer.find_by_prefix prefix st.(us_buffer)))))
  | RegisterRecord record =>
      match push e.(u_rng) record st.(us_buffer) with
      | Some rb => ({| us_buffer := rb; us_ipc_requests := st.(us_ipc_requests) |}, Some Pong)
      | None => (st, None)
      end
  | Ping => (st, Some Pong)
  | GetVersion => (st, Some (Version e.(u_version)))
  | GetMetrics => (st, Some (Metrics (session_metrics e st)))
  | _ => (st, Some (IpcError ControlPlaneRequest))
  end.

(** ** Theorems *)

Definition run_requests (rs : list (uds_env * IpcRequest)) (st : UdsState) : UdsState :=
  foldl (fun st r => (process_request r.1 r.2 st).1) st rs.

Lemma process_request_inv e r st :
  inv (us_buffer st) ->
  inv (us_buffer (process_request e r st).1).
Proof.
  intros Hi. destruct r; try exact Hi. cbn [process_request].
  destruct (push_spec (u_rng e) record (us_buffer st) Hi) as (rb & E & Hrb & _). cbn [us_buffer].
  rewrite E. exact Hrb.
Qed.

Lemma run_requests_inv rs st : inv (us_buffer st) -> inv (us_buffer (run_requests rs st)).
Proof. revert st. induction rs as [|r rs IH]; intros st Hi; [done|]. apply IH. by apply process_request_inv. Qed.

(** After any requests the session's buffer is consistent; a request panics only for a
    number of lines whose pointers exceed [isize::MAX] bytes, and queries are refused
    exactly outside the full local mode. *)
Theorem session_requests_safe rs cap e r :
  let st := run_requests rs {| us_buffer := new cap; us_ipc_requests := 0 |} in
  inv (us_buffer st) /\
  ((process_request e r st).2 = None <->
    exists count, r = GetRecentLines count /\ with_capacity_ok count 16 = false /\
      u_phase_3_5 e = false /\ u_mode e = FullLocal).
Proof.
  intros st. assert (Hi : inv (us_buffer st)) by (apply run_requests_inv, new_inv).
  split; [done|]. unfold process_request. destruct r; cbn [snd]; try (split; [|by intros (? & ? & ?)]);
    try done; unfold local_query;
    try (by destruct (u_phase_3_5 e), (u_mode e)).
  - destruct (u_phase_3_5 e), (u_mode e), (with_capacity_ok count 16) eqn:E;
      (split; [intros Hn|intros (k & [= <-] & Hk & Hp & Hm)]); try congruence. by exists count.
  - cbn [us_buffer]. destruct (push_spec (u_rng e) record (us_buffer st) Hi) as (rb & -> & _). done.
Qed.

(** A registered record stays the answer to the last-command query, whatever the capacity,
    also in the mode whose buffer has capacity zero. *)
Theorem registered_record_is_last e e' record st :
  inv (us_buffer st) -> u_phase_3_5 e' = false -> u_mode e' = FullLocal ->
  (process_request e' GetLastCommand (process_request e (RegisterRecord record) st).1).2 =
    Some (CommandData (ensure_id (u_rng e) record)).
Proof.
  intros Hi Hp Hm. cbn [process_request us_buffer].
  destruct (push_spec (u_rng e) record (us_buffer st) Hi) as (rb & -> & _ & _ & kept & Hr & _).
  cbn [fst snd us_buffer]. unfold local_query, last_record. by rewrite Hp, Hm, Hr, last_snoc.
Qed.
