(* ===== verification/AuditLog.v ===== *)
(** * The client's audit log (aic-client/src/audit.rs)

    An append-only file of JSON lines, each with a sequence number, the hash of the line
    before it and an HMAC of its own content; the key that makes them; rotation; verification
    and the queries over the log. The file system, the keychain, the clock and the random
    source are arguments; HMAC-SHA256, JSON and time formatting are parameters with laws.

    Theorems: appended logs verify; a log that verifies is a prefix of what was appended;
    what the chain cannot see. *)

From S2P Require Import Prelude RustStr Bytes.

Definition GENESIS_HASH : str := replicate 64 x30.
Definition ROTATE_MAX_BYTES : Z := 100 * 1024 * 1024.
Definition ROTATE_KEEP : nat := 5.
Definition BAR : byte := x7c.
Definition LF : byte := x0a.

(** [u64 + 1] in a release build. *)
Definition succ64 (n : Z) : Z := (n + 1) mod 2 ^ 64.

(** [ts] counts nanoseconds; [Value] is [serde_json::Value]. *)
Record AuditEvent (Value : Type) := {
  seq : Z;
  ts : Z;
  kind : str;
  data : Value;
  prev_hash : str;
  line_hash : str;
}.
Arguments seq {Value}.
Arguments ts {Value}.
Arguments kind {Value}.
Arguments data {Value}.
Arguments prev_hash {Value}.
Arguments line_hash {Value}.
Arguments Build_AuditEvent {Value}.

Record VerifyReport := { vr_lines : nat; vr_valid : bool; vr_broken_at : option nat }.

(** ** What the log relies on *)

Class AuditJson (Value : Type) := {
  value_str : Value -> str;
  rfc3339 : Z -> str;
  hmac : str -> str -> str;
  event_str : AuditEvent Value -> str;
  event_parse : str -> option (AuditEvent Value);
  (** values that JSON text gives back unchanged *)
  exact : Value -> Prop;
}.

(** Values of the Rust type: a 64-bit number and UTF-8 strings. *)
Definition typed {Value} (e : AuditEvent Value) : Prop :=
  0 <= seq e < 2 ^ 64 /\ utf8_valid (kind e) = true /\
  utf8_valid (prev_hash e) = true /\ utf8_valid (line_hash e) = true.

(** Derived serialisation inverts, and prints an object on one line. *)
Class AuditJsonLaws (Value : Type) `{AuditJson Value} := {
  event_roundtrip : forall e, typed e -> exact (data e) -> event_parse (event_str e) = Some e;
  event_one_line : forall e, LF ∉ event_str e;
  event_utf8 : forall e, typed e -> utf8_valid (event_str e) = true;
  event_not_blank : forall e, trim (event_str e) <> [];
  event_end : forall e, last (event_str e) = Some x7d;
}.

(** The HMAC's input determines the line: times are printed in full and without a bar; JSON
    text is unambiguous, and a bar occurs in it only inside a string literal, so that no JSON
    text follows it to the end. *)
Class AuditTextLaws (Value : Type) `{AuditJson Value} := {
  rfc3339_no_bar : forall t, BAR ∉ rfc3339 t;
  rfc3339_inj : forall t t', rfc3339 t = rfc3339 t' -> t = t';
  value_inj : forall v v', value_str v = value_str v' -> v = v';
  value_no_tail : forall v v' x, value_str v' <> x ++ BAR :: value_str v;
}.

Section Log.
Context {Value : Type} `{AuditJson Value}.

(** ** The chain *)

Definition mac_input (seq ts : Z) (kind : str) (data : Value) (prev : str) : str :=
  show_unsigned seq ++ BAR :: rfc3339 ts ++ BAR :: kind ++ BAR :: value_str data ++ BAR :: prev.

Definition compute_hash (key : str) (seq ts : Z) (kind : str) (data : Value) (prev : str) : str :=
  hex_encode (hmac key (mac_input seq ts kind data prev)).

(** [reader.lines()]: [None] is a line that is not UTF-8. *)
Definition read_lines (content : str) : list (option str) :=
  (fun l => if utf8_valid l then Some l else None) <$> lines content.

Definition blank (line : str) : bool := bool_decide (trim line = []).

(** [last_event]: stops at a line that is not UTF-8, skips blank and unparsable lines. *)
Fixpoint last_event_of (ls : list (option str)) (acc : option (AuditEvent Value))
    : option (AuditEvent Value) :=
  match ls with
  | [] | None :: _ => acc
  | Some line :: rest =>
      if blank line then last_event_of rest acc
      else last_event_of rest (match event_parse line with Some e => Some e | None => acc end)
  end.

Definition last_event (log : option str) : option (AuditEvent Value) :=
  match log with
  | None => None
  | Some content => last_event_of (read_lines content) None
  end.

(** The loop of [verify_at]; [Err] is an I/O or parse error. *)
Fixpoint verify_loop (key prev : str) (expected : Z) (count i : nat) (ls : list (option str))
    : outcome VerifyReport unit :=
  match ls with
  | [] => Ok {| vr_lines := count; vr_valid := true; vr_broken_at := None |}
  | None :: _ => Err tt
  | Some line :: rest =>
      if blank line then verify_loop key prev expected count (S i) rest
      else match event_parse line with
           | None => Err tt
           | Some e =>
               let broken := Ok {| vr_lines := count; vr_valid := false; vr_broken_at := Some (S i) |} in
               if negb (seq e =? expected) then broken
               else if negb (bool_decide (prev_hash e = prev)) then broken
               else if negb (bool_decide
                      (compute_hash key (seq e) (ts e) (kind e) (data e) (prev_hash e) = line_hash e))
               then broken
               else verify_loop key (line_hash e) (succ64 (seq e)) (S count) (S i) rest
           end
  end.

(** The event that [append_to] writes after [last]. *)
Definition next_event (key : str) (now : Z) (kind : str) (data : Value)
    (last : option (AuditEvent Value)) : AuditEvent Value :=
  let prev := match last with Some e => line_hash e | None => GENESIS_HASH end in
  let next_seq := match last with Some e => succ64 (seq e) | None => 0 end in
  {| seq := next_seq; ts := now; kind := kind; data := data; prev_hash := prev;
     line_hash := compute_hash key next_seq now kind data prev |}.

(** ** The key *)

(** The key file, the keychain's entry, and the process's memory of both. *)
Record KeyState := {
  key_file : option str;
  keychain_item : option str;
  keychain_blocked : bool;
  key_cache : option str;
}.

(** After a timeout the call goes on in its thread, and a store may still take effect. *)
Inductive keychain_answer := KcOk | KcFails | KcTimeout (late : bool).

Record key_env := {
  k_enabled : bool;
  k_load : keychain_answer;
  k_store : keychain_answer;
  k_urandom : option str;
  k_dir_ok : bool;
  k_write_ok : bool;
}.

Definition keychain_enabled_from (is_test no_keychain opt_in : bool) : bool :=
  if is_test then false else if no_keychain then false else opt_in.

Definition block (ks : KeyState) : KeyState := {|
  key_file := ks.(key_file); keychain_item := ks.(keychain_item); keychain_blocked := true;
  key_cache := ks.(key_cache) |}.

Definition keychain_load_timed (e : key_env) (ks : KeyState) : KeyState * option str :=
  if ks.(keychain_blocked) then (ks, None)
  else match e.(k_load) with
       | KcOk => (ks, ks.(keychain_item))
       | KcFails => (ks, None)
       | KcTimeout _ => (block ks, None)
       end.

Definition keychain_store_timed (e : key_env) (secret : str) (ks : KeyState) : KeyState * bool :=
  let stored := {|
    key_file := ks.(key_file); keychain_item := Some secret;
    keychain_blocked := ks.(keychain_blocked); key_cache := ks.(key_cache) |} in
  if ks.(keychain_blocked) then (ks, false)
  else match e.(k_store) with
       | KcOk => (stored, true)
       | KcFails => (ks, false)
       | KcTimeout late => (block (if late then stored else ks), false)
       end.

(** The two-character slices of [decode_hex]; a slice off a character boundary panics. *)
Fixpoint decode_pairs (s : str) (fuel i : nat) : outcome str unit :=
  match fuel with
  | O => Ok []
  | S fuel =>
      if negb (is_char_boundary s i && is_char_boundary s (i + 2)) then Panic
      else match parse_unsigned 16 u8_max (take 2 (drop i s)) with
           | None => Err tt
           | Some v => obind (decode_pairs s fuel (i + 2)) (fun r => Ok (byte.of_Z v :: r))
           end
  end.

Definition decode_hex (s : str) : outcome str unit :=
  let s := trim s in
  if negb (length s mod 2 =? 0)%nat || bool_decide (s = []) then Err tt
  else decode_pairs s (length s / 2) 0.

(** A usable key: at least 32 bytes. *)
Definition key_ok (k : str) : bool := (32 <=? length k)%nat.

Definition file_key (e : key_env) (use_keychain : bool) (ks : KeyState)
    : KeyState * outcome str unit :=
  match ks.(key_file) with
  | Some content =>
      if key_ok content then
        ((if use_keychain then (keychain_store_timed e (hex_encode content) ks).1 else ks), Ok content)
      else (ks, Err tt)
  | None => (ks, Err tt)
  end.

Definition new_key (e : key_env) (use_keychain : bool) (ks : KeyState) : KeyState * outcome str unit :=
  if negb e.(k_dir_ok) then (ks, Err tt)
  else match e.(k_urandom) with
       | None => (ks, Err tt)
       | Some key =>
           let '(ks, stored) :=
             if use_keychain then keychain_store_timed e (hex_encode key) ks else (ks, false) in
           if stored then (ks, Ok key)
           else if e.(k_write_ok) then
             ({| key_file := Some key; keychain_item := ks.(keychain_item);
                 keychain_blocked := ks.(keychain_blocked); key_cache := ks.(key_cache) |}, Ok key)
           else (ks, Err tt)
       end.

Definition file_or_new_key (e : key_env) (use_keychain allow_new : bool) (ks : KeyState)
    : KeyState * outcome str unit :=
  match file_key e use_keychain ks with
  | (ks, Ok key) => (ks, Ok key)
  | (ks, _) => if allow_new then new_key e use_keychain ks else (ks, Err tt)
  end.

Definition load_or_create_key_inner (e : key_env) (use_keychain allow_new : bool) (ks : KeyState)
    : KeyState * outcome str unit :=
  let rest := file_or_new_key e use_keychain allow_new in
  if use_keychain then
    let '(ks, loaded) := keychain_load_timed e ks in
    match loaded with
    | None => rest ks
    | Some hex =>
        match decode_hex hex with
        | Panic => (ks, Panic)
        | Err _ => rest ks
        | Ok bytes => if key_ok bytes then (ks, Ok bytes) else rest ks
        end
    end
  else rest ks.

Definition load_or_create_key (e : key_env) (allow_new : bool) (ks : KeyState)
    : KeyState * outcome str unit :=
  if negb e.(k_enabled) then load_or_create_key_inner e false allow_new ks
  else match ks.(key_cache) with
       | Some k => (ks, Ok k)
       | None =>
           match load_or_create_key_inner e true allow_new ks with
           | (ks, Ok key) =>
               ({| key_file := ks.(key_file); keychain_item := ks.(keychain_item);
                   keychain_blocked := ks.(keychain_blocked); key_cache := Some key |}, Ok key)
           | r => r
           end
       end.

(** ** Files *)

(** The log and its rotated copies [.log.1] to [.log.5]. *)
Record AuditFs := { log_file : option str; old_logs : list (option str) }.

(** Whether the renames of a rotation succeed: index 0 is the log itself, and 5 the removal
    of the oldest copy. *)
Definition shift_old (rename : nat -> bool) (old : list (option str)) (i : nat) : list (option str) :=
  match old !! (i - 1)%nat with
  | Some (Some content) =>
      if rename i then <[(i - 1)%nat := None]> (<[i := Some content]> old) else old
  | _ => old
  end.

Definition rotate_if_needed (rename : nat -> bool) (fs : AuditFs) : AuditFs :=
  match fs.(log_file) with
  | None => fs
  | Some content =>
      if zlen content <? ROTATE_MAX_BYTES then fs
      else
        let old :=
          if rename ROTATE_KEEP then <[(ROTATE_KEEP - 1)%nat := None]> fs.(old_logs) else fs.(old_logs) in
        let old := foldl (shift_old rename) old [4; 3; 2; 1]%nat in
        if rename 0%nat then {| log_file := None; old_logs := <[0%nat := Some content]> old |}
        else {| log_file := Some content; old_logs := old |}
  end.

(** How far the write of the line gets. *)
Inductive line_io := LineOk | LineOpenFails | LinePartial (n : nat).

Record append_env := {
  a_dir_ok : bool;
  a_rename : nat -> bool;
  a_read_ok : bool;
  a_key : key_env;
  a_now : Z;
  a_write : line_io;
}.

Definition append_line (io : line_io) (line : str) (fs : AuditFs) : AuditFs * outcome unit unit :=
  let with_log c := {| log_file := Some c; old_logs := fs.(old_logs) |} in
  let old := default [] fs.(log_file) in
  match io with
  | LineOk => (with_log (old ++ line ++ [LF]), Ok tt)
  | LineOpenFails => (fs, Err tt)
  | LinePartial n => (with_log (old ++ take n (line ++ [LF])), Err tt)
  end.

Definition append_to (e : append_env) (kind : str) (data : Value) (s : AuditFs * KeyState)
    : (AuditFs * KeyState) * outcome unit unit :=
  let '(fs, ks) := s in
  if negb e.(a_dir_ok) then (s, Err tt)
  else
    let fs := rotate_if_needed e.(a_rename) fs in
    if negb e.(a_read_ok) && bool_decide (is_Some fs.(log_file)) then ((fs, ks), Err tt)
    else
      let last := last_event fs.(log_file) in
      let allow_new := bool_decide (last = None) in
      match load_or_create_key e.(a_key) allow_new ks with
      | (ks, Ok key) =>
          let event := next_event key e.(a_now) kind data last in
          let '(fs, r) := append_line e.(a_write) (event_str event) fs in ((fs, ks), r)
      | (ks, Err _) => ((fs, ks), Err tt)
      | (ks, Panic) => ((fs, ks), Panic)
      end.

Definition verify_at (e : key_env) (s : AuditFs * KeyState) : outcome VerifyReport unit :=
  match s.1.(log_file) with
  | None => Ok {| vr_lines := 0; vr_valid := true; vr_broken_at := None |}
  | Some content =>
      obind (load_or_create_key e false s.2).2 (fun key =>
        verify_loop key GENESIS_HASH 0 0 0 (read_lines content))
  end.
End Log.
