(* ===== verification/AuditSpec.v ===== *)
(** * Theorems about the audit log *)

From S2P Require Import Prelude RustStr Bytes Attach AuditLog.

Lemma last_cons_match {A B} (f : A -> B) d e es :
  match last (e :: es) with Some x => f x | None => d end =
  match last es with Some x => f x | None => f e end.
Proof.
  destruct es as [|e' es]; [done|]. rewrite last_cons_cons.
  by destruct (last (e' :: es)) eqn:E; [|apply last_None in E].
Qed.

Section Chain.
Context {Value : Type} `{AuditJson Value} `{!AuditJsonLaws Value}.

(** The text of a log of events. *)
Definition log_text (es : list (AuditEvent Value)) : str := mjoin ((fun e => event_str e ++ [LF]) <$> es).

Lemma log_text_app es es' : log_text (es ++ es') = log_text es ++ log_text es'.
Proof. unfold log_text. by rewrite fmap_app, join_app. Qed.

Lemma log_text_one e : log_text [e] = event_str e ++ [LF].
Proof. unfold log_text. simpl. apply app_nil_r. Qed.

Lemma log_text_cons e es : log_text (e :: es) = event_str e ++ LF :: log_text es.
Proof. unfold log_text. simpl. by rewrite <- app_assoc. Qed.

(** The lines of well-typed events followed by any text. *)
Lemma read_lines_log es rest :
  Forall typed es -> read_lines (log_text es ++ rest) = (Some <$> (event_str <$> es)) ++ read_lines rest.
Proof.
  induction 1 as [|e es He Hes IH]; [done|].
  rewrite log_text_cons, <- app_assoc. simpl. unfold read_lines in *.
  rewrite lines_line by apply event_one_line.
  rewrite (strip_cr_other _ x7d) by (done || apply event_end). rewrite fmap_cons, IH.
  by rewrite event_utf8.
Qed.

Lemma read_log es : Forall typed es -> read_lines (log_text es) = Some <$> (event_str <$> es).
Proof. intros He. rewrite <- (app_nil_r (log_text es)), read_lines_log by done. apply app_nil_r. Qed.

Lemma event_str_not_blank (e : AuditEvent Value) : blank (event_str e) = false.
Proof. apply bool_decide_eq_false_2, event_not_blank. Qed.

(** ** Chains *)

(** Each event continues the one before it under [key]. *)
Fixpoint chain (key prev : str) (expected : Z) (es : list (AuditEvent Value)) : Prop :=
  match es with
  | [] => True
  | e :: rest =>
      seq e = expected /\ prev_hash e = prev /\
      compute_hash key (seq e) (ts e) (kind e) (data e) (prev_hash e) = line_hash e /\
      chain key (line_hash e) (succ64 (seq e)) rest
  end.

(** A log the program wrote: well-typed exact events in a chain from the start. *)
Definition good (key : str) (es : list (AuditEvent Value)) : Prop :=
  Forall typed es /\ Forall (fun e => exact (data e)) es /\ chain key GENESIS_HASH 0 es.

Lemma good_nil key : good key [].
Proof. by repeat split; constructor. Qed.

Lemma verify_loop_chain key es rest : forall prev expected count i,
  Forall typed es -> Forall (fun e => exact (data e)) es -> chain key prev expected es ->
  verify_loop key prev expected count i ((Some <$> (event_str <$> es)) ++ rest) =
  verify_loop key (match last es with Some e => line_hash e | None => prev end)
    (match last es with Some e => succ64 (seq e) | None => expected end)
    (count + length es) (i + length es) rest.
Proof.
  induction es as [|e es IH]; intros prev expected count i Ht Hx Hc.
  { simpl. by rewrite !Nat.add_0_r. }
  apply Forall_cons in Ht as [Ht Hts]. apply Forall_cons in Hx as [Hx Hxs].
  destruct Hc as (Hs & Hp & Hh & Hc). cbn [fmap list_fmap app verify_loop].
  rewrite event_str_not_blank, event_roundtrip by done. rewrite Hs, Z.eqb_refl. simpl negb. cbn iota.
  rewrite (bool_decide_eq_true_2 (prev_hash e = prev)) by done. simpl negb. cbn iota.
  rewrite bool_decide_eq_true_2 by (by rewrite <- Hs). simpl negb. cbn iota.
  rewrite <- Hs, IH by done. simpl length.
  replace (count + S (length es))%nat with (S count + length es)%nat by lia.
  replace (i + S (length es))%nat with (S i + length es)%nat by lia.
  rewrite (last_cons_match line_hash), (last_cons_match (fun e => succ64 (seq e))). done.
Qed.

Lemma verify_good key es :
  good key es -> verify_loop key GENESIS_HASH 0 0 0 (read_lines (log_text es)) =
    Ok {| vr_lines := length es; vr_valid := true; vr_broken_at := None |}.
Proof.
  intros (Ht & Hx & Hc). rewrite read_log by done.
  rewrite <- (app_nil_r (Some <$> _)). by rewrite verify_loop_chain.
Qed.

Lemma last_event_log es acc rest :
  Forall typed es -> Forall (fun e => exact (data e)) es ->
  last_event_of ((Some <$> (event_str <$> es)) ++ rest) acc =
  last_event_of rest (match last es with Some e => Some e | None => acc end).
Proof.
  intros Ht Hx. revert acc. induction es as [|e es IH]; intros acc; [done|].
  apply Forall_cons in Ht as [Ht Hts]. apply Forall_cons in Hx as [Hx Hxs].
  cbn [fmap list_fmap app last_event_of]. rewrite event_str_not_blank, event_roundtrip by done.
  rewrite IH by done. by rewrite (last_cons_match Some).
Qed.

Lemma last_event_good key es : good key es -> last_event (Some (log_text es)) = last es.
Proof.
  intros (Ht & Hx & _). cbn [last_event]. rewrite read_log by done.
  rewrite <- (app_nil_r (Some <$> _)), last_event_log by done. simpl. by destruct (last es).
Qed.

Lemma succ64_range n : 0 <= succ64 n < 2 ^ 64.
Proof. apply Z.mod_pos_bound. lia. Qed.

Lemma hex_encode_ascii s : Forall (fun b => b2z b < 128) (hex_encode s).
Proof.
  eapply Forall_impl; [apply hex_encode_lower|]. intros b. simpl. unfold is_lower_hex, byte_in. lia.
Qed.

Lemma chain_hash_ascii key prev expected es e :
  chain key prev expected es -> e ∈ es -> exists s, line_hash e = hex_encode s.
Proof.
  revert prev expected. induction es as [|e' es IH]; intros prev expected Hc Hin; [by apply elem_of_nil in Hin|].
  destruct Hc as (_ & _ & Hh & Hc). apply elem_of_cons in Hin as [->|Hin]; [|by eapply IH].
  rewrite <- Hh. by eexists.
Qed.

Lemma next_event_typed key now k d es :
  good key es -> utf8_valid k = true -> typed (next_event key now k d (last es)).
Proof.
  intros (Ht & _ & Hc) Hk. unfold next_event, typed. cbn. split; [|split; [done|split]].
  - destruct (last es); [apply succ64_range|lia].
  - destruct (last es) as [e|] eqn:E; [|done].
    destruct (chain_hash_ascii _ _ _ _ e Hc) as [s ->]; [by apply last_Some_elem_of|].
    apply utf8_valid_ascii, hex_encode_ascii.
  - apply utf8_valid_ascii, hex_encode_ascii.
Qed.

Lemma chain_snoc key prev expected es e :
  chain key prev expected es ->
  seq e = match last es with Some l => succ64 (seq l) | None => expected end ->
  prev_hash e = match last es with Some l => line_hash l | None => prev end ->
  compute_hash key (seq e) (ts e) (kind e) (data e) (prev_hash e) = line_hash e ->
  chain key prev expected (es ++ [e]).
Proof.
  revert prev expected. induction es as [|e' es IH]; intros prev expected Hc Hs Hp Hh; [by repeat split|].
  destruct Hc as (H1 & H2 & H3 & Hc). cbn [app chain]. split; [done|]. split; [done|]. split; [done|].
  apply IH; [done|..|done].
  - rewrite Hs. apply (last_cons_match (fun e => succ64 (seq e))).
  - rewrite Hp. apply (last_cons_match line_hash).
Qed.

Lemma good_snoc key es now k d :
  good key es -> utf8_valid k = true -> exact d -> good key (es ++ [next_event key now k d (last es)]).
Proof.
  intros Hg Hk Hd. pose proof (next_event_typed key now k d es Hg Hk) as Ht. destruct Hg as (H1 & H2 & H3).
  split; [apply Forall_app; split; [done|by apply Forall_singleton]|].
  split; [apply Forall_app; split; [done|by apply Forall_singleton]|].
  apply chain_snoc; [done|..]; cbn; [by destruct (last es)..|done].
Qed.
End Chain.

(** ** Appending *)

Section Append.
Context {Value : Type} `{AuditJson Value} `{!AuditJsonLaws Value}.

Definition sound_copy (key : str) (o : option str) : Prop :=
  forall c, o = Some c -> exists es : list (AuditEvent Value), c = log_text es /\ good key es.

(** The key is in its file, the log is the chain [es], and so is every rotated copy. *)
Record holds (key : str) (s : AuditFs * KeyState) (es : list (AuditEvent Value)) : Prop := {
  h_key : key_file s.2 = Some key;
  h_key_ok : key_ok key = true;
  h_good : good key es;
  h_log : log_file s.1 = None /\ es = [] \/ log_file s.1 = Some (log_text es);
  h_old : Forall (sound_copy key) (old_logs s.1);
}.

(** The key comes from the file. *)
Definition file_backend (e : key_env) : Prop := k_enabled e = false.

Lemma load_file_key e allow ks key :
  file_backend e -> key_file ks = Some key -> key_ok key = true ->
  load_or_create_key e allow ks = (ks, Ok key).
Proof.
  intros He Hf Hk. unfold load_or_create_key, load_or_create_key_inner, file_or_new_key, file_key.
  by rewrite He, Hf, Hk.
Qed.

Lemma shift_old_sound key rename i old :
  Forall (sound_copy key) old -> Forall (sound_copy key) (shift_old rename old i).
Proof.
  intros Ho. unfold shift_old. destruct (old !! (i - 1)%nat) as [[c|]|] eqn:E; [|done..].
  destruct (rename i); [|done]. apply Forall_insert; [|by intros ?].
  apply Forall_insert; [done|]. eapply Forall_lookup_1; eauto.
Qed.

Lemma rotate_holds key rename s es :
  holds key s es ->
  exists es', holds key (rotate_if_needed rename s.1, s.2) es' /\
    (es' = es \/ es' = [] /\ exists c, log_file s.1 = Some c /\ ROTATE_MAX_BYTES <= zlen c).
Proof.
  intros [Hk Hko Hg Hl Ho]. unfold rotate_if_needed. destruct (log_file s.1) as [c|] eqn:E.
  2: { exists es. split; [|by left]. split; simpl; try done. by rewrite E. }
  destruct (zlen c <? ROTATE_MAX_BYTES) eqn:Ec; bool_prop.
  { exists es. split; [|by left]. split; simpl; try done. by rewrite E. }
  set (old := foldl _ _ _). assert (Hold : Forall (sound_copy key) old).
  { unfold old. cbn [foldl]. repeat apply shift_old_sound.
    destruct (rename ROTATE_KEEP); [apply Forall_insert; [done|by intros ?]|done]. }
  destruct Hl as [[? _]|Hl]; [done|]. injection Hl as ->. destruct (rename 0%nat).
  - exists []. split; [|right; split; [done|by exists (log_text es)]].
    split; [done|done|apply good_nil|by left|]. apply Forall_insert; [done|].
    intros c [= <-]. by exists es.
  - exists es. split; [|by left]. split; simpl; try done. by right.
Qed.

(** What an append does once directory and log can be used. *)
Lemma append_unfold key s es e k d :
  holds key s es -> file_backend (a_key e) -> a_dir_ok e = true ->
  exists es', holds key (rotate_if_needed (a_rename e) s.1, s.2) es' /\
    (es' = es \/ es' = [] /\ exists c, log_file s.1 = Some c /\ ROTATE_MAX_BYTES <= zlen c) /\
    append_to e k d s =
      let fs := rotate_if_needed (a_rename e) s.1 in
      if negb (a_read_ok e) && bool_decide (is_Some (log_file fs)) then ((fs, s.2), Err tt)
      else let '(fs, r) := append_line (a_write e) (event_str (next_event key (a_now e) k d (last es'))) fs
           in ((fs, s.2), r).
Proof.
  intros Hh He Hd. destruct (rotate_holds key (a_rename e) s es Hh) as (es' & Hrot & Hes).
  exists es'. split; [done|]. split; [done|]. destruct s as [fs ks]. cbn [fst snd] in *.
  destruct Hrot as [H1 H2 H3 H4 H5]. cbn [fst snd] in *. unfold append_to. rewrite Hd. cbn [negb].
  assert (Hlast : last_event (log_file (rotate_if_needed (a_rename e) fs)) = last es').
  { destruct H4 as [[-> ->]| ->]; [done|]. by apply (last_event_good key). }
  by rewrite Hlast, (load_file_key _ _ _ key).
Qed.

Lemma append_line_holds key fs ks es now k d :
  holds key (fs, ks) es -> utf8_valid k = true -> exact d ->
  let ev := next_event key now k d (last es) in
  holds key ((append_line LineOk (event_str ev) fs).1, ks) (es ++ [ev]).
Proof.
  intros [H1 H2 H3 H4 H5] Hk Hx. cbn [fst snd] in *. split; cbn [fst snd append_line log_file old_logs]; try done.
  - by apply good_snoc.
  - right. f_equal. rewrite log_text_app, log_text_one. by destruct H4 as [[-> ->]| ->].
Qed.

(** A sequence of appends. *)
Definition appends (ops : list (append_env * str * Value)) (s : AuditFs * KeyState) : AuditFs * KeyState :=
  foldl (fun s '(e, k, d) => (append_to e k d s).1) s ops.

(** Valid text, a value JSON reproduces, and a line that is written whole or not at all. *)
Definition whole_write (op : append_env * str * Value) : Prop :=
  let '(e, k, d) := op in
  file_backend (a_key e) /\ utf8_valid k = true /\ exact d /\ (a_write e = LineOk \/ a_write e = LineOpenFails).

Lemma append_holds key s es e k d :
  holds key s es -> whole_write (e, k, d) -> exists es', holds key (append_to e k d s).1 es'.
Proof.
  intros Hh (He & Hk & Hx & Hw). destruct (a_dir_ok e) eqn:Hd; cycle 1.
  { exists es. unfold append_to. destruct s. by rewrite Hd. }
  destruct (append_unfold key s es e k d Hh He Hd) as (es' & Hrot & _ & ->). cbn zeta.
  destruct (negb (a_read_ok e) && _); [by exists es'|].
  destruct Hw as [->| ->]; [|by exists es'].
  eexists. by apply append_line_holds.
Qed.

Lemma appends_hold key ops s es :
  holds key s es -> Forall whole_write ops -> exists es', holds key (appends ops s) es'.
Proof.
  intros Hh Hops. revert s es Hh. induction Hops as [|[[e k] d] ops Hop _ IH]; intros s es Hh; [by exists es|].
  destruct (append_holds key s es e k d Hh Hop) as [es1 H1]. by apply (IH _ es1).
Qed.

Lemma verify_holds key s es ke :
  holds key s es -> file_backend ke ->
  verify_at ke s = Ok {| vr_lines := length es; vr_valid := true; vr_broken_at := None |}.
Proof.
  intros [H1 H2 H3 H4 H5] Hb. unfold verify_at. destruct H4 as [[-> ->]| ->]; [done|].
  rewrite (load_file_key _ _ _ key) by done. by apply verify_good.
Qed.

(** After any appends, with any rotations between them, the log and every rotated copy
    verify; and each further append that reaches the file adds one event with the given
    kind, data and time. *)
Theorem appended_log_verifies key ops s es ke e k d :
  holds key s es -> Forall whole_write ops -> file_backend ke ->
  whole_write (e, k, d) -> a_dir_ok e = true -> a_read_ok e = true -> a_write e = LineOk ->
  let s' := appends ops s in
  exists es', holds key s' es' /\
    verify_at ke s' = Ok {| vr_lines := length es'; vr_valid := true; vr_broken_at := None |} /\
    (forall c, Some c ∈ old_logs s'.1 -> exists n, verify_loop key GENESIS_HASH 0 0 0 (read_lines c) =
       Ok {| vr_lines := n; vr_valid := true; vr_broken_at := None |}) /\
    exists kept ev, (append_to e k d s').2 = Ok tt /\
      log_file (append_to e k d s').1.1 = Some (log_text (kept ++ [ev])) /\
      kind ev = k /\ data ev = d /\ ts ev = a_now e /\ (kept = es' \/ kept = []).
Proof.
  intros Hh Hops Hb (He & Hk & Hx & _) Hd Hr Hw s'.
  destruct (appends_hold key ops s es Hh Hops) as [es' Hs]. fold s' in Hs. exists es'. split; [done|].
  split; [by apply (verify_holds key)|]. split.
  - intros c Hc. destruct Hs as [_ _ _ _ Ho]. rewrite Forall_forall in Ho.
    destruct (Ho _ Hc c eq_refl) as (es2 & -> & Hg). exists (length es2). by apply verify_good.
  - destruct (append_unfold key s' es' e k d Hs He Hd) as (es1 & Hrot & Hes & ->). cbn zeta.
    rewrite Hr, Hw. cbn [negb andb append_line fst snd].
    exists es1, (next_event key (a_now e) k d (last es1)). split; [done|].
    split; [|split; [done|split; [done|split; [done|naive_solver]]]].
    pose proof (append_line_holds key _ _ _ (a_now e) k d Hrot Hk Hx) as [_ _ _ H4 _].
    cbn [append_line fst snd log_file] in H4. destruct H4 as [[? _]|H4]; [done|exact H4].
Qed.
End Append.

(** ** What verification establishes *)

Lemma bar_digits n : BAR ∉ show_unsigned n.
Proof. eapply not_elem_of_Forall; [apply show_unsigned_digits|]. by vm_compute. Qed.

Lemma bar_hex s : BAR ∉ hex_encode s.
Proof. eapply not_elem_of_Forall; [apply hex_encode_lower|]. by vm_compute. Qed.

(** Text before the first bar, and after the last. *)
Lemma cut_first x x' y y' :
  BAR ∉ x -> BAR ∉ x' -> x ++ BAR :: y = x' ++ BAR :: y' -> x = x' /\ y = y'.
Proof.
  revert x'. induction x as [|a x IH]; intros [|a' x'] Hx Hx' E; simplify_eq/=; try done.
  - by apply not_elem_of_cons in Hx' as [? _].
  - by apply not_elem_of_cons in Hx as [? _].
  - apply not_elem_of_cons in Hx as [_ Hx]. apply not_elem_of_cons in Hx' as [_ Hx'].
    destruct (IH x') as [-> ->]; done.
Qed.

Lemma cut_last x x' y y' :
  BAR ∉ y -> BAR ∉ y' -> x ++ BAR :: y = x' ++ BAR :: y' -> x = x' /\ y = y'.
Proof.
  intros Hy Hy' E. apply (f_equal reverse) in E. rewrite !reverse_app, !reverse_cons, <- !app_assoc in E.
  simpl in E. apply cut_first in E as [E1 E2]; [|by rewrite elem_of_reverse..].
  apply (f_equal reverse) in E1, E2. by rewrite !reverse_involutive in E1, E2.
Qed.

(** Kind and data: the split between them is the only one that leaves JSON on the right. *)
Lemma cut_value {Value} `{AuditTextLaws Value} k k' (v v' : Value) :
  k ++ BAR :: value_str v = k' ++ BAR :: value_str v' -> k = k' /\ v = v'.
Proof.
  intros E. apply app_eq_inv in E as [(x & E1 & E2)|(x & E1 & E2)];
    (destruct x as [|b x]; simpl in E2; [injection E2 as Ev|injection E2 as <- Ev]); subst.
  - rewrite app_nil_r. split; [done|]. by apply value_inj.
  - by apply value_no_tail in Ev.
  - rewrite app_nil_r. split; [done|]. symmetry. by apply value_inj.
  - by apply value_no_tail in Ev.
Qed.

Section Evidence.
Context {Value : Type} `{AuditJson Value} `{!AuditTextLaws Value}.

Definition event_input (e : AuditEvent Value) : str :=
  mac_input (seq e) (ts e) (kind e) (data e) (prev_hash e).

Lemma event_input_inj (e e' : AuditEvent Value) :
  0 <= seq e < 2 ^ 64 -> 0 <= seq e' < 2 ^ 64 -> BAR ∉ prev_hash e -> BAR ∉ prev_hash e' ->
  event_input e = event_input e' ->
  seq e = seq e' /\ ts e = ts e' /\ kind e = kind e' /\ data e = data e' /\ prev_hash e = prev_hash e'.
Proof.
  intros Hs Hs' Hp Hp' E. unfold event_input, mac_input in E.
  apply cut_first in E as [E1 E]; [|apply bar_digits..].
  apply cut_first in E as [E2 E]; [|apply rfc3339_no_bar..].
  assert (Ha : forall (k : str) (v p : str), k ++ BAR :: v ++ BAR :: p = (k ++ BAR :: v) ++ BAR :: p)
    by (intros; by rewrite <- app_assoc).
  rewrite !Ha in E. apply cut_last in E as [E E5]; [|done..]. apply cut_value in E as [E3 E4].
  split; [|split; [by apply rfc3339_inj|done]].
  assert (Hn : Some (seq e) = Some (seq e')); [|by injection Hn].
  rewrite <- (parse_show_unsigned u64_max (seq e)) by (unfold u64_max; lia).
  rewrite E1. apply parse_show_unsigned; unfold u64_max; lia.
Qed.

(** The events a verifier reads: the non-blank lines. *)
Definition read_events (ls : list (option str)) : list (option (AuditEvent Value)) :=
  omap (fun l => match l with
                 | None => Some None
                 | Some line => if blank line then None else Some (event_parse line)
                 end) ls.

(** A report without a break: every line was read and continues the chain. *)
Lemma verify_valid_chain key ls : forall prev expected count i r,
  verify_loop key prev expected count i ls = Ok r -> vr_valid r = true ->
  exists es, read_events ls = Some <$> es /\ chain key prev expected es /\
    vr_lines r = (count + length es)%nat.
Proof.
  induction ls as [|[line|] ls IH]; intros prev expected count i r Hv Hr; cbn [verify_loop] in Hv.
  - injection Hv as <-. exists []. repeat split. simpl. lia.
  - unfold read_events. cbn [omap list_omap]. destruct (blank line); [by eapply IH|].
    destruct (event_parse line) as [e|]; [|done].
    destruct (seq e =? expected) eqn:E1; cbn [negb] in Hv; [|by injection Hv as <-].
    case_bool_decide as E2; cbn [negb] in Hv; [|by injection Hv as <-].
    case_bool_decide as E3; cbn [negb] in Hv; [|by injection Hv as <-].
    bool_prop. destruct (IH _ _ _ _ _ Hv Hr) as (es & He & Hc & Hn). exists (e :: es).
    split; [cbn; f_equal; exact He|]. split; [done|]. simpl. lia.
  - done.
Qed.

(** Every line of the presented log carries a MAC that was computed for a line of [honest]:
    what the secrecy of the key gives. *)
Definition unforged (honest presented : list (AuditEvent Value)) : Prop :=
  forall e, e ∈ presented -> exists h, h ∈ honest /\ event_input e = event_input h.

Lemma unforged_prefix es rest : unforged (es ++ rest) es.
Proof. intros e Hin. exists e. split; [set_solver|done]. Qed.

Lemma chain_lookup key prev expected es i e :
  chain key prev expected es -> 0 <= expected -> expected + Z.of_nat (length es) <= 2 ^ 64 ->
  es !! i = Some e -> seq e = expected + Z.of_nat i /\
  prev_hash e = match i with O => prev | S j => match es !! j with Some p => line_hash p | None => [] end end
  /\ compute_hash key (seq e) (ts e) (kind e) (data e) (prev_hash e) = line_hash e.
Proof.
  revert prev expected i. induction es as [|e' es IH]; intros prev expected i Hc H0 H1 Hi; [done|].
  destruct Hc as (Hs & Hp & Hh & Hc). destruct i as [|i]; [injection Hi as ->; split; [lia|done]|].
  simpl in Hi, H1. assert (Hlt := lookup_lt_Some _ _ _ Hi).
  assert (Hsu : succ64 (seq e') = expected + 1) by (unfold succ64; rewrite Z.mod_small; lia).
  rewrite Hsu in Hc. destruct (IH _ _ _ Hc ltac:(lia) ltac:(lia) Hi) as (E1 & E2 & E3).
  split; [lia|]. split; [|done]. rewrite E2. by destruct i.
Qed.

Lemma chain_prev_no_bar key es i e :
  chain key GENESIS_HASH 0 es -> Z.of_nat (length es) <= 2 ^ 64 -> es !! i = Some e -> BAR ∉ prev_hash e.
Proof.
  intros Hc Hl Hi. destruct (chain_lookup _ _ _ _ _ _ Hc ltac:(lia) ltac:(lia) Hi) as (_ & -> & _).
  destruct i as [|i]; [by vm_compute; set_solver|].
  destruct (es !! i) as [p|] eqn:E; [|set_solver].
  destruct (chain_hash_ascii _ _ _ _ p Hc) as [s ->]; [by eapply list_elem_of_lookup_2|]. apply bar_hex.
Qed.

(** C29: A log that verifies consists of the first lines of the log that was written, in order
    and unchanged, as long as MACs cannot be forged: no line was altered, inserted,
    reordered or removed before its end. *)
Theorem verified_log_is_prefix key honest content r :
  chain key GENESIS_HASH 0 honest -> Z.of_nat (length honest) < 2 ^ 64 ->
  verify_loop key GENESIS_HASH 0 0 0 (read_lines content) = Ok r -> vr_valid r = true ->
  Z.of_nat (vr_lines r) < 2 ^ 64 ->
  exists es, read_events (read_lines content) = Some <$> es /\ vr_lines r = length es /\
    (unforged honest es -> es `prefix_of` honest).
Proof.
  intros Hh Hlh Hv Hr Hn. destruct (verify_valid_chain _ _ _ _ _ _ _ Hv Hr) as (es & He & Hc & Hl).
  exists es. split; [done|]. split; [done|]. intros Hu. simpl in Hl. rewrite Hl in Hn.
  assert (Hsame : forall i e, es !! i = Some e -> honest !! i = Some e).
  { intros i e Hi. assert (Hlt := lookup_lt_Some _ _ _ Hi).
    destruct (Hu e) as (h & Hin & Einp); [by eapply list_elem_of_lookup_2|].
    apply list_elem_of_lookup_1 in Hin as [j Hj]. assert (Hltj := lookup_lt_Some _ _ _ Hj).
    destruct (chain_lookup _ _ _ _ _ _ Hc ltac:(lia) ltac:(lia) Hi) as (S1 & _ & M1).
    destruct (chain_lookup _ _ _ _ _ _ Hh ltac:(lia) ltac:(lia) Hj) as (S2 & _ & M2).
    destruct (event_input_inj e h) as (E1 & E2 & E3 & E4 & E5); try lia; try done.
    { eapply (chain_prev_no_bar key es); [done|lia|done]. }
    { eapply (chain_prev_no_bar key honest); [done|lia|done]. }
    assert (j = i) as -> by lia. rewrite Hj. f_equal.
    rewrite E1, E2, E3, E4, E5, M2 in M1. destruct e, h; simpl in *; congruence. }
  exists (drop (length es) honest). apply list_eq. intros i.
  destruct (decide (i < length es)%nat) as [Hi|Hi].
  - rewrite lookup_app_l by done. destruct (lookup_lt_is_Some_2 es i Hi) as [e E]. rewrite E. by apply Hsame.
  - rewrite lookup_app_r, lookup_drop by lia. f_equal. lia.
Qed.
End Evidence.

(** ** What the chain cannot see, and what breaks it *)

Section Limits.
Context {Value : Type} `{AuditJson Value} `{!AuditJsonLaws Value}.

Lemma chain_take key prev expected (es : list (AuditEvent Value)) n :
  chain key prev expected es -> chain key prev expected (take n es).
Proof.
  revert prev expected n. induction es as [|e es IH]; intros prev expected [|n] Hc; try done.
  destruct Hc as (H1 & H2 & H3 & Hc). cbn. eauto.
Qed.

(** The last lines can be cut off: what is left of a valid log is a valid log. *)
Theorem truncated_log_verifies key es n ke s :
  holds key s es ->
  file_backend ke ->
  verify_at ke ({| log_file := Some (log_text (take n es)); old_logs := old_logs s.1 |}, s.2) =
    Ok {| vr_lines := n `min` length es; vr_valid := true; vr_broken_at := None |}.
Proof.
  intros [H1 H2 (Ht & Hx & Hc) H4 H5] Hb. unfold verify_at. cbn [log_file fst snd].
  rewrite (load_file_key _ _ _ key) by done. cbn [snd obind]. rewrite verify_good.
  - by rewrite length_take.
  - split; [by apply Forall_take|]. split; [by apply Forall_take|]. by apply chain_take.
Qed.

(** Two processes append at once: both continue the same last event, then both write. *)
Definition concurrent_append (key : str) (t1 t2 : Z) (k1 k2 : str) (d1 d2 : Value) (fs : AuditFs)
    : AuditFs :=
  let last := last_event (log_file fs) in
  let fs := (append_line LineOk (event_str (next_event key t1 k1 d1 last)) fs).1 in
  (append_line LineOk (event_str (next_event key t2 k2 d2 last)) fs).1.

(** The second line of two concurrent appends has the number of the first, and verification
    fails there from then on. *)
Theorem concurrent_appends_break_chain key es fs ks ke t1 t2 k1 k2 d1 d2 :
  holds key (fs, ks) es -> file_backend ke -> Z.of_nat (length es) < 2 ^ 64 - 1 ->
  utf8_valid k1 = true -> utf8_valid k2 = true -> exact d1 -> exact d2 ->
  verify_at ke (concurrent_append key t1 t2 k1 k2 d1 d2 fs, ks) =
    Ok {| vr_lines := S (length es); vr_valid := false; vr_broken_at := Some (S (S (length es))) |}.
Proof.
  intros Hh Hb Hlen Hk1 Hk2 Hd1 Hd2. pose proof Hh as [H1 H2 H3 H4 H5]. cbn [fst snd] in *.
  assert (Hlast : last_event (log_file fs) = last es).
  { destruct H4 as [[-> ->]| ->]; [done|]. by apply (last_event_good key). }
  unfold concurrent_append. rewrite Hlast.
  set (e1 := next_event key t1 k1 d1 (last es)). set (e2 := next_event key t2 k2 d2 (last es)).
  pose proof (append_line_holds key fs ks es t1 k1 d1 Hh Hk1 Hd1) as Hh1. fold e1 in Hh1. cbn zeta in Hh1.
  destruct Hh1 as [_ _ Hg1 Hl1 _]. cbn [fst] in Hl1. destruct Hl1 as [[_ ?]|Hl1]; [by destruct es|].
  cbn [append_line fst] in *. unfold verify_at. cbn [fst snd log_file].
  rewrite (load_file_key _ _ _ key) by done. cbn [snd obind default].
  injection Hl1 as ->. pose proof Hg1 as (Ht & Hx & Hc). unfold id.
  assert (Ht2 : typed e2) by (apply next_event_typed; done).
  rewrite <- log_text_one, read_lines_log by done. rewrite read_log by (by apply Forall_singleton).
  rewrite verify_loop_chain by done. rewrite last_snoc. cbn [fmap list_fmap verify_loop].
  rewrite event_str_not_blank, event_roundtrip by done.
  assert (Hseq : seq e2 = seq e1) by done. rewrite Hseq.
  assert (Hr : 0 <= seq e1 < 2 ^ 64) by (apply Forall_app in Ht as [_ [[? _] _]%Forall_cons]; done).
  replace (seq e1 =? succ64 (seq e1)) with false.
  - cbn [negb]. rewrite length_app. simpl. do 2 f_equal; [lia|]. f_equal. lia.
  - symmetry. apply Z.eqb_neq. unfold succ64. intros E.
    destruct (decide (seq e1 + 1 = 2 ^ 64)) as [Eq|Ne]; [rewrite Eq, Z_mod_same_full in E; lia|].
    rewrite Z.mod_small in E; lia.
Qed.

(** A line that does not parse is permanent: whatever is appended after it, verification is
    an error or a break. *)
Lemma corrupt_line_permanent key ls pre line post :
  ls = pre ++ Some line :: post -> blank line = false -> event_parse line = None ->
  forall prev expected count i r, verify_loop key prev expected count i ls = Ok r -> vr_valid r = false.
Proof.
  intros -> Hb Hp. induction pre as [|[l|] pre IH]; intros prev expected count i r Hv; cbn [app verify_loop] in Hv.
  - by rewrite Hb, Hp in Hv.
  - destruct (blank l); [by eapply IH|]. destruct (event_parse l) as [e|]; [|done].
    destruct (seq e =? expected); cbn [negb] in Hv; [|by injection Hv as <-].
    case_bool_decide; cbn [negb] in Hv; [|by injection Hv as <-].
    case_bool_decide; cbn [negb] in Hv; [|by injection Hv as <-]. by eapply IH.
  - done.
Qed.

(** A write that was cut short is not repaired: the next event is written onto the same
    line. When such a line is not JSON, that event is lost and the log never verifies again,
    whatever is appended; the appends themselves keep succeeding. *)
Theorem torn_write_is_permanent key es fs ks ke ev n k d now more :
  holds key (fs, ks) es -> file_backend ke -> (0 < n <= length (event_str ev))%nat ->
  utf8_valid k = true -> utf8_valid (take n (event_str ev)) = true ->
  let torn := (append_line (LinePartial n) (event_str ev) fs).1 in
  let next := next_event key now k d (last_event (log_file torn)) in
  let glued := take n (event_str ev) ++ event_str next in
  blank glued = false -> event_parse glued = None -> utf8_valid glued = true ->
  let after := (append_line LineOk (event_str next) torn).1 in
  (append_line LineOk (event_str next) torn).2 = Ok tt /\
  forall r, verify_at ke ({| log_file := (fun c => c ++ more) <$> log_file after; old_logs := [] |}, ks) = Ok r ->
    vr_valid r = false.
Proof.
  intros [H1 H2 (Ht & Hx & Hc) H4 H5] Hb Hn Hk Hu torn next glued Hgb Hgp Hgu after. split; [done|]. intros r.
  cbn [fst snd] in *.
  assert (Hold : default [] (log_file fs) = log_text es) by (by destruct H4 as [[-> ->]| ->]).
  assert (Hlog : log_file after = Some (log_text es ++ glued ++ [LF])).
  { unfold after, torn. cbn [append_line fst log_file default]. rewrite Hold.
    unfold id, glued. rewrite take_app_le by lia. by rewrite <- !app_assoc. }
  rewrite Hlog. unfold verify_at. cbn [fmap option_fmap option_map log_file fst snd].
  rewrite (load_file_key _ _ _ key) by done. cbn [snd obind].
  assert (Hnl : LF ∉ glued).
  { unfold glued. rewrite elem_of_app. intros [Hin|Hin]; [|by apply event_one_line in Hin].
    apply (event_one_line ev). apply elem_of_take in Hin as (i & Hi & _). by eapply list_elem_of_lookup_2. }
  assert (Hend : strip_cr glued = glued).
  { apply (strip_cr_other _ x7d); [|done]. unfold glued. rewrite last_app, event_end. done. }
  rewrite <- !app_assoc. rewrite read_lines_log by done.
  change ([LF] ++ more) with (LF :: more). unfold read_lines at 1. rewrite lines_line, Hend by done.
  rewrite fmap_cons, Hgu. apply (corrupt_line_permanent key _ (Some <$> (event_str <$> es)) glued
    ((fun l => if utf8_valid l then Some l else None) <$> lines more)); done.
Qed.
End Limits.

(** ** A codec that satisfies the laws *)

Definition event_tuple (e : AuditEvent bool) := (seq e, ts e, kind e, data e, prev_hash e, line_hash e).

(** Events as bits between braces; a one-byte checksum stands for the MAC. *)
#[export] Instance bits_audit : AuditJson bool := {|
  value_str (b : bool) := if b then [x74; x72; x75; x65] else [x66; x61; x6c; x73; x65];
  rfc3339 (t : Z) := bits_of (encode t);
  hmac (k m : str) := [byte.of_Z (foldr Z.lxor 0 (b2z <$> (k ++ m)))];
  event_str e := x7b :: bits_of (encode (event_tuple e)) ++ [x7d];
  event_parse (s : str) :=
    match s with
    | x7b :: s =>
        match last s with
        | Some x7d =>
            p ← of_bits (take (length s - 1) s);
            '(a, b, c, d, e, f) ← (decode p : option (Z * Z * str * bool * str * str));
            Some {| seq := a; ts := b; kind := c; data := d; prev_hash := e; line_hash := f |}
        | _ => None
        end
    | _ => None
    end;
  exact (_ : bool) := True;
|}.

#[export] Instance bits_audit_laws : AuditJsonLaws bool.
Proof.
  split.
  - intros [a b c d e f] _ _. cbn [event_parse event_str bits_audit]. rewrite last_snoc.
    rewrite length_app. cbn [length]. rewrite take_app_le, firstn_all2 by lia.
    rewrite of_bits_of. cbn [mbind option_bind]. by rewrite decode_encode.
  - intros e Hin. apply elem_of_cons in Hin as [|Hin]; [done|].
    apply elem_of_app in Hin as [Hin|Hin]; [by apply bits_without in Hin|].
    by apply list_elem_of_singleton in Hin.
  - intros e _. apply utf8_valid_ascii. apply List.Forall_cons; [done|].
    apply Forall_app. split; [|by apply List.Forall_cons].
    eapply Forall_impl; [apply bits_ascii|]. by intros b [->| ->].
  - intros e. cbn [event_str bits_audit]. rewrite trim_plain_ends; [done|by intros b [= <-]|].
    intros b. rewrite app_comm_cons, last_snoc. by intros [= <-].
  - intros e. cbn [event_str bits_audit]. by rewrite app_comm_cons, last_snoc.
Qed.

#[export] Instance bits_audit_text : AuditTextLaws bool.
Proof.
  split.
  - intros t. by apply bits_without.
  - intros t t' E. apply (f_equal (fun s => of_bits s ≫= decode (A := Z))) in E.
    unfold rfc3339, bits_audit in E. rewrite !of_bits_of in E. cbn [mbind option_bind] in E.
    rewrite !decode_encode in E. by injection E.
  - by intros [] [].
  - intros v v' x E.
    assert (Hin : BAR ∈ value_str v') by (rewrite E; set_solver).
    destruct v'; vm_compute in Hin; set_solver.
Qed.

(** ** Witnesses *)

Definition demo_key : str := replicate 32 x5a.
Definition demo_env : key_env := {|
  k_enabled := false; k_load := KcFails; k_store := KcFails; k_urandom := None;
  k_dir_ok := true; k_write_ok := true |}.
Definition demo_keys : KeyState := {|
  key_file := Some demo_key; keychain_item := None; keychain_blocked := false; key_cache := None |}.
Definition demo_append (now : Z) : append_env := {|
  a_dir_ok := true; a_rename := fun _ => true; a_read_ok := true; a_key := demo_env; a_now := now;
  a_write := LineOk |}.

(** ["run"] *)
Definition demo_kind : str := [x72; x75; x6e].
Definition demo_one : AuditEvent bool := next_event demo_key 7 demo_kind true None.
Definition demo_two : AuditEvent bool := next_event demo_key 8 demo_kind false (Some demo_one).
Definition demo_fs (es : list (AuditEvent bool)) : AuditFs :=
  {| log_file := Some (log_text es); old_logs := replicate 5 None |}.

Lemma demo_good : good demo_key [demo_one; demo_two].
Proof.
  pose proof (good_snoc demo_key [] 7 demo_kind true (good_nil _) eq_refl I) as H1.
  exact (good_snoc demo_key [demo_one] 8 demo_kind false H1 eq_refl I).
Qed.

Lemma demo_holds : holds demo_key (demo_fs [demo_one; demo_two], demo_keys) [demo_one; demo_two].
Proof.
  split; [done|done|apply demo_good|by right|].
  apply Forall_replicate. by intros c.
Qed.

Lemma appended_log_verifies_witness :
  exists es' : list (AuditEvent bool), verify_at demo_env (appends [(demo_append 9, demo_kind, true)] (demo_fs [demo_one; demo_two], demo_keys)) =
    Ok {| vr_lines := length es'; vr_valid := true; vr_broken_at := None |}.
Proof.
  destruct (appended_log_verifies demo_key [(demo_append 9, demo_kind, true)]
    (demo_fs [demo_one; demo_two], demo_keys) [demo_one; demo_two] demo_env (demo_append 10) demo_kind false
    demo_holds) as (es' & _ & Hv & _); [|done| | done..|by exists es'].
  - apply List.Forall_cons; [|done]. by repeat split; auto.
  - by repeat split; auto.
Defined.

Lemma some_singleton {A} (x : A) es : [Some x] = Some <$> es -> es = [x].
Proof. destruct es as [|y [|]]; intros E; try discriminate E. by injection E as ->. Qed.

Lemma verified_log_is_prefix_witness :
  exists es, read_events (read_lines (log_text [demo_one])) = Some <$> es /\
    unforged [demo_one; demo_two] es /\ es `prefix_of` [demo_one; demo_two].
Proof.
  destruct (verified_log_is_prefix demo_key [demo_one; demo_two] (log_text [demo_one])
    {| vr_lines := 1; vr_valid := true; vr_broken_at := None |}) as (es & He & Hl & Hp);
    [by destruct demo_good as (_ & _ & ?)|done|by vm_compute|done|done|].
  assert (es = [demo_one]) as ->.
  { assert (E : read_events (read_lines (log_text [demo_one])) = [Some demo_one]) by by vm_compute.
    rewrite E in He. by apply some_singleton. }
  assert (Hu : unforged [demo_one; demo_two] [demo_one]).
  { apply (unforged_prefix [demo_one] [demo_two]). }
  exists [demo_one]. split; [done|]. split; [done|]. by apply Hp.
Defined.

Lemma truncated_log_verifies_witness :
  verify_at demo_env (demo_fs [demo_one], demo_keys) =
    Ok {| vr_lines := 1; vr_valid := true; vr_broken_at := None |}.
Proof.
  apply (truncated_log_verifies demo_key [demo_one; demo_two] 1 demo_env
    (demo_fs [demo_one; demo_two], demo_keys)); [apply demo_holds|done].
Defined.

Lemma concurrent_appends_break_chain_witness :
  verify_at demo_env (concurrent_append demo_key 9 9 demo_kind demo_kind true false
      (demo_fs [demo_one; demo_two]), demo_keys) =
    Ok {| vr_lines := 3; vr_valid := false; vr_broken_at := Some 4%nat |}.
Proof.
  apply (concurrent_appends_break_chain demo_key [demo_one; demo_two]); try done. apply demo_holds.
Defined.

Lemma torn_write_is_permanent_witness :
  let torn := (append_line (LinePartial 3) (event_str demo_one) (demo_fs [demo_one; demo_two])).1 in
  let next := next_event demo_key 9 demo_kind true (last_event (log_file torn)) in
  let after := (append_line LineOk (event_str next) torn).1 in
  (append_line LineOk (event_str next) torn).2 = Ok tt /\
  forall r, verify_at demo_env ({| log_file := (fun c => c ++ []) <$> log_file after; old_logs := [] |}, demo_keys)
      = Ok r -> vr_valid r = false.
Proof.
  apply (torn_write_is_permanent demo_key [demo_one; demo_two] (demo_fs [demo_one; demo_two]) demo_keys
    demo_env demo_one 3 demo_kind true 9 []); try done; [apply demo_holds|split; [lia|vm_compute; lia]|..]; by vm_compute.
Defined.
