(* ===== verification/AuditQuery.v ===== *)
(** * Queries over the audit logs (aic-client/src/audit.rs)

    [tail_events] and [search_events] over the local log and the logs of remote batches.
    JSON access, time parsing and Unicode lower case are parameters. *)

From S2P Require Import Prelude RustStr Bytes Attach AuditLog AuditSpec.

(** What the queries use of [serde_json::Value], chrono and [str]. *)
Class ValueAccess (Value : Type) := {
  value_get : str -> Value -> option Value;
  value_as_str : Value -> option str;
  value_parse : str -> option Value;
  parse_rfc3339 : str -> option Z;
  to_lowercase : str -> str;
}.

Section Query.
Context {Value : Type} `{AuditJson Value} `{ValueAccess Value}.

Record AuditRecord := {
  r_ts : option Z;
  r_kind : str;
  r_host : option str;
  r_source : str;
  r_raw : Value;
}.

Record SearchFilter := {
  f_since : option Z;
  f_until : option Z;
  f_kind : option str;
  f_grep : option str;
  f_host : option str;
  f_include_multihost : bool;
}.

Definition field_str (name : str) (v : Value) : option str := value_get name v ≫= value_as_str.

Definition local_record (ev : AuditEvent Value) : AuditRecord := {|
  r_ts := Some (ts ev); r_kind := kind ev; r_host := field_str (lit "host") (data ev);
  r_source := lit "local"; r_raw := data ev |}.

(** [lines().map_while(Result::ok)]: the lines up to the first that is not UTF-8. *)
Fixpoint ok_lines (ls : list (option str)) : list str :=
  match ls with
  | Some l :: rest => l :: ok_lines rest
  | _ => []
  end.

Definition parsed_lines {A} (parse : str -> option A) (content : str) : list A :=
  omap (fun l => if blank l then None else parse l) (ok_lines (read_lines content)).

(** A file that exists can be opened or not. *)
Inductive log_view := NoLog | LogClosed | LogText (content : str).

Definition read_local_records (log : log_view) : outcome (list AuditRecord) unit :=
  match log with
  | NoLog => Ok []
  | LogClosed => Err tt
  | LogText content => Ok (local_record <$> parsed_lines event_parse content)
  end.

Definition multihost_record (fname : str) (v : Value) : AuditRecord := {|
  r_ts :=
    x ← (match value_get (lit "ts") v with Some x => Some x | None => value_get (lit "timestamp") v end);
    s ← value_as_str x; parse_rfc3339 s;
  r_kind := default (lit "unknown") (field_str (lit "kind") v);
  r_host := field_str (lit "host") v;
  r_source := fname;
  r_raw := v |}.

(** An entry of the directory: its extension and name as text, where they are UTF-8, and
    what opening it gives. *)
Record dir_file := { d_ext : option str; d_name : option str; d_content : option str }.

Fixpoint read_segments (files : list dir_file) : outcome (list AuditRecord) unit :=
  match files with
  | [] => Ok []
  | f :: rest =>
      if bool_decide (d_ext f = Some (lit "jsonl")) then
        match d_content f with
        | None => Err tt
        | Some content =>
            obind (read_segments rest) (fun out =>
              Ok ((multihost_record (default (lit "?") (d_name f)) <$> parsed_lines value_parse content) ++ out))
        end
      else read_segments rest
  end.

(** [None] is a directory that cannot be read. *)
Definition read_multihost_records (dir : option (list dir_file)) : outcome (list AuditRecord) unit :=
  match dir with
  | None => Ok []
  | Some files => read_segments files
  end.

Definition tail_events (n : nat) (log : log_view) : outcome (list AuditRecord) unit :=
  obind (read_local_records log) (fun all =>
    Ok (if (n <? length all)%nat then drop (length all - n) all else all)).

Definition record_matches (r : AuditRecord) (f : SearchFilter) : bool :=
  (match f_since f with
   | Some since => match r_ts r with Some t => negb (t <? since) | None => false end
   | None => true
   end) &&
  (match f_until f with
   | Some until => match r_ts r with Some t => negb (until <? t) | None => false end
   | None => true
   end) &&
  (match f_kind f with Some k => bool_decide (r_kind r = k) | None => true end) &&
  (match f_host f with Some h => bool_decide (r_host r = Some h) | None => true end) &&
  (match f_grep f with
   | Some g => contains (to_lowercase g) (to_lowercase (value_str (r_raw r)))
   | None => true
   end).

(** [sort_by]'s comparison is not [Greater]. *)
Definition ts_le (a b : AuditRecord) : bool :=
  match r_ts a, r_ts b with
  | Some x, Some y => x <=? y
  | Some _, None => true
  | None, Some _ => false
  | None, None => true
  end.

Definition search_events (f : SearchFilter) (log : log_view) (dir : option (list dir_file))
    : outcome (list AuditRecord) unit :=
  obind (read_local_records log) (fun records =>
    obind (if f_include_multihost f || bool_decide (is_Some (f_host f))
           then obind (read_multihost_records dir) (fun more => Ok (records ++ more))
           else Ok records) (fun records =>
      Ok (sort_by ts_le (List.filter (fun r => record_matches r f) records)))).

(** ** Theorems *)

Lemma ts_le_total x y : ts_le x y = true \/ ts_le y x = true.
Proof. unfold ts_le. destruct (r_ts x), (r_ts y); lia. Qed.

Lemma ts_le_trans x y z : ts_le x y = true -> ts_le y z = true -> ts_le x z = true.
Proof. unfold ts_le. destruct (r_ts x), (r_ts y), (r_ts z); try done; lia. Qed.

(** a search over logs that can be read answers exactly the records that match, in order of
    time and those without one last; records of the same time keep the order of the logs. *)
Theorem search_events_exact f content files more :
  read_segments files = Ok more ->
  let all := (local_record <$> parsed_lines event_parse content) ++
    (if f_include_multihost f || bool_decide (is_Some (f_host f)) then more else []) in
  exists out, search_events f (LogText content) (Some files) = Ok out /\
    out ≡ₚ List.filter (fun r => record_matches r f) all /\
    StronglySorted (fun a b => ts_le a b = true) out /\
    forall t, List.filter (fun r => bool_decide (r_ts r = t)) out =
              List.filter (fun r => bool_decide (r_ts r = t)) (List.filter (fun r => record_matches r f) all).
Proof.
  intros Hm all. exists (sort_by ts_le (List.filter (fun r => record_matches r f) all)). split.
  - unfold search_events. cbn [read_local_records obind read_multihost_records]. rewrite Hm.
    unfold all. destruct (f_include_multihost f || bool_decide (is_Some (f_host f))); cbn [obind]; [done|].
    by rewrite app_nil_r.
  - split; [apply sort_by_Permutation|]. split; [apply sort_by_sorted; [apply ts_le_total|apply ts_le_trans]|].
    intros t. apply sort_by_stable. intros x y Hx Hy. bool_prop. unfold ts_le. rewrite Hx, Hy.
    destruct t; [lia|done].
Qed.

(** ** The log as written *)

Lemma parsed_log `{!AuditJsonLaws Value} key es :
  good key es -> parsed_lines event_parse (log_text es) = es.
Proof.
  intros (Ht & Hx & _). unfold parsed_lines. rewrite read_log by done.
  assert (Hok : forall ls : list str, ok_lines (Some <$> ls) = ls).
  { induction ls as [|l ls IH]; [done|]. cbn. by f_equal. }
  rewrite Hok. induction Ht as [|e es He Ht IH]; [done|]. apply Forall_cons in Hx as [Hd Hx].
  cbn [fmap list_fmap omap list_omap]. rewrite event_str_not_blank, event_roundtrip by done.
  f_equal. by apply IH.
Qed.

(** the tail of a log is what the last appends wrote: kind, time and data of the last [n]
    events, oldest first. *)
Theorem tail_of_appended `{!AuditJsonLaws Value} key es n :
  good key es -> tail_events n (LogText (log_text es)) = Ok (local_record <$> lastn n es).
Proof.
  intros Hg. unfold tail_events. cbn [read_local_records obind]. rewrite (parsed_log key) by done.
  rewrite length_fmap. unfold lastn. destruct (n <? length es)%nat eqn:E; bool_prop.
  - by rewrite fmap_drop.
  - by replace (length es - n)%nat with 0%nat by lia.
Qed.
End Query.

(** ** Witnesses *)

#[local] Instance bool_access : ValueAccess bool := {|
  value_get (_ : str) (_ : bool) := None;
  value_as_str (_ : bool) := None;
  value_parse (s : str) := if bool_decide (s = lit "true") then Some true else None;
  parse_rfc3339 (_ : str) := None;
  to_lowercase (s : str) := ascii_lower <$> s;
|}.

Definition any_filter : SearchFilter := {|
  f_since := None; f_until := None; f_kind := None; f_grep := None; f_host := None;
  f_include_multihost := true |}.

Lemma search_events_exact_witness :
  exists out, search_events (Value := bool) any_filter (LogText [])
    (Some [{| d_ext := Some (lit "jsonl"); d_name := Some (lit "a.jsonl"); d_content := Some (lit "true") |}]) = Ok out
    /\ length out = 1%nat.
Proof.
  destruct (search_events_exact (Value := bool) any_filter []
    [{| d_ext := Some (lit "jsonl"); d_name := Some (lit "a.jsonl"); d_content := Some (lit "true") |}]
    [multihost_record (lit "a.jsonl") true]) as (out & Ho & Hp & _); [by vm_compute|].
  exists out. split; [done|]. by rewrite Hp.
Defined.

Lemma tail_of_appended_witness :
  tail_events 1 (LogText (log_text [demo_one; demo_two])) = Ok [local_record demo_two].
Proof. apply (tail_of_appended demo_key [demo_one; demo_two] 1). apply demo_good. Defined.
