(* ===== verification/AuditKeys.v ===== *)
(** * The audit log's key across processes

    The keychain holds the key as hexadecimal text: what is stored is what a later process
    loads. A process that could not reach the keychain may sign with another key. *)

From S2P Require Import Prelude RustStr Bytes Attach AuditLog AuditSpec.

(** ** Hexadecimal text *)

Lemma lower_hex_ascii b : is_lower_hex b = true -> b2z b < 128.
Proof. unfold is_lower_hex, byte_in. lia. Qed.

Lemma ascii_boundary s i :
  Forall (fun b => b2z b < 128) s -> (i <= length s)%nat -> is_char_boundary s i = true.
Proof.
  intros Hs Hi. unfold is_char_boundary. destruct (s !! i) as [b|] eqn:E.
  - pose proof (Forall_lookup_1 _ _ _ _ Hs E) as Hb. simpl in Hb. unfold is_cont, byte_in. lia.
  - apply lookup_ge_None in E. lia.
Qed.

Lemma parse_hex_byte b :
  parse_unsigned 16 u8_max [digit_char (b2z b / 16); digit_char (b2z b mod 16)] = Some (b2z b).
Proof. by destruct b; vm_compute. Qed.

Lemma drop_hex_encode i s : drop (2 * i) (hex_encode s) = hex_encode (drop i s).
Proof.
  revert s. induction i as [|i IH]; intros [|b s]; try done.
  replace (2 * S i)%nat with (S (S (2 * i))) by lia. rewrite hex_encode_cons. simpl drop at 1. apply IH.
Qed.

Lemma decode_pairs_hex s fuel i :
  (i + fuel = length s)%nat -> decode_pairs (hex_encode s) fuel (2 * i) = Ok (drop i s).
Proof.
  revert i. induction fuel as [|fuel IH]; intros i Hi; cbn [decode_pairs].
  - by rewrite drop_ge by lia.
  - assert (Ha : Forall (fun b => b2z b < 128) (hex_encode s))
      by (eapply Forall_impl; [apply hex_encode_lower|apply lower_hex_ascii]).
    rewrite !ascii_boundary by (done || rewrite length_hex_encode; lia). cbn [negb andb].
    rewrite drop_hex_encode. destruct (lookup_lt_is_Some_2 s i ltac:(lia)) as [b Hb].
    rewrite (drop_S _ _ _ Hb), hex_encode_cons. cbn [take]. rewrite firstn_O, parse_hex_byte.
    replace (2 * i + 2)%nat with (2 * S i)%nat by lia. rewrite IH by lia. cbn [obind].
    by rewrite byte.of_Z_unsigned.
Qed.

(** Decoding inverts encoding. *)
Lemma decode_hex_encode s : s <> [] -> decode_hex (hex_encode s) = Ok s.
Proof.
  intros Hs. unfold decode_hex. rewrite trim_plain.
  2: { eapply Forall_impl; [apply hex_encode_lower|apply lower_hex_plain]. }
  rewrite length_hex_encode. replace (2 * length s)%nat with (length s * 2)%nat by lia.
  rewrite Nat.Div0.mod_mul, Nat.div_mul by lia. rewrite bool_decide_eq_false_2; [|by destruct s].
  apply (decode_pairs_hex s (length s) 0). lia.
Qed.

(** ** Processes *)

(** A new process: nothing cached, the keychain not yet found blocked. *)
Definition fresh (ks : KeyState) : KeyState := {|
  key_file := key_file ks; keychain_item := keychain_item ks; keychain_blocked := false; key_cache := None |}.

(** What a reachable keychain gives. *)
Definition chain_key (ks : KeyState) : option str :=
  match decode_hex <$> keychain_item ks with
  | Some (Ok k) => if key_ok k then Some k else None
  | _ => None
  end.

(** The text in the keychain is text that can be decoded: no slice falls inside a character. *)
Definition sliceable (ks : KeyState) : Prop :=
  match keychain_item ks with Some hex => no_panic (decode_hex hex) | None => True end.

Lemma key_ok_nonempty k : key_ok k = true -> k <> [].
Proof. intros Hk ->. done. Qed.

Lemma load_chain_key e allow ks k :
  k_enabled e = true -> k_load e = KcOk -> chain_key ks = Some k ->
  (load_or_create_key e allow (fresh ks)).2 = Ok k.
Proof.
  intros He Hl Hk. unfold load_or_create_key. rewrite He. cbn [negb key_cache fresh].
  unfold load_or_create_key_inner, keychain_load_timed. cbn [fresh keychain_blocked keychain_item].
  rewrite Hl. unfold chain_key in Hk. destruct (keychain_item ks) as [hex|]; [|done]. simpl in Hk.
  destruct (decode_hex hex) as [b| |]; try done. destruct (key_ok b) eqn:Eb; [|done].
  by injection Hk as ->.
Qed.

Lemma stored_chain_key ks k : key_ok k = true -> keychain_item ks = Some (hex_encode k) -> chain_key ks = Some k.
Proof.
  intros Hk Hi. unfold chain_key. rewrite Hi. simpl.
  rewrite decode_hex_encode by (by apply key_ok_nonempty). by rewrite Hk.
Qed.

(** Without a usable key in the keychain, the file decides. *)
Lemma load_no_chain_key e allow ks k :
  k_enabled e = true -> k_load e = KcOk -> sliceable ks -> chain_key ks = None ->
  key_file ks = Some k -> key_ok k = true ->
  (load_or_create_key e allow (fresh ks)).2 = Ok k.
Proof.
  intros He Hl Hs Hn Hf Hk. unfold load_or_create_key. rewrite He. cbn [negb key_cache fresh].
  unfold load_or_create_key_inner, keychain_load_timed. cbn [fresh keychain_blocked keychain_item].
  rewrite Hl. unfold chain_key, sliceable in *. unfold file_or_new_key, file_key. cbn [key_file fresh].
  destruct (keychain_item ks) as [hex|]; simpl in Hn; [|by rewrite Hf, Hk].
  destruct (decode_hex hex) as [b| |]; [|by rewrite Hf, Hk|done].
  destruct (key_ok b); [done|]. by rewrite Hf, Hk.
Qed.

Definition long_keys (e : key_env) : Prop := forall k, k_urandom e = Some k -> key_ok k = true.

Lemma store_keeps_file e secret ks : key_file (keychain_store_timed e secret ks).1 = key_file ks.
Proof. unfold keychain_store_timed. by destruct (keychain_blocked ks), (k_store e) as [| |[]]. Qed.

Lemma store_item e secret ks :
  keychain_item (keychain_store_timed e secret ks).1 = Some secret \/
  keychain_item (keychain_store_timed e secret ks).1 = keychain_item ks /\
    (keychain_store_timed e secret ks).2 = false.
Proof. unfold keychain_store_timed. destruct (keychain_blocked ks), (k_store e) as [| |[]]; auto. Qed.

(** After the key was obtained, keychain and file agree on it. *)
Definition settled (k : str) (ks : KeyState) : Prop :=
  key_ok k = true /\ (chain_key ks = Some k \/ chain_key ks = None /\ sliceable ks /\ key_file ks = Some k).

Lemma settled_load e allow ks k :
  k_enabled e = true -> k_load e = KcOk -> settled k ks ->
  (load_or_create_key e allow (fresh ks)).2 = Ok k.
Proof.
  intros He Hl (Hk & [Hc|(Hc & Hs & Hf)]); [by apply load_chain_key|by apply load_no_chain_key].
Qed.

Lemma chain_key_item ks ks' : keychain_item ks = keychain_item ks' -> chain_key ks = chain_key ks' /\ (sliceable ks <-> sliceable ks').
Proof. unfold chain_key, sliceable. by intros ->. Qed.

Lemma rest_settled e allow ks ks' k :
  long_keys e -> sliceable ks -> chain_key ks = None ->
  file_or_new_key e true allow ks = (ks', Ok k) -> settled k ks'.
Proof.
  intros Hlong Hs Hc E. assert (Hstore : forall secret, key_ok secret = true ->
    chain_key (keychain_store_timed e (hex_encode secret) ks).1 = Some secret \/
    chain_key (keychain_store_timed e (hex_encode secret) ks).1 = None /\
      sliceable (keychain_store_timed e (hex_encode secret) ks).1 /\
      (keychain_store_timed e (hex_encode secret) ks).2 = false).
  { intros secret Hk. destruct (store_item e (hex_encode secret) ks) as [Hi|[Hi H2]].
    - left. by apply stored_chain_key.
    - right. apply chain_key_item in Hi as [-> ->]. done. }
  unfold file_or_new_key, file_key, new_key in E. destruct (key_file ks) as [c|] eqn:Ef.
  1: destruct (key_ok c) eqn:Ec.
  { injection E as <- <-. split; [done|]. rewrite store_keeps_file, Ef. destruct (Hstore c Ec); naive_solver. }
  all: destruct allow; [|done]; destruct (k_dir_ok e); [|done]; cbn [negb] in E;
    destruct (k_urandom e) as [k2|] eqn:Ek; [|done]; pose proof (Hlong _ Ek) as Hk2;
    specialize (Hstore k2 Hk2); destruct (keychain_store_timed e (hex_encode k2) ks) as [ks2 stored];
    cbn [fst snd] in Hstore; destruct stored; [injection E as <- <-; split; [done|naive_solver]|];
    destruct (k_write_ok e); [|done]; injection E as <- <-; split; [done|];
    destruct Hstore as [Hst|(Hst & Hsl & _)]; [left; done|right; done].
Qed.

(** with the keychain in use and reachable, whichever way a process obtained the key, every
    later process obtains the same one. *)
Theorem key_survives_restart e e' allow allow' ks ks' k :
  k_enabled e = true -> k_load e = KcOk -> long_keys e -> sliceable ks ->
  load_or_create_key e allow (fresh ks) = (ks', Ok k) ->
  k_enabled e' = true -> k_load e' = KcOk ->
  (load_or_create_key e' allow' (fresh ks')).2 = Ok k.
Proof.
  intros He Hl Hlong Hs E He' Hl'. apply settled_load; [done|done|].
  unfold load_or_create_key in E. rewrite He in E. cbn [negb key_cache fresh] in E.
  unfold load_or_create_key_inner, keychain_load_timed in E. cbn [fresh keychain_blocked keychain_item] in E.
  rewrite Hl in E.
  assert (Hrest : forall ksr, file_or_new_key e true allow (fresh ks) = (ksr, Ok k) ->
    chain_key ks = None -> settled k ksr).
  { intros ksr Er Hc. by apply (rest_settled e allow (fresh ks)). }
  assert (Hcache : forall ksr, settled k ksr ->
    settled k {| key_file := key_file ksr; keychain_item := keychain_item ksr;
      keychain_blocked := keychain_blocked ksr; key_cache := Some k |}) by done.
  unfold chain_key, sliceable in Hs, Hrest. destruct (keychain_item ks) as [hex|] eqn:Ei; simpl in Hrest.
  - destruct (decode_hex hex) as [b| |] eqn:Ed; [destruct (key_ok b) eqn:Eb| |done].
    { injection E as <- <-. split; [done|]. left. unfold chain_key. simpl. rewrite Ei. simpl. by rewrite Ed, Eb. }
    all: case_match; destruct o; try done; injection E as <- <-; apply Hcache; auto.
  - case_match; destruct o; try done; injection E as <- <-; apply Hcache; auto.
Qed.

(** ** A keychain that cannot be reached *)

Section Fork.
Context {Value : Type} `{AuditJson Value} `{!AuditJsonLaws Value}.

(** The keychain holds [k1]; a process that cannot reach it in time starts a log with a new
    key [k2] in the file. The next process prefers the keychain, and the log does not verify. *)
Theorem unreachable_keychain_forks_key e ev kind d ks k1 k2 t late :
  chain_key ks = Some k1 -> key_file ks = None ->
  k_enabled e = true -> k_load e = KcTimeout late -> k_urandom e = Some k2 ->
  k_dir_ok e = true -> k_write_ok e = true ->
  k_enabled ev = true -> k_load ev = KcOk ->
  utf8_valid kind = true -> exact d ->
  compute_hash k1 0 t kind d GENESIS_HASH <> compute_hash k2 0 t kind d GENESIS_HASH ->
  let env := {| a_dir_ok := true; a_rename := fun _ => true; a_read_ok := true; a_key := e; a_now := t;
                a_write := LineOk |} in
  let '(s', r) := append_to env kind d ({| log_file := None; old_logs := [] |}, fresh ks) in
  r = Ok tt /\
  verify_at ev (s'.1, fresh s'.2) = Ok {| vr_lines := 0; vr_valid := false; vr_broken_at := Some 1%nat |}.
Proof.
  intros Hc Hf He Hl Hu Hd Hw He' Hl' Hk Hx Hne env. unfold append_to, env.
  cbn [a_dir_ok a_read_ok a_rename a_key a_now a_write negb andb rotate_if_needed log_file last_event].
  rewrite bool_decide_eq_true_2 by done. unfold load_or_create_key at 1. rewrite He. cbn [negb key_cache fresh].
  unfold load_or_create_key_inner at 1, keychain_load_timed. cbn [keychain_blocked fresh]. rewrite Hl.
  unfold file_or_new_key at 1, file_key. cbn [key_file block fresh]. rewrite Hf.
  unfold new_key. rewrite Hd, Hu, Hw. unfold keychain_store_timed. cbn [keychain_blocked block negb fst snd].
  cbn [append_line log_file default app fst snd]. split; [done|]. unfold verify_at. cbn [fst snd log_file old_logs].
  set (ks2 := Build_KeyState _ _ _ _).
  rewrite (load_chain_key ev false ks2 k1) by (try done; exact Hc). cbn [obind].
  set (e1 := next_event k2 t kind d None).
  assert (Ht : typed e1).
  { split; [simpl; lia|]. split; [done|]. split; [done|]. apply utf8_valid_ascii.
    eapply Forall_impl; [apply hex_encode_lower|apply lower_hex_ascii]. }
  rewrite <- log_text_one, read_log by (by apply Forall_singleton). cbn [fmap list_fmap verify_loop].
  rewrite event_str_not_blank, event_roundtrip by done. cbn [seq prev_hash line_hash ts data AuditLog.kind e1 next_event].
  cbn [Z.eqb negb]. rewrite bool_decide_eq_true_2 by done. cbn [negb]. by rewrite bool_decide_eq_false_2.
Qed.
End Fork.

(** ** Witnesses *)

Definition chained : KeyState := {|
  key_file := None; keychain_item := Some (hex_encode demo_key); keychain_blocked := false; key_cache := None |}.
Definition chain_env (load : keychain_answer) : key_env := {|
  k_enabled := true; k_load := load; k_store := KcOk; k_urandom := Some (replicate 31 x5a ++ [x00]);
  k_dir_ok := true; k_write_ok := true |}.

Lemma key_survives_restart_witness :
  let first := load_or_create_key (chain_env KcOk) true (fresh demo_keys) in
  first.2 = Ok demo_key /\ (load_or_create_key (chain_env KcOk) false (fresh first.1)).2 = Ok demo_key.
Proof.
  cbn zeta. split; [by vm_compute|].
  apply (key_survives_restart (chain_env KcOk) (chain_env KcOk) true false demo_keys); try done.
  intros k [= <-]. done.
Defined.

Lemma unreachable_keychain_forks_key_witness :
  let s' := (append_to (Value := bool) {| a_dir_ok := true; a_rename := fun _ => true; a_read_ok := true;
      a_key := chain_env (KcTimeout false); a_now := 7; a_write := LineOk |} demo_kind true
      ({| log_file := None; old_logs := [] |}, fresh chained)).1 in
  verify_at (Value := bool) (chain_env KcOk) (s'.1, fresh s'.2) =
    Ok {| vr_lines := 0; vr_valid := false; vr_broken_at := Some 1%nat |}.
Proof.
  pose proof (unreachable_keychain_forks_key (Value := bool) (chain_env (KcTimeout false)) (chain_env KcOk) demo_kind
    true chained demo_key (replicate 31 x5a ++ [x00]) 7 false) as Hw.
  cbn zeta in *. destruct (append_to _ _ _ _) as [s' r]. apply Hw; try done; by vm_compute.
Defined.
