(* ===== verification/FileTail.v ===== *)
(** * The file tailer (aic-server/src/otlp_exporter/logs/file.rs)

    A tailer polls one path. It knows its file by a hash of the first 1024 bytes, reads whole
    lines from its position while a budget lasts, hands them to a channel and saves its
    position as a checkpoint; a rotated file is read to its end before the new one.

    Files keep their identity and content while they are open, whatever the path names. What
    the file system shows at each call of a tick, and whether the call succeeds, is part of
    the tick's environment, so that the file can change between the calls. The token bucket
    (floating point) is an argument: the number of lines it grants. *)

From S2P Require Import Prelude RustStr Records Checkpoint.

Definition FINGERPRINT_MIN_BYTES : nat := 1024.
Definition POLL_INTERVAL : Z := 1000.
Definition NL : byte := x0a.

(** ** Severity *)

Definition LEVELS : list str := [lit "ERROR"; lit "WARN"; lit "INFO"; lit "DEBUG"].

Fixpoint find_level (words : list str) : str :=
  match words with
  | [] => lit "INFO"
  | w :: rest =>
      let trimmed := trim_matches (fun c => negb (is_ascii_alphanumeric c)) w in
      match List.find (fun l => bool_decide (l = trimmed)) LEVELS with
      | Some level => level
      | None => find_level rest
      end
  end.

Definition parse_severity_prefix (line : str) : str := find_level (take 8 (split_whitespace line)).

(** ** Identity *)

Inductive TailDecision := Deferred | Continue | Truncated | Rotated.

Definition decide_change (old_fp new_fp : option Z) (old_inode new_inode : Z) (size offset : nat) : TailDecision :=
  match old_fp, new_fp with
  | None, None => Deferred
  | None, Some _ => Rotated
  | Some old, Some new =>
      if old =? new then (if (size <? offset)%nat then Truncated else Continue) else Rotated
  | Some _, None => if new_inode =? old_inode then Truncated else Rotated
  end.

(** Files by identity; the path names one of them or none. *)
Record Files := { at_path : option nat; ino : nat -> Z; bytes : nat -> str }.

(** What a call sees, and whether it succeeds. *)
Record view := { seen : Files; succeeds : bool }.

Definition checkpoint_value (fp : Z) (offset : nat) : str :=
  to_radix 16 16 fp ++ x3a :: show_unsigned (Z.of_nat offset).

Definition parse_checkpoint_value (value : str) : option (Z * Z) :=
  '(fp_str, offset_str) ← split_once x3a value;
  fp ← parse_unsigned 16 u64_max fp_str;
  offset ← parse_u64 offset_str;
  Some (fp, offset).

Record TrackedHandle := { file : nat; fingerprint : Z; inode : Z; offset : nat }.

Definition set_offset (n : nat) (h : TrackedHandle) : TrackedHandle :=
  {| file := h.(file); fingerprint := h.(fingerprint); inode := h.(inode); offset := n |}.

(** ** Lines *)

Record CompleteLine := { start : nat; text : str; next : nat }.

(** Lines that end in a newline, at most [max]; the flag tells that [max] was reached. *)
Fixpoint read_lines_from (max cursor : nat) (rest : str) : list CompleteLine * bool :=
  match max with
  | O => ([], true)
  | S max =>
      match find_byte NL rest with
      | None => ([], false)
      | Some i =>
          let next := (cursor + S i)%nat in
          let '(ls, more) := read_lines_from max next (drop (S i) rest) in
          ({| start := cursor; text := trim_end_byte x0d (from_utf8_lossy (take i rest)); next := next |} :: ls,
           more)
      end
  end.

Definition read_complete_lines (content : str) (start_offset max_lines : nat) : list CompleteLine * bool :=
  read_lines_from max_lines start_offset (drop start_offset content).

Section Tail.
(** The hash of the standard library, and the parser of lines. *)
Variable hash_bytes : str -> Z.
Variable parser : str -> option LogLine.

Definition compute_fingerprint (v : view) (size : nat) : outcome (option Z) unit :=
  if (size <? FINGERPRINT_MIN_BYTES)%nat then Ok None
  else if negb v.(succeeds) then Err tt
  else match at_path v.(seen) with
       | None => Err tt
       | Some f =>
           let content := bytes v.(seen) f in
           if (length content <? FINGERPRINT_MIN_BYTES)%nat then Ok None
           else Ok (Some (hash_bytes (take FINGERPRINT_MIN_BYTES content)))
       end.

(** The lines that may still be sent in this tick, the sends the channel will accept, and
    the lines sent. *)
Record tx_state := { budget : nat; room : nat; sent : list LogLine }.

(** [record_id] of a line with a natural key. *)
Definition with_id (fp : Z) (l : CompleteLine) (line : LogLine) : LogLine := {|
  ll_source := line.(ll_source); ll_service := line.(ll_service); ll_severity := line.(ll_severity);
  ll_message := line.(ll_message); ll_attrs := line.(ll_attrs); ll_ts := line.(ll_ts);
  ll_record_id := lit "log:" ++ to_radix 16 16 fp ++ x3a :: show_unsigned (Z.of_nat l.(start)) |}.

Fixpoint emit_lines (h : TrackedHandle) (ls : list CompleteLine) (x : tx_state)
    : TrackedHandle * tx_state * bool :=
  match ls with
  | [] => (h, x, false)
  | l :: rest =>
      match parser l.(text) with
      | None =>
          emit_lines (set_offset l.(next) h) rest
            {| budget := x.(budget) - 1; room := x.(room); sent := x.(sent) |}
      | Some line =>
          match x.(room) with
          | O => (h, x, true)
          | S r =>
              emit_lines (set_offset l.(next) h) rest
                {| budget := x.(budget) - 1; room := r; sent := x.(sent) ++ [with_id h.(fingerprint) l line] |}
          end
      end
  end.

(** [None]: the read failed; nothing was sent. *)
Definition emit_from_handle (v : view) (h : TrackedHandle) (x : tx_state)
    : option (TrackedHandle * tx_state * bool) :=
  if (x.(budget) =? 0)%nat then Some (h, x, true)
  else if negb v.(succeeds) then None
  else
    let '(ls, more) := read_complete_lines (bytes v.(seen) h.(file)) h.(offset) x.(budget) in
    let '(h, x, full) := emit_lines h ls x in
    Some (h, x, full || more).

(** ** The tailer *)

Record FileTail := {
  handle : option TrackedHandle;
  draining : option TrackedHandle;
  backlog : bool;
  next_poll : option Z;
  deferred_warned : bool;
}.

Definition new_tail : FileTail :=
  {| handle := None; draining := None; backlog := false; next_poll := None; deferred_warned := false |}.

Definition is_due (now : Z) (t : FileTail) : bool :=
  t.(backlog) || match t.(next_poll) with None => true | Some at_ => at_ <=? now end.

Definition set_backlog (b : bool) (t : FileTail) : FileTail := {|
  handle := t.(handle); draining := t.(draining); backlog := b; next_poll := t.(next_poll);
  deferred_warned := t.(deferred_warned) |}.

Definition set_handle (h : option TrackedHandle) (t : FileTail) : FileTail := {|
  handle := h; draining := t.(draining); backlog := t.(backlog); next_poll := t.(next_poll);
  deferred_warned := t.(deferred_warned) |}.

Definition set_draining (h : option TrackedHandle) (t : FileTail) : FileTail := {|
  handle := t.(handle); draining := h; backlog := t.(backlog); next_poll := t.(next_poll);
  deferred_warned := t.(deferred_warned) |}.

Definition set_warned (b : bool) (t : FileTail) : FileTail := {|
  handle := t.(handle); draining := t.(draining); backlog := t.(backlog); next_poll := t.(next_poll);
  deferred_warned := b |}.

Definition set_next_poll (at_ : option Z) (t : FileTail) : FileTail := {|
  handle := t.(handle); draining := t.(draining); backlog := t.(backlog); next_poll := at_;
  deferred_warned := t.(deferred_warned) |}.

Variable label : str.
Definition checkpoint_key : str := lit "file/" ++ label.

(** The state a tick works on: the tailer, the channel, the checkpoint directory. *)
Definition world : Type := FileTail * tx_state * CheckpointStore.

(** [drain_rotated]: [Ok true] when nothing is left to drain. A failed read drops the handle. *)
Definition drain_rotated (v : view) (w : world) : world * outcome bool unit :=
  let '(t, x, st) := w in
  match t.(draining) with
  | None => (w, Ok true)
  | Some old =>
      match emit_from_handle v old x with
      | None => ((set_draining None t, x, st), Err tt)
      | Some (old, x, true) => ((set_draining (Some old) t, x, st), Ok false)
      | Some (_, x, false) => ((set_draining None t, x, st), Ok true)
      end
  end.

Definition read_and_emit (v : view) (io : save_io) (w : world) : world * outcome unit unit :=
  let '(t, x, st) := w in
  match t.(handle) with
  | None => (w, Ok tt)
  | Some h =>
      match emit_from_handle v h x with
      | None => (w, Err tt)
      | Some (h', x, more) =>
          let t := set_backlog (t.(backlog) || more) (set_handle (Some h') t) in
          if (h'.(offset) =? h.(offset))%nat then ((t, x, st), Ok tt)
          else ((t, x, (save io checkpoint_key (checkpoint_value h'.(fingerprint) h'.(offset)) st).2), Ok tt)
      end
  end.

(** Where a file is read from when it is first seen. *)
Definition resume_offset (st : CheckpointStore) (fp : Z) (size : nat) : nat :=
  match load checkpoint_key st ≫= parse_checkpoint_value with
  | Some (cp_fp, cp_offset) => if cp_fp =? fp then Z.to_nat (Z.min cp_offset (Z.of_nat size)) else size
  | None => size
  end.

(** What a tick sees at each of its calls. *)
Record tick_env := {
  v_drain : view;
  v_meta : view;
  v_fp : view;
  v_rotated : view;
  v_open : view;
  v_read : view;
  v_save : save_io;
}.

Definition handle_rotation (e : tick_env) (new_fp : option Z) (new_inode : Z) (size : nat) (w : world)
    : world * outcome unit unit :=
  let '(t, x, st) := w in
  let had_prior_handle := bool_decide (is_Some t.(handle)) in
  let t := set_handle None (set_draining t.(handle) t) in
  match drain_rotated e.(v_rotated) (t, x, st) with
  | (w, Ok drained) =>
      let '(t, x, st) := w in
      let t := set_warned false t in
      match new_fp with
      | None => ((set_backlog (negb drained) t, x, st), Ok tt)
      | Some fp =>
          match (if e.(v_open).(succeeds) then at_path e.(v_open).(seen) else None) with
          | None => ((t, x, st), Err tt)
          | Some f =>
              let start_offset := if had_prior_handle then O else resume_offset st fp size in
              let t := set_handle (Some {| file := f; fingerprint := fp; inode := new_inode;
                                           offset := start_offset |}) t in
              if negb drained then ((set_backlog true t, x, st), Ok tt)
              else read_and_emit e.(v_read) e.(v_save) (t, x, st)
          end
      end
  | (w, Err _) => (w, Err tt)
  | (w, Panic) => (w, Panic)
  end.

Definition tick_with_budget (e : tick_env) (w : world) : world * outcome unit unit :=
  match drain_rotated e.(v_drain) w with
  | (w, Err _) => (w, Err tt)
  | (w, Panic) => (w, Panic)
  | ((t, x, st), Ok false) => ((set_backlog true t, x, st), Ok tt)
  | ((t, x, st), Ok true) =>
      if negb e.(v_meta).(succeeds) then ((t, x, st), Err tt)
      else match at_path e.(v_meta).(seen) with
      | None => ((set_backlog false t, x, st), Ok tt)
      | Some f =>
          let size := length (bytes e.(v_meta).(seen) f) in
          let new_inode := ino e.(v_meta).(seen) f in
          match compute_fingerprint e.(v_fp) size with
          | Panic => ((t, x, st), Panic)
          | Err _ => ((t, x, st), Err tt)
          | Ok new_fp =>
              let '(old_fp, old_inode, off) :=
                match t.(handle) with
                | Some h => (Some h.(fingerprint), h.(inode), h.(offset))
                | None => (None, 0, O)
                end in
              let t := set_backlog false t in
              match decide_change old_fp new_fp old_inode new_inode size off with
              | Deferred => ((set_warned true t, x, st), Ok tt)
              | Continue => read_and_emit e.(v_read) e.(v_save) (t, x, st)
              | Truncated =>
                  let restart h := {|
                    file := h.(file);
                    fingerprint := match new_fp with Some fp => fp | None => h.(fingerprint) end;
                    inode := h.(inode); offset := O |} in
                  read_and_emit e.(v_read) e.(v_save) (set_handle (restart <$> t.(handle)) t, x, st)
              | Rotated => handle_rotation e new_fp new_inode size (t, x, st)
              end
          end
      end
  end.

(** [tick_at]: what the token bucket and the channel allow is granted; the used part is
    charged to the bucket. *)
Definition tick_at (now : Z) (available capacity : nat) (e : tick_env) (w : world)
    : world * outcome unit unit * nat :=
  let '(t, x, st) := w in
  let granted := (available `min` capacity)%nat in
  let x := {| budget := granted; room := x.(room); sent := x.(sent) |} in
  let '(w, r) := tick_with_budget e (set_next_poll (Some (now + POLL_INTERVAL)) t, x, st) in
  (w, r, (granted - budget w.1.2)%nat).
End Tail.
