(* ===== verification/FileTailSpec.v ===== *)
(** * Theorems about the file tailer

    [tail_exactly_once]: from an agreeing checkpoint every complete line is sent once, in
    order, across restarts, and the tailer catches up ([tail_catches_up]). *)

From S2P Require Import Prelude RustStr Records Checkpoint FileTail.

(** ** Complete lines *)

(** All complete lines of [rest], which starts at position [o]. *)
Definition all_lines (o : nat) (rest : str) : list CompleteLine := (read_lines_from (length rest) o rest).1.

(** The complete lines of a file from a position on. *)
Definition lines_at (content : str) (o : nat) : list CompleteLine := all_lines o (drop o content).

(** The position after some lines. *)
Definition pos (o : nat) (ls : list CompleteLine) : nat := default o (next <$> last ls).

Definition line_of (o i : nat) (rest : str) : CompleteLine :=
  {| start := o; text := trim_end_byte x0d (from_utf8_lossy (take i rest)); next := (o + S i)%nat |}.

Lemma find_byte_lt c s i : find_byte c s = Some i -> (i < length s)%nat.
Proof. intros (pre & post & -> & <- & _)%find_byte_Some. rewrite length_app. simpl. lia. Qed.

Lemma read_lines_step max o rest :
  read_lines_from (S max) o rest =
    match find_byte NL rest with
    | None => ([], false)
    | Some i =>
        (line_of o i rest :: (read_lines_from max (o + S i) (drop (S i) rest)).1,
         (read_lines_from max (o + S i) (drop (S i) rest)).2)
    end.
Proof. cbn [read_lines_from]. destruct (find_byte NL rest); [|done]. by destruct (read_lines_from _ _ _). Qed.

Lemma read_lines_fuel m : forall m' o rest,
  (length rest <= m)%nat -> (length rest <= m')%nat -> (read_lines_from m o rest).1 = (read_lines_from m' o rest).1.
Proof.
  induction m as [|m IH]; intros m' o rest H1 H2.
  - destruct rest; [|simpl in H1; lia]. by destruct m'.
  - destruct m' as [|m']; [by destruct rest; [|simpl in H2; lia]|]. rewrite !read_lines_step.
    destruct (find_byte NL rest) as [i|] eqn:E; [|done]. apply find_byte_lt in E. cbn [fst]. f_equal.
    apply IH; rewrite length_drop; lia.
Qed.

Lemma all_lines_unfold o rest :
  all_lines o rest =
    match find_byte NL rest with
    | None => []
    | Some i => line_of o i rest :: all_lines (o + S i) (drop (S i) rest)
    end.
Proof.
  unfold all_lines. rewrite (read_lines_fuel _ (S (length rest))) by lia. rewrite read_lines_step.
  destruct (find_byte NL rest) as [i|] eqn:E; [|done]. cbn [fst]. f_equal.
  apply read_lines_fuel; rewrite length_drop; lia.
Qed.

(** At most [max] lines are read, and the flag tells that there may be more. *)
Lemma read_lines_take max : forall o rest,
  read_lines_from max o rest = (take max (all_lines o rest), (max <=? length (all_lines o rest))%nat).
Proof.
  induction max as [|max IH]; intros o rest; [done|]. rewrite read_lines_step, all_lines_unfold.
  destruct (find_byte NL rest) as [i|]; [|done]. by rewrite IH.
Qed.

Lemma find_byte_prefix c s t i : find_byte c s = Some i -> find_byte c (s ++ t) = Some i.
Proof.
  revert i. induction s as [|b s IH]; intros i; simpl; [done|]. case_bool_decide; [done|].
  destruct (find_byte c s) as [j|]; [|done]. by rewrite (IH j).
Qed.

(** What is appended to a file does not change its complete lines. *)
Lemma all_lines_grow o rest more : all_lines o rest `prefix_of` all_lines o (rest ++ more).
Proof.
  remember (length rest) as n eqn:Hn. revert o rest Hn.
  induction n as [n IH] using lt_wf_ind. intros o rest ->.
  rewrite (all_lines_unfold o rest). destruct (find_byte NL rest) as [i|] eqn:E; [|apply prefix_nil].
  rewrite (all_lines_unfold o (rest ++ more)), (find_byte_prefix _ _ _ _ E).
  pose proof (find_byte_lt _ _ _ E). unfold line_of. rewrite take_app_le by lia.
  apply prefix_cons. rewrite drop_app_le by lia. eapply IH; [|done]. rewrite length_drop. lia.
Qed.

Lemma lines_at_grow c c' o : c `prefix_of` c' -> (o <= length c)%nat -> lines_at c o `prefix_of` lines_at c' o.
Proof. intros [more ->] Ho. unfold lines_at. rewrite drop_app_le by lia. apply all_lines_grow. Qed.

Lemma pos_cons o l ls : pos o (l :: ls) = pos (next l) ls.
Proof. unfold pos. rewrite last_cons. by destruct (last ls). Qed.

(** Reading goes on where it stopped. *)
Lemma lines_at_pos content k : forall o,
  lines_at content (pos o (take k (lines_at content o))) = drop k (lines_at content o).
Proof.
  induction k as [|k IH]; intros o; [by rewrite drop_0|].
  unfold lines_at at 2 3. rewrite all_lines_unfold.
  destruct (find_byte NL (drop o content)) as [i|] eqn:E; cbn [take drop].
  - rewrite pos_cons. cbn [next line_of]. rewrite drop_drop. apply (IH (o + S i)%nat).
  - unfold pos. simpl. unfold lines_at. by rewrite all_lines_unfold, E.
Qed.

Lemma pos_bound content ls : forall o,
  ls `prefix_of` lines_at content o -> (o <= length content)%nat -> (o <= pos o ls <= length content)%nat.
Proof.
  induction ls as [|l ls IH]; intros o Hp Ho; [unfold pos; simpl; lia|].
  unfold lines_at in Hp. rewrite all_lines_unfold in Hp.
  destruct (find_byte NL (drop o content)) as [i|] eqn:E; [|by apply prefix_nil_inv in Hp].
  pose proof (find_byte_lt _ _ _ E) as Hi. rewrite length_drop in Hi.
  apply prefix_cons_inv_1 in Hp as Hl. apply prefix_cons_inv_2 in Hp. rewrite drop_drop in Hp.
  rewrite pos_cons, Hl. cbn [next line_of]. specialize (IH (o + S i)%nat Hp ltac:(lia)). lia.
Qed.

Lemma pos_app o l1 l2 : pos o (l1 ++ l2) = pos (pos o l1) l2.
Proof. unfold pos. rewrite last_app. by destruct (last l2). Qed.

Lemma pos_later content k : forall o,
  (0 < k <= length (lines_at content o))%nat -> (o < pos o (take k (lines_at content o)))%nat.
Proof.
  intros o Hk. assert (E : lines_at content o = lines_at content o) by done. revert E.
  unfold lines_at at 2. rewrite all_lines_unfold.
  destruct (find_byte NL (drop o content)) as [i|] eqn:Ei; [|intros E; rewrite E in Hk; simpl in Hk; lia].
  intros E. rewrite E in *. destruct k as [|k]; [lia|]. cbn [take]. rewrite pos_cons. cbn [next line_of].
  rewrite drop_drop. pose proof (find_byte_lt _ _ _ Ei) as Hi. rewrite length_drop in Hi.
  assert (Hb : (o + S i <= pos (o + S i) (take k (lines_at content (o + S i))) <= length content)%nat).
  { apply pos_bound; [apply prefix_take|lia]. }
  unfold lines_at in Hb. lia.
Qed.

(** ** The checkpoint text *)

Lemma to_radix16_lower n : Forall (fun b => is_lower_hex b = true) (to_radix 16 16 n).
Proof. apply to_radix_Forall; [lia|]. intros d Hd. by apply digit_char_lower_hex. Qed.

Lemma parse_show_hex n : 0 <= n < 2 ^ 64 -> parse_unsigned 16 u64_max (to_radix 16 16 n) = Some n.
Proof.
  intros Hn. unfold parse_unsigned.
  assert (Hv : digits_value 16 (to_radix 16 16 n) = Some n) by (apply digits_value_to_radix; simpl; lia).
  assert (Hne := to_radix_nonempty 16 15 n). pose proof (to_radix16_lower n) as Hd.
  destruct (to_radix 16 16 n) as [|b s]; [done|]. invc Hd.
  rewrite (bool_decide_eq_false_2 (b = x2b)) by (by intros ->).
  rewrite bool_decide_eq_false_2 by done. rewrite Hv. simpl. unfold u64_max.
  by replace (n <=? 18446744073709551615) with true by lia.
Qed.

Lemma parse_checkpoint fp o :
  0 <= fp < 2 ^ 64 -> Z.of_nat o < 2 ^ 64 -> parse_checkpoint_value (checkpoint_value fp o) = Some (fp, Z.of_nat o).
Proof.
  intros Hf Ho. unfold parse_checkpoint_value, checkpoint_value, split_once.
  assert (Hn : x3a ∉ to_radix 16 16 fp) by (eapply not_elem_of_Forall; [apply to_radix16_lower|done]).
  rewrite find_byte_app by done. cbn [mbind option_bind].
  rewrite take_app_length, drop_app_ge, Nat.sub_succ_l, Nat.sub_diag by lia. cbn [drop].
  rewrite parse_show_hex by done. cbn [mbind option_bind]. unfold parse_u64.
  rewrite drop_0, parse_show_unsigned by (unfold u64_max; lia). done.
Qed.

Lemma checkpoint_value_plain fp o : Forall (fun b => is_plain b = true) (checkpoint_value fp o).
Proof.
  apply Forall_app. split; [eapply Forall_impl; [apply to_radix16_lower|apply lower_hex_plain]|].
  apply List.Forall_cons; [done|]. eapply Forall_impl; [apply show_unsigned_digits|]. intros b Hb.
  apply lower_hex_plain. unfold is_lower_hex, is_ascii_digit in *. by rewrite Hb.
Qed.

(** A saved position is what is loaded. *)
Lemma load_saved key fp o st :
  0 <= fp < 2 ^ 64 -> Z.of_nat o < 2 ^ 64 ->
  load key (save SaveOk key (checkpoint_value fp o) st).2 ≫= parse_checkpoint_value = Some (fp, Z.of_nat o).
Proof.
  intros Hf Ho. pose proof (checkpoint_value_plain fp o) as Hp.
  unfold load. cbn [save snd]. rewrite lookup_insert_eq. cbn [mbind option_bind].
  rewrite utf8_valid_ascii by (eapply Forall_impl; [exact Hp|]; unfold is_plain; intros; lia).
  rewrite trim_plain by done. rewrite bool_decide_eq_false_2; [by apply parse_checkpoint|].
  unfold checkpoint_value. by destruct (to_radix 16 16 fp).
Qed.

(** ** Emission *)

Section Tail.
Variable parser : str -> option LogLine.

(** What is sent for a line. *)
Definition out (fp : Z) (l : CompleteLine) : option LogLine := with_id fp l <$> parser l.(text).

Lemma emit_lines_spec ls : forall h x,
  (length ls <= budget x)%nat ->
  exists k h' x' full, emit_lines parser h ls x = (h', x', full) /\
    (k <= length ls)%nat /\ h' = set_offset (pos (offset h) (take k ls)) h /\
    budget x' = (budget x - k)%nat /\ sent x' = sent x ++ omap (out (fingerprint h)) (take k ls) /\
    (full = false -> k = length ls) /\ ((length ls <= room x)%nat -> full = false) /\
    (room x - room x' <= k)%nat.
Proof.
  induction ls as [|l ls IH]; intros h x Hb.
  { exists O, h, x, false. cbn. rewrite app_nil_r. repeat split; try lia. by destruct h. }
  cbn [emit_lines]. cbn [length] in Hb. destruct (parser (text l)) as [line|] eqn:Ep.
  - destruct (room x) as [|r] eqn:Er.
    { exists O, h, x, true. cbn. rewrite app_nil_r. repeat split; try lia; try done. by destruct h. }
    destruct (IH (set_offset (next l) h) {| budget := budget x - 1; room := r; sent := sent x ++ [with_id (fingerprint h) l line] |})
      as (k & h' & x' & full & E & Hk & Hh & Hbu & Hs & Hf & Hr & Hro); [simpl; lia|].
    exists (S k), h', x', full. rewrite E. cbn [budget room sent fingerprint set_offset offset] in *.
    split; [done|]. split; [cbn; lia|]. split; [cbn [take]; by rewrite pos_cons|]. split; [lia|].
    split. { rewrite Hs, <- app_assoc. cbn. unfold out at 2. by rewrite Ep. }
    split; [cbn; intros; f_equal; auto|]. split; [cbn; intros; apply Hr; lia|lia].
  - destruct (IH (set_offset (next l) h) {| budget := budget x - 1; room := room x; sent := sent x |})
      as (k & h' & x' & full & E & Hk & Hh & Hbu & Hs & Hf & Hr & Hro); [simpl; lia|].
    exists (S k), h', x', full. rewrite E. cbn [budget room sent fingerprint set_offset offset] in *.
    split; [done|]. split; [cbn; lia|]. split; [cbn [take]; by rewrite pos_cons|]. split; [lia|].
    split. { rewrite Hs. cbn. unfold out at 2. by rewrite Ep. }
    split; [cbn; intros; f_equal; auto|]. split; [cbn; intros; apply Hr; lia|lia].
Qed.

(** One reading: some of the lines that are there, in order; all of them unless it says that
    there may be more; as many as the budget allows while the channel has room. *)
Lemma emit_spec v h x :
  succeeds v = true ->
  exists k x' more, let ls := lines_at (bytes (seen v) (file h)) (offset h) in
    emit_from_handle parser v h x = Some (set_offset (pos (offset h) (take k ls)) h, x', more) /\
    (k <= length ls)%nat /\ budget x' = (budget x - k)%nat /\ (k <= budget x)%nat /\
    sent x' = sent x ++ omap (out (fingerprint h)) (take k ls) /\
    (more = false -> k = length ls) /\
    ((budget x <= room x)%nat -> k = (budget x `min` length ls)%nat /\ (budget x' <= room x')%nat).
Proof.
  intros Hv. unfold emit_from_handle. destruct (budget x =? 0)%nat eqn:E0; bool_prop.
  { exists O, x, true. cbn. rewrite app_nil_r. split; [by destruct h|]. repeat split; try lia; done. }
  rewrite Hv. cbn [negb]. unfold read_complete_lines. rewrite read_lines_take.
  fold (lines_at (bytes (seen v) (file h)) (offset h)). set (ls := lines_at _ _).
  destruct (emit_lines_spec (take (budget x) ls) h x) as (k & h' & x' & full & -> & Hk & -> & Hb & Hs & Hf & Hr & Hro).
  { rewrite length_take. lia. }
  rewrite length_take in *. rewrite take_take in *. replace (k `min` budget x)%nat with k in * by lia.
  exists k, x', (full || (budget x <=? length ls)%nat). cbn zeta. split; [done|]. split; [lia|]. split; [done|].
  split; [lia|]. split; [done|]. split.
  - intros Hmore. apply orb_false_iff in Hmore as [-> Hm]. bool_prop. specialize (Hf eq_refl). lia.
  - intros Hroom. rewrite Hr in Hf by lia. specialize (Hf eq_refl). split; [lia|]. lia.
Qed.

(** ** A file that only grows *)

Variable hash_bytes : str -> Z.
Variable label : str.

Definition fp_of (c : str) : Z := hash_bytes (take FINGERPRINT_MIN_BYTES c).

(** The path names [f], whose content is between [c] and [c']. *)
Definition saw (f : nat) (c c' : str) (v : view) : Prop :=
  succeeds v = true /\ at_path (seen v) = Some f /\
  c `prefix_of` bytes (seen v) f /\ bytes (seen v) f `prefix_of` c'.

Definition agrees (st : CheckpointStore) (fp : Z) (p : nat) : Prop :=
  load (checkpoint_key label) st ≫= parse_checkpoint_value = Some (fp, Z.of_nat p).

Lemma take_prefix {A} (l l' : list A) k : l `prefix_of` l' -> (k <= length l)%nat -> take k l' = take k l.
Proof. intros [r ->] Hk. by rewrite take_app_le. Qed.

Lemma fp_of_prefix c c' : c `prefix_of` c' -> (FINGERPRINT_MIN_BYTES <= length c)%nat -> fp_of c' = fp_of c.
Proof. intros Hp Hl. unfold fp_of. by rewrite (take_prefix c c'). Qed.

Lemma fingerprint_seen f c c' v size :
  saw f c c' v -> (FINGERPRINT_MIN_BYTES <= length c)%nat -> (FINGERPRINT_MIN_BYTES <= size)%nat ->
  compute_fingerprint hash_bytes v size = Ok (Some (fp_of c)).
Proof.
  intros (Hs & Hp & Hc & _) Hl Hsz. unfold compute_fingerprint.
  replace (size <? FINGERPRINT_MIN_BYTES)%nat with false by lia. rewrite Hs, Hp. cbn [negb].
  pose proof (prefix_length _ _ Hc).
  replace (length (bytes (seen v) f) <? FINGERPRINT_MIN_BYTES)%nat with false by lia.
  by rewrite <- (fp_of_prefix c (bytes (seen v) f)).
Qed.

(** The first [k] lines from [o] on were sent; the tailer, or the checkpoint when it has been
    restarted, is after them. *)
Record tracks (f o k : nat) (c : str) (w : world) : Prop := {
  tr_idle : draining w.1.1 = None;
  tr_start : (o <= length c)%nat;
  tr_lines : (k <= length (lines_at c o))%nat;
  tr_saved : agrees w.2 (fp_of c) (pos o (take k (lines_at c o)));
  tr_handle : handle w.1.1 = None \/ exists i, handle w.1.1 =
    Some {| file := f; fingerprint := fp_of c; inode := i; offset := pos o (take k (lines_at c o)) |};
}.

(** The hash is a 64-bit number. *)
Hypothesis hash_range : forall s, 0 <= hash_bytes s < 2 ^ 64.

Lemma read_tracks f o k c c' i t x st v :
  (o <= length c)%nat -> (k <= length (lines_at c o))%nat -> (FINGERPRINT_MIN_BYTES <= length c)%nat ->
  Z.of_nat (length c') < 2 ^ 64 ->
  draining t = None -> agrees st (fp_of c) (pos o (take k (lines_at c o))) ->
  handle t = Some {| file := f; fingerprint := fp_of c; inode := i; offset := pos o (take k (lines_at c o)) |} ->
  saw f c c' v ->
  exists k' w', read_and_emit parser label v SaveOk (t, x, st) = (w', Ok tt) /\ (k <= k')%nat /\ tracks f o k' c' w' /\
    handle w'.1.1 <> None /\
    sent w'.1.2 = sent x ++ omap (out (fp_of c)) (take (k' - k) (drop k (lines_at c' o))) /\
    ((budget x <= room x)%nat -> bytes (seen v) f = c' -> k' = ((k + budget x) `min` length (lines_at c' o))%nat).
Proof.
  intros Ho Hk Hmin Hlen Hd Ha Hh (Hv & Hp & Hc & Hc'). unfold read_and_emit. rewrite Hh.
  set (h := {| file := f |}) in *. set (cr := bytes (seen v) f) in *.
  assert (Hcc : c `prefix_of` c') by (by etrans). pose proof (prefix_length _ _ Hc) as L1.
  pose proof (prefix_length _ _ Hc') as L2.
  assert (P1 : lines_at c o `prefix_of` lines_at cr o) by (apply lines_at_grow; done).
  assert (P2 : lines_at cr o `prefix_of` lines_at c' o) by (apply lines_at_grow; [done|lia]).
  pose proof (prefix_length _ _ P1) as L3. pose proof (prefix_length _ _ P2) as L4.
  destruct (emit_spec v h x Hv) as (j & x' & more & E & Hj & Hb & Hjb & Hs & Hm & Hr).
  cbn [file offset fingerprint h] in *. fold cr in E, Hj, Hs, Hm, Hr.
  rewrite <- (take_prefix _ _ k P1 Hk) in E, Hj, Hs, Hm, Hr.
  rewrite lines_at_pos in E, Hj, Hs, Hm, Hr. rewrite length_drop in Hj, Hm, Hr.
  assert (Hpos : pos (pos o (take k (lines_at cr o))) (take j (drop k (lines_at cr o))) =
                 pos o (take (k + j) (lines_at c' o))).
  { rewrite <- pos_app, take_take_drop. by rewrite (take_prefix _ _ (k + j) P2) by lia. }
  assert (Hout : take j (drop k (lines_at cr o)) = take (k + j - k) (drop k (lines_at c' o))).
  { replace (k + j - k)%nat with j by lia. rewrite !take_drop_commute. f_equal.
    symmetry. apply take_prefix; [done|lia]. }
  rewrite E. cbn [offset set_offset fingerprint h]. exists (k + j)%nat. rewrite Hpos.
  pose proof (pos_bound c' (take (k + j) (lines_at c' o)) o (prefix_take _ _) ltac:(lia)) as Hbnd.
  assert (Htr : forall st', agrees st' (fp_of c) (pos o (take (k + j) (lines_at c' o))) ->
    forall b, tracks f o (k + j) c' (set_backlog b (set_handle (Some (set_offset (pos o (take (k + j) (lines_at c' o))) h)) t), x', st')).
  { intros st' Hst b. split; cbn; try done; try lia; rewrite (fp_of_prefix c c') by done; [done|]. right. by exists i. }
  destruct (pos o (take (k + j) (lines_at c' o)) =? _)%nat eqn:Eq; bool_prop; eexists; (split; [reflexivity|]).
  - split; [lia|]. split; [apply Htr; by rewrite Eq|]. cbn. rewrite Hs, Hout. split; [done|]. split; [done|].
    intros Hroom Hcr. destruct (Hr Hroom) as [-> _]. fold cr in Hcr. rewrite Hcr. lia.
  - split; [lia|]. split; [apply Htr; apply load_saved; [apply hash_range|lia]|]. cbn. rewrite Hs, Hout.
    split; [done|]. split; [done|].
    intros Hroom Hcr. destruct (Hr Hroom) as [-> _]. fold cr in Hcr. rewrite Hcr. lia.
Qed.

(** The path names a growing file during the whole tick, and checkpoints are saved. *)
Definition sees (f : nat) (c c' : str) (e : tick_env) : Prop :=
  saw f c c' (v_meta e) /\ saw f c c' (v_fp e) /\ saw f c c' (v_open e) /\ saw f c c' (v_read e) /\
  v_save e = SaveOk.

Lemma tick_tracks f o k c c' e w :
  tracks f o k c w -> (FINGERPRINT_MIN_BYTES <= length c)%nat -> Z.of_nat (length c') < 2 ^ 64 ->
  sees f c c' e ->
  exists k' w', tick_with_budget hash_bytes parser label e w = (w', Ok tt) /\ (k <= k')%nat /\ tracks f o k' c' w' /\
    sent w'.1.2 = sent w.1.2 ++ omap (out (fp_of c)) (take (k' - k) (drop k (lines_at c' o))) /\
    ((budget w.1.2 <= room w.1.2)%nat -> bytes (seen (v_read e)) f = c' ->
      k' = ((k + budget w.1.2) `min` length (lines_at c' o))%nat).
Proof.
  destruct w as [[t x] st]. intros [Hd Ho Hk Ha Hh] Hmin Hlen (Sm & Sf & So & Sr & Hsave). cbn [fst snd] in *.
  unfold tick_with_budget, drain_rotated at 1. rewrite Hd. pose proof Sm as (Hm & Hp & Hc & _).
  rewrite Hm, Hp. cbn [negb]. pose proof (prefix_length _ _ Hc) as L1.
  rewrite (fingerprint_seen f c c') by (done || lia).
  pose proof (pos_bound c (take k (lines_at c o)) o (prefix_take _ _) ltac:(lia)) as Hb.
  assert (Hread : forall t, draining t = None -> (exists i, handle t =
      Some {| file := f; fingerprint := fp_of c; inode := i; offset := pos o (take k (lines_at c o)) |}) ->
    exists k' w', read_and_emit parser label (v_read e) (v_save e) (t, x, st) = (w', Ok tt) /\ (k <= k')%nat /\
      tracks f o k' c' w' /\
      sent w'.1.2 = sent x ++ omap (out (fp_of c)) (take (k' - k) (drop k (lines_at c' o))) /\
      ((budget x <= room x)%nat -> bytes (seen (v_read e)) f = c' ->
        k' = ((k + budget x) `min` length (lines_at c' o))%nat)).
  { intros t' Hd' [i Hi]. rewrite Hsave.
    destruct (read_tracks f o k c c' i t' x st (v_read e)) as (k' & w' & E1 & E2 & E3 & _ & E4 & E5); try done.
    by exists k', w'. }
  destruct Hh as [Hh|[i Hh]]; rewrite Hh; cbn [decide_change].
  - unfold handle_rotation. cbn [handle set_backlog]. rewrite Hh, bool_decide_eq_false_2 by (by intros [? ?]).
    unfold drain_rotated. cbn [draining set_handle set_draining set_backlog].
    destruct So as (Hos & Hop & _). rewrite Hos, Hop. cbn [negb]. apply Hread; [done|].
    exists (ino (seen (v_meta e)) f). cbn. repeat f_equal. unfold resume_offset. rewrite Ha, Z.eqb_refl.
    rewrite Z.min_l by lia. apply Nat2Z.id.
  - cbn [fingerprint inode offset]. rewrite Z.eqb_refl.
    replace (length (bytes (seen (v_meta e)) f) <? pos o (take k (lines_at c o)))%nat with false by lia.
    apply Hread; [done|]. exists i. exact Hh.
Qed.

(** ** Runs *)

(** Ticks, with what the token bucket grants and the channel takes, and restarts of the
    daemon, which lose everything but the checkpoint. *)
Inductive tail_event :=
| EvTick (now : Z) (available capacity channel : nat) (e : tick_env)
| EvRestart.

Definition with_room (n : nat) (w : world) : world :=
  let '(t, x, st) := w in (t, {| budget := budget x; room := n; sent := sent x |}, st).

Definition tail_step (w : world) (ev : tail_event) : world :=
  match ev with
  | EvTick now available capacity channel e =>
      (tick_at hash_bytes parser label now available capacity e (with_room channel w)).1.1
  | EvRestart => let '(_, x, st) := w in (new_tail, x, st)
  end.

(** The events while file [f] grows from the first content to the last. *)
Inductive grows (f : nat) : str -> list tail_event -> str -> Prop :=
| grows_nil c : grows f c [] c
| grows_tick c c1 c2 now a b r e evs :
    c `prefix_of` c1 -> sees f c c1 e -> grows f c1 evs c2 -> grows f c (EvTick now a b r e :: evs) c2
| grows_restart c c2 evs : grows f c evs c2 -> grows f c (EvRestart :: evs) c2.

Lemma grows_prefix f c evs c2 : grows f c evs c2 -> c `prefix_of` c2.
Proof. induction 1; [done|by etrans|done]. Qed.

Lemma tracks_channel f o k c t x x' st : tracks f o k c (t, x, st) -> tracks f o k c (t, x', st).
Proof. intros []. by split. Qed.

Lemma tick_at_tracks f o k c c' now a b r e w :
  tracks f o k c w -> (FINGERPRINT_MIN_BYTES <= length c)%nat -> Z.of_nat (length c') < 2 ^ 64 -> sees f c c' e ->
  let w' := tail_step w (EvTick now a b r e) in
  exists k', (k <= k')%nat /\ tracks f o k' c' w' /\
    sent w'.1.2 = sent w.1.2 ++ omap (out (fp_of c)) (take (k' - k) (drop k (lines_at c' o))) /\
    ((a `min` b <= r)%nat -> bytes (seen (v_read e)) f = c' ->
      k' = ((k + a `min` b) `min` length (lines_at c' o))%nat).
Proof.
  destruct w as [[t x] st]. intros Ht Hmin Hlen Hs. cbn [tail_step with_room tick_at].
  assert (Ht' : tracks f o k c (set_next_poll (Some (now + POLL_INTERVAL)) t,
    {| budget := a `min` b; room := r; sent := sent x |}, st)) by (destruct Ht; by split).
  destruct (tick_tracks f o k c c' e _ Ht' Hmin Hlen Hs) as (k' & w' & E & H1 & H2 & H3 & H4).
  cbn [room sent budget]. rewrite E. exists k'. done.
Qed.

Lemma take_drop_join {A} (g : A -> option LogLine) (l : list A) k k' :
  (k <= k')%nat -> omap g (take k l) ++ omap g (take (k' - k) (drop k l)) = omap g (take k' l).
Proof.
  intros Hk. rewrite <- omap_app, take_take_drop. by replace (k + (k' - k))%nat with k' by lia.
Qed.

(** What is sent while the file grows is a part of its lines, in order. *)
Lemma tail_prefix f o c evs c2 w k :
  tracks f o k c w -> (FINGERPRINT_MIN_BYTES <= length c)%nat -> Z.of_nat (length c2) < 2 ^ 64 ->
  grows f c evs c2 ->
  exists k', (k <= k')%nat /\ tracks f o k' c2 (foldl tail_step w evs) /\
    sent (foldl tail_step w evs).1.2 =
      sent w.1.2 ++ omap (out (fp_of c)) (take (k' - k) (drop k (lines_at c2 o))).
Proof.
  intros Ht Hmin Hlen Hg. revert w k Ht. induction Hg as [c|c c1 c2 now a b r e evs Hp Hs Hg IH|c c2 evs Hg IH];
    intros w k Ht; cbn [foldl].
  - exists k. rewrite Nat.sub_diag. cbn. by rewrite app_nil_r.
  - pose proof (prefix_length _ _ Hp) as L1. pose proof (grows_prefix _ _ _ _ Hg) as Hp2.
    pose proof (prefix_length _ _ Hp2) as L2.
    destruct (tick_at_tracks f o k c c1 now a b r e w Ht Hmin ltac:(lia) Hs) as (k1 & Hk1 & Ht1 & Hs1 & _).
    destruct (IH ltac:(lia) Hlen _ k1 Ht1) as (k' & Hk' & Ht' & Hs').
    exists k'. split; [lia|]. split; [done|]. rewrite Hs', Hs1, (fp_of_prefix c c1) by done.
    rewrite <- app_assoc. f_equal. rewrite <- (take_drop_join _ (drop k (lines_at c2 o)) (k1 - k) (k' - k)) by lia.
    rewrite drop_drop. replace (k + (k1 - k))%nat with k1 by lia. f_equal; [|by replace (k' - k - (k1 - k))%nat with (k' - k1)%nat by lia].
    f_equal. destruct Ht1 as [_ Ho1 Hl1 _ _]. rewrite !take_drop_commute. f_equal.
    symmetry. apply take_prefix; [by apply lines_at_grow|]. lia.
  - destruct w as [[t x] st]. apply (IH Hmin Hlen (new_tail, x, st) k). destruct Ht. split; try done. by left.
Qed.

(** A tick over a file at rest, with something granted and room for it. *)
Definition steady (f : nat) (c : str) (ev : tail_event) : Prop :=
  match ev with
  | EvTick _ a b r e => sees f c c e /\ (1 <= a `min` b <= r)%nat
  | EvRestart => False
  end.

(** Once the file rests, every line is sent after at most as many ticks as there are lines,
    whatever the budgets, when the channel keeps up. *)
Theorem tail_catches_up f o k c evs w :
  tracks f o k c w -> (FINGERPRINT_MIN_BYTES <= length c)%nat -> Z.of_nat (length c) < 2 ^ 64 ->
  Forall (steady f c) evs -> (length (lines_at c o) - k <= length evs)%nat ->
  sent (foldl tail_step w evs).1.2 = sent w.1.2 ++ omap (out (fp_of c)) (drop k (lines_at c o)).
Proof.
  intros Ht Hmin Hlen Hev. revert w k Ht. induction Hev as [|ev evs He Hev IH]; intros w k Ht Hn; cbn [foldl].
  - rewrite drop_ge by (simpl in Hn; lia). cbn. by rewrite app_nil_r.
  - destruct ev as [now a b r e|]; [|done]. destruct He as (Hs & Hab).
    destruct (tick_at_tracks f o k c c now a b r e w Ht Hmin Hlen Hs) as (k1 & Hk1 & Ht1 & Hs1 & Hp).
    assert (Hb : bytes (seen (v_read e)) f = c).
    { destruct Hs as (_ & _ & _ & (_ & _ & H1 & H2) & _). by apply (anti_symm prefix). }
    specialize (Hp ltac:(lia) Hb). rewrite (IH _ k1 Ht1) by (simpl in Hn; lia). rewrite Hs1, <- app_assoc. f_equal.
    rewrite <- (take_drop (k1 - k) (drop k (lines_at c o))) at 2. rewrite omap_app, drop_drop.
    by replace (k + (k1 - k))%nat with k1 by lia.
Qed.

(** C18: where a checkpoint that agrees with the file was saved or the tailer has it open at the
    same place, where the file already holds a kilobyte and every send and save succeeds: while
    the file grows, through any number of ticks with any budgets and channel room and any
    restarts between ticks, what is sent is a beginning of the lines that were left, in order,
    without a gap or a repetition, a line only when it is complete; and once the file rests and
    the channel keeps up, as many further ticks as lines are left send them all. *)
Theorem tail_exactly_once f o c evs c2 w k
    (agreeing : tracks f o k c w) (a_kilobyte : (FINGERPRINT_MIN_BYTES <= length c)%nat)
    (no_overflow : Z.of_nat (length c2) < 2 ^ 64) (growing : grows f c evs c2) :
  exists k', (k <= k')%nat /\ tracks f o k' c2 (foldl tail_step w evs) /\
    sent (foldl tail_step w evs).1.2 =
      sent w.1.2 ++ omap (out (fp_of c)) (take (k' - k) (drop k (lines_at c2 o))) /\
    forall rest, Forall (steady f c2) rest -> (length (lines_at c2 o) - k' <= length rest)%nat ->
      sent (foldl tail_step w (evs ++ rest)).1.2 = sent w.1.2 ++ omap (out (fp_of c)) (drop k (lines_at c2 o)).
Proof.
  destruct (tail_prefix f o c evs c2 w k agreeing a_kilobyte no_overflow growing) as (k' & Hk & Ht & Hs).
  pose proof (prefix_length _ _ (grows_prefix _ _ _ _ growing)) as L. exists k'. do 3 (split; [done|]).
  intros rest Hr Hn. rewrite foldl_app, (tail_catches_up f o k' c2 rest _ Ht) by (done || lia).
  rewrite Hs, <- app_assoc, <- (fp_of_prefix c c2) by (done || by eapply grows_prefix). f_equal. rewrite <- omap_app. f_equal.
  rewrite <- (take_drop (k' - k) (drop k (lines_at c2 o))) at 2. rewrite drop_drop. by replace (k + (k' - k))%nat with k' by lia.
Qed.
End Tail.
