(* ===== verification/FileTailRotate.v ===== *)
(** * Rotation in the file tailer

    A rotated file is drained before the new one is read from its start; and the two cases in
    which the tailer's memory of the rotation is lost or repeated. *)

From S2P Require Import Prelude RustStr Records Checkpoint FileTail FileTailSpec.

Section Rotate.
Variable hash_bytes : str -> Z.
Variable parser : str -> option LogLine.
Variable label : str.

Abbreviation out := (out parser).
Abbreviation fp_of := (fp_of hash_bytes).

Definition handle_at (f : nat) (fp i : Z) (n : nat) : TrackedHandle :=
  {| file := f; fingerprint := fp; inode := i; offset := n |}.

(** Reading on after [k] of the lines from [o] on. *)
Lemma emit_at v f fp i o k x before c :
  succeeds v = true -> bytes (seen v) f = c -> (k <= length (lines_at c o))%nat ->
  sent x = before ++ omap (out fp) (take k (lines_at c o)) ->
  exists k' x' more, emit_from_handle parser v (handle_at f fp i (pos o (take k (lines_at c o)))) x =
      Some (handle_at f fp i (pos o (take k' (lines_at c o))), x', more) /\
    (k <= k' <= length (lines_at c o))%nat /\
    sent x' = before ++ omap (out fp) (take k' (lines_at c o)) /\
    (more = false -> k' = length (lines_at c o)) /\
    ((budget x <= room x)%nat -> k' = ((k + budget x) `min` length (lines_at c o))%nat).
Proof.
  intros Hv Hc Hk Hs. set (h := handle_at _ _ _ _).
  destruct (emit_spec parser v h x Hv) as (j & x' & more & E & Hj & _ & _ & Hs' & Hm & Hr).
  cbn [file offset fingerprint h handle_at] in *. rewrite Hc, lines_at_pos in *. rewrite length_drop in *.
  exists (k + j)%nat, x', more. split; [|split; [lia|split; [|split;
    [intros; specialize (Hm ltac:(done)); lia|intros Hroom; destruct (Hr Hroom) as [? _]; lia]]]].
  - rewrite E. unfold set_offset, h, handle_at. cbn. by rewrite <- pos_app, take_take_drop.
  - rewrite Hs', Hs, <- app_assoc. f_equal. by rewrite <- omap_app, take_take_drop.
Qed.

Lemma read_at v io f fp i o k t x st before c :
  succeeds v = true -> bytes (seen v) f = c -> (k <= length (lines_at c o))%nat ->
  sent x = before ++ omap (out fp) (take k (lines_at c o)) ->
  handle t = Some (handle_at f fp i (pos o (take k (lines_at c o)))) ->
  exists k' w', read_and_emit parser label v io (t, x, st) = (w', Ok tt) /\
    (k <= k' <= length (lines_at c o))%nat /\ draining w'.1.1 = draining t /\
    handle w'.1.1 = Some (handle_at f fp i (pos o (take k' (lines_at c o)))) /\
    sent w'.1.2 = before ++ omap (out fp) (take k' (lines_at c o)) /\
    ((budget x <= room x)%nat -> k' = ((k + budget x) `min` length (lines_at c o))%nat).
Proof.
  intros Hv Hc Hk Hs Hh. unfold read_and_emit. rewrite Hh.
  destruct (emit_at v f fp i o k x before c Hv Hc Hk Hs) as (k' & x' & more & -> & Hk' & Hs' & _ & Hr).
  exists k'. destruct (_ =? _)%nat; eexists; (split; [reflexivity|]); done.
Qed.

(** ** Move and create *)

Section MoveCreate.
(** The old file [f] with its final content; the new file [g], which grows. *)
Variables (f g : nat) (cf : str) (o : nat) (before : list LogLine).
Variable fpf : Z.

(** The path names the new file; the open old one keeps its content. *)
Definition sees_rotated (cg cg' : str) (e : tick_env) : Prop :=
  (succeeds (v_drain e) = true /\ bytes (seen (v_drain e)) f = cf) /\
  (succeeds (v_rotated e) = true /\ bytes (seen (v_rotated e)) f = cf) /\
  saw g cg cg' (v_meta e) /\ saw g cg cg' (v_fp e) /\ saw g cg cg' (v_open e) /\ saw g cg cg' (v_read e).

Let Lf : list CompleteLine := lines_at cf o.

(** All that is to be sent, in order. *)
Definition sent_upto (kf kg : nat) (cg : str) : list LogLine :=
  before ++ omap (out fpf) (take kf Lf) ++ omap (out (fp_of cg)) (take kg (lines_at cg 0)).

Inductive rotating (cg : str) : world -> Prop :=
| rot_before kf t x st i :
    draining t = None -> handle t = Some (handle_at f fpf i (pos o (take kf Lf))) -> (kf <= length Lf)%nat ->
    sent x = sent_upto kf 0 cg -> rotating cg (t, x, st)
| rot_drain kf t x st i j :
    draining t = Some (handle_at f fpf i (pos o (take kf Lf))) -> (kf <= length Lf)%nat ->
    handle t = Some (handle_at g (fp_of cg) j 0) ->
    sent x = sent_upto kf 0 cg -> rotating cg (t, x, st)
| rot_after kg t x st j :
    draining t = None -> (kg <= length (lines_at cg 0))%nat ->
    handle t = Some (handle_at g (fp_of cg) j (pos 0 (take kg (lines_at cg 0)))) ->
    sent x = sent_upto (length Lf) kg cg -> rotating cg (t, x, st).

Lemma sent_upto_0 kf cg : sent_upto kf 0 cg = before ++ omap (out fpf) (take kf Lf).
Proof. unfold sent_upto. cbn. by rewrite app_nil_r. Qed.

Lemma sent_upto_g kg cg :
  sent_upto (length Lf) kg cg = (before ++ omap (out fpf) Lf) ++ omap (out (fp_of cg)) (take kg (lines_at cg 0)).
Proof. unfold sent_upto. by rewrite firstn_all, app_assoc. Qed.

(** The new file is read once the old one is drained. *)
Lemma read_new cg cg' v io t x st kg j :
  saw g cg cg' v -> (FINGERPRINT_MIN_BYTES <= length cg)%nat -> draining t = None ->
  (kg <= length (lines_at cg 0))%nat ->
  handle t = Some (handle_at g (fp_of cg) j (pos 0 (take kg (lines_at cg 0)))) ->
  sent x = sent_upto (length Lf) kg cg ->
  exists w', read_and_emit parser label v io (t, x, st) = (w', Ok tt) /\ rotating cg' w'.
Proof.
  intros (Hv & _ & Hc & Hc') Hmin Hd Hk Hh Hs. set (cr := bytes (seen v) g) in *.
  assert (P1 := lines_at_grow cg cr 0 Hc ltac:(lia)). assert (P2 := lines_at_grow cr cg' 0 Hc' ltac:(lia)).
  pose proof (prefix_length _ _ P1). pose proof (prefix_length _ _ P2).
  rewrite <- (take_prefix _ _ kg P1 Hk) in Hh. rewrite sent_upto_g, <- (take_prefix _ _ kg P1 Hk) in Hs.
  destruct (read_at v io g (fp_of cg) j 0 kg t x st _ cr Hv eq_refl ltac:(lia) Hs Hh)
    as (k' & [[t' x'] st'] & E & Hk' & Hd' & Hh' & Hs' & _). cbn [fst snd] in *.
  eexists. split; [exact E|]. rewrite <- (take_prefix _ _ k' P2) in Hh', Hs' by lia.
  assert (Efp : fp_of cg' = fp_of cg) by (apply fp_of_prefix; [by etrans|done]).
  rewrite <- Efp in Hh', Hs'. apply (rot_after cg' k' _ _ _ j); try lia; try congruence. by rewrite sent_upto_g.
Qed.

Lemma sent_upto_grow kf cg cg' : sent_upto kf 0 cg = sent_upto kf 0 cg'.
Proof. by rewrite !sent_upto_0. Qed.
Lemma drain_old v t x st kf i cg :
  succeeds v = true -> bytes (seen v) f = cf -> (kf <= length Lf)%nat ->
  draining t = Some (handle_at f fpf i (pos o (take kf Lf))) -> sent x = sent_upto kf 0 cg ->
  exists kf' x', (kf' <= length Lf)%nat /\ sent x' = sent_upto kf' 0 cg /\
    (drain_rotated parser v (t, x, st) =
       ((set_draining (Some (handle_at f fpf i (pos o (take kf' Lf)))) t, x', st), Ok false) \/
     kf' = length Lf /\ drain_rotated parser v (t, x, st) = ((set_draining None t, x', st), Ok true)).
Proof.
  intros Hv Hc Hk Hd Hs. rewrite sent_upto_0 in Hs. unfold drain_rotated. rewrite Hd.
  destruct (emit_at v f fpf i o kf x before cf Hv Hc Hk Hs) as (k' & x' & more & E & Hk' & Hs' & Hm & _).
  fold Lf in E, Hk', Hs', Hm. exists k', x'. rewrite E, sent_upto_0. split; [lia|]. split; [done|].
  destruct more; [by left|right]. split; [by apply Hm|done].
Qed.

Lemma rotation_tick cg cg' e w :
  rotating cg w -> (FINGERPRINT_MIN_BYTES <= length cg)%nat -> fpf <> fp_of cg -> sees_rotated cg cg' e ->
  exists w', tick_with_budget hash_bytes parser label e w = (w', Ok tt) /\ rotating cg' w'.
Proof.
  intros Hw Hmin Hne ((Hd1 & Hd2) & (Hr1 & Hr2) & Sm & Sf & So & Sr).
  assert (Hgrow : forall t x st kf i j, draining t = Some (handle_at f fpf i (pos o (take kf Lf))) ->
    (kf <= length Lf)%nat -> handle t = Some (handle_at g (fp_of cg) j 0) -> sent x = sent_upto kf 0 cg ->
    rotating cg' (t, x, st)).
  { intros t x st kf i j H1 H2 H3 H4. apply (rot_drain cg' kf t x st i j); try done.
    by rewrite (fp_of_prefix _ cg cg') by (done || (destruct Sm as (_ & _ & ? & ?); by etrans)). }
  pose proof Sm as (Hm & Hp & Hc & _). pose proof (prefix_length _ _ Hc) as L1.
  assert (Hfp : compute_fingerprint hash_bytes (v_fp e) (length (bytes (seen (v_meta e)) g)) = Ok (Some (fp_of cg)))
    by (eapply fingerprint_seen; done || lia).
  unfold tick_with_budget. destruct Hw as [kf t x st i Hd Hh Hk Hs|kf t x st i j Hd Hk Hh Hs|kg t x st j Hd Hk Hh Hs].
  - (* the rotation is noticed *)
    unfold drain_rotated at 1. rewrite Hd, Hm, Hp. cbn [negb]. rewrite Hfp, Hh. cbn [fingerprint handle_at decide_change].
    replace (fpf =? fp_of cg) with false by lia. unfold handle_rotation. cbn [handle set_backlog]. rewrite Hh.
    rewrite bool_decide_eq_true_2 by done. destruct So as (Ho1 & Ho2 & _).
    destruct (drain_old (v_rotated e) (set_handle None (set_draining (Some (handle_at f fpf i (pos o (take kf Lf))))
      (set_backlog false t))) x st kf i cg Hr1 Hr2 Hk eq_refl Hs) as (k' & x' & Hk' & Hs' & [E|[-> E]]); rewrite E.
    + rewrite Ho1, Ho2. cbn [negb]. eexists. split; [reflexivity|]. by eapply (Hgrow _ _ _ k').
    + rewrite Ho1, Ho2. cbn [negb]. by eapply (read_new cg cg' _ _ _ _ _ 0); cbn; try done; lia.
  - (* draining goes on *)
    destruct (drain_old (v_drain e) t x st kf i cg Hd1 Hd2 Hk Hd Hs) as (k' & x' & Hk' & Hs' & [E|[-> E]]); rewrite E.
    { eexists. split; [reflexivity|]. by eapply (Hgrow _ _ _ k'). }
    rewrite Hm, Hp. cbn [negb]. rewrite Hfp. cbn [handle set_draining]. rewrite Hh.
    cbn [fingerprint offset inode handle_at decide_change]. rewrite Z.eqb_refl.
    replace (length (bytes (seen (v_meta e)) g) <? 0)%nat with false by lia.
    by eapply (read_new cg cg' _ _ _ _ _ 0); cbn; try done; lia.
  - (* the new file is read *)
    unfold drain_rotated at 1. rewrite Hd, Hm, Hp. cbn [negb]. rewrite Hfp, Hh.
    cbn [fingerprint offset inode handle_at decide_change]. rewrite Z.eqb_refl.
    pose proof (pos_bound cg (take kg (lines_at cg 0)) 0 (prefix_take _ _) ltac:(lia)) as Hb.
    replace (length (bytes (seen (v_meta e)) g) <? pos 0 (take kg (lines_at cg 0)))%nat with false by lia.
    by eapply (read_new cg cg' _ _ _ _ _ kg).
Qed.
Inductive grows_rotated : str -> list tail_event -> str -> Prop :=
| rotated_nil cg : grows_rotated cg [] cg
| rotated_tick cg cg1 cg2 now a b r e evs :
    cg `prefix_of` cg1 -> sees_rotated cg cg1 e -> grows_rotated cg1 evs cg2 ->
    grows_rotated cg (EvTick now a b r e :: evs) cg2.

Lemma rotating_channel cg t x st n now b r :
  rotating cg (t, x, st) ->
  rotating cg (set_next_poll (Some (now + n)) t, {| budget := b; room := r; sent := sent x |}, st).
Proof. inversion 1; [eapply rot_before|eapply rot_drain|eapply rot_after]; eauto. Qed.

Lemma rotating_run cg evs cg2 w :
  grows_rotated cg evs cg2 -> rotating cg w -> (FINGERPRINT_MIN_BYTES <= length cg)%nat -> fpf <> fp_of cg ->
  rotating cg2 (foldl (tail_step parser hash_bytes label) w evs).
Proof.
  intros Hg. revert w. induction Hg as [cg|cg cg1 cg2 now a b r e evs Hp Hs Hg IH]; intros w Hw Hmin Hne; [done|].
  cbn [foldl]. pose proof (prefix_length _ _ Hp) as L1.
  apply IH; [|lia|by rewrite (fp_of_prefix _ cg cg1)]. destruct w as [[t x] st].
  cbn [tail_step with_room tick_at room sent budget].
  destruct (rotation_tick cg cg1 e (set_next_poll (Some (now + POLL_INTERVAL)) t,
    {| budget := a `min` b; room := r; sent := sent x |}, st)) as (w' & -> & Hw'); try done.
  by apply rotating_channel.
Qed.
End MoveCreate.

(** When the file is renamed and a new one takes its place, whatever the budgets: the rest of
    the old file is sent first, then the new one from its first line; no line of the new file
    goes out before the old file is finished. *)
Theorem rotation_in_order f g cf o fpf i t x st cg evs cg2 :
  draining t = None -> handle t = Some (handle_at f fpf i o) ->
  (FINGERPRINT_MIN_BYTES <= length cg)%nat -> fpf <> fp_of cg -> grows_rotated f g cf cg evs cg2 ->
  let w' := foldl (tail_step parser hash_bytes label) (t, x, st) evs in
  exists kf kg,
    sent w'.1.2 = sent x ++ omap (out fpf) (take kf (lines_at cf o)) ++
      omap (out (fp_of cg2)) (take kg (lines_at cg2 0)) /\
    ((0 < kg)%nat -> (length (lines_at cf o) <= kf)%nat).
Proof.
  intros Hd Hh Hmin Hne Hg w'.
  assert (Hr : rotating f g cf o (sent x) fpf cg2 w').
  { eapply rotating_run; try done. apply (rot_before _ _ _ _ _ _ _ 0 _ _ _ i); try done; [lia|].
    rewrite sent_upto_0. cbn. by rewrite app_nil_r. }
  destruct Hr as [kf t' x' st' i' _ _ _ Hs|kf t' x' st' i' j _ _ _ Hs|kg t' x' st' j _ _ _ Hs]; cbn; rewrite Hs.
  - exists kf, 0%nat. split; [done|lia].
  - exists kf, 0%nat. split; [done|lia].
  - exists (length (lines_at cf o)), kg. done.
Qed.

(** ** Small files *)

(** A tick during which nothing changes and nothing fails. *)
Definition at_rest (fs : Files) : tick_env :=
  let v := {| seen := fs; succeeds := true |} in
  {| v_drain := v; v_meta := v; v_fp := v; v_rotated := v; v_open := v; v_read := v; v_save := SaveOk |}.

Lemma lines_at_end c : lines_at c (length c) = [].
Proof. unfold lines_at. by rewrite drop_all. Qed.

(** A finished file was replaced by one that is still small. *)
Lemma tick_replaced_small fs f g i o fp t x st :
  draining t = None -> handle t = Some (handle_at f fp i o) -> lines_at (bytes fs f) o = [] ->
  at_path fs = Some g -> ino fs g <> i -> (length (bytes fs g) < FINGERPRINT_MIN_BYTES)%nat ->
  (1 <= budget x)%nat ->
  exists t', tick_with_budget hash_bytes parser label (at_rest fs) (t, x, st) = ((t', x, st), Ok tt) /\
    draining t' = None /\ handle t' = None.
Proof.
  intros Hd Hh Hl Hp Hi Hs Hb. unfold tick_with_budget. unfold drain_rotated at 1. rewrite Hd.
  cbn [v_meta at_rest succeeds seen negb]. rewrite Hp. unfold compute_fingerprint.
  replace (length (bytes fs g) <? FINGERPRINT_MIN_BYTES)%nat with true by lia.
  rewrite Hh. cbn [fingerprint inode offset handle_at decide_change].
  replace (ino fs g =? i) with false by lia. unfold handle_rotation. cbn [handle set_backlog]. rewrite Hh.
  unfold drain_rotated, emit_from_handle. cbn [draining set_handle set_draining budget].
  replace (budget x =? 0)%nat with false by lia. cbn [succeeds v_rotated at_rest negb seen].
  unfold read_complete_lines. rewrite read_lines_take. cbn [offset file handle_at].
  fold (lines_at (bytes fs f) o). rewrite Hl, take_nil. cbn [emit_lines length orb].
  replace (budget x <=? 0)%nat with false by lia. eexists. split; [reflexivity|]. done.
Qed.

(** A file that is seen first, with no checkpoint of its own, is read from its end on. *)
Lemma tick_first_sight fs g t x st :
  draining t = None -> handle t = None -> at_path fs = Some g ->
  (FINGERPRINT_MIN_BYTES <= length (bytes fs g))%nat ->
  (forall p, load (checkpoint_key label) st ≫= parse_checkpoint_value <> Some (fp_of (bytes fs g), p)) ->
  exists w', tick_with_budget hash_bytes parser label (at_rest fs) (t, x, st) = (w', Ok tt) /\
    sent w'.1.2 = sent x /\
    handle w'.1.1 = Some (handle_at g (fp_of (bytes fs g)) (ino fs g) (length (bytes fs g))).
Proof.
  intros Hd Hh Hp Hs Hck. unfold tick_with_budget. unfold drain_rotated at 1. rewrite Hd.
  cbn [v_meta at_rest succeeds seen negb]. rewrite Hp.
  assert (Hsaw : saw g (bytes fs g) (bytes fs g) {| seen := fs; succeeds := true |}) by done.
  rewrite (fingerprint_seen parser _ g (bytes fs g) (bytes fs g)) by done. rewrite Hh. cbn [decide_change].
  unfold handle_rotation, drain_rotated. cbn [handle set_backlog]. rewrite Hh.
  rewrite bool_decide_eq_false_2 by (by intros [? ?]). cbn [draining set_handle set_draining].
  cbn [v_open at_rest succeeds seen negb]. rewrite Hp.
  assert (Hres : resume_offset label st (fp_of (bytes fs g)) (length (bytes fs g)) = length (bytes fs g)).
  { unfold resume_offset. destruct (load (checkpoint_key label) st ≫= parse_checkpoint_value) as [[q p]|] eqn:E; [|done].
    destruct (q =? fp_of (bytes fs g)) eqn:Eq; [|done]. bool_prop. subst q. by destruct (Hck p). }
  rewrite Hres. set (t2 := set_handle _ _).
  destruct (read_at (v_read (at_rest fs)) (v_save (at_rest fs)) g (fp_of (bytes fs g)) (ino fs g) (length (bytes fs g)) 0
    t2 x st (sent x) (bytes fs g)) as (k & w' & E & Hk & _ & Hh2 & Hs' & _); try done; [lia|by rewrite app_nil_r|].
  exists w'. split; [done|]. rewrite lines_at_end in *. cbn in Hk. replace k with 0%nat in * by lia.
  cbn in Hh2, Hs'. by rewrite app_nil_r in Hs'.
Qed.

(** The old file is finished; the new one is still small at the first tick after the
    rotation. Then it is forgotten that there was a rotation: when the new file has grown to
    1024 bytes the tailer starts at its end, and none of its lines so far is ever sent. *)
Theorem small_rotated_file_skipped f g i o fpf t x st fs1 fs2 n1 n2 a b r :
  draining t = None -> handle t = Some (handle_at f fpf i o) -> lines_at (bytes fs1 f) o = [] ->
  at_path fs1 = Some g -> ino fs1 g <> i -> (length (bytes fs1 g) < FINGERPRINT_MIN_BYTES)%nat ->
  at_path fs2 = Some g -> (FINGERPRINT_MIN_BYTES <= length (bytes fs2 g))%nat ->
  (forall p, load (checkpoint_key label) st ≫= parse_checkpoint_value <> Some (fp_of (bytes fs2 g), p)) ->
  (1 <= a `min` b)%nat ->
  let w' := foldl (tail_step parser hash_bytes label) (t, x, st)
    [EvTick n1 a b r (at_rest fs1); EvTick n2 a b r (at_rest fs2)] in
  sent w'.1.2 = sent x /\
  handle w'.1.1 = Some (handle_at g (fp_of (bytes fs2 g)) (ino fs2 g) (length (bytes fs2 g))).
Proof.
  intros Hd Hh Hl Hp1 Hi Hs1 Hp2 Hs2 Hck Hab. cbn [foldl tail_step with_room tick_at room sent budget].
  destruct (tick_replaced_small fs1 f g i o fpf (set_next_poll (Some (n1 + POLL_INTERVAL)) t)
    {| budget := a `min` b; room := r; sent := sent x |} st) as (t1 & -> & Hd1 & Hh1); try done.
  cbn [fst snd with_room tick_at room sent budget].
  destruct (tick_first_sight fs2 g (set_next_poll (Some (n2 + POLL_INTERVAL)) t1)
    {| budget := a `min` b; room := r; sent := sent x |} st) as (w' & -> & H1 & H2); done.
Qed.

(** A file that was cut to less than 1024 bytes is taken for cut again at every tick. *)
Lemma tick_truncated_small fs f i fp o t x st :
  draining t = None -> handle t = Some (handle_at f fp i o) -> at_path fs = Some f -> ino fs f = i ->
  (length (bytes fs f) < FINGERPRINT_MIN_BYTES)%nat ->
  (length (lines_at (bytes fs f) 0) <= budget x <= room x)%nat ->
  exists w' o', tick_with_budget hash_bytes parser label (at_rest fs) (t, x, st) = (w', Ok tt) /\
    draining w'.1.1 = None /\ handle w'.1.1 = Some (handle_at f fp i o') /\
    sent w'.1.2 = sent x ++ omap (out fp) (lines_at (bytes fs f) 0).
Proof.
  intros Hd Hh Hp Hi Hs Hb. unfold tick_with_budget. unfold drain_rotated at 1. rewrite Hd.
  cbn [v_meta at_rest succeeds seen negb]. rewrite Hp. unfold compute_fingerprint.
  replace (length (bytes fs f) <? FINGERPRINT_MIN_BYTES)%nat with true by lia.
  rewrite Hh. cbn [fingerprint inode offset handle_at decide_change]. rewrite Hi, Z.eqb_refl.
  cbn [handle set_backlog]. rewrite Hh. set (t2 := set_handle _ _).
  destruct (read_at (v_read (at_rest fs)) (v_save (at_rest fs)) f fp i 0 0 t2 x st (sent x) (bytes fs f))
    as (k & w' & E & Hk & Hd' & Hh2 & Hs' & Hr); try done; [lia|by rewrite app_nil_r|].
  exists w', (pos 0 (take k (lines_at (bytes fs f) 0))). split; [done|].
  rewrite Hd'. split; [done|]. split; [done|]. rewrite Hs', Hr by lia.
  by rewrite take_ge by lia.
Qed.

(** After a truncation to less than 1024 bytes, while the file rests, every tick sends all
    its lines again. *)
Theorem truncated_file_resent fs f i fp a b r n : forall o t x st,
  draining t = None -> handle t = Some (handle_at f fp i o) -> at_path fs = Some f -> ino fs f = i ->
  (length (bytes fs f) < FINGERPRINT_MIN_BYTES)%nat ->
  (length (lines_at (bytes fs f) 0) <= a `min` b <= r)%nat ->
  sent (foldl (tail_step parser hash_bytes label) (t, x, st) (replicate n (EvTick 0 a b r (at_rest fs)))).1.2 =
    sent x ++ mjoin (replicate n (omap (out fp) (lines_at (bytes fs f) 0))).
Proof.
  induction n as [|n IH]; intros o t x st Hd Hh Hp Hi Hs Hb; cbn [replicate foldl]; [by rewrite app_nil_r|].
  cbn [tail_step with_room tick_at room sent budget].
  destruct (tick_truncated_small fs f i fp o (set_next_poll (Some (0 + POLL_INTERVAL)) t)
    {| budget := a `min` b; room := r; sent := sent x |} st) as ([[t' x'] st'] & o' & -> & H1 & H2 & H3); try done.
  cbn [fst snd] in *. rewrite (IH o') by done. rewrite H3. cbn [sent]. rewrite <- app_assoc. done.
Qed.
End Rotate.

(** ** Witnesses *)

(** A toy hash and a parser that keeps the text. *)
Definition first_byte (s : str) : Z := match s with b :: _ => b2z b | [] => 0 end.
Definition plain_line (s : str) : option LogLine := Some {|
  ll_source := lit "file"; ll_service := []; ll_severity := parse_severity_prefix s; ll_message := s;
  ll_attrs := ∅; ll_ts := 0; ll_record_id := [] |}.

Lemma first_byte_range s : 0 <= first_byte s < 2 ^ 64.
Proof. destruct s as [|b s]; simpl; [lia|]. pose proof (b2z_range b). lia. Qed.

(** A line of 1023 equal bytes. *)
Definition long_line (b : byte) : str := replicate 1023 b ++ [NL].
Definition one_file (f : nat) (c : str) : Files :=
  {| at_path := Some f; ino := fun n => Z.of_nat n; bytes := fun n => if (n =? f)%nat then c else long_line x61 |}.
Definition idle_tx : tx_state := {| budget := 0; room := 0; sent := [] |}.
Definition saved : CheckpointStore :=
  (save SaveOk (checkpoint_key (lit "app")) (checkpoint_value 97 0) ∅).2.
Definition tick_1 : tail_event := EvTick 0 1 8 8 (at_rest (one_file 1 (long_line x61))).

Lemma demo_tracks : tracks first_byte (lit "app") 1 0 0 (long_line x61) (new_tail, idle_tx, saved).
Proof.
  split; try done; [apply Nat.le_0_l|apply Nat.le_0_l|by left].
Qed.

Lemma demo_sees : sees 1 (long_line x61) (long_line x61) (at_rest (one_file 1 (long_line x61))).
Proof. by repeat split. Qed.

Lemma tail_exactly_once_witness :
  sent (foldl (tail_step plain_line first_byte (lit "app")) (new_tail, idle_tx, saved) [tick_1; EvRestart; tick_1; tick_1]).1.2 =
    omap (out plain_line 97) (lines_at (long_line x61) 0).
Proof.
  destruct (tail_exactly_once plain_line first_byte (lit "app") first_byte_range 1 0 (long_line x61)
    [tick_1; EvRestart; tick_1] (long_line x61) (new_tail, idle_tx, saved) 0 demo_tracks)
    as (k & _ & _ & _ & E); [by vm_compute; lia|by vm_compute| |].
  - eapply grows_tick; [done|apply demo_sees|]. apply grows_restart. eapply grows_tick; [done|apply demo_sees|constructor].
  - apply (E [tick_1]).
    + apply List.Forall_cons; [|done]. split; [apply demo_sees|cbn; lia].
    + change (length (lines_at (long_line x61) 0)) with 1%nat. cbn [length]. lia.
Defined.

Lemma tail_catches_up_witness :
  sent (foldl (tail_step plain_line first_byte (lit "app")) (new_tail, idle_tx, saved) [tick_1]).1.2 =
    omap (out plain_line 97) (lines_at (long_line x61) 0).
Proof.
  apply (tail_catches_up plain_line first_byte (lit "app") first_byte_range 1 0 0 (long_line x61) [tick_1]
    (new_tail, idle_tx, saved)); [apply demo_tracks|by vm_compute; lia|by vm_compute| |by vm_compute; lia].
  apply List.Forall_cons; [|done]. split; [apply demo_sees|cbn; lia].
Defined.

Definition tracked_tail (f : nat) (i : Z) (o : nat) : FileTail := {|
  handle := Some (handle_at f 97 i o); draining := None; backlog := false; next_poll := None;
  deferred_warned := false |}.

Lemma rotation_in_order_witness :
  exists kf kg,
    sent (foldl (tail_step plain_line first_byte (lit "app")) (tracked_tail 1 1 0, idle_tx, ∅)
      [EvTick 0 8 8 8 (at_rest (one_file 2 (long_line x62)))]).1.2 =
      omap (out plain_line 97) (take kf (lines_at (long_line x61) 0)) ++
      omap (out plain_line 98) (take kg (lines_at (long_line x62) 0)) /\
    ((0 < kg)%nat -> (length (lines_at (long_line x61) 0) <= kf)%nat).
Proof.
  apply (rotation_in_order first_byte plain_line (lit "app") 1 2 (long_line x61) 0 97 1 (tracked_tail 1 1 0) idle_tx ∅
    (long_line x62) [EvTick 0 8 8 8 (at_rest (one_file 2 (long_line x62)))] (long_line x62));
    [done|done|by vm_compute; lia|done|].
  eapply rotated_tick; [done| |constructor]. by repeat split.
Defined.

Lemma small_rotated_file_skipped_witness :
  let w' := foldl (tail_step plain_line first_byte (lit "app")) (tracked_tail 1 1 1024, idle_tx, ∅)
    [EvTick 0 8 8 8 (at_rest (one_file 2 [x62; NL])); EvTick 1 8 8 8 (at_rest (one_file 2 (long_line x62)))] in
  sent w'.1.2 = [] /\ handle w'.1.1 = Some (handle_at 2 98 2 1024).
Proof.
  apply (small_rotated_file_skipped first_byte plain_line (lit "app") 1 2 1 1024 97 (tracked_tail 1 1 1024) idle_tx ∅
    (one_file 2 [x62; NL]) (one_file 2 (long_line x62)) 0 1 8 8 8); try done; try (by vm_compute; lia).
Defined.

Lemma truncated_file_resent_witness :
  sent (foldl (tail_step plain_line first_byte (lit "app")) (tracked_tail 1 1 2048, idle_tx, ∅)
    (replicate 3 (EvTick 0 8 8 8 (at_rest (one_file 1 [x62; NL]))))).1.2 =
    mjoin (replicate 3 (omap (out plain_line 97) (lines_at [x62; NL] 0))).
Proof.
  apply (truncated_file_resent first_byte plain_line (lit "app") (one_file 1 [x62; NL]) 1 1 97 8 8 8 3 2048
    (tracked_tail 1 1 2048) idle_tx ∅); try done; by vm_compute; lia.
Defined.
