(* ===== verification/Container.v ===== *)
(** * Container logs

    [aic-server/src/otlp_exporter/logs/container.rs] and [aic-common/src/docker.rs]: the log
    files below Docker's directory, one tailer ([FileTail]) for each, and the parser of their
    lines. JSON, RFC 3339 times and the regular-expression engine are parameters; the file
    system at each scan, and what each tick sees, are arguments. Tailers are ticked in an
    order that is not fixed, so a round is a sequence of single ticks.

    [containers_independent]: the lines of one container come through exactly once, whatever
    happens to the others. [lines_accounted]: what becomes of lines. [logs_found]: which files
    are read, links to directories followed. [new_container_head_lost] and
    [removed_container_kept]: where the collector falls short of what it means to do. *)

From S2P Require Import Prelude RustStr JsonValue Redaction Records Checkpoint FileTree FileTail.

(** ** [config.v2.json] *)

Definition IDENTITY_ENV_KEYS : list str :=
  [lit "POSTGRES_USER"; lit "POSTGRES_DB"; lit "MYSQL_USER"; lit "MYSQL_DATABASE"; lit "MARIADB_USER"; lit "MARIADB_DATABASE";
   lit "MONGO_INITDB_ROOT_USERNAME"].

Record PublishedPort := { container_port : Z; host_ip : str; host_port : Z }.

Record DockerContainerMeta := {
  name : option str;
  image : option str;
  published_tcp : list PublishedPort;
  network_ips : list str;
  identity_env : list (str * str);
}.

Definition default_meta : DockerContainerMeta :=
  {| name := None; image := None; published_tcp := []; network_ips := []; identity_env := [] |}.


Definition published_ports (ports : list (str * Value)) : list PublishedPort :=
  mjoin (omap (fun '(key, bindings) =>
    p ← strip_suffix (lit "/tcp") key; container_port ← parse_u16 p; bindings ← as_array bindings;
    Some (omap (fun binding =>
      ip ← get_str binding (lit "HostIp"); port ← get_str binding (lit "HostPort"); host_port ← parse_u16 port;
      Some {| container_port := container_port; host_ip := ip; host_port := host_port |}) bindings)) ports).

Definition env_pair (entry : Value) : option (str * str) :=
  s ← as_str entry; '(key, value) ← split_once x3d s;
  if bool_decide (key ∈ IDENTITY_ENV_KEYS) && negb (bool_decide (value = [])) then Some (key, value) else None.

Section Container.
Variable json_parse : str -> option Value.
(** RFC 3339, in nanoseconds. *)
Variable parse_time : str -> option Z.
Variable is_digit : str -> bool.
Variable match_at : Regex -> option str -> list str -> option nat.
Variable hash_bytes : str -> Z.

(** The content is that of the file, if it can be read as UTF-8. *)
Definition read_docker_container_meta (content : option str) : DockerContainerMeta :=
  match content ≫= json_parse with
  | None => default_meta
  | Some v =>
      let network := value_get v (lit "NetworkSettings") in
      {| name := n ← get_str v (lit "Name");
                 let n := drop_while (fun b => bool_decide (b = x2f)) n in if bool_decide (n = []) then None else Some n;
         image := match (c ← value_get v (lit "Config"); get_str c (lit "Image")) with
                  | Some i => Some i
                  | None => get_str v (lit "Image")
                  end;
         published_tcp := default [] (published_ports <$> (n ← network; p ← value_get n (lit "Ports"); as_object p));
         network_ips := default [] ((fun networks : list (str * Value) => filter (fun ip => ip <> []) (omap (fun f => get_str f.2 (lit "IPAddress")) networks))
           <$> (n ← network; ns ← value_get n (lit "Networks"); as_object ns));
         identity_env := default [] ((fun es : list Value => omap env_pair es) <$> (c ← value_get v (lit "Config"); e ← value_get c (lit "Env"); as_array e)) |}
  end.

(** ** Lines *)

Record DockerJsonFields := { log : str; stream : str; time_raw : option str }.
Record ContainerParseCounters := { invalid_json : nat; invalid_time : nat }.

Definition parse_docker_json_line (raw : str) : option DockerJsonFields :=
  value ← json_parse raw; obj ← as_object value; log ← get (lit "log") obj ≫= as_str;
  Some {| log := log; stream := default (lit "stdout") (get (lit "stream") obj ≫= as_str); time_raw := get (lit "time") obj ≫= as_str |}.

Definition container_attrs (container_id : str) (image : option str) : gmap str str :=
  let attrs := <[lit "container_id" := container_id]> ∅ in
  match image with Some i => <[lit "image" := i]> attrs | None => attrs end.

Definition build_container_log_line (raw container_id service : str) (image : option str) (c : ContainerParseCounters)
    : option LogLine * ContainerParseCounters :=
  match parse_docker_json_line raw with
  | None => (None, {| invalid_json := S (invalid_json c); invalid_time := invalid_time c |})
  | Some fields =>
      match time_raw fields ≫= parse_time with
      | None => (None, {| invalid_json := invalid_json c; invalid_time := S (invalid_time c) |})
      | Some ts =>
          (Some {| ll_source := lit "container"; ll_service := service;
                   ll_severity := if bool_decide (stream fields = lit "stderr") then lit "WARN" else lit "INFO";
                   ll_message := (redact is_digit match_at (trim_end_byte x0a (log fields))).1;
                   ll_attrs := container_attrs container_id image; ll_ts := ts; ll_record_id := [] |}, c)
      end
  end.

(** What a tailer is given; the counters have no influence on it. *)
Definition container_line_parser (container_id service : str) (image : option str) (raw : str) : option LogLine :=
  (build_container_log_line raw container_id service image {| invalid_json := 0; invalid_time := 0 |}).1.

(** ** Discovery *)

(** The names that [read_dir] gives for a path. *)
Definition read_dir (fs : Tree) (p : list str) : option (list str) :=
  d ← canonicalize fs p; match lookup_node fs d with Some NDir => Some (children fs d) | _ => None end.

(** [symlink_metadata] of a file in a directory: the node itself. *)
Definition is_link_or_gone (fs : Tree) (dir : list str) (file : str) : bool :=
  match canonicalize fs dir with
  | Some d => match fs !! (d ++ [file]) with Some (NLink _) | None => true | _ => false end
  | None => true
  end.

Definition logs_of (fs : Tree) (container_dir : list str) : list (list str) :=
  match read_dir fs container_dir with
  | None => []
  | Some files =>
      (fun f => container_dir ++ [f]) <$> filter (fun f => utf8_valid f && ends_with (lit "-json.log") f && negb (is_link_or_gone fs container_dir f) = true) files
  end.

Definition discover_container_logs (fs : Tree) (containers_dir : list str) : option (list (list str)) :=
  ids ← read_dir fs containers_dir; Some (mjoin ((fun id => logs_of fs (containers_dir ++ [id])) <$> ids)).

(** The name of the directory above the file. *)
Definition container_id_from_log_path (path : list str) : option str :=
  match rev path with _ :: dir :: _ => if utf8_valid dir then Some dir else None | _ => None end.

Definition short_container_id (id : str) : str := mjoin (take 12 (chars id)).

Record ContainerMeta := { service : str; meta_image : option str }.

Definition resolve_container_meta (fs : Tree) (container_dir : list str) (id : str) : ContainerMeta :=
  let meta := read_docker_container_meta (c ← read fs (container_dir ++ [lit "config.v2.json"]); if utf8_valid c then Some c else None) in
  {| service := default (short_container_id id) (name meta); meta_image := image meta |}.

(** ** The collector *)

Record ContainerTail := { ct_id : str; ct_meta : ContainerMeta; ct_tail : FileTail }.

Abbreviation Tails := (gmap (list str) ContainerTail).

Definition add_tail (fs : Tree) (tails : Tails) (path : list str) : Tails :=
  if bool_decide (is_Some (tails !! path)) then tails
  else match container_id_from_log_path path with
       | None => tails
       | Some id =>
           let meta := resolve_container_meta fs (removelast path) id in
           <[path := {| ct_id := id; ct_meta := meta; ct_tail := new_tail |}]> tails
       end.

Record Collector := { tails : Tails; channel : tx_state; checkpoints : CheckpointStore }.

Definition scan (fs : Tree) (containers_dir : list str) (c : Collector) : Collector :=
  match discover_container_logs fs containers_dir with
  | None => c
  | Some found => {| tails := foldl (add_tail fs) (tails c) found; channel := channel c; checkpoints := checkpoints c |}
  end.

Definition tick_parser (t : ContainerTail) : str -> option LogLine :=
  container_line_parser (ct_id t) (service (ct_meta t)) (meta_image (ct_meta t)).

(** One due tailer's tick, its error only logged. *)
Definition tick_tail (path : list str) (now : Z) (available capacity room : nat) (e : tick_env) (c : Collector) : Collector :=
  match tails c !! path with
  | None => c
  | Some t =>
      if is_due now (ct_tail t) then
        let x := {| budget := budget (channel c); room := room; sent := sent (channel c) |} in
        let '(w, _, _) := tick_at hash_bytes (tick_parser t) (ct_id t) now available capacity e (ct_tail t, x, checkpoints c) in
        {| tails := <[path := {| ct_id := ct_id t; ct_meta := ct_meta t; ct_tail := w.1.1 |}]> (tails c); channel := w.1.2; checkpoints := w.2 |}
      else c
  end.

Inductive collector_event :=
| Rescan (fs : Tree)
| Tick (path : list str) (now : Z) (available capacity room : nat) (e : tick_env).

Definition collector_step (containers_dir : list str) (c : Collector) (ev : collector_event) : Collector :=
  match ev with
  | Rescan fs => scan fs containers_dir c
  | Tick path now available capacity room e => tick_tail path now available capacity room e c
  end.

(** [None]: the directory could not be read at first, and the collector is off. *)
Definition run_container_collector (fs : Tree) (containers_dir : list str) (x : tx_state) (st : CheckpointStore)
    (evs : list collector_event) : option Collector :=
  match discover_container_logs fs containers_dir with
  | None => None
  | Some found => Some (foldl (collector_step containers_dir) {| tails := foldl (add_tail fs) ∅ found; channel := x; checkpoints := st |} evs)
  end.
End Container.

From S2P Require Import FileTailSpec FileTailRotate.

(** ** What a tick may change *)

Section Frame.
Variable parser : str -> option LogLine.
Variable hash_bytes : str -> Z.
Variable label : str.

(** Only lines of the parser are added to what was sent, and only the own checkpoint is
    written. *)
Definition emitted (x x' : tx_state) : Prop :=
  exists new, sent x' = sent x ++ new /\ Forall (fun ll => exists fp l, out parser fp l = Some ll) new.
Definition keeps (st st' : CheckpointStore) : Prop :=
  forall key, sanitize_key key <> sanitize_key (checkpoint_key label) -> load key st' = load key st.
Definition extends (w w' : world) : Prop := emitted w.1.2 w'.1.2 /\ keeps w.2 w'.2.

Lemma emitted_refl x x' : sent x' = sent x -> emitted x x'.
Proof. intros E. exists []. by rewrite app_nil_r. Qed.

Lemma emitted_trans x y z : emitted x y -> emitted y z -> emitted x z.
Proof. intros (a & Ha & Fa) (b & Hb & Fb). exists (a ++ b). rewrite Hb, Ha, <- app_assoc. split; [done|]. by apply Forall_app. Qed.

Lemma extends_trans w1 w2 w3 : extends w1 w2 -> extends w2 w3 -> extends w1 w3.
Proof. intros [E1 K1] [E2 K2]. split; [by eapply emitted_trans|]. intros key Hk. by rewrite K2, K1. Qed.

Lemma extends_same t t' x x' st : sent x' = sent x -> extends (t, x, st) (t', x', st).
Proof. intros E. split; [by apply emitted_refl|done]. Qed.

Lemma save_keeps io v st : keeps st (save io (checkpoint_key label) v st).2.
Proof.
  intros key Hk. assert (forall ext, Checkpoint.file_name ext (checkpoint_key label) <> Checkpoint.file_name CHECKPOINT_EXT key) as Hf
    by (intros ext E; apply file_name_inj in E as [E _]; congruence).
  unfold load. destruct io; cbn [save snd]; [|done|]; rewrite ?lookup_insert_ne, ?lookup_delete_ne; done.
Qed.

Lemma emit_lines_emitted h ls x h' x' full : emit_lines parser h ls x = (h', x', full) -> emitted x x'.
Proof.
  revert h x. induction ls as [|l ls IH]; intros h x; cbn [emit_lines]; [intros [= _ <- _]; by apply emitted_refl|].
  destruct (parser (text l)) as [line|] eqn:Ep.
  - destruct (room x) as [|r]; [intros [= _ <- _]; by apply emitted_refl|]. intros E%IH. eapply emitted_trans; [|exact E].
    exists [with_id (fingerprint h) l line]. split; [done|]. repeat constructor. exists (fingerprint h), l. unfold out. by rewrite Ep.
  - intros E%IH. by eapply emitted_trans; [apply emitted_refl|exact E].
Qed.

Lemma emit_from_emitted v h x h' x' more : emit_from_handle parser v h x = Some (h', x', more) -> emitted x x'.
Proof.
  unfold emit_from_handle. destruct (budget x =? 0)%nat; [intros [= _ <- _]; by apply emitted_refl|]. destruct (negb (succeeds v)); [done|].
  destruct (read_complete_lines _ _ _) as [ls m]. destruct (emit_lines parser h ls x) as [[h1 x1] full] eqn:E. intros [= _ <- _]. by eapply emit_lines_emitted.
Qed.

Lemma drain_extends v w w' r : drain_rotated parser v w = (w', r) -> extends w w'.
Proof.
  destruct w as [[t x] st]. unfold drain_rotated. destruct (draining t) as [old|]; [|intros [= <- _]; by apply extends_same].
  destruct (emit_from_handle parser v old x) as [[[h x'] []]|] eqn:E; intros [= <- _]; try (by apply extends_same);
    (split; [by eapply emit_from_emitted|done]).
Qed.

Lemma read_extends v io w w' r : read_and_emit parser label v io w = (w', r) -> extends w w'.
Proof.
  destruct w as [[t x] st]. unfold read_and_emit. destruct (handle t) as [h|]; [|intros [= <- _]; by apply extends_same].
  destruct (emit_from_handle parser v h x) as [[[h' x'] more]|] eqn:E; [|intros [= <- _]; by apply extends_same].
  apply emit_from_emitted in E. destruct (_ =? _)%nat; intros [= <- _]; (split; [done|]); [done|apply save_keeps].
Qed.

Lemma rotation_extends e fp i size w w' r : handle_rotation parser label e fp i size w = (w', r) -> extends w w'.
Proof.
  destruct w as [[t x] st]. unfold handle_rotation. destruct (drain_rotated parser (v_rotated e) _) as [w1 d] eqn:Ed.
  apply drain_extends in Ed. assert (extends (t, x, st) w1) as H1 by (destruct Ed as [Ee Ek]; by split). clear Ed.
  destruct d as [drained|u|]; [|intros [= <- _]; done..]. destruct w1 as [[t1 x1] st1].
  destruct fp as [fp|]; [|intros [= <- _]; by destruct H1]. destruct (if succeeds (v_open e) then _ else None) as [f|]; [|intros [= <- _]; by destruct H1].
  destruct (negb drained); [intros [= <- _]; by destruct H1|]. intros E%read_extends. destruct H1 as [Ee1 Ek1], E as [Ee2 Ek2].
  split; [by eapply emitted_trans|]. intros key Hk. cbn [snd] in *. by rewrite Ek2, Ek1.
Qed.

Lemma tick_extends e w w' r : tick_with_budget hash_bytes parser label e w = (w', r) -> extends w w'.
Proof.
  unfold tick_with_budget. destruct (drain_rotated parser (v_drain e) w) as [[[t x] st] d] eqn:Ed. apply drain_extends in Ed.
  destruct d as [[]|u|]; [|intros [= <- _]; by destruct Ed..]. destruct (negb (succeeds (v_meta e))); [intros [= <- _]; by destruct Ed|].
  destruct (at_path (seen (v_meta e))) as [f|]; [|intros [= <- _]; by destruct Ed].
  destruct (compute_fingerprint hash_bytes (v_fp e) _) as [fp|u|]; [|intros [= <- _]; by destruct Ed..].
  destruct (match handle t with Some h => _ | None => _ end) as [[ofp oi] off]. cbn zeta.
  assert (forall t2 w2, extends (t2, x, st) w2 -> extends w w2) as Hx.
  { intros t2 w2 H2. eapply extends_trans; [exact Ed|]. by destruct H2. }
  destruct (decide_change _ _ _ _ _ _).
  - intros [= <- _]. by destruct Ed.
  - intros E%read_extends. by eapply Hx.
  - intros E%read_extends. by eapply Hx.
  - intros E%rotation_extends. by eapply Hx.
Qed.

Lemma tick_at_extends now a b e t x st : let '(w', _, _) := tick_at hash_bytes parser label now a b e (t, x, st) in extends (t, x, st) w'.
Proof.
  unfold tick_at. destruct (tick_with_budget _ _ _ _ _) as [w' r] eqn:E. apply tick_extends in E. destruct E as [(new & Hs & Hn) Hk]. split; [by exists new|done].
Qed.
End Frame.

Lemma tracks_grow hash_bytes label f o k c c' w : tracks hash_bytes label f o k c w -> c `prefix_of` c' ->
  (FINGERPRINT_MIN_BYTES <= length c)%nat -> tracks hash_bytes label f o k c' w.
Proof.
  intros [Hd Ho Hk Ha Hh] Hp Hm. pose proof (prefix_length _ _ Hp) as Hl. pose proof (lines_at_grow _ _ _ Hp Ho) as Hg. pose proof (prefix_length _ _ Hg) as Hlg.
  split; [done|lia|lia| |]; rewrite (fp_of_prefix _ c c') by done; rewrite (take_prefix _ _ k Hg Hk); done.
Qed.

(** ** Checkpoints of Docker's ids *)

Lemma join_single (s : str) : mjoin ((fun b => [b]) <$> s) = s.
Proof. induction s as [|b s IH]; [done|]. rewrite fmap_cons. change (b :: mjoin ((fun b => [b]) <$> s) = b :: s). by rewrite IH. Qed.

Lemma drop_while_none p s b : p b = false -> drop_while p (b :: s) = b :: s.
Proof. intros H. cbn. by rewrite H. Qed.

Lemma sanitize_id id : Forall (fun b => is_lower_hex b = true) id -> id <> [] -> (length id <= 123)%nat ->
  sanitize_key (checkpoint_key id) = lit "file_" ++ id.
Proof.
  intros Hh Hn Hl. assert (Forall (fun b => key_char b = true /\ bool_decide (b = x5f) = false /\ one_char [b]) id) as Hc.
  { eapply Forall_impl; [exact Hh|]. intros b. by destruct b. }
  assert (Forall one_char ((fun b => [b]) <$> (lit "file/" ++ id))) as Hone.
  { apply Forall_fmap, Forall_app. split; [by repeat constructor|]. eapply Forall_impl; [exact Hc|]. by intros b (_ & _ & Hb). }
  pose proof (proj2 (chars_of_chars _ Hone)) as Hch. rewrite join_single in Hch. unfold sanitize_key, checkpoint_key. rewrite Hch.
  rewrite <- list_fmap_compose, fmap_app. assert ((map_char ∘ (fun b => [b])) <$> id = id) as ->.
  { rewrite <- (list_fmap_id id) at 2. apply list_fmap_ext. intros i b Hb. cbn. rewrite Forall_lookup in Hc. by destruct (Hc i b Hb) as [-> _]. }
  change ((map_char ∘ (fun b => [b])) <$> lit "file/") with (lit "file_").
  destruct (exists_last Hn) as (id0 & b & ->). apply Forall_app in Hc as [_ (_ & Hb & _)%Forall_singleton]. unfold trim_matches.
  change (drop_while _ (lit "file_" ++ id0 ++ [b])) with (lit "file_" ++ id0 ++ [b]).
  rewrite app_assoc, reverse_app. change (reverse [b] ++ ?r) with (b :: r). rewrite drop_while_none by done. change (b :: ?r) with (reverse [b] ++ r). rewrite <- (reverse_app _ [b]), reverse_involutive, take_ge; [done|].
  rewrite <- app_assoc, length_app. change (length (lit "file_")) with 5%nat. lia.
Qed.

(** The key of another container's checkpoint is another. *)
Definition other_path (id : str) (q : list str) : Prop :=
  forall id', container_id_from_log_path q = Some id' -> sanitize_key (checkpoint_key id') <> sanitize_key (checkpoint_key id).

(** Docker's ids are apart in this. *)
Lemma docker_ids_apart q id id' :
  Forall (fun b => is_lower_hex b = true) id -> Forall (fun b => is_lower_hex b = true) id' -> id <> [] -> id' <> [] ->
  (length id <= 64)%nat -> (length id' <= 64)%nat -> container_id_from_log_path q = Some id' -> id' <> id -> other_path id q.
Proof.
  intros Hh Hh' Hn Hn' Hl Hl' Hq Hne i E. rewrite Hq in E. injection E as <-. rewrite !sanitize_id by (done || lia). intros E%(app_inv_head (lit "file_")). done.
Qed.

(** ** The collector *)

Section Collector.
Context (json_parse : str -> option Value) (parse_time : str -> option Z) (is_digit : str -> bool).
Context (match_at : Regex -> option str -> list str -> option nat) (hash_bytes : str -> Z) (containers_dir : list str).
(** The hash is a 64-bit number. *)
Hypothesis hash_range : forall s, 0 <= hash_bytes s < 2 ^ 64.
Notation step := (collector_step json_parse parse_time is_digit match_at hash_bytes containers_dir).
Notation parser := (tick_parser json_parse parse_time is_digit match_at).
Notation new_tails := (add_tail json_parse).

(** A tailer has the id that its path gives. *)
Definition wf_tails (ts : gmap (list str) ContainerTail) : Prop := map_Forall (fun p t => container_id_from_log_path p = Some (ct_id t)) ts.

Lemma add_tail_wf fs ts q : wf_tails ts -> wf_tails (new_tails fs ts q).
Proof.
  intros H. unfold add_tail. case_bool_decide; [done|]. destruct (container_id_from_log_path q) as [id|] eqn:E; [|done]. by apply map_Forall_insert_2.
Qed.

Lemma add_tail_keeps fs ts q p t : ts !! p = Some t -> new_tails fs ts q !! p = Some t.
Proof.
  intros H. unfold add_tail. case_bool_decide as Hq; [done|]. destruct (container_id_from_log_path q); [|done].
  rewrite lookup_insert_ne; [done|]. intros ->. apply Hq. by eexists.
Qed.

Lemma add_tails_keep fs qs ts p t : ts !! p = Some t -> foldl (new_tails fs) ts qs !! p = Some t.
Proof. revert ts. induction qs as [|q qs IH]; intros ts H; [done|]. cbn [foldl]. by apply IH, add_tail_keeps. Qed.

Lemma add_tails_wf fs qs ts : wf_tails ts -> wf_tails (foldl (new_tails fs) ts qs).
Proof. revert ts. induction qs as [|q qs IH]; intros ts H; [done|]. cbn [foldl]. by apply IH, add_tail_wf. Qed.

Lemma scan_keeps fs c p t : tails c !! p = Some t -> tails (scan json_parse fs containers_dir c) !! p = Some t.
Proof. intros H. unfold scan. destruct (discover_container_logs _ _); [|done]. by apply add_tails_keep. Qed.

Lemma step_wf c ev : wf_tails (tails c) -> wf_tails (tails (step c ev)).
Proof.
  intros H. destruct ev as [fs|q now a b r e]; cbn [collector_step].
  - unfold scan. destruct (discover_container_logs _ _); [|done]. by apply add_tails_wf.
  - unfold tick_tail. destruct (tails c !! q) as [t|] eqn:E; [|done]. destruct (is_due _ _); [|done].
    destruct (tick_at _ _ _ _ _ _ _ _) as [[w u] n]. cbn [tails]. apply map_Forall_insert_2; [|done]. exact (H _ _ E).
Qed.

Definition from_container (id : str) (ll : LogLine) : Prop := ll_attrs ll !! lit "container_id" = Some id.

#[local] Instance from_container_dec id ll : Decision (from_container id ll).
Proof. unfold from_container. apply _. Defined.

Lemma parsed_from t raw line : parser t raw = Some line -> from_container (ct_id t) line.
Proof.
  unfold tick_parser, container_line_parser, build_container_log_line. destruct (parse_docker_json_line _ _) as [f|]; [|done].
  destruct (time_raw f ≫= parse_time) as [ts|]; [|done]. intros [= <-]. unfold from_container. cbn [ll_attrs]. unfold container_attrs.
  destruct (meta_image (ct_meta t)); [rewrite lookup_insert_ne by done|]; by rewrite lookup_insert_eq.
Qed.

Lemma out_from t fp l ll : out (parser t) fp l = Some ll -> from_container (ct_id t) ll.
Proof.
  unfold out. destruct (parser t (text l)) as [line|] eqn:E; [|done]. intros [= <-]. unfold from_container. cbn [with_id ll_attrs].
  by apply (parsed_from t (text l)).
Qed.

Lemma outs_from t fp ls : Forall (from_container (ct_id t)) (omap (out (parser t) fp) ls).
Proof. apply Forall_forall. intros ll (l & _ & Hl)%list_elem_of_omap. by eapply out_from. Qed.

Definition sent_for (id : str) (c : Collector) : list LogLine := filter (from_container id) (sent (channel c)).

Lemma filter_own id ls : Forall (from_container id) ls -> filter (from_container id) ls = ls.
Proof. induction 1 as [|l ls Hl _ IH]; [done|]. rewrite filter_cons_True by done. by rewrite IH. Qed.

Lemma filter_other id id' ls : id' <> id -> Forall (from_container id') ls -> filter (from_container id) ls = [].
Proof.
  intros Hn. induction 1 as [|l ls Hl _ IH]; [done|]. rewrite filter_cons_False; [done|]. unfold from_container in *. rewrite Hl. congruence.
Qed.

(** The first [k] lines from [o] on of the log of a container were sent. *)
Definition follows (p : list str) (t : ContainerTail) (f o k : nat) (content : str) (c : Collector) : Prop :=
  exists t', tails c !! p = Some t' /\ ct_id t' = ct_id t /\ ct_meta t' = ct_meta t /\
    tracks hash_bytes (ct_id t) f o k content (ct_tail t', channel c, checkpoints c).

Lemma own_tick p t f o k content content' c now a b r e :
  follows p t f o k content c -> content `prefix_of` content' ->
  (FINGERPRINT_MIN_BYTES <= length content)%nat -> Z.of_nat (length content') < 2 ^ 64 -> sees f content content' e ->
  exists k', (k <= k')%nat /\ follows p t f o k' content' (step c (Tick p now a b r e)) /\
    sent (channel (step c (Tick p now a b r e))) = sent (channel c) ++ omap (out (parser t) (fp_of hash_bytes content)) (take (k' - k) (drop k (lines_at content' o))) /\
    (forall t', tails c !! p = Some t' -> is_due now (ct_tail t') = true -> (a `min` b <= r)%nat -> bytes (seen (v_read e)) f = content' ->
      k' = ((k + a `min` b) `min` length (lines_at content' o))%nat).
Proof.
  intros (t' & Hp & Hi & Hme & Ht) Hpre Hmin Hlen Hs. cbn [collector_step]. unfold tick_tail. rewrite Hp.
  destruct (is_due now (ct_tail t')) eqn:Ed.
  - destruct (tick_at_tracks (parser t) hash_bytes (ct_id t) hash_range f o k content content' now a b r e _ Ht Hmin Hlen Hs) as (k' & Hk & Ht' & Hse & Hpr).
    exists k'. split; [done|]. assert (parser t' = parser t) as Epar by (unfold tick_parser; by rewrite Hi, Hme). rewrite Epar, Hi.
    cbn [tail_step with_room] in Ht', Hse. set (w := tick_at _ _ _ _ _ _ _ _) in *. destruct w as [[w u] n]. cbn [fst snd channel tails checkpoints] in *.
    split; [|split; [exact Hse|by intros ? _ _; apply Hpr]]. exists {| ct_id := ct_id t; ct_meta := ct_meta t'; ct_tail := w.1.1 |}. cbn [tails channel checkpoints ct_tail]. rewrite lookup_insert_eq.
    split; [done|]. split; [done|]. split; [done|]. by destruct w as [[? ?] ?].
  - exists k. split; [done|]. rewrite Nat.sub_diag. cbn [take omap list_omap]. rewrite app_nil_r. split; [|split; [done|intros t1 E1 Hd1; injection E1 as <-; by rewrite Ed in Hd1]].
    exists t'. split; [done|]. split; [done|]. split; [done|]. by apply (tracks_grow hash_bytes (ct_id t) f o k content content').
Qed.

Lemma other_tick p t f o k content c q now a b r e :
  wf_tails (tails c) -> container_id_from_log_path p = Some (ct_id t) -> other_path (ct_id t) q -> follows p t f o k content c ->
  follows p t f o k content (step c (Tick q now a b r e)) /\ sent_for (ct_id t) (step c (Tick q now a b r e)) = sent_for (ct_id t) c.
Proof.
  intros Hw Hid Hq (t' & Hp & Hi & Hme & Ht). cbn [collector_step]. unfold tick_tail. destruct (tails c !! q) as [u|] eqn:Eq; [|split; [by exists t'|done]].
  destruct (is_due now (ct_tail u)); [|split; [by exists t'|done]].
  pose proof (tick_at_extends (parser u) hash_bytes (ct_id u) now a b e (ct_tail u) {| budget := budget (channel c); room := r; sent := sent (channel c) |} (checkpoints c)) as Hx.
  destruct (tick_at _ _ _ _ _ _ _ _) as [[w y] n]. destruct Hx as [(new & Hs & Hn) Hk]. cbn [fst snd sent] in Hs, Hk.
  pose proof (Hw _ _ Eq) as Hu. pose proof (Hq _ Hu) as Hkey. assert (q <> p) as Hqp by (intros ->; congruence).
  assert (ct_id u <> ct_id t) as Hne by (intros E; by rewrite E in Hkey). split.
  - exists t'. cbn [tails channel checkpoints]. rewrite lookup_insert_ne by done. split; [done|]. split; [done|]. split; [done|].
    destruct Ht as [Hd Ho Hl Ha Hh]. split; try done. unfold agrees in *. cbn [snd] in *. rewrite Hk; [done|]. by apply not_eq_sym.
  - unfold sent_for. cbn [channel]. rewrite Hs, filter_app, (filter_other (ct_id t) (ct_id u) new), app_nil_r; [done|done|].
    eapply Forall_impl; [exact Hn|]. intros ll (fp & l & Hl). by eapply out_from.
Qed.

Lemma rescanned p t f o k content c fs : follows p t f o k content c ->
  follows p t f o k content (step c (Rescan fs)) /\ sent_for (ct_id t) (step c (Rescan fs)) = sent_for (ct_id t) c.
Proof.
  intros (t' & Hp & Hi & Hme & Ht). cbn [collector_step]. split.
  - exists t'. split; [by apply scan_keeps|]. split; [done|]. split; [done|]. unfold scan. by destruct (discover_container_logs _ _).
  - unfold scan. by destruct (discover_container_logs _ _).
Qed.

(** What happens while the log of a container grows from the first content to the last: its
    tailer is ticked while the file grows, others are ticked in any circumstances, and the
    directory is scanned in any state. *)
Inductive around (p : list str) (id : str) (f : nat) : str -> list collector_event -> str -> Prop :=
| around_nil c : around p id f c [] c
| around_own c c1 c2 now a b r e evs :
    c `prefix_of` c1 -> sees f c c1 e -> around p id f c1 evs c2 -> around p id f c (Tick p now a b r e :: evs) c2
| around_other c c2 q now a b r e evs : other_path id q -> around p id f c evs c2 -> around p id f c (Tick q now a b r e :: evs) c2
| around_scan c c2 fs evs : around p id f c evs c2 -> around p id f c (Rescan fs :: evs) c2.

Lemma around_prefix p id f c evs c2 : around p id f c evs c2 -> c `prefix_of` c2.
Proof. induction 1; [done|by etrans|done..]. Qed.

(** What is sent for a container while its log grows is a part of its lines, in order. *)
Lemma containers_prefix p t f o k content content' evs c
    (own_path : container_id_from_log_path p = Some (ct_id t)) (tails_ok : wf_tails (tails c)) (start : follows p t f o k content c)
    (a_kilobyte : (FINGERPRINT_MIN_BYTES <= length content)%nat) (no_overflow : Z.of_nat (length content') < 2 ^ 64)
    (growing : around p (ct_id t) f content evs content') :
  exists k', (k <= k')%nat /\ follows p t f o k' content' (foldl step c evs) /\
    sent_for (ct_id t) (foldl step c evs)
    = sent_for (ct_id t) c ++ omap (out (parser t) (fp_of hash_bytes content)) (take (k' - k) (drop k (lines_at content' o))).
Proof.
  revert c k tails_ok start a_kilobyte. induction growing as [ct|ct c1 c2 now a b r e evs Hp Hs Hg IH|ct c2 q now a b r e evs Hq Hg IH|ct c2 fs evs Hg IH];
    intros c k Hw Hf Hmin; cbn [foldl].
  - exists k. rewrite Nat.sub_diag. cbn. by rewrite app_nil_r.
  - pose proof (prefix_length _ _ Hp) as L1. pose proof (around_prefix _ _ _ _ _ _ Hg) as Hp2. pose proof (prefix_length _ _ Hp2) as L2.
    destruct (own_tick p t f o k ct c1 c now a b r e Hf Hp Hmin ltac:(lia) Hs) as (k1 & Hk1 & Hf1 & Hs1 & _).
    destruct (IH no_overflow _ k1 (step_wf _ _ Hw) Hf1 ltac:(lia)) as (k' & Hk' & Hf' & Hs').
    exists k'. split; [lia|]. split; [done|]. rewrite Hs'. unfold sent_for at 1. rewrite Hs1, filter_app. rewrite (filter_own _ (omap _ _)) by apply outs_from.
    rewrite <- app_assoc, (fp_of_prefix hash_bytes ct c1) by done. f_equal.
    replace (k' - k)%nat with ((k1 - k) + (k' - k1))%nat by lia. rewrite <- take_take_drop, omap_app, drop_drop.
    replace (k + (k1 - k))%nat with k1 by lia. f_equal. f_equal. destruct Hf1 as (t1 & _ & _ & _ & [_ Ho1 Hl1 _ _]). rewrite !take_drop_commute. f_equal. symmetry.
    apply take_prefix; [by apply lines_at_grow|]. lia.
  - destruct (other_tick p t f o k ct c q now a b r e Hw own_path Hq Hf) as [Hf1 Hs1].
    destruct (IH no_overflow _ k (step_wf _ _ Hw) Hf1 Hmin) as (k' & Hk' & Hf' & Hs'). exists k'. by rewrite <- Hs1.
  - destruct (rescanned p t f o k ct c fs Hf) as [Hf1 Hs1].
    destruct (IH no_overflow _ k (step_wf _ _ Hw) Hf1 Hmin) as (k' & Hk' & Hf' & Hs'). exists k'. by rewrite <- Hs1.
Qed.

(** C30: for a container whose tailer agrees with its saved checkpoint, whose log holds a kilobyte
    already and only grows: what is sent for it is a beginning of the lines that were left, in
    order, without a gap or a repetition and only complete ones, with what was sent for it
    before, however its tailer's ticks are interleaved with those of other containers, which
    may see and fail at anything and fill the channel, and with scans that find anything; and
    then its next due tick over the log at rest sends as many of the lines left as it is
    granted and the channel has room for. *)
Theorem containers_independent p t f o k content content' evs c
    (own_path : container_id_from_log_path p = Some (ct_id t)) (tails_ok : wf_tails (tails c)) (start : follows p t f o k content c)
    (a_kilobyte : (FINGERPRINT_MIN_BYTES <= length content)%nat) (no_overflow : Z.of_nat (length content') < 2 ^ 64)
    (growing : around p (ct_id t) f content evs content') :
  exists k', (k <= k')%nat /\ follows p t f o k' content' (foldl step c evs) /\
    sent_for (ct_id t) (foldl step c evs)
    = sent_for (ct_id t) c ++ omap (out (parser t) (fp_of hash_bytes content)) (take (k' - k) (drop k (lines_at content' o))) /\
    forall now a b r e t', tails (foldl step c evs) !! p = Some t' -> is_due now (ct_tail t') = true -> sees f content' content' e -> (a `min` b <= r)%nat ->
      sent_for (ct_id t) (foldl step c (evs ++ [Tick p now a b r e]))
      = sent_for (ct_id t) c ++ omap (out (parser t) (fp_of hash_bytes content)) (take (k' - k + a `min` b) (drop k (lines_at content' o))).
Proof.
  destruct (containers_prefix p t f o k content content' evs c own_path tails_ok start a_kilobyte no_overflow growing) as (k' & Hk & Hf & Hs).
  pose proof (around_prefix _ _ _ _ _ _ growing) as Hpre. pose proof (prefix_length _ _ Hpre) as L. exists k'. do 3 (split; [done|]).
  intros now a b r e t' Ht' Hd Hsee Hr. rewrite foldl_app. cbn [foldl].
  destruct (own_tick p t f o k' content' content' _ now a b r e Hf ltac:(done) ltac:(lia) no_overflow Hsee) as (k1 & Hk1 & _ & Hs1 & Hpr).
  assert (Hb : bytes (seen (v_read e)) f = content') by (destruct Hsee as (_ & _ & _ & (_ & _ & H1 & H2) & _); by apply (anti_symm prefix)).
  rewrite (Hpr t' Ht' Hd Hr Hb) in *. unfold sent_for at 1. rewrite Hs1, filter_app, (filter_own _ (omap _ _)) by apply outs_from.
  fold (sent_for (ct_id t) (foldl step c evs)). rewrite Hs, <- app_assoc, <- (fp_of_prefix hash_bytes content content') by done. f_equal.
  rewrite <- take_take_drop, omap_app, drop_drop. replace (k + (k' - k))%nat with k' by lia. f_equal. f_equal.
  destruct (decide (k' + a `min` b <= length (lines_at content' o))%nat).
  - rewrite Nat.min_l by lia. f_equal. lia.
  - rewrite Nat.min_r by lia. rewrite !take_ge; [done|rewrite length_drop; lia..].
Qed.

(** what a container wrote before its tailer's first tick that finds a kilobyte is never
    sent: without a checkpoint the tailer waits for so much and then begins at the end, so
    that nothing of a new container's first kilobyte comes through, and nothing at all of one
    that writes less. *)
Theorem new_container_head_lost p t f fs c now a b r
    (new : tails c !! p = Some t) (no_handle : handle (ct_tail t) = None /\ draining (ct_tail t) = None) (due : is_due now (ct_tail t) = true)
    (no_checkpoint : load (checkpoint_key (ct_id t)) (checkpoints c) = None) (named : at_path fs = Some f) :
  let c' := step c (Tick p now a b r (at_rest fs)) in
  sent (channel c') = sent (channel c) /\
  exists t', tails c' !! p = Some t' /\
    handle (ct_tail t') = if (length (bytes fs f) <? FINGERPRINT_MIN_BYTES)%nat then None
                          else Some (handle_at f (fp_of hash_bytes (bytes fs f)) (ino fs f) (length (bytes fs f))).
Proof.
  destruct no_handle as [Hh Hd]. cbn zeta. cbn [collector_step]. unfold tick_tail. rewrite new, due. cbn [tick_at room sent].
  set (t0 := set_next_poll _ (ct_tail t)). set (x := {| budget := a `min` b; room := r; sent := sent (channel c) |}).
  assert (exists w, tick_with_budget hash_bytes (parser t) (ct_id t) (at_rest fs) (t0, x, checkpoints c) = (w, Ok tt) /\ sent w.1.2 = sent x /\
      handle w.1.1 = if (length (bytes fs f) <? FINGERPRINT_MIN_BYTES)%nat then None
                     else Some (handle_at f (fp_of hash_bytes (bytes fs f)) (ino fs f) (length (bytes fs f)))) as (w & -> & Hs & Hw).
  { destruct (length (bytes fs f) <? FINGERPRINT_MIN_BYTES)%nat eqn:El; bool_prop.
    - unfold tick_with_budget. unfold drain_rotated at 1. cbn [draining t0 set_next_poll]. rewrite Hd. cbn [v_meta at_rest succeeds seen negb].
      rewrite named. unfold compute_fingerprint. rewrite (proj2 (Nat.ltb_lt _ _)) by done. cbn [handle set_next_poll]. cbn. rewrite Hh. eexists. by split.
    - apply tick_first_sight; [done..|lia|]. by rewrite no_checkpoint. }
  destruct w as [[t' x'] st']. cbn [fst snd tails channel] in *. split; [done|]. eexists. rewrite lookup_insert_eq. by split.
Qed.

(** ** Containers that are gone *)

(** In what the own ticks see, the log is not there. *)
Definition gone (p : list str) (ev : collector_event) : Prop :=
  match ev with
  | Rescan _ => True
  | Tick q _ _ _ _ e => q = p -> succeeds (v_meta e) = true /\ at_path (seen (v_meta e)) = None
  end.

Lemma gone_step p t c ev : gone p ev -> tails c !! p = Some t -> draining (ct_tail t) = None ->
  exists t', tails (step c ev) !! p = Some t' /\ handle (ct_tail t') = handle (ct_tail t) /\ draining (ct_tail t') = None.
Proof.
  intros Hg Hp Hd. destruct ev as [fs|q now a b r e]; cbn [collector_step]; [exists t; split; [by apply scan_keeps|done]|].
  unfold tick_tail. destruct (decide (q = p)) as [->|Hq].
  - destruct (Hg eq_refl) as [Hs Hn]. rewrite Hp. destruct (is_due _ _); [|by exists t].
    unfold tick_at, tick_with_budget. cbn [drain_rotated draining set_next_poll]. unfold drain_rotated. cbn [draining set_next_poll]. rewrite Hd, Hs, Hn. cbn [negb].
    eexists. cbn [tails]. rewrite lookup_insert_eq. by split.
  - destruct (tails c !! q) as [u|]; [|by exists t]. destruct (is_due _ _); [|by exists t]. destruct (tick_at _ _ _ _ _ _ _ _) as [[w y] n].
    exists t. cbn [tails]. by rewrite lookup_insert_ne.
Qed.

(** the tailer of a container that was removed stays for good, and keeps the file of the
    log open: nothing that happens to it or to others, and no scan, takes it away. *)
Theorem removed_container_kept p t c evs
    (there : tails c !! p = Some t) (no_rotation : draining (ct_tail t) = None) (removed : Forall (gone p) evs) :
  exists t', tails (foldl step c evs) !! p = Some t' /\ handle (ct_tail t') = handle (ct_tail t).
Proof.
  revert c t there no_rotation. induction removed as [|ev evs Hev _ IH]; intros c t Hp Hd; cbn [foldl]; [by exists t|].
  destruct (gone_step p t c ev Hev Hp Hd) as (t1 & Hp1 & Hh1 & Hd1). destruct (IH _ t1 Hp1 Hd1) as (t' & Hp' & Hh'). exists t'. by rewrite Hh', Hh1.
Qed.

(** ** Lines *)

Notation line := (build_container_log_line json_parse parse_time is_digit match_at).

(** Lines of one container, with the counters that the containers share. *)
Definition parse_all (id service : str) (image : option str) (raws : list str) (n : ContainerParseCounters) : list LogLine * ContainerParseCounters :=
  foldl (fun acc raw => let '(l, n) := line raw id service image acc.2 in (acc.1 ++ option_list l, n)) ([], n) raws.

Definition well_formed (id service : str) (image : option str) (ll : LogLine) : Prop :=
  ll_source ll = lit "container" /\ ll_service ll = service /\ (ll_severity ll = lit "WARN" \/ ll_severity ll = lit "INFO") /\
  from_container id ll /\ ll_attrs ll !! lit "image" = image /\ exists text, ll_message ll = (redact is_digit match_at text).1.

Lemma line_cases raw id service image n :
  (exists ll, line raw id service image n = (Some ll, n) /\ well_formed id service image ll) \/
  line raw id service image n = (None, {| invalid_json := S (invalid_json n); invalid_time := invalid_time n |}) \/
  line raw id service image n = (None, {| invalid_json := invalid_json n; invalid_time := S (invalid_time n) |}).
Proof.
  unfold build_container_log_line. destruct (parse_docker_json_line _ _) as [f|]; [|by auto]. destruct (time_raw f ≫= parse_time) as [ts|]; [|by auto].
  left. eexists. split; [reflexivity|]. split; [done|]. split; [done|]. split; [cbn; case_bool_decide; auto|].
  unfold from_container, container_attrs. cbn [ll_attrs ll_message].
  destruct image; rewrite ?lookup_insert_eq, ?lookup_insert_ne by done; (split; [done|]); (split; [done|]); by eexists.
Qed.

(** each line of a log becomes one line of the pipeline, with its container's id, service
    and image and masked text, or is counted once as broken. *)
Theorem lines_accounted id service image raws n :
  let '(ls, n') := parse_all id service image raws n in
  (length ls + (invalid_json n' - invalid_json n) + (invalid_time n' - invalid_time n) = length raws)%nat /\
  (invalid_json n <= invalid_json n' /\ invalid_time n <= invalid_time n')%nat /\ Forall (well_formed id service image) ls.
Proof.
  unfold parse_all. induction raws as [|raw raws IH] using rev_ind; [cbn; split; [lia|by split]|]. rewrite foldl_app, length_app. cbn [foldl].
  destruct (foldl _ _ raws) as [ls n1]. destruct IH as (Hl & Hn & Hf). cbn [fst snd].
  destruct (line_cases raw id service image n1) as [(ll & -> & Hw)|[->| ->]]; cbn [invalid_json invalid_time];
    rewrite ?app_nil_r, ?length_app; simpl; (split; [lia|]); (split; [lia|]); [|done..].
  apply Forall_app. split; [done|]. by apply Forall_singleton.
Qed.

End Collector.

(** of a container's environment only the keys of accounts and databases are read, with a
    value: no password is taken from it. *)
Theorem only_identity_env json_parse content :
  Forall (fun kv => kv.1 ∈ IDENTITY_ENV_KEYS /\ kv.2 <> []) (identity_env (read_docker_container_meta json_parse content)).
Proof.
  unfold read_docker_container_meta. destruct (content ≫= json_parse) as [v|]; [|constructor]. cbn [identity_env].
  destruct (_ ≫= _) as [es|]; [|constructor]. cbn [fmap option_fmap option_map default]. apply Forall_forall. intros kv (e & _ & H)%list_elem_of_omap.
  unfold env_pair in H. destruct (as_str e) as [s|]; [|done]. cbn [mbind option_bind] in H. destruct (split_once x3d s) as [[k x]|]; [|done].
  cbn [mbind option_bind] in H. destruct (bool_decide (k ∈ IDENTITY_ENV_KEYS)) eqn:E1; [|done]. destruct (bool_decide (x = [])) eqn:E2; [done|].
  injection H as <-. by bool_prop.
Qed.

(** ** Discovery *)

Section Discovery.
Context (containers_dir : list str).

Lemma elem_of_children fs d x : x ∈ children fs d <-> is_Some (fs !! (d ++ [x])).
Proof.
  unfold children. rewrite list_elem_of_omap. split.
  - intros ([p n] & Hin & Hx). cbn [fst] in Hx. apply elem_of_map_to_list in Hin. destruct (rev p) as [|y r] eqn:E; [done|].
    case_bool_decide as Hd; [|done]. injection Hx as ->. rewrite <- (rev_involutive p), E in Hin. cbn [rev] in Hin. rewrite Hd in Hin. by eexists.
  - intros [n Hn]. exists (d ++ [x], n). split; [by apply elem_of_map_to_list|]. cbn [fst]. rewrite rev_app_distr. cbn [rev app].
    by rewrite rev_involutive, bool_decide_eq_true_2.
Qed.

Lemma elem_of_read_dir fs p l x : read_dir fs p = Some l ->
  x ∈ l <-> exists d, canonicalize fs p = Some d /\ is_Some (fs !! (d ++ [x])).
Proof.
  unfold read_dir. destruct (canonicalize fs p) as [d|]; [|done]. cbn [mbind option_bind]. destruct (lookup_node fs d) as [[]|]; try done. intros [= <-].
  rewrite elem_of_children. naive_solver.
Qed.

Definition is_log (fs : Tree) (container_dir : list str) (f : str) : Prop :=
  exists d n, canonicalize fs container_dir = Some d /\ lookup_node fs d = Some NDir /\ fs !! (d ++ [f]) = Some n /\ (forall t, n <> NLink t) /\
    utf8_valid f = true /\ ends_with (lit "-json.log") f = true.

Lemma elem_of_logs fs dir p : p ∈ logs_of fs dir <-> exists f, p = dir ++ [f] /\ is_log fs dir f.
Proof.
  unfold logs_of, read_dir, is_log. destruct (canonicalize fs dir) as [d|] eqn:Ed; cbn [mbind option_bind].
  - destruct (lookup_node fs d) as [[]|] eqn:En; [split; [by intros ?%elem_of_nil|naive_solver]| |split; [by intros ?%elem_of_nil|naive_solver]..].
    rewrite list_elem_of_fmap. unfold is_link_or_gone. rewrite Ed. split.
    + intros (f & -> & [Hf [n Hn]%elem_of_children]%list_elem_of_filter). exists f. split; [done|]. exists d, n. rewrite Hn in Hf.
      apply andb_true_iff in Hf as [[Hu He]%andb_true_iff Hf]. destruct n; by repeat split.
    + intros (f & -> & d' & n & [= <-] & _ & Hn & Hl & Hu & He). exists f. split; [done|]. rewrite list_elem_of_filter, elem_of_children, Hn, Hu, He.
      split; [|by eexists]. destruct n as [| |t]; [done..|by destruct (Hl t)].
  - split; [by intros ?%elem_of_nil|naive_solver].
Qed.

(** the logs that a scan finds are the entries of the directories that the entries of
    the containers' directory lead to, symbolic links among these entries included, whose
    name ends as Docker's do and which are no links themselves; and what is then read
    through the path of one is that entry. *)
Theorem logs_found fs found (tree : wf_tree fs) (readable : discover_container_logs fs containers_dir = Some found) p :
  (p ∈ found <-> exists d id f, p = containers_dir ++ [id; f] /\ canonicalize fs containers_dir = Some d /\ is_Some (fs !! (d ++ [id])) /\
     is_log fs (containers_dir ++ [id]) f) /\
  (p ∈ found -> exists loc f, canonicalize fs (removelast p) = Some loc /\ p = removelast p ++ [f] /\ stat fs p = fs !! (loc ++ [f])).
Proof.
  assert (p ∈ found <-> exists d id f, p = containers_dir ++ [id; f] /\ canonicalize fs containers_dir = Some d /\ is_Some (fs !! (d ++ [id])) /\
     is_log fs (containers_dir ++ [id]) f) as Hiff.
  { unfold discover_container_logs in readable. destruct (read_dir fs containers_dir) as [ids|] eqn:E; [|done]. injection readable as <-.
    rewrite list_elem_of_join. split.
    - intros (l & Hp & (id & -> & (d & Hd & Hn)%(elem_of_read_dir _ _ _ _ E))%list_elem_of_fmap). apply elem_of_logs in Hp as (f & -> & Hf).
      exists d, id, f. rewrite <- app_assoc. done.
    - intros (d & id & f & -> & Hd & Hn & Hf). exists (logs_of fs (containers_dir ++ [id])). split.
      + apply elem_of_logs. exists f. by rewrite <- app_assoc.
      + apply list_elem_of_fmap. exists id. split; [done|]. apply (elem_of_read_dir _ _ _ _ E). by exists d. }
  split; [done|]. intros (d & id & f & -> & _ & _ & loc & n & Hc & Hd & Hn & Hl & _)%Hiff. exists loc, f.
  replace (containers_dir ++ [id; f]) with ((containers_dir ++ [id]) ++ [f]) by (by rewrite <- app_assoc). rewrite removelast_last. split; [done|]. split; [done|].
  unfold stat. assert (f <> DOTDOT) as Hf by (intros ->; apply (proj2 (proj2 tree) _ _ Hn); apply elem_of_app; right; by left).
  unfold canonicalize in *. rewrite (walk_extend _ _ _ _ tree Hf Hl _ _ _ Hc Hn). cbn [mbind option_bind]. rewrite lookup_node_ne; [done|]. by destruct loc.
Qed.
End Discovery.

(** ** Witnesses *)

(** Two containers with the ids [aa] and [bb], whose logs have whole records. *)
Definition demo_json (s : str) : option Value := Some (VObject [(lit "log", VString s); (lit "time", VString s)]).
Definition demo_time (s : str) : option Z := Some 0.
Definition demo_digit (s : str) : bool := false.
Definition demo_match (r : Regex) (prev : option str) (s : list str) : option nat := None.
Definition demo_dir : list str := [lit "containers"].
Definition demo_path (id : str) : list str := demo_dir ++ [id; id ++ lit "-json.log"].
Definition demo_tail (id : str) : ContainerTail :=
  {| ct_id := id; ct_meta := {| service := id; meta_image := None |}; ct_tail := new_tail |}.
Definition demo_collector : Collector :=
  {| tails := <[demo_path (lit "aa") := demo_tail (lit "aa")]> {[demo_path (lit "bb") := demo_tail (lit "bb")]};
     channel := idle_tx; checkpoints := (save SaveOk (checkpoint_key (lit "aa")) (checkpoint_value 97 0) ∅).2 |}.
Definition demo_step := collector_step demo_json demo_time demo_digit demo_match first_byte demo_dir.
Definition demo_env : tick_env := at_rest (one_file 1 (long_line x61)).
Definition demo_tick (id : str) : collector_event := Tick (demo_path id) 0 8 8 8 demo_env.

Lemma demo_tails_wf : wf_tails (tails demo_collector).
Proof. apply map_Forall_insert_2; [done|]. by apply map_Forall_singleton. Qed.

Lemma containers_independent_witness :
  exists k, sent_for (lit "aa") (foldl demo_step demo_collector [demo_tick (lit "bb"); Rescan ∅; demo_tick (lit "aa")])
    = omap (out (tick_parser demo_json demo_time demo_digit demo_match (demo_tail (lit "aa"))) 97) (take k (lines_at (long_line x61) 0)).
Proof.
  destruct (containers_independent demo_json demo_time demo_digit demo_match first_byte demo_dir first_byte_range (demo_path (lit "aa")) (demo_tail (lit "aa")) 1 0 0
    (long_line x61) (long_line x61) [demo_tick (lit "bb"); Rescan ∅; demo_tick (lit "aa")] demo_collector) as (k & _ & _ & E & _);
    [by vm_compute|exact demo_tails_wf| |by vm_compute; lia|by vm_compute| |].
  - exists (demo_tail (lit "aa")). split; [by vm_compute|]. split; [done|]. split; [done|]. split; try done; [apply Nat.le_0_l|apply Nat.le_0_l|by left].
  - apply around_other; [by apply (docker_ids_apart _ _ (lit "bb")); [by repeat constructor..|done|done|cbn; lia|cbn; lia|vm_compute|done]|]. apply around_scan.
    eapply around_own; [done|apply demo_sees|constructor].
  - exists k. change (ct_id (demo_tail (lit "aa"))) with (lit "aa") in E. unfold demo_step. rewrite E, Nat.sub_0_r. done.
Defined.

Lemma new_container_head_lost_witness : sent (channel (demo_step demo_collector (demo_tick (lit "bb")))) = [].
Proof.
  apply (new_container_head_lost demo_json demo_time demo_digit demo_match first_byte demo_dir (demo_path (lit "bb")) (demo_tail (lit "bb")) 1
    (one_file 1 (long_line x61)) demo_collector 0 8 8 8); by vm_compute.
Defined.

Definition nothing_there : Files := {| at_path := None; ino := fun n => 0; bytes := fun n => [] |}.

Lemma removed_container_kept_witness :
  exists t', tails (foldl demo_step demo_collector [Rescan ∅; Tick (demo_path (lit "bb")) 0 8 8 8 (at_rest nothing_there)]) !! demo_path (lit "bb") = Some t'.
Proof.
  destruct (removed_container_kept demo_json demo_time demo_digit demo_match first_byte demo_dir (demo_path (lit "bb")) (demo_tail (lit "bb")) demo_collector
    [Rescan ∅; Tick (demo_path (lit "bb")) 0 8 8 8 (at_rest nothing_there)]) as (t' & E & _); [by vm_compute|done| |by exists t'].
  by repeat constructor.
Defined.

(** The directory of the container [bb] is a link out of the directory. *)
Definition linked_tree : Tree :=
  list_to_map [([lit "containers"], NDir); ([lit "containers"; lit "bb"], NLink (lit "/home")); ([lit "home"], NDir);
               ([lit "home"; lit "x-json.log"], NFile (lit "secret"))].

Lemma linked_tree_wf : wf_tree linked_tree.
Proof. by apply wf_tree_b_spec; vm_compute. Qed.

Lemma logs_found_witness : exists found, discover_container_logs linked_tree demo_dir = Some found /\ demo_dir ++ [lit "bb"; lit "x-json.log"] ∈ found.
Proof.
  eexists. split; [by vm_compute|].
  destruct (logs_found demo_dir linked_tree [demo_dir ++ [lit "bb"; lit "x-json.log"]] linked_tree_wf ltac:(by vm_compute) (demo_dir ++ [lit "bb"; lit "x-json.log"])) as [[_ H] _].
  apply H. exists [lit "containers"], (lit "bb"), (lit "x-json.log"). split; [done|]. split; [by vm_compute|]. split; [by eexists; vm_compute|].
  exists [lit "home"], (NFile (lit "secret")). by repeat split; vm_compute.
Defined.
