(* ===== verification/ProcessInventory.v ===== *)
(** * Changes of the process table

    [aic-server/src/otlp_exporter/process_inventory.rs], [process_inventory_store.rs] and the
    part of the metrics loop of [otlp_exporter/mod.rs] that joins them: each tick's list of
    processes is compared with the last one, what changed goes to a consumer in numbered
    batches and to a ring that the chat reads. [otlp_exporter/changes.rs]: starts, ends and
    jumps in memory of processes, the largest of them singly. The process table, what [/proc]
    says of a process and the order of hash maps are arguments.

    [consumer_in_sync]: batches are enough to follow the table. [consumer_never_wrong]: also
    when some are lost. [keyframe_cadence]: when a whole table is sent. [ring_recent]: what the
    ring holds. [keyframe_hides_changes]: what it misses. [transitions_exact], [cap_accounts],
    [spike_exact]: the events of [changes.rs]. *)

From S2P Require Import Prelude RustStr Ipc Float64.

(** ** The tracker *)

Record ProcInv := { pid : Z; ppid : Z; start_time : Z; name : str }.

Inductive ChangeOp := Added | Removed | Changed.

#[export] Instance ChangeOp_eq_dec : EqDecision ChangeOp.
Proof. solve_decision. Defined.

Definition op_str (op : ChangeOp) : str :=
  match op with Added => lit "add" | Removed => lit "remove" | Changed => lit "change" end.

Record Stored := { s_ppid : Z; s_name : str; s_uid : option Z; s_container_id : option str }.

Record InvRecord := {
  r_op : ChangeOp;
  r_pid : Z;
  r_ppid : Z;
  r_start_time : Z;
  r_name : str;
  r_uid : option Z;
  r_container_id : option str;
}.

Record ChangeSet := { sequence : Z; keyframe : bool; emit : bool; records : list InvRecord }.

Abbreviation Key := (Z * Z)%type.
Abbreviation Inventory := (gmap (Z * Z) Stored).

(** The wrap of [ticks_since_keyframe] and of [sequence] is left out: at a tick a second it
    would take more than a century. *)
Record InventoryTracker := { prev : Inventory; last_sequence : Z; ticks_since_keyframe : nat; keyframe_every : nat }.

Definition new_tracker (every : nat) : InventoryTracker :=
  {| prev := ∅; last_sequence := 0; ticks_since_keyframe := 0; keyframe_every := every |}.

Definition key (p : ProcInv) : Key := (pid p, start_time p).
Definition stored (p : ProcInv) (owner : option Z * option str) : Stored :=
  {| s_ppid := ppid p; s_name := name p; s_uid := owner.1; s_container_id := owner.2 |}.
Definition owner_of (s : Stored) : option Z * option str := (s_uid s, s_container_id s).
Definition record (op : ChangeOp) (k : Key) (s : Stored) : InvRecord :=
  {| r_op := op; r_pid := k.1; r_ppid := s_ppid s; r_start_time := k.2; r_name := s_name s; r_uid := s_uid s; r_container_id := s_container_id s |}.

Definition is_keyframe (t : InventoryTracker) : bool :=
  (last_sequence t =? 0) || ((0 <? keyframe_every t)%nat && (keyframe_every t <=? ticks_since_keyframe t)%nat).

Definition keyframe_step (enrich : Z -> option Z * option str) (old : Inventory) (acc : list InvRecord * Inventory) (p : ProcInv)
    : list InvRecord * Inventory :=
  let s := stored p (match old !! key p with Some s => owner_of s | None => enrich (pid p) end) in
  (acc.1 ++ [record Added (key p) s], <[key p := s]> acc.2).

Definition delta_step (enrich : Z -> option Z * option str) (acc : list InvRecord * Inventory) (p : ProcInv) : list InvRecord * Inventory :=
  match acc.2 !! key p with
  | None => let s := stored p (enrich (pid p)) in (acc.1 ++ [record Added (key p) s], <[key p := s]> acc.2)
  | Some s =>
      if negb (s_ppid s =? ppid p) || negb (bool_decide (s_name s = name p)) then
        let s := stored p (owner_of s) in (acc.1 ++ [record Changed (key p) s], <[key p := s]> acc.2)
      else acc
  end.

Definition removal_step (acc : list InvRecord * Inventory) (k : Key) : list InvRecord * Inventory :=
  match acc.2 !! k with
  | Some s => (acc.1 ++ [record Removed k s], delete k acc.2)
  | None => acc
  end.

Section Tracker.
(** The order in which the keys of a hash map come. *)
Variable order : list Key -> list Key.

Definition gone_keys (old : Inventory) (current : list ProcInv) : list Key :=
  filter (fun k => k ∉ (key <$> current)) (order (map_to_list old).*1).

Definition diff (enrich : Z -> option Z * option str) (current : list ProcInv) (t : InventoryTracker) : ChangeSet * InventoryTracker :=
  let k := is_keyframe t in
  let '(records, now, ticks) :=
    if k then let '(records, now) := foldl (keyframe_step enrich (prev t)) ([], ∅) current in (records, now, O)
    else let acc := foldl (delta_step enrich) ([], prev t) current in
         let '(records, now) := foldl removal_step acc (gone_keys acc.2 current) in (records, now, S (ticks_since_keyframe t)) in
  let emit := k || negb (bool_decide (records = [])) in
  let n := if emit then last_sequence t + 1 else last_sequence t in
  ({| sequence := n; keyframe := k; emit := emit; records := records |},
   {| prev := now; last_sequence := n; ticks_since_keyframe := ticks; keyframe_every := keyframe_every t |}).

(** ** The ring *)

Definition CAPACITY : nat := 1024.

(** The tap: what was ever sent to subscribers. *)
Record ProcessInventoryStore := { ring : list ProcessChange; tap : list ProcessChange; ready : bool }.

Definition new_store : ProcessInventoryStore := {| ring := []; tap := []; ready := false |}.

Definition mark_ready (s : ProcessInventoryStore) : ProcessInventoryStore := {| ring := ring s; tap := tap s; ready := true |}.

Definition push_one (s : ProcessInventoryStore) (c : ProcessChange) : ProcessInventoryStore :=
  let r := if (length (ring s) =? CAPACITY)%nat then tail (ring s) else ring s in
  {| ring := r ++ [c]; tap := tap s ++ [c]; ready := ready s |}.

Definition push_many (changes : list ProcessChange) (s : ProcessInventoryStore) : ProcessInventoryStore := foldl push_one s changes.

Definition recent (count : nat) (s : ProcessInventoryStore) : list ProcessChange := take count (reverse (ring s)).

(** ** A tick of the metrics loop *)

Definition process_change (observed_at : Z) (r : InvRecord) : ProcessChange :=
  {| pc_op := op_str (r_op r); pc_pid := r_pid r; pc_ppid := r_ppid r; pc_start_time := r_start_time r; pc_name := r_name r;
     pc_uid := r_uid r; pc_container_id := r_container_id r; pc_observed_at := observed_at |}.

Record Loop := { tracker : InventoryTracker; store : option ProcessInventoryStore; prev_scan : option Z }.

(** The batch for the collector, with the time of the scan before it. *)
Definition inventory_tick (enabled : bool) (enrich : Z -> option Z * option str) (scan : Z) (current : list ProcInv) (l : Loop)
    : option (ChangeSet * option Z) * Loop :=
  if enabled || bool_decide (is_Some (store l)) then
    let '(c, t) := diff enrich current (tracker l) in
    let pushed := match store l with
                  | Some s => Some (if emit c && negb (keyframe c) then push_many (process_change scan <$> records c) s else s)
                  | None => None
                  end in
    (if emit c && enabled then Some (c, prev_scan l) else None,
     {| tracker := t; store := mark_ready <$> pushed; prev_scan := Some scan |})
  else (None, l).
End Tracker.

(** ** Events *)

Definition TOP_N : nat := 20.
Definition RSS_SPIKE_MIN_DELTA : Z := 64 * 1024 * 1024.
Definition RSS_SPIKE_RATIO : f64 := f64_div (of_Z 3) (of_Z 2).

Record ProcSnap := { p_name : str; rss : Z }.

Record Transition := {
  subject : str;
  action : str;
  prev_state : option str;
  new_state : option str;
  summary : str;
  weight : Z;
}.

Abbreviation Table := (gmap Z ProcSnap).

Definition is_spike (before now : Z) : bool :=
  (before <? now) && (RSS_SPIKE_MIN_DELTA <=? sat_sub now before) && f64_le (f64_mul (of_Z before) RSS_SPIKE_RATIO) (of_Z now).

(** In MiB, to the nearest, ties to even; exact for less than 2^53 bytes. *)
Definition fmt_bytes (b : Z) : str :=
  let q := b / 2 ^ 20 in
  let r := b mod 2 ^ 20 in
  show_unsigned (if (r <? 2 ^ 19) || ((r =? 2 ^ 19) && Z.even q) then q else q + 1) ++ lit "MB".

Definition subject_of (pid : Z) (p : ProcSnap) : str := p_name p ++ lit ":" ++ show_unsigned pid.
Definition titled (pid : Z) (p : ProcSnap) : str := p_name p ++ lit "(" ++ show_unsigned pid ++ lit ")".

Definition start_transition (pid : Z) (p : ProcSnap) : Transition :=
  {| subject := subject_of pid p; action := lit "start"; prev_state := None; new_state := Some (show_unsigned (rss p));
     summary := titled pid p ++ lit " 시작"; weight := rss p |}.

Definition exit_transition (pid : Z) (p : ProcSnap) : Transition :=
  {| subject := subject_of pid p; action := lit "exit"; prev_state := Some (show_unsigned (rss p)); new_state := None;
     summary := titled pid p ++ lit " 종료"; weight := rss p |}.

Definition spike_transition (pid : Z) (before now : ProcSnap) : Transition :=
  {| subject := subject_of pid now; action := lit "rss_spike"; prev_state := Some (show_unsigned (rss before));
     new_state := Some (show_unsigned (rss now));
     summary := titled pid now ++ lit " RSS " ++ fmt_bytes (rss before) ++ lit " → " ++ fmt_bytes (rss now); weight := rss now |}.

Definition joined (before_table : Table) (pid : Z) (now : ProcSnap) : list Transition :=
  match before_table !! pid with
  | Some before =>
      if bool_decide (p_name before = p_name now) then if is_spike (rss before) (rss now) then [spike_transition pid before now] else []
      else [exit_transition pid before; start_transition pid now]
  | None => [start_transition pid now]
  end.

Section Sampler.
(** The order in which the entries of a hash map come. *)
Variable order : list (Z * ProcSnap) -> list (Z * ProcSnap).

Definition diff_tables (before current : Table) : list Transition :=
  mjoin ((fun e => joined before e.1 e.2) <$> order (map_to_list current))
  ++ mjoin ((fun e => if bool_decide (is_Some (current !! e.1)) then [] else [exit_transition e.1 e.2]) <$> order (map_to_list before)).

Definition baseline (n : nat) : Transition :=
  let n := show_unsigned (Z.of_nat n) in
  {| subject := lit "process-table"; action := lit "baseline"; prev_state := None; new_state := Some n;
     summary := lit "프로세스 " ++ n ++ lit "개 baseline 수립"; weight := u64_max |}.

Definition sampler_tick (current : Table) (before : option Table) : list Transition * option Table :=
  (match before with None => [baseline (size current)] | Some before => diff_tables before current end, Some current).
End Sampler.

Definition count_action (a : str) (l : list Transition) : nat := length (filter (fun t => action t = a) l).

Definition churn (dropped : list Transition) : Transition :=
  let n := show_unsigned (Z.of_nat (length dropped)) in
  {| subject := lit "process-table"; action := lit "churn"; prev_state := None; new_state := Some n;
     summary := lit "그 외 프로세스 전이 " ++ n ++ lit "건 (start " ++ show_unsigned (Z.of_nat (count_action (lit "start") dropped))
       ++ lit ", exit " ++ show_unsigned (Z.of_nat (count_action (lit "exit") dropped)) ++ lit ")"; weight := 0 |}.

Definition cap (transitions : list Transition) : list Transition :=
  if (length transitions <=? TOP_N)%nat then transitions
  else let sorted := sort_by_key (fun t => - weight t) transitions in take TOP_N sorted ++ [churn (drop TOP_N sorted)].

(** ** The tracker's next inventory *)

Section TrackerTheorems.
Context (order : list Key -> list Key).
Hypothesis order_perm : forall l, order l ≡ₚ l.

Definition carried (enrich : Z -> option Z * option str) (old : Inventory) (p : ProcInv) : Stored :=
  stored p (match old !! key p with Some s => owner_of s | None => enrich (pid p) end).

Lemma keys_snoc l p : NoDup (key <$> (l ++ [p])) -> NoDup (key <$> l) /\ key p ∉ (key <$> l).
Proof. rewrite fmap_app, NoDup_app. intros (H1 & H2 & _). split; [done|]. intros Hp. apply (H2 _ Hp). by left. Qed.

Lemma keyframe_inventory enrich old current : NoDup (key <$> current) ->
  let now := (foldl (keyframe_step enrich old) ([], ∅) current).2 in
  (forall p, p ∈ current -> now !! key p = Some (carried enrich old p)) /\ (forall k, k ∉ (key <$> current) -> now !! k = None).
Proof.
  induction current as [|p l IH] using rev_ind; [cbn; intros _; split; [by intros p Hp%elem_of_nil|done]|].
  intros [Hl Hp]%keys_snoc. destruct (IH Hl) as [H1 H2]. rewrite foldl_app. cbn [foldl keyframe_step snd]. split.
  - intros q [Hq| ->%list_elem_of_singleton]%elem_of_app; [|by rewrite lookup_insert_eq].
    rewrite lookup_insert_ne; [by apply H1|]. intros E. apply Hp. rewrite E. by apply list_elem_of_fmap_2.
  - intros k Hk. rewrite fmap_app, not_elem_of_app in Hk. destruct Hk as [Hk Hn]. rewrite lookup_insert_ne; [by apply H2|]. intros E. apply Hn. rewrite <- E. by left.
Qed.

Lemma delta_inventory enrich old current : NoDup (key <$> current) ->
  let now := (foldl (delta_step enrich) ([], old) current).2 in
  (forall p, p ∈ current -> now !! key p = Some (carried enrich old p)) /\ (forall k, k ∉ (key <$> current) -> now !! k = old !! k).
Proof.
  induction current as [|p l IH] using rev_ind; [cbn; intros _; split; [by intros p Hp%elem_of_nil|done]|].
  intros [Hl Hp]%keys_snoc. destruct (IH Hl) as [H1 H2]. rewrite foldl_app. cbn [foldl].
  set (acc := foldl _ _ l) in *. assert ((delta_step enrich acc p).2 = <[key p := carried enrich old p]> acc.2) as ->.
  { unfold delta_step, carried. rewrite <- (H2 _ Hp). destruct (acc.2 !! key p) as [s|] eqn:E; [|done].
    destruct (_ || _) eqn:Ed; [done|]. rewrite insert_id; [done|]. rewrite E. bool_prop. destruct s as [pp n u c]. cbn in *. subst. done. }
  split.
  - intros q [Hq| ->%list_elem_of_singleton]%elem_of_app; [|by rewrite lookup_insert_eq].
    rewrite lookup_insert_ne; [by apply H1|]. intros E. apply Hp. rewrite E. by apply list_elem_of_fmap_2.
  - intros k Hk. rewrite fmap_app, not_elem_of_app in Hk. destruct Hk as [Hk Hn]. rewrite lookup_insert_ne; [by apply H2|]. intros E. apply Hn. rewrite <- E. by left.
Qed.

Lemma removals ks : forall acc k, (foldl removal_step acc ks).2 !! k = if bool_decide (k ∈ ks) then None else acc.2 !! k.
Proof.
  induction ks as [|x ks IH]; intros acc k; [done|]. cbn [foldl]. rewrite IH.
  assert ((removal_step acc x).2 !! k = if bool_decide (k = x) then None else acc.2 !! k) as ->.
  { unfold removal_step. case_bool_decide as E; [subst|].
    - destruct (acc.2 !! x) eqn:Ex; [apply lookup_delete_eq|done].
    - destruct (acc.2 !! x); [by apply lookup_delete_ne|done]. }
  repeat case_bool_decide; set_solver.
Qed.

Lemma gone_keys_spec old current k : k ∈ gone_keys order old current <-> is_Some (old !! k) /\ k ∉ (key <$> current).
Proof.
  unfold gone_keys. rewrite list_elem_of_filter, order_perm, (list_elem_of_fmap fst). split.
  - intros (Hk & [k' s] & -> & Hs%elem_of_map_to_list). split; [by exists s|done].
  - intros [[s Hs] Hk]. split; [done|]. exists (k, s). split; [done|]. by apply elem_of_map_to_list.
Qed.

(** after a tick the tracker holds exactly the processes of the list, with the name and
    parent of the list; the owner of a process is asked for at the first tick that lists it
    and kept as long as it is listed. *)
Theorem inventory_exact enrich current t (distinct : NoDup (key <$> current)) :
  (forall p, p ∈ current -> prev (diff order enrich current t).2 !! key p = Some (carried enrich (prev t) p)) /\
  (forall k, k ∉ (key <$> current) -> prev (diff order enrich current t).2 !! k = None).
Proof.
  unfold diff. destruct (is_keyframe t).
  - pose proof (keyframe_inventory enrich (prev t) current distinct) as H. by destruct (foldl _ _ current).
  - pose proof (delta_inventory enrich (prev t) current distinct) as [H1 H2]. set (acc := foldl _ _ current) in *.
    pose proof (removals (gone_keys order acc.2 current) acc) as Hr. destruct (foldl removal_step _ _) as [rs now]. cbn [prev snd] in *. split.
    + intros p Hp. rewrite Hr, bool_decide_eq_false_2; [by apply H1|]. intros [_ Hn]%gone_keys_spec. apply Hn. by apply list_elem_of_fmap_2.
    + intros k Hk. rewrite Hr. case_bool_decide as Hg; [done|]. destruct (acc.2 !! k) eqn:E; [|done]. destruct Hg. apply gone_keys_spec. by split.
Qed.

(** ** A consumer of the batches *)

Record Consumer := { view : Inventory; seen : option Z }.

Definition apply (v : Inventory) (r : InvRecord) : Inventory :=
  let k := (r_pid r, r_start_time r) in
  match r_op r with
  | Removed => delete k v
  | _ => <[k := {| s_ppid := r_ppid r; s_name := r_name r; s_uid := r_uid r; s_container_id := r_container_id r |}]> v
  end.

(** A batch that does not follow the last one is a gap; then only a keyframe helps. *)
Definition receive (c : Consumer) (b : ChangeSet) : Consumer :=
  if keyframe b then {| view := foldl apply ∅ (records b); seen := Some (sequence b) |}
  else match seen c with
       | Some n => if sequence b =? n + 1 then {| view := foldl apply (view c) (records b); seen := Some (sequence b) |}
                   else {| view := view c; seen := None |}
       | None => c
       end.

Lemma apply_record op k s v : op <> Removed -> apply v (record op k s) = <[k := s]> v.
Proof. intros H. unfold apply, record. destruct op, k, s; done. Qed.

Lemma foldl_keeps {A B} (P : A -> Prop) (f : A -> B -> A) l : (forall a b, P a -> P (f a b)) -> forall a, P a -> P (foldl f a l).
Proof. intros Hf. induction l as [|b l IH]; intros a Ha; [done|]. cbn [foldl]. by apply IH, Hf. Qed.

Definition replays (v : Inventory) (acc : list InvRecord * Inventory) : Prop := foldl apply v acc.1 = acc.2.

Lemma keyframe_replays v enrich old acc p : replays v acc -> replays v (keyframe_step enrich old acc p).
Proof. unfold replays. intros H. cbn [keyframe_step fst snd]. rewrite foldl_app, H. cbn [foldl]. by rewrite apply_record. Qed.

Lemma delta_replays v enrich acc p : replays v acc -> replays v (delta_step enrich acc p).
Proof.
  unfold replays, delta_step. intros H. destruct (acc.2 !! key p); [destruct (_ || _); [|done]|];
    cbn [fst snd]; rewrite foldl_app, H; cbn [foldl]; by rewrite apply_record.
Qed.

Lemma removal_replays v acc k : replays v acc -> replays v (removal_step acc k).
Proof. unfold replays, removal_step. intros H. destruct (acc.2 !! k); [|done]. cbn [fst snd]. rewrite foldl_app, H. by destruct k. Qed.

Definition synced (c : Consumer) (t : InventoryTracker) : Prop := view c = prev t /\ seen c = Some (last_sequence t).

Lemma diff_replays enrich current t :
  let '(b, t') := diff order enrich current t in
  foldl apply (if keyframe b then ∅ else prev t) (records b) = prev t' /\ sequence b = last_sequence t' /\
  last_sequence t' = (if emit b then last_sequence t + 1 else last_sequence t) /\ emit b = keyframe b || negb (bool_decide (records b = [])) /\
  keyframe b = is_keyframe t /\ keyframe_every t' = keyframe_every t /\ ticks_since_keyframe t' = (if keyframe b then O else S (ticks_since_keyframe t)).
Proof.
  unfold diff. destruct (is_keyframe t).
  - assert (replays ∅ (foldl (keyframe_step enrich (prev t)) ([], ∅) current)) as H by (apply foldl_keeps; [intros; by apply keyframe_replays|done]).
    destruct (foldl _ _ current) as [rs now]. cbn. done.
  - assert (replays (prev t) (foldl removal_step (foldl (delta_step enrich) ([], prev t) current)
      (gone_keys order (foldl (delta_step enrich) ([], prev t) current).2 current))) as H.
    { apply foldl_keeps; [intros; by apply removal_replays|]. apply foldl_keeps; [intros; by apply delta_replays|done]. }
    destruct (foldl removal_step _ _) as [rs now]. cbn. done.
Qed.

(** Ticks, each with what [/proc] says and the list; the batches sent. *)
Definition tick_of (acc : list ChangeSet * InventoryTracker) (x : (Z -> option Z * option str) * list ProcInv) : list ChangeSet * InventoryTracker :=
  let '(b, t) := diff order x.1 x.2 acc.2 in (acc.1 ++ (if emit b then [b] else []), t).
Definition ticked (t : InventoryTracker) (xs : list ((Z -> option Z * option str) * list ProcInv)) : list ChangeSet * InventoryTracker :=
  foldl tick_of ([], t) xs.

Lemma ticked_snoc t xs x : ticked t (xs ++ [x]) = tick_of (ticked t xs) x.
Proof. unfold ticked. by rewrite foldl_app. Qed.

(** C32: a consumer that gets each batch from a keyframe on holds, after each tick, exactly
    the inventory of the tracker, whatever it held before. *)
Theorem consumer_in_sync t c x xs (due : is_keyframe t = true) :
  synced (foldl receive c (ticked t (x :: xs)).1) (ticked t (x :: xs)).2.
Proof.
  induction xs as [|y xs IH] using rev_ind.
  - cbn. unfold tick_of. cbn [snd fst]. pose proof (diff_replays x.1 x.2 t) as H. destruct (diff order x.1 x.2 t) as [b t']. destruct H as (H & Hs & Hl & He & Hk & _).
    rewrite due in Hk. rewrite Hk in *. rewrite He. cbn [app orb foldl fst snd]. unfold receive. rewrite Hk. split; [done|]. cbn. by rewrite Hs.
  - change (x :: xs ++ [y]) with ((x :: xs) ++ [y]). rewrite ticked_snoc. destruct (ticked t (x :: xs)) as [bs t1]. cbn [fst snd] in IH. unfold tick_of. cbn [fst snd].
    pose proof (diff_replays y.1 y.2 t1) as H. destruct (diff order y.1 y.2 t1) as [b t']. destruct H as (H & Hs & Hl & He & _). destruct IH as [IHv IHs].
    cbn [fst snd]. rewrite foldl_app. destruct (emit b) eqn:Eb; cbn [foldl].
    + unfold receive at 1. destruct (keyframe b) eqn:Ek; [split; [done|cbn; by rewrite Hs]|].
      rewrite IHs, IHv, Hs, <- Hl, Z.eqb_refl. by split.
    + symmetry in He. apply orb_false_iff in He as [Hk Hr]. rewrite Hk in H. bool_prop. rewrite Hr in H. cbn [foldl] in H. split; congruence.
Qed.

(** C39: whatever batches are lost, a consumer that has the number of the last batch sent
    holds exactly the tracker's inventory. *)
Theorem consumer_never_wrong every xs got (lossy : got `sublist_of` (ticked (new_tracker every) xs).1) :
  let c := foldl receive {| view := ∅; seen := None |} got in
  let t := (ticked (new_tracker every) xs).2 in
  (forall n, seen c = Some n -> n <= last_sequence t) /\ (seen c = Some (last_sequence t) -> view c = prev t).
Proof.
  cbn zeta. revert got lossy. induction xs as [|x xs IH] using rev_ind.
  - cbn. intros got H%sublist_nil_r. subst. done.
  - intros got. rewrite ticked_snoc. destruct (ticked (new_tracker every) xs) as [bs t1]. cbn [fst snd] in IH. unfold tick_of. cbn [fst snd].
    pose proof (diff_replays x.1 x.2 t1) as H. destruct (diff order x.1 x.2 t1) as [b t']. destruct H as (H & Hs & Hl & He & _). cbn [fst snd].
    intros (g1 & g2 & -> & [IH1 IH2]%IH & Hg2)%sublist_app_r. rewrite foldl_app. set (c := foldl receive _ g1) in *. destruct (emit b) eqn:Eb.
    + assert (g2 = [] \/ g2 = [b]) as [-> | ->].
      { apply sublist_cons_r in Hg2 as [->%sublist_nil_r|(g & -> & ->%sublist_nil_r)]; auto. }
      * cbn [foldl]. split; [intros n Hn; specialize (IH1 n Hn); lia|]. intros Hn. specialize (IH1 _ Hn). lia.
      * cbn [foldl]. unfold receive. destruct (keyframe b) eqn:Ek; cbn [seen view]; [rewrite Hs; split; [intros n [= <-]; lia|done]|].
        destruct (seen c) as [m|] eqn:Em; [|rewrite Em; split; [done|discriminate]]. destruct (Z.eqb_spec (sequence b) (m + 1)) as [Eq|]; cbn [seen view]; [|split; discriminate].
        rewrite Hs in *. split; [intros n [= <-]; lia|]. intros _. rewrite <- H. f_equal. apply IH2. f_equal. lia.
    + apply sublist_nil_r in Hg2. subst g2. cbn [foldl]. symmetry in He. apply orb_false_iff in He as [Hk Hr]. rewrite Hk in H. bool_prop. rewrite Hr in H. cbn [foldl] in H.
      rewrite Hl, <- H. by split.
Qed.

Lemma mod_step n e : (0 < n)%nat -> (n mod S e = if (e <=? (n - 1) mod S e)%nat then 0 else S ((n - 1) mod S e))%nat.
Proof.
  intros Hn. pose proof (Nat.mod_upper_bound (n - 1) (S e) ltac:(lia)) as Hb. pose proof (Nat.div_mod_eq (n - 1) (S e)) as Hd.
  destruct (Nat.leb_spec e ((n - 1) mod S e)).
  - symmetry. apply (Nat.mod_unique _ _ (S ((n - 1) / S e))); [lia|]. nia.
  - symmetry. apply (Nat.mod_unique _ _ ((n - 1) / S e)); lia.
Qed.

(** with a period of [every] ticks a keyframe is sent every [every + 1] ticks, the first
    tick included: the count begins at the tick after the keyframe. *)
Theorem keyframe_cadence every xs (periodic : (0 < every)%nat) :
  is_keyframe (ticked (new_tracker every) xs).2 = bool_decide (length xs mod S every = 0)%nat.
Proof.
  set (t := (ticked (new_tracker every) xs).2).
  assert (keyframe_every t = every /\ (xs = [] /\ last_sequence t = 0 \/ xs <> [] /\ 0 < last_sequence t /\ ticks_since_keyframe t = ((length xs - 1) mod S every)%nat)) as [He Ht].
  { subst t. induction xs as [|x xs IH] using rev_ind; [by split; [|left]|]. rewrite ticked_snoc, length_app. destruct (ticked _ xs) as [bs t1]. cbn [fst snd length] in *.
    unfold tick_of. cbn [fst snd]. pose proof (diff_replays x.1 x.2 t1) as H. destruct (diff order x.1 x.2 t1) as [b t']. destruct H as (_ & _ & Hl & Hem & Hk & Hev & Hti).
    destruct IH as [IHe IH]. cbn [snd]. rewrite Hev. split; [done|]. right. split; [by destruct xs|]. replace (length xs + 1 - 1)%nat with (length xs) by lia.
    unfold is_keyframe in Hk. destruct IH as [[-> H0]|(Hne & Hpos & Htick)].
    - rewrite H0 in *. cbn in Hk. rewrite Hk in *. rewrite Hem in Hl. cbn in Hl. split; [lia|]. rewrite Hti. cbn. by rewrite Nat.sub_diag.
    - split; [destruct (emit b); lia|]. rewrite IHe in Hk. rewrite Hti, Hk, Htick. assert (0 < length xs)%nat by (destruct xs; cbn; [done|lia]).
      replace (last_sequence t1 =? 0) with false by lia. replace (0 <? every)%nat with true by lia. cbn [orb andb].
      by rewrite (mod_step (length xs)) by done. }
  unfold is_keyframe. rewrite He. destruct Ht as [[-> H0]|(Hne & Hpos & Hti)].
  - cbn [length]. by rewrite H0, Nat.Div0.mod_0_l.
  - rewrite Hti. replace (last_sequence t =? 0) with false by lia. replace (0 <? every)%nat with true by lia. cbn [orb andb].
    rewrite (mod_step (length xs)) by (destruct xs; [done|cbn; lia]). by destruct (_ <=? _)%nat.
Qed.

(** ** The ring *)

Lemma tail_is_drop {A} (l : list A) : tail l = drop 1 l.
Proof. by destruct l. Qed.

Lemma pushed_ring cs s : ring s = drop (length (tap s) - CAPACITY) (tap s) ->
  let s' := push_many cs s in ring s' = drop (length (tap s') - CAPACITY) (tap s') /\ tap s' = tap s ++ cs.
Proof.
  cbn zeta. revert s. induction cs as [|c cs IH]; intros s H; [by rewrite app_nil_r|]. cbn [push_many foldl].
  destruct (IH (push_one s c)) as [IH1 IH2].
  - unfold push_one. cbn [ring tap]. rewrite H, length_drop, length_app. cbn [length]. destruct (Nat.eqb_spec (length (tap s) - (length (tap s) - CAPACITY)) CAPACITY).
    + rewrite tail_is_drop, drop_drop, drop_app_le by (unfold CAPACITY in *; lia). do 2 f_equal. unfold CAPACITY in *. lia.
    + rewrite drop_app_le by lia. do 2 f_equal. unfold CAPACITY in *. lia.
  - split; [done|]. unfold push_many in IH2. rewrite IH2. cbn [push_one tap]. by rewrite <- app_assoc.
Qed.

(** whatever was pushed, the ring answers with the newest changes first, as many as are
    asked for, there are and fit. *)
Theorem ring_recent css count :
  let s := foldl (fun s cs => push_many cs s) new_store css in
  recent count s = take (count `min` CAPACITY) (reverse (mjoin css)) /\ tap s = mjoin css.
Proof.
  cbn zeta. set (s := foldl _ _ css). assert (ring s = drop (length (tap s) - CAPACITY) (tap s) /\ tap s = mjoin css) as [H <-].
  { subst s. induction css as [|cs css IH] using rev_ind; [done|]. rewrite foldl_app, join_app. cbn [foldl]. destruct IH as [IH1 IH2].
    destruct (pushed_ring cs _ IH1) as [H1 H2]. split; [done|]. rewrite H2, IH2. cbn. by rewrite app_nil_r. }
  split; [|done]. unfold recent. rewrite H, reverse_drop. destruct (Nat.le_ge_cases (length (tap s)) CAPACITY).
  - rewrite <- take_take, (take_ge (reverse (tap s)) CAPACITY), (take_ge (reverse (tap s)) (_ - _)); [done|rewrite length_reverse; lia..].
  - rewrite take_take. f_equal. lia.
Qed.

(** ** What the ring misses *)

(** The tracker has the list that it sees. *)
Definition mirrors (m : Inventory) (current : list ProcInv) : Prop :=
  (forall p, p ∈ current -> exists o, m !! key p = Some (stored p o)) /\ (forall k, k ∉ (key <$> current) -> m !! k = None).

Lemma diff_mirrors enrich current t : NoDup (key <$> current) -> mirrors (prev (diff order enrich current t).2) current.
Proof. intros Hd. destruct (inventory_exact enrich current t Hd) as [H1 H2]. split; [|done]. intros p Hp. eexists. by apply H1. Qed.

Lemma delta_same enrich m l : (forall p, p ∈ l -> exists o, m !! key p = Some (stored p o)) -> foldl (delta_step enrich) ([], m) l = ([], m).
Proof.
  induction l as [|p l IH]; intros H; [done|]. cbn [foldl]. destruct (H p) as [o Ho]; [by left|]. unfold delta_step at 2. cbn [snd]. rewrite Ho. cbn [stored s_ppid s_name].
  rewrite Z.eqb_refl, bool_decide_eq_true_2 by done. cbn [negb orb]. apply IH. intros q Hq. apply H. by right.
Qed.

Lemma diff_same enrich current t : mirrors (prev t) current -> is_keyframe t = false ->
  records (diff order enrich current t).1 = [] /\ prev (diff order enrich current t).2 = prev t.
Proof.
  intros [H1 H2] Hk. unfold diff. rewrite Hk, delta_same by done. cbn [snd]. assert (gone_keys order (prev t) current = []) as ->; [|done].
  apply elem_of_nil_inv. intros k [[s Hs] Hg]%gone_keys_spec. by rewrite H2 in Hs.
Qed.

Definition held (l : Loop) : option (list ProcessChange) := ring <$> store l.

(** what started, ended or changed between a keyframe and the tick before it never
    reaches the ring, at this tick or at any other with the same list. *)
Theorem keyframe_hides_changes current l ticks
    (distinct : NoDup (key <$> current)) (due : is_keyframe (tracker l) = true) (collected : is_Some (store l)) :
  held (foldl (fun l x => (inventory_tick order x.1.1 x.1.2 x.2 current l).2) l ticks) = held l.
Proof.
  assert (forall l x, is_Some (store l) -> is_keyframe (tracker l) = true \/ mirrors (prev (tracker l)) current ->
    let l' := (inventory_tick order x.1.1 x.1.2 x.2 current l).2 in
    held l' = held l /\ is_Some (store l') /\ mirrors (prev (tracker l')) current) as Hstep.
  { intros l0 [[en enrich] scan] [s Hs] Hm. cbn zeta. cbn [fst snd]. unfold inventory_tick, held. rewrite Hs, bool_decide_eq_true_2 by done. rewrite orb_true_r.
    pose proof (diff_mirrors enrich current (tracker l0) distinct) as Hm'. pose proof (diff_replays enrich current (tracker l0)) as Hd.
    pose proof (diff_same enrich current (tracker l0)) as Hsame. destruct (diff order enrich current (tracker l0)) as [b t']. cbn [fst snd store tracker prev] in *.
    destruct Hd as (_ & _ & _ & He & Hk & _). split; [|split; [by eexists|done]]. rewrite He, Hk. destruct (is_keyframe (tracker l0)) eqn:E; [done|].
    destruct Hm as [|Hm]; [done|]. destruct (Hsame Hm eq_refl) as [-> _]. done. }
  assert (is_keyframe (tracker l) = true \/ mirrors (prev (tracker l)) current) as Hm by auto. clear due.
  revert l collected Hm. induction ticks as [|x ticks IH]; intros l Hs Hm; [done|]. cbn [foldl]. destruct (Hstep l x Hs Hm) as (H1 & H2 & H3).
  rewrite IH by auto. done.
Qed.
End TrackerTheorems.

(** ** Events *)

(** for sizes below 2^51 bytes the comparison with one and a half times the memory before
    is exact, although it is done in floating point. *)
Theorem spike_exact before now (fits : 0 <= before < 2 ^ 51 /\ 0 <= now < 2 ^ 51) :
  is_spike before now = (RSS_SPIKE_MIN_DELTA <=? now - before) && (3 * before <=? 2 * now).
Proof.
  unfold is_spike, sat_sub. destruct (Z.ltb_spec before now) as [Hlt|Hle].
  - rewrite Z.max_r by lia. cbn [andb]. f_equal. rewrite (halves_whole now) by lia. destruct (Z.eq_dec before 0) as [->|Hn].
    + transitivity true; [|symmetry; apply Z.leb_le; lia]. done.
    + unfold RSS_SPIKE_RATIO. rewrite halves_ratio, halves_le by lia. done.
  - cbn [andb]. unfold RSS_SPIKE_MIN_DELTA. destruct (Z.leb_spec (64 * 1024 * 1024) (now - before)); [lia|done].
Qed.

(** however long the list of transitions is, at most 21 events leave: all of them, or the
    twenty of the largest processes with an event that counts the others. *)
Theorem cap_accounts l :
  (length (cap l) <= S TOP_N)%nat /\
  (cap l = l \/ exists kept dropped, cap l = kept ++ [churn dropped] /\ kept ++ dropped ≡ₚ l /\ length kept = TOP_N /\
     (forall k d, k ∈ kept -> d ∈ dropped -> weight d <= weight k)).
Proof.
  unfold cap. destruct (Nat.leb_spec (length l) TOP_N) as [Hl|Hl]; [split; [lia|by left]|].
  set (s := sort_by_key _ l). assert (s ≡ₚ l) as Hs by apply sort_by_Permutation. pose proof (Permutation_length Hs) as Hlen.
  rewrite length_app, length_take. cbn [length]. split; [lia|]. right. exists (take TOP_N s), (drop TOP_N s). split; [done|]. rewrite take_drop, length_take.
  split; [done|]. split; [lia|]. pose proof (sort_by_key_sorted (fun t => - weight t) l) as Hsort. fold s in Hsort. rewrite <- (take_drop TOP_N s) in Hsort.
  intros k d Hk Hd. assert (forall a b, StronglySorted (fun x y => - weight x <= - weight y) (a ++ b) -> k ∈ a -> d ∈ b -> weight d <= weight k) as Hw; [|by apply (Hw _ _ Hsort)].
  clear. intros a b. induction a as [|x a IH]; intros Hss Hk Hd; [by apply elem_of_nil in Hk|]. cbn [app] in Hss. apply StronglySorted_inv in Hss as [Hss Hx].
  apply elem_of_cons in Hk as [->|Hk]; [|by apply IH]. rewrite Forall_forall in Hx. assert (- weight x <= - weight d) by (apply Hx, elem_of_app; by right). lia.
Qed.

(** What became of the process with a number. *)
Definition between (current before : Table) (n : Z) : list Transition :=
  match before !! n, current !! n with
  | None, None => []
  | None, Some now => [start_transition n now]
  | Some b, None => [exit_transition n b]
  | Some b, Some now =>
      if bool_decide (p_name b = p_name now) then if is_spike (rss b) (rss now) then [spike_transition n b now] else []
      else [exit_transition n b; start_transition n now]
  end.

Lemma join_map_perm {A B} (f g : A -> list B) l l' : l ≡ₚ l' -> (forall x, x ∈ l' -> f x = g x) -> mjoin (f <$> l) ≡ₚ mjoin (g <$> l').
Proof.
  intros Hp Hf. assert (mjoin (f <$> l) ≡ₚ mjoin (f <$> l')) as ->.
  { clear Hf. induction Hp as [|x l l' _ IH|x y l|l1 l2 l3 _ IH1 _ IH2]; [done|by cbn; apply Permutation_app_head| |by etrans].
    cbn. rewrite !app_assoc. apply Permutation_app_tail, Permutation_app_comm. }
  clear Hp. induction l' as [|x l' IH]; [done|]. cbn. rewrite (Hf x) by (by left). rewrite IH; [done|]. intros y Hy. apply Hf. by right.
Qed.

(** in whatever order the tables are walked, the transitions are, process by process, the
    start of each that is new, the end of each that is gone, both where a number went to
    another name, and the jump of each that grew by half. *)
Theorem transitions_exact (order : list (Z * ProcSnap) -> list (Z * ProcSnap)) before current (any_order : forall l, order l ≡ₚ l) :
  diff_tables order before current ≡ₚ mjoin (between current before <$> elements (dom current ∪ dom before)).
Proof.
  assert (forall m : Table, (map_to_list m).*1 ≡ₚ elements (dom m)) as Hkeys.
  { intros m. apply NoDup_Permutation; [apply NoDup_fst_map_to_list|apply NoDup_elements|]. intros n. rewrite elem_of_elements, elem_of_dom, list_elem_of_fmap. split.
    - intros ([n' p] & -> & Hp%elem_of_map_to_list). by exists p.
    - intros [p Hp]. exists (n, p). split; [done|]. by apply elem_of_map_to_list. }
  assert (elements (dom current ∪ dom before) ≡ₚ (map_to_list current).*1 ++ filter (fun n => n ∉ dom current) (map_to_list before).*1) as ->.
  { apply NoDup_Permutation; [apply NoDup_elements|apply NoDup_app|].
    - split; [apply NoDup_fst_map_to_list|]. split; [|apply NoDup_filter, NoDup_fst_map_to_list].
      intros n Hn [Hc _]%list_elem_of_filter. rewrite Hkeys in Hn. by apply Hc, elem_of_elements.
    - intros n. rewrite elem_of_elements, elem_of_app, list_elem_of_filter, !Hkeys, !elem_of_elements. destruct (decide (n ∈ dom current)); set_solver. }
  rewrite fmap_app, join_app. unfold diff_tables. f_equiv.
  - rewrite <- list_fmap_compose. apply join_map_perm; [apply any_order|]. intros [n p] Hp%elem_of_map_to_list. unfold between, joined. cbn [fst snd compose].
    rewrite Hp. by destruct (before !! n).
  - rewrite (join_map_perm _ _ _ _ (any_order _) (fun x _ => eq_refl)).
    assert (Forall (fun e => before !! e.1 = Some e.2) (map_to_list before)) as Hf.
    { apply Forall_forall. intros [n p] Hp%elem_of_map_to_list. done. }
    induction Hf as [|[n p] l Hp _ IH]; [done|]. rewrite fmap_cons, (fmap_cons fst). cbn [fst snd] in *. rewrite filter_cons. cbn [mjoin list_join].
    case_decide as Hn.
    + rewrite bool_decide_eq_false_2 by (by rewrite <- elem_of_dom). rewrite fmap_cons. cbn [mjoin list_join]. apply not_elem_of_dom in Hn. unfold between at 1. rewrite Hp, Hn. by f_equiv.
    + rewrite bool_decide_eq_true_2; [done|]. apply elem_of_dom. by destruct (decide (n ∈ dom current)).
Qed.

(** ** Witnesses *)

Definition demo_list : list ProcInv :=
  [{| pid := 10; ppid := 1; start_time := 100; name := lit "sshd" |}; {| pid := 20; ppid := 10; start_time := 200; name := lit "bash" |}].
Definition demo_next : list ProcInv :=
  [{| pid := 10; ppid := 1; start_time := 100; name := lit "sshd" |}; {| pid := 20; ppid := 10; start_time := 300; name := lit "vim" |}].
Definition demo_enrich (p : Z) : option Z * option str := (Some p, None).
Definition demo_ticks : list ((Z -> option Z * option str) * list ProcInv) := [(demo_enrich, demo_list); (demo_enrich, demo_next)].

Lemma demo_distinct : NoDup (key <$> demo_next).
Proof. repeat (apply NoDup_cons; split; [set_solver|]). constructor. Qed.

Lemma inventory_exact_witness : prev (diff id demo_enrich demo_next (new_tracker 2)).2 !! (20, 300) =
  Some {| s_ppid := 10; s_name := lit "vim"; s_uid := Some 20; s_container_id := None |}.
Proof.
  destruct (inventory_exact id (fun l => reflexivity l) demo_enrich demo_next (new_tracker 2) demo_distinct) as [H _].
  apply (H {| pid := 20; ppid := 10; start_time := 300; name := lit "vim" |}).
  right. by left.
Defined.

Lemma consumer_in_sync_witness :
  synced (foldl receive {| view := ∅; seen := None |} (ticked id (new_tracker 2) demo_ticks).1) (ticked id (new_tracker 2) demo_ticks).2.
Proof. by apply (consumer_in_sync id (new_tracker 2) _ (demo_enrich, demo_list) [(demo_enrich, demo_next)]). Defined.

Lemma consumer_never_wrong_witness :
  view (foldl receive {| view := ∅; seen := None |} (ticked id (new_tracker 2) demo_ticks).1) = prev (ticked id (new_tracker 2) demo_ticks).2.
Proof. apply (consumer_never_wrong id 2 demo_ticks (ticked id (new_tracker 2) demo_ticks).1); by vm_compute. Defined.

Lemma keyframe_cadence_witness : is_keyframe (ticked id (new_tracker 2) (demo_ticks ++ [(demo_enrich, demo_next)])).2 = true.
Proof. rewrite (keyframe_cadence id 2 (demo_ticks ++ [(demo_enrich, demo_next)])) by lia. by vm_compute. Defined.

(** The change from one list to the other falls on the first tick. *)
Definition demo_loop : Loop :=
  {| tracker := {| prev := prev (diff id demo_enrich demo_list (new_tracker 2)).2; last_sequence := 1; ticks_since_keyframe := 2; keyframe_every := 2 |};
     store := Some new_store; prev_scan := Some 0 |}.

Lemma keyframe_hides_changes_witness :
  held (foldl (fun l x => (inventory_tick id x.1.1 x.1.2 x.2 demo_next l).2) demo_loop [(true, demo_enrich, 60); (true, demo_enrich, 120)]) = Some [].
Proof. apply (keyframe_hides_changes id (fun l => reflexivity l) demo_next demo_loop); [exact demo_distinct|by vm_compute|by eexists]. Defined.

Lemma spike_exact_witness : is_spike 134217728 201326592 = true.
Proof. rewrite (spike_exact 134217728 201326592) by lia. by vm_compute. Defined.

Definition demo_before : Table := {[ 10 := {| p_name := lit "sshd"; rss := 100 |} ]}.
Definition demo_current : Table := {[ 10 := {| p_name := lit "vim"; rss := 100 |} ]}.

Lemma transitions_exact_witness : diff_tables id demo_before demo_current ≡ₚ
  [exit_transition 10 {| p_name := lit "sshd"; rss := 100 |}; start_transition 10 {| p_name := lit "vim"; rss := 100 |}].
Proof. rewrite (transitions_exact id demo_before demo_current (fun l => reflexivity l)). by vm_compute. Defined.
