(* ===== verification/DaemonLock.v ===== *)
(** * The daemon's lock (aic-server/src/lock.rs)

    A file locked with [fcntl] holds the process id and program path of its owner; a locked
    file whose owner is gone is removed and created anew. Paths name inodes, which keep their
    text and lock while open. The acquisition is given twice: as the steps in which processes
    interleave, and as the whole function.

    [fcntl] locks belong to the process: it is refused only what another process holds, and
    closing a file gives up its lock. *)

From S2P Require Import Prelude RustStr StrOrder.

(** ** The text of a lock file *)

Definition parse_pid_and_path (content : str) : option Z * option str :=
  let ls := lines content in
  (first ← ls !! 0%nat; parse_u32 (trim first),
   second ← ls !! 1%nat; let s := trim second in if bool_decide (s = []) then None else Some s).

Definition DELETED : str := lit " (deleted)".

Definition exe_path_matches (expected actual : str) : bool :=
  bool_decide (default actual (strip_suffix DELETED actual) = expected).

(** What [kill(pid, 0)] answers. *)
Inductive kill_answer := KillOk | KillNoProcess | KillOther.

(** A process of the user: the program path it would read for itself now ([current_exe]), and the
    one the system shows for it now ([process_exe_path]). *)
Record Proc := { own_exe : option str; shown_exe : option str }.

(** Components of an absolute path, which decide equality and order of [PathBuf]s. *)
Abbreviation Path := (list str).

Record Sys := {
  live : gmap Z Proc;
  foreign : Z -> kill_answer;
  paths : gmap Path nat;
  texts : gmap nat str;
  locks : gmap nat Z;
  next_ino : nat;
  (** the [DaemonLock] values of the processes *)
  held : list (Z * Path * nat);
}.

(** [pid as i32] *)
Definition as_i32 (n : Z) : Z := if n <? 2 ^ 31 then n else n - 2 ^ 32.

Definition kill0 (s : Sys) (pid : Z) : kill_answer :=
  match s.(live) !! pid with Some _ => KillOk | None => s.(foreign) pid end.

Definition process_exe_path (s : Sys) (pid : Z) : option str := p ← s.(live) !! pid; shown_exe p.

Definition is_pid_alive (s : Sys) (pid : Z) (expected_path : option str) : bool :=
  if pid =? 0 then false
  else match kill0 s (as_i32 pid) with
       | KillNoProcess => false
       | KillOther => true
       | KillOk =>
           match expected_path, process_exe_path s pid with
           | Some expected, Some actual => exe_path_matches expected actual
           | _, _ => true
           end
       end.

Definition pid_text (pid : Z) (exe : option str) : str :=
  show_unsigned pid ++ x0a :: default [] exe ++ [x0a].

(** ** Files and locks *)

Definition set_paths (m : gmap Path nat) (s : Sys) : Sys := {|
  live := s.(live); foreign := s.(foreign); paths := m; texts := s.(texts); locks := s.(locks);
  next_ino := s.(next_ino); held := s.(held) |}.

Definition set_texts (m : gmap nat str) (s : Sys) : Sys := {|
  live := s.(live); foreign := s.(foreign); paths := s.(paths); texts := m; locks := s.(locks);
  next_ino := s.(next_ino); held := s.(held) |}.

Definition set_locks (m : gmap nat Z) (s : Sys) : Sys := {|
  live := s.(live); foreign := s.(foreign); paths := s.(paths); texts := s.(texts); locks := m;
  next_ino := s.(next_ino); held := s.(held) |}.

Definition set_held (h : list (Z * Path * nat)) (s : Sys) : Sys := {|
  live := s.(live); foreign := s.(foreign); paths := s.(paths); texts := s.(texts); locks := s.(locks);
  next_ino := s.(next_ino); held := h |}.

Definition set_live (m : gmap Z Proc) (s : Sys) : Sys := {|
  live := m; foreign := s.(foreign); paths := s.(paths); texts := s.(texts); locks := s.(locks);
  next_ino := s.(next_ino); held := s.(held) |}.

(** [OpenOptions::create(true)]: an empty file where there is none. *)
Definition open_file (path : Path) (s : Sys) : nat * Sys :=
  match s.(paths) !! path with
  | Some ino => (ino, s)
  | None =>
      let ino := s.(next_ino) in
      (ino, {| live := s.(live); foreign := s.(foreign); paths := <[path := ino]> s.(paths);
               texts := <[ino := []]> s.(texts); locks := s.(locks); next_ino := S ino;
               held := s.(held) |})
  end.

(** Which of the calls succeed; a write may be partial. *)
Record lock_env := {
  l_dir : bool;
  l_open : bool;
  l_lock : bool;
  l_truncate : bool;
  l_write : option nat;
  l_remove : bool;
}.

Definition try_write_lock (e : lock_env) (pid : Z) (ino : nat) (s : Sys) : option Sys :=
  if negb e.(l_lock) then None
  else match s.(locks) !! ino with
       | Some q => if q =? pid then Some s else None
       | None => Some (set_locks (<[ino := pid]> s.(locks)) s)
       end.

(** Closing a file releases the process's lock on it. *)
Definition close_file (pid : Z) (ino : nat) (s : Sys) : Sys :=
  match s.(locks) !! ino with
  | Some q => if q =? pid then set_locks (delete ino s.(locks)) s else s
  | None => s
  end.

Definition remove_path (e : lock_env) (path : Path) (s : Sys) : Sys :=
  if e.(l_remove) then set_paths (delete path s.(paths)) s else s.

Definition current_exe (s : Sys) (pid : Z) : option str := p ← s.(live) !! pid; own_exe p.

(** ** Acquisition in steps *)

Inductive phase :=
| Opening (retries : nat)
| Opened (ino retries : nat)
| Locked (ino : nat)
| Emptied (ino : nat)
| Contended (ino retries : nat)
| Removing (retries : nat)
| Acquired (ino : nat)
| Refused.

(** The text as [read_to_string] returns it: nothing for text that is not UTF-8. *)
Definition read_text (ino : nat) (s : Sys) : str :=
  let t := default [] (s.(texts) !! ino) in if utf8_valid t then t else [].

(** One step of process [pid]'s acquisition of [path]. *)
Definition lock_step (e : lock_env) (pid : Z) (path : Path) (ph : phase) (s : Sys) : phase * Sys :=
  match ph with
  | Opening n =>
      if e.(l_dir) && e.(l_open) then let '(ino, s) := open_file path s in (Opened ino n, s) else (Refused, s)
  | Opened ino n =>
      match try_write_lock e pid ino s with
      | Some s => (Locked ino, s)
      | None => (Contended ino n, s)
      end
  | Locked ino =>
      if e.(l_truncate) then (Emptied ino, set_texts (<[ino := []]> s.(texts)) s)
      else (Refused, close_file pid ino s)
  | Emptied ino =>
      let text := pid_text pid (current_exe s pid) in
      match e.(l_write) with
      | None => (Acquired ino, set_held ((pid, path, ino) :: s.(held)) (set_texts (<[ino := text]> s.(texts)) s))
      | Some k => (Refused, close_file pid ino (set_texts (<[ino := take k text]> s.(texts)) s))
      end
  | Contended ino n =>
      let '(owner, exe) := parse_pid_and_path (read_text ino s) in
      let s := close_file pid ino s in
      if match owner with Some q => is_pid_alive s q exe | None => false end then (Refused, s)
      else match n with
           | O => (Refused, s)
           | S n => (Removing n, s)
           end
  | Removing n => (Opening n, remove_path e path s)
  | Acquired _ | Refused => (ph, s)
  end.

(** ** Acquisition as a function *)

Definition write_pid_and_path (e : lock_env) (pid : Z) (path : Path) (ino : nat) (s : Sys) : Sys * outcome nat unit :=
  if negb e.(l_truncate) then (close_file pid ino s, Err tt)
  else
    let s := set_texts (<[ino := []]> s.(texts)) s in
    let text := pid_text pid (current_exe s pid) in
    match e.(l_write) with
    | Some k => (close_file pid ino (set_texts (<[ino := take k text]> s.(texts)) s), Err tt)
    | None => (set_held ((pid, path, ino) :: s.(held)) (set_texts (<[ino := text]> s.(texts)) s), Ok ino)
    end.

Fixpoint acquire_inner (e : lock_env) (pid : Z) (path : Path) (retries_left : nat) (s : Sys)
    : Sys * outcome nat unit :=
  if negb (e.(l_dir) && e.(l_open)) then (s, Err tt)
  else
    let '(ino, s) := open_file path s in
    match try_write_lock e pid ino s with
    | Some s => write_pid_and_path e pid path ino s
    | None =>
        let '(owner, exe) := parse_pid_and_path (read_text ino s) in
        let s := close_file pid ino s in
        if match owner with Some q => is_pid_alive s q exe | None => false end then (s, Err tt)
        else match retries_left with
             | O => (s, Err tt)
             | S n => acquire_inner e pid path n (remove_path e path s)
             end
    end.

Definition acquire (e : lock_env) (pid : Z) (path : Path) : Sys -> Sys * outcome nat unit :=
  acquire_inner e pid path 1.

(** [Drop]: the lock is released and the file stays. *)
Definition drop_lock (l : Z * Path * nat) (s : Sys) : Sys :=
  let '(pid, path, ino) := l in
  close_file pid ino (set_held (List.filter (fun l' => negb (bool_decide (l' = l))) s.(held)) s).

(** ** All candidate paths *)

Fixpoint path_leb (a b : Path) : bool :=
  match a, b with
  | [], _ => true
  | _ :: _, [] => false
  | x :: a, y :: b => if bool_decide (x = y) then path_leb a b else str_leb x y
  end.

(** [Vec::dedup] *)
Fixpoint dedup (l : list Path) : list Path :=
  match l with
  | x :: (y :: _) as rest => if bool_decide (x = y) then dedup rest else x :: dedup rest
  | _ => l
  end.

(** The environment of a path: whether its directory can be used, and the calls. *)
Fixpoint acquire_each (e : Path -> lock_env) (usable : Path -> bool) (pid : Z) (canonical : Path)
    (ordered : list Path) (got : list (Z * Path * nat)) (s : Sys) : Sys * outcome (list (Z * Path * nat)) unit :=
  match ordered with
  | [] => (s, Ok got)
  | path :: rest =>
      if negb (bool_decide (path = canonical)) && negb (usable path) then
        acquire_each e usable pid canonical rest got s
      else match acquire (e path) pid path s with
           | (s, Ok ino) => acquire_each e usable pid canonical rest (got ++ [(pid, path, ino)]) s
           | (s, Err _) => (foldl (fun s l => drop_lock l s) s got, Err tt)
           | (s, Panic) => (s, Panic)
           end
  end.

Definition acquire_all (e : Path -> lock_env) (usable : Path -> bool) (pid : Z) (canonical : Path)
    (candidates : list Path) (s : Sys) : Sys * outcome (list (Z * Path * nat)) unit :=
  acquire_each e usable pid canonical (dedup (sort_by path_leb (candidates ++ [canonical]))) [] s.

(** ** Queries *)

(** [read_to_string] of a file at a path, when it exists, is readable and is UTF-8. *)
Definition read_path (s : Sys) (readable : Path -> bool) (path : Path) : option str :=
  ino ← s.(paths) !! path;
  let t := default [] (s.(texts) !! ino) in
  if readable path && utf8_valid t then Some t else None.

Definition read_lock_holder_pid (s : Sys) (readable : Path -> bool) (path : Path) : option Z :=
  content ← read_path s readable path;
  let '(pid, exe) := parse_pid_and_path content in
  pid ← pid; if is_pid_alive s pid exe then Some pid else None.

Fixpoint find_live_daemon_outside (s : Sys) (readable : Path -> bool) (canonical : Path)
    (candidates : list Path) : option (Path * Z) :=
  match candidates with
  | [] => None
  | path :: rest =>
      if bool_decide (path = canonical) then find_live_daemon_outside s readable canonical rest
      else match read_lock_holder_pid s readable path with
           | Some pid => Some (path, pid)
           | None => find_live_daemon_outside s readable canonical rest
           end
  end.

(** ** Stale sessions *)

(** The directory of the sessions: names as listed, where they are UTF-8, and the files. *)
Record SessionDir := { listing : list (option str); files : gmap str str }.

Inductive rm_result := RmOk | RmDenied | RmFails.
Inductive read_result := ReadOk | ReadDenied | ReadFails.

Record clean_env := { c_connects : str -> bool; c_remove : str -> rm_result; c_read : str -> read_result }.

Definition remove_file (e : clean_env) (name : str) (fs : gmap str str) : gmap str str :=
  match e.(c_remove) name with RmOk => delete name fs | _ => fs end.

Definition cleanup_stale_pid_file (s : Sys) (e : clean_env) (name : str) (fs : gmap str str) : gmap str str :=
  match fs !! name with
  | None => fs
  | Some content =>
      match e.(c_read) name with
      | ReadDenied => fs
      | ReadFails => remove_file e name fs
      | ReadOk =>
          if negb (utf8_valid content) then remove_file e name fs
          else
            let '(pid, exe) := parse_pid_and_path content in
            if match pid with Some pid => is_pid_alive s pid exe | None => false end then fs
            else remove_file e name fs
      end
  end.

Definition SOCK : str := lit ".sock".
Definition is_session_socket (name : str) : bool :=
  starts_with (lit "session-") name && bool_decide (is_Some (strip_suffix SOCK name)).

(** [path.with_extension("pid")] of a socket's name. *)
Definition pid_name (name : str) : str := take (length name - length SOCK) name ++ lit ".pid".

Definition cleanup_entry (s : Sys) (e : clean_env) (fs : gmap str str) (name : option str) : gmap str str :=
  match name with
  | None => fs
  | Some name =>
      if negb (is_session_socket name) then fs
      else if e.(c_connects) name then fs
      else match e.(c_remove) name with
           | RmDenied => fs
           | _ => cleanup_stale_pid_file s e (pid_name name) (remove_file e name fs)
           end
  end.

(** [None]: the directory cannot be read. *)
Definition cleanup_stale_sessions_in (s : Sys) (e : clean_env) (dir : option SessionDir) : option SessionDir :=
  match dir with
  | None => None
  | Some d => Some {| listing := d.(listing); files := foldl (cleanup_entry s e) d.(files) d.(listing) |}
  end.
