(* ===== verification/DaemonLockSpec.v ===== *)
(** * Theorems about the daemon's lock

    [single_owner]: acquisitions one after the other, deaths, reused pids and replaced programs
    leave one live owner, if no acquirer reads its own path with the deletion mark;
    [replaced_owner_is_stale]: what happens if one does. *)

From S2P Require Import Prelude RustStr StrOrder DaemonLock.

(** ** The steps make up the function *)

Definition lock_result (r : outcome nat unit) : phase := match r with Ok ino => Acquired ino | _ => Refused end.

Definition step_once (e : lock_env) (pid : Z) (path : Path) (c : phase * Sys) : phase * Sys :=
  lock_step e pid path c.1 c.2.

Fixpoint steps (n : nat) (e : lock_env) (pid : Z) (path : Path) (c : phase * Sys) : phase * Sys :=
  match n with
  | O => c
  | S n => steps n e pid path (step_once e pid path c)
  end.

Lemma steps_acquired n e pid path ino s : steps n e pid path (Acquired ino, s) = (Acquired ino, s).
Proof. induction n; done. Qed.

Lemma step_refused e pid path s : step_once e pid path (Refused, s) = (Refused, s).
Proof. done. Qed.

Lemma steps_refused n e pid path s : steps n e pid path (Refused, s) = (Refused, s).
Proof. induction n; done. Qed.

(** A process that is not interrupted runs through the steps of the function. *)
Theorem acquire_refined e pid path n s :
  steps (4 * n + 4) e pid path (Opening n, s) =
    (lock_result (acquire_inner e pid path n s).2, (acquire_inner e pid path n s).1).
Proof.
  revert s. induction n as [|n IH]; intros s.
  - cbn [Nat.mul Nat.add steps]. unfold step_once at 4. cbn [fst snd lock_step acquire_inner].
    destruct (l_dir e && l_open e); cbn [negb]; [|done]. destruct (open_file path s) as [ino s1].
    unfold step_once at 3. cbn [fst snd lock_step]. destruct (try_write_lock e pid ino s1) as [s2|].
    + unfold step_once at 2, write_pid_and_path. cbn [fst snd lock_step]. destruct (l_truncate e); cbn [negb]; [|done].
      unfold step_once. cbn [fst snd lock_step]. by destruct (l_write e).
    + unfold step_once at 2. cbn [fst snd lock_step]. destruct (parse_pid_and_path _) as [owner exe].
      by destruct (match owner with Some q => _ | None => _ end).
  - replace (4 * S n + 4)%nat with (4 + (4 * n + 4))%nat by lia. cbn [Nat.add steps].
    unfold step_once at 4. cbn [fst snd lock_step acquire_inner].
    destruct (l_dir e && l_open e); cbn [negb]; [|by rewrite ?step_refused, steps_refused]. destruct (open_file path s) as [ino s1].
    unfold step_once at 3. cbn [fst snd lock_step]. destruct (try_write_lock e pid ino s1) as [s2|].
    + unfold step_once at 2, write_pid_and_path. cbn [fst snd lock_step]. destruct (l_truncate e); cbn [negb]; [|by rewrite ?step_refused, steps_refused].
      unfold step_once. cbn [fst snd lock_step]. destruct (l_write e); [by rewrite ?step_refused, steps_refused|].
      by rewrite steps_acquired.
    + unfold step_once at 2. cbn [fst snd lock_step]. destruct (parse_pid_and_path _) as [owner exe].
      destruct (match owner with Some q => _ | None => _ end); [by rewrite ?step_refused, steps_refused|].
      unfold step_once. cbn [fst snd lock_step]. apply IH.
Qed.

(** ** A live owner is recognised *)

Definition good_pid (p : Z) : Prop := 0 < p < 2 ^ 31.

(** A program path that survives being written as a line. *)
Definition line_safe (r : str) : Prop := x0a ∉ r /\ last r <> Some x0d /\ trim r = r /\ utf8_valid r = true.

(** How the system shows the path of a program that was replaced on disk. *)
Definition mark (r : str) : str := match strip_suffix DELETED r with Some _ => r | None => r ++ DELETED end.

(** The program path is not marked: the program was not replaced since the process started. *)
Definition unmarked (pr : Proc) : Prop := forall r, own_exe pr = Some r -> strip_suffix DELETED r = None.

(** [rec] is the path the process started from: what it reads for itself is that path, or, once
    the program was replaced, the same marked; and so is what the system shows, where it shows
    anything. *)
Definition started_from (rec : option str) (pr : Proc) : Prop :=
  (own_exe pr = rec \/ own_exe pr = mark <$> rec) /\
  forall r, rec = Some r -> line_safe r /\ strip_suffix DELETED r = None /\
    (shown_exe pr = None \/ shown_exe pr = Some r \/ shown_exe pr = Some (r ++ DELETED)).

Definition good_proc (pr : Proc) : Prop := exists rec, started_from rec pr.

Lemma strip_suffix_app t s : strip_suffix t (s ++ t) = Some s.
Proof.
  unfold strip_suffix. rewrite reverse_app, starts_with_app. rewrite length_app.
  replace (length s + length t - length t)%nat with (length s) by lia. by rewrite take_app_length.
Qed.

(** An upgraded program still matches. *)
Lemma exe_matches_upgraded r a :
  strip_suffix DELETED r = None -> a = r \/ a = r ++ DELETED -> exe_path_matches r a = true.
Proof.
  intros Hr [->| ->]; unfold exe_path_matches; apply bool_decide_eq_true_2; [by rewrite Hr|].
  by rewrite strip_suffix_app.
Qed.

Lemma digits_line p rest :
  lines (show_unsigned p ++ x0a :: rest) = show_unsigned p :: lines rest.
Proof.
  pose proof (show_unsigned_digits p) as Hd.
  rewrite lines_line by (eapply not_elem_of_Forall; [exact Hd|done]). f_equal.
  destruct (last (show_unsigned p)) as [b|] eqn:E.
  - apply (strip_cr_other _ b); [done|]. apply last_Some in E as [l El]. rewrite El in Hd.
    apply Forall_app in Hd as [_ [Hb _]%Forall_cons]. by intros ->.
  - apply last_None in E. by rewrite E.
Qed.

Lemma digits_trim p : trim (show_unsigned p) = show_unsigned p.
Proof.
  apply trim_plain. eapply Forall_impl; [apply show_unsigned_digits|]. intros b Hb.
  apply lower_hex_plain. unfold is_lower_hex, is_ascii_digit in *. by rewrite Hb.
Qed.


Lemma parse_pid_text p exe :
  good_pid p -> (forall r, exe = Some r -> x0a ∉ r /\ last r <> Some x0d /\ trim r = r) ->
  parse_pid_and_path (pid_text p exe) = (Some p, match exe with Some [] | None => None | Some r => Some r end).
Proof.
  intros Hp Hr. unfold parse_pid_and_path, pid_text. rewrite digits_line. cbn [lookup list_lookup mbind option_bind].
  rewrite digits_trim. unfold parse_u32. rewrite parse_show_unsigned by (unfold good_pid, u32_max in *; lia). f_equal.
  destruct exe as [r|]; cbn [default]; [|done]. unfold id. destruct (Hr r eq_refl) as (H1 & H2 & H3).
  rewrite lines_line by done. cbn [lookup list_lookup mbind option_bind].
  destruct (last r) as [b|] eqn:E.
  - rewrite (strip_cr_other r b) by (congruence || done). rewrite H3. case_bool_decide as Er; [by rewrite Er in E|].
    by destruct r.
  - apply last_None in E. by rewrite E.
Qed.

Lemma alive_owner s p pr rec :
  good_pid p -> live s !! p = Some pr -> started_from rec pr ->
  is_pid_alive s p (match rec with Some [] | None => None | Some r => Some r end) = true.
Proof.
  intros Hp Hl [_ Hg]. unfold is_pid_alive, kill0, process_exe_path, as_i32, good_pid in *.
  replace (p =? 0) with false by lia. replace (p <? 2 ^ 31) with true by lia. rewrite Hl. cbn [mbind option_bind].
  destruct rec as [r|]; [|done]. destruct (Hg r eq_refl) as (_ & Hs & Hsh). destruct r as [|b r]; [done|].
  destruct Hsh as [->|[->| ->]]; [done|..]; apply exe_matches_upgraded; auto.
Qed.

(** What a process records before its program is replaced is the path it started from. *)
Lemma unmarked_record pr rec : started_from rec pr -> unmarked pr -> own_exe pr = rec.
Proof.
  intros [[?|E] _] Hu; [done|]. destruct rec as [r|]; [|done]. cbn in E. pose proof (Hu _ E) as Hn. unfold mark in *.
  destruct (strip_suffix DELETED r) eqn:Er; [congruence|]. by rewrite strip_suffix_app in Hn.
Qed.

Lemma replaced_started rec pr b :
  started_from rec pr ->
  started_from rec {| own_exe := if b : bool then mark <$> own_exe pr else own_exe pr; shown_exe := mark <$> own_exe pr |}.
Proof.
  intros [Ho Hg]. assert (mark <$> own_exe pr = mark <$> rec) as E.
  { destruct Ho as [->| ->]; [done|]. destruct rec as [r|]; [|done]. cbn. f_equal. unfold mark.
    destruct (strip_suffix DELETED r) eqn:Er; [by rewrite Er|]. by rewrite strip_suffix_app. }
  split; cbn [own_exe shown_exe].
  - destruct b; [right; exact E|exact Ho].
  - intros r ->. destruct (Hg r eq_refl) as (H1 & H2 & _). split; [done|]. split; [done|]. right; right. rewrite E. cbn. unfold mark. by rewrite H2.
Qed.

Lemma read_pid_text s ino p exe :
  texts s !! ino = Some (pid_text p exe) -> (forall r, exe = Some r -> utf8_valid r = true) ->
  read_text ino s = pid_text p exe.
Proof.
  intros Ht Hu. unfold read_text. rewrite Ht. cbn [default]. unfold id.
  assert (Hd : utf8_valid (show_unsigned p) = true).
  { apply utf8_valid_ascii. eapply Forall_impl; [apply show_unsigned_digits|].
    unfold is_ascii_digit, byte_in. intros b Hb. simpl in Hb. lia. }
  replace (utf8_valid (pid_text p exe)) with true; [done|]. symmetry. unfold pid_text.
  apply utf8_valid_app; [done|]. change (x0a :: default [] exe ++ [x0a]) with ([x0a] ++ default [] exe ++ [x0a]).
  apply utf8_valid_app; [done|]. apply utf8_valid_app; [|done]. destruct exe as [r|]; [by apply Hu|done].
Qed.

(** ** Mutual exclusion *)

Record wf (s : Sys) : Prop := {
  wf_procs : forall p pr, live s !! p = Some pr -> good_pid p /\ good_proc pr;
  wf_held : forall p path ino, (p, path, ino) ∈ held s ->
    paths s !! path = Some ino /\ locks s !! ino = Some p /\
    exists pr rec, live s !! p = Some pr /\ started_from rec pr /\ texts s !! ino = Some (pid_text p rec);
  wf_locks : forall ino p, locks s !! ino = Some p -> exists path, (p, path, ino) ∈ held s;
  wf_paths : forall a b ino, paths s !! a = Some ino -> paths s !! b = Some ino -> a = b;
  wf_inos : (forall a ino, paths s !! a = Some ino -> (ino < next_ino s)%nat) /\
            (forall ino p, locks s !! ino = Some p -> (ino < next_ino s)%nat);
}.

(** No path has two owners, and an owner's file is at its path. *)
Lemma wf_exclusive s p q path i j :
  wf s -> (p, path, i) ∈ held s -> (q, path, j) ∈ held s -> p = q /\ i = j.
Proof.
  intros Hw Hp Hq. destruct (wf_held s Hw _ _ _ Hp) as (P1 & L1 & _).
  destruct (wf_held s Hw _ _ _ Hq) as (P2 & L2 & _). split; congruence.
Qed.

Lemma open_wf path s :
  wf s -> let '(ino, s') := open_file path s in
  wf s' /\ paths s' !! path = Some ino /\ held s' = held s /\ live s' = live s /\ locks s' = locks s /\
  (forall p i, (p, path, i) ∈ held s -> i = ino).
Proof.
  intros Hw. unfold open_file. destruct (paths s !! path) as [ino|] eqn:E.
  { split; [done|]. split; [done|]. split; [done|]. split; [done|]. split; [done|]. intros p i Hin.
    destruct (wf_held s Hw _ _ _ Hin) as (P & _). congruence. }
  assert (Hnew : locks s !! next_ino s = None).
  { destruct (locks s !! next_ino s) eqn:El; [|done]. apply (wf_inos s Hw) in El. lia. }
  split; [|cbn; rewrite lookup_insert_eq; split; [done|]; split; [done|]; split; [done|]; split; [done|]].
  - destruct Hw as [H1 H2 H3 H4 [H5 H6]]. split; cbn; try done.
    + intros p path' ino Hin. destruct (H2 _ _ _ Hin) as (P & L & pr & rec & Hl & Hst & T).
      rewrite lookup_insert_ne by congruence. split; [done|]. split; [done|]. exists pr, rec. split; [done|]. split; [done|].
      by rewrite lookup_insert_ne by congruence.
    + intros a b ino. rewrite !lookup_insert. repeat case_decide; subst; try done; [..|by apply H4];
        intros; simplify_eq; exfalso; by match goal with H : paths s !! _ = Some (next_ino s) |- _ => apply H5 in H; lia end.
    + split; [intros a ino; rewrite lookup_insert; case_decide; [intros [= <-]; lia|]|]; intros Hx.
      * apply H5 in Hx. lia.
      * intros q Hq. apply H6 in Hq. lia.
  - intros p i Hin. destruct (wf_held s Hw _ _ _ Hin) as (P & _). congruence.
Qed.

(** A process that holds no lock on the file closes it. *)
Lemma close_other pid ino s : locks s !! ino <> Some pid -> close_file pid ino s = s.
Proof. unfold close_file. destruct (locks s !! ino) as [q|]; [|done]. intros H. by replace (q =? pid) with false by (symmetry; apply Z.eqb_neq; congruence). Qed.

(** The owner of a held lock is found alive. *)
Lemma owner_found s p path ino :
  wf s -> (p, path, ino) ∈ held s ->
  let '(owner, exe) := parse_pid_and_path (read_text ino s) in
  match owner with Some q => is_pid_alive s q exe | None => false end = true.
Proof.
  intros Hw Hin. destruct (wf_held s Hw _ _ _ Hin) as (_ & _ & pr & rec & Hl & Hst & Ht).
  destruct (wf_procs s Hw p pr Hl) as [Hp _]. rewrite (read_pid_text s ino p rec); [|done|].
  2: { intros r ->. by destruct (proj2 Hst r eq_refl) as ((_ & _ & _ & ?) & _). }
  rewrite parse_pid_text; [by eapply alive_owner|done|].
  intros r ->. by destruct (proj2 Hst r eq_refl) as ((? & ? & ? & _) & _).
Qed.

Lemma wf_set_texts s ino t : wf s -> locks s !! ino = None -> wf (set_texts (<[ino := t]> (texts s)) s).
Proof.
  intros [H1 H2 H3 H4 H5] Hl. split; cbn; try done. intros p path i Hin.
  destruct (H2 _ _ _ Hin) as (P & L & pr & rec & Hp & Hst & T). split; [done|]. split; [done|]. exists pr, rec. split; [done|]. split; [done|].
  by rewrite lookup_insert_ne by congruence.
Qed.

Lemma wf_remove e path s : wf s -> (forall p i, (p, path, i) ∉ held s) -> wf (remove_path e path s).
Proof.
  intros Hw Hn. unfold remove_path. destruct (l_remove e); [|done]. destruct Hw as [H1 H2 H3 H4 [H5 H6]].
  split; cbn; try done.
  - intros p path' i Hin. destruct (H2 _ _ _ Hin) as (P & L & R). split; [|done].
    rewrite lookup_delete_ne; [done|]. intros ->. by apply (Hn p i).
  - intros a b i. rewrite !lookup_delete. repeat case_decide; try done. apply H4.
  - split; [|done]. intros a i. rewrite lookup_delete. case_decide; [done|]. apply H5.
Qed.

(** The file is locked and its text written. *)
Lemma wf_hold s p pr path ino :
  wf s -> live s !! p = Some pr -> unmarked pr -> paths s !! path = Some ino -> locks s !! ino = None ->
  wf (set_held ((p, path, ino) :: held s) (set_texts (<[ino := pid_text p (own_exe pr)]> (texts s))
       (set_locks (<[ino := p]> (locks s)) s))).
Proof.
  intros [H1 H2 H3 H4 [H5 H6]] Hl Hu Hp Hn. split; cbn; try done.
  - intros q path' i [E|Hin]%elem_of_cons.
    + simplify_eq. rewrite !lookup_insert_eq. split; [done|]. split; [done|]. destruct (H1 _ _ Hl) as [_ [rec Hst]].
      exists pr, rec. by rewrite (unmarked_record _ _ Hst Hu).
    + destruct (H2 _ _ _ Hin) as (P & L & pr' & rec & Hq & T). assert (i <> ino) by congruence.
      rewrite !lookup_insert_ne by done. split; [done|]. split; [done|]. by exists pr', rec.
  - intros i q. rewrite lookup_insert. case_decide as E.
    + intros [= <-]. subst i. exists path. apply elem_of_cons. by left.
    + intros Hq. destruct (H3 _ _ Hq) as [path' Hin]. exists path'. apply elem_of_cons. by right.
  - split; [done|]. intros i q. rewrite lookup_insert. case_decide; [|apply H6]. subst. intros _. by eapply H5.
Qed.

Lemma close_locked s p ino t :
  locks s !! ino = None ->
  close_file p ino (set_texts t (set_locks (<[ino := p]> (locks s)) s)) = set_texts t s.
Proof.
  intros Hn. unfold close_file. cbn. rewrite lookup_insert_eq, Z.eqb_refl. unfold set_locks, set_texts. cbn.
  by rewrite delete_insert_id.
Qed.

Lemma write_wf e p pr path ino s :
  wf s -> live s !! p = Some pr -> unmarked pr -> paths s !! path = Some ino -> locks s !! ino = None ->
  let '(s', r) := write_pid_and_path e p path ino (set_locks (<[ino := p]> (locks s)) s) in
  wf s' /\ live s' = live s /\
  held s' = match r with Ok i => (p, path, i) :: held s | _ => held s end.
Proof.
  intros Hw Hl Hu Hp Hn. unfold write_pid_and_path. set (s1 := set_locks _ s).
  assert (Ht : forall t, pid_text p (current_exe (set_texts t s1) p) = pid_text p (own_exe pr)).
  { intros t. unfold current_exe. cbn. by rewrite Hl. }
  destruct (l_truncate e); cbn [negb].
  - rewrite Ht. destruct (l_write e) as [k|].
    + match goal with |- context [close_file p ino ?x] =>
        change x with (set_texts (<[ino := take k (pid_text p (own_exe pr))]> (<[ino := []]> (texts s))) s1) end.
      unfold s1. rewrite close_locked, insert_insert_eq by done. split; [by apply wf_set_texts|done].
    + split; [|done].
      match goal with |- wf (set_held _ ?x) =>
        change x with (set_texts (<[ino := pid_text p (own_exe pr)]> (<[ino := []]> (texts s))) s1) end.
      rewrite insert_insert_eq. exact (wf_hold s p pr path ino Hw Hl Hu Hp Hn).
  - pose proof (close_locked s p ino (texts s) Hn) as E. change (set_texts (texts s) _) with s1 in E at 1.
    rewrite E. split; [|done]. by destruct s.
Qed.

(** What a contended attempt finds: a live owner, or a file that nobody owns. *)
Lemma contended_owner s p path ino :
  wf s -> paths s !! path = Some ino -> (forall i, (p, path, i) ∉ held s) ->
  close_file p ino s = s /\
  ((forall q i, (q, path, i) ∉ held s) \/
   let '(owner, exe) := parse_pid_and_path (read_text ino s) in
   match owner with Some q => is_pid_alive s q exe | None => false end = true).
Proof.
  intros Hw Hp Hfree. assert (Hl : locks s !! ino <> Some p).
  { intros Hl. destruct (wf_locks s Hw _ _ Hl) as [path' Hin]. destruct (wf_held s Hw _ _ _ Hin) as (P & _).
    assert (path' = path) as -> by (by eapply wf_paths). by apply (Hfree ino). }
  split; [by apply close_other|]. destruct (locks s !! ino) as [q|] eqn:E.
  - right. destruct (wf_locks s Hw _ _ E) as [path' Hin]. by apply (owner_found s q path' ino).
  - left. intros q i Hin. destruct (wf_held s Hw _ _ _ Hin) as (P & L & _). congruence.
Qed.

Definition acquired_from (p : Z) (path : Path) (s s' : Sys) (r : outcome nat unit) : Prop :=
  wf s' /\ live s' = live s /\ held s' = match r with Ok i => (p, path, i) :: held s | _ => held s end /\ r <> Panic.

Lemma acquire_wf e p pr path n : unmarked pr -> forall s,
  wf s -> live s !! p = Some pr -> (forall i, (p, path, i) ∉ held s) ->
  acquired_from p path s (acquire_inner e p path n s).1 (acquire_inner e p path n s).2.
Proof.
  intros Hu. assert (Hstep : forall s rec, wf s -> live s !! p = Some pr -> (forall i, (p, path, i) ∉ held s) ->
    (forall s1, wf s1 -> live s1 = live s -> held s1 = held s -> (forall q i, (q, path, i) ∉ held s1) ->
       acquired_from p path s (rec s1).1 (rec s1).2) ->
    let body := let '(ino, s) := open_file path s in
      match try_write_lock e p ino s with
      | Some s => write_pid_and_path e p path ino s
      | None =>
          let '(owner, exe) := parse_pid_and_path (read_text ino s) in
          let s := close_file p ino s in
          if match owner with Some q => is_pid_alive s q exe | None => false end then (s, Err tt) else rec s
      end in
    acquired_from p path s body.1 body.2).
  { intros s rec Hw Hl Hfree Hrec. pose proof (open_wf path s Hw) as Ho. destruct (open_file path s) as [ino s1].
    destruct Ho as (Hw1 & Hp1 & Hh1 & Hl1 & Hk1 & Hi). cbn zeta. rewrite <- Hh1 in Hfree. rewrite <- Hl1 in Hl.
    destruct (contended_owner s1 p path ino Hw1 Hp1 Hfree) as [Hclose Hown].
    unfold try_write_lock. destruct (l_lock e); cbn [negb].
    1: destruct (locks s1 !! ino) as [q|] eqn:El; [destruct (q =? p) eqn:Eq|].
    - bool_prop. subst q. exfalso. destruct (wf_locks s1 Hw1 _ _ El) as [path' Hin].
      destruct (wf_held s1 Hw1 _ _ _ Hin) as (P & _). assert (path' = path) as -> by (by eapply wf_paths).
      by apply (Hfree ino).
    - rewrite Hclose. destruct Hown as [Hnone|Hown].
      + destruct (wf_locks s1 Hw1 _ _ El) as [path' Hin]. destruct (wf_held s1 Hw1 _ _ _ Hin) as (P & _).
        assert (path' = path) as -> by (by eapply wf_paths). by destruct (Hnone q ino).
      + destruct (parse_pid_and_path _) as [owner exe]. rewrite Hown. by split; [|rewrite <- Hl1, <- Hh1].
    - pose proof (write_wf e p pr path ino s1 Hw1 Hl Hu Hp1 El) as Hwr.
      destruct (write_pid_and_path _ _ _ _ _) as [s2 r] eqn:Ewr. destruct Hwr as (W1 & W2 & W3).
      split; [done|]. split; [cbn; congruence|]. split; [cbn; by rewrite W3, Hh1|]. cbn.
      unfold write_pid_and_path in Ewr. repeat case_match; by simplify_eq.
    - rewrite Hclose. destruct (parse_pid_and_path _) as [owner exe].
      destruct (match owner with Some q => _ | None => _ end) eqn:Eo; [by split; [|rewrite <- Hl1, <- Hh1]|].
      destruct Hown as [Hnone|?]; [|done]. by apply Hrec. }
  induction n as [|n IH]; intros s Hw Hl Hfree; cbn [acquire_inner];
    (destruct (l_dir e && l_open e); cbn [negb]; [|done]).
  - apply (Hstep s (fun s => (s, Err tt))); try done.
  - apply (Hstep s (fun s => acquire_inner e p path n (remove_path e path s))); try done.
    intros s1 Hw1 Hl1 Hh1 Hn1. rewrite <- Hl1 in Hl.
    assert (Eh : held (remove_path e path s1) = held s1) by (unfold remove_path; by destruct (l_remove e)).
    assert (Ev : live (remove_path e path s1) = live s1) by (unfold remove_path; by destruct (l_remove e)).
    destruct (IH (remove_path e path s1)) as (A & B & C & D); [by apply wf_remove|by rewrite Ev|intros i; by rewrite Eh|].
    split; [done|]. split; [congruence|]. rewrite C, Eh, Hh1. done.
Qed.

(** ** Processes come and go *)

Definition exit_process (p : Z) (s : Sys) : Sys := {|
  live := delete p (live s); foreign := foreign s; paths := paths s; texts := texts s;
  locks := filter (fun '(_, q) => q <> p) (locks s); next_ino := next_ino s;
  held := List.filter (fun '(q, _, _) => negb (q =? p)) (held s) |}.

(** The program of a running process is replaced on disk. Where the process reads its own path
    from the system, as on Linux, it reads the marked path from then on. *)
Definition replace_program (reads_marked : bool) (p : Z) (s : Sys) : Sys :=
  set_live (alter (fun pr => {| own_exe := if reads_marked then mark <$> own_exe pr else own_exe pr;
    shown_exe := mark <$> own_exe pr |}) p (live s)) s.

(** A process takes a lock before its program is replaced, if it is; [replaced_owner_is_stale] is
    what happens to one that takes it later. *)
Inductive sys_step (s : Sys) : Sys -> Prop :=
| step_spawn p pr : live s !! p = None -> good_pid p -> good_proc pr -> sys_step s (set_live (<[p := pr]> (live s)) s)
| step_exit p : sys_step s (exit_process p s)
| step_replace b p : sys_step s (replace_program b p s)
| step_acquire e p pr path : live s !! p = Some pr -> unmarked pr -> (forall i, (p, path, i) ∉ held s) ->
    sys_step s (acquire e p path s).1
| step_drop p path ino : (p, path, ino) ∈ held s -> sys_step s (drop_lock (p, path, ino) s).

Definition empty_sys (other : Z -> kill_answer) : Sys := {|
  live := ∅; foreign := other; paths := ∅; texts := ∅; locks := ∅; next_ino := 0; held := [] |}.

Lemma elem_of_filter_bool {A} (f : A -> bool) (l : list A) x : x ∈ List.filter f l <-> x ∈ l /\ f x = true.
Proof. rewrite !list_elem_of_In. apply filter_In. Qed.

Lemma exit_wf p s : wf s -> wf (exit_process p s).
Proof.
  intros [H1 H2 H3 H4 [H5 H6]]. split; cbn.
  - intros q pr [_ Hq]%lookup_delete_Some. by apply H1.
  - intros q path ino [Hin Hq]%elem_of_filter_bool. bool_prop. destruct (H2 _ _ _ Hin) as (P & L & pr & rec & Hl & T).
    split; [done|]. split; [by apply map_lookup_filter_Some|]. exists pr, rec. by rewrite lookup_delete_ne.
  - intros ino q [Hl Hq]%map_lookup_filter_Some. destruct (H3 _ _ Hl) as [path Hin]. exists path.
    apply elem_of_filter_bool. split; [done|]. by apply negb_true_iff, Z.eqb_neq.
  - done.
  - split; [done|]. intros ino q [Hl _]%map_lookup_filter_Some. by eapply H6.
Qed.

Lemma replace_wf b p s : wf s -> wf (replace_program b p s).
Proof.
  intros [H1 H2 H3 H4 H5]. split; cbn; try done.
  - intros q pr. destruct (decide (p = q)) as [<-|Hne]; [|rewrite lookup_alter_ne by done; apply H1].
    rewrite lookup_alter_eq. intros (pr' & Hl & E)%fmap_Some_1. subst pr. apply H1 in Hl as [Hp [rec Hg]]. split; [done|].
    exists rec. by apply replaced_started.
  - intros q path ino Hin. destruct (H2 _ _ _ Hin) as (P & L & pr & rec & Hl & Hst & T). split; [done|]. split; [done|].
    destruct (decide (p = q)) as [<-|Hne]; [|exists pr, rec; by rewrite lookup_alter_ne].
    rewrite lookup_alter_eq, Hl. cbn. eexists _, rec. split; [done|]. split; [|done]. by apply replaced_started.
Qed.

Lemma spawn_wf p pr s : wf s -> live s !! p = None -> good_pid p -> good_proc pr -> wf (set_live (<[p := pr]> (live s)) s).
Proof.
  intros [H1 H2 H3 H4 H5] Hn Hp Hg. split; cbn; try done.
  - intros q pr'. rewrite lookup_insert. case_decide; [intros [= <-]; by subst|apply H1].
  - intros q path ino Hin. destruct (H2 _ _ _ Hin) as (P & L & pr' & rec & Hl & T). split; [done|]. split; [done|].
    exists pr', rec. rewrite lookup_insert_ne by congruence. done.
Qed.

Lemma drop_wf p path ino s : wf s -> (p, path, ino) ∈ held s -> wf (drop_lock (p, path, ino) s).
Proof.
  intros Hw Hin. destruct (wf_held s Hw _ _ _ Hin) as (P & L & _). unfold drop_lock, close_file. cbn.
  rewrite L, Z.eqb_refl. assert (Hw' := Hw). destruct Hw as [H1 H2 H3 H4 [H5 H6]]. split; cbn; try done.
  - intros q path' i [Hq Hne]%elem_of_filter_bool. bool_prop. destruct (H2 _ _ _ Hq) as (P' & L' & R).
    split; [done|]. split; [|done]. rewrite lookup_delete_ne; [done|]. intros <-. apply Hne.
    assert (path' = path) as -> by (by eapply H4). congruence.
  - intros i q. rewrite lookup_delete. case_decide as E; [done|]. intros Hl. destruct (H3 _ _ Hl) as [path' Hq].
    exists path'. apply elem_of_filter_bool. split; [done|]. apply negb_true_iff, bool_decide_eq_false_2. congruence.
  - split; [done|]. intros i q. rewrite lookup_delete. case_decide; [done|]. apply H6.
Qed.

Lemma sys_step_wf s s' : wf s -> sys_step s s' -> wf s'.
Proof.
  intros Hw [p pr Hn Hp Hg|p|b p|e p pr path Hl Hu Hf|p path ino Hin];
    [by apply spawn_wf|by apply exit_wf|by apply replace_wf|by apply (acquire_wf e p pr)|by apply drop_wf].
Qed.

Lemma reachable_wf other s : rtc sys_step (empty_sys other) s -> wf s.
Proof.
  intros Hr. assert (Hw : wf (empty_sys other)).
  { split; cbn; [| |..|split]; intros *; rewrite ?lookup_empty; try done. by intros ?%elem_of_nil. }
  revert Hw. induction Hr as [|s s1 s2 H1 _ IH]; [done|]. intros Hw. apply IH. by eapply sys_step_wf.
Qed.


(** All calls of an acquisition succeed. *)
Definition all_ok : lock_env :=
  {| l_dir := true; l_open := true; l_lock := true; l_truncate := true; l_write := None; l_remove := true |}.

(** A free path is taken. *)
Lemma acquire_succeeds s p path :
  wf s -> (forall q i, (q, path, i) ∉ held s) -> exists ino, (acquire all_ok p path s).2 = Ok ino.
Proof.
  intros Hw Hfree. unfold acquire. cbn [acquire_inner all_ok l_dir l_open andb negb].
  pose proof (open_wf path s Hw) as Ho. destruct (open_file path s) as [ino s1].
  destruct Ho as (Hw1 & Hp1 & Hh1 & Hl1 & Hk1 & Hi). unfold try_write_lock. cbn [l_lock negb all_ok].
  destruct (locks s1 !! ino) as [q|] eqn:El; [|by exists ino]. exfalso.
  destruct (wf_locks s1 Hw1 _ _ El) as [path' Hin]. destruct (wf_held s1 Hw1 _ _ _ Hin) as (P & _).
  assert (path' = path) as -> by (by eapply wf_paths). rewrite Hh1 in Hin. by apply (Hfree q ino).
Qed.

(** An acquisition by a process whose program was not replaced succeeds exactly when no process
    owns the path; what the file holds from earlier owners does not matter. *)
Theorem acquire_iff_free other s p pr path :
  rtc sys_step (empty_sys other) s -> live s !! p = Some pr -> unmarked pr -> (forall i, (p, path, i) ∉ held s) ->
  (exists ino, (acquire all_ok p path s).2 = Ok ino) <-> (forall q i, (q, path, i) ∉ held s).
Proof.
  intros Hr Hl Hu Hf. apply reachable_wf in Hr as Hw. split.
  - intros [ino Hok] q i Hin.
    pose proof (acquire_wf all_ok p pr path 1 Hu s Hw Hl Hf) as (Hw' & _ & Hh & _).
    unfold acquire in Hok. rewrite Hok in Hh. destruct (wf_exclusive _ p q path ino i Hw') as [<- _].
    + rewrite Hh. apply elem_of_cons. by left.
    + rewrite Hh. apply elem_of_cons. by right.
    + by apply (Hf i).
  - by apply acquire_succeeds.
Qed.

(** ** Overlapping acquisitions *)

(** Two processes at once: [true] lets the first take a step. *)
Fixpoint interleave (p q : Z) (path : Path) (sched : list bool) (a b : phase) (s : Sys) : phase * phase * Sys :=
  match sched with
  | [] => (a, b, s)
  | true :: rest => let '(a, s) := lock_step all_ok p path a s in interleave p q path rest a b s
  | false :: rest => let '(b, s) := lock_step all_ok q path b s in interleave p q path rest a b s
  end.

(** The second looks between the first's lock and its process id. *)
Definition race_schedule : list bool := [true; true] ++ replicate 8 false ++ [true; true].

Section Steps.
Variables (p : Z) (path : Path) (n : nat).
Abbreviation go := (lock_step all_ok p path).

Definition created (s : Sys) : Sys := {|
  live := live s; foreign := foreign s; paths := <[path := next_ino s]> (paths s);
  texts := <[next_ino s := []]> (texts s); locks := locks s; next_ino := S (next_ino s); held := held s |}.

Lemma go_create s : paths s !! path = None -> go (Opening n) s = (Opened (next_ino s) n, created s).
Proof. intros E. cbn. unfold open_file. by rewrite E. Qed.

Lemma go_open s ino : paths s !! path = Some ino -> go (Opening n) s = (Opened ino n, s).
Proof. intros E. cbn. unfold open_file. by rewrite E. Qed.

Lemma go_lock s ino : locks s !! ino = None -> go (Opened ino n) s = (Locked ino, set_locks (<[ino := p]> (locks s)) s).
Proof. intros E. cbn. unfold try_write_lock. cbn. by rewrite E. Qed.

Lemma go_taken s ino q : locks s !! ino = Some q -> q <> p -> go (Opened ino n) s = (Contended ino n, s).
Proof. intros E Hq. cbn. unfold try_write_lock. cbn. rewrite E. by replace (q =? p) with false by lia. Qed.

Lemma go_blank s ino q :
  texts s !! ino = Some [] -> locks s !! ino = Some q -> q <> p -> go (Contended ino (S n)) s = (Removing n, s).
Proof. intros E El Hq. cbn. unfold read_text. rewrite E, close_other by congruence. done. Qed.

Lemma go_remove s : go (Removing n) s = (Opening n, remove_path all_ok path s).
Proof. done. Qed.
End Steps.

(** A process that finds the file locked before the owner has written its process id takes
    it for stale, removes it and locks a new one: both own the path. *)
Theorem lock_race other s p q path :
  rtc sys_step (empty_sys other) s -> p <> q -> paths s !! path = None ->
  exists i j s', interleave p q path race_schedule (Opening 1) (Opening 1) s = (Acquired i, Acquired j, s') /\
    (p, path, i) ∈ held s' /\ (q, path, j) ∈ held s' /\ i <> j.
Proof.
  intros Hr Hpq Hn. apply reachable_wf in Hr as Hw. set (a := next_ino s). set (b := S a).
  assert (Hfree : forall n, (a <= n)%nat -> locks s !! n = None).
  { intros n Hle. destruct (locks s !! n) eqn:E; [|done]. apply (wf_inos s Hw) in E. lia. }
  unfold race_schedule. cbn [app replicate interleave].
  rewrite go_create by done. fold a. set (s1 := created path s).
  rewrite (go_lock p path 1 s1 a) by (apply Hfree; lia). set (s2 := set_locks _ s1).
  assert (L2 : locks s2 !! a = Some p) by (apply lookup_insert_eq).
  rewrite (go_open q path 1 s2 a) by (apply lookup_insert_eq). rewrite (go_taken q path 1 s2 a p) by done.
  rewrite (go_blank q path 0 s2 a p) by (done || apply lookup_insert_eq). rewrite go_remove.
  set (s3 := remove_path all_ok path s2).
  rewrite (go_create q path 0 s3) by (apply lookup_delete_eq). change (next_ino s3) with b. set (s4 := created path s3).
  rewrite (go_lock q path 0 s4 b); [|cbn; rewrite lookup_insert_ne by lia; apply Hfree; lia].
  eexists a, b, _. split; [reflexivity|]. cbn [held set_held set_texts lock_step l_truncate l_write all_ok].
  split; [apply elem_of_cons; by left|]. split; [|lia]. apply elem_of_cons. right. apply elem_of_cons. by left.
Qed.

(** A program that was replaced on disk before it took the lock records the mark of its
    path, and is then taken for another program: whoever comes next finds the lock stale. *)
Theorem replaced_owner_is_stale s p pr r ino
    (running : live s !! p = Some pr) (pid : good_pid p) (path_read : own_exe pr = Some r) (a_line : line_safe (r ++ DELETED)) (new : strip_suffix DELETED r = None) :
  let s' := replace_program true p s in
  let s'' := set_texts (<[ino := pid_text p (current_exe s' p)]> (texts s')) s' in
  exists exe, parse_pid_and_path (read_text ino s'') = (Some p, exe) /\ is_pid_alive s'' p exe = false.
Proof.
  cbv zeta. set (s' := replace_program true p s).
  assert (live s' !! p = Some {| own_exe := Some (r ++ DELETED); shown_exe := Some (r ++ DELETED) |}) as Hl.
  { unfold s', replace_program. cbn [live set_live]. rewrite lookup_alter_eq, running. cbn. rewrite path_read. cbn. unfold mark. by rewrite new. }
  unfold current_exe. rewrite Hl. cbn [mbind option_bind own_exe].
  destruct a_line as (H1 & H2 & H3 & H4).
  rewrite (read_pid_text _ ino p (Some (r ++ DELETED))); [|apply lookup_insert_eq|by intros ? [= <-]].
  rewrite parse_pid_text; [|done|].
  2: { by intros ? [= <-]. }
  eexists. split; [reflexivity|].
  unfold is_pid_alive, kill0, process_exe_path, as_i32, good_pid in *. cbn [live set_texts].
  replace (p =? 0) with false by lia. replace (p <? 2 ^ 31) with true by lia. rewrite Hl. cbn [mbind option_bind shown_exe].
  destruct (r ++ DELETED) as [|c rest] eqn:E; [by destruct r|]. rewrite <- E. unfold exe_path_matches. rewrite strip_suffix_app. cbn [default]. unfold id.
  apply bool_decide_eq_false_2. intros E'. apply (f_equal length) in E'. rewrite length_app in E'. cbn in E'. lia.
Qed.
