(* ===== verification/DaemonLockAll.v ===== *)
(** * The lock set, stale sessions, and witnesses (aic-server/src/lock.rs) *)

From S2P Require Import Prelude RustStr StrOrder DaemonLock DaemonLockSpec.

(** ** The order of the candidates *)

Lemma path_leb_cons x y a b :
  path_leb (x :: a) (y :: b) = true <-> (x = y /\ path_leb a b = true) \/ (x <> y /\ str_le x y).
Proof. cbn. case_bool_decide as E; unfold str_le; intuition congruence. Qed.

Lemma path_leb_total a b : path_leb a b = true \/ path_leb b a = true.
Proof.
  revert b. induction a as [|x a IH]; intros [|y b]; [by left..|by right|]. rewrite !path_leb_cons.
  destruct (decide (x = y)) as [->|Hne]; [destruct (IH b); auto|]. destruct (str_le_total x y); auto.
Qed.

Lemma path_leb_trans a b c : path_leb a b = true -> path_leb b c = true -> path_leb a c = true.
Proof.
  revert b c. induction a as [|x a IH]; intros [|y b] [|z c]; try done. rewrite !path_leb_cons.
  intros [[-> H1]|[H1 H1']] [[-> H2]|[H2 H2']]; eauto.
  right. split; [|by etrans]. intros ->. apply H1. by apply (anti_symm str_le).
Qed.

Lemma path_leb_antisymm a b : path_leb a b = true -> path_leb b a = true -> a = b.
Proof.
  revert b. induction a as [|x a IH]; intros [|y b]; try done. rewrite !path_leb_cons.
  intros [[-> H1]|[H1 H1']] [[? H2]|[H2 H2']]; try done; [f_equal; auto|]. destruct H1. by apply (anti_symm str_le).
Qed.

Lemma dedup_cons x y l : dedup (x :: y :: l) = if bool_decide (x = y) then dedup (y :: l) else x :: dedup (y :: l).
Proof. done. Qed.

Lemma dedup_elem x l : x ∈ dedup l <-> x ∈ l.
Proof.
  induction l as [|y [|z l] IH]; [done|done|]. rewrite dedup_cons. case_bool_decide as E; [subst; set_solver|set_solver].
Qed.

Lemma dedup_NoDup l : StronglySorted (fun a b => path_leb a b = true) l -> NoDup (dedup l).
Proof.
  induction 1 as [|x l Hs IH Hx]; [constructor|]. destruct l as [|y l]; [apply NoDup_singleton|].
  rewrite dedup_cons. case_bool_decide as E; [done|]. constructor; [|done]. rewrite dedup_elem. intros Hin.
  apply Forall_cons in Hx as [Hxy _]. apply E. apply path_leb_antisymm; [done|].
  apply elem_of_cons in Hin as [->|Hin]; [done|]. inversion Hs as [|? ? _ Hy]; subst. rewrite Forall_forall in Hy. by apply Hy.
Qed.

Lemma ordered_paths l : NoDup (dedup (sort_by path_leb l)) /\ forall x, x ∈ dedup (sort_by path_leb l) <-> x ∈ l.
Proof.
  split; [apply dedup_NoDup, sort_by_sorted; [apply path_leb_total|apply path_leb_trans]|].
  intros x. rewrite dedup_elem. by rewrite sort_by_Permutation.
Qed.

(** ** All or nothing *)

Section Set_.
Variables (p : Z) (pr : Proc) (canonical : Path) (usable : Path -> bool).
(** The process takes its locks before its program is replaced. *)
Hypothesis own_unmarked : unmarked pr.

(** The paths that must be taken. *)
Definition wanted (path : Path) : bool := bool_decide (path = canonical) || usable path.

(** The process has [got], and the others hold what they held. *)
Record taking (others : list (Z * Path * nat)) (got : list (Z * Path * nat)) (s : Sys) : Prop := {
  tk_wf : wf s;
  tk_live : live s !! p = Some pr;
  tk_held : held s = rev got ++ others;
  tk_mine : Forall (fun l => l.1.1 = p) got;
  tk_others : Forall (fun l => l.1.1 <> p) others;
  tk_nodup : NoDup got;
}.

Lemma taking_drop others l got s : taking others (l :: got) s -> taking others got (drop_lock l s).
Proof.
  intros [H1 H2 H3 H4 H5 H6]. apply Forall_cons in H4 as [Hl H4]. apply NoDup_cons in H6 as [Hn H6].
  destruct l as [[q path] ino]. cbn in Hl. subst q.
  assert (Hin : (p, path, ino) ∈ held s) by (rewrite H3; cbn; set_solver).
  split; [by apply drop_wf|..|done|done|done].
  - unfold drop_lock, close_file. cbn. by repeat case_match.
  - assert (Eh : held (drop_lock (p, path, ino) s) =
      List.filter (fun l' => negb (bool_decide (l' = (p, path, ino)))) (held s))
      by (unfold drop_lock, close_file; cbn; by repeat case_match).
    rewrite Eh, H3. cbn [rev]. rewrite !List.filter_app. cbn [List.filter].
    rewrite bool_decide_eq_true_2 by done. cbn [negb app].
    assert (Hkeep : forall ls, Forall (fun l => l <> (p, path, ino)) ls ->
      List.filter (fun l' => negb (bool_decide (l' = (p, path, ino)))) ls = ls).
    { induction 1 as [|l ls Hl _ IH]; [done|]. cbn. rewrite bool_decide_eq_false_2 by done. cbn. by rewrite IH. }
    rewrite !Hkeep, app_nil_r; [done|..].
    + eapply Forall_impl; [exact H5|]. by intros [[q ?] ?] Hq [= -> -> ->].
    + apply Forall_forall. intros l Hl ->. apply Hn. by apply list_elem_of_In, in_rev, list_elem_of_In.
Qed.

Lemma taking_drop_all others got : forall s, taking others got s -> taking others [] (foldl (fun s l => drop_lock l s) s got).
Proof. induction got as [|l got IH]; intros s Ht; [done|]. cbn. by apply IH, taking_drop. Qed.

Lemma acquire_each_spec others : forall ordered got s,
  NoDup ordered -> (forall path i, path ∈ ordered -> (p, path, i) ∉ got) -> taking others got s ->
  match acquire_each (fun _ => all_ok) usable p canonical ordered got s with
  | (s', Ok all) => taking others all s' /\ (exists more, all = got ++ more) /\
      (forall path, path ∈ ordered -> wanted path = true -> (exists i, (p, path, i) ∈ all) /\ forall q i, (q, path, i) ∉ others)
  | (s', Err _) => taking others [] s' /\ exists path q i, path ∈ ordered /\ wanted path = true /\ (q, path, i) ∈ others
  | (_, Panic) => False
  end.
Proof.
  induction ordered as [|path rest IH]; intros got s Hnd Hfree Ht; cbn [acquire_each].
  { split; [done|]. split; [exists []; by rewrite app_nil_r|]. set_solver. }
  apply NoDup_cons in Hnd as [Hnin Hnd]. fold (wanted path).
  destruct (negb (bool_decide (path = canonical)) && negb (usable path)) eqn:Ew.
  - assert (Hw : wanted path = false) by (unfold wanted; by destruct (bool_decide _), (usable path)).
    specialize (IH got s Hnd ltac:(set_solver) Ht).
    destruct (acquire_each _ _ _ _ rest got s) as [s' [all| |]]; [|set_solver|done].
    destruct IH as (H1 & H2 & H3). split; [done|]. split; [done|]. intros path' [->|Hin]%elem_of_cons; [congruence|by apply H3].
  - assert (Hw : wanted path = true) by (unfold wanted; by destruct (bool_decide _), (usable path)).
    destruct Ht as [T1 T2 T3 T4 T5 T6].
    assert (Hmine : forall i, (p, path, i) ∉ held s).
    { intros i. rewrite T3, elem_of_app. intros [Hin|Hin].
      - apply list_elem_of_In, in_rev, list_elem_of_In in Hin. by apply (Hfree path i); [set_solver|].
      - rewrite Forall_forall in T5. by apply T5 in Hin. }
    pose proof (acquire_wf all_ok p pr path 1 own_unmarked s T1 T2 Hmine) as (A1 & A2 & A3 & A4). fold (acquire all_ok p path) in *.
    assert (Hother : forall q i, (q, path, i) ∈ others -> (q, path, i) ∈ held s) by (intros; rewrite T3; set_solver).
    destruct (acquire all_ok p path s) as [s1 [ino| |]] eqn:Ea; cbn [fst snd] in *; [| |done].
    + assert (Hnew : taking others (got ++ [(p, path, ino)]) s1).
      { split; [done|by rewrite A2|by rewrite A3, T3, rev_app_distr|..|done|].
        - apply Forall_app. split; [done|]. by apply List.Forall_cons.
        - apply NoDup_app. split; [done|]. split; [|apply NoDup_singleton]. intros l Hl ->%list_elem_of_singleton.
          by apply (Hfree path ino); [set_solver|]. }
      specialize (IH (got ++ [(p, path, ino)]) s1 Hnd). destruct (acquire_each _ _ _ _ rest _ s1) as [s' [all| |]].
      * destruct IH as (H1 & [more ->] & H3); [|done|].
        { intros path' i Hin [?|Hx%list_elem_of_singleton]%elem_of_app; [by apply (Hfree path' i); [set_solver|]|congruence]. }
        split; [done|]. split; [exists ((p, path, ino) :: more); by rewrite <- app_assoc|].
        intros path' [->|Hin]%elem_of_cons Hw'; [|by apply H3]. split; [exists ino; set_solver|].
        intros q i Hq. destruct (wf_exclusive s1 p q path ino i A1) as [<- _]; [rewrite A3; set_solver|rewrite A3; set_solver|].
        rewrite Forall_forall in T5. by apply T5 in Hq.
      * destruct IH as (H1 & path' & q & i & H3 & H4 & H5); [|done|].
        { intros path' i Hin [?|Hx%list_elem_of_singleton]%elem_of_app; [by apply (Hfree path' i); [set_solver|]|congruence]. }
        split; [done|]. exists path', q, i. split; [set_solver|done].
      * apply IH; [|done]. intros path' i Hin [?|Hx%list_elem_of_singleton]%elem_of_app; [by apply (Hfree path' i); [set_solver|]|congruence].
    + split; [apply taking_drop_all; split; try done; [by rewrite A2|by rewrite A3]|].
      destruct (decide (Exists (fun l => l.1.2 = path) (held s))) as [He|Hn].
      * apply Exists_exists in He as ([[q path'] i] & Hin & Hp). cbn in Hp. subst path'. exists path, q, i.
        split; [set_solver|]. split; [done|]. rewrite T3 in Hin. apply elem_of_app in Hin as [Hin|Hin]; [|done].
        apply list_elem_of_In, in_rev, list_elem_of_In in Hin. rewrite Forall_forall in T4.
        pose proof (T4 _ Hin) as Hq. cbn in Hq. subst q. by destruct (Hfree path i); [set_solver|].
      * destruct (acquire_succeeds s p path T1) as [ino Hok]; [|by rewrite Ea in Hok].
        intros q i Hin. apply Hn, Exists_exists. by exists (q, path, i).
Qed.
End Set_.

(** A daemon that takes the locks of all its candidate paths gets all that it can use, or,
    when another process owns one of them, none, and the other owners keep theirs. *)
Theorem lock_set_all_or_nothing other s p pr canonical candidates usable :
  rtc sys_step (empty_sys other) s -> live s !! p = Some pr -> unmarked pr -> (forall path i, (p, path, i) ∉ held s) ->
  let wants path := path ∈ candidates ++ [canonical] /\ wanted canonical usable path = true in
  match acquire_all (fun _ => all_ok) usable p canonical candidates s with
  | (s', Ok got) => wf s' /\ held s' = rev got ++ held s /\
      forall path, wants path -> (exists i, (p, path, i) ∈ held s') /\ forall q i, (q, path, i) ∉ held s
  | (s', Err _) => wf s' /\ held s' = held s /\ exists path q i, wants path /\ (q, path, i) ∈ held s
  | (_, Panic) => False
  end.
Proof.
  intros Hr Hl Hu Hf wants. apply reachable_wf in Hr as Hw. unfold acquire_all.
  destruct (ordered_paths (candidates ++ [canonical])) as [Hnd Hel].
  assert (Ht : taking p pr (held s) [] s).
  { split; try done; [|apply NoDup_nil_2]. apply Forall_forall. intros [[q path] i] Hin Hq. cbn in Hq. subst q.
    by apply (Hf path i). }
  pose proof (acquire_each_spec p pr canonical usable Hu (held s) _ [] s Hnd ltac:(set_solver) Ht) as H.
  destruct (acquire_each _ _ _ _ _ _ _) as [s' [got| |]]; [..|done].
  - destruct H as ([T1 _ T3 _ _ _] & _ & H). split; [done|]. split; [done|]. intros path [Hin Hwa].
    destruct (H path) as [[i Hi] H2]; [by apply Hel|done|]. split; [|done]. exists i. rewrite T3.
    apply elem_of_app. left. by apply list_elem_of_In, in_rev; rewrite rev_involutive; apply list_elem_of_In.
  - destruct H as ([T1 _ T3 _ _ _] & path & q & i & H1 & H2 & H3). split; [done|]. split; [done|].
    exists path, q, i. split; [|done]. split; [by apply Hel|done].
Qed.

(** ** Stale sessions *)

(** A file that the cleanup must not touch: not a session's, a socket that answers, or the
    process-id file of a live process. *)
Definition protected (s : Sys) (e : clean_env) (fs : gmap str str) (name : str) : Prop :=
  (is_session_socket name = true -> c_connects e name = true) /\
  (forall sock, is_session_socket sock = true -> name = pid_name sock ->
     c_read e name = ReadOk /\ exists content, fs !! name = Some content /\ utf8_valid content = true /\
       let '(pid, exe) := parse_pid_and_path content in
       match pid with Some pid => is_pid_alive s pid exe | None => false end = true).

Lemma remove_other e a b fs : a <> b -> remove_file e a fs !! b = fs !! b.
Proof. intros H. unfold remove_file. destruct (c_remove e a); [|done..]. by rewrite lookup_delete_ne. Qed.

Lemma cleanup_pid_other s e a b fs : a <> b -> cleanup_stale_pid_file s e a fs !! b = fs !! b.
Proof.
  intros Hne. unfold cleanup_stale_pid_file. destruct (fs !! a) as [content|]; [|done].
  destruct (c_read e a); try done; [|by apply remove_other].
  destruct (negb (utf8_valid content)); [by apply remove_other|]. destruct (parse_pid_and_path content) as [pid exe].
  destruct (match pid with Some _ => _ | None => _ end); [done|]. by apply remove_other.
Qed.

Lemma pid_name_not_socket sock : strip_suffix SOCK (pid_name sock) = None.
Proof. unfold strip_suffix, pid_name. rewrite reverse_app. done. Qed.

Lemma cleanup_entry_keeps s e fs fs0 name entry :
  protected s e fs0 name -> fs !! name = fs0 !! name -> cleanup_entry s e fs entry !! name = fs0 !! name.
Proof.
  intros [Hs Hp] Hf. destruct entry as [sock|]; [|done]. cbn [cleanup_entry].
  destruct (is_session_socket sock) eqn:Es; [|done]. cbn [negb]. destruct (c_connects e sock) eqn:Ec; [done|].
  assert (Hne : sock <> name) by (intros ->; rewrite Hs in Ec; done).
  assert (Hgo : cleanup_stale_pid_file s e (pid_name sock) (remove_file e sock fs) !! name = fs0 !! name);
    [|by destruct (c_remove e sock)].
  destruct (decide (pid_name sock = name)) as [<-|Hn]; [|by rewrite cleanup_pid_other, remove_other].
  destruct (Hp sock Es eq_refl) as (Hr & content & H1 & H2 & H3). unfold cleanup_stale_pid_file.
  rewrite remove_other, Hf, H1 by done. rewrite Hr, H2. cbn [negb]. destruct (parse_pid_and_path content) as [pid exe].
  rewrite H3. by rewrite remove_other, Hf.
Qed.

(** The cleanup of a session directory leaves every socket that answers and every live
    session's process-id file, and any other file; a socket that does not answer is removed
    when it can be. *)
Theorem cleanup_safe_and_complete s e d d' :
  cleanup_stale_sessions_in s e (Some d) = Some d' ->
  (forall name, protected s e (files d) name -> files d' !! name = files d !! name) /\
  (forall sock, Some sock ∈ listing d -> is_session_socket sock = true -> c_connects e sock = false ->
     c_remove e sock = RmOk -> files d' !! sock = None).
Proof.
  intros [= <-]. cbn [files]. split.
  - intros name Hp. assert (H : forall l fs, fs !! name = files d !! name ->
      foldl (cleanup_entry s e) fs l !! name = files d !! name); [|by apply H].
    induction l as [|x l IH]; intros fs Hf; [done|]. cbn. apply IH. by apply cleanup_entry_keeps.
  - intros sock Hin Hs Hc Hrm.
    assert (Hkeep : forall l fs, fs !! sock = None -> foldl (cleanup_entry s e) fs l !! sock = None).
    { intros l. induction l as [|x l IH]; intros fs Hf; [done|]. cbn. apply IH.
      destruct x as [other|]; [|done]. cbn [cleanup_entry]. destruct (is_session_socket other) eqn:Eo; [|done]. cbn [negb].
      destruct (c_connects e other); [done|].
      assert (Hr : remove_file e other fs !! sock = None).
      { unfold remove_file. destruct (c_remove e other); [|done..]. rewrite lookup_delete. by case_decide. }
      assert (Hn : pid_name other <> sock).
      { intros <-. unfold is_session_socket in Hs. rewrite pid_name_not_socket in Hs. by rewrite andb_false_r in Hs. }
      destruct (c_remove e other); [|done|]; by rewrite cleanup_pid_other. }
    generalize (files d) as fs. induction (listing d) as [|x l IH]; [set_solver|]. intros fs. cbn.
    apply elem_of_cons in Hin as [<-|Hin]; [|by apply IH]. apply Hkeep. cbn [cleanup_entry]. rewrite Hs, Hc, Hrm. cbn [negb].
    rewrite cleanup_pid_other; [unfold remove_file; rewrite Hrm; apply lookup_delete_eq|].
    intros Hx. unfold is_session_socket in Hs. rewrite <- Hx, pid_name_not_socket in Hs. by rewrite andb_false_r in Hs.
Qed.

(** ** Witnesses *)

Definition nobody (_ : Z) : kill_answer := KillNoProcess.
Definition aicd : Proc := {| own_exe := Some (lit "/usr/bin/aicd"); shown_exe := Some (lit "/usr/bin/aicd") |}.
Definition run_aic : Path := [lit "run"; lit "aicd.pid"].
Definition tmp_aic : Path := [lit "tmp"; lit "aicd.pid"].

(** Two daemons are running, and the first has the lock. *)
Definition sys1 : Sys := set_live (<[100 := aicd]> ∅) (empty_sys nobody).
Definition sys2 : Sys := set_live (<[200 := aicd]> (live sys1)) sys1.
Definition sys3 : Sys := (acquire all_ok 100 run_aic sys2).1.

Lemma aicd_good : good_proc aicd.
Proof.
  exists (own_exe aicd). split; [by left|]. intros r [= <-]. split; [|split; [done|by right; left]].
  split; [by_decide|]. split; [done|]. split; [by vm_compute|done].
Qed.

Lemma aicd_unmarked : unmarked aicd.
Proof. by intros r [= <-]. Qed.

Lemma sys2_reachable : rtc sys_step (empty_sys nobody) sys2.
Proof.
  eapply rtc_l; [apply (step_spawn _ 100 aicd); [done|by split|apply aicd_good]|].
  eapply rtc_l; [apply (step_spawn _ 200 aicd); [done|by split|apply aicd_good]|]. apply rtc_refl.
Qed.

Lemma sys3_reachable : rtc sys_step (empty_sys nobody) sys3.
Proof.
  eapply rtc_r; [apply sys2_reachable|]. apply (step_acquire _ all_ok 100 aicd run_aic); [done|apply aicd_unmarked|]. intros i. by_decide || set_solver.
Qed.

Lemma sys3_held : held sys3 = [(100, run_aic, 0%nat)].
Proof. by vm_compute. Qed.


Lemma acquire_iff_free_witness : ~ (exists ino, (acquire all_ok 200 run_aic sys3).2 = Ok ino).
Proof.
  assert (Hf : forall i, (200, run_aic, i) ∉ held sys3) by (intros i; rewrite sys3_held; by intros ?%list_elem_of_singleton).
  destruct (acquire_iff_free nobody sys3 200 aicd run_aic sys3_reachable ltac:(done) aicd_unmarked Hf) as [Ho _].
  intros H. apply (Ho H 100 0%nat). rewrite sys3_held. by apply elem_of_cons; left.
Defined.

Lemma lock_race_witness :
  exists i j s', interleave 100 200 run_aic race_schedule (Opening 1) (Opening 1) sys2 = (Acquired i, Acquired j, s') /\
    (100, run_aic, i) ∈ held s' /\ (200, run_aic, j) ∈ held s' /\ i <> j.
Proof. apply (lock_race nobody sys2 100 200 run_aic sys2_reachable); done. Defined.

Lemma replaced_owner_is_stale_witness :
  exists exe, is_pid_alive (set_texts {[0%nat := pid_text 100 (Some (lit "/usr/bin/aicd (deleted)"))]} (replace_program true 100 sys2)) 100 exe = false.
Proof.
  destruct (replaced_owner_is_stale sys2 100 aicd (lit "/usr/bin/aicd") 0) as (exe & _ & H); [done|by split|done| |done|].
  - split; [by_decide|]. split; [done|]. split; [by vm_compute|done].
  - by exists exe.
Defined.

Lemma lock_set_all_or_nothing_witness :
  held (acquire_all (fun _ => all_ok) (fun _ => true) 200 tmp_aic [run_aic; tmp_aic] sys3).1 = held sys3.
Proof.
  pose proof (lock_set_all_or_nothing nobody sys3 200 aicd tmp_aic [run_aic; tmp_aic] (fun _ => true) sys3_reachable
    ltac:(done) aicd_unmarked ltac:(intros path i; rewrite sys3_held; by intros ?%list_elem_of_singleton)) as H.
  cbn zeta in H. destruct (acquire_all _ _ _ _ _ _) as [s' [got| |]] eqn:E; [..|done]; cbn [fst].
  - destruct H as (_ & _ & H). destruct (H run_aic) as [_ Hn]; [split; [by apply elem_of_app; left; apply elem_of_cons; left|done]|].
    exfalso. apply (Hn 100 0%nat). rewrite sys3_held. by apply elem_of_cons; left.
  - by destruct H as (_ & -> & _).
Defined.

Definition clean_demo : clean_env :=
  {| c_connects := fun _ => false; c_remove := fun _ => RmOk; c_read := fun _ => ReadOk |}.
Definition dir_demo : SessionDir := {|
  listing := [Some (lit "session-1.sock")];
  files := {[ lit "session-1.sock" := []; lit "session-1.pid" := pid_text 100 (own_exe aicd) ]} |}.

Lemma cleanup_safe_and_complete_witness :
  exists d', cleanup_stale_sessions_in sys3 clean_demo (Some dir_demo) = Some d' /\
    files d' !! lit "session-1.sock" = None.
Proof.
  eexists. split; [reflexivity|].
  apply (cleanup_safe_and_complete sys3 clean_demo dir_demo _ eq_refl); [by apply elem_of_cons; left|done..].
Defined.
